(* ===== verification/_CoqProject ===== *)
-Q . S2P
Prelude.v
Overloads.v
Inplace.v
Ownership.v
Bytes.v
RpcValue.v
RpcCodec.v
Converters.v
Optional.v
NativeStorage.v
ExportDispatch.v
DirectDispatch.v
Import.v
Interface.v
Registration.v
Generate.v
Declarations.v
ImportGenerate.v
AsyncGenerate.v
ExportGenerate.v
ExportCore.v
BoundOverloads.v
ImportGroups.v
Published.v
RpcRouter.v
RpcCall.v
AsyncOperation.v
AsyncImport.v
FlowAsync.v
UvExecutor.v
PyExecutor.v
NapiBackend.v
NapiCalls.v
NapiReferences.v
NapiObjects.v
NapiClasses.v
PythonRefs.v
PythonCall.v
PythonObjects.v
PythonLifetime.v
PythonCallbacks.v
PythonModules.v
PythonConverters.v
PythonDispatch.v
