(* ===== verification/Prelude.v ===== *)
(** * Dyna Bridge: a verification library

    Dyna Bridge exports C++ functions and classes to dynamic runtimes (CPython, Node-API,
    its own RPC) and imports their functions into C++. This library models the C++14/17
    headers under src/dynabridge/ and proves what they promise. Programs are translated
    function by function; template metaprograms become functions on lists of types, and a
    program that does not compile is [None], or the assertion that fails.

    ** Parts and files

    - [Prelude]: exceptions and the error policy of error_policy.h, outcomes ([Undefined] is
      a breach of an object's lifetime or of a C++ rule), computations over a store ([eff])
      with their triples, machine widths, shared tactics and lemmas. [Ownership]: the
      multiset of what owners refer to, scopes that unwind, and a triple for code that owns.
    - [Bytes], [RpcValue], [RpcCodec] (backends/rpc.h): little-endian integers, the tagged
      value, the writer and the reader, frames of requests and responses, symbol hashes.
    - [Converters] (traits.h, backends/rpc.h): the casts over a backend's converters, with a
      record of the converter's operations and a class of their laws, and the five
      converters of the RPC backend as instances.
    - [Optional] (optional.h): the union storage, the four layers that select the special
      members, and every member, over a store of objects.
    - [Inplace] (inplace.h): the assertions on the bytes of one object, and storages as
      options: what the operations of a program on its storages do.
    - [NativeStorage] (traits.h): the native object behind an exported one, owned or borrowed.
    - [ExportDispatch] (export_callable.h, callable.h, export_core.h): from dynamic arguments
      to a C++ call: plans, probes, conversions, candidates, overload sets, binders. The
      class [ExportBackend] is what a backend provides. [DirectDispatch]: dispatch when
      conversions only read, as the search for the first signature that takes the arguments.
    - [Overloads]: what C++ makes of a call of an overloaded name, for the headers that rely
      on it: [Import], [ImportGroups] and [BoundOverloads].
    - [Import] (import_callable.h, bridge_arg.h, backend_base.h): the other direction:
      selection of a declared contract, lowering to owned dynamic values, the call.
      [ImportGroups] (callable.h, import_callable.h): groups that inherit their functions from
      contracts, flat and recursive, with the assertions of what they pick.
    - [Interface] (type_list.h, traits.h, callable.h, interface.h): the compile-time half.
    - [Registration] (backend_base.h, export_callable.h): the class registry, the erased
      holder, the builders of overload groups.
    - [Generate]: a declaration table, its macros with their arguments split, and the
      preprocessor as far as the generators use it: definitions, redefinitions, the two
      includes of the table, expansion. [Declarations]: what the expansion declares, as
      nested blocks; names, scopes and lookup; the balanced scan over generated methods.
    - [ImportGenerate] (import_generate.h), [AsyncGenerate] (async_generate.h),
      [ExportGenerate] (export_generate.h): the headers, one definition per replay of the
      table; the declarations they make; what calls, delegates, registrars and asynchronous
      delegates find in them.
    - [ExportCore] (backend_base.h, export_callable.h, export_core.h, import_callable.h): the
      hooks of a backend with their detectors and wrappers; what makes a callable bindable
      and an imported call compile; the registration of callables and classes.
      [BoundOverloads] (export_callable.h): the sets of functions that a group builder binds,
      and the function that a dispatched call of a committed group reaches.
      [Published]: the class objects of a runtime as an interface, and what a class offers
      once its registration has returned. [NapiClasses] (backends/napi.h): the registration
      hooks of the Node-API backend as an instance.
    - [RpcRouter], [RpcCall] (backends/rpc.h): routes that own their binders, definition and
      dispatch; the RPC backend as an [ExportBackend], its import calls over a transport,
      and the loopback transport that joins both.
    - [AsyncOperation] (async.h): the state that the submitter and the completers of one
      asynchronous operation share; invocations that have not been started.
    - [AsyncImport] (async_import.h, async_generate.h), [FlowAsync]
      (extensions/flux_foundry/async.h): asynchronous calls of imported members and
      functions, with the captures of their arguments and the shared ownership of their
      receivers and contexts; awaitables and sinks of the flow library.
    - [UvExecutor], [PyExecutor] (extensions/flux_foundry/): task queues on a libuv loop and
      on a thread of the Python interpreter.
    - [NapiBackend] (backends/napi.h, napi_converters.h): the ownership of native objects,
      class states and callback holders behind Node-API values. [NapiReferences]
      (backends/napi.h): references, class targets, contexts with their caches of handles,
      calls of imported functions, cleanup hooks and the end of the environment. [NapiObjects]
      (backends/napi.h): the objects of C++ among them, imported, moved, assigned, published.
      [NapiCalls]: the backend as an [ExportBackend], and the callbacks given to JavaScript.
    - [PythonRefs], [PythonCall], [PythonObjects], [PythonLifetime], [PythonCallbacks],
      [PythonModules], [PythonConverters], [PythonDispatch] (backends/python.h,
      python_converters.h): the
      references that object_ref and python_error own and the error indicator; calls into
      the interpreter by vector or by tuple and imported callables; the heap of holders,
      callables, instances and natives with every operation on it; its invariant, its
      specification and the programs that user code may run inside an initialiser; the
      entry points the interpreter calls; module and class publication; the conversions; the
      backend as an [ExportBackend], and the callables given to Python down to the C++ call.

    A program travels through them as it does through the headers: a table is elaborated
    ([Generate.elaborate]), replayed ([ImportGenerate.import_generate],
    [ExportGenerate.export_generate]), the signatures in its declarations are those that
    [Import.import_contract_selector] selects from and that [ExportCore.register_all]
    registers. A call: [RpcCall.remote_call] encodes with
    [RpcCodec], [RpcRouter] decodes and finds the route, its binder dispatches with
    [ExportDispatch] through the converters of [Converters], and the answer comes back the
    same way.

    ** How state is modelled

    Sequential code is a computation [eff S A] over an explicit store: objects of
    [optional] and of exported natives in [gmap]s (so that aliasing, self-assignment,
    leaks and double destruction are visible), routes with a heap of binders, the slots of
    dynamic arguments that conversions may consume. The Python backend runs over a ledger
    of owned references (a multiset: releasing one that is not owned is [Undefined]), the
    error indicator, the interpreter's own world, the native heap and the memory of which an
    outgoing vector call borrows one slot. An exception keeps the effects that were made
    before it. The order in which the compiler evaluates the arguments of a call
    is a parameter ([order]), any permutation. Concurrent code ([AsyncOperation],
    [UvExecutor], [PyExecutor]) is a step relation: each critical section and each access
    outside a lock is one step, and threads interleave between them.

    ** What is proved

    - Refinement: a remote call is the local call of the first signature that fits the
      arguments ([RpcCall]); a call from JavaScript or from Python is the local call of the
      first signature that reads them ([NapiCalls], [PythonDispatch]), and through a group of
      bound functions it reaches the function bound to that signature ([BoundOverloads]); overload dispatch is the first-match search without side
      effects before it commits ([ExportDispatch]); the router is a finite map from symbol
      identifiers that leaks no binder ([RpcRouter]); [optional] is the plain option, and
      native storage is an owned or borrowed object, for every program of operations with
      throwing members and aliases ([Optional], [NativeStorage]).
    - Codec: round trips of requests and responses, total encoders with their error,
      decoders that accept exactly canonical frames and never read past them, unique
      framing, bounded allocation ([RpcCodec]); converters are lawful ([Converters]).
    - Safety: dispatch reads no missing argument; an imported call owns each converted
      value once and nothing afterwards; natives that a constructor exposes to JavaScript
      are deleted exactly once, and what becomes of the native of an object that C++ makes is
      settled for every refusal of the host ([NapiBackend]); callbacks let no exception out; every reference to a JavaScript value has one
      owner until the environment goes away, and none after ([NapiReferences], and
      [NapiObjects] with the objects of C++, whose references frame the rest); a context calls
      the function its reference names, and an imported object is the instance it made.
    - Python: every operation ends with the references it began with, plus the one it
      returns, on success and on every error path; an error of the interpreter crosses C++
      and comes back as the same error; natives and holders live exactly as long as their
      objects, however entries of the interpreter follow or nest, as long as no initialiser
      is entered for an object whose initialiser runs ([PythonLifetime]); an outgoing vector call restores the slot it
      borrows; entry points return a value or set an error, never both; integers, reals and
      texts convert exactly or not at all.
    - Concurrency: an asynchronous operation completes once, releases what it holds, and
      its slots are touched only while they hold an object; receivers and contexts live as
      long as a call shares them and are destroyed once, in order; a handler given to a flow
      is answered exactly once; executors are FIFO, lose no
      task and no wakeup, run under the right thread or lock, and shut down.
    - Generated code: for every well-nested table, the generated functions, delegates and
      asynchronous delegates select from the signatures that the table declares, in order;
      the generated registrars register them, interfaces first; a delegate generated from a
      table calls exactly what the registrar generated from it registers; a delegate compiles
      exactly when its interfaces and method names differ ([ImportGenerate],
      [AsyncGenerate], [ExportGenerate]).
    - Registration: it compiles if and only if every hook and member does, runs in order, and
      publishes a class only when all of it succeeded ([ExportCore]). A class that was
      published has, for each member group, the last signature of the group that was
      registered, and of its constructors the last ([Published], [NapiClasses]).
    - Compile time: packs of interfaces compile exactly when they are unambiguous; the
      recovery of method names is complete within logarithmic instantiation depth; import
      selection does not depend on the order of declarations, nor on how a group inherits
      ([Import], [ImportGroups]).

    ** Fuel and bounds

    Encoders and decoders recurse on the values and on the argument count of the frame;
    the loops over routes recurse on the range they search, with the number of routes as
    fuel. The balanced scan of [Interface] has the depth of the compiler's limit, and the
    theorem gives the logarithmic depth that suffices. Executor and operation steps reduce
    a weight that bounds every schedule without new calls. A sink of [FlowAsync] recurses on
    fuel, and two units suffice because its slot is empty while the handler runs. Machine integers keep their
    width: 32-bit [int] and [unsigned], 64-bit payloads, [std::size_t] of 64 bits.

    ** What is not modelled

    - Third-party code is a parameter: Node-API (the records [NapiBackend.host] with
      [HostLaws] and [NapiReferences.host]), the conversions and callables of a user (fields of [ExportBackend]), the
      flow library that asynchronous results are delivered to, libuv (which calls back at
      will), the C API of CPython (the records [PythonRefs.interpreter] and
      [PythonConverters.scalars]; its GIL in [PyExecutor]).
    - Of the classes that the generators declare, the data members, constructors and aliases
      that no lookup uses. Tables are well nested, and the preprocessor takes the arguments
      of a macro as already split. Whether an expression is well formed is a question to the
      compiler: the detectors of traits.h, and the fields of [ExportCore.compiler] and
      [ExportCore.forward_compiler].
    - The umbrella headers and config.h. Optional values and native objects have cells in
      their own stores, not bytes of [Inplace]. The C++14 replacements of is_swappable in
      traits.h, which nothing in the repository uses. Tests, benchmarks and examples.
    - Two contracts of an import group that differ in their results only: C++ refuses the
      group, [Import] the calls that find both.
    - Values of other addons are part of [NapiBackend]: an object they have wrapped, which a
      refused construction leaves with a tag of this library, is excluded from calls
      ([NapiBackend.genuine]), and the memory of their externals must be readable
      ([NapiBackend.no_handoff]); [NapiBackend.Unguarded] shows what happens otherwise.
    - What conversions, binders and constructors that callbacks of Python call do to existing
      instances ([PythonLifetime.user_code]); nested initialisations and deallocations are
      entries of [PythonLifetime.enter].
    - Of the Node-API backend: arguments that are callables of JavaScript, once they are
      imported, as arguments of a dispatched call ([DirectDispatch.param] has values and
      objects); the finalizers that run at the end of the environment.
    - The implicit conversions and the ranking that overload resolution consults are the
      language's and the user's: [Overloads] takes them as arguments, and [BoundOverloads]
      only uses that nothing is better than the identity.
    - Timing, memory exhaustion except where the source handles it, and weak memory: the
      concurrent state is only reached under its mutex or by its claimant. *)

From Stdlib Require Import ZArith Lia.
From Stdlib Require Export Strings.String Strings.Byte.
From stdpp Require Export base tactics list option gmap relations.

#[global] Open Scope Z_scope.

(** ** Tactics shared by the components *)

(** [destruct_match] splits on the innermost scrutinee of a [match] or [if] of
    the goal, remembering the equation. *)
Ltac destruct_match :=
  match goal with
  | |- context [match ?x with _ => _ end] =>
      lazymatch x with
      | context [match _ with _ => _ end] => fail
      | _ => destruct x eqn:?
      end
  end.

(** The same for a hypothesis. *)
Ltac destruct_match_in H :=
  match type of H with
  | context [match ?x with _ => _ end] =>
      lazymatch x with
      | context [match _ with _ => _ end] => fail
      | _ => destruct x eqn:?
      end
  end.

(** Split every match of the goal and close what is immediate. *)
Ltac crush_matches := repeat (destruct_match; simplify_eq/=; try done).

(** ** Exceptions

    [exn] lists the C++ exception classes the library throws or maps, each with
    its [what()] text, plus a value thrown by foreign code that derives from
    [std::exception] ([std_exception]) or not ([foreign_exception]); [python_error] is the
    exception of the Python backend, with the references it owns. *)

Abbreviation text := (list byte).

Definition lit (s : string) : text := list_byte_of_string s.

Inductive exn :=
| protocol_error (message : text)
| remote_error (message : text)
| bad_conversion (message : text)
| runtime_error (message : text)
| length_error (message : text)
| std_exception (message : text)
| python_error (message : text) (type_ value_ traceback_ : option nat)
| foreign_exception.

(** [what e] is [Some] exactly on the classes a [catch (const std::exception&)]
    clause catches. *)
Definition what (e : exn) : option text :=
  match e with
  | protocol_error m | remote_error m | bad_conversion m | runtime_error m
  | length_error m | std_exception m | python_error m _ _ _ => Some m
  | foreign_exception => None
  end.

(** ** The error policy (error_policy.h)

    [DYNABRIDGE_RAISE] throws when the compiler has exceptions and aborts the
    process otherwise; the library is compiled in either mode, so the policy is
    a parameter of every definition that raises. *)

Class ErrorPolicy := { has_exceptions : bool }.

(** [Undefined] marks an execution the C++ rules give no meaning to, or that breaks
    an object's lifetime: a read of a dead object, a second destruction, an object
    overwritten without its destructor, a null dereference. *)
Inductive outcome (A : Type) :=
| Ok (a : A)
| Throw (e : exn)
| Aborted
| Undefined.
Arguments Ok {A} a.
Arguments Throw {A} e.
Arguments Aborted {A}.
Arguments Undefined {A}.

#[export] Instance outcome_ret : MRet outcome := fun A a => Ok a.
#[export] Instance outcome_bind : MBind outcome := fun A B f m =>
  match m with
  | Ok a => f a
  | Throw e => Throw e
  | Aborted => Aborted
  | Undefined => Undefined
  end.

Definition DYNABRIDGE_RAISE `{ErrorPolicy} {A} (e : exn) : outcome A :=
  if has_exceptions then Throw e else Aborted.

Definition is_ok {A} (o : outcome A) : bool :=
  match o with Ok _ => true | _ => false end.

(** ** Stateful computations that may raise

    A computation over a store [S] returns its outcome and the store as it is at
    that point: an exception does not undo the effects before it. *)

Definition eff (S A : Type) : Type := S -> outcome A * S.

#[export] Instance eff_ret {S} : MRet (eff S) := fun A a s => (Ok a, s).
#[export] Instance eff_bind {S} : MBind (eff S) := fun A B f m s =>
  match m s with
  | (Ok a, s') => f a s'
  | (Throw e, s') => (Throw e, s')
  | (Aborted, s') => (Aborted, s')
  | (Undefined, s') => (Undefined, s')
  end.

Definition raise `{ErrorPolicy} {S A} (e : exn) : eff S A :=
  fun s => (DYNABRIDGE_RAISE e, s).
Definition throw {S A} (e : exn) : eff S A := fun s => (Throw e, s).
Definition undefined_behaviour {S A} : eff S A := fun s => (Undefined, s).
Definition lift {S A} (o : outcome A) : eff S A := fun s => (o, s).
Definition gets {S A} (f : S -> A) : eff S A := fun s => (Ok (f s), s).
Definition modify {S} (f : S -> S) : eff S unit := fun s => (Ok tt, f s).

(** ** Generic lemmas *)

Lemma outcome_bind_Ok {A B} (m : outcome A) (f : A -> outcome B) b :
  (m ≫= f) = Ok b <-> exists a, m = Ok a /\ f a = Ok b.
Proof.
  destruct m; simpl; split; try done; try (by intros (? & ? & ?)).
  - eauto.
  - by intros (? & [= ->] & ?).
Qed.

Lemma eff_bind_Ok {S A B} (m : eff S A) (f : A -> eff S B) s b s' :
  (m ≫= f) s = (Ok b, s') <-> exists a s1, m s = (Ok a, s1) /\ f a s1 = (Ok b, s').
Proof.
  unfold mbind, eff_bind. split.
  - destruct (m s) as [[] s1] eqn:E; intros; simplify_eq; eauto.
  - by intros (a & s1 & -> & ?).
Qed.

Lemma eff_bind_run {S A B} (m : eff S A) (f : A -> eff S B) s a s' :
  m s = (Ok a, s') -> (m ≫= f) s = f a s'.
Proof. unfold mbind, eff_bind. by intros ->. Qed.

Lemma eff_bind_cong {S A B} (m : eff S A) (f g : A -> eff S B) s :
  (forall a s', m s = (Ok a, s') -> f a s' = g a s') -> (m ≫= f) s = (m ≫= g) s.
Proof. unfold mbind, eff_bind. intros Hfg. destruct (m s) as [[] ?]; auto. Qed.

(** A computation is safe on [s] when it does not end in [Undefined]. *)
Definition safe {S A} (m : eff S A) (s : S) : Prop := (m s).1 ≠ Undefined.

(** Hoare-style triples over [eff]: from [P] the computation never reaches
    [Undefined], and ends in [Q] of the result and the store, or in [E] when it
    throws or aborts. *)
Definition triple {S A} (P : S -> Prop) (m : eff S A) (Q : A -> S -> Prop) (E : S -> Prop) : Prop :=
  forall s, P s ->
  match m s with
  | (Ok a, s') => Q a s'
  | (Throw _, s') | (Aborted, s') => E s'
  | (Undefined, _) => False
  end.

Lemma triple_bind {S A B} (P : S -> Prop) (m : eff S A) (f : A -> eff S B) R Q E :
  triple P m R E -> (forall a, triple (R a) (f a) Q E) -> triple P (m ≫= f) Q E.
Proof.
  intros Hm Hf s HP. specialize (Hm s HP). unfold mbind, eff_bind.
  destruct (m s) as [[a| | |] s']; try done. by apply Hf.
Qed.

Lemma triple_weaken {S A} (P P' : S -> Prop) (m : eff S A) Q Q' (E E' : S -> Prop) :
  triple P m Q E -> (forall s, P' s -> P s) -> (forall a s, Q a s -> Q' a s) ->
  (forall s, E s -> E' s) -> triple P' m Q' E'.
Proof.
  intros Hm HP HQ HE s Hs. specialize (Hm s (HP s Hs)).
  destruct (m s) as [[a| | |] s']; auto.
Qed.

Lemma triple_ret {S A} (a : A) (P : S -> Prop) E : triple P (mret a) (fun b s => b = a /\ P s) E.
Proof. by intros s Hs. Qed.

Lemma raise_not_Ok `{ErrorPolicy} {A} e (a : A) : DYNABRIDGE_RAISE e ≠ Ok a.
Proof. unfold DYNABRIDGE_RAISE. by destruct has_exceptions. Qed.

Lemma rtc_preserves {A} (R : relation A) (P : A -> Prop) :
  (forall x y, P x -> R x y -> P y) -> forall x y, P x -> rtc R x y -> P y.
Proof. intros HP x y Hx Hr. induction Hr; eauto. Qed.

(** The length of a list as an integer: the [size_t] of the C++ code. *)
Definition zlen {A} (l : list A) : Z := Z.of_nat (length l).

Lemma zlen_nonneg {A} (l : list A) : 0 <= zlen l.
Proof. unfold zlen. lia. Qed.

Lemma zlen_app {A} (l k : list A) : zlen (l ++ k) = zlen l + zlen k.
Proof. unfold zlen. rewrite length_app. lia. Qed.

Lemma zlen_cons {A} (x : A) l : zlen (x :: l) = 1 + zlen l.
Proof. unfold zlen. simpl. lia. Qed.

Lemma zlen_nil {A} : zlen (@nil A) = 0.
Proof. done. Qed.

Lemma zlen_zero {A} (l : list A) : zlen l = 0 -> l = [].
Proof. unfold zlen. destruct l; simpl; [done|lia]. Qed.

Lemma zlen_map {A B} (f : A -> B) l : zlen (map f l) = zlen l.
Proof. unfold zlen. by rewrite length_map. Qed.

Create HintDb bridge.
#[export] Hint Rewrite @zlen_app @zlen_cons @zlen_nil @zlen_map : bridge.
#[export] Hint Resolve zlen_nonneg : bridge.

(** ** Machine widths *)

Definition u8_modulus : Z := 2 ^ 8.
Definition u32_max : Z := 2 ^ 32 - 1.
Definition u64_modulus : Z := 2 ^ 64.
Definition size_max : Z := 2 ^ 64 - 1.
Definition int_min : Z := - 2 ^ 31.
Definition int_max : Z := 2 ^ 31 - 1.
Definition unsigned_max : Z := 2 ^ 32 - 1.

(** Two's complement reading of a 64-bit pattern, and the pattern of an integer:
    the two directions of a [memcpy] between [int64_t] and [uint64_t]. *)
Definition to_bits64 (z : Z) : Z := z mod u64_modulus.
Definition to_signed64 (bits : Z) : Z :=
  if bits <? 2 ^ 63 then bits else bits - u64_modulus.

Lemma to_signed64_to_bits64 z :
  - 2 ^ 63 <= z < 2 ^ 63 -> to_signed64 (to_bits64 z) = z.
Proof.
  intros Hz. unfold to_signed64, to_bits64, u64_modulus.
  destruct (Z.ltb_spec z 0) as [Hneg|Hpos].
  - replace (z mod 2 ^ 64) with (z + 2 ^ 64).
    + destruct (Z.ltb_spec (z + 2 ^ 64) (2 ^ 63)); lia.
    + rewrite <- (Z.mod_small (z + 2 ^ 64) (2 ^ 64)) by lia.
      rewrite <- (Z.mul_1_l (2 ^ 64)) at 1. by rewrite Z.mod_add by lia.
  - rewrite Z.mod_small by lia.
    destruct (Z.ltb_spec z (2 ^ 63)); lia.
Qed.

Lemma to_bits64_range z : 0 <= to_bits64 z < u64_modulus.
Proof. unfold to_bits64, u64_modulus. apply Z.mod_pos_bound. lia. Qed.

Lemma to_bits64_to_signed64 b :
  0 <= b < u64_modulus -> to_bits64 (to_signed64 b) = b.
Proof.
  intros Hb. unfold to_signed64, to_bits64.
  destruct (Z.ltb_spec b (2 ^ 63)) as [H|H].
  - by apply Z.mod_small.
  - rewrite <- (Z.mod_small b u64_modulus) at 2 by done.
    replace (b - u64_modulus) with (b + (-1) * u64_modulus) by lia.
    by rewrite Z.mod_add by (unfold u64_modulus; lia).
Qed.
