(* ===== verification/Overloads.v ===== *)
(** * Overload resolution

    What C++ makes of a call of an overloaded name ([over.match.viable], [over.match.best]),
    as far as the headers rely on it: the groups of imported contracts ([Import]) and the
    sets of functions bound to an exported group ([BoundOverloads]). *)

From stdpp Require Import base list.
From S2P Require Import Prelude.

(** A function: the types of its parameters, and what calling it selects; [None] when it is
    deleted. *)
Record candidate (P C : Type) := mk_candidate { select_parameters : list P; selects : option C }.
Arguments mk_candidate {P C}.
Arguments select_parameters {P C}.
Arguments selects {P C}.

Section Resolution.
Context {X P C : Type} `{EqDecision C}.
(** Whether an argument of a type converts to a parameter, and whether its conversion to
    one parameter is better than to another. *)
Context (convertible : X -> P -> bool) (better : X -> P -> P -> bool).

Fixpoint all2 {A B} (f : A -> B -> bool) (l : list A) (k : list B) : bool :=
  match l, k with
  | [], [] => true
  | a :: l, b :: k => f a b && all2 f l k
  | _, _ => false
  end.
Fixpoint some_better (xs : list X) (ps qs : list P) : bool :=
  match xs, ps, qs with
  | x :: xs, p :: ps, q :: qs => better x p q || some_better xs ps qs
  | _, _, _ => false
  end.

(** The viable functions of a call, and the better of two. *)
Definition viable (xs : list X) (f : candidate P C) : bool := all2 convertible xs (select_parameters f).
Definition better_function (xs : list X) (f g : candidate P C) : bool :=
  some_better xs (select_parameters f) (select_parameters g)
  && negb (some_better xs (select_parameters g) (select_parameters f)).

(** The function that is viable and better than every other viable one; a program that
    calls none, several or a deleted one does not compile. *)
Definition best (group : list (candidate P C)) (xs : list X) : list (candidate P C) :=
  filter (fun f => viable xs f = true /\
            Forall (fun g => viable xs g = true -> selects g = selects f \/ better_function xs f g = true) group) group.
Definition select_in (group : list (candidate P C)) (xs : list X) : option C :=
  match best group xs with [f] => selects f | _ => None end.

Lemma best_elem group xs f :
  f ∈ best group xs <-> f ∈ group /\ viable xs f = true /\
    forall g, g ∈ group -> viable xs g = true -> selects g = selects f \/ better_function xs f g = true.
Proof. unfold best. rewrite list_elem_of_filter, Forall_forall. naive_solver. Qed.

(** What is selected was declared, and beats what else could be called. *)
Lemma select_in_best group xs c :
  select_in group xs = Some c ->
  exists f, f ∈ group /\ selects f = Some c /\ viable xs f = true /\
    forall g, g ∈ group -> viable xs g = true -> selects g = Some c \/ better_function xs f g = true.
Proof.
  unfold select_in. destruct (best group xs) as [|f [|]] eqn:Hb; try done. intros Hc.
  assert (f ∈ best group xs) as Hin by (rewrite Hb; left). apply best_elem in Hin as (Hf & Hv & Hbest).
  exists f. split_and!; [done..|]. intros g Hg Hvg. rewrite <- Hc. by apply Hbest.
Qed.

(** No function is better than one whose parameters are what the arguments are: nothing is
    better than the identity conversion ([over.ics.rank]). *)
Lemma identity_unbeaten (exact : X -> P) (xs : list X) f g :
  (forall x q, better x q (exact x) = false) -> select_parameters g = map exact xs -> better_function xs f g = false.
Proof.
  intros Hid Hg. unfold better_function. rewrite Hg. apply andb_false_iff. left.
  clear Hg. generalize (select_parameters f). induction xs as [|x xs IH]; intros [|p ps]; try done. simpl.
  by rewrite Hid, IH.
Qed.
Lemma identity_viable (exact : X -> P) (xs : list X) g :
  (forall x, convertible x (exact x) = true) -> select_parameters g = map exact xs -> viable xs g = true.
Proof. intros Hid Hg. unfold viable. rewrite Hg. clear Hg. induction xs as [|x xs IH]; [done|]. simpl. by rewrite Hid. Qed.

(** A group declares a function for each of its members; the other functions of the group
    are deleted, and no call that compiles names them. *)
Section Group.
Context (fn : C -> candidate P C).

(** The member that a call selects: it is declared, it can be called, and it is better than
    every other one that can be. *)
Definition selected (cs : list C) (xs : list X) (c : C) : Prop :=
  c ∈ cs /\ selects (fn c) = Some c /\ viable xs (fn c) = true /\
  forall d, d ∈ cs -> d ≠ c -> viable xs (fn d) = true -> better_function xs (fn c) (fn d) = true.

Lemma filter_map_singleton {Y} (Q : candidate P C -> Prop) `{forall z, Decision (Q z)} (g : Y -> candidate P C) (l : list Y) x :
  NoDup l -> x ∈ l -> Q (g x) -> (forall y, y ∈ l -> Q (g y) -> y = x) -> filter Q (map g l) = [g x].
Proof.
  assert (forall k, (forall y, y ∈ k -> ~ Q (g y)) -> filter Q (map g k) = []) as Hnil.
  { induction k as [|y k IH]; intros Hk; [done|]. simpl.
    rewrite filter_cons_False by (apply Hk; left). apply IH. intros z Hz. apply Hk. by right. }
  induction l as [|y l IH]; intros Hnd Hx HQ Huniq; [by apply not_elem_of_nil in Hx|].
  apply NoDup_cons in Hnd as [Hy Hnd]. simpl. apply elem_of_cons in Hx as [->|Hx].
  - rewrite filter_cons_True by done. f_equal. apply Hnil. intros z Hz HQz.
    rewrite (Huniq z) in Hz; [done|by right|done].
  - rewrite filter_cons_False; [apply IH; [done|done|done|]|].
    + intros z Hz. apply Huniq. by right.
    + intros Hy'. by rewrite (Huniq y ltac:(left) Hy') in Hy.
Qed.

Lemma selected_unique cs xs c d : selected cs xs c -> selected cs xs d -> c = d.
Proof.
  intros (Hc & _ & Hvc & Hbc) (Hd & _ & Hvd & Hbd). destruct (decide (c = d)) as [|Hne]; [done|].
  pose proof (Hbc d Hd (not_eq_sym Hne) Hvd) as H1. pose proof (Hbd c Hc Hne Hvc) as H2.
  unfold better_function in *. apply andb_true_iff in H1 as [H1 _], H2 as [_ H2]. by rewrite H1 in H2.
Qed.

(** The functions of the group that a call does not name. *)
Definition not_called (xs : list X) (cs : list C) (deleted : list (candidate P C)) : Prop :=
  (forall c, c ∈ cs -> selects (fn c) = Some c \/ viable xs (fn c) = false) /\
  Forall (fun g => viable xs g = false) deleted.

Lemma best_is_selected xs cs deleted c :
  not_called xs cs deleted -> c ∈ cs -> (fn c ∈ best (map fn cs ++ deleted) xs <-> selected cs xs c).
Proof.
  intros [Hcs Hdel] Hc. rewrite best_elem. unfold selected. split.
  - intros (_ & Hv & Hall). assert (selects (fn c) = Some c) as Hs by (destruct (Hcs c Hc); [done|congruence]).
    split_and!; try done. intros d Hd Hne Hvd. destruct (Hcs d Hd) as [Hsd|]; [|congruence].
    destruct (Hall (fn d)) as [Heq|]; [apply elem_of_app; left; by apply list_elem_of_fmap_2|done| |done]. congruence.
  - intros (_ & Hs & Hv & Hbest). split; [apply elem_of_app; left; by apply list_elem_of_fmap_2|]. split; [done|].
    intros g [(d & -> & Hd)%list_elem_of_fmap|Hg]%elem_of_app Hvg.
    + destruct (decide (d = c)) as [->|Hne]; [by left|]. right. by apply Hbest.
    + rewrite Forall_forall in Hdel. specialize (Hdel g Hg). simpl in Hdel. congruence.
Qed.

Lemma select_in_group xs cs deleted c :
  NoDup cs -> not_called xs cs deleted -> select_in (map fn cs ++ deleted) xs = Some c <-> selected cs xs c.
Proof.
  intros Hnd Hnc. pose proof (best_is_selected xs cs deleted) as Hbest. destruct Hnc as [Hcs Hdel].
  assert (forall f, f ∈ best (map fn cs ++ deleted) xs -> exists d, f = fn d /\ selected cs xs d) as Hin.
  { intros f Hf. pose proof Hf as (Hf' & Hv & _)%best_elem. apply elem_of_app in Hf' as [(d & -> & Hd)%list_elem_of_fmap|Hf'].
    - exists d. split; [done|]. by apply Hbest.
    - rewrite Forall_forall in Hdel. specialize (Hdel f Hf'). simpl in Hdel. congruence. }
  unfold select_in. split.
  - destruct (best (map fn cs ++ deleted) xs) as [|f [|]] eqn:Hb; try done. intros Hsel.
    destruct (Hin f ltac:(left)) as (d & -> & Hd). assert (Some d = Some c) as Heq by (destruct Hd as (_ & <- & _); done). by injection Heq as ->.
  - intros Hc. assert (best (map fn cs ++ deleted) xs = [fn c]) as ->; [|by destruct Hc as (_ & ? & _)].
    unfold best. rewrite filter_app.
    rewrite (filter_map_singleton _ fn cs c); [|done|by destruct Hc|..].
    + replace (filter _ deleted) with (@nil (candidate P C)); [done|]. symmetry.
      assert (forall l, (forall g, g ∈ l -> g ∈ deleted) -> filter (fun f => viable xs f = true /\
            Forall (fun g => viable xs g = true -> selects g = selects f \/ better_function xs f g = true) (map fn cs ++ deleted)) l = []) as Hnone.
      { induction l as [|g l IH]; intros Hl; [done|]. rewrite filter_cons_False; [apply IH; intros; apply Hl; by right|].
        intros [Hv _]. rewrite Forall_forall in Hdel. specialize (Hdel g ltac:(apply Hl; left)). simpl in Hdel. congruence. }
      by apply Hnone.
    + apply Hbest in Hc as Hf; [|by split|by destruct Hc]. by apply list_elem_of_filter in Hf as [? _].
    + intros d Hd HQ. eapply selected_unique; [|exact Hc]. apply Hbest; [by split|done|]. apply list_elem_of_filter.
      split; [exact HQ|]. apply elem_of_app. left. by apply list_elem_of_fmap_2.
Qed.

(** The order of the declarations does not matter. *)
Lemma selected_perm cs cs' xs c : Permutation cs cs' -> selected cs xs c <-> selected cs' xs c.
Proof.
  intros Hp. unfold selected. rewrite Hp.
  split; intros (Hc & Hs & Hv & Hb); (split_and!; [done..|]); intros d Hd; apply Hb; by rewrite Hp in *.
Qed.
End Group.
End Resolution.
