(* ===== verification/Inplace.v ===== *)
(** * inplace.h: aligned storage for one object

    [raw_inplace_storage] holds the bytes of one object, which its user constructs and
    destroys; its assertions on size and alignment are what makes the bytes fit for it.
    Storages of a program are ranges of one memory. *)

From Stdlib Require Import ZArith Lia.
From stdpp Require Import base list gmap.
From S2P Require Import Prelude.

(** ** The assertions *)

(** [sizeof(T)] and [alignof(T)], values of [std::size_t]. *)
Record layout := mk_layout { size_of : Z; align_of : Z }.

Inductive storage_error := storage_too_small | not_a_power_of_two | alignment_too_small | alignment_incompatible.

(** [(Align & (Align - 1)) == 0], where zero minus one is the greatest value. *)
Definition power_of_two_check (align : Z) : bool := Z.land align ((align - 1) mod 2 ^ 64) =? 0.
Definition raw_inplace_storage_check (t : layout) (size align : Z) : option storage_error :=
  if negb (size_of t <=? size) then Some storage_too_small
  else if negb (power_of_two_check align) then Some not_a_power_of_two
  else if negb (align_of t <=? align) then Some alignment_too_small
  else if negb (align mod align_of t =? 0) then Some alignment_incompatible
  else None.

(** What the language has of types: an alignment is a power of two, and a size is a
    positive multiple of it. *)
Record is_layout (t : layout) : Prop := {
  layout_align : exists k, 0 <= k < 64 /\ align_of t = 2 ^ k;
  layout_size : 0 < size_of t;
  layout_multiple : size_of t mod align_of t = 0
}.

Lemma power_of_two_checked align : 0 <= align < 2 ^ 64 ->
  power_of_two_check align = true <-> align = 0 \/ exists k, 0 <= k < 64 /\ align = 2 ^ k.
Proof.
  intros Ha. unfold power_of_two_check. rewrite Z.eqb_eq. destruct (Z.eq_dec align 0) as [->|Hne]; [split; [by left|done]|].
  rewrite Z.mod_small by lia. split.
  - intros Hl. right. exists (Z.log2 align). pose proof (Z.log2_spec align ltac:(lia)) as [Hlo Hhi].
    assert (Z.log2 align < 64) as Hk by (apply Z.log2_lt_pow2; lia). pose proof (Z.log2_nonneg align) as H0. split; [lia|].
    destruct (Z.eq_dec align (2 ^ Z.log2 align)) as [|Hd]; [done|]. exfalso.
    assert (Z.log2 (align - 1) = Z.log2 align) as Hlog by (apply Z.log2_unique; lia).
    assert (Z.testbit (Z.land align (align - 1)) (Z.log2 align) = true) as Hbit.
    { rewrite Z.land_spec, Z.bit_log2 by lia. rewrite <- Hlog. apply Z.bit_log2.
      destruct (Z.eq_dec align 1) as [->|]; [by exfalso; apply Hd|lia]. }
    by rewrite Hl, Z.bits_0 in Hbit.
  - intros [|(k & Hk & ->)]; [done|]. replace (2 ^ k - 1) with (Z.ones k) by (rewrite Z.ones_equiv; lia).
    rewrite Z.land_ones by lia. apply Z.mod_same. lia.
Qed.

(** The last assertion cannot fail: of two powers of two the smaller divides the greater. *)
Lemma alignment_never_incompatible t size align : is_layout t -> 0 <= align < 2 ^ 64 ->
  raw_inplace_storage_check t size align <> Some alignment_incompatible.
Proof.
  intros [(j & Hj & Hat) _ _] Ha. unfold raw_inplace_storage_check. destruct (size_of t <=? size); [|done]. simpl.
  destruct (power_of_two_check align) eqn:Hp; [|done]. simpl. destruct (Z.leb_spec (align_of t) align) as [Hle|]; [|done]. simpl.
  apply (power_of_two_checked align Ha) in Hp as [->|(k & Hk & ->)].
  - rewrite Hat in Hle. pose proof (Z.pow_pos_nonneg 2 j ltac:(lia) ltac:(lia)). lia.
  - rewrite Hat in *. assert (j <= k) as Hjk by (apply (Z.pow_le_mono_r_iff 2); lia).
    replace (2 ^ k) with (2 ^ (k - j) * 2 ^ j) by (rewrite <- Z.pow_add_r by lia; f_equal; lia).
    by rewrite Z.mod_mul by (apply Z.pow_nonzero; lia).
Qed.

(** Bytes at an address with the alignment that was asked for hold an object of the type. *)
Lemma storage_fits t size align data : is_layout t -> 0 <= align < 2 ^ 64 ->
  raw_inplace_storage_check t size align = None -> data mod align = 0 ->
  data mod align_of t = 0 /\ size_of t <= size.
Proof.
  intros Ht Ha. unfold raw_inplace_storage_check. destruct (Z.leb_spec (size_of t) size) as [Hs|]; [|done]. simpl.
  destruct (power_of_two_check align); [|done]. simpl. destruct (Z.leb_spec (align_of t) align) as [Hle|]; [|done]. simpl.
  destruct (Z.eqb_spec (align mod align_of t) 0) as [Hm|]; [|done]. intros _ Hd. split; [|done].
  destruct (layout_align _ Ht) as (k & Hk & Hat). assert (0 < align_of t) as Hpos by (rewrite Hat; apply Z.pow_pos_nonneg; lia).
  apply Z.mod_divide in Hm, Hd; [|lia..]. apply Z.mod_divide; [lia|]. by etransitivity.
Qed.

(** ** Objects in storages *)

Section Storage.
(** The type of the objects, its constructors and its destructor. *)
Context {V A : Type} (t : layout) (constructor : A -> outcome V) (destructor : V -> option exn).
(** The live objects, by address. *)
Abbreviation memory := (gmap Z V).
Abbreviation M := (eff memory).

(** Bytes that no live object covers. *)
Definition unoccupied (data : Z) (m : memory) : bool :=
  forallb (fun p => (data + size_of t <=? p.1) || (p.1 + size_of t <=? data)) (map_to_list m).

(** [raw_inplace_storage_operations]: [construct_at] makes an object of bytes that are aligned
    and free, or throws and makes none; [destroy_at] ends the life of one, also when its
    destructor throws. *)
Definition construct_at (data : Z) (args : A) : M Z := fun m =>
  if (data mod align_of t =? 0) && unoccupied data m then
    match constructor args with
    | Ok v => (Ok data, <[data := v]> m)
    | Throw e => (Throw e, m)
    | Aborted => (Aborted, m)
    | Undefined => (Undefined, m)
    end
  else (Undefined, m).
Definition destroy_at (data : Z) : M unit := fun m =>
  match m !! data with
  | None => (Undefined, m)
  | Some v => (match destructor v with None => Ok tt | Some e => Throw e end, delete data m)
  end.
(** What [ptr] points to. *)
Definition value_at (data : Z) : M V := fun m =>
  match m !! data with Some v => (Ok v, m) | None => (Undefined, m) end.

(** [raw_inplace_storage]: the bytes of one object; the operations of a program on its
    storages. *)
Definition ptr (data_ : Z) : Z := data_.
Definition construct (data_ : Z) (args : A) : M Z := construct_at data_ args.
Definition destroy (data_ : Z) : M unit := destroy_at data_.

Inductive operation := Construct (i : nat) (args : A) | Destroy (i : nat) | Value (i : nat).
Definition storage_at {X} (storages : list Z) (i : nat) (f : Z -> M X) : M X :=
  match storages !! i with Some data_ => f data_ | None => undefined_behaviour end.
Definition run (storages : list Z) (o : operation) : M (option V) :=
  match o with
  | Construct i args => storage_at storages i (fun data_ => p ← construct data_ args; v ← value_at p; mret (Some v))
  | Destroy i => storage_at storages i (fun data_ => destroy data_ ;; mret None)
  | Value i => storage_at storages i (fun data_ => v ← value_at (ptr data_); mret (Some v))
  end.

(** ** What a storage promises: an option *)

Definition specification (o : operation) : eff (list (option V)) (option V) := fun l =>
  match o with
  | Construct i args =>
      match l !! i with
      | Some None => match constructor args with
                     | Ok v => (Ok (Some v), <[i := Some v]> l)
                     | Throw e => (Throw e, l) | Aborted => (Aborted, l) | Undefined => (Undefined, l)
                     end
      | _ => (Undefined, l)
      end
  | Destroy i =>
      match l !! i with
      | Some (Some v) => (match destructor v with None => Ok None | Some e => Throw e end, <[i := None]> l)
      | _ => (Undefined, l)
      end
  | Value i => match l !! i with Some (Some v) => (Ok (Some v), l) | _ => (Undefined, l) end
  end.

(** Storages of a program: [alignas] aligns them, and their bytes are their own. *)
Definition apart (size : Z) (storages : list Z) : Prop :=
  forall i j a b, storages !! i = Some a -> storages !! j = Some b -> i <> j -> a + size <= b \/ b + size <= a.
Definition aligned (align : Z) (storages : list Z) : Prop := Forall (fun a => a mod align = 0) storages.

(** The objects are those of the storages. *)
Definition holds (storages : list Z) (l : list (option V)) (m : memory) : Prop :=
  length l = length storages /\
  (forall i a, storages !! i = Some a -> l !! i = Some (m !! a)) /\
  (forall a, is_Some (m !! a) -> a ∈ storages).

Context (size align : Z) (storages : list Z).
Context (Ht : is_layout t) (Hcheck : raw_inplace_storage_check t size align = None) (Halign : 0 <= align < 2 ^ 64)
  (Hapart : apart size storages) (Haligned : aligned align storages).

Lemma size_fits : size_of t <= size.
Proof. revert Hcheck. unfold raw_inplace_storage_check. by destruct (Z.leb_spec (size_of t) size). Qed.
Lemma aligned_storage i a : storages !! i = Some a -> a mod align_of t = 0.
Proof. intros Ha. by apply (storage_fits t size align a Ht Halign Hcheck (Forall_lookup_1 _ _ _ _ Haligned Ha)). Qed.
Lemma apart_from i j a b : storages !! i = Some a -> storages !! j = Some b -> i <> j ->
  a <> b /\ (a + size_of t <= b \/ b + size_of t <= a).
Proof.
  intros Ha Hb Hij. pose proof size_fits. pose proof (layout_size _ Ht).
  destruct (Hapart i j a b Ha Hb Hij); lia.
Qed.

Lemma storage_unoccupied l m i a : holds storages l m -> storages !! i = Some a -> m !! a = None -> unoccupied a m = true.
Proof.
  intros (_ & _ & Hdom) Ha Hm. unfold unoccupied. apply forallb_forall. intros [b v] Hb%list_elem_of_In.
  apply elem_of_map_to_list in Hb. simpl. apply orb_true_iff. rewrite !Z.leb_le.
  destruct (proj1 (list_elem_of_lookup _ _) (Hdom b ltac:(by eexists))) as [j Hj].
  destruct (decide (i = j)) as [->|Hij]; [simplify_eq; congruence|]. by destruct (apart_from i j a b Ha Hj Hij).
Qed.
Lemma occupied l m i a v : holds storages l m -> storages !! i = Some a -> m !! a = Some v -> unoccupied a m = false.
Proof.
  intros _ _ Hm. unfold unoccupied. apply not_true_iff_false. rewrite forallb_forall. intros Hall.
  specialize (Hall (a, v) ltac:(by apply list_elem_of_In, elem_of_map_to_list)). simpl in Hall.
  apply orb_true_iff in Hall. rewrite !Z.leb_le in Hall. pose proof (layout_size _ Ht). lia.
Qed.

Lemma holds_update l m i a o : holds storages l m -> storages !! i = Some a ->
  holds storages (<[i := o]> l) (partial_alter (fun _ => o) a m).
Proof.
  intros (Hlen & Hl & Hdom) Ha. pose proof (lookup_lt_Some _ _ _ Ha). split_and!.
  - by rewrite length_insert.
  - intros j b Hb. destruct (decide (i = j)) as [<-|Hij].
    + simplify_eq. rewrite lookup_partial_alter_eq. by apply list_lookup_insert_eq; rewrite Hlen.
    + rewrite list_lookup_insert_ne by done. rewrite lookup_partial_alter_ne; [by apply Hl|].
      by apply (apart_from i j).
  - intros b Hb. destruct (decide (a = b)) as [<-|]; [by eapply list_elem_of_lookup_2|].
    rewrite lookup_partial_alter_ne in Hb by done. by apply Hdom.
Qed.

(** A storage behaves as an option: each operation has the outcome that the options give,
    whatever the constructor and the destructor do, and the storages hold the same objects
    after it. *)
Theorem storages_are_options o l m : holds storages l m ->
  (run storages o m).1 = (specification o l).1 /\
  holds storages (specification o l).2 (run storages o m).2.
Proof.
  intros Hh. pose proof Hh as (Hlen & Hl & _). destruct o as [i args|i|i]; simpl; unfold storage_at;
    (destruct (storages !! i) as [a|] eqn:Ha;
      [rewrite (Hl _ _ Ha)|rewrite lookup_ge_None in Ha; rewrite (lookup_ge_None_2 l i) by lia; done]).
  - unfold construct, construct_at, value_at. unfold mbind, eff_bind, mret, eff_ret. rewrite (aligned_storage _ _ Ha). simpl. destruct (m !! a) as [w|] eqn:Hm.
    + rewrite (occupied l m i a w) by done. done.
    + rewrite (storage_unoccupied l m i a) by done. destruct (constructor args) as [v|e| |]; try done. simpl.
      rewrite lookup_insert_eq. simpl. split; [done|]. by apply (holds_update l m i a (Some v)).
  - unfold destroy, destroy_at. unfold mbind, eff_bind, mret, eff_ret. destruct (m !! a) as [v|] eqn:Hm; [|done].
    pose proof (holds_update l m i a None Hh Ha). by destruct (destructor v).
  - unfold value_at, ptr. unfold mbind, eff_bind, mret, eff_ret. by destruct (m !! a).
Qed.

End Storage.

(** Two storages of four bytes: the second construction reaches a constructor that throws,
    and a storage is used again after its object is destroyed. *)
Example storages_sample :
  let int := mk_layout 4 4 in
  let constructor (v : Z) := if v <? 0 then Throw foreign_exception else Ok v in
  let r := run int constructor (fun _ => None) [96; 100] in
  raw_inplace_storage_check int 4 4 = None /\
  (forall m : gmap Z Z, m = ∅ ->
    let m1 := (r (Construct 0 7) m).2 in
    (r (Construct 0 8) m1).1 = Undefined /\ (r (Construct 1 (-1)) m1).1 = Throw foreign_exception /\
    (r (Value 0) m1).1 = Ok (Some 7) /\ (r (Value 1) m1).1 = Undefined /\
    (r (Construct 0 9) (r (Destroy 0) m1).2).1 = Ok (Some 9)).
Proof. split; [done|]. intros m ->. vm_compute. by repeat split. Qed.
