(* ===== verification/Ownership.v ===== *)
(** * Counted pointers and what goes out of scope

    Helpers of the components that own resources by counting them: the multiset of what a
    list or a map of owners refers to, and a triple for computations that end with the right
    owners whether they return or throw. *)

From Stdlib Require Import ZArith Lia.
From stdpp Require Import base list gmap gmultiset.
From S2P Require Import Prelude.

(** ** What owners refer to *)

Section Refs.
Context {X : Type} (f : X -> gmultiset nat).

Definition refs (l : list X) : gmultiset nat := foldr (fun x acc => f x ⊎ acc) ∅ l.

#[export] Instance refs_permutation : Proper ((≡ₚ) ==> (=)) refs.
Proof. induction 1; simpl; multiset_solver. Qed.
Lemma refs_app l k : refs (l ++ k) = refs l ⊎ refs k.
Proof. induction l as [|x l IH]; simpl; [|rewrite IH]; multiset_solver. Qed.
Lemma refs_delete l i x : l !! i = Some x -> refs l = f x ⊎ refs (delete i l).
Proof. intros Hi. exact (refs_permutation _ _ (delete_Permutation l i x Hi)). Qed.
Lemma refs_insert l i x y : l !! i = Some x -> f x ⊎ refs (<[i := y]> l) = f y ⊎ refs l.
Proof.
  revert i. induction l as [|z l IH]; intros [|i] Hi; simplify_eq/=; [multiset_solver|].
  specialize (IH _ Hi). multiset_solver.
Qed.

Definition map_refs (m : gmap nat X) : gmultiset nat := foldr (fun x acc => f x.2 ⊎ acc) ∅ (map_to_list m).
End Refs.

Lemma elem_of_head (x : nat) (R : gmultiset nat) : x ∈ {[+ x +]} ⊎ R.
Proof. apply gmultiset_elem_of_disj_union. left. by apply gmultiset_elem_of_singleton. Qed.

Section MapRefs.
Context {X : Type} (f : X -> gmultiset nat).

Lemma map_refs_insert m b x : m !! b = None -> map_refs f (<[b := x]> m) = f x ⊎ map_refs f m.
Proof. intros Hb. exact (refs_permutation (fun x => f x.2) _ _ (map_to_list_insert m b x Hb)). Qed.
Lemma map_refs_delete m b x : m !! b = Some x -> map_refs f m = f x ⊎ map_refs f (delete b m).
Proof. intros Hb. symmetry. exact (refs_permutation (fun x => f x.2) _ _ (map_to_list_delete m b x Hb)). Qed.
Lemma map_refs_update m b x y : m !! b = Some x -> f x ⊎ map_refs f (<[b := y]> m) = f y ⊎ map_refs f m.
Proof.
  intros Hb. rewrite (map_refs_delete m b x Hb), <- insert_delete_eq, map_refs_insert by apply lookup_delete_eq.
  multiset_solver.
Qed.
End MapRefs.

(** ** Leaving a scope *)

(** What goes out of scope when [m] throws is destroyed. *)
Definition unwinding {S A} (m : eff S A) (cleanup : eff S unit) : eff S A := fun s =>
  match m s with
  | (Throw e, s') => (cleanup ;; throw e) s'
  | r => r
  end.

Section Keeps.
Context {S : Type}.
Implicit Types (P E : S -> Prop).

(** From [P], the computation ends in [Q], or in [E] when it throws. *)
Definition upholds {A} P (m : eff S A) (Q : A -> S -> Prop) E : Prop :=
  forall s, P s ->
  match m s with
  | (Ok a, s') => Q a s'
  | (Throw _, s') => E s'
  | (Aborted, _) => True
  | (Undefined, _) => False
  end.

Lemma upholds_then {A B} P (m : eff S A) (f : A -> eff S B) Q Q' E :
  upholds P m Q E -> (forall a, upholds (Q a) (f a) Q' E) -> upholds P (m ≫= f) Q' E.
Proof.
  intros Hm Hf s Hs. specialize (Hm s Hs). unfold mbind, eff_bind.
  destruct (m s) as [[a|e| |] s']; try done. by apply Hf.
Qed.
Lemma upholds_return {A} P (a : A) (Q : A -> S -> Prop) E : (forall s, P s -> Q a s) -> upholds P (mret a) Q E.
Proof. intros HQ s Hs. by apply HQ. Qed.
Lemma upholds_post {A} P (m : eff S A) (Q Q' : A -> S -> Prop) E :
  upholds P m Q E -> (forall a s, Q a s -> Q' a s) -> upholds P m Q' E.
Proof. intros Hm HQ s Hs. specialize (Hm s Hs). destruct (m s) as [[] ?]; auto. Qed.
Lemma upholds_throw {A} P (m : eff S unit) e (Q : A -> S -> Prop) E :
  upholds P m (fun _ => E) E -> upholds P (m ;; throw e) Q E.
Proof. intros Hm. eapply upholds_then; [exact Hm|]. intros [] s Hs. exact Hs. Qed.
Lemma upholds_unwinding {A} P (m : eff S A) cleanup (Q : A -> S -> Prop) E E' :
  upholds P m Q E -> upholds E cleanup (fun _ => E') E' -> upholds P (unwinding m cleanup) Q E'.
Proof.
  intros Hm Hc s Hs. specialize (Hm s Hs). unfold unwinding.
  destruct (m s) as [[a|e| |] s']; try done.
  pose proof (upholds_throw E cleanup e (fun (_ : A) _ => False) E' Hc s' Hm) as Ht.
  destruct ((cleanup ;; throw e) s') as [[] ?]; done.
Qed.
End Keeps.
