(* ===== verification/Bytes.v ===== *)
(** * Bytes and little-endian integers

    Bytes are [Byte.byte], so a buffer needs no well-formedness hypothesis.
    [write_le] and [read_le] are the loops of the wire writer and reader
    (rpc.h, [writer::integer] and [reader::integer]): the byte at index [i] holds
    bits [8*i .. 8*i+7] of the integer. *)

From Stdlib Require Import ZArith Lia Strings.Byte.
From stdpp Require Import base list.
From S2P Require Import Prelude.

#[export] Instance byte_eq_decision : EqDecision byte := Byte.byte_eq_dec.

(** ** Bytes as integers *)

Definition bval (b : byte) : Z := Z.of_N (Byte.to_N b).

Definition bof (z : Z) : byte :=
  match Byte.of_N (Z.to_N (z mod u8_modulus)) with
  | Some b => b
  | None => x00
  end.

Lemma bval_range b : 0 <= bval b < u8_modulus.
Proof.
  unfold bval, u8_modulus. pose proof (Byte.to_N_bounded b). lia.
Qed.

Lemma bof_bval b : bof (bval b) = b.
Proof.
  unfold bof. rewrite Z.mod_small by apply bval_range.
  unfold bval. by rewrite N2Z.id, Byte.of_to_N.
Qed.

Lemma bval_bof z : bval (bof z) = z mod u8_modulus.
Proof.
  unfold bof, bval.
  pose proof (Z.mod_pos_bound z u8_modulus eq_refl) as Hb.
  destruct (Byte.of_N (Z.to_N (z mod u8_modulus))) as [b|] eqn:E.
  - apply Byte.to_of_N in E. rewrite E. lia.
  - apply Byte.of_N_None_iff in E. unfold u8_modulus in *. lia.
Qed.

Lemma bval_inj b1 b2 : bval b1 = bval b2 -> b1 = b2.
Proof. intros H. by rewrite <- (bof_bval b1), <- (bof_bval b2), H. Qed.

(** ** Little-endian integers *)

(** [for (i = 0; i < n; ++i) push_back((uint8_t)(number >> (i * 8)))] *)
Definition write_le (n : nat) (number : Z) : list byte :=
  map (fun i => bof (Z.shiftr number (Z.of_nat i * 8))) (seq 0 n).

(** [for (i = 0; i < n; ++i) result |= (UInt)current[i] << (i * 8)], the loop
    started at index [i] with accumulator [acc]. *)
Fixpoint read_le_loop (i : nat) (acc : Z) (current : list byte) : Z :=
  match current with
  | [] => acc
  | b :: current' =>
      read_le_loop (S i) (Z.lor acc (Z.shiftl (bval b) (Z.of_nat i * 8))) current'
  end.

Definition read_le (current : list byte) : Z := read_le_loop 0 0 current.

Lemma length_write_le n z : length (write_le n z) = n.
Proof. unfold write_le. by rewrite length_map, length_seq. Qed.

Lemma zlen_write_le n z : zlen (write_le n z) = Z.of_nat n.
Proof. unfold zlen. by rewrite length_write_le. Qed.
#[export] Hint Rewrite zlen_write_le : bridge.

(** The low [n] bytes, peeled from the front. *)
Lemma write_le_S n z :
  write_le (S n) z = bof z :: write_le n (Z.shiftr z 8).
Proof.
  unfold write_le. simpl. f_equal.
  rewrite <- seq_shift, map_map. apply map_ext. intros i.
  f_equal. rewrite Z.shiftr_shiftr by lia. f_equal. lia.
Qed.

(** The reader's accumulator in closed form. *)
Fixpoint le_value (current : list byte) : Z :=
  match current with
  | [] => 0
  | b :: current' => bval b + u8_modulus * le_value current'
  end.

Lemma le_value_nonneg l : 0 <= le_value l.
Proof.
  induction l as [|b l IH]; simpl; [lia|].
  pose proof (bval_range b). unfold u8_modulus in *. lia.
Qed.

Lemma lor_disjoint_add a b k :
  0 <= k -> 0 <= a < 2 ^ k -> Z.lor a (Z.shiftl b k) = a + b * 2 ^ k.
Proof.
  intros Hk Ha. rewrite Z.shiftl_mul_pow2 by lia.
  rewrite <- Z.add_lor_land.
  replace (Z.land a (b * 2 ^ k)) with 0; [lia|].
  apply Z.bits_inj'. intros m Hm. rewrite Z.bits_0, Z.land_spec.
  destruct (Z.ltb_spec m k).
  - rewrite (Z.mul_pow2_bits_low b k m) by lia. by rewrite andb_false_r.
  - assert (Z.testbit a m = false) as ->; [|done].
    destruct (Z.eqb_spec a 0) as [->|]; [apply Z.bits_0|].
    apply Z.bits_above_log2; [lia|].
    assert (Z.log2 a < k) by (apply Z.log2_lt_pow2; lia). lia.
Qed.

Lemma read_le_loop_value l : forall i acc,
  0 <= acc < 2 ^ (Z.of_nat i * 8) ->
  read_le_loop i acc l = acc + 2 ^ (Z.of_nat i * 8) * le_value l.
Proof.
  induction l as [|b l IH]; intros i acc Hacc; simpl; [lia|].
  pose proof (bval_range b) as Hb. unfold u8_modulus in *.
  rewrite lor_disjoint_add by lia.
  assert (2 ^ (Z.of_nat (S i) * 8) = 2 ^ (Z.of_nat i * 8) * 2 ^ 8) as Hpow
    by (rewrite <- Z.pow_add_r by lia; f_equal; lia).
  rewrite IH; rewrite Hpow; [unfold u8_modulus; ring|].
  set (P := 2 ^ (Z.of_nat i * 8)) in *.
  change (2 ^ 8) with 256 in *. assert (0 <= P) by lia.
  assert (0 <= bval b * P <= 255 * P); [|lia].
  split; [apply Z.mul_nonneg_nonneg|apply Z.mul_le_mono_nonneg_r]; lia.
Qed.

Lemma read_le_value l : read_le l = le_value l.
Proof. unfold read_le. rewrite read_le_loop_value by done. simpl. lia. Qed.

Lemma le_value_write_le n : forall z,
  0 <= z -> le_value (write_le n z) = z mod 2 ^ (Z.of_nat n * 8).
Proof.
  induction n as [|n IH]; intros z Hz.
  - by rewrite Z.mod_1_r.
  - rewrite write_le_S. simpl le_value.
    rewrite IH by (by apply Z.shiftr_nonneg).
    rewrite bval_bof, Z.shiftr_div_pow2 by lia. unfold u8_modulus.
    replace (Z.of_nat (S n) * 8) with (8 + Z.of_nat n * 8) by lia.
    rewrite Z.pow_add_r by lia.
    rewrite Z.rem_mul_r by lia. lia.
Qed.

Lemma read_write_le n z :
  0 <= z < 2 ^ (Z.of_nat n * 8) -> read_le (write_le n z) = z.
Proof.
  intros Hz. rewrite read_le_value, le_value_write_le by lia.
  by apply Z.mod_small.
Qed.

Lemma le_value_range l : 0 <= le_value l < 2 ^ (zlen l * 8).
Proof.
  induction l as [|b l IH]; [done|].
  rewrite zlen_cons. pose proof (bval_range b). unfold u8_modulus in *.
  replace ((1 + zlen l) * 8) with (8 + zlen l * 8) by lia.
  pose proof (zlen_nonneg l).
  rewrite Z.pow_add_r by lia. simpl le_value. unfold u8_modulus.
  change (2 ^ 8) with 256 in *. lia.
Qed.

Lemma read_le_range l : 0 <= read_le l < 2 ^ (zlen l * 8).
Proof. rewrite read_le_value. apply le_value_range. Qed.

Lemma write_read_le l : write_le (length l) (read_le l) = l.
Proof.
  rewrite read_le_value. induction l as [|b l IH]; [done|].
  pose proof (bval_range b) as Hb. simpl length.
  rewrite write_le_S. simpl le_value. f_equal.
  - apply bval_inj. rewrite bval_bof.
    replace (bval b + u8_modulus * le_value l)
      with (bval b + le_value l * u8_modulus) by lia.
    rewrite Z.mod_add by (unfold u8_modulus; lia). by apply Z.mod_small.
  - rewrite <- IH at 3. f_equal.
    rewrite Z.shiftr_div_pow2 by lia. unfold u8_modulus in *.
    symmetry. apply (Z.div_unique _ _ _ (bval b)); [left; lia|lia].
Qed.

(** Clients use the lemmas above, never the loops. *)
#[global] Opaque write_le read_le.
