(* ===== verification/RpcValue.v ===== *)
(** * The dynamic value of the RPC backend (rpc.h, [rpc::value])

    A tagged union whose numeric payload is one 64-bit word and whose string is
    either owned or a borrowed view of a caller's string. Values that a peer
    cannot tell apart are related by [≡], which is coarser than equality: an
    owned string and a borrowed view of the same bytes are equivalent. *)

From Stdlib Require Import ZArith Lia Strings.Byte.
From stdpp Require Import base list.
From S2P Require Import Prelude Bytes.

(** [enum class value_kind : std::uint8_t] *)
Module value_kind.
Inductive t := undefined | signed_integer | unsigned_integer | real | boolean | string.

#[global] Instance t_eq_dec : EqDecision t.
Proof. solve_decision. Defined.

(** The enumerator's underlying byte. *)
Definition to_wire (k : t) : Z :=
  match k with
  | undefined => 0 | signed_integer => 1 | unsigned_integer => 2
  | real => 3 | boolean => 4 | string => 5
  end.

(** The enumerator of a byte, if the byte names one. *)
Definition of_wire (z : Z) : option t :=
  if z =? 0 then Some undefined else if z =? 1 then Some signed_integer
  else if z =? 2 then Some unsigned_integer else if z =? 3 then Some real
  else if z =? 4 then Some boolean else if z =? 5 then Some string else None.

Lemma of_to_wire k : of_wire (to_wire k) = Some k.
Proof. by destruct k. Qed.

Lemma to_of_wire z k : of_wire z = Some k -> z = to_wire k.
Proof.
  unfold of_wire.
  repeat match goal with
  | |- context [z =? ?n] => destruct (Z.eqb_spec z n); [subst; by intros [= <-]|]
  end; done.
Qed.

Lemma to_wire_range k : 0 <= to_wire k < u8_modulus.
Proof. by destruct k. Qed.
End value_kind.

(** [class value]. [bits_] is the 64-bit word; [borrowed_view_] is the range
    [borrowed_data_, borrowed_data_ + borrowed_size_) as the value sees it. *)
Record value := mk_value {
  kind_ : value_kind.t;
  bits_ : Z;
  text_ : text;
  borrowed_view_ : text;
  borrowed_ : bool
}.

Module value_ops.
(** [value() noexcept = default] *)
Definition empty : value := mk_value value_kind.undefined 0 [] [] false.

Definition signed_integer (number : Z) : value :=
  mk_value value_kind.signed_integer (to_bits64 number) [] [] false.
Definition unsigned_integer (number : Z) : value :=
  mk_value value_kind.unsigned_integer number [] [] false.
(** A [double] is its 64-bit pattern: the code only copies the pattern. *)
Definition real (pattern : Z) : value :=
  mk_value value_kind.real pattern [] [] false.
Definition boolean (state : bool) : value :=
  mk_value value_kind.boolean (if state then 1 else 0) [] [] false.
Definition string (s : text) : value :=
  mk_value value_kind.string 0 s [] false.
Definition borrowed_string (s : text) : value :=
  mk_value value_kind.string 0 [] s true.

Definition kind (v : value) : value_kind.t := kind_ v.
Definition as_signed (v : value) : Z := to_signed64 (bits_ v).
Definition as_unsigned (v : value) : Z := bits_ v.
Definition as_real (v : value) : Z := bits_ v.
Definition as_boolean (v : value) : bool := negb (bits_ v =? 0).
Definition string_data (v : value) : text :=
  if borrowed_ v then borrowed_view_ v else text_ v.
Definition string_size (v : value) : Z := zlen (string_data v).
Definition copy_string (v : value) : text :=
  if string_size v =? 0 then [] else string_data v.
End value_ops.

(** [take_string] moves the owned text out. The C++ standard leaves a moved-from
    [std::string] valid but unspecified: its content is a parameter. *)
Section TakeString.
Context (moved_from : text -> text).

Definition take_string (v : value) : text * value :=
  if borrowed_ v then (value_ops.copy_string v, v)
  else (text_ v,
        mk_value (kind_ v) (bits_ v) (moved_from (text_ v)) (borrowed_view_ v) (borrowed_ v)).
End TakeString.

(** The word fits in 64 bits: [bits_] is a [std::uint64_t]. *)
Definition value_ok (v : value) : Prop := 0 <= bits_ v < u64_modulus.

(** What a peer can observe of a value through the wire. *)
#[export] Instance value_equiv : Equiv value := fun v w =>
  kind_ v = kind_ w /\
  match kind_ v with
  | value_kind.undefined => True
  | value_kind.signed_integer | value_kind.unsigned_integer | value_kind.real =>
      bits_ v = bits_ w
  | value_kind.boolean => value_ops.as_boolean v = value_ops.as_boolean w
  | value_kind.string => value_ops.string_data v = value_ops.string_data w
  end.

#[export] Instance value_equivalence : Equivalence (≡@{value}).
Proof.
  split.
  - intros v. split; [done|]. by destruct (kind_ v).
  - intros v w [Hk H]. split; [done|]. rewrite <- Hk. by destruct (kind_ v).
  - intros v w x [Hk H] [Hk' H']. split; [congruence|].
    rewrite <- Hk in H'. destruct (kind_ v); congruence.
Qed.

#[export] Instance kind_proper : Proper ((≡) ==> (=)) kind_.
Proof. by intros v w [? _]. Qed.

Lemma copy_string_data v : value_ops.copy_string v = value_ops.string_data v.
Proof.
  unfold value_ops.copy_string, value_ops.string_size, zlen.
  destruct (value_ops.string_data v) as [|b s]; [done|].
  by destruct (Z.eqb_spec (Z.of_nat (length (b :: s))) 0).
Qed.
#[export] Hint Rewrite copy_string_data : bridge.

Lemma take_string_fst m v : (take_string m v).1 = value_ops.string_data v.
Proof.
  unfold take_string, value_ops.string_data. destruct (borrowed_ v) eqn:E; [|done].
  simpl. by rewrite copy_string_data; unfold value_ops.string_data; rewrite E.
Qed.

Lemma value_ok_signed z : value_ok (value_ops.signed_integer z).
Proof. apply to_bits64_range. Qed.
Lemma value_ok_boolean b : value_ok (value_ops.boolean b).
Proof. by destruct b. Qed.
Lemma value_ok_string s : value_ok (value_ops.string s).
Proof. done. Qed.
Lemma value_ok_borrowed s : value_ok (value_ops.borrowed_string s).
Proof. done. Qed.
#[export] Hint Resolve value_ok_signed value_ok_boolean value_ok_string value_ok_borrowed : bridge.

Lemma borrowed_equiv_owned s : value_ops.borrowed_string s ≡ value_ops.string s.
Proof. done. Qed.
