(* ===== verification/RpcCodec.v ===== *)
(** * The RPC wire codec (rpc.h, namespace [rpc::detail])

    The writer and the reader, the value codec, and the request and response
    frames. Encoders raise through the error policy; decoders never raise: they
    return a status and publish their output only for a complete valid frame. *)

From Stdlib Require Import ZArith Lia Strings.Byte.
From stdpp Require Import base list.
From S2P Require Import Prelude Bytes RpcValue.

Definition request_magic : Z := 0x43505244.
Definition response_magic : Z := 0x52505244.
Definition protocol_version : Z := 1.

(** ** [class writer] *)

(** [capacity_] is the argument of the [reserve] the constructor performs. *)
Record writer := mk_writer { data_ : text; capacity_ : Z }.

Definition new_writer (capacity : Z) : writer := mk_writer [] capacity.

(** [template <typename UInt> void integer(UInt)], [n] being [sizeof(UInt)]. *)
Definition writer_integer (n : nat) (number : Z) (w : writer) : writer :=
  mk_writer (data_ w ++ write_le n number) (capacity_ w).

Definition writer_raw `{ErrorPolicy} (data : text) (w : writer) : outcome writer :=
  if u32_max <? zlen data
  then DYNABRIDGE_RAISE (protocol_error (lit "RPC string is too large"))
  else
    let w := writer_integer 4 (zlen data) w in
    Ok (if zlen data =? 0 then w else mk_writer (data_ w ++ data) (capacity_ w)).

Definition writer_finish (w : writer) : text := data_ w.

(** ** [class reader]: [current_] is the unread suffix, [remaining_] its length. *)

Record reader := mk_reader { current_ : text; valid_ : bool }.

Definition new_reader (data : text) : reader := mk_reader data true.
Definition remaining (r : reader) : Z := zlen (current_ r).
Definition reader_empty (r : reader) : bool := remaining r =? 0.
Definition invalidate (r : reader) : reader := mk_reader (current_ r) false.

Definition require (size : Z) (r : reader) : bool * reader :=
  if negb (valid_ r) || (remaining r <? size)
  then (false, mk_reader (current_ r) false) else (true, r).

Definition reader_integer (n : nat) (r : reader) : Z * reader :=
  let '(ok, r) := require (Z.of_nat n) r in
  if negb ok then (0, r)
  else (read_le (take n (current_ r)), mk_reader (drop n (current_ r)) (valid_ r)).

Definition reader_raw (r : reader) : text * reader :=
  let '(size, r) := reader_integer 4 r in
  let '(ok, r) := require size r in
  if negb ok then ([], r)
  else (take (Z.to_nat size) (current_ r),
        mk_reader (drop (Z.to_nat size) (current_ r)) (valid_ r)).

(** ** Values *)

Definition encode_value `{ErrorPolicy} (input : value) (out : writer) : outcome writer :=
  let out := writer_integer 1 (value_kind.to_wire (value_ops.kind input)) out in
  match value_ops.kind input with
  | value_kind.undefined => Ok out
  | value_kind.signed_integer =>
      Ok (writer_integer 8 (to_bits64 (value_ops.as_signed input)) out)
  | value_kind.unsigned_integer => Ok (writer_integer 8 (value_ops.as_unsigned input) out)
  | value_kind.real => Ok (writer_integer 8 (value_ops.as_real input) out)
  | value_kind.boolean =>
      Ok (writer_integer 1 (if value_ops.as_boolean input then 1 else 0) out)
  | value_kind.string => writer_raw (value_ops.string_data input) out
  end.

Definition checked_add `{ErrorPolicy} (left right : Z) : outcome Z :=
  if size_max - left <? right
  then DYNABRIDGE_RAISE (protocol_error (lit "RPC frame size overflow"))
  else Ok (left + right).

Definition encoded_size `{ErrorPolicy} (input : value) : outcome Z :=
  match value_ops.kind input with
  | value_kind.undefined => Ok 1
  | value_kind.signed_integer | value_kind.unsigned_integer | value_kind.real => Ok 9
  | value_kind.boolean => Ok 2
  | value_kind.string =>
      if u32_max <? value_ops.string_size input
      then DYNABRIDGE_RAISE (protocol_error (lit "RPC string is too large"))
      else checked_add 5 (value_ops.string_size input)
  end.

Definition decode_value (input : reader) : value * reader :=
  let '(k, input) := reader_integer 1 input in
  match value_kind.of_wire k with
  | Some value_kind.undefined => (value_ops.empty, input)
  | Some value_kind.signed_integer =>
      let '(bits, input) := reader_integer 8 input in
      (value_ops.signed_integer (to_signed64 bits), input)
  | Some value_kind.unsigned_integer =>
      let '(bits, input) := reader_integer 8 input in
      (value_ops.unsigned_integer bits, input)
  | Some value_kind.real =>
      let '(bits, input) := reader_integer 8 input in (value_ops.real bits, input)
  | Some value_kind.boolean =>
      let '(byte, input) := reader_integer 1 input in
      (value_ops.boolean (negb (byte =? 0)), input)
  | Some value_kind.string =>
      let '(s, input) := reader_raw input in (value_ops.string s, input)
  | None => (value_ops.empty, invalidate input)
  end.

(** ** Symbol identifiers: FNV-1a over 64 bits of a NUL-terminated name *)

Fixpoint symbol_id_loop (hash : Z) (name : text) : Z :=
  match name with
  | [] => hash
  | current :: name' =>
      if bval current =? 0 then hash
      else symbol_id_loop
             ((Z.lxor hash (bval current) * 1099511628211) mod u64_modulus) name'
  end.

Definition symbol_id (name : text) : Z := symbol_id_loop 14695981039346656037 name.

(** ** Requests *)

Record request := mk_request { method : Z; args : list value }.

Fixpoint frame_size_loop `{ErrorPolicy} (frame_size : Z) (args : list value) : outcome Z :=
  match args with
  | [] => Ok frame_size
  | arg :: args' =>
      n ← encoded_size arg; frame_size ← checked_add frame_size n;
      frame_size_loop frame_size args'
  end.

Fixpoint encode_values `{ErrorPolicy} (args : list value) (out : writer) : outcome writer :=
  match args with
  | [] => Ok out
  | arg :: args' => out ← encode_value arg out; encode_values args' out
  end.

Definition request_header (frame_size method argc : Z) : writer :=
  writer_integer 4 argc
    (writer_integer 8 method
      (writer_integer 1 protocol_version
        (writer_integer 4 request_magic (new_writer frame_size)))).

Definition encode_request `{ErrorPolicy} (method : Z) (args : list value) : outcome text :=
  if u32_max <? zlen args
  then DYNABRIDGE_RAISE (protocol_error (lit "too many RPC arguments"))
  else
    frame_size ← frame_size_loop 17 args;
    out ← encode_values args (request_header frame_size method (zlen args));
    Ok (writer_finish out).

(** [encode_request_values] is the variadic form: a [static_assert] bounds the
    number of arguments, [None] standing for a program that does not compile. *)
Definition encode_request_values `{ErrorPolicy} (method : Z) (values : list value)
  : option (outcome text) :=
  if zlen values <=? u32_max then
    Some (
      frame_size ← foldl (fun acc v => acc ≫= fun size => encoded_size v ≫= checked_add size)
                         (Ok 17) values;
      out ← foldl (fun acc v => acc ≫= encode_value v)
                  (Ok (request_header frame_size method (zlen values))) values;
      Ok (writer_finish out))
  else None.

(** The loop over the arguments of [try_decode_request]; [None] is its
    [return false]. *)
Fixpoint decode_args (argc : nat) (input : reader) : option (list value * reader) :=
  match argc with
  | O => Some ([], input)
  | S argc' =>
      let '(item, input) := decode_value input in
      if negb (valid_ input) then None
      else '(items, input) ← decode_args argc' input; Some (item :: items, input)
  end.

(** The checks before [staged.args.reserve(argc)]: the method, the argument
    count and the reader at the first argument. *)
Definition decode_request_header (frame : text) : option (Z * Z * reader) :=
  let '(magic, input) := reader_integer 4 (new_reader frame) in
  if negb (magic =? request_magic) then None else
  let '(version, input) := reader_integer 1 input in
  if negb (version =? protocol_version) then None else
  let '(m, input) := reader_integer 8 input in
  let '(argc, input) := reader_integer 4 input in
  if negb (valid_ input) || (remaining input <? argc) then None
  else Some (m, argc, input).

(** The out-parameter [result] is passed in and returned. *)
Definition try_decode_request (frame : text) (result : request) : bool * request :=
  match decode_request_header frame with
  | None => (false, result)
  | Some (m, argc, input) =>
      match decode_args (Z.to_nat argc) input with
      | None => (false, result)
      | Some (items, input) =>
          if negb (valid_ input) || negb (reader_empty input) then (false, result)
          else (true, mk_request m items)
      end
  end.

Definition decode_request `{ErrorPolicy} (frame : text) : outcome request :=
  let '(ok, result) := try_decode_request frame (mk_request 0 []) in
  if negb ok then DYNABRIDGE_RAISE (protocol_error (lit "invalid RPC request frame"))
  else Ok result.

(** ** Responses *)

Definition response_header (capacity tag : Z) : writer :=
  writer_integer 1 tag
    (writer_integer 1 protocol_version (writer_integer 4 response_magic (new_writer capacity))).

Definition encode_response `{ErrorPolicy} (result : value) : outcome text :=
  size ← encoded_size result;
  capacity ← checked_add 7 size;
  out ← encode_value result (response_header capacity 0);
  Ok (writer_finish out).

Definition encode_error `{ErrorPolicy} (message : text) : outcome text :=
  if u32_max <? zlen message
  then DYNABRIDGE_RAISE (protocol_error (lit "RPC error message is too large"))
  else
    capacity ← checked_add 10 (zlen message);
    out ← writer_raw message (response_header capacity 1);
    Ok (writer_finish out).

Module response_status.
Inductive t := ok | malformed | remote_error.
End response_status.

(** Returns the status with both out-parameters. *)
Definition try_decode_response (frame : text) (result : value) (error : text)
  : response_status.t * value * text :=
  let '(magic, input) := reader_integer 4 (new_reader frame) in
  if negb (magic =? response_magic) then (response_status.malformed, result, error) else
  let '(version, input) := reader_integer 1 input in
  if negb (version =? protocol_version) then (response_status.malformed, result, error) else
  let '(tag, input) := reader_integer 1 input in
  if negb (valid_ input) || (1 <? tag) then (response_status.malformed, result, error)
  else if tag =? 1 then
    let '(message, input) := reader_raw input in
    if negb (valid_ input) || negb (reader_empty input) then (response_status.malformed, result, error)
    else (response_status.remote_error, result, message)
  else
    let '(staged, input) := decode_value input in
    if negb (valid_ input) || negb (reader_empty input) then (response_status.malformed, result, error)
    else (response_status.ok, staged, error).

Definition decode_response `{ErrorPolicy} (frame : text) : outcome value :=
  match try_decode_response frame value_ops.empty [] with
  | (response_status.remote_error, _, error) => DYNABRIDGE_RAISE (remote_error error)
  | (response_status.malformed, _, _) => DYNABRIDGE_RAISE (protocol_error (lit "invalid RPC response frame"))
  | (response_status.ok, result, _) => Ok result
  end.

(** ** The wire image of a value, and what the decoder makes of it *)

Definition wire_value (v : value) : text :=
  write_le 1 (value_kind.to_wire (kind_ v)) ++
  match kind_ v with
  | value_kind.undefined => []
  | value_kind.signed_integer => write_le 8 (to_bits64 (value_ops.as_signed v))
  | value_kind.unsigned_integer | value_kind.real => write_le 8 (bits_ v)
  | value_kind.boolean => write_le 1 (if value_ops.as_boolean v then 1 else 0)
  | value_kind.string =>
      write_le 4 (value_ops.string_size v) ++ value_ops.string_data v
  end.

(** A string longer than 2^32-1 bytes has no wire image. *)
Definition wire_fits (v : value) : bool :=
  match kind_ v with
  | value_kind.string => value_ops.string_size v <=? u32_max
  | _ => true
  end.

(** The owned value a decoder builds from the wire image of [v]. *)
Definition canonical (v : value) : value :=
  match kind_ v with
  | value_kind.undefined => value_ops.empty
  | value_kind.signed_integer => value_ops.signed_integer (value_ops.as_signed v)
  | value_kind.unsigned_integer => value_ops.unsigned_integer (bits_ v)
  | value_kind.real => value_ops.real (bits_ v)
  | value_kind.boolean => value_ops.boolean (value_ops.as_boolean v)
  | value_kind.string => value_ops.string (value_ops.string_data v)
  end.

(** A decoder [p] reads [bs] as [a] whatever follows. *)
Definition reads {A} (p : reader -> A * reader) (bs : text) (a : A) : Prop :=
  forall rest, p (mk_reader (bs ++ rest) true) = (a, mk_reader rest true).

(** A decoder is sound for [good] when a successful run consumed a prefix [bs]
    that it reads the same way in front of any other suffix, with [good bs a]. *)
Definition sound_reader {A} (p : reader -> A * reader) (good : text -> A -> Prop) : Prop :=
  forall r a r', p r = (a, r') -> valid_ r' = true ->
  exists bs, r = mk_reader (bs ++ current_ r') true /\ reads p bs a /\ good bs a.

(** Sequencing and mapping of decoders, for the lemmas. *)
Definition rbind {A B} (p : reader -> A * reader) (f : A -> reader -> B * reader)
  : reader -> B * reader := fun r => let '(a, r') := p r in f a r'.
Definition rmap {A B} (f : A -> B) (p : reader -> A * reader)
  : reader -> B * reader := fun r => let '(a, r') := p r in (f a, r').

Lemma reads_rbind {A B} p (f : A -> reader -> B * reader) bs1 bs2 a b :
  reads p bs1 a -> reads (f a) bs2 b -> reads (rbind p f) (bs1 ++ bs2) b.
Proof. intros Hp Hf rest. unfold rbind. by rewrite <- app_assoc, Hp, Hf. Qed.

Lemma sound_rbind {A B} p (f : A -> reader -> B * reader) G H :
  sound_reader p G -> (forall a, sound_reader (f a) (H a)) ->
  sound_reader (rbind p f)
    (fun bs b => exists bs1 bs2 a, bs = bs1 ++ bs2 /\ G bs1 a /\ H a bs2 b).
Proof.
  intros Hp Hf r b r' Hrun Hv. unfold rbind in Hrun.
  destruct (p r) as [a r1] eqn:E.
  destruct (Hf _ _ _ _ Hrun Hv) as (bs2 & -> & Hr2 & Hg2).
  destruct (Hp _ _ _ E eq_refl) as (bs1 & -> & Hr1 & Hg1).
  exists (bs1 ++ bs2). split_and!; eauto 10 using reads_rbind.
  simpl. by rewrite <- app_assoc.
Qed.

Lemma sound_rmap {A B} (f : A -> B) p (G : text -> A -> Prop) (H : text -> B -> Prop) :
  sound_reader p G -> (forall bs a, G bs a -> H bs (f a)) -> sound_reader (rmap f p) H.
Proof.
  intros Hp Hf r b r' Hrun Hv. unfold rmap in Hrun.
  destruct (p r) as [a r1] eqn:E. simplify_eq.
  destruct (Hp _ _ _ E Hv) as (bs & -> & Hr & Hg). exists bs. split_and!; auto.
  intros rest. unfold rmap. by rewrite Hr.
Qed.

(** ** Reader lemmas *)

Lemma require_ok size l :
  size <= zlen l -> require size (mk_reader l true) = (true, mk_reader l true).
Proof.
  intros H. unfold require, remaining. simpl.
  by destruct (Z.ltb_spec (zlen l) size); [lia|].
Qed.

Lemma require_true size r r' :
  require size r = (true, r') -> r' = r /\ valid_ r = true /\ size <= remaining r.
Proof.
  unfold require. destruct (valid_ r); [|done]. simpl.
  destruct (Z.ltb_spec (remaining r) size); intros [= <-]. auto.
Qed.

Lemma require_false size r r' : require size r = (false, r') -> valid_ r' = false.
Proof. unfold require. destruct_match; intros [= <-]; done. Qed.

Lemma reads_integer n bs :
  length bs = n -> reads (reader_integer n) bs (read_le bs).
Proof.
  intros Hn rest. unfold reader_integer.
  rewrite require_ok by (rewrite zlen_app; unfold zlen; lia). simpl.
  subst n. by rewrite take_app_length, drop_app_length.
Qed.

Lemma reads_write_le n z :
  0 <= z < 2 ^ (Z.of_nat n * 8) -> reads (reader_integer n) (write_le n z) z.
Proof.
  intros Hz. rewrite <- (read_write_le n z) at 2 by done.
  apply reads_integer, length_write_le.
Qed.

Lemma sound_integer n :
  sound_reader (reader_integer n) (fun bs z => length bs = n /\ z = read_le bs).
Proof.
  intros r z r'. unfold reader_integer.
  destruct (require _ _) as [[] r0] eqn:E; simpl.
  - apply require_true in E as (-> & Hv & Hle). intros [= <- <-] _.
    exists (take n (current_ r)). unfold remaining, zlen in Hle.
    assert (length (take n (current_ r)) = n) by (rewrite length_take; lia).
    split_and!; [|by apply reads_integer|done|done].
    destruct r as [l v]; simpl in *; subst. by rewrite take_drop.
  - intros [= <- <-] Hv. apply require_false in E. congruence.
Qed.

Lemma integer_range n bs : length bs = n -> 0 <= read_le bs < 2 ^ (Z.of_nat n * 8).
Proof. intros <-. apply read_le_range. Qed.

Lemma reads_raw s :
  zlen s <= u32_max -> reads reader_raw (write_le 4 (zlen s) ++ s) s.
Proof.
  intros Hs rest. unfold reader_raw. rewrite <- app_assoc.
  rewrite (reads_write_le 4) by (pose proof (zlen_nonneg s); unfold u32_max in *; lia).
  rewrite require_ok by (rewrite zlen_app; pose proof (zlen_nonneg rest); lia). simpl.
  unfold zlen. rewrite Nat2Z.id. by rewrite take_app_length, drop_app_length.
Qed.

Lemma sound_take size :
  0 <= size ->
  sound_reader (fun r => let '(ok, r) := require size r in
     if negb ok then ([], r)
     else (take (Z.to_nat size) (current_ r),
           mk_reader (drop (Z.to_nat size) (current_ r)) (valid_ r)))
    (fun bs s => bs = s /\ zlen s = size).
Proof.
  intros Hs r s r'. destruct (require size r) as [[] r0] eqn:E; simpl.
  - apply require_true in E as (-> & Hv & Hle). intros [= <- <-] _.
    unfold remaining, zlen in Hle.
    assert (zlen (take (Z.to_nat size) (current_ r)) = size) as Hz
      by (unfold zlen; rewrite length_take; lia).
    exists (take (Z.to_nat size) (current_ r)). split_and!; [| |done|done].
    + destruct r as [l v]; simpl in *; subst. by rewrite take_drop.
    + intros rest. rewrite require_ok by (rewrite zlen_app; pose proof (zlen_nonneg rest); lia).
      simpl. rewrite <- Hz at 1 3. unfold zlen. rewrite Nat2Z.id.
      by rewrite take_app_length, drop_app_length.
  - intros [= <- <-] Hv. apply require_false in E. congruence.
Qed.

Lemma sound_raw :
  sound_reader reader_raw
    (fun bs s => zlen s <= u32_max /\ bs = write_le 4 (zlen s) ++ s).
Proof.
  intros r s r' Hrun Hv. unfold reader_raw in Hrun.
  destruct (reader_integer 4 r) as [size r1] eqn:E1.
  assert (0 <= size) as Hsize.
  { unfold reader_integer in E1. repeat destruct_match_in E1; simplify_eq; [done|].
    apply read_le_range. }
  destruct (sound_take size Hsize _ _ _ Hrun Hv) as (bs & -> & _ & -> & Hz).
  destruct (sound_integer _ _ _ _ E1 eq_refl) as (b4 & -> & _ & Hl4 & Hr4).
  pose proof (integer_range 4 b4 Hl4) as Hrange. rewrite <- Hr4 in Hrange.
  assert (write_le 4 size = b4) as Hw by (rewrite Hr4, <- Hl4; apply write_read_le).
  assert (zlen s <= u32_max) by (unfold u32_max; simpl in Hrange; lia).
  exists (b4 ++ s). split_and!; [simpl; by rewrite <- app_assoc| |done|congruence].
  rewrite <- Hw, <- Hz. by apply reads_raw.
Qed.

(** ** The value codec *)

Section ValueCodec.
Context `{ErrorPolicy}.

Lemma writer_raw_spec s w :
  writer_raw s w =
    if zlen s <=? u32_max
    then Ok (mk_writer (data_ w ++ write_le 4 (zlen s) ++ s) (capacity_ w))
    else DYNABRIDGE_RAISE (protocol_error (lit "RPC string is too large")).
Proof.
  unfold writer_raw. destruct (Z.ltb_spec u32_max (zlen s)), (Z.leb_spec (zlen s) u32_max);
    try lia; [done|].
  unfold writer_integer. destruct (Z.eqb_spec (zlen s) 0) as [E|_]; simpl.
  - apply (zlen_zero s) in E as ->. by rewrite app_nil_r.
  - by rewrite <- app_assoc.
Qed.

Lemma encode_value_spec v w :
  encode_value v w =
    if wire_fits v then Ok (mk_writer (data_ w ++ wire_value v) (capacity_ w))
    else DYNABRIDGE_RAISE (protocol_error (lit "RPC string is too large")).
Proof.
  unfold encode_value, wire_fits, wire_value, value_ops.kind, value_ops.string_size.
  destruct (kind_ v); unfold writer_integer; simpl;
    rewrite ?writer_raw_spec, ?app_nil_r; simpl; by rewrite <- ?app_assoc.
Qed.

Lemma checked_add_Ok a b :
  0 <= a -> a + b <= size_max -> checked_add a b = Ok (a + b).
Proof. intros. unfold checked_add. destruct (Z.ltb_spec (size_max - a) b); [lia|done]. Qed.

Lemma checked_add_overflow a b :
  size_max < a + b ->
  checked_add a b = DYNABRIDGE_RAISE (protocol_error (lit "RPC frame size overflow")).
Proof. intros. unfold checked_add. destruct (Z.ltb_spec (size_max - a) b); [done|lia]. Qed.

Lemma encoded_size_spec v :
  encoded_size v =
    if wire_fits v then Ok (zlen (wire_value v))
    else DYNABRIDGE_RAISE (protocol_error (lit "RPC string is too large")).
Proof.
  unfold encoded_size, wire_fits, wire_value, value_ops.kind.
  destruct (kind_ v); autorewrite with bridge; try done.
  destruct (Z.ltb_spec u32_max (value_ops.string_size v)),
    (Z.leb_spec (value_ops.string_size v) u32_max); try lia; [done|].
  rewrite checked_add_Ok by (unfold size_max, u32_max in *; lia).
  f_equal. unfold value_ops.string_size. lia.
Qed.

Lemma wire_value_fits_bound v :
  wire_fits v = true -> 1 <= zlen (wire_value v) <= 5 + u32_max.
Proof.
  unfold wire_fits, wire_value.
  destruct (kind_ v); autorewrite with bridge; unfold u32_max; try lia.
  intros ?%Z.leb_le. unfold value_ops.string_size in *.
  pose proof (zlen_nonneg (value_ops.string_data v)). lia.
Qed.
End ValueCodec.

Lemma canonical_equiv v : value_ok v -> canonical v ≡ v.
Proof.
  intros Hok. unfold canonical. destruct (kind_ v) eqn:Hk; split; simpl; try done.
  - unfold value_ops.as_signed. by apply to_bits64_to_signed64.
  - unfold value_ops.as_boolean. simpl. by destruct (negb (bits_ v =? 0)).
Qed.

Lemma canonical_proper v w : v ≡ w -> canonical v = canonical w.
Proof.
  intros [Hk Hv]. unfold canonical, value_ops.as_signed. rewrite <- Hk.
  destruct (kind_ v); try rewrite Hv; done.
Qed.

#[export] Instance wire_value_proper : Proper ((≡) ==> (=)) wire_value.
Proof.
  intros v w [Hk Hv]. unfold wire_value, value_ops.as_signed, value_ops.string_size.
  rewrite <- Hk. destruct (kind_ v); try rewrite Hv; done.
Qed.

#[export] Instance wire_fits_proper : Proper ((≡) ==> (=)) wire_fits.
Proof.
  intros v w [Hk Hv]. unfold wire_fits, value_ops.string_size. rewrite <- Hk.
  destruct (kind_ v); try rewrite Hv; done.
Qed.

Lemma reads_kind k rest :
  reader_integer 1 (mk_reader (write_le 1 (value_kind.to_wire k) ++ rest) true)
  = (value_kind.to_wire k, mk_reader rest true).
Proof.
  apply (reads_write_le 1). pose proof (value_kind.to_wire_range k).
  unfold u8_modulus in *. simpl. lia.
Qed.

Lemma reads_value v :
  value_ok v -> wire_fits v = true -> reads decode_value (wire_value v) (canonical v).
Proof.
  intros Hok Hfit rest. unfold decode_value, wire_value, wire_fits, canonical in *.
  rewrite <- app_assoc, reads_kind, value_kind.of_to_wire.
  unfold value_ok, u64_modulus in Hok.
  destruct (kind_ v); rewrite ?app_nil_l; try done.
  - rewrite (reads_write_le 8) by (apply to_bits64_range). f_equal.
    unfold value_ops.as_signed at 1. rewrite to_bits64_to_signed64 by done. done.
  - by rewrite (reads_write_le 8) by done.
  - by rewrite (reads_write_le 8) by done.
  - rewrite (reads_write_le 1) by (by destruct (value_ops.as_boolean v)).
    by destruct (value_ops.as_boolean v).
  - apply Z.leb_le in Hfit. by rewrite (reads_raw _ Hfit).
Qed.

Lemma wire_value_canonical v : value_ok v -> wire_value (canonical v) = wire_value v.
Proof. intros Hok. by rewrite canonical_equiv. Qed.


(** ** Soundness of the value decoder *)

(** The part of [decode_value] after the kind byte. *)
Definition decode_payload (k : Z) : reader -> value * reader :=
  match value_kind.of_wire k with
  | Some value_kind.undefined => fun r => (value_ops.empty, r)
  | Some value_kind.signed_integer =>
      rmap (fun bits => value_ops.signed_integer (to_signed64 bits)) (reader_integer 8)
  | Some value_kind.unsigned_integer => rmap value_ops.unsigned_integer (reader_integer 8)
  | Some value_kind.real => rmap value_ops.real (reader_integer 8)
  | Some value_kind.boolean =>
      rmap (fun byte => value_ops.boolean (negb (byte =? 0))) (reader_integer 1)
  | Some value_kind.string => rmap value_ops.string reader_raw
  | None => fun r => (value_ops.empty, invalidate r)
  end.

Lemma decode_value_rbind r : decode_value r = rbind (reader_integer 1) decode_payload r.
Proof.
  unfold decode_value, rbind, decode_payload, rmap. destruct (reader_integer 1 r) as [k r1].
  by destruct (value_kind.of_wire k) as [[]|].
Qed.

(** What a decoded value satisfies: it is what the decoder would build again, and
    it has a wire image as long as the bytes it came from. *)
Definition decoded_value (bs : text) (v : value) : Prop :=
  canonical v = v /\ value_ok v /\ wire_fits v = true /\ zlen (wire_value v) = zlen bs.

Lemma sound_payload k :
  sound_reader (decode_payload k)
    (fun bs v => canonical v = v /\ value_ok v /\ wire_fits v = true
                 /\ zlen (wire_value v) = 1 + zlen bs).
Proof.
  unfold decode_payload, wire_value.
  assert (forall bs : text, length bs = 8%nat -> zlen bs = 8 /\ 0 <= read_le bs < u64_modulus)
    as H8. { intros bs Hl. split; [unfold zlen; lia|]. by apply (integer_range 8). }
  destruct (value_kind.of_wire k) as [[]|].
  - intros r v r' [= <- <-] Hv. exists []. destruct r as [l b]; simpl in Hv; subst. by split_and!.
  - eapply sound_rmap; [apply sound_integer|]. intros bs z [Hl ->].
    destruct (H8 bs Hl) as [Hz Hr]. unfold canonical, value_ops.as_signed; simpl.
    rewrite to_bits64_to_signed64, Hz by done. autorewrite with bridge.
    split_and!; auto with bridge.
  - eapply sound_rmap; [apply sound_integer|]. intros bs z [Hl ->].
    destruct (H8 bs Hl) as [Hz Hr]. simpl. rewrite Hz. autorewrite with bridge. done.
  - eapply sound_rmap; [apply sound_integer|]. intros bs z [Hl ->].
    destruct (H8 bs Hl) as [Hz Hr]. simpl. rewrite Hz. autorewrite with bridge. done.
  - eapply sound_rmap; [apply sound_integer|]. intros bs z [Hl _].
    assert (zlen bs = 1) as -> by (unfold zlen; lia).
    destruct (negb (z =? 0)); simpl; autorewrite with bridge; done.
  - eapply sound_rmap; [apply sound_raw|]. intros bs s [Hs ->]. simpl. autorewrite with bridge.
    split_and!; try done. by apply Z.leb_le.
  - by intros r v r' [= <- <-] Hv.
Qed.

Lemma sound_value : sound_reader decode_value decoded_value.
Proof.
  intros r v r' Hrun Hv. rewrite decode_value_rbind in Hrun.
  destruct (sound_rbind _ _ _ _ (sound_integer 1) sound_payload _ _ _ Hrun Hv)
    as (bs & -> & Hr & bs1 & bs2 & k & -> & [Hl1 _] & Hg).
  exists (bs1 ++ bs2). split_and!; [done| |].
  - intros rest. rewrite decode_value_rbind. apply Hr.
  - unfold decoded_value. rewrite zlen_app. unfold zlen at 2. rewrite Hl1. apply Hg.
Qed.

(** ** Frames *)

Definition wire_values (args : list value) : text := flat_map wire_value args.

Definition wire_request (m : Z) (args : list value) : text :=
  write_le 4 request_magic ++ write_le 1 protocol_version ++ write_le 8 m ++
  write_le 4 (zlen args) ++ wire_values args.

Definition wire_response (v : value) : text :=
  write_le 4 response_magic ++ write_le 1 protocol_version ++ write_le 1 0 ++ wire_value v.

Definition wire_error (message : text) : text :=
  write_le 4 response_magic ++ write_le 1 protocol_version ++ write_le 1 1 ++
  write_le 4 (zlen message) ++ message.

(** When a request can be encoded. *)
Definition request_encodable (args : list value) : bool :=
  (zlen args <=? u32_max) && forallb wire_fits args
  && (17 + zlen (wire_values args) <=? size_max).

Definition args_ok (args : list value) : Prop := Forall value_ok args.

Lemma wire_values_cons v l : wire_values (v :: l) = wire_value v ++ wire_values l.
Proof. done. Qed.

#[global] Arguments wire_values : simpl never.

Lemma zlen_wire_request m args : zlen (wire_request m args) = 17 + zlen (wire_values args).
Proof. unfold wire_request. autorewrite with bridge. lia. Qed.

Lemma wire_values_length args : zlen args <= zlen (wire_values args).
Proof.
  induction args as [|v l IH]; [done|]. rewrite wire_values_cons, zlen_cons, zlen_app.
  assert (1 <= zlen (wire_value v)); [|lia]. unfold wire_value. rewrite zlen_app, zlen_write_le.
  pose proof (zlen_nonneg (match kind_ v with
  | value_kind.undefined => []
  | value_kind.signed_integer => write_le 8 (to_bits64 (value_ops.as_signed v))
  | value_kind.unsigned_integer | value_kind.real => write_le 8 (bits_ v)
  | value_kind.boolean => write_le 1 (if value_ops.as_boolean v then 1 else 0)
  | value_kind.string => write_le 4 (value_ops.string_size v) ++ value_ops.string_data v
  end)). lia.
Qed.

#[export] Instance wire_values_proper : Proper (Forall2 (≡) ==> (=)) wire_values.
Proof.
  intros l k H. induction H as [|v w l k Hvw H IH]; [done|].
  rewrite !wire_values_cons, Hvw. by f_equal.
Qed.

Section Encoders.
Context `{ErrorPolicy}.

(** A raise of a protocol error, whatever its text. *)
Definition raises_protocol_error {A} (o : outcome A) : Prop :=
  exists message, o = DYNABRIDGE_RAISE (protocol_error message).

Lemma raises_bind {A B} (o : outcome A) (f : A -> outcome B) :
  raises_protocol_error o -> raises_protocol_error (o ≫= f).
Proof. intros [m ->]. exists m. unfold DYNABRIDGE_RAISE. by destruct has_exceptions. Qed.

Lemma frame_size_loop_spec args : forall acc, 0 <= acc <= size_max ->
  (forallb wire_fits args && (acc + zlen (wire_values args) <=? size_max) = true ->
   frame_size_loop acc args = Ok (acc + zlen (wire_values args))) /\
  (forallb wire_fits args && (acc + zlen (wire_values args) <=? size_max) = false ->
   raises_protocol_error (frame_size_loop acc args)).
Proof.
  induction args as [|v l IH]; intros acc Hacc; simpl frame_size_loop; simpl forallb.
  - rewrite Z.add_0_r. split; [done|]. simpl. by destruct (Z.leb_spec acc size_max); [|lia].
  - rewrite wire_values_cons, zlen_app, encoded_size_spec.
    pose proof (zlen_nonneg (wire_values l)).
    destruct (wire_fits v) eqn:Hv; simpl; [|split; [done|intros _; apply raises_bind; by eexists]].
    pose proof (wire_value_fits_bound v Hv).
    destruct (Z.leb_spec (acc + zlen (wire_value v)) size_max).
    + rewrite checked_add_Ok by lia. simpl. rewrite Z.add_assoc. apply IH. lia.
    + rewrite checked_add_overflow by lia. split.
      * intros [_ ?%Z.leb_le]%andb_true_iff. lia.
      * intros _. apply raises_bind. by eexists.
Qed.

Lemma encode_values_spec args : forall w,
  forallb wire_fits args = true ->
  encode_values args w = Ok (mk_writer (data_ w ++ wire_values args) (capacity_ w)).
Proof.
  induction args as [|v l IH]; intros w; simpl.
  - intros _. unfold wire_values. simpl. rewrite app_nil_r. by destruct w.
  - intros [Hv Hl]%andb_true_iff. rewrite encode_value_spec, Hv. simpl.
    rewrite IH by done. simpl. by rewrite wire_values_cons, <- app_assoc.
Qed.

Lemma encode_request_cases m args :
  (request_encodable args = true -> encode_request m args = Ok (wire_request m args)) /\
  (request_encodable args = false -> raises_protocol_error (encode_request m args)).
Proof.
  unfold request_encodable, encode_request.
  destruct (Z.ltb_spec u32_max (zlen args)), (Z.leb_spec (zlen args) u32_max); try lia; simpl.
  - split; [done|]. by eexists.
  - destruct (frame_size_loop_spec args 17) as [Hok Hbad]; [done|]. split.
    + intros Henc. rewrite Hok by done. simpl.
      apply andb_true_iff in Henc as [Hfit _]. rewrite encode_values_spec by done.
      simpl. unfold writer_finish, wire_request. simpl. by rewrite <- !app_assoc.
    + intros Henc. apply raises_bind, Hbad, Henc.
Qed.

Lemma encode_request_Ok_iff m args frame :
  encode_request m args = Ok frame <-> request_encodable args = true /\ frame = wire_request m args.
Proof.
  destruct (encode_request_cases m args) as [Hok Hbad]. split.
  - intros He. destruct (request_encodable args); [by rewrite Hok in He; simplify_eq|].
    destruct Hbad as [msg Hr]; [done|]. rewrite Hr in He. by apply raise_not_Ok in He.
  - intros [Henc ->]. by apply Hok.
Qed.
End Encoders.

(** ** Request decoding *)

Lemma decode_args_reads args rest :
  args_ok args -> forallb wire_fits args = true ->
  decode_args (length args) (mk_reader (wire_values args ++ rest) true)
  = Some (canonical <$> args, mk_reader rest true).
Proof.
  intros Hok. induction Hok as [|v l Hv Hok IH]; simpl; [done|].
  intros [Hfv Hfl]%andb_true_iff. rewrite wire_values_cons, <- app_assoc, (reads_value v Hv Hfv). simpl.
  by rewrite IH.
Qed.

Lemma decode_args_sound argc : forall r items r',
  decode_args argc r = Some (items, r') -> valid_ r = true -> valid_ r' = true ->
  exists bs, r = mk_reader (bs ++ current_ r') true /\ length items = argc
    /\ (forall rest, decode_args argc (mk_reader (bs ++ rest) true)
                     = Some (items, mk_reader rest true))
    /\ canonical <$> items = items /\ args_ok items /\ forallb wire_fits items = true
    /\ zlen (wire_values items) = zlen bs.
Proof.
  induction argc as [|argc IH]; intros r items r' Hd Hv Hv'; simpl in Hd.
  - simplify_eq. exists []. split_and!; try done; [|constructor].
    destruct r' as [l b]; simpl in *; by subst.
  - destruct (decode_value r) as [item r1] eqn:E1.
    destruct (valid_ r1) eqn:Hv1; [|done]. simpl in Hd.
    destruct (decode_args argc r1) as [[items' r2]|] eqn:E2; [|done]. simplify_eq/=.
    destruct (IH _ _ _ E2 Hv1 Hv') as (bs2 & -> & Hlen & Hreads & Hcan & Hok & Hfit & Hz).
    destruct (sound_value _ _ _ E1 eq_refl) as (bs1 & -> & Hr1 & Hc1 & Ho1 & Hf1 & Hz1).
    exists (bs1 ++ bs2). split_and!.
    + simpl. by rewrite <- app_assoc.
    + simpl. by rewrite Hlen.
    + intros rest. rewrite <- app_assoc, Hr1. simpl. by rewrite Hreads.
    + simpl. by rewrite Hc1, Hcan.
    + by constructor.
    + simpl. by rewrite Hf1, Hfit.
    + rewrite wire_values_cons. autorewrite with bridge. lia.
Qed.

(** The header check, as a prefix of the frame. *)
Lemma decode_request_header_reads m argc rest :
  0 <= m < u64_modulus -> 0 <= argc <= u32_max -> argc <= zlen rest ->
  decode_request_header
    (write_le 4 request_magic ++ write_le 1 protocol_version ++ write_le 8 m ++
     write_le 4 argc ++ rest) = Some (m, argc, mk_reader rest true).
Proof.
  intros Hm Hargc Hle. unfold decode_request_header, new_reader.
  rewrite (reads_write_le 4) by done. simpl.
  rewrite (reads_write_le 1) by done. simpl.
  rewrite (reads_write_le 8) by done.
  rewrite (reads_write_le 4) by (unfold u32_max in *; simpl; lia). simpl.
  unfold remaining. simpl. by destruct (Z.ltb_spec (zlen rest) argc); [lia|].
Qed.

Lemma decode_request_header_sound frame m argc r :
  decode_request_header frame = Some (m, argc, r) ->
  exists rest, r = mk_reader rest true /\ 0 <= m < u64_modulus /\ 0 <= argc <= u32_max
    /\ argc <= zlen rest
    /\ frame = write_le 4 request_magic ++ write_le 1 protocol_version ++ write_le 8 m ++
               write_le 4 argc ++ rest.
Proof.
  unfold decode_request_header.
  destruct (reader_integer 4 (new_reader frame)) as [z1 r1] eqn:E1.
  destruct (Z.eqb_spec z1 request_magic) as [->|]; [simpl|done].
  destruct (reader_integer 1 r1) as [z2 r2] eqn:E2.
  destruct (Z.eqb_spec z2 protocol_version) as [->|]; [simpl|done].
  destruct (reader_integer 8 r2) as [z3 r3] eqn:E3.
  destruct (reader_integer 4 r3) as [z4 r4] eqn:E4.
  destruct (valid_ r4) eqn:Hv; [simpl|done].
  destruct (Z.ltb_spec (remaining r4) z4) as [|Hle]; [done|]. intros [= <- <- <-].
  destruct (sound_integer _ _ _ _ E4 Hv) as (b4 & -> & _ & Hl4 & Hr4).
  destruct (sound_integer _ _ _ _ E3 eq_refl) as (b3 & -> & _ & Hl3 & Hr3).
  destruct (sound_integer _ _ _ _ E2 eq_refl) as (b2 & -> & _ & Hl2 & Hr2).
  destruct (sound_integer _ _ _ _ E1 eq_refl) as (b1 & Hf & _ & Hl1 & Hr1).
  injection Hf as ->. exists (current_ r4).
  pose proof (integer_range _ _ Hl3) as H3. rewrite <- Hr3 in H3.
  pose proof (integer_range _ _ Hl4) as H4. rewrite <- Hr4 in H4.
  split_and!; try (unfold u32_max, u64_modulus; simpl in *; lia); try done.
  - destruct r4 as [l b]; simpl in *; by subst.
  - simpl. rewrite Hr1, Hr2, Hr3, Hr4, <- Hl1 at 1. rewrite write_read_le.
    f_equal. rewrite <- Hl2 at 1. rewrite write_read_le. f_equal.
    rewrite <- Hl3 at 1. rewrite write_read_le. f_equal.
    rewrite <- Hl4 at 1. by rewrite write_read_le.
Qed.

(** Exactly which frames are accepted, and as what. *)
Lemma try_decode_request_true frame r0 r :
  try_decode_request frame r0 = (true, r) <->
  exists items, decode_request_header frame =
      Some (method r, zlen items, mk_reader (drop 17 frame) true)
    /\ args r = items
    /\ decode_args (length items) (mk_reader (drop 17 frame) true)
       = Some (items, mk_reader [] true).
Proof.
  unfold try_decode_request. split.
  - destruct (decode_request_header frame) as [[[m argc] r1]|] eqn:Eh; [|done].
    destruct (decode_request_header_sound _ _ _ _ Eh)
      as (rest & -> & Hm & Hargc & Hle & Hframe).
    destruct (decode_args (Z.to_nat argc) _) as [[items r2]|] eqn:Ea; [|done].
    destruct (valid_ r2) eqn:Hv; [simpl|done].
    destruct (reader_empty r2) eqn:Hempty; [simpl|done]. intros [= <-]. simpl.
    apply Z.eqb_eq, zlen_zero in Hempty.
    destruct (decode_args_sound _ _ _ _ Ea eq_refl Hv) as (bs & _ & Hlen & _).
    assert (drop 17 frame = rest) as ->.
    { rewrite Hframe, !app_assoc. rewrite drop_app_length' by (by rewrite !length_app, !length_write_le).
      done. }
    exists items. rewrite Hlen. split_and!; [|done|].
    + f_equal. unfold zlen. rewrite Hlen. repeat f_equal. lia.
    + rewrite Ea. destruct r2 as [l b]; simpl in *; by subst.
  - intros (items & -> & <- & Hd). unfold zlen. rewrite Nat2Z.id, Hd. simpl. by destruct r.
Qed.

Lemma list_canonical_equiv args : args_ok args -> canonical <$> args ≡ args.
Proof.
  induction 1 as [|v l Hv Hl IH]; [done|]. simpl. by rewrite (canonical_equiv v Hv), IH.
Qed.

Lemma request_decodes m args r0 :
  0 <= m < u64_modulus -> args_ok args -> request_encodable args = true ->
  try_decode_request (wire_request m args) r0 = (true, mk_request m (canonical <$> args)).
Proof.
  intros Hm Hok [[Hlen%Z.leb_le Hfit]%andb_true_iff _]%andb_true_iff.
  unfold try_decode_request, wire_request.
  rewrite decode_request_header_reads; try done;
    [|pose proof (zlen_nonneg args); lia|apply wire_values_length].
  unfold zlen at 1. rewrite Nat2Z.id.
  rewrite <- (app_nil_r (wire_values args)), decode_args_reads by done. done.
Qed.

(** An accepted frame followed by more bytes is rejected. *)
Lemma accepted_frame_extension frame extra r0 r :
  try_decode_request frame r0 = (true, r) -> extra ≠ [] ->
  try_decode_request (frame ++ extra) r0 = (false, r0).
Proof.
  intros Hacc Hextra. apply try_decode_request_true in Hacc as (items & Hh & <- & Hd).
  destruct (decode_request_header_sound _ _ _ _ Hh) as (rest & Hr & Hm & Hargc & Hle & Hframe).
  injection Hr as Hr. unfold try_decode_request.
  assert (decode_request_header (frame ++ extra)
          = Some (method r, zlen (args r), mk_reader (rest ++ extra) true)) as ->.
  { rewrite Hframe, <- !app_assoc. apply decode_request_header_reads; try done.
    rewrite zlen_app. pose proof (zlen_nonneg extra). lia. }
  unfold zlen. rewrite Nat2Z.id. rewrite Hr in Hd.
  destruct (decode_args_sound _ _ _ _ Hd eq_refl eq_refl) as (bs & Hbs & _ & Hreads & _).
  simpl in Hbs. rewrite app_nil_r in Hbs. injection Hbs as ->. rewrite Hreads. simpl.
  unfold reader_empty, remaining. simpl. destruct (Z.eqb_spec (zlen extra) 0) as [E|]; [|done].
  by apply zlen_zero in E.
Qed.

(** ** Properties of the request codec *)

(** C8: a request that encodes decodes to the same method and to arguments a peer
    cannot tell from the ones sent; nothing of the caller's old result remains. *)
Theorem request_roundtrip `{ErrorPolicy} m args frame r0 :
  0 <= m < u64_modulus -> args_ok args -> encode_request m args = Ok frame ->
  exists r, try_decode_request frame r0 = (true, r) /\ method r = m
            /\ RpcCodec.args r ≡ args.
Proof.
  intros Hm Hok [Henc ->]%encode_request_Ok_iff. eexists. split; [by apply request_decodes|].
  split; [done|]. by apply list_canonical_equiv.
Qed.

Definition sample_args : list value :=
  [value_ops.signed_integer (-2); value_ops.borrowed_string (lit "ab");
   value_ops.boolean true; value_ops.real (2 ^ 63); value_ops.empty].

Lemma request_roundtrip_witness :
  let policy := {| has_exceptions := true |} in
  exists r, try_decode_request (wire_request 7 sample_args) (mk_request 0 []) = (true, r)
            /\ method r = 7 /\ RpcCodec.args r ≡ sample_args.
Proof.
  intros policy. apply (request_roundtrip 7 sample_args).
  - done.
  - repeat (apply Forall_cons_2; [by vm_compute|]). apply Forall_nil_2.
  - by vm_compute.
Defined.

(** Encoding a request succeeds exactly when the argument count fits 32 bits,
    every string fits 32 bits and the frame fits [size_t]; the size computed
    before encoding is the exact length of the frame, so the reserved buffer never
    grows; every other request raises a protocol error. *)
Theorem encode_request_total `{ErrorPolicy} m args :
  match encode_request m args with
  | Ok frame => request_encodable args = true /\ frame_size_loop 17 args = Ok (zlen frame)
  | o => request_encodable args = false /\ raises_protocol_error o
  end.
Proof.
  destruct (encode_request_cases m args) as [Hok Hbad].
  destruct (request_encodable args) eqn:Henc.
  - rewrite Hok by done. split; [done|].
    unfold request_encodable in Henc. rewrite <- andb_assoc in Henc.
    apply andb_true_iff in Henc as [_ Henc].
    destruct (frame_size_loop_spec args 17) as [Hsize _]; [done|].
    by rewrite Hsize, zlen_wire_request.
  - destruct Hbad as [msg Hr]; [done|]. rewrite Hr. pose proof (raise_not_Ok (A := text)) as Hraise.
    destruct (DYNABRIDGE_RAISE _) eqn:E; [by apply Hraise in E|..]; (split; [done|]); by exists msg.
Qed.

(** The decoder accepts only well-formed frames: what it accepts re-encodes to
    a frame of the same length which decodes to the same request. *)
Theorem decode_request_sound `{ErrorPolicy} frame r0 r :
  zlen frame <= size_max -> try_decode_request frame r0 = (true, r) ->
  exists frame', encode_request (method r) (args r) = Ok frame' /\ zlen frame' = zlen frame
    /\ 0 <= method r < u64_modulus
    /\ forall r1, try_decode_request frame' r1 = (true, r).
Proof.
  intros Hsize Hacc. apply try_decode_request_true in Hacc as (items & Hh & <- & Hd).
  destruct (decode_request_header_sound _ _ _ _ Hh) as (rest & Hr & Hm & Hargc & Hle & Hframe).
  injection Hr as Hr. rewrite Hr in Hd.
  destruct (decode_args_sound _ _ _ _ Hd eq_refl eq_refl)
    as (bs & Hbs & _ & _ & Hcan & Hok & Hfit & Hz).
  simpl in Hbs. rewrite app_nil_r in Hbs. injection Hbs as ->.
  assert (zlen frame = 17 + zlen bs) as Hlen
    by (rewrite Hframe; autorewrite with bridge; lia).
  assert (request_encodable (args r) = true) as Henc.
  { unfold request_encodable. rewrite Hfit, andb_true_r. apply andb_true_iff.
    split; apply Z.leb_le; lia. }
  exists (wire_request (method r) (args r)). split_and!; try apply Hm.
  - by apply encode_request_Ok_iff.
  - rewrite zlen_wire_request. lia.
  - intros r1. rewrite request_decodes by done. rewrite Hcan. by destruct r.
Qed.

Lemma decode_request_sound_witness :
  let policy := {| has_exceptions := false |} in
  let frame := wire_request 9 [value_ops.boolean true] in
  exists frame', encode_request 9 [value_ops.boolean true] = Ok frame'
    /\ zlen frame' = zlen frame /\ 0 <= 9 < u64_modulus
    /\ forall r1, try_decode_request frame' r1 = (true, mk_request 9 [value_ops.boolean true]).
Proof.
  intros policy frame.
  apply (decode_request_sound frame (mk_request 0 []) (mk_request 9 [value_ops.boolean true])).
  - by vm_compute.
  - by vm_compute.
Defined.

(** Accepted frames are prefix-free: a truncated frame and a frame with
    trailing bytes are rejected, and the caller's result is left as it was. *)
Theorem accepted_frames_prefix_free frame extra r0 r :
  try_decode_request frame r0 = (true, r) ->
  (extra ≠ [] -> try_decode_request (frame ++ extra) r0 = (false, r0)) /\
  (forall shorter missing, frame = shorter ++ missing -> missing ≠ [] ->
     try_decode_request shorter r0 = (false, r0)).
Proof.
  intros Hacc. split; [by eapply accepted_frame_extension|].
  intros shorter missing -> Hmissing.
  destruct (try_decode_request shorter r0) as [[] r'] eqn:E.
  - by rewrite (accepted_frame_extension _ _ _ _ E Hmissing) in Hacc.
  - unfold try_decode_request in E. repeat destruct_match_in E; by simplify_eq.
Qed.

Lemma accepted_frames_prefix_free_witness :
  let r0 := mk_request 0 [] in
  let frame := wire_request 9 [value_ops.boolean true] in
  try_decode_request (frame ++ [x00]) r0 = (false, r0) /\
  try_decode_request (take 18 frame) r0 = (false, r0).
Proof.
  intros r0 frame.
  destruct (accepted_frames_prefix_free frame [x00] r0 (mk_request 9 [value_ops.boolean true]))
    as [Hext Hshort]; [by vm_compute|].
  split; [by apply Hext|].
  apply (Hshort _ (drop 18 frame)); [symmetry; apply take_drop|by vm_compute].
Defined.

(** The argument count read from an untrusted frame is at most the number of
    bytes left in it before any memory is reserved for it. *)
Theorem decode_reserve_bounded frame m argc input :
  decode_request_header frame = Some (m, argc, input) ->
  0 <= argc <= zlen frame - 17 /\ valid_ input = true /\ remaining input = zlen frame - 17.
Proof.
  intros (rest & -> & Hm & Hargc & Hle & ->)%decode_request_header_sound.
  unfold remaining. autorewrite with bridge. simpl. lia.
Qed.

Lemma decode_reserve_bounded_witness :
  0 <= 2 <= zlen (wire_request 9 [value_ops.empty; value_ops.empty]) - 17 /\ true = true
  /\ remaining (mk_reader [x00; x00] true)
     = zlen (wire_request 9 [value_ops.empty; value_ops.empty]) - 17.
Proof.
  apply (decode_reserve_bounded (wire_request 9 [value_ops.empty; value_ops.empty]) 9 2
           (mk_reader [x00; x00] true)).
  by vm_compute.
Defined.

Lemma foldl_raise `{ErrorPolicy} {A} (f : A -> value -> outcome A) e l :
  foldl (fun acc v => acc ≫= fun a => f a v) (DYNABRIDGE_RAISE e) l = DYNABRIDGE_RAISE e.
Proof. unfold DYNABRIDGE_RAISE. destruct has_exceptions; induction l; done. Qed.

Lemma foldl_stuck {A} (f : A -> value -> outcome A) o l :
  is_ok o = false -> foldl (fun acc v => acc ≫= fun a => f a v) o l = o.
Proof. destruct o; [done|..]; intros _; induction l; done. Qed.

Lemma encode_values_encode `{ErrorPolicy} m values :
  encode_request_values m values =
    if zlen values <=? u32_max then Some (encode_request m values) else None.
Proof.
  unfold encode_request_values, encode_request.
  destruct (Z.leb_spec (zlen values) u32_max); [|done].
  destruct (Z.ltb_spec u32_max (zlen values)); [lia|]. f_equal.
  assert (forall l acc, foldl (fun acc v => acc ≫= fun size => encoded_size v ≫= checked_add size)
            (Ok acc) l = frame_size_loop acc l) as Hsize.
  { induction l as [|v l IH]; intros acc; simpl; [done|].
    destruct (encoded_size v); simpl; [|by rewrite foldl_stuck..].
    destruct (checked_add acc a); simpl; [by rewrite IH|by rewrite foldl_stuck..]. }
  assert (forall l w, foldl (fun acc v => acc ≫= encode_value v) (Ok w) l
            = encode_values l w) as Hvals.
  { induction l as [|v l IH]; intros w; simpl; [done|].
    destruct (encode_value v w); simpl; [by rewrite IH|..];
      by rewrite (foldl_stuck (fun w v => encode_value v w)). }
  rewrite Hsize. destruct (frame_size_loop 17 values); [simpl|done..]. by rewrite Hvals.
Qed.

(** The variadic request encoder compiles exactly when the argument pack fits
    32 bits, and then computes what the vector encoder computes. *)
Theorem encode_request_values_equiv `{ErrorPolicy} m values :
  encode_request_values m values =
    if zlen values <=? u32_max then Some (encode_request m values) else None.
Proof. apply encode_values_encode. Qed.

(** ** Properties of the response codec *)

Lemma encode_response_Ok `{ErrorPolicy} v frame :
  encode_response v = Ok frame -> wire_fits v = true /\ frame = wire_response v.
Proof.
  unfold encode_response. rewrite encoded_size_spec.
  destruct (wire_fits v) eqn:Hfit; simpl; [|intros He; by apply outcome_bind_Ok in He as (? & ?%raise_not_Ok & _)].
  pose proof (wire_value_fits_bound v Hfit).
  rewrite checked_add_Ok by (unfold size_max, u32_max in *; lia). simpl.
  rewrite encode_value_spec, Hfit. simpl. intros [= <-]. split; [done|].
  unfold writer_finish, wire_response. simpl. by rewrite <- !app_assoc.
Qed.

Lemma encode_error_Ok `{ErrorPolicy} message :
  zlen message <= u32_max -> encode_error message = Ok (wire_error message).
Proof.
  intros Hlen. unfold encode_error. destruct (Z.ltb_spec u32_max (zlen message)); [lia|].
  rewrite checked_add_Ok by (unfold size_max, u32_max in *; lia). simpl.
  rewrite writer_raw_spec. destruct (Z.leb_spec (zlen message) u32_max); [|lia]. simpl.
  unfold writer_finish, wire_error. simpl. by rewrite <- !app_assoc.
Qed.

Lemma decode_wire_response v v0 e0 :
  value_ok v -> wire_fits v = true ->
  try_decode_response (wire_response v) v0 e0 = (response_status.ok, canonical v, e0).
Proof.
  intros Hok Hfit. unfold try_decode_response, wire_response, new_reader.
  rewrite (reads_write_le 4) by done. simpl.
  rewrite (reads_write_le 1) by done. simpl.
  rewrite (reads_write_le 1) by done. simpl.
  rewrite <- (app_nil_r (wire_value v)). by rewrite (reads_value v Hok Hfit).
Qed.

Lemma decode_wire_error message v0 e0 :
  zlen message <= u32_max ->
  try_decode_response (wire_error message) v0 e0 = (response_status.remote_error, v0, message).
Proof.
  intros Hlen. unfold try_decode_response, wire_error, new_reader.
  rewrite (reads_write_le 4) by done. simpl.
  rewrite (reads_write_le 1) by done. simpl.
  rewrite (reads_write_le 1) by done. simpl.
  pose proof (reads_raw message Hlen []) as Hr. rewrite app_nil_r in Hr. by rewrite Hr.
Qed.

(** A response frame decodes to the value that was sent, an error frame raises
    a remote error carrying the sender's message, and neither can be mistaken for
    the other or for a request. *)
Theorem response_roundtrip `{ErrorPolicy} v message frame error_frame v0 e0 :
  value_ok v -> encode_response v = Ok frame -> encode_error message = Ok error_frame ->
  (exists v', try_decode_response frame v0 e0 = (response_status.ok, v', e0) /\ v' ≡ v
              /\ decode_response frame = Ok v') /\
  try_decode_response error_frame v0 e0 = (response_status.remote_error, v0, message) /\
  decode_response error_frame = DYNABRIDGE_RAISE (remote_error message) /\
  (forall r0, (try_decode_request frame r0).1 = false) /\
  (forall r0, (try_decode_request error_frame r0).1 = false).
Proof.
  intros Hok (Hfit & ->)%encode_response_Ok Herr.
  assert (zlen message <= u32_max /\ error_frame = wire_error message) as [Hm ->].
  { destruct (Z.leb_spec (zlen message) u32_max).
    - by rewrite encode_error_Ok in Herr; simplify_eq.
    - unfold encode_error in Herr. destruct (Z.ltb_spec u32_max (zlen message)); [|lia].
      by apply raise_not_Ok in Herr. }
  unfold decode_response. rewrite !decode_wire_response, !decode_wire_error by done.
  split_and!; try done.
  - exists (canonical v). split_and!; try done. by apply canonical_equiv.
  - intros r0. unfold try_decode_request, decode_request_header, wire_response, new_reader.
    by rewrite (reads_write_le 4).
  - intros r0. unfold try_decode_request, decode_request_header, wire_error, new_reader.
    by rewrite (reads_write_le 4).
Qed.

Lemma response_roundtrip_witness :
  let policy := {| has_exceptions := true |} in
  let v := value_ops.borrowed_string (lit "ok") in
  let e := wire_error (lit "boom") in
  (exists v', try_decode_response (wire_response v) value_ops.empty []
       = (response_status.ok, v', []) /\ v' ≡ v /\ decode_response (wire_response v) = Ok v') /\
  try_decode_response e value_ops.empty [] = (response_status.remote_error, value_ops.empty, lit "boom") /\
  decode_response e = DYNABRIDGE_RAISE (remote_error (lit "boom")) /\
  (forall r0, (try_decode_request (wire_response v) r0).1 = false) /\
  (forall r0, (try_decode_request e r0).1 = false).
Proof.
  intros policy v e. apply (response_roundtrip v (lit "boom")).
  - done.
  - by vm_compute.
  - by vm_compute.
Defined.

(** ** Symbol identifiers *)

Lemma symbol_id_loop_range name : forall hash,
  0 <= hash < u64_modulus -> 0 <= symbol_id_loop hash name < u64_modulus.
Proof.
  induction name as [|b name IH]; intros hash Hh; simpl; [done|].
  destruct (bval b =? 0); [done|]. apply IH, Z.mod_pos_bound. done.
Qed.

Lemma symbol_id_range name : 0 <= symbol_id name < u64_modulus.
Proof. by apply symbol_id_loop_range. Qed.

(** Published FNV-1a test vectors. *)
Example symbol_id_empty : symbol_id [] = 0xcbf29ce484222325.
Proof. by vm_compute. Qed.
Example symbol_id_foobar : symbol_id (lit "foobar") = 0x85944171f73967e8.
Proof. by vm_compute. Qed.
