(* ===== verification/Converters.v ===== *)
(** * Converters: the value channel of the RPC backend

    traits.h ([to_cast], [from_probe], [from_optional], [from_cast]) and the
    [rpc_backend::converter<T>] specialisations of rpc.h. A converter is a record
    of the operations a specialisation declares; [ConverterLaws] is what the export
    and import paths rely on, and each specialisation is an instance of it. *)

From Stdlib Require Import ZArith Lia Strings.Byte.
From stdpp Require Import base list.
From S2P Require Import Prelude Bytes RpcValue.

(** [from] is the overload on a const value; [from_mut] the one an lvalue or an
    rvalue of a mutable value selects, with the value it leaves behind. *)
Record converter (T : Type) := mk_converter {
  probe : value -> bool;
  to : T -> value;
  from : value -> option T;
  from_mut : value -> option T * value
}.
Arguments mk_converter {T}.
Arguments probe {T}.
Arguments to {T}.
Arguments from {T}.
Arguments from_mut {T}.

(** A specialisation without a mutable overload: its const overload is called. *)
Definition const_only {T} (probe : value -> bool) (to : T -> value) (from : value -> option T)
  : converter T := mk_converter probe to from (fun v => (from v, v)).

Definition converter_int : converter Z := const_only
  (fun v => bool_decide (value_ops.kind v = value_kind.signed_integer)
            && (int_min <=? value_ops.as_signed v) && (value_ops.as_signed v <=? int_max))
  value_ops.signed_integer
  (fun v => if negb (bool_decide (value_ops.kind v = value_kind.signed_integer))
               || (value_ops.as_signed v <? int_min) || (int_max <? value_ops.as_signed v)
            then None else Some (value_ops.as_signed v)).

Definition converter_unsigned : converter Z := const_only
  (fun v => bool_decide (value_ops.kind v = value_kind.unsigned_integer)
            && (value_ops.as_unsigned v <=? unsigned_max))
  value_ops.unsigned_integer
  (fun v => if negb (bool_decide (value_ops.kind v = value_kind.unsigned_integer))
               || (unsigned_max <? value_ops.as_unsigned v)
            then None else Some (value_ops.as_unsigned v)).

Definition converter_double : converter Z := const_only
  (fun v => bool_decide (value_ops.kind v = value_kind.real))
  value_ops.real
  (fun v => if negb (bool_decide (value_ops.kind v = value_kind.real))
            then None else Some (value_ops.as_real v)).

Definition converter_bool : converter bool := const_only
  (fun v => bool_decide (value_ops.kind v = value_kind.boolean))
  value_ops.boolean
  (fun v => if negb (bool_decide (value_ops.kind v = value_kind.boolean))
            then None else Some (value_ops.as_boolean v)).

(** [to] is the lvalue overload, which borrows; the rvalue overload owns. *)
Definition converter_string (moved_from : text -> text) : converter text := mk_converter
  (fun v => bool_decide (value_ops.kind v = value_kind.string))
  value_ops.borrowed_string
  (fun v => if negb (bool_decide (value_ops.kind v = value_kind.string))
            then None else Some (value_ops.copy_string v))
  (fun v => if negb (bool_decide (value_ops.kind v = value_kind.string))
            then (None, v)
            else let '(s, v') := take_string moved_from v in (Some s, v')).

Definition converter_string_to_rvalue : text -> value := value_ops.string.

(** ** traits.h: the casts over a converter *)

Definition to_cast {T} (c : converter T) (t : T) : value := to c t.
Definition from_probe {T} (c : converter T) (v : value) : bool := probe c v.
Definition from_optional {T} (c : converter T) (v : value) : option T := from c v.

Definition from_cast `{ErrorPolicy} {T} (c : converter T) (v : value) : outcome T :=
  match from_optional c v with
  | None => DYNABRIDGE_RAISE (bad_conversion
      (lit "dynabridge value is not convertible to the requested C++ type"))
  | Some t => Ok t
  end.

(** ** The interface the call paths rely on

    [dom] is the range of the C++ type [T] inside the type that models it. *)
Class ConverterLaws {T} (c : converter T) (dom : T -> Prop) : Prop := {
  probe_from v : probe c v = true <-> is_Some (from c v);
  from_mut_from v : (from_mut c v).1 = from c v;
  from_mut_reject v : from c v = None -> (from_mut c v).2 = v;
  from_dom v t : value_ok v -> from c v = Some t -> dom t;
  from_to t : dom t -> from c (to c t) = Some t;
  to_from v t : value_ok v -> from c v = Some t -> to c t ≡ v;
  to_ok t : dom t -> value_ok (to c t);
  from_proper : Proper ((≡) ==> (=)) (from c)
}.
#[export] Existing Instance from_proper.

Definition int_dom (z : Z) : Prop := int_min <= z <= int_max.
Definition unsigned_dom (z : Z) : Prop := 0 <= z <= unsigned_max.
Definition double_dom (pattern : Z) : Prop := 0 <= pattern < u64_modulus.
Definition any_dom {T} (_ : T) : Prop := True.

Section Laws.
Context {T} (c : converter T) (dom : T -> Prop) `{!ConverterLaws c dom}.

#[export] Instance probe_proper : Proper ((≡) ==> (=)) (probe c).
Proof.
  intros v w Hvw. apply eq_true_iff_eq. by rewrite !probe_from, Hvw.
Qed.

(** A value conversion survives any value a peer cannot distinguish. *)
Lemma from_equiv_to t v : dom t -> v ≡ to c t -> from c v = Some t.
Proof. intros Hd Hv. rewrite Hv. by apply from_to. Qed.

Lemma probe_to t : dom t -> probe c (to c t) = true.
Proof. intros Hd. apply probe_from. rewrite from_to by done. by eexists. Qed.

Lemma from_cast_to `{ErrorPolicy} t v :
  dom t -> v ≡ to c t -> from_cast c v = Ok t.
Proof. intros Hd Hv. unfold from_cast, from_optional. by rewrite (from_equiv_to t v). Qed.
End Laws.

(** ** The instances *)

Lemma as_signed_signed z : int_dom z -> value_ops.as_signed (value_ops.signed_integer z) = z.
Proof.
  intros Hz. apply to_signed64_to_bits64. unfold int_dom, int_min, int_max in Hz. lia.
Qed.

Lemma signed_equiv v z :
  value_ok v -> kind_ v = value_kind.signed_integer -> value_ops.as_signed v = z ->
  value_ops.signed_integer z ≡ v.
Proof.
  intros Hok Hk <-. split; [done|]. simpl. by apply to_bits64_to_signed64.
Qed.

(** Case analysis on the kind test and the range tests of a converter. *)
Ltac converter_cases :=
  repeat match goal with
  | |- context [bool_decide ?P] => case_bool_decide; simpl
  | H : context [bool_decide ?P] |- _ => case_bool_decide; simpl in H
  | |- context [?a <? ?b] => destruct (Z.ltb_spec a b); simpl
  | H : context [?a <? ?b] |- _ => destruct (Z.ltb_spec a b); simpl in H
  | |- context [?a <=? ?b] => destruct (Z.leb_spec a b); simpl
  end; simplify_eq.

#[export] Instance converter_int_laws : ConverterLaws converter_int int_dom.
Proof.
  split; simpl; unfold value_ops.kind.
  - intros v. rewrite is_Some_alt. converter_cases; try lia; done.
  - done.
  - done.
  - intros v t _. unfold int_dom. converter_cases; intros; simplify_eq; lia.
  - intros t Ht. rewrite as_signed_signed by done. unfold int_dom in Ht. converter_cases; lia || done.
  - intros v t Hok. converter_cases; intros; simplify_eq. by apply signed_equiv.
  - intros t _. apply value_ok_signed.
  - intros v w [Hk Hv]. unfold value_ops.as_signed. rewrite <- Hk.
    destruct (kind_ v); try rewrite Hv; done.
Qed.

#[export] Instance converter_unsigned_laws : ConverterLaws converter_unsigned unsigned_dom.
Proof.
  split; simpl; unfold value_ops.kind, value_ops.as_unsigned.
  - intros v. rewrite is_Some_alt. converter_cases; try lia; done.
  - done.
  - done.
  - intros v t [Hlo _]. unfold unsigned_dom. converter_cases; intros; simplify_eq; lia.
  - intros t [? ?]. simpl. converter_cases; lia || done.
  - intros v t Hok. converter_cases; intros; simplify_eq. by split.
  - intros t [? ?]. unfold value_ok, u64_modulus, unsigned_max in *. simpl. lia.
  - intros v w [Hk Hv]. rewrite <- Hk. destruct (kind_ v); try rewrite Hv; done.
Qed.

#[export] Instance converter_double_laws : ConverterLaws converter_double double_dom.
Proof.
  split; simpl; unfold value_ops.kind, value_ops.as_real.
  - intros v. rewrite is_Some_alt. converter_cases; done.
  - done.
  - done.
  - intros v t Hok. converter_cases; intros; by simplify_eq.
  - done.
  - intros v t Hok. converter_cases; intros; simplify_eq. by split.
  - done.
  - intros v w [Hk Hv]. rewrite <- Hk. destruct (kind_ v); try rewrite Hv; done.
Qed.

#[export] Instance converter_bool_laws : ConverterLaws converter_bool any_dom.
Proof.
  split; simpl; unfold value_ops.kind.
  - intros v. rewrite is_Some_alt. converter_cases; done.
  - done.
  - done.
  - done.
  - by intros [].
  - intros v t Hok. converter_cases; intros; simplify_eq. split; [done|].
    simpl. by destruct (value_ops.as_boolean v).
  - intros t _. apply value_ok_boolean.
  - intros v w [Hk Hv]. rewrite <- Hk. destruct (kind_ v); try rewrite Hv; done.
Qed.

#[export] Instance converter_string_laws m : ConverterLaws (converter_string m) any_dom.
Proof.
  split; simpl; unfold value_ops.kind.
  - intros v. rewrite is_Some_alt. converter_cases; done.
  - intros v. converter_cases; [|done].
    pose proof (take_string_fst m v) as Hs. destruct (take_string m v). simpl in *.
    by rewrite Hs, copy_string_data.
  - intros v. by converter_cases.
  - done.
  - intros t _. by rewrite copy_string_data.
  - intros v t Hok. rewrite copy_string_data. converter_cases; intros; simplify_eq. by split.
  - intros t _. apply value_ok_borrowed.
  - intros v w [Hk Hv]. rewrite !copy_string_data, <- Hk.
    destruct (kind_ v); try rewrite Hv; done.
Qed.

(** ** Properties *)

(** Every scalar converter of the RPC backend accepts, on probe, exactly what
    it converts; converting what it produced gives the value back, including
    through any value a peer cannot tell from it; what it accepts is in the range
    of the C++ type and is a representation of the result; and a rejecting
    conversion leaves a mutable input untouched. *)
Theorem rpc_converters_lawful m :
  ConverterLaws converter_int int_dom /\ ConverterLaws converter_unsigned unsigned_dom /\
  ConverterLaws converter_double double_dom /\ ConverterLaws converter_bool any_dom /\
  ConverterLaws (converter_string m) any_dom.
Proof. split_and!; apply _. Qed.

(** A value converts to at most one of the five scalar types, so overloads
    that differ in a scalar parameter type never compete for the same value. *)
Theorem converters_disjoint m v :
  zlen (filter (fun b => b = true)
    [probe converter_int v; probe converter_unsigned v; probe converter_double v;
     probe converter_bool v; probe (converter_string m) v]) <= 1.
Proof.
  unfold zlen. rewrite !filter_cons, filter_nil. simpl. unfold value_ops.kind.
  destruct (kind_ v) eqn:Hk; simpl; repeat (case_decide; simpl); done || lia.
Qed.

(** The range tests of the integer converters: a 64-bit value outside the
    range of the C++ type is a mismatch, never a truncation. *)
Theorem integer_converters_never_truncate z :
  - 2 ^ 63 <= z < 2 ^ 63 ->
  from converter_int (value_ops.signed_integer z)
    = (if (int_min <=? z) && (z <=? int_max) then Some z else None) /\
  from converter_unsigned (value_ops.unsigned_integer (to_bits64 z))
    = (if (0 <=? z) && (z <=? unsigned_max) then Some z else None).
Proof.
  intros Hz. simpl. unfold value_ops.as_signed, value_ops.as_unsigned. simpl.
  rewrite to_signed64_to_bits64 by done. split.
  - destruct (Z.leb_spec int_min z), (Z.leb_spec z int_max); converter_cases; lia || done.
  - destruct (Z.leb_spec 0 z) as [Hpos|Hneg].
    + unfold to_bits64, u64_modulus. rewrite Z.mod_small by lia.
      destruct (Z.leb_spec z unsigned_max); converter_cases; lia || done.
    + assert (to_bits64 z = z + u64_modulus) as ->.
      { unfold to_bits64. rewrite <- (Z.mod_add z 1) by done.
        apply Z.mod_small. unfold u64_modulus. lia. }
      unfold unsigned_max, u64_modulus in *. converter_cases; lia || done.
Qed.

Lemma integer_converters_never_truncate_witness :
  from converter_int (value_ops.signed_integer (2 ^ 31)) = None /\
  from converter_unsigned (value_ops.unsigned_integer (to_bits64 (2 ^ 31))) = Some (2 ^ 31).
Proof. apply (integer_converters_never_truncate (2 ^ 31)). by vm_compute. Defined.
