(* ===== verification/Optional.v ===== *)
(** * optional.h: the optional value every conversion returns

    The storage (a union with a discriminator), the four layers that decide which
    special member functions exist and which are user-provided, and the members of
    [optional]. Objects live in a store, so that self-assignment and arguments that
    alias the stored value are visible; the operations of the element type are
    parameters that may throw. The abstract specification is a store of plain
    [option]s. *)

From Stdlib Require Import ZArith Lia.
From stdpp Require Import base list gmap.
From S2P Require Import Prelude.

(** ** Which special members [optional<T>] has *)

(** The standard type traits of [T] the layers test. *)
Record type_traits := mk_type_traits {
  is_trivially_destructible : bool;
  is_copy_constructible : bool;
  is_trivially_copy_constructible : bool;
  is_move_constructible : bool;
  is_trivially_move_constructible : bool;
  is_copy_assignable : bool;
  is_trivially_copy_assignable : bool;
  is_move_assignable : bool;
  is_trivially_move_assignable : bool
}.

(** A trivial member is a member. *)
Definition traits_consistent (t : type_traits) : bool :=
  implb (is_trivially_copy_constructible t) (is_copy_constructible t)
  && implb (is_trivially_move_constructible t) (is_move_constructible t)
  && implb (is_trivially_copy_assignable t) (is_copy_assignable t)
  && implb (is_trivially_move_assignable t) (is_move_assignable t).

(** What the specialisation a layer selects does with its member: [= default], a
    user-provided body, [= delete]; [Incomplete] when only the undefined primary
    template matches. *)
Inductive special := Defaulted | UserProvided | Deleted | Incomplete.

(** The specialisations <true, Trivial>, <true, false> and <false, false> of a
    layer, the second more specialised than the first. *)
Definition select (available trivial : bool) : special :=
  match available, trivial with
  | true, true => Defaulted
  | true, false => UserProvided
  | false, false => Deleted
  | false, true => Incomplete
  end.

Definition optional_copy_construct_base (t : type_traits) : special :=
  select (is_copy_constructible t)
    (is_trivially_copy_constructible t && is_trivially_destructible t).

Definition optional_move_construct_base (t : type_traits) : special :=
  select (is_move_constructible t)
    (is_trivially_move_constructible t && is_trivially_copy_constructible t
     && is_trivially_destructible t).

Definition optional_copy_assign_base (t : type_traits) : special :=
  select (is_copy_constructible t && is_copy_assignable t)
    (is_trivially_copy_constructible t && is_trivially_copy_assignable t
     && is_trivially_destructible t).

Definition optional_move_assign_base (t : type_traits) : special :=
  select (is_move_constructible t && is_move_assignable t)
    (is_trivially_move_constructible t && is_trivially_move_assignable t
     && is_trivially_destructible t).

(** What overload resolution finally runs for a member of [optional<T>]: a copy of
    the bytes, the user-provided body that copies or moves, or nothing. *)
Inductive member := Bitwise | Copying | Moving | IllFormed.

(** The union's implicit members: it declares a destructor, so it has no implicit
    move members and both kinds of source select the copy member, which is deleted
    unless [T]'s is trivial. *)
Definition payload_construct (t : type_traits) : member :=
  if is_trivially_copy_constructible t then Bitwise else IllFormed.
Definition payload_assign (t : type_traits) : member :=
  if is_trivially_copy_assignable t then Bitwise else IllFormed.

Definition copy_constructor (t : type_traits) : member :=
  match optional_copy_construct_base t with
  | Defaulted => payload_construct t
  | UserProvided => Copying
  | Deleted | Incomplete => IllFormed
  end.

(** A defaulted move member that is defined as deleted takes no part in overload
    resolution: the copy member of the same layer is found instead. *)
Definition or_else (m fallback : member) : member :=
  match m with IllFormed => fallback | _ => m end.

Definition move_constructor (t : type_traits) : member :=
  match optional_move_construct_base t with
  | Defaulted => or_else (payload_construct t) (copy_constructor t)
  | UserProvided => Moving
  | Deleted => copy_constructor t
  | Incomplete => IllFormed
  end.

Definition copy_assignment (t : type_traits) : member :=
  match optional_copy_assign_base t with
  | Defaulted => payload_assign t
  | UserProvided => Copying
  | Deleted | Incomplete => IllFormed
  end.

Definition move_assignment (t : type_traits) : member :=
  match optional_move_assign_base t with
  | Defaulted => or_else (payload_assign t) (copy_assignment t)
  | UserProvided => Moving
  | Deleted => copy_assignment t
  | Incomplete => IllFormed
  end.

(** ** The element type

    [T]'s own members: code of the user. A copy may throw; a move may throw and
    leaves a value in its source; an assignment leaves a value in its target in
    either case. *)
Class Element (T : Type) := {
  traits : type_traits;
  copy : T -> outcome T;
  move : T -> outcome T * T;
  assign_copy : T -> T -> outcome unit * T;
  assign_move : T -> T -> outcome unit * T * T
}.

(** ** Storage *)

(** [cell] is the live [T] of the union, if any. *)
Record optional_storage_base (T : Type) := mk_storage { cell : option T; has_value_ : bool }.
Arguments mk_storage {T}.
Arguments cell {T}.
Arguments has_value_ {T}.

Section Operations.
Context {T : Type} `{Element T}.
Local Abbreviation storage := (optional_storage_base T).
Local Abbreviation store := (gmap nat storage).

(** Access to an object that does not exist is undefined. *)
Definition object (id : nat) : eff store storage := fun s =>
  match s !! id with Some o => (Ok o, s) | None => (Undefined, s) end.

Definition has_value (id : nat) : eff store bool :=
  o ← object id; mret (has_value_ o).

(** [get] binds a reference; it is read by what uses it, and only a live [T] can be. *)
Definition get (id : nat) : eff store T :=
  o ← object id;
  match cell o with Some x => mret x | None => undefined_behaviour end.

(** Writing through the reference [get] returns. *)
Definition set_value (id : nat) (x : T) : eff store unit :=
  o ← object id; modify <[id := mk_storage (Some x) (has_value_ o)]>.

(** Placement new over a live [T] that needs its destructor breaks its lifetime. *)
Definition place (id : nat) (x : T) : eff store unit :=
  o ← object id;
  match cell o with
  | Some _ => if is_trivially_destructible traits
              then modify <[id := mk_storage (Some x) true]> else undefined_behaviour
  | None => modify <[id := mk_storage (Some x) true]>
  end.

(** [args] computes the new [T] from the forwarded arguments. *)
Definition construct (id : nat) (args : eff store T) : eff store unit :=
  x ← args; place id x.

(** [reset] of the two specialisations of the storage. *)
Definition reset (id : nat) : eff store unit :=
  if is_trivially_destructible traits then
    o ← object id; modify <[id := mk_storage (cell o) false]>
  else
    o ← object id;
    if has_value_ o then
      match cell o with
      | Some _ => modify <[id := mk_storage None false]>
      | None => undefined_behaviour
      end
    else mret tt.

Definition destroy (id : nat) : eff store unit :=
  (if is_trivially_destructible traits then object id ≫= fun _ => mret tt else reset id) ≫= fun _ =>
  modify (delete id).

(** A constructor body that throws: the base subobject, already constructed, is
    destroyed before the exception leaves. *)
Definition construct_object (id : nat) (body : eff store unit) : eff store unit := fun s =>
  match body (<[id := mk_storage None false]> s) with
  | (Throw e, s') =>
      match destroy id s' with
      | (Ok _, s'') => (Throw e, s'')
      | r => r
      end
  | r => r
  end.

(** The references the bodies pass on: an lvalue is copied, an rvalue moved from. *)
Definition copy_from (other : nat) : eff store T := x ← get other; lift (copy x).
Definition move_from (other : nat) : eff store T :=
  x ← get other;
  set_value other (move x).2 ≫= fun _ => lift (move x).1.

(** ** Members of [optional] *)

Definition default_construct (id : nat) : eff store unit :=
  modify <[id := mk_storage None false]>.

(** [optional(in_place, args...)]: the payload is built from [args] directly; when
    that throws no storage object was constructed. *)
Definition in_place_construct (id : nat) (args : eff store T) : eff store unit :=
  x ← args; modify <[id := mk_storage (Some x) true]>.
Definition value_construct_copy (id : nat) (value : T) : eff store unit :=
  in_place_construct id (lift (copy value)).
Definition value_construct_move (id : nat) (value : T) : eff store unit :=
  in_place_construct id (lift (move value).1).

Definition copy_construct_body (id other : nat) : eff store unit :=
  b ← has_value other;
  if (b : bool) then construct id (copy_from other) else mret tt.
Definition move_construct_body (id other : nat) : eff store unit :=
  b ← has_value other;
  if (b : bool) then construct id (move_from other) else mret tt.

Definition copy_assign_body (id other : nat) : eff store unit :=
  if decide (id = other) then mret tt else
  b ← has_value id; c ← has_value other;
  if (b && c : bool) then
    x ← get id; y ← get other;
    set_value id (assign_copy x y).2 ≫= fun _ => lift (assign_copy x y).1
  else if (c : bool) then construct id (copy_from other)
  else reset id.
Definition move_assign_body (id other : nat) : eff store unit :=
  if decide (id = other) then mret tt else
  b ← has_value id; c ← has_value other;
  if (b && c : bool) then
    x ← get id; y ← get other;
    set_value id (assign_move x y).1.2 ≫= fun _ =>
    set_value other (assign_move x y).2 ≫= fun _ => lift (assign_move x y).1.1
  else if (c : bool) then construct id (move_from other)
  else reset id.

Definition bitwise (id other : nat) : eff store unit :=
  o ← object other; modify <[id := o]>.

(** [None] when the program does not compile. *)
Definition construct_from (m : member) (id other : nat) : option (eff store unit) :=
  match m with
  | Bitwise => Some (bitwise id other)
  | Copying => Some (construct_object id (copy_construct_body id other))
  | Moving => Some (construct_object id (move_construct_body id other))
  | IllFormed => None
  end.
Definition assign_from (m : member) (id other : nat) : option (eff store unit) :=
  match m with
  | Bitwise => Some (bitwise id other)
  | Copying => Some (copy_assign_body id other)
  | Moving => Some (move_assign_body id other)
  | IllFormed => None
  end.

Definition emplace (id : nat) (args : eff store T) : eff store unit :=
  reset id ≫= fun _ => construct id args.

(** [operator*] and [value] read what [get] refers to. *)
Definition deref (id : nat) : eff store T := get id.
End Operations.

(** ** The abstract specification: plain options *)

Section Refinement.
Context {T : Type} `{Element T}.

Inductive optional_op :=
| DefaultConstruct (id : nat)
| InPlace (id : nat) (args : outcome T)
| ValueCopy (id : nat) (value : T)
| ValueMove (id : nat) (value : T)
| CopyConstruct (id other : nat)
| MoveConstruct (id other : nat)
| CopyAssign (id other : nat)
| MoveAssign (id other : nat)
| Emplace (id : nat) (args : outcome T)
| Reset_ (id : nat)
| Destroy (id : nat).

Definition run_op (o : optional_op) : option (eff (gmap nat (optional_storage_base T)) unit) :=
  match o with
  | DefaultConstruct id => Some (default_construct id)
  | InPlace id args => Some (in_place_construct id (lift args))
  | ValueCopy id value => Some (value_construct_copy id value)
  | ValueMove id value => Some (value_construct_move id value)
  | CopyConstruct id other => construct_from (copy_constructor traits) id other
  | MoveConstruct id other => construct_from (move_constructor traits) id other
  | CopyAssign id other => assign_from (copy_assignment traits) id other
  | MoveAssign id other => assign_from (move_assignment traits) id other
  | Emplace id args => Some (emplace id (lift args))
  | Reset_ id => Some (reset id)
  | Destroy id => Some (destroy id)
  end.

Local Abbreviation view_store := (gmap nat (option T)).

(** A new value in slot [id], which keeps [old] (or stays absent) on an exception. *)
Definition spec_new (id : nat) (old : view_store) (r : outcome T) (new : view_store)
  : outcome unit * view_store :=
  match r with
  | Ok x => (Ok tt, <[id := Some x]> new)
  | Throw e => (Throw e, old)
  | Aborted => (Aborted, old)
  | Undefined => (Undefined, old)
  end.

(** Construction and assignment from the option in slot [other]; [empty] is what the
    target becomes when the source is empty. *)
Definition spec_from (m : member) (id other : nat) (a : view_store) : outcome unit * view_store :=
  match a !! other with
  | None => (Undefined, a)
  | Some o =>
      match m, o with
      | IllFormed, _ => (Undefined, a)
      | Bitwise, _ => (Ok tt, <[id := o]> a)
      | _, None => (Ok tt, <[id := None]> a)
      | Copying, Some x => spec_new id a (copy x) a
      | Moving, Some x =>
          let a' := <[other := Some (move x).2]> a in spec_new id a' (move x).1 a'
      end
  end.

Definition spec_assign (m : member) (id other : nat) (a : view_store) : outcome unit * view_store :=
  if decide (id = other) then (Ok tt, a) else
  match m, default None (a !! id), default None (a !! other) with
  | Copying, Some x, Some y =>
      ((assign_copy x y).1, <[id := Some (assign_copy x y).2]> a)
  | Moving, Some x, Some y =>
      ((assign_move x y).1.1,
       <[other := Some (assign_move x y).2]> (<[id := Some (assign_move x y).1.2]> a))
  | _, _, _ => spec_from m id other a
  end.

Definition spec_op (o : optional_op) (a : view_store) : outcome unit * view_store :=
  match o with
  | DefaultConstruct id => (Ok tt, <[id := None]> a)
  | InPlace id args => spec_new id a args a
  | ValueCopy id value => spec_new id a (copy value) a
  | ValueMove id value => spec_new id a (move value).1 a
  | CopyConstruct id other => spec_from (copy_constructor traits) id other a
  | MoveConstruct id other => spec_from (move_constructor traits) id other a
  | CopyAssign id other => spec_assign (copy_assignment traits) id other a
  | MoveAssign id other => spec_assign (move_assignment traits) id other a
  | Emplace id args => spec_new id (<[id := None]> a) args a
  | Reset_ id => (Ok tt, <[id := None]> a)
  | Destroy id => (Ok tt, delete id a)
  end.

(** An operation is applied to objects that exist, a constructor to fresh storage,
    and the arguments of the caller are well-defined. *)
Definition op_permitted (o : optional_op) (live : nat -> bool) : Prop :=
  match o with
  | DefaultConstruct id | ValueCopy id _ | ValueMove id _ => live id = false
  | InPlace id args => live id = false /\ args ≠ Undefined
  | CopyConstruct id other | MoveConstruct id other => live id = false /\ live other = true
  | CopyAssign id other | MoveAssign id other => live id = true /\ live other = true
  | Emplace id args => live id = true /\ args ≠ Undefined
  | Reset_ id | Destroy id => live id = true
  end.

(** The invariant of a storage object: the flag says whether a [T] is alive. A [T]
    without a destructor may stay in the bytes of an empty optional. *)
Definition storage_wf (o : optional_storage_base T) : Prop :=
  if is_trivially_destructible traits then has_value_ o = true -> is_Some (cell o)
  else has_value_ o = true <-> is_Some (cell o).

Definition view (o : optional_storage_base T) : option T := if has_value_ o then cell o else None.

Definition store_wf (s : gmap nat (optional_storage_base T)) : Prop :=
  map_Forall (fun _ o => storage_wf o) s.
Definition abs (s : gmap nat (optional_storage_base T)) : view_store := view <$> s.
Definition live (s : gmap nat (optional_storage_base T)) (id : nat) : bool :=
  bool_decide (is_Some (s !! id)).

(** What a run of the implementation promises against a run of the specification. *)
Definition refines (r : outcome unit * gmap nat (optional_storage_base T))
    (a : outcome unit * view_store) : Prop :=
  match r with
  | (Ok _, s) => a = (Ok tt, abs s) /\ store_wf s
  | (Throw e, s) => a = (Throw e, abs s) /\ store_wf s
  | (Aborted, _) => a.1 = Aborted
  | (Undefined, _) => False
  end.

End Refinement.

(** What the element type's own code is assumed to keep to: it has no undefined
    behaviour of its own on live objects. *)
Class ElementLaws (T : Type) `{Element T} : Prop := {
  traits_ok : traits_consistent traits = true;
  copy_defined x : copy x ≠ Undefined;
  move_defined x : (move x).1 ≠ Undefined;
  assign_copy_defined x y : (assign_copy x y).1 ≠ Undefined;
  assign_move_defined x y : (assign_move x y).1.1 ≠ Undefined
}.

Section Proofs.
Context {T : Type} `{ElementLaws T}.
Implicit Types (s : gmap nat (optional_storage_base T)) (o : optional_storage_base T).

Lemma storage_wf_empty : storage_wf (T := T) (mk_storage None false).
Proof. unfold storage_wf. destruct is_trivially_destructible; simpl; [done|]. by split; [|intros []]. Qed.

Lemma storage_wf_full x : storage_wf (T := T) (mk_storage (Some x) true).
Proof. unfold storage_wf. destruct is_trivially_destructible; simpl; naive_solver. Qed.

Lemma store_wf_insert s id o : store_wf s -> storage_wf o -> store_wf (<[id := o]> s).
Proof. intros. by apply map_Forall_insert_2. Qed.

Lemma store_wf_delete s id : store_wf s -> store_wf (delete id s).
Proof. intros. by apply map_Forall_delete. Qed.

Lemma store_wf_lookup s i o : store_wf s -> s !! i = Some o -> storage_wf o.
Proof. intros Hwf Hi. exact (Hwf i o Hi). Qed.

Lemma abs_insert s id o : abs (<[id := o]> s) = <[id := view o]> (abs s).
Proof. apply fmap_insert. Qed.

Lemma abs_delete s id : abs (delete id s) = delete id (abs s).
Proof. apply fmap_delete. Qed.

Lemma abs_lookup s id : abs s !! id = view <$> s !! id.
Proof. apply lookup_fmap. Qed.

#[local] Hint Resolve storage_wf_empty storage_wf_full store_wf_insert store_wf_delete : core.

(** The storage object [reset] leaves behind. *)
Definition after_reset (o : optional_storage_base T) : optional_storage_base T :=
  mk_storage (if is_trivially_destructible traits then cell o else None) false.

Lemma after_reset_wf o : storage_wf (after_reset o).
Proof. unfold storage_wf, after_reset. destruct is_trivially_destructible; naive_solver. Qed.

Lemma view_full o : storage_wf o -> has_value_ o = true -> exists x, cell o = Some x /\ view o = Some x.
Proof.
  unfold storage_wf, view. intros Hwf Hv. rewrite Hv.
  destruct is_trivially_destructible; [destruct (Hwf Hv)|destruct (proj1 Hwf Hv)]; eauto.
Qed.

Lemma view_none (o : optional_storage_base T) : has_value_ o = false -> view o = None.
Proof. unfold view. by intros ->. Qed.

Lemma object_run s i o : s !! i = Some o -> object i s = (Ok o, s).
Proof. unfold object. by intros ->. Qed.

Lemma has_value_run s i o : s !! i = Some o -> has_value i s = (Ok (has_value_ o), s).
Proof. intros Hi. unfold has_value, mbind, eff_bind. by rewrite (object_run _ _ _ Hi). Qed.

Lemma get_run s i o x : s !! i = Some o -> cell o = Some x -> get i s = (Ok x, s).
Proof. intros Hi Hc. unfold get, mbind, eff_bind. by rewrite (object_run _ _ _ Hi), Hc. Qed.

Lemma set_value_run s i o x :
  s !! i = Some o -> set_value i x s = (Ok tt, <[i := mk_storage (Some x) (has_value_ o)]> s).
Proof. intros Hi. unfold set_value, mbind, eff_bind. by rewrite (object_run _ _ _ Hi). Qed.

Lemma reset_run s i o :
  s !! i = Some o -> storage_wf o -> reset i s = (Ok tt, <[i := after_reset o]> s).
Proof.
  intros Hi Hwf. unfold reset, after_reset, mbind, eff_bind, storage_wf in *.
  destruct is_trivially_destructible; rewrite (object_run _ _ _ Hi); [done|].
  destruct o as [c h]; simpl in *. destruct h, c; simpl; try done.
  - destruct (proj1 Hwf eq_refl). congruence.
  - assert (false = true) by (apply Hwf; eauto). done.
  - unfold mret, eff_ret. by rewrite insert_id.
Qed.

Lemma destroy_run s i o :
  s !! i = Some o -> storage_wf o -> destroy i s = (Ok tt, delete i s).
Proof.
  intros Hi Hwf. unfold destroy. unfold mbind at 1, eff_bind at 1.
  destruct is_trivially_destructible eqn:Ht.
  - unfold mbind, eff_bind. by rewrite (object_run _ _ _ Hi).
  - rewrite (reset_run _ _ _ Hi Hwf). unfold modify. by rewrite delete_insert_eq.
Qed.

Lemma place_run s i o x :
  s !! i = Some o -> storage_wf o -> has_value_ o = false ->
  place i x s = (Ok tt, <[i := mk_storage (Some x) true]> s).
Proof.
  intros Hi Hwf Hv. unfold place, mbind, eff_bind, storage_wf in *.
  rewrite (object_run _ _ _ Hi). destruct (cell o); [|done].
  destruct is_trivially_destructible; [done|].
  assert (has_value_ o = true) by (apply Hwf; eauto). congruence.
Qed.

(** Constructing into an empty optional: the new value, or the arguments' exception. *)
Lemma construct_run s i o (args : eff (gmap nat (optional_storage_base T)) T) s' :
  (args s).2 = s' -> s' !! i = Some o -> storage_wf o -> has_value_ o = false ->
  construct i args s =
    match (args s).1 with
    | Ok x => (Ok tt, <[i := mk_storage (Some x) true]> s')
    | Throw e => (Throw e, s') | Aborted => (Aborted, s') | Undefined => (Undefined, s')
    end.
Proof.
  intros <- Hi Hwf Hv. unfold construct. unfold mbind, eff_bind.
  destruct (args s) as [[x| | |] s1]; simpl in *; try done. by apply (place_run _ _ o).
Qed.

Lemma copy_from_run s i o x :
  s !! i = Some o -> cell o = Some x -> copy_from i s = (copy x, s).
Proof.
  intros Hi Hc. unfold copy_from, mbind, eff_bind. by rewrite (get_run _ _ _ _ Hi Hc).
Qed.

Lemma move_from_run s i o x :
  s !! i = Some o -> cell o = Some x ->
  move_from i s = ((move x).1, <[i := mk_storage (Some (move x).2) (has_value_ o)]> s).
Proof.
  intros Hi Hc. unfold move_from, mbind, eff_bind.
  by rewrite (get_run _ _ _ _ Hi Hc), (set_value_run _ _ o).
Qed.

Local Abbreviation empty := (mk_storage (T := T) None false).

Lemma abs_set s i o x :
  s !! i = Some o -> has_value_ o = true ->
  abs (<[i := mk_storage (Some x) (has_value_ o)]> s) = <[i := Some x]> (abs s).
Proof. intros _ Hv. rewrite abs_insert. by rewrite Hv. Qed.

Lemma set_wf s i o x :
  store_wf s -> has_value_ o = true -> store_wf (<[i := mk_storage (Some x) (has_value_ o)]> s).
Proof. intros ? ->. auto. Qed.

(** A new value placed in slot [i] refines [spec_new]. *)
Lemma refines_new s0 s i (r : outcome T) old :
  store_wf s -> store_wf s0 -> old = abs s0 -> r ≠ Undefined ->
  refines (match r with
           | Ok x => (Ok tt, <[i := mk_storage (Some x) true]> s)
           | Throw e => (Throw e, s0) | Aborted => (Aborted, s0) | Undefined => (Undefined, s0)
           end) (spec_new i old r (abs s)).
Proof.
  intros Hwf Hwf0 -> Hr. destruct r as [x| | |]; simpl; try done.
  split; [|auto]. by rewrite abs_insert.
Qed.

(** The constructor bodies, run on fresh storage. *)
Lemma construct_object_run s i body (r : outcome T) s' :
  store_wf s' -> s' !! i = Some empty ->
  body (<[i := empty]> s) =
    match r with
    | Ok x => (Ok tt, <[i := mk_storage (Some x) true]> s')
    | Throw e => (Throw e, s') | Aborted => (Aborted, s') | Undefined => (Undefined, s')
    end ->
  construct_object i body s =
    match r with
    | Ok x => (Ok tt, <[i := mk_storage (Some x) true]> s')
    | Throw e => (Throw e, delete i s') | Aborted => (Aborted, s') | Undefined => (Undefined, s')
    end.
Proof.
  intros Hwf Hi Hb. unfold construct_object. rewrite Hb.
  destruct r; try done. by rewrite (destroy_run _ _ _ Hi storage_wf_empty).
Qed.

Lemma construct_empty_source s i j o body :
  s !! j = Some o -> i ≠ j -> has_value_ o = false ->
  body = copy_construct_body i j \/ body = move_construct_body i j ->
  construct_object i body s = (Ok tt, <[i := empty]> s).
Proof.
  intros Hj Hij Hv Hb. unfold construct_object.
  assert (<[i := empty]> s !! j = Some o) as Hj' by by rewrite lookup_insert_ne.
  destruct Hb as [-> | ->]; unfold copy_construct_body, move_construct_body, mbind, eff_bind;
    by rewrite (has_value_run _ _ _ Hj'), Hv.
Qed.

Lemma copy_construct_refines s i j o :
  store_wf s -> s !! i = None -> s !! j = Some o ->
  refines (construct_object i (copy_construct_body i j) s) (spec_from Copying i j (abs s)).
Proof.
  intros Hwf Hi Hj. assert (i ≠ j) as Hij by congruence.
  assert (storage_wf o) as Ho by eauto using store_wf_lookup.
  unfold spec_from. rewrite abs_lookup, Hj. simpl.
  destruct (has_value_ o) eqn:Hv.
  - destruct (view_full o Ho Hv) as (x & Hc & ->).
    assert (<[i := empty]> s !! j = Some o) as Hj' by by rewrite lookup_insert_ne.
    rewrite (construct_object_run _ _ _ (copy x) (<[i := empty]> s)); try apply lookup_insert_eq; auto.
    + pose proof (copy_defined x). destruct (copy x); simpl; try done.
      * rewrite insert_insert_eq. split; [by rewrite abs_insert|auto].
      * by rewrite delete_insert_id.
    + unfold copy_construct_body. rewrite (eff_bind_run _ _ _ _ _ (has_value_run _ _ _ Hj')), Hv.
      rewrite (construct_run _ _ empty _ (<[i := empty]> s)); try apply lookup_insert_eq; auto;
        by rewrite (copy_from_run _ _ _ _ Hj' Hc).
  - rewrite (construct_empty_source _ _ _ _ _ Hj), view_none by auto. simpl.
    split; [|auto]. by rewrite abs_insert.
Qed.

Lemma move_construct_refines s i j o :
  store_wf s -> s !! i = None -> s !! j = Some o ->
  refines (construct_object i (move_construct_body i j) s) (spec_from Moving i j (abs s)).
Proof.
  intros Hwf Hi Hj. assert (i ≠ j) as Hij by congruence.
  assert (storage_wf o) as Ho by eauto using store_wf_lookup.
  unfold spec_from. rewrite abs_lookup, Hj. simpl.
  destruct (has_value_ o) eqn:Hv.
  - destruct (view_full o Ho Hv) as (x & Hc & ->).
    assert (<[i := empty]> s !! j = Some o) as Hj' by by rewrite lookup_insert_ne.
    set (src := mk_storage (Some (move x).2) true).
    rewrite (construct_object_run _ _ _ (move x).1 (<[j := src]> (<[i := empty]> s)));
      try (unfold src; auto; fail).
    + rewrite (insert_insert_ne s j i) by done.
      pose proof (move_defined x). destruct (move x).1; simpl; try done.
      * rewrite insert_insert_eq. split; [by rewrite !abs_insert|unfold src; auto].
      * rewrite delete_insert_id by by rewrite lookup_insert_ne.
        split; [by rewrite !abs_insert|unfold src; auto].
    + by rewrite lookup_insert_ne, lookup_insert_eq.
    + unfold move_construct_body. rewrite (eff_bind_run _ _ _ _ _ (has_value_run _ _ _ Hj')), Hv.
      rewrite (construct_run _ _ empty _ (<[j := src]> (<[i := empty]> s)));
        rewrite ?(move_from_run _ _ _ _ Hj' Hc), ?Hv; auto.
      by rewrite lookup_insert_ne, lookup_insert_eq.
  - rewrite (construct_empty_source _ _ _ _ _ Hj), view_none by auto. simpl.
    split; [|auto]. by rewrite abs_insert.
Qed.

Lemma bitwise_refines s i j o :
  store_wf s -> s !! j = Some o ->
  refines (bitwise i j s) (spec_from Bitwise i j (abs s)).
Proof.
  intros Hwf Hj. unfold bitwise, spec_from.
  rewrite (eff_bind_run _ _ _ _ _ (object_run _ _ _ Hj)), abs_lookup, Hj. simpl.
  split; [by rewrite abs_insert|eauto using store_wf_lookup].
Qed.

(** The branch of both assignments that constructs: the target is empty. *)
Lemma assign_construct_refines s i j oi oj x args r s' :
  store_wf s -> s !! i = Some oi -> s !! j = Some oj -> i ≠ j ->
  has_value_ oi = false -> cell oj = Some x -> has_value_ oj = true ->
  args s = (r, s') -> r ≠ Undefined -> s' = s \/ s' = <[j := mk_storage (Some (move x).2) true]> s ->
  refines (construct i args s) (spec_new i (abs s') r (abs s')).
Proof.
  intros Hwf Hi Hj Hij Hvi Hcj Hvj Hargs Hr Hs'.
  assert (store_wf s' /\ s' !! i = Some oi) as [Hwf' Hi'].
  { destruct Hs' as [-> | ->]; [done|]. split; [auto|]. by rewrite lookup_insert_ne. }
  rewrite (construct_run _ _ oi _ s'); rewrite ?Hargs; eauto using store_wf_lookup.
  by apply refines_new.
Qed.

Lemma copy_assign_refines s i j oi oj :
  store_wf s -> s !! i = Some oi -> s !! j = Some oj ->
  refines (copy_assign_body i j s) (spec_assign Copying i j (abs s)).
Proof.
  intros Hwf Hi Hj. unfold copy_assign_body, spec_assign.
  destruct (decide (i = j)) as [->|Hij]; [done|].
  rewrite (eff_bind_run _ _ _ _ _ (has_value_run _ _ _ Hi)).
  rewrite (eff_bind_run _ _ _ _ _ (has_value_run _ _ _ Hj)).
  unfold spec_from. rewrite !abs_lookup, Hi, Hj. simpl.
  assert (storage_wf oi) as Hwi by eauto using store_wf_lookup.
  assert (storage_wf oj) as Hwj by eauto using store_wf_lookup.
  destruct (has_value_ oi) eqn:Hvi, (has_value_ oj) eqn:Hvj; simpl.
  - destruct (view_full oi Hwi Hvi) as (x & Hx & ->), (view_full oj Hwj Hvj) as (y & Hy & ->).
    rewrite (eff_bind_run _ _ _ _ _ (get_run _ _ _ _ Hi Hx)).
    rewrite (eff_bind_run _ _ _ _ _ (get_run _ _ _ _ Hj Hy)).
    rewrite (eff_bind_run _ _ _ _ _ (set_value_run _ _ _ _ Hi)), Hvi.
    unfold lift. pose proof (assign_copy_defined x y).
    destruct (assign_copy x y) as [[[]| | |] z]; simpl in *; try done;
      (split; [by rewrite abs_insert|auto]).
  - rewrite (reset_run _ _ _ Hi Hwi), (view_none oj Hvj). simpl.
    destruct (view oi); (split; [by rewrite abs_insert|auto using after_reset_wf]).
  - destruct (view_full oj Hwj Hvj) as (y & Hy & ->). rewrite (view_none oi Hvi). simpl.
    eapply (assign_construct_refines s); eauto using copy_from_run, copy_defined.
  - rewrite (reset_run _ _ _ Hi Hwi), (view_none oj Hvj), (view_none oi Hvi). simpl.
    split; [by rewrite abs_insert|auto using after_reset_wf].
Qed.

Lemma move_assign_refines s i j oi oj :
  store_wf s -> s !! i = Some oi -> s !! j = Some oj ->
  refines (move_assign_body i j s) (spec_assign Moving i j (abs s)).
Proof.
  intros Hwf Hi Hj. unfold move_assign_body, spec_assign.
  destruct (decide (i = j)) as [->|Hij]; [done|].
  rewrite (eff_bind_run _ _ _ _ _ (has_value_run _ _ _ Hi)).
  rewrite (eff_bind_run _ _ _ _ _ (has_value_run _ _ _ Hj)).
  unfold spec_from. rewrite !abs_lookup, Hi, Hj. simpl.
  assert (storage_wf oi) as Hwi by eauto using store_wf_lookup.
  assert (storage_wf oj) as Hwj by eauto using store_wf_lookup.
  destruct (has_value_ oi) eqn:Hvi, (has_value_ oj) eqn:Hvj; simpl.
  - destruct (view_full oi Hwi Hvi) as (x & Hx & ->), (view_full oj Hwj Hvj) as (y & Hy & ->).
    rewrite (eff_bind_run _ _ _ _ _ (get_run _ _ _ _ Hi Hx)).
    rewrite (eff_bind_run _ _ _ _ _ (get_run _ _ _ _ Hj Hy)).
    rewrite (eff_bind_run _ _ _ _ _ (set_value_run _ _ _ _ Hi)), Hvi.
    assert (<[i := mk_storage (Some (assign_move x y).1.2) true]> s !! j = Some oj) as Hj'
      by by rewrite lookup_insert_ne.
    rewrite (eff_bind_run _ _ _ _ _ (set_value_run _ _ _ _ Hj')), Hvj.
    unfold lift. pose proof (assign_move_defined x y).
    destruct (assign_move x y) as [[[[]| | |] z] w]; simpl in *; try done;
      (split; [by rewrite !abs_insert|auto]).
  - rewrite (reset_run _ _ _ Hi Hwi), (view_none oj Hvj). simpl.
    destruct (view oi); (split; [by rewrite abs_insert|auto using after_reset_wf]).
  - destruct (view_full oj Hwj Hvj) as (y & Hy & ->). rewrite (view_none oi Hvi). simpl.
    replace (<[j := Some (move y).2]> (abs s))
      with (abs (<[j := mk_storage (Some (move y).2) true]> s)) by by rewrite abs_insert.
    eapply (assign_construct_refines s); eauto using move_defined.
    by rewrite (move_from_run _ _ _ _ Hj Hy), Hvj.
  - rewrite (reset_run _ _ _ Hi Hwi), (view_none oj Hvj), (view_none oi Hvi). simpl.
    split; [by rewrite abs_insert|auto using after_reset_wf].
Qed.

Lemma live_true s i : live s i = true -> exists o, s !! i = Some o.
Proof. unfold live. by intros ?%bool_decide_eq_true. Qed.

Lemma live_false s i : live s i = false -> s !! i = None.
Proof. unfold live. intros Hn%bool_decide_eq_false. by apply eq_None_not_Some. Qed.

(** With consistent traits no constructor resolves to a member it cannot run. *)
Lemma construct_from_refines (m : member) s i j (c : eff (gmap nat (optional_storage_base T)) unit) :
  construct_from m i j = Some c -> store_wf s -> live s i = false -> live s j = true ->
  refines (c s) (spec_from m i j (abs s)).
Proof.
  intros Hc Hwf Hi%live_false [o Hj]%live_true. destruct m; simplify_eq/=.
  - by eapply bitwise_refines. - by eapply copy_construct_refines. - by eapply move_construct_refines.
Qed.

Lemma assign_from_refines (m : member) s i j (c : eff (gmap nat (optional_storage_base T)) unit) :
  assign_from m i j = Some c -> store_wf s -> live s i = true -> live s j = true ->
  refines (c s) (spec_assign m i j (abs s)).
Proof.
  intros Hc Hwf [oi Hi]%live_true [o Hj]%live_true. destruct m; simplify_eq/=.
  - unfold spec_assign. destruct (decide (i = j)) as [->|]; [|by eapply bitwise_refines].
    unfold bitwise. rewrite (eff_bind_run _ _ _ _ _ (object_run _ _ _ Hj)).
    unfold modify. by rewrite insert_id.
  - by eapply copy_assign_refines.
  - by eapply move_assign_refines.
Qed.

Lemma in_place_refines s i (r : outcome T) :
  store_wf s -> r ≠ Undefined ->
  refines (in_place_construct i (lift r) s) (spec_new i (abs s) r (abs s)).
Proof.
  intros Hwf Hr. unfold in_place_construct, mbind, eff_bind, lift.
  destruct r as [x| | |]; simpl; try done. split; [by rewrite abs_insert|auto].
Qed.

Lemma emplace_refines s i o (r : outcome T) :
  store_wf s -> s !! i = Some o -> r ≠ Undefined ->
  refines (emplace i (lift r) s) (spec_new i (<[i := None]> (abs s)) r (abs s)).
Proof.
  intros Hwf Hi Hr. unfold emplace.
  assert (storage_wf o) as Ho by eauto using store_wf_lookup.
  rewrite (eff_bind_run _ _ _ _ _ (reset_run _ _ _ Hi Ho)).
  rewrite (construct_run _ _ (after_reset o) _ (<[i := after_reset o]> s));
    try apply lookup_insert_eq; auto using after_reset_wf.
  destruct r; simpl; try done.
  - rewrite insert_insert_eq. split; [by rewrite abs_insert|auto].
  - split; [by rewrite abs_insert|auto using after_reset_wf].
Qed.

(** One operation, whatever its outcome, refines the operation on options and keeps
    the invariant. *)
Lemma run_op_refines (o : optional_op) c s :
  run_op o = Some c -> store_wf s -> op_permitted o (live s) ->
  refines (c s) (spec_op o (abs s)).
Proof.
  intros Hc Hwf Hp. destruct o; simplify_eq/=.
  - split; [by rewrite abs_insert|auto].
  - destruct Hp. by apply in_place_refines.
  - apply in_place_refines; [done|]. apply copy_defined.
  - apply in_place_refines; [done|]. apply move_defined.
  - destruct Hp. by eapply construct_from_refines.
  - destruct Hp. by eapply construct_from_refines.
  - destruct Hp. by eapply assign_from_refines.
  - destruct Hp. by eapply assign_from_refines.
  - destruct Hp as [[o Hi]%live_true ?]. by eapply emplace_refines.
  - apply live_true in Hp as [o Hi]. rewrite (reset_run _ _ _ Hi) by eauto using store_wf_lookup.
    split; [by rewrite abs_insert|auto using after_reset_wf].
  - apply live_true in Hp as [o Hi]. rewrite (destroy_run _ _ _ Hi) by eauto using store_wf_lookup.
    split; [by rewrite abs_delete|auto].
Qed.
End Proofs.

(** ** Programs over optionals

    A caller runs operations one after another and handles what they throw; an
    abort ends the program. *)
Inductive reaches {T} `{Element T}
  : gmap nat (optional_storage_base T) -> list optional_op -> gmap nat (optional_storage_base T) -> Prop :=
| reaches_nil s : reaches s [] s
| reaches_ok s o c s1 os s2 :
    op_permitted o (live s) -> run_op o = Some c -> c s = (Ok tt, s1) ->
    reaches s1 os s2 -> reaches s (o :: os) s2
| reaches_throw s o c e s1 os s2 :
    op_permitted o (live s) -> run_op o = Some c -> c s = (Throw e, s1) ->
    reaches s1 os s2 -> reaches s (o :: os) s2.

(** The same program on the specification, dropping the exceptions. *)
Definition spec_ops {T} `{Element T} (os : list optional_op) (a : gmap nat (option T))
  : gmap nat (option T) := foldl (fun a o => (spec_op o a).2) a os.

Lemma spec_ops_cons {T} `{Element T} o os (a : gmap nat (option T)) :
  spec_ops (o :: os) a = spec_ops os (spec_op o a).2.
Proof. done. Qed.

(** C10: optional<T> implements the option: along any program that constructs,
    assigns, emplaces, resets and destroys optionals, with any of [T]'s operations
    throwing along the way, no object is overwritten without its destructor,
    destroyed twice or read while dead, the flag tells whether a [T] is alive, and
    the objects hold exactly what the program on plain options holds. *)
Theorem optional_refines_option {T} `{ElementLaws T} os s' :
  reaches ∅ os s' -> store_wf s' /\ abs s' = spec_ops os ∅ /\
  (forall o c, run_op o = Some c -> op_permitted o (live s') -> safe c s').
Proof.
  assert (store_wf (T := T) ∅) as Hwf by apply map_Forall_empty.
  replace (∅ : gmap nat (option T)) with (abs (T := T) ∅) by apply fmap_empty.
  revert Hwf. generalize (∅ : gmap nat (optional_storage_base T)).
  intros s Hwf Hr. induction Hr as [s|s o c s1 os s2 Hp Hc Hrun _ IH|s o c e s1 os s2 Hp Hc Hrun _ IH].
  - split_and!; [done..|]. intros o c Hc Hp.
    pose proof (run_op_refines o c s Hc Hwf Hp) as Href. unfold safe.
    destruct (c s) as [[| | |] ?]; done.
  - pose proof (run_op_refines o c s Hc Hwf Hp) as Href. rewrite Hrun in Href.
    destruct Href as [Ha Hwf1]. rewrite spec_ops_cons, Ha. by apply IH.
  - pose proof (run_op_refines o c s Hc Hwf Hp) as Href. rewrite Hrun in Href.
    destruct Href as [Ha Hwf1]. rewrite spec_ops_cons, Ha. by apply IH.
Qed.

(** An element whose copies of negative numbers throw, with a destructor. *)
Definition sample_element : Element Z := {|
  traits := mk_type_traits false true false true false true false true false;
  copy x := if x <? 0 then Throw (std_exception []) else Ok x;
  move x := (Ok x, 0);
  assign_copy x y := if y <? 0 then (Throw (std_exception []), x) else (Ok tt, y);
  assign_move x y := (Ok tt, y, 0)
|}.

Lemma sample_element_laws : @ElementLaws Z sample_element.
Proof. split; try done; intros; simpl; by repeat case_match. Qed.

Lemma optional_refines_option_witness :
  let os := [InPlace 0%nat (Ok 5); InPlace 1%nat (Ok (-1)); CopyAssign 0%nat 1%nat;
             Emplace 1%nat (Throw foreign_exception); MoveConstruct 2%nat 0%nat;
             CopyAssign 1%nat 2%nat; Destroy 0%nat] in
  exists s', @reaches Z sample_element ∅ os s' /\ abs s' = {[1%nat := Some 5; 2%nat := Some 5]}.
Proof.
  intros os. eexists. assert (@reaches Z sample_element ∅ os
    {[1%nat := mk_storage (Some 5) true; 2%nat := mk_storage (Some 5) true]}) as Hr.
  { eapply reaches_ok; [done..|]. eapply reaches_ok; [done..|].
    eapply reaches_throw; [done..|]. eapply reaches_throw; [done..|].
    eapply reaches_ok; [done..|]. eapply reaches_ok; [done..|].
    eapply reaches_ok; [done..|]. apply reaches_nil. }
  split; [exact Hr|].
  rewrite (proj1 (proj2 (@optional_refines_option Z sample_element sample_element_laws os _ Hr))).
  by vm_compute.
Defined.

(** C39: Which members optional<T> has: it copies when T copies, moves when T moves
    or copies, and is copy-assigned when T is copy-constructed and assigned; it is
    move-assigned when T is, except for a T whose move members are trivial while
    its copy assignment is missing: the bytes-wise branch the layer then selects
    does not compile. *)
Theorem optional_member_selection t :
  traits_consistent t = true ->
  (copy_constructor t ≠ IllFormed <-> is_copy_constructible t = true) /\
  (move_constructor t ≠ IllFormed <->
     is_move_constructible t || is_copy_constructible t = true) /\
  (copy_assignment t ≠ IllFormed <-> is_copy_constructible t && is_copy_assignable t = true) /\
  (move_assignment t = IllFormed <->
     is_copy_constructible t && is_copy_assignable t = false /\
     (is_move_constructible t && is_move_assignable t = false \/
      is_trivially_move_constructible t && is_trivially_move_assignable t
        && is_trivially_destructible t && negb (is_trivially_copy_assignable t) = true)).
Proof. destruct t as [[] [] [] [] [] [] [] [] []]; vm_compute; intros ?; intuition congruence. Qed.

(** A move-only type with defaulted moves, as the exception needs it. *)
Lemma optional_member_selection_witness :
  let t := mk_type_traits true false false true true false false true true in
  move_assignment t = IllFormed.
Proof.
  intros t. apply (optional_member_selection t); [done|]. split; [done|]. by right.
Defined.
