(* ===== verification/NativeStorage.v ===== *)
(** * traits.h: [export_native_storage], the native object behind an exported one

    An exported proxy either owns its native object, built inside the proxy, or
    borrows one that lives elsewhere. The model has the proxies' storage objects and
    the outside objects in one store; the native type's constructors are parameters
    that may throw. *)

From Stdlib Require Import ZArith Lia.
From stdpp Require Import base list gmap.
From S2P Require Import Prelude.

(** The address a storage object keeps: its own aligned bytes, or an object outside. *)
Inductive pointer := Null | Inline (id : nat) | External (address : nat).
#[export] Instance pointer_eq_dec : EqDecision pointer.
Proof. solve_decision. Defined.

Record export_native_storage (Native : Type) := mk_native_storage {
  storage_ : option Native;
  native_ : pointer;
  owns_ : bool
}.
Arguments mk_native_storage {Native}.
Arguments storage_ {Native}.
Arguments native_ {Native}.
Arguments owns_ {Native}.

Record heap (Native : Type) := mk_heap {
  proxies : gmap nat (export_native_storage Native);
  outside : gmap nat Native;
  destroyed : list Native
}.
Arguments mk_heap {Native}.
Arguments proxies {Native}.
Arguments outside {Native}.
Arguments destroyed {Native}.

Section NativeStorage.
Context {Native : Type}.
(** [Native]'s move constructor: the new object, or an exception, and what is left. *)
Variable move : Native -> outcome Native * Native.
Local Abbreviation M := (eff (heap Native)).

Definition proxy (id : nat) : M (export_native_storage Native) := fun s =>
  match proxies s !! id with Some o => (Ok o, s) | None => (Undefined, s) end.
Definition set_proxy (id : nat) (o : export_native_storage Native) : M unit :=
  modify (fun s => mk_heap (<[id := o]> (proxies s)) (outside s) (destroyed s)).

(** The object a pointer refers to; a null or dangling one may not be followed. *)
Definition native_get (p : pointer) : M Native :=
  match p with
  | Null => undefined_behaviour
  | Inline id =>
      o ← proxy id; match storage_ o with Some x => mret x | None => undefined_behaviour end
  | External a => fun s =>
      match outside s !! a with Some x => (Ok x, s) | None => (Undefined, s) end
  end.

Definition native_put (p : pointer) (x : Native) : M unit :=
  match p with
  | Null => undefined_behaviour
  | Inline id => o ← proxy id; set_proxy id (mk_native_storage (Some x) (native_ o) (owns_ o))
  | External a => modify (fun s => mk_heap (proxies s) (<[a := x]> (outside s)) (destroyed s))
  end.

(** [~Native()]: the lifetime of the object ends. *)
Definition native_destroy (p : pointer) : M unit :=
  x ← native_get p;
  modify (fun s => mk_heap (proxies s) (outside s) (x :: destroyed s)) ≫= fun _ =>
  match p with
  | Inline id => o ← proxy id; set_proxy id (mk_native_storage None (native_ o) (owns_ o))
  | External a => modify (fun s => mk_heap (proxies s) (delete a (outside s)) (destroyed s))
  | Null => undefined_behaviour
  end.

(** Placement new into the proxy's own bytes; a live object there would be lost. *)
Definition construct (id : nat) (args : M Native) : M unit :=
  x ← args;
  o ← proxy id;
  match storage_ o with
  | Some _ => undefined_behaviour
  | None => set_proxy id (mk_native_storage (Some x) (Inline id) true)
  end.

Definition reset (id : nat) : M unit :=
  o ← proxy id;
  (if owns_ o && bool_decide (native_ o ≠ Null) then native_destroy (native_ o) else mret tt) ≫= fun _ =>
  o' ← proxy id;
  set_proxy id (mk_native_storage (storage_ o') Null false).

(** [Native(std::move( *other.native_))]. *)
Definition moved (p : pointer) : M Native :=
  x ← native_get p;
  native_put p (move x).2 ≫= fun _ => lift (move x).1.

Definition move_from (id other : nat) : M unit :=
  o ← proxy other;
  if owns_ o then
    construct id (moved (native_ o)) ≫= fun _ => reset other
  else
    t ← proxy id;
    set_proxy id (mk_native_storage (storage_ t) (native_ o) false) ≫= fun _ =>
    set_proxy other (mk_native_storage (storage_ o) Null (owns_ o)).

Definition fresh_storage : export_native_storage Native := mk_native_storage None Null false.

(** The constructors: an exception leaves no storage object, and the members it has
    by then need no destruction. *)
Definition constructing (id : nat) (body : M unit) : M unit := fun s =>
  match body (mk_heap (<[id := fresh_storage]> (proxies s)) (outside s) (destroyed s)) with
  | (Throw e, s') => (Throw e, mk_heap (delete id (proxies s')) (outside s') (destroyed s'))
  | r => r
  end.

Definition from_borrowed (id : nat) (borrowed : pointer) : M unit :=
  constructing id (set_proxy id (mk_native_storage None borrowed false)).
(** From an [owned_value] and from constructor arguments. *)
Definition from_args (id : nat) (args : M Native) : M unit := constructing id (construct id args).
Definition from_storage (id other : nat) : M unit := constructing id (move_from id other).
Definition assign (id other : nat) : M unit :=
  if decide (id = other) then mret tt else reset id ≫= fun _ => move_from id other.
Definition destruct_storage (id : nat) : M unit :=
  reset id ≫= fun _ =>
  modify (fun s => mk_heap (delete id (proxies s)) (outside s) (destroyed s)).

Definition storage_get (id : nat) : M pointer := o ← proxy id; mret (native_ o).
Definition ref (id : nat) : M Native := p ← storage_get id; native_get p.

(** ** Invariant and abstract specification *)

(** A storage object owns exactly the live object in its own bytes. *)
Definition storage_wf (id : nat) (o : export_native_storage Native) : Prop :=
  if owns_ o then native_ o = Inline id /\ is_Some (storage_ o) else storage_ o = None.

Definition heap_wf (s : heap Native) : Prop := map_Forall storage_wf (proxies s).

(** What a proxy stands for. *)
Inductive proxy_view := Owned (x : Native) | Borrowed (p : pointer).

Definition view (o : export_native_storage Native) : proxy_view :=
  match owns_ o, storage_ o with
  | true, Some x => Owned x
  | _, _ => Borrowed (native_ o)
  end.

Inductive storage_op :=
| FromBorrowed (id : nat) (p : pointer)
| FromArgs (id : nat) (args : outcome Native)
| FromStorage (id other : nat)
| Assign (id other : nat)
| Destruct (id : nat).

Definition run_op (o : storage_op) : M unit :=
  match o with
  | FromBorrowed id p => from_borrowed id p
  | FromArgs id args => from_args id (lift args)
  | FromStorage id other => from_storage id other
  | Assign id other => assign id other
  | Destruct id => destruct_storage id
  end.

Definition op_permitted (o : storage_op) (s : heap Native) : Prop :=
  match o with
  | FromBorrowed id _ => proxies s !! id = None
  | FromArgs id args => proxies s !! id = None /\ args ≠ Undefined
  | FromStorage id other => proxies s !! id = None /\ is_Some (proxies s !! other)
  | Assign id other => is_Some (proxies s !! id) /\ is_Some (proxies s !! other)
  | Destruct id => is_Some (proxies s !! id)
  end.

(** The specification: a map of views and the objects whose destructor has run. *)
Local Abbreviation spec := (gmap nat proxy_view * list Native)%type.

Definition spec_release (v : option proxy_view) (d : list Native) : list Native :=
  match v with Some (Owned x) => x :: d | _ => d end.

(** [id] takes over what [other] stands for; [failed] is what the map is when the
    native move constructor throws. *)
Definition spec_take (id other : nat) (a failed : gmap nat proxy_view) (d : list Native)
  : outcome unit * spec :=
  match a !! other with
  | Some (Owned x) =>
      match (move x).1 with
      | Ok y => (Ok tt, (<[other := Borrowed Null]> (<[id := Owned y]> a), (move x).2 :: d))
      | Throw e => (Throw e, (<[other := Owned (move x).2]> failed, d))
      | Aborted => (Aborted, (a, d))
      | Undefined => (Undefined, (a, d))
      end
  | Some (Borrowed p) => (Ok tt, (<[other := Borrowed Null]> (<[id := Borrowed p]> a), d))
  | None => (Undefined, (a, d))
  end.

Definition spec_op (o : storage_op) (a : spec) : outcome unit * spec :=
  let '(v, d) := a in
  match o with
  | FromBorrowed id p => (Ok tt, (<[id := Borrowed p]> v, d))
  | FromArgs id (Ok x) => (Ok tt, (<[id := Owned x]> v, d))
  | FromArgs id (Throw e) => (Throw e, a)
  | FromArgs id Aborted => (Aborted, a)
  | FromArgs id Undefined => (Undefined, a)
  | FromStorage id other => spec_take id other v v d
  | Assign id other =>
      if decide (id = other) then (Ok tt, a) else
      let v' := <[id := Borrowed Null]> v in
      spec_take id other v' v' (spec_release (v !! id) d)
  | Destruct id => (Ok tt, (delete id v, spec_release (v !! id) d))
  end.

Definition abs (s : heap Native) : spec := (view <$> proxies s, destroyed s).

Definition refines (before : heap Native) (r : outcome unit * heap Native)
    (a : outcome unit * spec) : Prop :=
  match r with
  | (Ok _, s) => a = (Ok tt, abs s) /\ heap_wf s /\ outside s = outside before
  | (Throw e, s) => a = (Throw e, abs s) /\ heap_wf s /\ outside s = outside before
  | (Aborted, _) => a.1 = Aborted
  | (Undefined, _) => False
  end.

(** ** Running the members *)

Hypothesis move_defined : forall x, (move x).1 ≠ Undefined.

Lemma proxy_run s i o : proxies s !! i = Some o -> proxy i s = (Ok o, s).
Proof. unfold proxy. by intros ->. Qed.

Lemma wf_lookup s i o : heap_wf s -> proxies s !! i = Some o -> storage_wf i o.
Proof. intros Hwf Hi. exact (Hwf i o Hi). Qed.

Lemma wf_insert s i o out d :
  heap_wf s -> storage_wf i o -> heap_wf (mk_heap (<[i := o]> (proxies s)) out d).
Proof. intros. by apply map_Forall_insert_2. Qed.

Definition released (o : export_native_storage Native) (s : heap Native) : list Native :=
  spec_release (Some (view o)) (destroyed s).

(** [reset] destroys the owned object, once, and forgets a borrowed one. *)
Lemma native_reset_run s i o :
  proxies s !! i = Some o -> storage_wf i o ->
  reset i s = (Ok tt, mk_heap (<[i := fresh_storage]> (proxies s)) (outside s) (released o s)).
Proof.
  intros Hi Hwf. unfold reset, released, view, storage_wf in *.
  rewrite (eff_bind_run _ _ _ _ _ (proxy_run _ _ _ Hi)).
  destruct (owns_ o); simpl.
  - destruct Hwf as [Hn [x Hx]]. rewrite Hn, Hx, bool_decide_eq_true_2 by done.
    assert (native_get (Inline i) s = (Ok x, s)) as Hget.
    { unfold native_get. rewrite (eff_bind_run _ _ _ _ _ (proxy_run _ _ _ Hi)). by rewrite Hx. }
    unfold native_destroy. unfold mbind, eff_bind. rewrite Hget. unfold modify, proxy. simpl. rewrite Hi. simpl.
    rewrite lookup_insert_eq. simpl. unfold set_proxy, modify. simpl. by rewrite insert_insert_eq.
  - unfold mbind, eff_bind, mret, eff_ret. rewrite (proxy_run _ _ _ Hi).
    unfold set_proxy, modify. by rewrite Hwf.
Qed.

Definition owner (i : nat) (x : Native) : export_native_storage Native :=
  mk_native_storage (Some x) (Inline i) true.

Lemma owner_wf i x : storage_wf i (owner i x).
Proof. unfold storage_wf. simpl. eauto. Qed.
Lemma fresh_wf i : storage_wf i fresh_storage.
Proof. done. Qed.
Lemma borrower_wf i p : storage_wf i (mk_native_storage None p false).
Proof. done. Qed.
Local Hint Resolve owner_wf fresh_wf borrower_wf wf_insert : core.

Lemma owns_owner i o : storage_wf i o -> owns_ o = true -> exists x, o = owner i x /\ view o = Owned x.
Proof.
  unfold storage_wf, view. intros Hwf Ho. rewrite Ho in *. destruct Hwf as [Hn [x Hx]].
  exists x. rewrite Hx. split; [|done]. destruct o; simpl in *. by subst.
Qed.

Lemma not_owns i o :
  storage_wf i o -> owns_ o = false ->
  o = mk_native_storage None (native_ o) false /\ view o = Borrowed (native_ o).
Proof.
  unfold storage_wf, view. intros Hwf Ho. rewrite Ho in *. split; [|done].
  destruct o; simpl in *. by subst.
Qed.

Lemma moved_run s j x :
  proxies s !! j = Some (owner j x) ->
  moved (Inline j) s =
    ((move x).1, mk_heap (<[j := owner j (move x).2]> (proxies s)) (outside s) (destroyed s)).
Proof.
  intros Hj. unfold moved, native_get, native_put, mbind, eff_bind, proxy.
  rewrite Hj. simpl. rewrite Hj. done.
Qed.

Lemma native_construct_run s i t args r s' :
  args s = (r, s') -> proxies s' !! i = Some t -> storage_ t = None ->
  construct i args s =
    match r with
    | Ok x => (Ok tt, mk_heap (<[i := owner i x]> (proxies s')) (outside s') (destroyed s'))
    | Throw e => (Throw e, s') | Aborted => (Aborted, s') | Undefined => (Undefined, s')
    end.
Proof.
  intros Ha Hi Ht. unfold construct, mbind, eff_bind. rewrite Ha.
  destruct r; try done. by rewrite (proxy_run _ _ _ Hi), Ht.
Qed.

(** [move_from] into a storage object without a live object: the destination takes
    the source's object or address, and the source is left empty. *)
Lemma native_move_from_run s i j t o :
  i ≠ j -> proxies s !! i = Some t -> storage_ t = None ->
  proxies s !! j = Some o -> storage_wf j o ->
  move_from i j s =
    match view o with
    | Owned x =>
        match (move x).1 with
        | Ok y => (Ok tt, mk_heap (<[j := fresh_storage]> (<[i := owner i y]> (proxies s)))
                            (outside s) ((move x).2 :: destroyed s))
        | r => ((_ ← r; Ok tt),
                mk_heap (<[j := owner j (move x).2]> (proxies s)) (outside s) (destroyed s))
        end
    | Borrowed p =>
        (Ok tt, mk_heap (<[j := fresh_storage]> (<[i := mk_native_storage None p false]> (proxies s)))
                  (outside s) (destroyed s))
    end.
Proof.
  intros Hij Hi Ht Hj Hwf. unfold move_from.
  rewrite (eff_bind_run _ _ _ _ _ (proxy_run _ _ _ Hj)).
  destruct (owns_ o) eqn:Ho.
  - destruct (owns_owner j o Hwf Ho) as (x & -> & ->). simpl.
    set (s1 := mk_heap (<[j := owner j (move x).2]> (proxies s)) (outside s) (destroyed s)).
    assert (proxies s1 !! i = Some t) as Hi1 by (simpl; by rewrite lookup_insert_ne).
    pose proof (native_construct_run s i t _ _ s1 (moved_run s j x Hj) Hi1 Ht) as Hc.
    destruct (move x).1 as [y| | |] eqn:Hm; unfold mbind, eff_bind; rewrite Hc; try done.
    rewrite (native_reset_run _ _ (owner j (move x).2)); [|simpl|done].
    + unfold released. simpl. rewrite (insert_insert_ne _ j i) by done.
      rewrite insert_insert_eq. by rewrite (insert_insert_ne _ i j).
    + rewrite (insert_insert_ne _ i j) by done. apply lookup_insert_eq.
  - destruct (not_owns j o Hwf Ho) as [-> ->]. simpl.
    rewrite (eff_bind_run _ _ _ _ _ (proxy_run _ _ _ Hi)).
    unfold mbind, eff_bind, set_proxy, modify. simpl. by rewrite Ht.
Qed.

Lemma abs_views s i o out d :
  abs (mk_heap (<[i := o]> (proxies s)) out d) = (<[i := view o]> (view <$> proxies s), d).
Proof. unfold abs. simpl. by rewrite fmap_insert. Qed.

Lemma views_insert (m : gmap nat (export_native_storage Native)) i o : view <$> <[i := o]> m = <[i := view o]> (view <$> m).
Proof. apply fmap_insert. Qed.

Lemma wf_map_insert (m : gmap nat (export_native_storage Native)) i o :
  map_Forall storage_wf m -> storage_wf i o -> map_Forall storage_wf (<[i := o]> m).
Proof. intros. by apply map_Forall_insert_2. Qed.
Local Hint Resolve wf_map_insert : core.

(** Taking over refines [spec_take]; the caller says what an exception leaves. *)
Lemma move_from_refines s0 s i j t o :
  outside s = outside s0 -> heap_wf s -> i ≠ j ->
  proxies s !! i = Some t -> t = fresh_storage -> proxies s !! j = Some o ->
  refines s0 (move_from i j s)
    (spec_take i j (view <$> proxies s) (view <$> proxies s) (destroyed s)).
Proof.
  intros Hout Hwf Hij Hi -> Hj. pose proof (wf_lookup _ _ _ Hwf Hj) as Ho.
  rewrite (native_move_from_run s i j fresh_storage o) by done.
  unfold spec_take. rewrite lookup_fmap, Hj. simpl.
  destruct (view o) as [x|p] eqn:Hv; simpl.
  - pose proof (move_defined x). destruct (move x).1 eqn:Hm; simpl; try done.
    + split_and!; [|unfold heap_wf; simpl; auto|done].
      unfold abs. simpl. by rewrite !views_insert.
    + split_and!; [|unfold heap_wf; simpl; auto|done].
      unfold abs. simpl. by rewrite !views_insert.
  - split_and!; [|unfold heap_wf; simpl; auto|done].
    unfold abs. simpl. by rewrite !views_insert.
Qed.

(** The move constructor: an exception leaves no storage object. *)
Lemma from_storage_refines s i j o :
  heap_wf s -> proxies s !! i = None -> proxies s !! j = Some o ->
  refines s (from_storage i j s)
    (spec_take i j (view <$> proxies s) (view <$> proxies s) (destroyed s)).
Proof.
  intros Hwf Hi Hj. assert (i ≠ j) as Hij by congruence.
  unfold from_storage, constructing. pose proof (wf_lookup _ _ _ Hwf Hj) as Ho.
  rewrite (native_move_from_run _ i j fresh_storage o); simpl; try done;
    [|apply lookup_insert_eq|by rewrite lookup_insert_ne].
  unfold spec_take. rewrite lookup_fmap, Hj. simpl.
  destruct (view o) as [x|p] eqn:Hv; simpl.
  - pose proof (move_defined x). destruct (move x).1 eqn:Hm; simpl; try done.
    + split_and!; [|unfold heap_wf; simpl; auto 6|done].
      unfold abs. simpl. by rewrite insert_insert_eq, !views_insert.
    + rewrite (insert_insert_ne _ j i), delete_insert_id by (try rewrite lookup_insert_ne; done).
      split_and!; [|unfold heap_wf; simpl; auto|done]. unfold abs. simpl. by rewrite views_insert.
  - split_and!; [|unfold heap_wf; simpl; auto 6|done].
    unfold abs. simpl. by rewrite insert_insert_eq, !views_insert.
Qed.

Lemma from_args_refines s i r :
  heap_wf s -> proxies s !! i = None -> r ≠ Undefined ->
  refines s (from_args i (lift r) s) (spec_op (FromArgs i r) (abs s)).
Proof.
  intros Hwf Hi Hr. unfold from_args, constructing.
  rewrite (native_construct_run _ i fresh_storage _ r _ eq_refl (lookup_insert_eq _ _ _) eq_refl).
  destruct r as [x| | |]; simpl; try done.
  - rewrite insert_insert_eq. split_and!; [|unfold heap_wf; simpl; auto|done].
    unfold abs. simpl. by rewrite views_insert.
  - rewrite delete_insert_id by done. split_and!; [|done..]. done.
Qed.

Lemma native_run_op_refines o s :
  heap_wf s -> op_permitted o s -> refines s (run_op o s) (spec_op o (abs s)).
Proof.
  intros Hwf Hp. destruct o as [i p|i r|i j|i j|i]; simpl in Hp.
  - simpl. unfold from_borrowed, constructing, set_proxy, modify. simpl.
    rewrite insert_insert_eq. split_and!; [|unfold heap_wf; simpl; auto|done].
    unfold abs. simpl. by rewrite views_insert.
  - destruct Hp. by apply from_args_refines.
  - destruct Hp as [Hi [o Hj]]. by eapply from_storage_refines.
  - destruct Hp as [[t Hi] [o Hj]]. simpl. unfold assign.
    destruct (decide (i = j)) as [->|Hij]; [by split_and!|].
    rewrite (eff_bind_run _ _ _ _ _ (native_reset_run _ _ _ Hi (wf_lookup _ _ _ Hwf Hi))).
    rewrite lookup_fmap, Hi. simpl. unfold released.
    set (s1 := mk_heap _ _ _).
    replace (<[i := Borrowed Null]> (view <$> proxies s)) with (view <$> proxies s1)
      by (unfold s1; simpl; by rewrite views_insert).
    apply (move_from_refines s s1 i j fresh_storage o); unfold s1; simpl; try done.
    + unfold heap_wf. simpl. auto.
    + apply lookup_insert_eq. + by rewrite lookup_insert_ne.
  - destruct Hp as [t Hi]. simpl. unfold destruct_storage.
    rewrite (eff_bind_run _ _ _ _ _ (native_reset_run _ _ _ Hi (wf_lookup _ _ _ Hwf Hi))).
    unfold modify. simpl. rewrite delete_insert_eq, lookup_fmap, Hi.
    split_and!; [|by apply map_Forall_delete|done]. unfold abs. simpl. by rewrite fmap_delete.
Qed.

(** Programs over exported objects: exceptions are handled by the caller. *)
Inductive reaches : heap Native -> list storage_op -> heap Native -> Prop :=
| reaches_nil s : reaches s [] s
| reaches_step s o r s1 os s2 :
    op_permitted o s -> run_op o s = (r, s1) -> r = Ok tt \/ (exists e, r = Throw e) ->
    reaches s1 os s2 -> reaches s (o :: os) s2.

(** C16: along any program over exported objects, with the native type's constructors
    throwing along the way: an owned object is destroyed exactly when its proxy is
    destroyed, reassigned or moved from, once; a borrowed object is never destroyed
    and never copied; a proxy moved from stands for nothing; and no member reads a
    dead object. The proxies and the list of destroyed objects are those of the
    specification. *)
Theorem native_storage_refines os s s' :
  heap_wf s -> reaches s os s' ->
  heap_wf s' /\ outside s' = outside s /\
  abs s' = foldl (fun a o => (spec_op o a).2) (abs s) os /\
  (forall o, op_permitted o s' -> safe (run_op o) s').
Proof.
  intros Hwf Hr. induction Hr as [s|s o r s1 os s2 Hp Hrun Hok _ IH].
  - split_and!; [done..|]. intros o Hp. pose proof (native_run_op_refines o s Hwf Hp) as Href.
    unfold safe. by destruct (run_op o s) as [[] ?].
  - pose proof (native_run_op_refines o s Hwf Hp) as Href. rewrite Hrun in Href.
    assert ((spec_op o (abs s)).2 = abs s1 /\ heap_wf s1 /\ outside s1 = outside s) as (Ha & Hwf1 & Ho).
    { destruct Hok as [-> | [e ->]]; destruct Href as (-> & ? & ?); done. }
    destruct (IH Hwf1) as (? & Hout & Habs & ?). split_and!; try done; [congruence|].
    by rewrite Habs, <- Ha.
Qed.
End NativeStorage.

(** A native type whose moves leave 0 behind and throw on negative values. *)
Definition sample_move (x : Z) : outcome Z * Z :=
  if x <? 0 then (Throw (std_exception []), x) else (Ok x, 0).

Lemma native_storage_refines_witness :
  let os := [FromArgs 0%nat (Ok 7); FromArgs 1%nat (Ok (-3)); FromStorage 2%nat 0%nat;
             FromBorrowed 3%nat (External 9%nat); Assign 2%nat 1%nat; Assign 2%nat 3%nat;
             Destruct 1%nat] in
  exists s', reaches sample_move (mk_heap ∅ {[9%nat := 5]} []) os s' /\
             abs s' = ({[0%nat := Borrowed Null; 2%nat := Borrowed (External 9%nat);
                         3%nat := Borrowed Null]}, [-3; 7; 0]) /\ outside s' = {[9%nat := 5]}.
Proof.
  intros os. eexists. assert (reaches sample_move (mk_heap ∅ {[9%nat := 5]} []) os
    (mk_heap {[0%nat := fresh_storage; 2%nat := mk_native_storage None (External 9%nat) false;
               3%nat := fresh_storage]} {[9%nat := 5]} [-3; 7; 0])) as Hr.
  { repeat (eapply reaches_step; [vm_compute; eauto; done|vm_compute; reflexivity|by eauto|]).
    apply reaches_nil. }
  split; [exact Hr|].
  destruct (native_storage_refines sample_move
    (fun x => ltac:(unfold sample_move; by destruct (x <? 0))) os _ _
    (map_Forall_empty _) Hr) as (_ & -> & -> & _).
  by vm_compute.
Defined.
