(* ===== verification/ExportDispatch.v ===== *)
(** * export_callable.h: from dynamic arguments to a C++ call

    A backend hands a binder its dynamic arguments through an accessor. A candidate
    signature prepares, probes and converts them and calls the C++ callable; an
    overload set tries its candidates in declaration order. The dynamic values, the
    converters and the callables belong to the backend and to the user: they are the
    fields of [ExportBackend]. Conversions may consume the argument they read, so the
    arguments are slots of the state, and every operation threads the rest of the
    world, [W], so that what runs, and in which order, is visible. *)

From Stdlib Require Import ZArith Lia.
From stdpp Require Import base list gmap.
From S2P Require Import Prelude.

(** ** The backend and the user's code

    [T] the declared parameter types; [D] dynamic values; [N] what a conversion
    yields, inside its optional; [A] C++ arguments; [R] C++ results. *)
Class ExportBackend (T D N A R W : Type) := {
  uses_rpc_export_probe : bool;
  is_bridge_descriptor : T -> bool;
  (** [export_argument<Declared>::probe], [try_make] on an lvalue argument (with what
      it leaves there), [try_make] on a const one, and [get]. *)
  argument_probe : T -> D -> eff W bool;
  argument_try_make : T -> D -> eff W (option N * D);
  argument_prepare : T -> D -> eff W (option N);
  argument_get : T -> N -> eff W A;
  (** [to_cast] of a materialised result, and [backend_t::undefined]. *)
  to_export_result : T -> R -> eff W D;
  undefined_value : eff W D
}.

(** A declared signature: [free_callable<R(Args...)>]; [result = None] is void. The
    sentinel of an empty overload group is marked. *)
Record contract (T : Type) := mk_contract {
  result_type : option T;
  parameters : list T;
  is_unmatched_free_callable : bool
}.
Arguments mk_contract {T}.
Arguments result_type {T}.
Arguments parameters {T}.
Arguments is_unmatched_free_callable {T}.

Definition callable_arity {T} (c : contract T) : nat := length (parameters c).

(** The arguments behind an accessor, and everything else. *)
Record frame (D W : Type) := mk_frame { slots : list D; world : W }.
Arguments mk_frame {D W}.
Arguments slots {D W}.
Arguments world {D W}.

(** [uses_rpc_export_probe] and the tuple of optionals give three plans. *)
Inductive prepared (N : Type) := Scalar | Handle (value : option N).
Arguments Scalar {N}.
Arguments Handle {N}.

Inductive export_arguments_plan (N : Type) :=
| NonOpted
| ScalarOnly
| WithPrepared (prepared_ : list (prepared N)).
Arguments NonOpted {N}.
Arguments ScalarOnly {N}.
Arguments WithPrepared {N}.

Section Dispatch.
Context {T D N A R W : Type} `{ErrorPolicy} {B : ExportBackend T D N A R W}.
(** The order in which a compiler evaluates the [n] arguments of a call, unspecified
    by C++. *)
Context (order : nat -> list nat).
Local Abbreviation M := (eff (frame D W)).

Definition on_world {X} (m : eff W X) : M X := fun f =>
  let '(r, w) := m (world f) in (r, mk_frame (slots f) w).

(** [accessor.get<I>()]. *)
Definition get_slot (i : nat) : M D := fun f =>
  match slots f !! i with Some d => (Ok d, f) | None => (Undefined, f) end.
Definition set_slot (i : nat) (d : D) : M unit :=
  modify (fun f => mk_frame (<[i := d]> (slots f)) (world f)).

(** ** Arguments *)

Definition try_make (t : T) (i : nat) : M (option N) :=
  d ← get_slot i;
  r ← on_world (argument_try_make t d);
  set_slot i r.2 ≫= fun _ => mret r.1.

Fixpoint probe_export_arguments_from (i : nat) (args : list T) : M bool :=
  match args with
  | [] => mret true
  | t :: rest =>
      d ← get_slot i;
      accepted ← on_world (argument_probe t d);
      if (accepted : bool) then probe_export_arguments_from (S i) rest else mret false
  end.
Definition probe_export_arguments (args : list T) : M bool := probe_export_arguments_from 0 args.

(** [export_argument_plan]. *)
Definition plan_prepare (t : T) (i : nat) : M (prepared N) :=
  if is_bridge_descriptor t then
    d ← get_slot i; v ← on_world (argument_prepare t d); mret (Handle v)
  else mret Scalar.
Definition plan_probe (t : T) (i : nat) (p : prepared N) : M bool :=
  match p with
  | Scalar => d ← get_slot i; on_world (argument_probe t d)
  | Handle v => mret (bool_decide (is_Some v))
  end.
Definition plan_convert (t : T) (i : nat) (p : prepared N) : M (option N) :=
  match p with
  | Scalar => try_make t i
  | Handle v => mret v
  end.

(** The braced initialiser of the prepared tuple runs from left to right. *)
Fixpoint prepare_all (i : nat) (args : list T) : M (list (prepared N)) :=
  match args with
  | [] => mret []
  | t :: rest => p ← plan_prepare t i; ps ← prepare_all (S i) rest; mret (p :: ps)
  end.

Fixpoint probe_prepared (i : nat) (args : list T) (ps : list (prepared N)) : M bool :=
  match args, ps with
  | t :: rest, p :: ps =>
      accepted ← plan_probe t i p;
      if (accepted : bool) then probe_prepared (S i) rest ps else mret false
  | _, _ => mret true
  end.

(** ** Plans *)

Definition make_plan (args : list T) : M (export_arguments_plan N) :=
  if uses_rpc_export_probe then
    if existsb is_bridge_descriptor args then ps ← prepare_all 0 args; mret (WithPrepared ps)
    else mret ScalarOnly
  else mret NonOpted.

Definition probe_plan (args : list T) (plan : export_arguments_plan N) : M bool :=
  match plan with
  | NonOpted => mret true
  | ScalarOnly => probe_export_arguments args
  | WithPrepared ps => probe_prepared 0 args ps
  end.

Definition convert_plan (args : list T) (plan : export_arguments_plan N) (i : nat) : M (option N) :=
  match args !! i with
  | None => undefined_behaviour
  | Some t =>
      match plan with
      | NonOpted | ScalarOnly => try_make t i
      | WithPrepared ps =>
          match ps !! i with Some p => plan_convert t i p | None => undefined_behaviour end
      end
  end.

(** The evaluation of a pack in argument position: one value per index, computed in
    the compiler's order. *)
Fixpoint eval_each {X} (is_ : list nat) (f : nat -> M X) : M (gmap nat X) :=
  match is_ with
  | [] => mret ∅
  | i :: rest => x ← f i; m ← eval_each rest f; mret (<[i := x]> m)
  end.
Definition eval_pack {X} (n : nat) (f : nat -> M X) : M (list X) :=
  m ← eval_each (order n) f; mret (omap (fun i => m !! i) (seq 0 n)).

Definition all_optionals (converted : list (option N)) : bool :=
  forallb (fun o => bool_decide (is_Some o)) converted.

Definition accepted_export_arguments (converted : list (option N)) : M bool :=
  if all_optionals converted then mret true
  else if uses_rpc_export_probe then
    raise (bad_conversion (lit "dynabridge export argument rejected an accepted probe"))
  else mret false.

(** [export_argument<Args>::get( *value)]: the dereference of an engaged optional. *)
Definition get_argument (args : list T) (converted : list (option N)) (i : nat) : M A :=
  match args !! i, converted !! i with
  | Some t, Some (Some n) => on_world (argument_get t n)
  | _, _ => undefined_behaviour
  end.

(** ** One candidate *)

(** The C++ callable a signature is bound to. *)
Definition target : Type := contract T -> list A -> eff W R.

(** Convert, test, call, and convert the result while the arguments are alive. *)
Definition call_impl (callable : target) (c : contract T) (plan : export_arguments_plan N)
  : M (option D) :=
  converted ← eval_pack (callable_arity c) (convert_plan (parameters c) plan);
  accepted ← accepted_export_arguments converted;
  if (accepted : bool) then
    args ← eval_pack (callable_arity c) (get_argument (parameters c) converted);
    r ← on_world (callable c args);
    match result_type c with
    | Some t => d ← on_world (to_export_result t r); mret (Some d)
    | None => d ← on_world undefined_value; mret (Some d)
    end
  else mret None.

Definition candidate_call_optional (callable : target) (c : contract T) : M (option D) :=
  plan ← make_plan (parameters c);
  accepted ← probe_plan (parameters c) plan;
  if (accepted : bool) then call_impl callable c plan else mret None.

(** ** Overload sets: the first candidate in declaration order *)

(** [Accessor::static_arity]: the size of a tuple accessor, or [dynamic_arity]. *)
Definition can_access (static_arity : option nat) (c : contract T) : bool :=
  match static_arity with None => true | Some n => Nat.leb (callable_arity c) n end.

Fixpoint overload_call_optional (cs : list (contract T)) (callable : target) (argc : nat)
    (static_arity : option nat) : M (option D) :=
  match cs with
  | [] => mret None
  | c :: rest =>
      if is_unmatched_free_callable c then overload_call_optional rest callable argc static_arity
      else if can_access static_arity c then
        if Nat.eqb argc (callable_arity c) then
          result ← candidate_call_optional callable c;
          match result with
          | Some d => mret (Some d)
          | None => overload_call_optional rest callable argc static_arity
          end
        else overload_call_optional rest callable argc static_arity
      else overload_call_optional rest callable argc static_arity
  end.

Definition overload_call (cs : list (contract T)) (callable : target) (argc : nat)
    (static_arity : option nat) : M D :=
  result ← overload_call_optional cs callable argc static_arity;
  match result with
  | Some d => mret d
  | None => raise (bad_conversion (lit "dynabridge export overload has no matching signature"))
  end.

(** ** Binders *)

(** A bound overload group: its signatures and the callable they share. *)
Record export_overload_binder := mk_binder { overloads : list (contract T); callable_ : target }.

Definition dispatch_optional (b : export_overload_binder) (argc : nat) (static_arity : option nat)
  : M (option D) := overload_call_optional (overloads b) (callable_ b) argc static_arity.
Definition dispatch (b : export_overload_binder) (argc : nat) (static_arity : option nat) : M D :=
  overload_call (overloads b) (callable_ b) argc static_arity.

(** A call with a pack of dynamic arguments: they are copied into a tuple that lives
    for the call. *)
Definition with_tuple {X} (args : list D) (body : nat -> option nat -> M X) : eff W X := fun w =>
  let '(r, f) := body (length args) (Some (length args)) (mk_frame args w) in (r, world f).

Definition overload_binder_call_optional (b : export_overload_binder) (args : list D)
  : eff W (option D) := with_tuple args (dispatch_optional b).
Definition overload_binder_call (b : export_overload_binder) (args : list D) : eff W D :=
  with_tuple args (dispatch b).

(** [invoke_converted] of the single-signature, the member and the constructor
    binders: [call] is what receives the converted arguments. *)
Definition invoke_converted {X} (message : text) (params : list T)
    (call : list A -> eff W X) : M X :=
  plan ← make_plan params;
  probed ← probe_plan params plan;
  if (probed : bool) then
    converted ← eval_pack (length params) (convert_plan params plan);
    accepted ← accepted_export_arguments converted;
    if (accepted : bool) then
      args ← eval_pack (length params) (get_argument params converted);
      on_world (call args)
    else raise (bad_conversion message)
  else raise (bad_conversion message).

(** [export_callable_binder::operator()]; [None] when the number of arguments does not
    select the operator. A void signature has no result. *)
Definition export_callable_binder_call (c : contract T) (callable : target) (args : list D)
  : option (eff W (option D)) :=
  if Nat.eqb (length args) (callable_arity c) then
    Some (with_tuple args (fun _ _ =>
      invoke_converted (lit "dynabridge export argument conversion failed") (parameters c)
        (fun xs => r ← callable c xs;
           match result_type c with
           | Some t => d ← to_export_result t r; mret (Some d)
           | None => mret None
           end)))
  else None.

Definition export_callable_binder_call_optional (c : contract T) (callable : target)
    (args : list D) : eff W (option D) :=
  with_tuple args (overload_call_optional [c] callable).

(** [export_member_callable_binder::operator()]: the receiver first. [bind] is
    [bind_export_object] followed by [native], which may find no proxy. *)
Definition export_member_binder_call {P : Type} (bind : D -> eff W (option P))
    (c : contract T) (callable : P -> target) (receiver : D) (args : list D)
  : option (eff W (option D)) :=
  if Nat.eqb (length args) (callable_arity c) then
    Some (p ← bind receiver;
          match p with
          | None => raise (runtime_error (lit "dynabridge export object has no proxy receiver"))
          | Some p =>
              with_tuple args (fun _ _ =>
                invoke_converted (lit "dynabridge export member argument conversion failed")
                  (parameters c)
                  (fun xs => r ← callable p c xs;
                     match result_type c with
                     | Some t => d ← to_export_result t r; mret (Some d)
                     | None => mret None
                     end))
          end)
  else None.

(** [export_constructor_invoker::construct]; [make] is the backend's export object. *)
Definition export_constructor_construct {X} (params : list T) (make : list A -> eff W X)
    (args : list D) : option (eff W X) :=
  if Nat.eqb (length args) (length params) then
    Some (with_tuple args (fun _ _ =>
      invoke_converted (lit "dynabridge export constructor argument conversion failed") params make))
  else None.

(** [is_transactional_export_binder]. *)
Definition is_transactional_export_binder : bool := uses_rpc_export_probe.
End Dispatch.

(** ** Lemmas: what each stage does to the frame *)

Section Stages.
Context {T D N A R W : Type} `{ErrorPolicy} {B : ExportBackend T D N A R W}.
Context (order : nat -> list nat) (order_permutes : forall n, Permutation (order n) (seq 0 n)).
Local Abbreviation M := (eff (frame D W)).
Implicit Types (f : frame D W) (c : contract T).

(** The number of slots never changes: no stage reads past the arguments it was
    given. *)
Definition arity_at_least (n : nat) f : Prop := (n <= length (slots f))%nat.

(** User code of the backend is free of undefined behaviour. *)
Class BackendDefined : Prop := {
  probe_defined t d w : (argument_probe t d w).1 ≠ Undefined;
  try_make_defined t d w : (argument_try_make t d w).1 ≠ Undefined;
  prepare_defined t d w : (argument_prepare t d w).1 ≠ Undefined;
  get_defined t n w : (argument_get t n w).1 ≠ Undefined;
  result_defined t r w : (to_export_result t r w).1 ≠ Undefined;
  undefined_defined w : (undefined_value w).1 ≠ Undefined
}.

Lemma get_slot_run i f d : slots f !! i = Some d -> get_slot i f = (Ok d, f).
Proof. unfold get_slot. by intros ->. Qed.

Lemma on_world_run {X} (m : eff W X) f r w :
  m (world f) = (r, w) -> on_world m f = (r, mk_frame (slots f) w).
Proof. unfold on_world. by intros ->. Qed.

(** [keeps n m]: run with at least [n] arguments, [m] is defined and keeps them. *)
Definition keeps {X} (n : nat) (m : M X) : Prop :=
  triple (arity_at_least n) m (fun _ => arity_at_least n) (fun _ => True).

Lemma keeps_bind {X Y} n (m : M X) (k : X -> M Y) :
  keeps n m -> (forall x, keeps n (k x)) -> keeps n (m ≫= k).
Proof. intros Hm Hk. eapply triple_bind; [exact Hm|exact Hk]. Qed.

Lemma keeps_on_world {X} (m : eff W X) n : (forall w, (m w).1 ≠ Undefined) -> keeps n (on_world m).
Proof.
  intros Hm f Hf. unfold on_world. pose proof (Hm (world f)).
  destruct (m (world f)) as [[] w]; done.
Qed.

Lemma keeps_ret {X} (x : X) n : keeps n (mret x : M X).
Proof. by intros f Hf. Qed.

Lemma keeps_raise {X} e n : keeps n (raise e : M X).
Proof. intros f Hf. unfold raise, DYNABRIDGE_RAISE. by destruct has_exceptions. Qed.

Lemma keeps_get_slot i n : (i < n)%nat -> keeps n (get_slot i).
Proof.
  intros Hi f Hf. unfold get_slot.
  destruct (slots f !! i) eqn:E; [done|]. apply lookup_ge_None in E. unfold arity_at_least in Hf. lia.
Qed.

Lemma keeps_set_slot i d n : keeps n (set_slot i d).
Proof. intros f Hf. unfold arity_at_least. simpl. by rewrite length_insert. Qed.

End Stages.

#[export] Hint Resolve keeps_bind keeps_on_world keeps_ret keeps_raise keeps_get_slot keeps_set_slot
  probe_defined try_make_defined prepare_defined get_defined result_defined undefined_defined : stages.

Section Safety.
Context {T D N A R W : Type} `{ErrorPolicy} {B : ExportBackend T D N A R W}.
Context (order : nat -> list nat) (order_permutes : forall n, Permutation (order n) (seq 0 n)).
Context {BD : BackendDefined}.
Local Abbreviation M := (eff (frame D W)).
Implicit Types (f : frame D W) (c : contract T).

Lemma keeps_try_make t i n : (i < n)%nat -> keeps n (try_make t i).
Proof. intros Hi. unfold try_make. eauto 8 with stages. Qed.

Lemma keeps_probe_arguments args : forall i n,
  (i + length args <= n)%nat -> keeps n (probe_export_arguments_from i args).
Proof.
  induction args as [|t args IH]; intros i n Hn; simpl in *; [eauto with stages|].
  apply keeps_bind; [apply keeps_get_slot; lia|intros d].
  apply keeps_bind; [eauto with stages|intros []]; [apply IH; lia|eauto with stages].
Qed.

Lemma keeps_plan_prepare t i n : (i < n)%nat -> keeps n (plan_prepare t i).
Proof. intros Hi. unfold plan_prepare. destruct (is_bridge_descriptor t); eauto 8 with stages. Qed.

Lemma keeps_plan_probe t i p n : (i < n)%nat -> keeps n (plan_probe t i p).
Proof. intros Hi. destruct p; simpl; eauto 8 with stages. Qed.

Lemma prepare_all_triple args : forall i n,
  (i + length args <= n)%nat ->
  triple (arity_at_least n) (prepare_all i args)
    (fun ps f => arity_at_least n f /\ length ps = length args) (fun _ => True).
Proof.
  induction args as [|t args IH]; intros i n Hn; simpl in *.
  - by intros f Hf.
  - eapply triple_bind; [apply keeps_plan_prepare; lia|intros p].
    eapply triple_bind; [apply IH; lia|intros ps]. intros f [Hf Hl]. simpl. split; [done|lia].
Qed.

Lemma keeps_probe_prepared args : forall ps i n,
  (i + length args <= n)%nat -> keeps n (probe_prepared i args ps).
Proof.
  induction args as [|t args IH]; intros [|p ps] i n Hn; simpl in *; eauto with stages.
  apply keeps_bind; [apply keeps_plan_probe; lia|intros []]; [apply IH; lia|eauto with stages].
Qed.

(** A plan fits the parameters it was made for. *)
Definition plan_fits (params : list T) (plan : export_arguments_plan N) : Prop :=
  match plan with WithPrepared ps => length ps = length params | _ => True end.

Lemma make_plan_triple params n :
  (length params <= n)%nat ->
  triple (arity_at_least n) (make_plan params)
    (fun plan f => arity_at_least n f /\ plan_fits params plan) (fun _ => True).
Proof.
  intros Hn. unfold make_plan. destruct uses_rpc_export_probe; [|by intros f Hf].
  destruct (existsb _ _); [|by intros f Hf].
  eapply triple_bind; [apply prepare_all_triple; simpl; lia|intros ps]. by intros f Hf.
Qed.

Lemma keeps_probe_plan params plan n : (length params <= n)%nat -> keeps n (probe_plan params plan).
Proof.
  intros Hn. destruct plan; simpl; eauto with stages.
  - by apply keeps_probe_arguments. - by apply keeps_probe_prepared.
Qed.

Lemma keeps_convert_plan params plan i n :
  (i < length params)%nat -> (length params <= n)%nat -> plan_fits params plan ->
  keeps n (convert_plan params plan i).
Proof.
  intros Hi Hn Hfit. unfold convert_plan.
  destruct (lookup_lt_is_Some_2 params i Hi) as [t ->].
  destruct plan as [| |ps]; simpl in Hfit; [apply keeps_try_make; lia..|].
  destruct (lookup_lt_is_Some_2 ps i) as [p ->]; [lia|].
  destruct p; simpl; [apply keeps_try_make; lia|eauto with stages].
Qed.

(** A pack evaluated in any order yields one value per index. *)
Lemma eval_each_triple {X} n (is_ : list nat) (k : nat -> M X) (Q : nat -> X -> Prop) :
  (forall i, i ∈ is_ -> triple (arity_at_least n) (k i) (fun x f => arity_at_least n f /\ Q i x)
                          (fun _ => True)) ->
  triple (arity_at_least n) (eval_each is_ k)
    (fun m f => arity_at_least n f /\ forall i, i ∈ is_ -> exists x, m !! i = Some x /\ Q i x)
    (fun _ => True).
Proof.
  induction is_ as [|i is_ IH]; intros Hk; simpl.
  - intros f Hf. split; [done|]. by intros i Hi%elem_of_nil.
  - eapply triple_bind; [apply Hk; left|intros x]. intros f [Hf Hx].
    assert (triple (arity_at_least n) (eval_each is_ k)
      (fun m f => arity_at_least n f /\ forall i, i ∈ is_ -> exists x, m !! i = Some x /\ Q i x)
      (fun _ => True)) as Hrest by (apply IH; intros j Hj; apply Hk; by right).
    specialize (Hrest f Hf). unfold mbind, eff_bind.
    destruct (eval_each is_ k f) as [[m| | |] f']; try done.
    destruct Hrest as [Hf' Hm]. simpl. split; [done|]. intros j Hj.
    destruct (decide (i = j)) as [<-|Hne]; [rewrite lookup_insert_eq; eauto|].
    rewrite lookup_insert_ne by done. apply Hm. set_solver.
Qed.

Lemma omap_seq_total {X} (m : gmap nat X) (Q : nat -> X -> Prop) n : forall k,
  (forall i, (k <= i < k + n)%nat -> exists x, m !! i = Some x /\ Q i x) ->
  forall i, (i < n)%nat -> exists x, omap (fun i => m !! i) (seq k n) !! i = Some x /\ Q (k + i)%nat x.
Proof.
  induction n as [|n IH]; intros k Hk i Hi; [lia|]. simpl.
  destruct (Hk k) as (x & Hx & HQ); [lia|]. rewrite Hx.
  destruct i as [|i]; simpl; [rewrite Nat.add_0_r; eauto|].
  destruct (IH (S k)) with (i := i) as (y & Hy & HQy); [intros j Hj; apply Hk; lia|lia|].
  exists y. split; [done|]. by replace (k + S i)%nat with (S k + i)%nat by lia.
Qed.

Lemma eval_pack_triple {X} n l (k : nat -> M X) (Q : nat -> X -> Prop) :
  (forall i, (i < l)%nat -> triple (arity_at_least n) (k i)
     (fun x f => arity_at_least n f /\ Q i x) (fun _ => True)) ->
  triple (arity_at_least n) (eval_pack order l k)
    (fun xs f => arity_at_least n f /\ forall i, (i < l)%nat -> exists x, xs !! i = Some x /\ Q i x)
    (fun _ => True).
Proof.
  intros Hk. unfold eval_pack. eapply triple_bind.
  - apply (eval_each_triple n _ k Q). intros i Hi. apply Hk.
    rewrite (order_permutes l), elem_of_seq in Hi. lia.
  - intros m f [Hf Hm]. simpl. split; [done|]. apply (omap_seq_total m Q l 0).
    intros i Hi. apply Hm. rewrite (order_permutes l), elem_of_seq. lia.
Qed.

Lemma all_optionals_lookup (converted : list (option N)) i o :
  all_optionals converted = true -> converted !! i = Some o -> is_Some o.
Proof.
  unfold all_optionals. rewrite forallb_forall. intros Ha Hi.
  specialize (Ha o). rewrite bool_decide_eq_true in Ha.
  apply Ha. apply list_elem_of_In. by eapply list_elem_of_lookup_2.
Qed.

Lemma accepted_triple converted n :
  triple (arity_at_least n) (accepted_export_arguments converted)
    (fun b f => arity_at_least n f /\ (b = true -> all_optionals converted = true)) (fun _ => True).
Proof.
  unfold accepted_export_arguments. destruct (all_optionals converted); [by intros f Hf|].
  destruct uses_rpc_export_probe; [|by intros f Hf].
  intros f Hf. unfold raise, DYNABRIDGE_RAISE. by destruct has_exceptions.
Qed.

(** The conversion half shared by every binder: converted arguments are engaged. *)
Definition engaged (params : list T) (converted : list (option N)) : Prop :=
  forall i, (i < length params)%nat -> exists n, converted !! i = Some (Some n).

Lemma keeps_get_arguments params converted n :
  engaged params converted ->
  keeps n (eval_pack order (length params) (get_argument params converted)).
Proof.
  intros He. eapply triple_weaken; [eapply (eval_pack_triple n _ _ (fun _ _ => True))| | |]; try done.
  - intros i Hi. destruct (He i Hi) as [v Hv]. unfold get_argument.
    destruct (lookup_lt_is_Some_2 params i Hi) as [t ->]. rewrite Hv.
    eapply triple_weaken; [apply keeps_on_world; apply get_defined| | |]; naive_solver.
  - naive_solver.
Qed.

Lemma converted_triple params plan n :
  (length params <= n)%nat -> plan_fits params plan ->
  triple (arity_at_least n) (eval_pack order (length params) (convert_plan params plan))
    (fun xs f => arity_at_least n f /\ forall i, (i < length params)%nat -> is_Some (xs !! i))
    (fun _ => True).
Proof.
  intros Hn Hfit. eapply triple_weaken; [eapply (eval_pack_triple n _ _ (fun _ _ => True))| | |]; try done.
  - intros i Hi. eapply triple_weaken; [by apply keeps_convert_plan| | |]; naive_solver.
  - intros xs f [Hf Hx]. split; [done|]. intros i Hi. destruct (Hx i Hi) as (x & -> & _). eauto.
Qed.

(** Converting and testing: what follows a successful test may dereference. *)
Lemma convert_then_keeps {X} params plan n (k : bool -> list (option N) -> M X) :
  (length params <= n)%nat -> plan_fits params plan ->
  (forall xs, engaged params xs -> keeps n (k true xs)) -> (forall xs, keeps n (k false xs)) ->
  keeps n (eval_pack order (length params) (convert_plan params plan) ≫= fun xs =>
           accepted_export_arguments xs ≫= fun b => k b xs).
Proof.
  intros Hn Hfit Htrue Hfalse.
  eapply triple_bind; [by apply converted_triple|intros xs].
  intros f [Hf Hlen].
  assert (triple (fun f => arity_at_least n f /\ forall i, (i < length params)%nat -> is_Some (xs !! i))
            (accepted_export_arguments xs ≫= fun b => k b xs)
            (fun _ => arity_at_least n) (fun _ => True)) as Ht; [|exact (Ht f (conj Hf Hlen))].
  eapply triple_bind with (R := fun b f => arity_at_least n f /\
     (forall i, (i < length params)%nat -> is_Some (xs !! i)) /\ (b = true -> all_optionals xs = true)).
  - intros g [Hg Hl]. pose proof (accepted_triple xs n g Hg) as Ha.
    destruct (accepted_export_arguments xs g) as [[] ?]; try done. by destruct Ha.
  - intros []; [|intros g (Hg & _); by apply Hfalse].
    intros g (Hg & Hl & Ha). apply Htrue; [|done]. intros i Hi.
    destruct (Hl i Hi) as [o Ho]. destruct (all_optionals_lookup xs i o (Ha eq_refl) Ho) as [v ->]. eauto.
Qed.

Context (callable : target (T := T) (A := A) (R := R) (W := W)) (callable_defined : forall c args w, (callable c args w).1 ≠ Undefined).

Lemma keeps_call_impl c plan n :
  (callable_arity c <= n)%nat -> plan_fits (parameters c) plan ->
  keeps n (call_impl order callable c plan).
Proof.
  intros Hn Hfit. unfold call_impl, callable_arity in *.
  apply (convert_then_keeps (parameters c) plan n (fun b xs => if (b : bool) then _ else _)); try done;
    [|intros; apply keeps_ret].
  intros xs He. apply keeps_bind; [by apply keeps_get_arguments|intros args].
  apply keeps_bind; [by eauto with stages|intros r]. destruct (result_type c); eauto 8 with stages.
Qed.

Lemma keeps_candidate c n :
  (callable_arity c <= n)%nat -> keeps n (candidate_call_optional order callable c).
Proof.
  intros Hn. unfold candidate_call_optional.
  eapply triple_bind; [by apply make_plan_triple|intros plan]. intros f [Hf Hfit].
  assert (keeps n (accepted ← probe_plan (parameters c) plan;
            if (accepted : bool) then call_impl order callable c plan else mret None)) as Hk; [|by apply Hk].
  apply keeps_bind; [by apply keeps_probe_plan|intros []]; [by apply keeps_call_impl|apply keeps_ret].
Qed.

Lemma keeps_overload cs argc sa n :
  (argc <= n)%nat -> keeps n (overload_call_optional order cs callable argc sa).
Proof.
  intros Hn. induction cs as [|c cs IH]; simpl; [apply keeps_ret|].
  destruct (is_unmatched_free_callable c); [done|]. destruct (can_access sa c); [|done].
  destruct (Nat.eqb_spec argc (callable_arity c)); [|done].
  apply keeps_bind; [apply keeps_candidate; lia|intros []]; [apply keeps_ret|done].
Qed.

(** C24: dispatch is memory safe: when the accessor offers the [argc] arguments it
    announces, no candidate reads an argument that is not there, dereferences an
    optional that is not engaged, or uses a prepared handle it did not prepare, in
    either probing mode, whatever order the compiler evaluates arguments in and
    whatever the converters answer. *)
Theorem dispatch_safe cs argc sa f :
  (argc <= length (slots f))%nat ->
  safe (overload_call_optional order cs callable argc sa) f /\
  safe (overload_call order cs callable argc sa) f.
Proof.
  intros Hn. assert (keeps argc (overload_call_optional order cs callable argc sa)) as Hk
    by by apply keeps_overload.
  assert (keeps argc (overload_call order cs callable argc sa)) as Hk'.
  { apply keeps_bind; [done|intros []]; [apply keeps_ret|apply keeps_raise]. }
  specialize (Hk f Hn). specialize (Hk' f Hn). unfold safe. split.
  - by destruct (overload_call_optional order cs callable argc sa f) as [[] ?].
  - by destruct (overload_call order cs callable argc sa f) as [[] ?].
Qed.
End Safety.

(** ** Transactional dispatch *)

Section Transactional.
Context {T D N A R W : Type} `{ErrorPolicy} {B : ExportBackend T D N A R W}.
Context (order : nat -> list nat) (callable : target (T := T) (A := A) (R := R) (W := W)).
Implicit Types (f : frame D W) (c : contract T).

(** A backend that opts in promises probes without effect. *)
Context (opted : uses_rpc_export_probe = true) (accepts : T -> D -> bool)
  (probe_pure : forall t d w, argument_probe t d w = (Ok (accepts t d), w)).

Fixpoint accepts_all (args : list T) (ds : list D) : bool :=
  match args, ds with
  | [], _ => true
  | t :: args, d :: ds => accepts t d && accepts_all args ds
  | _ :: _, [] => false
  end.

Definition scalar_only (c : contract T) : bool := negb (existsb is_bridge_descriptor (parameters c)).

(** What it takes for a candidate to be the one that is called. *)
Definition viable (argc : nat) (sa : option nat) f c : bool :=
  negb (is_unmatched_free_callable c) && can_access sa c && Nat.eqb argc (callable_arity c)
  && accepts_all (parameters c) (slots f).

Lemma probe_run args : forall i f,
  (i + length args <= length (slots f))%nat ->
  probe_export_arguments_from i args f = (Ok (accepts_all args (drop i (slots f))), f).
Proof.
  induction args as [|t args IH]; intros i f Hl; simpl in *; [done|].
  destruct (lookup_lt_is_Some_2 (slots f) i) as [d Hd]; [lia|].
  rewrite (eff_bind_run _ _ _ _ _ (get_slot_run _ _ _ Hd)), (drop_S _ _ _ Hd).
  rewrite (eff_bind_run _ _ _ _ _ (on_world_run _ _ _ _ (probe_pure t d (world f)))).
  destruct f as [sl w]. destruct (accepts t d); simpl; [|done]. by rewrite IH by (simpl in *; lia).
Qed.

(** After the probes a candidate either produces a result or raises: it never hands
    over to the next one. *)
Lemma call_impl_commits c plan f f' : call_impl order callable c plan f ≠ (Ok None, f').
Proof.
  unfold call_impl. intros (xs & f1 & _ & Hb)%eff_bind_Ok.
  apply eff_bind_Ok in Hb as ([] & f2 & Ha & Hb).
  - apply eff_bind_Ok in Hb as (args & f3 & _ & Hb). apply eff_bind_Ok in Hb as (r & f4 & _ & Hb).
    by destruct (result_type c); apply eff_bind_Ok in Hb as (d & f5 & _ & [=]).
  - unfold accepted_export_arguments in Ha. rewrite opted in Ha.
    destruct (all_optionals xs); [done|]. unfold raise, DYNABRIDGE_RAISE in Ha.
    by destruct has_exceptions.
Qed.

Lemma candidate_scalar_run c f :
  scalar_only c = true -> (callable_arity c <= length (slots f))%nat ->
  candidate_call_optional order callable c f =
    if accepts_all (parameters c) (slots f) then call_impl order callable c ScalarOnly f
    else (Ok None, f).
Proof.
  unfold scalar_only, candidate_call_optional, make_plan. rewrite negb_true_iff, opted.
  intros Hs Hl. rewrite Hs. unfold mbind at 1, eff_bind at 1, mret, eff_ret. simpl.
  unfold probe_export_arguments.
  rewrite (eff_bind_run _ _ _ _ _ (probe_run (parameters c) 0 f Hl)).
  by destruct (accepts_all _ _).
Qed.

Lemma dispatch_scalar cs argc sa f :
  Forall (fun c => scalar_only c = true) cs -> (argc <= length (slots f))%nat ->
  overload_call_optional order cs callable argc sa f =
    match find (viable argc sa f) cs with
    | Some c => call_impl order callable c ScalarOnly f
    | None => (Ok None, f)
    end.
Proof.
  intros Hs Hn. induction Hs as [|c cs Hc _ IH]; [done|]. simpl.
  unfold viable at 1. destruct (is_unmatched_free_callable c); simpl; [done|].
  destruct (can_access sa c); simpl; [|done].
  destruct (Nat.eqb_spec argc (callable_arity c)) as [->|]; simpl; [|done].
  unfold mbind at 1, eff_bind at 1. rewrite (candidate_scalar_run c f Hc Hn).
  destruct (accepts_all (parameters c) (slots f)); [|done].
  destruct (call_impl order callable c ScalarOnly f) as [[[d|]| | |] f'] eqn:E; try done.
  by apply call_impl_commits in E.
Qed.

(** C5: for signatures of scalar parameters, dispatch on an opted-in backend is the
    first-match search: it probes, without effect, until the first declared
    signature of the right arity whose parameters all accept their arguments, and
    commits to that one, which then runs on the arguments and the world untouched;
    when there is none, nothing has changed. *)
Theorem dispatch_first_match cs argc sa f :
  Forall (fun c => scalar_only c = true) cs -> (argc <= length (slots f))%nat ->
  overload_call_optional order cs callable argc sa f =
    match find (viable argc sa f) cs with
    | Some c => call_impl order callable c ScalarOnly f
    | None => (Ok None, f)
    end.
Proof. apply dispatch_scalar. Qed.

(** Preparing descriptors reads the arguments and never writes them. *)
Lemma prepare_all_slots args : forall i f r f', prepare_all i args f = (r, f') -> slots f' = slots f.
Proof.
  induction args as [|t args IH]; intros i f r f' Hp; simpl in Hp.
  { by inversion Hp. }
  unfold mbind, eff_bind, plan_prepare in Hp. destruct (is_bridge_descriptor t).
  - unfold mbind, eff_bind, get_slot, on_world in Hp.
    destruct (slots f !! i); [|by inversion Hp].
    destruct (argument_prepare t _ _) as [[v| | |] w]; [|by inversion Hp..]. simpl in Hp.
    destruct (prepare_all (S i) args _) as [r1 f1] eqn:E. apply IH in E.
    destruct r1; inversion Hp; by subst.
  - unfold mret, eff_ret in Hp. destruct (prepare_all (S i) args f) as [r1 f1] eqn:E. apply IH in E.
    destruct r1; inversion Hp; by subst.
Qed.

Lemma probe_prepared_frame args : forall i ps f b f',
  probe_prepared i args ps f = (Ok b, f') -> f' = f.
Proof.
  induction args as [|t args IH]; intros i [|p ps] f b f' Hp; simpl in Hp; try by inversion Hp.
  apply eff_bind_Ok in Hp as (a & f1 & Hq & Hp).
  assert (f1 = f) as ->.
  { destruct p as [|v]; simpl in Hq; [|by inversion Hq].
    apply eff_bind_Ok in Hq as (d & f2 & Hg & Hq). unfold get_slot in Hg.
    destruct (slots f !! i); [|done]. inversion Hg; subst.
    unfold on_world in Hq. rewrite probe_pure in Hq. inversion Hq. by destruct f2. }
  destruct a; [by eapply IH|by inversion Hp].
Qed.

Lemma probe_frame args : forall i f b f',
  probe_export_arguments_from i args f = (Ok b, f') -> f' = f.
Proof.
  induction args as [|t args IH]; intros i f b f' Hq; simpl in Hq; [by inversion Hq|].
  apply eff_bind_Ok in Hq as (d & f1 & Hg & Hq). unfold get_slot in Hg.
  destruct (slots f !! i); [|done]. inversion Hg; subst.
  apply eff_bind_Ok in Hq as (a & f2 & Hp & Hq). unfold on_world in Hp.
  rewrite probe_pure in Hp. inversion Hp; subst. destruct f1 as [sl w].
  destruct (accepts t d); [by eapply IH|by inversion Hq].
Qed.

Lemma candidate_rejection c f f' :
  candidate_call_optional order callable c f = (Ok None, f') -> slots f' = slots f.
Proof.
  unfold candidate_call_optional. intros (plan & f1 & Hp & Hb)%eff_bind_Ok.
  apply eff_bind_Ok in Hb as (a & f2 & Hq & Hb).
  destruct a; [by apply call_impl_commits in Hb|]. inversion Hb; subst.
  unfold make_plan in Hp. rewrite opted in Hp. destruct (existsb _ _).
  - apply eff_bind_Ok in Hp as (ps & f3 & Hps & [= <- <-]).
    apply probe_prepared_frame in Hq as ->. by eapply prepare_all_slots.
  - inversion Hp; subst. simpl in Hq. unfold probe_export_arguments in Hq.
    by apply probe_frame in Hq as ->.
Qed.

(** An overload call nobody accepts consumes none of the caller's arguments, even
    when signatures take objects or callables whose preparation runs foreign code,
    and even when an earlier candidate had accepted some of the arguments. *)
Theorem unmatched_dispatch_keeps_arguments cs argc sa f f' :
  overload_call_optional order cs callable argc sa f = (Ok None, f') -> slots f' = slots f.
Proof.
  revert f. induction cs as [|c cs IH]; intros f Hd; simpl in Hd; [by inversion Hd|].
  destruct (is_unmatched_free_callable c); [by apply IH|].
  destruct (can_access sa c); [|by apply IH].
  destruct (argc =? callable_arity c)%nat; [|by apply IH].
  apply eff_bind_Ok in Hd as ([d|] & f1 & Hc & Hd); [done|].
  rewrite <- (candidate_rejection _ _ _ Hc). by apply IH.
Qed.
End Transactional.

(** ** Lawful converters: an accepted candidate runs to its call *)

Section Lawful.
Context {T D N A R W : Type} `{ErrorPolicy} {B : ExportBackend T D N A R W}.
Context (order : nat -> list nat) (order_permutes : forall n, Permutation (order n) (seq 0 n)).
Context (callable : target (T := T) (A := A) (R := R) (W := W)).
Implicit Types (f : frame D W) (c : contract T).

(** The law between probe and conversion ([ConverterLaws.probe_from] for the RPC
    converters): what was accepted converts, whatever happened in between. *)
Context (accepts : T -> D -> bool)
  (accepted_converts : forall t d w o d' w',
     accepts t d = true -> argument_try_make t d w = (Ok (o, d'), w') -> is_Some o).

(** The candidate without its rejection branches. *)
Definition commit (c : contract T) : eff (frame D W) (option D) :=
  converted ← eval_pack order (callable_arity c) (convert_plan (parameters c) ScalarOnly);
  args ← eval_pack order (callable_arity c) (get_argument (parameters c) converted);
  r ← on_world (callable c args);
  match result_type c with
  | Some t => d ← on_world (to_export_result t r); mret (Some d)
  | None => d ← on_world undefined_value; mret (Some d)
  end.

Definition accepted_slot (params : list T) f (i : nat) : Prop :=
  exists t d, params !! i = Some t /\ slots f !! i = Some d /\ accepts t d = true.

Lemma accepts_all_slot params : forall ds i t,
  accepts_all accepts params ds = true -> params !! i = Some t ->
  exists d, ds !! i = Some d /\ accepts t d = true.
Proof.
  induction params as [|u params IH]; intros [|d ds] [|i] t Ha Hi; simplify_eq/=.
  - apply andb_true_iff in Ha as [Ha _]. eauto.
  - apply andb_true_iff in Ha as [_ Ha]. by apply IH.
Qed.

Lemma convert_accepted params i f o f' :
  accepted_slot params f i -> convert_plan params ScalarOnly i f = (Ok o, f') ->
  is_Some o /\ forall j, j ≠ i -> slots f' !! j = slots f !! j.
Proof.
  intros (t & d & Ht & Hd & Ha). unfold convert_plan, try_make. rewrite Ht.
  rewrite (eff_bind_run _ _ _ _ _ (get_slot_run _ _ _ Hd)). unfold mbind, eff_bind, on_world.
  destruct (argument_try_make t d (world f)) as [[[v d']| | |] w] eqn:E; try done.
  simpl. intros [= <- <-]. simpl. split; [by eapply accepted_converts|].
  intros j Hj. by rewrite list_lookup_insert_ne.
Qed.

Lemma eval_each_accepted params is_ : forall f m f',
  NoDup is_ -> (forall i, i ∈ is_ -> accepted_slot params f i) ->
  eval_each is_ (convert_plan params ScalarOnly) f = (Ok m, f') ->
  forall i o, m !! i = Some o -> is_Some o.
Proof.
  induction is_ as [|i is_ IH]; intros f m f' Hnd Hacc He; simpl in He; [by inversion He|].
  apply NoDup_cons in Hnd as [Hni Hnd].
  apply eff_bind_Ok in He as (o & f1 & Hc & He).
  apply convert_accepted in Hc as [Ho Hslots]; [|apply Hacc; left].
  apply eff_bind_Ok in He as (m' & f2 & He & [= <- <-]).
  intros j oj. destruct (decide (i = j)) as [<-|Hij]; [by rewrite lookup_insert_eq; intros [= <-]|].
  rewrite lookup_insert_ne by done. eapply IH; [done| |done].
  intros k Hk. destruct (Hacc k) as (t & d & Ht & Hd & Ha); [by right|].
  exists t, d. rewrite Hslots; [done|]. set_solver.
Qed.

Lemma eval_pack_accepted params f xs f' :
  accepts_all accepts params (slots f) = true ->
  eval_pack order (length params) (convert_plan params ScalarOnly) f = (Ok xs, f') ->
  all_optionals xs = true.
Proof.
  intros Ha (m & f1 & He & [= <- <-])%eff_bind_Ok.
  apply forallb_forall. intros o Ho%list_elem_of_In. apply bool_decide_eq_true.
  apply list_elem_of_omap in Ho as (i & _ & Hi).
  eapply eval_each_accepted; [| |exact He|exact Hi].
  - rewrite order_permutes. apply NoDup_seq.
  - intros j Hj. rewrite order_permutes, elem_of_seq in Hj.
    destruct (lookup_lt_is_Some_2 params j) as [t Ht]; [lia|].
    destruct (accepts_all_slot _ _ _ _ Ha Ht) as (d & Hd & Hacc). by exists t, d.
Qed.

Lemma call_commits c f :
  accepts_all accepts (parameters c) (slots f) = true ->
  call_impl order callable c ScalarOnly f = commit c f.
Proof.
  intros Ha. apply eff_bind_cong. intros xs f' E.
  unfold accepted_export_arguments. by rewrite (eval_pack_accepted _ _ _ _ Ha E).
Qed.

(** With converters that convert what they accept, a candidate whose probes
    accepted is never rejected afterwards: in whatever order its arguments are
    converted, every conversion sees the argument that was probed, and the candidate
    runs to its call, with no retry on another overload and no conversion error. *)
Theorem accepted_candidate_commits c f :
  accepts_all accepts (parameters c) (slots f) = true ->
  call_impl order callable c ScalarOnly f = commit c f.
Proof. apply call_commits. Qed.
End Lawful.

(** ** Binders against dispatch *)

Section Binders.
Context {T D N A R W : Type} `{ErrorPolicy} {B : ExportBackend T D N A R W}.
Context (order : nat -> list nat) (callable : target (T := T) (A := A) (R := R) (W := W)).

(** An unmatched call turned into the binder's error. *)
Definition or_raise (message : text) (m : eff W (option D)) : eff W (option D) := fun w =>
  match m w with
  | (Ok None, w') => (DYNABRIDGE_RAISE (bad_conversion message), w')
  | r => r
  end.

(** The two faces of a bound signature agree: calling it with the declared number
    of arguments is the optional call, with the mismatch turned into bad_conversion;
    effects, exceptions and results are the same. With any other number of arguments
    the operator does not exist and the optional call is a mismatch without effect. *)
Theorem callable_binder_agrees c t args w :
  is_unmatched_free_callable c = false -> result_type c = Some t ->
  match export_callable_binder_call order c callable args with
  | Some m => m w = or_raise (lit "dynabridge export argument conversion failed")
                      (export_callable_binder_call_optional order c callable args) w
  | None => export_callable_binder_call_optional order c callable args w = (Ok None, w)
  end.
Proof.
  intros Hu Ht. unfold export_callable_binder_call, export_callable_binder_call_optional, or_raise.
  unfold with_tuple. simpl. rewrite Hu. unfold can_access.
  destruct (Nat.eqb_spec (length args) (callable_arity c)) as [Hn|Hn].
  - rewrite <- Hn, Nat.leb_refl. unfold invoke_converted, candidate_call_optional, call_impl.
    unfold callable_arity in *. rewrite <- Hn, Ht.
    unfold mbind, eff_bind, mret, eff_ret, raise, on_world, DYNABRIDGE_RAISE.
    crush_matches.
  - by destruct (Nat.leb _ _).
Qed.
End Binders.

(** ** Packs that only read *)

Section Packs.
Context {D W X : Type} (order : nat -> list nat) (order_permutes : forall n, Permutation (order n) (seq 0 n)).
(** What the frame keeps while the elements are evaluated. *)
Context (keeps : frame D W -> Prop).
Implicit Types (k : nat -> eff (frame D W) X).

Lemma omap_seq_values (m : gmap nat X) (l : list X) : forall i0,
  (forall i, (i < length l)%nat -> m !! (i0 + i)%nat = l !! i) ->
  omap (fun i => m !! i) (seq i0 (length l)) = l.
Proof.
  induction l as [|x l IH]; intros i0 Hm; [done|]. simpl.
  pose proof (Hm 0%nat) as H0. rewrite Nat.add_0_r in H0. rewrite H0 by (simpl; lia). simpl. f_equal.
  apply IH. intros i Hi. pose proof (Hm (S i)) as HS. simpl in HS. rewrite <- HS by lia.
  f_equal. lia.
Qed.

Lemma eval_each_reads (is_ : list nat) k (l : list X) : forall g,
  (forall i g, i ∈ is_ -> keeps g -> exists x g', l !! i = Some x /\ k i g = (Ok x, g') /\ keeps g') -> keeps g ->
  exists m g', eval_each is_ k g = (Ok m, g') /\ keeps g' /\ forall i, i ∈ is_ -> m !! i = l !! i.
Proof.
  induction is_ as [|i is_ IH]; intros g Hk Hg; simpl; [exists ∅, g; split_and!; [done|done|set_solver]|].
  destruct (Hk i g ltac:(left) Hg) as (x & g1 & Hx & Hrun & Hg1).
  destruct (IH g1) as (m & g2 & Hm & Hg2 & Hval); [intros j g' Hj; apply Hk; by right|done|].
  rewrite (eff_bind_run _ _ _ _ _ Hrun), (eff_bind_run _ _ _ _ _ Hm).
  exists (<[i := x]> m), g2. split_and!; [done|done|]. intros j Hj.
  destruct (decide (i = j)) as [<-|]; [by rewrite lookup_insert_eq|].
  rewrite lookup_insert_ne by done. apply Hval. set_solver.
Qed.

(** A pack whose elements read has their values, in whatever order. *)
Lemma eval_pack_reads k (l : list X) g :
  (forall i x g, l !! i = Some x -> keeps g -> exists g', k i g = (Ok x, g') /\ keeps g') -> keeps g ->
  exists g', eval_pack order (length l) k g = (Ok l, g') /\ keeps g'.
Proof.
  intros Hk Hg. destruct (eval_each_reads (order (length l)) k l g) as (m & g' & Hm & Hg' & Hval); [|done|].
  { intros i h. rewrite order_permutes, elem_of_seq. intros Hi Hh.
    destruct (lookup_lt_is_Some_2 l i) as [x Hx]; [lia|]. destruct (Hk i x h Hx Hh) as (h' & ? & ?). by exists x, h'. }
  exists g'. split; [|done]. unfold eval_pack. rewrite (eff_bind_run _ _ _ _ _ Hm). unfold mret, eff_ret. f_equal. f_equal.
  apply omap_seq_values. intros i Hi. apply Hval. rewrite order_permutes, elem_of_seq. lia.
Qed.
End Packs.

(** ** A concrete backend

    Integers, strings (whose conversion takes the text out of the argument) and
    objects (whose preparation runs foreign code, logged in the world). *)
Module Sample.
Inductive type := TInt | TText | TObject.
Inductive dyn := DInt (z : Z) | DText (s : text) | DObject (id : Z).

Definition accepts (t : type) (d : dyn) : bool :=
  match t, d with TInt, DInt _ | TText, DText _ | TObject, DObject _ => true | _, _ => false end.

#[global] Instance backend : ExportBackend type dyn dyn dyn dyn (list Z) := {|
  uses_rpc_export_probe := true;
  is_bridge_descriptor t := match t with TObject => true | _ => false end;
  argument_probe t d := mret (accepts t d);
  argument_try_make t d := mret (match t, d with
    | TInt, DInt z => (Some (DInt z), d)
    | TText, DText s => (Some (DText s), DText [])
    | TObject, DObject id => (Some (DObject id), d)
    | _, _ => (None, d)
    end);
  argument_prepare t d w := (Ok (if accepts t d then Some d else None), 1 :: w);
  argument_get t n := mret n;
  to_export_result t r := mret r;
  undefined_value := mret (DInt 0)
|}.

#[global] Instance exceptions : ErrorPolicy := {| has_exceptions := true |}.

(** Arguments evaluated from right to left. *)
Definition order (n : nat) : list nat := rev (seq 0 n).
Lemma order_permutes n : Permutation (order n) (seq 0 n).
Proof. symmetry. apply Permutation_rev. Qed.

(** The callable logs the call and returns its first argument. *)
Definition callable : target (T := type) (A := dyn) (R := dyn) (W := list Z) :=
  fun c args w => (Ok (default (DInt 0) (head args)), 2 :: w).

Definition f_int_text : contract type := mk_contract (Some TInt) [TInt; TText] false.
Definition f_text_int : contract type := mk_contract (Some TText) [TText; TInt] false.
Definition f_text_object : contract type := mk_contract None [TText; TObject] false.
Definition call_frame : frame dyn (list Z) := mk_frame [DText (lit "a"); DInt 7] [].

Lemma backend_defined : BackendDefined (B := backend).
Proof. by split. Qed.
End Sample.

Lemma dispatch_safe_witness :
  safe (overload_call_optional Sample.order [Sample.f_int_text; Sample.f_text_int]
          Sample.callable 2 (Some 2%nat)) Sample.call_frame /\
  overload_call_optional Sample.order [Sample.f_int_text; Sample.f_text_int]
          Sample.callable 2 (Some 2%nat) Sample.call_frame
    = (Ok (Some (Sample.DText (lit "a"))), mk_frame [Sample.DText []; Sample.DInt 7] [2]).
Proof.
  split; [|by vm_compute].
  apply (dispatch_safe (BD := Sample.backend_defined) Sample.order Sample.order_permutes
           Sample.callable); [done|]. simpl. lia.
Defined.

Lemma dispatch_first_match_witness :
  overload_call_optional Sample.order [Sample.f_int_text; Sample.f_text_int]
    Sample.callable 2 None Sample.call_frame
  = call_impl Sample.order Sample.callable Sample.f_text_int ScalarOnly Sample.call_frame.
Proof.
  apply (dispatch_first_match (B := Sample.backend) Sample.order Sample.callable eq_refl Sample.accepts
           (fun t d w => eq_refl)
           [Sample.f_int_text; Sample.f_text_int] 2 None Sample.call_frame).
  - by repeat constructor. - simpl. lia.
Defined.

Lemma unmatched_dispatch_keeps_arguments_witness :
  slots (mk_frame [Sample.DText (lit "a"); Sample.DInt 7] [1]) = slots Sample.call_frame.
Proof.
  apply (unmatched_dispatch_keeps_arguments (B := Sample.backend) Sample.order Sample.callable eq_refl Sample.accepts
           (fun t d w => eq_refl) [Sample.f_text_object] 2 None).
  by vm_compute.
Defined.

Lemma accepted_candidate_commits_witness :
  call_impl Sample.order Sample.callable Sample.f_text_int ScalarOnly Sample.call_frame
  = commit Sample.order Sample.callable Sample.f_text_int Sample.call_frame.
Proof.
  apply (accepted_candidate_commits (B := Sample.backend) Sample.order Sample.order_permutes Sample.callable Sample.accepts).
  - intros [] [] w o d' w' Ha Hc; try done; by inversion Hc.
  - done.
Defined.

Lemma callable_binder_agrees_witness :
  or_raise (lit "dynabridge export argument conversion failed")
    (export_callable_binder_call_optional Sample.order Sample.f_int_text Sample.callable
       [Sample.DText []; Sample.DInt 1]) []
  = (Throw (bad_conversion (lit "dynabridge export argument conversion failed")), []).
Proof.
  pose proof (callable_binder_agrees (B := Sample.backend) Sample.order Sample.callable Sample.f_int_text Sample.TInt
                [Sample.DText []; Sample.DInt 1] [] eq_refl eq_refl) as Hb.
  simpl in Hb. rewrite <- Hb. by vm_compute.
Defined.
