(* ===== verification/DirectDispatch.v ===== *)
(** * export_callable.h: dispatch over a backend that converts at once

    A backend without [rpc_export_probe_policy] (Node-API, CPython) has no probing phase: a
    candidate converts all its arguments, and is passed over when one does not convert. When
    the conversions only read ([Reads]), dispatch is the search for the first signature
    whose parameters all read the arguments, whatever the order of evaluation. *)

From Stdlib Require Import ZArith Lia.
From stdpp Require Import base list gmap.
From S2P Require Import Prelude ExportDispatch.

(** Types with a converter on both such backends, and the objects of exported classes;
    C++ values of these types, an object by its address. *)
Inductive param := PInt | PUnsigned | PString | PObject (c : nat).
Inductive cpp_value := AInt (z : Z) | AUnsigned (z : Z) | AString (t : text) | AObject (p : nat).
#[export] Instance param_eq_dec : EqDecision param.
Proof. solve_decision. Defined.

Section Direct.
Context {T D N A R W : Type} `{ErrorPolicy} {B : ExportBackend T D N A R W}.
Context (order : nat -> list nat) (order_permutes : forall n, Permutation (order n) (seq 0 n)).

(** While [keeps] holds of the world, the conversions of the dynamic values [ds] to [readable]
    types read them: [reads] is what a conversion to a type yields, [value_of] the C++
    argument made of it. *)
Class Reads (readable : T -> Prop) (reads : T -> D -> option N) (value_of : T -> N -> A) (ds : list D)
    (keeps : W -> Prop) : Prop := {
  reads_direct : uses_rpc_export_probe = false;
  reads_make t d w : readable t -> d ∈ ds -> keeps w ->
    exists w', argument_try_make t d w = (Ok (reads t d, d), w') /\ keeps w';
  reads_get t d n w : readable t -> d ∈ ds -> reads t d = Some n -> keeps w ->
    exists w', argument_get t n w = (Ok (value_of t n), w') /\ keeps w'
}.

Section Choice.
Context (reads : T -> D -> option N) (value_of : T -> N -> A).

(** What the parameters read of the arguments. *)
Fixpoint arguments (params : list T) (ds : list D) : option (list A) :=
  match params, ds with
  | [], _ => Some []
  | t :: params, d :: ds => n ← reads t d; args ← arguments params ds; Some (value_of t n :: args)
  | _ :: _, [] => None
  end.

(** The first signature that takes the arguments, with what it takes. *)
Fixpoint chosen (argc : nat) (sa : option nat) (ds : list D) (cs : list (contract T)) : option (contract T * list A) :=
  match cs with
  | [] => None
  | c :: cs =>
      if negb (is_unmatched_free_callable c) && can_access sa c && (argc =? callable_arity c)%nat then
        match arguments (parameters c) ds with
        | Some args => Some (c, args)
        | None => chosen argc sa ds cs
        end
      else chosen argc sa ds cs
  end.

(** The conversions of a candidate, one by one. *)
Fixpoint converted (params : list T) (ds : list D) : list (option N) :=
  match params, ds with
  | t :: params, d :: ds => reads t d :: converted params ds
  | _, _ => []
  end.

Lemma converted_lookup params : forall ds i o,
  converted params ds !! i = Some o -> exists t d, params !! i = Some t /\ ds !! i = Some d /\ o = reads t d.
Proof.
  induction params as [|t params IH]; intros [|d ds] [|i] o Hi; simplify_eq/=; [by eauto|by apply IH].
Qed.
Lemma lookup_converted params : forall ds i t d,
  params !! i = Some t -> ds !! i = Some d -> converted params ds !! i = Some (reads t d).
Proof.
  induction params as [|u params IH]; intros [|e ds] [|i] t d Ht Hd; simplify_eq/=; [done|by apply IH].
Qed.
Lemma converted_length params : forall ds, (length params <= length ds)%nat -> length (converted params ds) = length params.
Proof. induction params as [|t params IH]; intros [|d ds] Hl; simpl in *; try done; [lia|]. f_equal. apply IH. lia. Qed.

Lemma arguments_converted params : forall ds,
  (length params <= length ds)%nat ->
  all_optionals (converted params ds) = bool_decide (is_Some (arguments params ds)).
Proof.
  induction params as [|t params IH]; intros [|d ds] Hl; simpl in *; try done; [lia|].
  unfold all_optionals in *. simpl. rewrite IH by lia.
  destruct (reads t d); [|done]. simpl. by destruct (arguments params ds).
Qed.

Lemma arguments_lookup params : forall ds args i x,
  arguments params ds = Some args -> args !! i = Some x ->
  exists t d n, params !! i = Some t /\ ds !! i = Some d /\ reads t d = Some n /\ x = value_of t n.
Proof.
  induction params as [|t params IH]; intros [|d ds] args i x Ha Hi; simplify_eq/=.
  destruct (reads t d) as [n|] eqn:Hn; [|done]. simpl in Ha.
  destruct (arguments params ds) as [rest|] eqn:Hr; [|done]. simplify_eq/=.
  destruct i as [|i]; simplify_eq/=; [by eauto 10|]. by eapply IH.
Qed.

Lemma arguments_app params : forall ds e,
  (length params <= length ds)%nat -> arguments params (ds ++ e) = arguments params ds.
Proof.
  induction params as [|t params IH]; intros [|d ds] e Hl; simpl in *; try done; [lia|].
  by rewrite IH by lia.
Qed.

Lemma arguments_length params : forall ds args, arguments params ds = Some args -> length args = length params.
Proof.
  induction params as [|t params IH]; intros [|d ds] args Ha; simplify_eq/=; try done.
  destruct (reads t d); [|done]. simpl in Ha. destruct (arguments params ds) as [rest|] eqn:Hr; [|done].
  simplify_eq/=. f_equal. by eapply IH.
Qed.
End Choice.

(** An operation on the world, seen from outside of the frame. *)
Lemma on_world_leaves {X} (m : eff W X) (g : frame D W) :
  (let '(r, g') := on_world m g in (r, world g')) = m (world g).
Proof. unfold on_world. by destruct (m (world g)). Qed.

(** The call of a candidate that was chosen, and the conversion of its result. *)
Definition answer (callable : target (T := T) (A := A) (R := R) (W := W)) (c : contract T) (args : list A) : eff W D :=
  r ← callable c args;
  match result_type c with
  | Some t => to_export_result t r
  | None => undefined_value
  end.

Section Run.
Context (callable : target (T := T) (A := A) (R := R) (W := W)).
Context {readable : T -> Prop} {reads : T -> D -> option N} {value_of : T -> N -> A} {ds : list D} {keeps : W -> Prop}.
Context `{HR : !Reads readable reads value_of ds keeps}.
Implicit Types (w : W).

(** What the frame keeps. *)
Definition reading (f : frame D W) : Prop := slots f = ds /\ keeps (world f).

Lemma convert_direct params i o f :
  Forall readable params -> converted reads params ds !! i = Some o -> reading f ->
  exists f', convert_plan params NonOpted i f = (Ok o, f') /\ reading f'.
Proof.
  intros Hr (t & d & Ht & Hd & ->)%converted_lookup [Hf Hw]. unfold convert_plan, try_make. rewrite Ht, <- Hf in *.
  destruct (reads_make t d (world f)) as (w' & Hm & Hw'); [by eapply Forall_lookup_1|by eapply list_elem_of_lookup_2|done|].
  exists (mk_frame (slots f) w'). split; [|done].
  rewrite (eff_bind_run _ _ _ _ _ (get_slot_run i f d Hd)). cbn beta.
  rewrite (eff_bind_run _ _ _ _ _ (on_world_run _ f _ _ Hm)).
  unfold set_slot, modify, mbind, eff_bind, mret, eff_ret. simpl. by rewrite list_insert_id.
Qed.

(** The conversions of any binder: all are made, and then the arguments are there or not. *)
Lemma convert_all {X} params (k : list (option N) -> eff (frame D W) X) f :
  Forall readable params -> (length params <= length ds)%nat -> reading f ->
  exists f', reading f' /\
    (eval_pack order (length params) (convert_plan params NonOpted) ≫= k) f = k (converted reads params ds) f'.
Proof.
  intros Hr Hl Hf.
  destruct (eval_pack_reads order order_permutes reading (convert_plan params NonOpted) (converted reads params ds) f)
    as (f' & Hp & Hf'); [intros i o g Hi; by apply convert_direct|done|].
  rewrite converted_length in Hp by done. exists f'. split; [done|]. by apply eff_bind_run.
Qed.

Lemma get_all {X} params args (k : list A -> eff (frame D W) X) f :
  Forall readable params -> arguments reads value_of params ds = Some args -> reading f ->
  exists f', reading f' /\
    (eval_pack order (length params) (get_argument params (converted reads params ds)) ≫= k) f = k args f'.
Proof.
  intros Hr Ha Hf.
  destruct (eval_pack_reads order order_permutes reading (get_argument params (converted reads params ds)) args f)
    as (f' & Hp & Hf'); [|done|].
  - intros i x g Hi [Hg Hw]. destruct (arguments_lookup _ _ _ _ _ _ _ Ha Hi) as (t & d & n & Ht & Hd & Hn & ->).
    destruct (reads_get t d n (world g)) as (w' & Hget & Hw');
      [by eapply Forall_lookup_1|by eapply list_elem_of_lookup_2|done|done|].
    exists (mk_frame (slots g) w'). split; [|done]. unfold get_argument. rewrite Ht.
    rewrite (lookup_converted reads _ _ _ _ _ Ht Hd), Hn. by apply on_world_run.
  - rewrite (arguments_length _ _ _ _ _ Ha) in Hp. exists f'. split; [done|]. by apply eff_bind_run.
Qed.

Lemma accepted_direct {X} (c : list (option N)) (k : bool -> eff (frame D W) X) g :
  (accepted_export_arguments c ≫= k) g = k (all_optionals c) g.
Proof.
  unfold accepted_export_arguments. rewrite (reads_direct (Reads := HR)). by destruct (all_optionals c).
Qed.

Lemma plan_direct {X} params (k : export_arguments_plan N -> eff (frame D W) X) g :
  (make_plan params ≫= k) g = k NonOpted g.
Proof. unfold make_plan. by rewrite (reads_direct (Reads := HR)). Qed.

(** The pack that is evaluated first, with what follows it. *)
Ltac with_pack tac :=
  lazymatch goal with |- context [(eval_pack _ _ _ ≫= ?k) ?g] => tac k g end.

Lemma candidate_direct c f :
  Forall readable (parameters c) -> (callable_arity c <= length ds)%nat -> reading f ->
  exists f', reading f' /\ candidate_call_optional order callable c f =
    match arguments reads value_of (parameters c) ds with
    | Some args => (d ← on_world (answer callable c args); mret (Some d)) f'
    | None => (Ok None, f')
    end.
Proof.
  intros Hr Hl Hf. unfold candidate_call_optional. rewrite plan_direct. unfold probe_plan.
  unfold mbind at 1, eff_bind at 1, mret at 1, eff_ret at 1. unfold call_impl, callable_arity in *.
  with_pack ltac:(fun k g => destruct (convert_all (parameters c) k g) as (f1 & Hf1 & ->)); [done..|].
  rewrite accepted_direct, (arguments_converted reads value_of) by done.
  destruct (arguments reads value_of (parameters c) ds) as [args|] eqn:Ha; [|by exists f1].
  rewrite bool_decide_eq_true_2 by done.
  with_pack ltac:(fun k g => destruct (get_all (parameters c) args k g) as (f2 & Hf2 & ->)); [done..|].
  exists f2. split; [done|].
  unfold answer, mbind, eff_bind, on_world, mret, eff_ret. destruct f2 as [sl w]. simpl.
  destruct (callable c args w) as [[r| | |] w']; try done. destruct (result_type c); simpl.
  - by destruct (to_export_result _ _ w') as [[] ?].
  - by destruct (undefined_value w') as [[] ?].
Qed.

(** Dispatch is the search for the first signature that takes the arguments. *)
Lemma dispatch_direct cs argc sa w :
  Forall (fun c => Forall readable (parameters c)) cs ->
  Forall (fun c => argc = callable_arity c -> (argc <= length ds)%nat) cs -> keeps w ->
  exists w', keeps w' /\ overload_call_optional order cs callable argc sa (mk_frame ds w) =
    match chosen reads value_of argc sa ds cs with
    | Some (c, args) => (d ← on_world (answer callable c args); mret (Some d)) (mk_frame ds w')
    | None => (Ok None, mk_frame ds w')
    end.
Proof.
  intros Hr Hl. revert w Hr. induction Hl as [|c cs Hl _ IH]; intros w Hr Hw; [by exists w|].
  apply Forall_cons in Hr as [Hc Hr]. simpl.
  destruct (is_unmatched_free_callable c); simpl; [by apply IH|]. destruct (can_access sa c); simpl; [|by apply IH].
  destruct (Nat.eqb_spec argc (callable_arity c)) as [->|]; [|by apply IH].
  unfold mbind at 1, eff_bind at 1.
  destruct (candidate_direct c (mk_frame ds w) Hc (Hl eq_refl)) as ([sl w1] & [Hsl Hw1] & ->); [done|].
  cbn [slots world] in *. subst sl.
  destruct (arguments reads value_of (parameters c) ds) as [args|]; [|by apply IH]. exists w1. split; [done|].
  unfold mbind, eff_bind, on_world, mret, eff_ret. simpl. by destruct (answer callable c args w1) as [[] ?].
Qed.

(** A binder of one signature calls what its parameters read, or refuses. *)
Lemma invoke_converted_direct {X} message params (call : list A -> eff W X) w :
  Forall readable params -> (length params <= length ds)%nat -> keeps w ->
  exists w', keeps w' /\ invoke_converted order message params call (mk_frame ds w) =
    match arguments reads value_of params ds with
    | Some args => on_world (call args) (mk_frame ds w')
    | None => raise (bad_conversion message) (mk_frame ds w')
    end.
Proof.
  intros Hr Hl Hw. unfold invoke_converted. rewrite plan_direct. unfold probe_plan.
  unfold mbind at 1, eff_bind at 1, mret at 1, eff_ret at 1.
  with_pack ltac:(fun k g => destruct (convert_all params k g) as ([s1 w1] & [Hs1 Hf1] & ->)); [done..|]. cbn [slots world] in *. subst s1.
  rewrite accepted_direct, (arguments_converted reads value_of) by done.
  destruct (arguments reads value_of params ds) as [args|] eqn:Ha; [|by exists w1].
  rewrite bool_decide_eq_true_2 by done.
  with_pack ltac:(fun k g => destruct (get_all params args k g) as ([s2 w2] & [Hs2 Hf2] & ->)); [done..|]. cbn [slots world] in *. subst s2. by exists w2.
Qed.
End Run.
End Direct.
