(* ===== verification/Import.v ===== *)
(** * import_callable.h, bridge_arg.h and backend_base.h: C++ calling out

    A call of an imported group picks a declared signature with C++ overload resolution,
    lowers each argument to a dynamic value that is owned at once, and hands the values to
    the backend. Implicit conversions between argument types and parameter types belong to
    the language and to the caller's types; the conversions to dynamic values and the call
    itself belong to the backend: both are parameters. *)

From Stdlib Require Import ZArith Lia.
From stdpp Require Import base list gmap.
From S2P Require Import Prelude Overloads ExportDispatch.

(** ** Parameters (bridge_arg.h) *)

Inductive direction := import_t | export_t.

(** A declared parameter: a value type, an object of a class, or a callable group. *)
Inductive declared (T : Type) :=
| value_param (t : T)
| object_param (class : nat) (d : direction)
| callable_param (group : nat) (d : direction).
Arguments value_param {T}.
Arguments object_param {T}.
Arguments callable_param {T}.

#[export] Instance direction_eq_dec : EqDecision direction.
Proof. solve_decision. Defined.
#[export] Instance declared_eq_dec {T} `{EqDecision T} : EqDecision (declared T).
Proof. solve_decision. Defined.

Definition is_object_param {T} (d : declared T) : bool := match d with object_param _ _ => true | _ => false end.
Definition is_callable_param {T} (d : declared T) : bool := match d with callable_param _ _ => true | _ => false end.
Definition is_bridge_descriptor {T} (d : declared T) : bool := is_object_param d || is_callable_param d.
Definition is_bridge_value {T} (d : declared T) : bool := negb (is_bridge_descriptor d).

(** The types of the parameters of a [select] function: [import_argument::parameter_t],
    and [import_callable_argument], which any argument converts to. *)
Inductive parameter (T : Type) :=
| DeclaredType (d : declared T)
| DelegateReference (class : nat)
| ImportCallableArgument (group : nat)
| UnmatchedCallable.
Arguments DeclaredType {T}.
Arguments DelegateReference {T}.
Arguments ImportCallableArgument {T}.
Arguments UnmatchedCallable {T}.

Definition import_parameter_t {T} (d : declared T) : parameter T :=
  match d with
  | object_param c import_t => DelegateReference c
  | callable_param g export_t => ImportCallableArgument g
  | d => DeclaredType d
  end.

(** ** Overload selection *)

Section Select.
Context {T X : Type} `{EqDecision T}.
(** Whether an argument of a type converts to a parameter, and whether its conversion to
    one parameter is better than to another. *)
Context (convertible : X -> parameter T -> bool) (better : X -> parameter T -> parameter T -> bool).

#[export] Instance contract_eq_dec : EqDecision (contract (declared T)).
Proof. solve_decision. Defined.

(** Functions, and the resolution of a call among them. *)
Local Abbreviation candidate := (Overloads.candidate (parameter T) (contract (declared T))).
Local Abbreviation viable := (Overloads.viable (C := contract (declared T)) convertible).
Local Abbreviation better_function := (Overloads.better_function (C := contract (declared T)) better).
Local Abbreviation best := (Overloads.best convertible better).
Local Abbreviation select_in := (Overloads.select_in convertible better).

(** [import_contract_selector]: one function per contract; that of the sentinel is deleted. *)
Definition import_contract_selector (c : contract (declared T)) : candidate :=
  if is_unmatched_free_callable c then mk_candidate [UnmatchedCallable] None
  else mk_candidate (map import_parameter_t (parameters c)) (Some c).

(** [import_contract_selector_group], flat (C++17) and by recursion (C++14), where the
    empty group adds a deleted function. *)
Definition selector_group_flat (cs : list (contract (declared T))) : list candidate :=
  map import_contract_selector cs.
Fixpoint selector_group_recursive (cs : list (contract (declared T))) : list candidate :=
  match cs with
  | [] => [mk_candidate [UnmatchedCallable; UnmatchedCallable] None]
  | c :: cs => import_contract_selector c :: selector_group_recursive cs
  end.

(** The call of [select] in an unevaluated operand. A group that names a contract twice has
    the same base class twice. Two contracts that differ in their results only, whose
    using-declarations conflict, are refused here when a call finds both, and by a compiler
    already where the group is used. *)
Definition select (flat : bool) (cs : list (contract (declared T))) (xs : list X) : option (contract (declared T)) :=
  if decide (NoDup cs) then
    select_in (if flat then selector_group_flat cs else selector_group_recursive cs) xs
  else None.

(** No argument has the sentinel's type. *)
Definition no_sentinel (xs : list X) : Prop := forall x, x ∈ xs -> convertible x UnmatchedCallable = false.

Local Abbreviation selected := (Overloads.selected convertible better import_contract_selector).

Lemma sentinel_not_viable xs c :
  no_sentinel xs -> is_unmatched_free_callable c = true -> viable xs (import_contract_selector c) = false.
Proof.
  intros Hno Hc. unfold import_contract_selector, Overloads.viable. rewrite Hc. simpl.
  destruct xs as [|x [|y xs]]; simpl; try done; rewrite ?andb_false_r; try done.
  rewrite Hno; [done|left].
Qed.

Lemma recursive_is_flat cs :
  selector_group_recursive cs = selector_group_flat cs ++ [mk_candidate [UnmatchedCallable; UnmatchedCallable] None].
Proof. unfold selector_group_flat. induction cs as [|c cs IH]; simpl; [done|]. by rewrite IH. Qed.

Lemma select_iff flat cs xs c :
  no_sentinel xs -> select flat cs xs = Some c <-> NoDup cs /\ selected cs xs c.
Proof.
  intros Hno. unfold select. case_decide as Hnd; [|by split; [|intros []]].
  set (base := if flat then [] else [mk_candidate [UnmatchedCallable; UnmatchedCallable] None] : list candidate).
  assert ((if flat then selector_group_flat cs else selector_group_recursive cs) = selector_group_flat cs ++ base) as ->.
  { subst base. destruct flat; [by rewrite app_nil_r|apply recursive_is_flat]. }
  rewrite (select_in_group convertible better import_contract_selector); [naive_solver|done|]. split.
  - intros d _. destruct (is_unmatched_free_callable d) eqn:Hd; [right; by apply sentinel_not_viable|left].
    unfold import_contract_selector. by rewrite Hd.
  - subst base. destruct flat; constructor; [|constructor]. unfold Overloads.viable. simpl.
    destruct xs as [|x xs]; simpl; [done|]. by rewrite Hno by left.
Qed.

(** C38: a call of an imported group compiles to the one declared contract that its
    arguments convert to and that is better than every other they convert to, whatever the
    order of the declarations and for the flat and the recursive groups alike; the
    sentinel of an empty group is never selected. *)
Theorem import_selection flat cs xs :
  no_sentinel xs ->
  (forall c, select flat cs xs = Some c <-> NoDup cs /\ selected cs xs c) /\
  (forall flat' cs', Permutation cs cs' -> select flat' cs' xs = select flat cs xs).
Proof.
  intros Hno. split; [intros c; by apply select_iff|]. intros flat' cs' Hp. apply option_eq. intros c.
  rewrite !select_iff by done. by rewrite (selected_perm _ _ _ _ _ xs c Hp), Hp.
Qed.
End Select.

(** ** Lowering and calling *)

(** Owned dynamic values: the temporaries of a call, by number, and the rest of the world. *)
Record import_state (D W : Type) := mk_import { owned : gmap nat D; next_owned : nat; outside : W }.
Arguments mk_import {D W}.
Arguments owned {D W}.
Arguments next_owned {D W}.
Arguments outside {D W}.

Section Call.
Context {T V D R W : Type}.
(** The conversions of the backend: [to_cast], [to_dynamic_object], the export of a C++
    callable; the destructor of an owned value, which does not throw; [invoke_impl]; and
    [object_t(ctx, construct_object, ...)]. *)
Context (to_cast : T -> V -> eff W D) (to_dynamic_object : nat -> V -> eff W D)
  (make_export_group_callable : nat -> V -> eff W D) (destroy_value : D -> W -> W)
  (invoke_impl : contract (declared T) -> list D -> eff W R) (construct_object : list D -> eff W R).
(** The order in which the compiler evaluates a pack of arguments. *)
Context (order : nat -> list nat).
Abbreviation M := (eff (import_state D W)).

Definition on_outside {Y} (m : eff W Y) : M Y := fun s =>
  let '(o, w) := m (outside s) in (o, mk_import (owned s) (next_owned s) w).

(** [own_import_value]. *)
Definition own_import_value (d : D) : M nat := fun s =>
  (Ok (next_owned s), mk_import (<[next_owned s := d]> (owned s)) (S (next_owned s)) (outside s)).
(** The destructor of an owned value. *)
Definition destroy_owned (n : nat) : M unit := fun s =>
  match owned s !! n with
  | None => (Undefined, s)
  | Some d => (Ok tt, mk_import (delete n (owned s)) (next_owned s) (destroy_value d (outside s)))
  end.
Fixpoint destroy_all (ns : list nat) : M unit :=
  match ns with [] => mret tt | n :: ns => destroy_owned n ;; destroy_all ns end.

(** [import_argument::lower]; [None] where no conversion is declared. *)
Definition dynamic_value (d : declared T) (v : V) : option (eff W D) :=
  match d with
  | value_param t => Some (to_cast t v)
  | object_param c import_t => Some (to_dynamic_object c v)
  | callable_param g export_t => Some (make_export_group_callable g v)
  | _ => None
  end.
Definition lower (m : eff W D) : M nat := d ← on_outside m; own_import_value d.

(** The evaluation of the arguments: when one throws, the values made before it are
    destroyed, the last one first. *)
Fixpoint lower_each (is_ : list nat) (jobs : list (eff W D)) (made : list (nat * nat)) : M (list (nat * nat)) :=
  match is_ with
  | [] => mret made
  | i :: rest => fun s =>
      match jobs !! i with
      | None => (Undefined, s)
      | Some job =>
          match lower job s with
          | (Ok n, s') => lower_each rest jobs ((i, n) :: made) s'
          | (Throw e, s') => (destroy_all made.*2 ;; throw e) s'
          | (Aborted, s') => (Aborted, s')
          | (Undefined, s') => (Undefined, s')
          end
      end
  end.

(** The values in argument position. *)
Fixpoint position {Y} (made : list (nat * Y)) (i : nat) : option Y :=
  match made with [] => None | (j, y) :: made => if decide (i = j) then Some y else position made i end.

(** A call whose parameters own the values: they are destroyed when it returns or throws. *)
Definition with_values (jobs : list (eff W D)) (body : list D -> eff W R) : M R := fun s =>
  match lower_each (order (length jobs)) jobs [] s with
  | (Ok made, s1) =>
      let args := omap (fun i => position made i ≫= fun n => owned s1 !! n) (seq 0 (length jobs)) in
      match on_outside (body args) s1 with
      | (Ok r, s2) => (destroy_all made.*2 ;; mret r) s2
      | (Throw e, s2) => (destroy_all made.*2 ;; throw e) s2
      | r => r
      end
  | (Throw e, s1) => (Throw e, s1)
  | (Aborted, s1) => (Aborted, s1)
  | (Undefined, s1) => (Undefined, s1)
  end.

(** The jobs of a call: the receiver first, when there is one. *)
Fixpoint argument_jobs (params : list (declared T)) (actual : list V) : option (list (eff W D)) :=
  match params, actual with
  | [], [] => Some []
  | d :: params, v :: actual => j ← dynamic_value d v; js ← argument_jobs params actual; Some (j :: js)
  | _, _ => None
  end.
Definition call_jobs (receiver : option (nat * V)) (params : list (declared T)) (actual : list V)
  : option (list (eff W D)) :=
  js ← argument_jobs params actual;
  Some (match receiver with Some (c, v) => to_dynamic_object c v :: js | None => js end).

(** [import_contract_backend_invoker::invoke], free and member, through [invoke_contract]. *)
Definition invoke_contract (c : contract (declared T)) (receiver : option (nat * V)) (actual : list V)
  : option (M R) :=
  js ← call_jobs receiver (parameters c) actual; Some (with_values js (invoke_impl c)).

(** [import_callable::invoke] through [backend_base::invoke]: parameters of value types,
    and a receiver that is converted like an argument. *)
Definition import_callable_invoke (c : contract (declared T)) (params : list T) (receiver : option (T * V))
    (actual : list V) : option (M R) :=
  if (length actual =? length params)%nat then
    Some (with_values (match receiver with Some (t, v) => [to_cast t v] | None => [] end
                       ++ zip_with to_cast params actual) (invoke_impl c))
  else None.

(** [import_constructor_contract_invoker::construct]. *)
Definition construct_contract (c : contract (declared T)) (actual : list V) : option (M R) :=
  js ← argument_jobs (parameters c) actual; Some (with_values js construct_object).
End Call.

Section Dispatch.
Context {T X V D R W : Type} `{EqDecision T}.
Context (convertible : X -> parameter T -> bool) (better : X -> parameter T -> parameter T -> bool).
Context (to_cast : T -> V -> eff W D) (to_dynamic_object : nat -> V -> eff W D)
  (make_export_group_callable : nat -> V -> eff W D) (destroy_value : D -> W -> W)
  (invoke_impl : contract (declared T) -> list D -> eff W R) (construct_object : list D -> eff W R)
  (order : nat -> list nat).

(** [import_overload_dispatch::invoke] and [invoke_member]: an argument is its type and its value. *)
Definition import_overload_invoke (flat : bool) (cs : list (contract (declared T)))
    (receiver : option (nat * V)) (args : list (X * V)) : option (eff (import_state D W) R) :=
  c ← select convertible better flat cs args.*1;
  invoke_contract to_cast to_dynamic_object make_export_group_callable destroy_value invoke_impl order c receiver args.*2.
(** [import_constructor_overload_dispatch::construct]. *)
Definition import_overload_construct (flat : bool) (cs : list (contract (declared T))) (args : list (X * V))
  : option (eff (import_state D W) R) :=
  c ← select convertible better flat cs args.*1;
  construct_contract to_cast to_dynamic_object make_export_group_callable destroy_value construct_object order c args.*2.
End Dispatch.

(** ** Ownership of the values *)

Section Balance.
Context {T V D R W : Type}.
Context (destroy_value : D -> W -> W) (order : nat -> list nat).
Context (order_permutes : forall n, Permutation (order n) (seq 0 n)).
Abbreviation M := (eff (import_state D W)).

(** What is owned beyond a base set: exactly the numbers [ns], each once. *)
Definition holds (base : gmap nat D) (ns : list nat) (s : import_state D W) : Prop :=
  NoDup ns /\ (forall n, n ∈ ns -> (base !! n = None /\ is_Some (owned s !! n)) /\ (n < next_owned s)%nat) /\
  (forall n, n ∉ ns -> owned s !! n = base !! n) /\ (forall n, (next_owned s <= n)%nat -> base !! n = None).

Lemma holds_delete base n ns s w :
  holds base (n :: ns) s ->
  is_Some (owned s !! n) /\ holds base ns (mk_import (delete n (owned s)) (next_owned s) w).
Proof.
  intros (Hnd & Hin & Hout & Hf). apply NoDup_cons in Hnd as [Hn Hnd]. destruct (Hin n) as [[Hb Hd] _]; [left|].
  split; [done|]. split_and!; cbn; try done.
  - intros m Hm. assert (m ≠ n) by (by intros ->). destruct (Hin m) as [[? ?] ?]; [by right|].
    rewrite lookup_delete_ne by done. done.
  - intros m Hm. destruct (decide (m = n)) as [->|Hne].
    + by rewrite lookup_delete_eq, Hb.
    + rewrite lookup_delete_ne by done. apply Hout. intros [|]%elem_of_cons; congruence.
Qed.

Lemma holds_nothing base s : holds base [] s -> owned s = base.
Proof. intros (_ & _ & Hout & _). apply map_eq. intros n. apply Hout, not_elem_of_nil. Qed.

Lemma holds_perm base ns ks s : Permutation ns ks -> holds base ns s -> holds base ks s.
Proof.
  intros Hp (Hnd & Hin & Hout & Hf). split_and!; [by rewrite <- Hp| | |done]; intros n Hn; rewrite <- Hp in Hn; auto.
Qed.

Lemma destroy_all_holds base ns s :
  holds base ns s -> exists s', destroy_all destroy_value ns s = (Ok tt, s') /\ owned s' = base.
Proof.
  revert s. induction ns as [|n ns IH]; intros s Hh; simpl.
  - exists s. split; [done|]. by apply holds_nothing.
  - destruct (holds_delete base n ns s (outside s) Hh) as [[d Hd] _].
    unfold destroy_owned at 1. unfold mbind, eff_bind. rewrite Hd. by apply IH, holds_delete.
Qed.

Lemma lower_holds base ns job s :
  holds base ns s -> (job (outside s)).1 ≠ Undefined ->
  match lower job s with
  | (Ok n, s') => holds base (n :: ns) s' /\ n = next_owned s
  | (Throw _, s') => holds base ns s'
  | (Aborted, _) => True
  | (Undefined, _) => False
  end.
Proof.
  intros (Hnd & Hin & Hout & Hf) Hjob. unfold lower, on_outside, own_import_value, mbind, eff_bind.
  destruct (job (outside s)) as [[d| | |] w]; try done. cbn. split; [|done].
  split_and!; cbn.
  - apply NoDup_cons. split; [|done]. intros Hx. destruct (Hin _ Hx). lia.
  - intros n [->|Hn]%elem_of_cons.
    + rewrite lookup_insert_eq. split; [split; [by apply Hf|by eauto]|lia].
    + destruct (Hin n Hn) as [[? ?] ?]. rewrite lookup_insert_ne by lia. split; [done|lia].
  - intros n Hn. rewrite lookup_insert_ne; [apply Hout|]; intros ?; apply Hn; [by right|subst; left].
  - intros n Hn. apply Hf. lia.
Qed.

(** The conversions in order, without ownership: the specification of a call's arguments. *)
Fixpoint spec_lower (is_ : list nat) (jobs : list (eff W D)) (vals : list (nat * D)) : eff W (list (nat * D)) :=
  match is_ with
  | [] => mret vals
  | i :: rest =>
      match jobs !! i with
      | None => undefined_behaviour
      | Some job => d ← job; spec_lower rest jobs ((i, d) :: vals)
      end
  end.

(** What was made holds the values that were converted. *)
Definition made_values (made : list (nat * nat)) (vals : list (nat * D)) (s : import_state D W) : Prop :=
  Forall2 (fun a b => a.1 = b.1 /\ owned s !! a.2 = Some b.2) made vals.

Lemma made_position made vals s i :
  made_values made vals s -> (position made i ≫= fun n => owned s !! n) = position vals i.
Proof.
  intros Hm. induction Hm as [|[j n] [j' d] made vals [Hj Hn] _ IH]; simpl in *; [done|]. subst j'.
  case_decide; [|done]. simpl. done.
Qed.

Definition jobs_defined (is_ : list nat) (jobs : list (eff W D)) : Prop :=
  forall i, i ∈ is_ -> exists job : eff W D, jobs !! i = Some job /\ forall w, (job w).1 ≠ Undefined.

Lemma lower_each_holds base jobs is_ : forall made vals s,
  holds base made.*2 s -> made_values made vals s -> jobs_defined is_ jobs ->
  match lower_each destroy_value is_ jobs made s with
  | (Ok made', s') => holds base made'.*2 s' /\ exists vals', made_values made' vals' s' /\
      vals'.*1 = rev is_ ++ vals.*1 /\ spec_lower is_ jobs vals (outside s) = (Ok vals', outside s')
  | (Throw _, s') => owned s' = base
  | (Aborted, _) => True
  | (Undefined, _) => False
  end.
Proof.
  induction is_ as [|i is_ IH]; intros made vals s Hh Hm Hjobs; cbn [lower_each spec_lower].
  { split; [done|]. exists vals. done. }
  destruct (Hjobs i ltac:(left)) as (job & Hj & Hdef). rewrite Hj.
  pose proof (lower_holds base made.*2 job s Hh (Hdef _)) as Hl.
  assert (job (outside s) = ((job (outside s)).1, (job (outside s)).2)) as Hjob by by destruct (job (outside s)).
  unfold lower, on_outside, own_import_value, mbind, eff_bind in Hl |- *.
  destruct (job (outside s)) as [[d|e| |] w] eqn:Hw; try done; cbn in Hl |- *.
  - destruct Hl as [Hl _].
    set (s1 := mk_import (<[next_owned s := d]> (owned s)) (S (next_owned s)) w) in *.
    assert (made_values ((i, next_owned s) :: made) ((i, d) :: vals) s1) as Hm1.
    { constructor; [cbn; by rewrite lookup_insert_eq|].
      destruct Hh as (_ & Hin & _). clear -Hm Hin.
      induction Hm as [|a b made vals [Ha Hb] Hm IH]; constructor.
      - split; [done|]. cbn. rewrite lookup_insert_ne; [done|].
        destruct (Hin a.2) as [_ ?]; [left|]. lia.
      - apply IH. intros n Hn. apply Hin. by right. }
    specialize (IH ((i, next_owned s) :: made) ((i, d) :: vals) s1 Hl Hm1).
    assert (jobs_defined is_ jobs) as Hjobs' by (intros k Hk; apply Hjobs; by right).
    specialize (IH Hjobs'). destruct (lower_each destroy_value is_ jobs ((i, next_owned s) :: made) s1) as [[made'|e| |] s']; try done.
    destruct IH as [Hh' (vals' & Hm' & Hv' & Hs')]. split; [done|]. exists vals'. split_and!; [done| |done].
    rewrite Hv'. simpl. by rewrite <- app_assoc.
  - destruct (destroy_all_holds base made.*2 (mk_import (owned s) (next_owned s) w) Hl) as (s' & Hd & Ho).
    by rewrite Hd.
Qed.

Definition fresh (s : import_state D W) : Prop := forall n, (next_owned s <= n)%nat -> owned s !! n = None.

(** C37: a call owns each converted value once and owns nothing when it is over, whether it
    returns, a conversion throws or the callee throws; the callee is given the value of
    every argument in its position, whatever the order they were evaluated in. *)
Theorem import_call_balanced jobs (body : list D -> eff W R) s :
  fresh s -> jobs_defined (seq 0 (length jobs)) jobs -> (forall args w, (body args w).1 ≠ Undefined) ->
  match with_values destroy_value order jobs body s with
  | (Ok r, s') => owned s' = owned s /\
      exists vals w w', spec_lower (order (length jobs)) jobs [] (outside s) = (Ok vals, w) /\
        Forall (fun i => is_Some (position vals i)) (seq 0 (length jobs)) /\
        body (omap (position vals) (seq 0 (length jobs))) w = (Ok r, w')
  | (Throw _, s') => owned s' = owned s
  | (Aborted, _) => True
  | (Undefined, _) => False
  end.
Proof.
  intros Hf Hjobs Hbody. unfold with_values.
  assert (holds (owned s) [] s) as Hh.
  { split_and!; [constructor| |done|done]. by intros n ?%not_elem_of_nil. }
  pose proof (lower_each_holds (owned s) jobs (order (length jobs)) [] [] s Hh) as Hl.
  specialize (Hl ltac:(constructor)).
  assert (jobs_defined (order (length jobs)) jobs) as Hjobs'.
  { intros i Hi. apply Hjobs. by rewrite <- order_permutes. }
  specialize (Hl Hjobs').
  destruct (lower_each destroy_value (order (length jobs)) jobs [] s) as [[made|e| |] s1]; try done.
  destruct Hl as [Hh1 (vals & Hm & Hv & Hspec)].
  assert (omap (fun i => position made i ≫= fun n => owned s1 !! n) (seq 0 (length jobs))
          = omap (position vals) (seq 0 (length jobs))) as Hargs.
  { apply list_omap_ext. apply Forall_Forall2_diag, Forall_forall. intros i _. by apply made_position. }
  rewrite Hargs. unfold on_outside.
  pose proof (Hbody (omap (position vals) (seq 0 (length jobs))) (outside s1)) as Hb.
  destruct (body _ (outside s1)) as [[r|e| |] w'] eqn:Hrun; try done.
  all: assert (holds (owned s) made.*2 (mk_import (owned s1) (next_owned s1) w')) as Hh2 by done.
  all: destruct (destroy_all_holds (owned s) made.*2 _ Hh2) as (s2 & Hd & Ho).
  all: unfold mbind, eff_bind; rewrite Hd; try done.
  split; [done|]. exists vals, (outside s1), w'. split_and!; [done| |done].
  apply Forall_forall. intros i Hi.
  assert (i ∈ vals.*1) as Hiv.
  { rewrite Hv, app_nil_r. rewrite list_elem_of_In, <- in_rev, <- list_elem_of_In, order_permutes. done. }
  clear -Hiv. induction vals as [|[j d] vals IH]; simpl in *; [by apply not_elem_of_nil in Hiv|].
  case_decide; [by eauto|]. apply IH. by apply elem_of_cons in Hiv as [|].
Qed.
End Balance.

(** ** A sample program *)

Module Sample.
Inductive ty := Int | Double | Text.
#[global] Instance ty_eq_dec : EqDecision ty.
Proof. solve_decision. Defined.

(** Arithmetic types convert to each other; the same type is better. *)
Definition convertible (x : ty) (p : parameter ty) : bool :=
  match x, p with
  | Text, DeclaredType (value_param Text) => true
  | (Int | Double), DeclaredType (value_param (Int | Double)) => true
  | _, ImportCallableArgument _ => true
  | _, _ => false
  end.
Definition rank (x : ty) (p : parameter ty) : nat :=
  match p with
  | DeclaredType (value_param t) => if decide (x = t) then 0%nat else 1%nat
  | _ => 2%nat
  end.
Definition better (x : ty) (p q : parameter ty) : bool := (rank x p <? rank x q)%nat.

Definition overloads : list (contract (declared ty)) :=
  [mk_contract (Some (value_param Int)) [value_param Double] false;
   mk_contract (Some (value_param Text)) [value_param Int] false;
   mk_contract None [callable_param 3 export_t] false].

(** A conversion that counts, and refuses 13. *)
Definition to_cast (t : ty) (v : nat) : eff nat nat := fun w =>
  if decide (v = 13%nat) then (Throw (std_exception []), w) else (Ok (v + w)%nat, S w).
Definition invoke_impl (c : contract (declared ty)) (args : list nat) : eff nat (list nat) := fun w => (Ok args, w).
Definition order (n : nat) : list nat := reverse (seq 0 n).
Definition jobs : list (eff nat nat) := [to_cast Int 5%nat; to_cast Int 7%nat].
Definition start : import_state nat nat := mk_import ∅ 0 0%nat.
End Sample.

Lemma import_selection_witness :
  select Sample.convertible Sample.better false Sample.overloads [Sample.Int]
  = Some (mk_contract (Some (value_param Sample.Text)) [value_param Sample.Int] false) /\
  select Sample.convertible Sample.better false (reverse Sample.overloads) [Sample.Int]
  = select Sample.convertible Sample.better true Sample.overloads [Sample.Int].
Proof.
  split; [vm_compute; reflexivity|].
  apply (import_selection Sample.convertible Sample.better true Sample.overloads [Sample.Int]).
  - intros x _. destruct x; reflexivity.
  - symmetry. apply reverse_Permutation.
Defined.

Lemma import_call_balanced_witness :
  match with_values (fun _ w => w) Sample.order Sample.jobs
          (Sample.invoke_impl (mk_contract None [] false)) Sample.start with
  | (Ok args, s') => args = [6; 7]%nat /\ owned s' = ∅
  | _ => False
  end.
Proof.
  pose proof (import_call_balanced (fun _ w => w) Sample.order (fun n => reverse_Permutation _) Sample.jobs
    (Sample.invoke_impl (mk_contract None [] false)) Sample.start) as H.
  assert (fresh Sample.start) as Hf by (intros n _; reflexivity).
  assert (jobs_defined (seq 0 (length Sample.jobs)) Sample.jobs) as Hj.
  { intros i Hi. apply elem_of_seq in Hi. simpl in Hi.
    destruct i as [|[|i]]; [| |exfalso; lia]; eexists; (split; [reflexivity|]); intros w; discriminate. }
  specialize (H Hf Hj ltac:(intros; discriminate)). vm_compute in H |- *. destruct H as [Ho _]. split; [reflexivity|exact Ho].
Defined.
