(* ===== verification/Interface.v ===== *)
(** * Type lists, callables and interfaces: the compile-time half

    type_list.h, the compile-time logic of traits.h and callable.h, and interface.h.
    Template metaprograms are functions on lists of types; a program that does not
    compile is [None]; the compiler's limit on nested template instantiations is the
    fuel of the one metaprogram whose depth the source takes care of. *)

From Stdlib Require Import ZArith Lia Strings.Byte.
From stdpp Require Import base list.
From S2P Require Import Prelude Bytes.

(** ** traits.h: logical metafunctions *)

(** They pick one of their arguments, so instantiation stops at the first that
    decides: the arguments after it may be ill-formed. [None] is an argument whose
    instantiation is an error. *)
Fixpoint conjunction (bs : list (option bool)) : option bool :=
  match bs with
  | [] => Some true
  | [b] => b
  | b :: rest => v ← b; if (v : bool) then conjunction rest else Some false
  end.

Fixpoint disjunction (bs : list (option bool)) : option bool :=
  match bs with
  | [] => Some false
  | [b] => b
  | b :: rest => v ← b; if (v : bool) then Some true else disjunction rest
  end.

Definition negation (b : option bool) : option bool := negb <$> b.

(** A parameter type: its reference kind and whether the referenced type is const. *)
Inductive reference := by_value | lvalue_reference | rvalue_reference.
#[export] Instance reference_eq_dec : EqDecision reference.
Proof. solve_decision. Defined.
Record parameter := mk_parameter { reference_kind : reference; is_const : bool }.

Definition is_bad_bridge_param (p : parameter) : bool :=
  match reference_kind p with lvalue_reference => negb (is_const p) | _ => false end.

Definition are_bridge_params_valid (ps : list parameter) : option bool :=
  negation (disjunction (map (fun p => Some (is_bad_bridge_param p)) ps)).

(** ** type_list.h *)

Section TypeList.
Context {T : Type}.

Definition type_list_size (ts : list T) : nat := length ts.

(** [element_at]: the leaf base whose index is [i], unique among the bases; the
    static assertion on the index. *)
Definition type_list_base (ts : list T) : list (nat * T) := zip (seq 0 (length ts)) ts.
Definition element_at (i : nat) (ts : list T) : option T :=
  if Nat.ltb i (length ts) then snd <$> find (fun leaf => Nat.eqb (fst leaf) i) (type_list_base ts)
  else None.

Definition prepend (t : T) (ts : list T) : list T := t :: ts.

Definition concat (lists : list (list T)) : list T :=
  match lists with [] => [] | first :: rest => foldl app first rest end.
End TypeList.

(** ** callable.h *)

(** [max_callable_arity] over the arities of a contract list. *)
Fixpoint max_callable_arity (arities : list nat) : nat :=
  match arities with
  | [] => 0
  | head :: tail => if Nat.ltb (max_callable_arity tail) head then head else max_callable_arity tail
  end.

(** ** interface.h *)

Module interface_detail.
Section Names.

(** The character a pointer into a NUL-terminated literal reads. *)
Definition char_at (s : text) : byte := default x00 (head s).

Fixpoint equal_name (lhs rhs : text) : bool :=
  match lhs with
  | [] => bool_decide (char_at rhs = x00)
  | c :: lhs' =>
      bool_decide (c = char_at rhs)
      && (bool_decide (c = x00) || equal_name lhs' (tail rhs))
  end.

(** A method symbol: a type, with its [symbol_name()]. *)
Record symbol := mk_symbol { symbol_type : nat; symbol_name : text }.

(** [method_at_index]: what a descriptor declares at a declaration index, if anything. *)
Context (method_name_at : nat -> option symbol).
Definition method_at_index (index : nat) : list symbol :=
  match method_name_at index with Some s => [s] | None => [] end.

(** [names_in_range]: the balanced scan, under the compiler's depth limit. *)
Fixpoint names_in_range (depth : nat) (begin_ end_ : nat) : option (list symbol) :=
  match depth with
  | O => None
  | S depth =>
      if Nat.leb end_ begin_ then Some []
      else if Nat.leb end_ (begin_ + 1) then Some (method_at_index begin_)
      else
        let middle := (begin_ + (end_ - begin_) / 2)%nat in
        lower ← names_in_range depth begin_ middle;
        upper ← names_in_range depth middle end_;
        Some (concat [lower; upper])
  end.

Definition method_names_in_range (depth begin_ end_ : nat) : option (list symbol) :=
  names_in_range depth (begin_ + 1) end_.
End Names.

(** Interface lists may hold [void], here [None]. *)
Section Uniqueness.
Context {T : Type} `{EqDecision T}.

Fixpoint contains_type (t : option T) (ts : list (option T)) : bool :=
  match ts with
  | [] => false
  | head :: tail => if decide (t = head) then true else contains_type t tail
  end.

Fixpoint unique_types (ts : list (option T)) : bool :=
  match ts with
  | [] => true
  | None :: tail => unique_types tail
  | Some head :: tail => negb (contains_type (Some head) tail) && unique_types tail
  end.
End Uniqueness.

Fixpoint contains_name (s : symbol) (list_ : list (option symbol)) : bool :=
  match list_ with
  | [] => false
  | None :: tail => contains_name s tail
  | Some head :: tail => equal_name (symbol_name s) (symbol_name head) || contains_name s tail
  end.

Fixpoint unique_names (list_ : list (option symbol)) : bool :=
  match list_ with
  | [] => true
  | None :: tail => unique_names tail
  | Some head :: tail => negb (contains_name head tail) && unique_names tail
  end.

(** The methods of the interfaces a class implements; [void] has none. *)
Definition collect_interface_methods {I} (method_names : I -> list symbol)
    (interfaces : list (option I)) : list symbol :=
  concat (map (fun i => match i with None => [] | Some i => method_names i end) interfaces).

(** [checked_interface_pack]: the bases a class inherits, or the assertion that fails. *)
Inductive pack_error := duplicate_interface | duplicate_name.

Definition checked_interface_pack {I} `{EqDecision I} (method_names : I -> list symbol)
    (interfaces : list (option I)) (own_methods : list symbol) : (list I) + (list pack_error) :=
  let unique_interfaces := unique_types interfaces in
  let unique_methods :=
    unique_names (Some <$> concat [collect_interface_methods method_names interfaces; own_methods]) in
  match unique_interfaces, unique_methods with
  | true, true => inl (omap (fun i => i) interfaces)
  | false, true => inr [duplicate_interface]
  | true, false => inr [duplicate_name]
  | false, false => inr [duplicate_interface; duplicate_name]
  end.
End interface_detail.
Export interface_detail.

(** ** Lemmas *)

Lemma concat_concat {T} (lists : list (list T)) : concat lists = mjoin lists.
Proof.
  destruct lists as [|l ls]; [done|]. simpl. revert l.
  induction ls as [|k ls IH]; intros l; simpl; [by rewrite app_nil_r|].
  rewrite IH. by rewrite app_assoc.
Qed.

(** The part of a literal before its first NUL: the C string. *)
Fixpoint c_string (s : text) : text :=
  match s with [] => [] | c :: s => if bool_decide (c = x00) then [] else c :: c_string s end.

Lemma equal_name_c_string lhs : forall rhs,
  equal_name lhs rhs = true <-> c_string lhs = c_string rhs.
Proof.
  induction lhs as [|c lhs IH]; intros rhs; simpl.
  - rewrite bool_decide_eq_true. destruct rhs as [|d rhs]; [done|]. unfold char_at. simpl.
    case_bool_decide; [done|]. split; [done|]. done.
  - rewrite andb_true_iff, orb_true_iff, !bool_decide_eq_true, IH.
    destruct rhs as [|d rhs]; unfold char_at; simpl.
    + case_bool_decide; split; intros; [done|auto|by destruct_and?|done].
    + repeat case_bool_decide; subst; split; intros Hx; destruct_and?; simplify_eq/=; auto;
        try (destruct_or?; congruence).
Qed.

Lemma contains_type_elem {T} `{EqDecision T} (t : option T) ts : contains_type t ts = true <-> t ∈ ts.
Proof.
  induction ts as [|h ts IH]; simpl; [set_solver|].
  destruct (decide (t = h)); [set_solver|]. rewrite IH. set_solver.
Qed.

Lemma contains_name_elem s list_ :
  contains_name s list_ = true
  <-> exists s', Some s' ∈ list_ /\ c_string (symbol_name s) = c_string (symbol_name s').
Proof.
  induction list_ as [|[h|] l IH]; simpl.
  - split; [done|]. intros (s' & Hs & _). set_solver.
  - rewrite orb_true_iff, equal_name_c_string, IH. set_solver.
  - rewrite IH. set_solver.
Qed.

Lemma unique_types_NoDup {T} `{EqDecision T} (ts : list (option T)) :
  unique_types ts = true <-> NoDup (omap (fun t => t) ts).
Proof.
  induction ts as [|[h|] ts IH]; simpl; [split; [constructor|done]| |done].
  rewrite andb_true_iff, negb_true_iff, IH, NoDup_cons.
  rewrite <- not_true_iff_false, contains_type_elem, list_elem_of_omap. naive_solver.
Qed.

Lemma unique_names_NoDup (l : list (option symbol)) :
  unique_names l = true <-> NoDup (c_string ∘ symbol_name <$> omap (fun s => s) l).
Proof.
  induction l as [|[h|] l IH]; simpl; [split; [constructor|done]| |done].
  rewrite andb_true_iff, negb_true_iff, IH, NoDup_cons.
  rewrite <- not_true_iff_false, contains_name_elem, list_elem_of_fmap.
  setoid_rewrite list_elem_of_omap. simpl. naive_solver.
Qed.

Lemma element_at_lookup {T} (ts : list T) i : element_at i ts = ts !! i.
Proof.
  assert (forall k, snd <$> find (fun leaf => Nat.eqb (fst leaf) (k + i)) (zip (seq k (length ts)) ts)
            = ts !! i) as Hf.
  { revert i. induction ts as [|t ts IH]; intros i k; [done|]. simpl.
    destruct i as [|i]; [by rewrite Nat.add_0_r, Nat.eqb_refl|].
    destruct (Nat.eqb_spec k (k + S i)); [lia|]. simpl.
    rewrite <- (IH i (S k)). by replace (k + S i)%nat with (S k + i)%nat by lia. }
  unfold element_at, type_list_base. destruct (Nat.ltb_spec i (length ts)) as [_|Hge].
  - by rewrite <- (Hf 0%nat).
  - symmetry. by apply lookup_ge_None_2.
Qed.

Lemma max_callable_arity_spec arities :
  (forall a, a ∈ arities -> (a <= max_callable_arity arities)%nat) /\
  (arities ≠ [] -> max_callable_arity arities ∈ arities).
Proof.
  induction arities as [|a arities [Hle Hin]]; simpl; [set_solver|].
  destruct (Nat.ltb_spec (max_callable_arity arities) a); split.
  - intros b [->|Hb%Hle]%elem_of_cons; lia.
  - set_solver.
  - intros b [->|Hb%Hle]%elem_of_cons; [lia|done].
  - intros _. destruct arities as [|b arities]; simpl in *; [|set_solver].
    replace a with 0%nat by lia. set_solver.
Qed.

Lemma conjunction_true bs : conjunction bs = Some true <-> Forall (fun b => b = Some true) bs.
Proof.
  induction bs as [|b bs IH]; [done|]. rewrite Forall_cons, <- IH.
  destruct bs as [|b' bs]; [simpl; naive_solver|].
  change (conjunction (b :: b' :: bs)) with
    (b ≫= fun v => if (v : bool) then conjunction (b' :: bs) else Some false).
  destruct b as [[]|]; naive_solver.
Qed.

Lemma disjunction_total bs :
  disjunction (map Some bs) = Some (existsb (fun b => b) bs).
Proof.
  induction bs as [|b bs IH]; [done|]. destruct bs as [|b' bs].
  - simpl. by rewrite orb_false_r.
  - change (disjunction (map Some (b :: b' :: bs))) with
      (if b then Some true else disjunction (map Some (b' :: bs))).
    rewrite IH. by destruct b.
Qed.

(** ** Properties *)

(** A list of parameters is accepted exactly when none is a reference to a
    mutable object. *)
Theorem bridge_params_valid ps :
  are_bridge_params_valid ps =
    Some (forallb (fun p => negb (bool_decide (reference_kind p = lvalue_reference)
                                  && negb (is_const p))) ps).
Proof.
  unfold are_bridge_params_valid, negation.
  rewrite <- (map_map is_bad_bridge_param Some), disjunction_total. simpl. f_equal.
  induction ps as [|p ps IH]; [done|]. simpl. rewrite negb_orb, IH. f_equal.
  by destruct p as [[] []].
Qed.

Lemma names_in_range_scan f d : forall b e,
  names_in_range f (S d) b e =
    if Nat.leb (e - b) (2 ^ d) then Some (flat_map (method_at_index f) (seq b (e - b))) else None.
Proof.
  induction d as [|d IH]; intros b e.
  - simpl. destruct (Nat.leb_spec e b); [by replace (e - b)%nat with 0%nat by lia|].
    destruct (Nat.leb_spec e (b + 1)).
    + replace (e - b)%nat with 1%nat by lia. simpl. by rewrite app_nil_r.
    + destruct (Nat.leb_spec (e - b) 1); [lia|done].
  - change (names_in_range f (S (S d)) b e) with
      (if Nat.leb e b then Some [] else if Nat.leb e (b + 1) then Some (method_at_index f b)
       else names_in_range f (S d) b (b + (e - b) / 2) ≫= fun lower =>
            names_in_range f (S d) (b + (e - b) / 2) e ≫= fun upper =>
            Some (concat [lower; upper])).
    assert (1 <= 2 ^ d)%nat by (apply Nat.neq_0_lt_0, Nat.pow_nonzero; lia).
    destruct (Nat.leb_spec e b).
    { replace (e - b)%nat with 0%nat by lia. done. }
    destruct (Nat.leb_spec e (b + 1)).
    { replace (e - b)%nat with 1%nat by lia.
      destruct (Nat.leb_spec 1 (2 ^ S d)) as [_|Hlt]; simpl in *; [by rewrite app_nil_r|lia]. }
    rewrite !IH. set (n := (e - b)%nat).
    assert (n / 2 + n / 2 <= n /\ n <= n / 2 + n / 2 + 1)%nat as [Hlo Hhi].
    { pose proof (Nat.div_mod_eq n 2). pose proof (Nat.mod_upper_bound n 2). lia. }
    replace (b + n / 2 - b)%nat with (n / 2)%nat by lia.
    replace (e - (b + n / 2))%nat with (n - n / 2)%nat by (unfold n in *; lia).
    change (2 ^ S d)%nat with (2 ^ d + (2 ^ d + 0))%nat.
    destruct (Nat.leb_spec n (2 ^ d + (2 ^ d + 0))).
    + destruct (Nat.leb_spec (n / 2) (2 ^ d)); [|lia].
      destruct (Nat.leb_spec (n - n / 2) (2 ^ d)); [|lia].
      cbn [mbind option_bind concat foldl]. rewrite <- flat_map_app, <- seq_app.
      by replace (n / 2 + (n - n / 2))%nat with n by lia.
    + destruct (Nat.leb_spec (n - n / 2) (2 ^ d)); [lia|]. by destruct (Nat.leb (n / 2) (2 ^ d)).
Qed.

(** The balanced scan of a declaration block recovers exactly the methods the
    block declares between its first and last line, in declaration order, and nests
    instantiations only logarithmically: within a depth of d + 1 it handles every
    block of up to 2^d lines, and no longer one. *)
Theorem method_names_complete f d begin_ end_ :
  method_names_in_range f (S d) begin_ end_ =
    if Nat.leb (end_ - (begin_ + 1)) (2 ^ d)
    then Some (omap f (seq (begin_ + 1) (end_ - (begin_ + 1)))) else None.
Proof.
  unfold method_names_in_range. rewrite names_in_range_scan.
  destruct (Nat.leb _ _); [|done]. f_equal. generalize (seq (begin_ + 1) (end_ - (begin_ + 1))).
  intros l. induction l as [|i l IH]; [done|]. simpl. rewrite IH. unfold method_at_index.
  by destruct (f i).
Qed.

(** A class compiles exactly when it implements no interface twice and no two
    methods, its own or its interfaces', have the same C name; it then inherits one
    base per interface, in order. Otherwise precisely the violated assertions are
    reported. *)
Theorem interface_pack_sound {I} `{EqDecision I} (method_names : I -> list symbol) interfaces own :
  let bases := omap (fun i => i) interfaces in
  let names := c_string ∘ symbol_name <$> (mjoin (method_names <$> bases) ++ own) in
  match checked_interface_pack method_names interfaces own with
  | inl inherited => inherited = bases /\ NoDup bases /\ NoDup names
  | inr errors =>
      (duplicate_interface ∈ errors <-> ~ NoDup bases) /\ (duplicate_name ∈ errors <-> ~ NoDup names) /\
      errors ≠ []
  end.
Proof.
  intros bases names.
  assert (unique_names (Some <$> concat [collect_interface_methods method_names interfaces; own]) = true
          <-> NoDup names) as Hnames.
  { rewrite unique_names_NoDup. unfold names, collect_interface_methods. simpl.
    rewrite concat_concat. replace (omap _ (Some <$> _)) with
      (mjoin (map (fun i => match i with Some i => method_names i | None => [] end) interfaces) ++ own).
    - replace (mjoin (map _ interfaces)) with (mjoin (method_names <$> bases)); [done|].
      unfold bases. clear. induction interfaces as [|[i|] l IH]; simpl; [done| |done]. by f_equal.
    - generalize (mjoin (map (fun i => match i with Some i => method_names i | None => [] end) interfaces)
                  ++ own). intros l. induction l as [|s l IH]; simpl; [done|]. by f_equal. }
  pose proof (unique_types_NoDup interfaces) as Htypes. fold bases in Htypes.
  unfold checked_interface_pack.
  destruct (unique_types interfaces), (unique_names _);
    [split_and!; [done|by apply Htypes|by apply Hnames]|..];
    (split_and!; [rewrite <- Htypes|rewrite <- Hnames|done];
     rewrite ?elem_of_cons, ?elem_of_nil; intuition congruence).
Qed.
