(* ===== verification/Registration.v ===== *)
(** * Registration: the class registry and the overload builders

    backend_base.h ([export_class_registry], [erased_backend_holder]), the builders of
    export_callable.h. *)

From Stdlib Require Import ZArith Lia.
From stdpp Require Import base list gmap fin_maps.
From S2P Require Import Prelude ExportDispatch.

(** ** The class registry *)

Module ClassRegistry.
Section Registry.
Context {K Target : Type} `{Countable K} `{ErrorPolicy}.

(** An entry: the address [type_key<Class>()] identifies the class, and its target. *)
Record entry_t := mk_entry { key : K; entry_target : Target }.
Definition export_class_registry : Type := list entry_t.

(** [store]: overwrite the first entry of the class, or append one. *)
Fixpoint store_loop (entries : export_class_registry) (k : K) (t : Target)
  : option export_class_registry :=
  match entries with
  | [] => None
  | entry :: rest =>
      if decide (key entry = k) then Some (mk_entry (key entry) t :: rest)
      else cons entry <$> store_loop rest k t
  end.
Definition store (entries : export_class_registry) (k : K) (t : Target) : export_class_registry :=
  match store_loop entries k t with
  | Some entries => entries
  | None => entries ++ [mk_entry k t]
  end.

Fixpoint get_loop (entries : export_class_registry) (k : K) : option Target :=
  match entries with
  | [] => None
  | entry :: rest => if decide (key entry = k) then Some (entry_target entry) else get_loop rest k
  end.
Definition get (entries : export_class_registry) (k : K) : outcome Target :=
  match get_loop entries k with
  | Some t => Ok t
  | None => DYNABRIDGE_RAISE
      (runtime_error (lit "dynabridge export class is not registered in this context"))
  end.

(** The abstract registry: a finite map. *)
Definition registry_map (entries : export_class_registry) : gmap K Target :=
  list_to_map (map (fun e => (key e, entry_target e)) entries).
Definition registry_wf (entries : export_class_registry) : Prop := NoDup (map key entries).

Lemma get_loop_map entries k : get_loop entries k = registry_map entries !! k.
Proof.
  induction entries as [|[k' t] rest IH]; [done|]. unfold registry_map. simpl.
  destruct (decide (k' = k)) as [->|Hne]; [by rewrite lookup_insert_eq|].
  by rewrite lookup_insert_ne, IH.
Qed.

Lemma store_loop_spec entries k t :
  match store_loop entries k t with
  | Some entries' => registry_map entries' = <[k := t]> (registry_map entries)
                     /\ map key entries' = map key entries
  | None => k ∉ map key entries
  end.
Proof.
  induction entries as [|[k' t'] rest IH]; simpl; [set_solver|].
  destruct (decide (k' = k)) as [->|Hne].
  - unfold registry_map. simpl. by rewrite insert_insert_eq.
  - destruct (store_loop rest k t) as [rest'|]; simpl; [|set_solver].
    destruct IH as [IHm IHk]. unfold registry_map in *. simpl. rewrite IHm.
    split; [by apply insert_insert_ne|by f_equal].
Qed.

Lemma store_map entries k t : registry_map (store entries k t) = <[k := t]> (registry_map entries).
Proof.
  unfold store. pose proof (store_loop_spec entries k t) as Hs.
  destruct (store_loop entries k t) as [entries'|]; [apply Hs|].
  induction entries as [|[k' t'] rest IH]; [done|]. unfold registry_map in *. simpl in *.
  rewrite IH by set_solver. apply insert_insert_ne. set_solver.
Qed.

Lemma store_wf entries k t : registry_wf entries -> registry_wf (store entries k t).
Proof.
  unfold registry_wf, store. pose proof (store_loop_spec entries k t) as Hs.
  destruct (store_loop entries k t) as [entries'|]; [by destruct Hs as [_ ->]|].
  rewrite map_app. simpl. intros Hnd. apply NoDup_app. split_and!; [done|set_solver|apply NoDup_singleton].
Qed.

Lemma get_store entries k t k' : get (store entries k t) k' = if decide (k' = k) then Ok t else get entries k'.
Proof.
  unfold get. rewrite !get_loop_map, store_map.
  case_decide as Hk; [subst; by rewrite lookup_insert_eq|]. by rewrite lookup_insert_ne.
Qed.

(** The registry is the finite map from classes to targets: after any sequence
    of registrations every class has at most one entry, and looking a class up gives
    the target registered last, or raises runtime_error when there is none. *)
Theorem registry_refines_map (registrations : list (K * Target)) k :
  let entries := foldl (fun r kt => store r kt.1 kt.2) [] registrations in
  registry_wf entries /\
  get entries k = match (list_to_map (reverse registrations) : gmap K Target) !! k with
                  | Some t => Ok t
                  | None => DYNABRIDGE_RAISE
                      (runtime_error (lit "dynabridge export class is not registered in this context"))
                  end.
Proof.
  assert (registry_wf [] /\ registry_map [] = list_to_map (reverse [])) as [Hwf0 Hm0].
  { split; [constructor|done]. }
  induction registrations as [|[k' t] registrations [Hwf Hget]] using rev_ind.
  { split; [done|]. unfold get. by rewrite get_loop_map. }
  rewrite foldl_app. simpl. split; [by apply store_wf|].
  unfold get in *. rewrite !get_loop_map in *. rewrite store_map, reverse_snoc. simpl.
  destruct (decide (k' = k)) as [->|Hne]; [by rewrite !lookup_insert_eq|].
  by rewrite !lookup_insert_ne.
Qed.
End Registry.
Arguments entry_t : clear implicits.
Arguments export_class_registry : clear implicits.
End ClassRegistry.

(** ** The erased holder: two function pointers in front of the object *)

Module ErasedHolder.
(** The manager is told to destroy; a holder is invoked through its pointer. *)
Inductive backend_lifecycle_op := destroy_op.

Record erased_backend_holder (S Args R : Type) := mk_holder {
  invoke_ : Args -> eff S R;
  manager_ : backend_lifecycle_op -> eff S unit
}.
Arguments invoke_ {S Args R}.
Arguments manager_ {S Args R}.

Definition invoke {S Args R} (h : erased_backend_holder S Args R) (args : Args) : eff S R := invoke_ h args.
Definition manage {S Args R} (h : erased_backend_holder S Args R) (op : backend_lifecycle_op)
  : eff S unit := manager_ h op.
Definition destroy {S Args R} (h : erased_backend_holder S Args R) : eff S unit := manage h destroy_op.
End ErasedHolder.

(** ** The overload builders *)

Module OverloadBuilder.
Section Builder.
Context {T C : Type} `{EqDecision T}.

#[global] Instance contract_eq_dec : EqDecision (contract T).
Proof. solve_decision. Defined.

(** [bound_export_overload_slot]: a signature and the callable bound to it. *)
Record bound_export_overload_slot := mk_slot { slot_contract : contract T; slot_callable : C }.

Fixpoint has_bound_export_overload_slot (c : contract T) (slots : list bound_export_overload_slot)
  : bool :=
  match slots with
  | [] => false
  | s :: rest => if decide (slot_contract s = c) then true else has_bound_export_overload_slot c rest
  end.

Fixpoint is_export_overload_builder_complete (declared : list (contract T))
    (slots : list bound_export_overload_slot) : bool :=
  match declared with
  | [] => true
  | c :: rest =>
      (is_unmatched_free_callable c || has_bound_export_overload_slot c slots)
      && is_export_overload_builder_complete rest slots
  end.

(** A group: what it declares. [is_bindable] is what the compiler finds out about the
    callable and the backend's converters. *)
Context (declared : list (contract T)) (is_bindable : contract T -> C -> bool).

Definition is_declared_free_callable (c : contract T) : bool := bool_decide (c ∈ declared).

(** The failing static assertion of a program that does not compile. *)
Inductive build_error := not_declared | already_bound | not_bindable | incomplete.

Definition bind_callable (c : contract T) (callable : C) (slots : list bound_export_overload_slot)
  : list bound_export_overload_slot + build_error :=
  if negb (is_declared_free_callable c) then inr not_declared
  else if has_bound_export_overload_slot c slots then inr already_bound
  else inl (slots ++ [mk_slot c callable]).

(** [export_free_callable_group_builder::bind] also asserts bindability. *)
Definition bind_group (c : contract T) (callable : C) (slots : list bound_export_overload_slot)
  : list bound_export_overload_slot + build_error :=
  if negb (is_declared_free_callable c) then inr not_declared
  else if has_bound_export_overload_slot c slots then inr already_bound
  else if negb (is_bindable c callable) then inr not_bindable
  else inl (slots ++ [mk_slot c callable]).

(** [build] and [commit] release the slots once the group is complete. *)
Definition build (slots : list bound_export_overload_slot)
  : list bound_export_overload_slot + build_error :=
  if is_export_overload_builder_complete declared slots then inl slots else inr incomplete.

Fixpoint bind_all (bind : contract T -> C -> list bound_export_overload_slot ->
                          list bound_export_overload_slot + build_error)
    (binds : list (contract T * C)) (slots : list bound_export_overload_slot)
  : list bound_export_overload_slot + build_error :=
  match binds with
  | [] => inl slots
  | (c, f) :: rest => match bind c f slots with inl slots => bind_all bind rest slots | inr e => inr e end
  end.

Lemma has_slot_elem c slots :
  has_bound_export_overload_slot c slots = true <-> c ∈ map slot_contract slots.
Proof.
  induction slots as [|s slots IH]; simpl; [set_solver|].
  destruct (decide (slot_contract s = c)); [set_solver|]. rewrite IH. set_solver.
Qed.

Lemma complete_spec slots : forall ds,
  is_export_overload_builder_complete ds slots = true <->
  forall c, c ∈ ds -> is_unmatched_free_callable c = false -> c ∈ map slot_contract slots.
Proof.
  induction ds as [|c ds IH]; simpl; [set_solver|].
  rewrite andb_true_iff, orb_true_iff, IH, has_slot_elem.
  split.
  - intros [Hc Hds] c' [->|Hin]%elem_of_cons Hc'; [destruct Hc; congruence|auto].
  - intros Hall. split; [|intros c' Hin; apply Hall; by right].
    destruct (is_unmatched_free_callable c) eqn:Hu; [by left|right]. apply Hall; [left|done].
Qed.

Definition slots_wf (slots : list bound_export_overload_slot) : Prop :=
  NoDup (map slot_contract slots) /\ forall s, s ∈ slots -> slot_contract s ∈ declared.

Lemma bind_group_wf c f slots slots' :
  bind_group c f slots = inl slots' -> slots_wf slots ->
  slots_wf slots' /\ slots' = slots ++ [mk_slot c f] /\ is_bindable c f = true.
Proof.
  unfold bind_group, is_declared_free_callable, slots_wf. intros Hb [Hnd Hdecl].
  case_bool_decide as Hc; [|done]. simpl in Hb.
  destruct (has_bound_export_overload_slot c slots) eqn:Hs; [done|].
  apply not_true_iff_false in Hs. rewrite has_slot_elem in Hs.
  destruct (is_bindable c f); simpl in Hb; [|done]. simplify_eq.
  split_and!; [|set_solver|done..]. rewrite map_app. simpl.
  apply NoDup_app. split_and!; [done|set_solver|apply NoDup_singleton].
Qed.

Lemma bind_all_wf binds : forall slots slots',
  bind_all bind_group binds slots = inl slots' -> slots_wf slots ->
  slots_wf slots' /\ slots' = slots ++ map (fun cf => mk_slot cf.1 cf.2) binds
  /\ Forall (fun cf => is_bindable cf.1 cf.2 = true) binds.
Proof.
  induction binds as [|[c f] binds IH]; intros slots slots' Hb Hwf; simpl in *.
  { simplify_eq. by rewrite app_nil_r. }
  destruct (bind_group c f slots) as [slots1|] eqn:E; [|done].
  destruct (bind_group_wf _ _ _ _ E Hwf) as (Hwf1 & -> & Hbind).
  destruct (IH _ _ Hb Hwf1) as (? & -> & ?). 
    split_and!; [done|by rewrite <- app_assoc|by constructor].
Qed.

(** A fluent chain of binds that compiles up to commit binds every declared
    signature of the group exactly once, in any order, each to a callable that is
    bindable with it, and nothing else: the committed slots are the binds of the
    program, and their signatures are a permutation of the declared ones. *)
Theorem committed_group_exact binds slots :
  Forall (fun c => is_unmatched_free_callable c = false) declared -> NoDup declared ->
  bind_all bind_group binds [] = inl slots -> build slots = inl slots ->
  slots = map (fun cf => mk_slot cf.1 cf.2) binds /\ Permutation (map slot_contract slots) declared /\
  Forall (fun s => is_bindable (slot_contract s) (slot_callable s) = true) slots.
Proof.
  intros Hsent Hnd Hb Hbuild.
  destruct (bind_all_wf binds [] slots Hb) as ((Hslots & Hdecl) & -> & Hbind).
  { split; [constructor|set_solver]. }
  simpl in *. split_and!; [done| |by rewrite Forall_map].
  unfold build in Hbuild. destruct (is_export_overload_builder_complete _ _) eqn:Hc; [|done].
  rewrite complete_spec in Hc. apply NoDup_Permutation; [done..|]. intros c. split.
  - intros (s & -> & Hs)%list_elem_of_fmap. by apply Hdecl.
  - intros Hin. apply Hc; [done|]. by eapply Forall_forall in Hsent.
Qed.
End Builder.

Lemma committed_group_exact_witness :
  let c1 := mk_contract (Some 1) [1] false in let c2 := mk_contract (Some 2) [2] false in
  Permutation (map slot_contract [mk_slot c2 20; mk_slot c1 10]) [c1; c2].
Proof.
  intros c1 c2.
  apply (committed_group_exact [c1; c2] (fun _ _ => true) [(c2, 20); (c1, 10)]).
  - by repeat constructor.
  - apply (bool_decide_unpack _). by vm_compute.
  - by vm_compute.
  - by vm_compute.
Defined.
End OverloadBuilder.
