(* ===== verification/Generate.v ===== *)
(** * The declaration table and what its replay declares

    import_generate.h, export_generate.h and async_generate.h define the thirteen macros of a
    declaration table and include the table again and again, between the declarations that
    they spell out. This file has the parts they share: the table, macros and their
    definition, preprocessing, and the nesting of the declarations that come out. What a
    macro is replaced with is a list of fragments of C++: the openings and closings of
    scopes, and the declarations between them. *)

From Stdlib Require Import ZArith Lia.
From stdpp Require Import base list gmap strings.
From S2P Require Import Prelude ExportDispatch Import.

#[global] Open Scope string_scope.
#[global] Open Scope list_scope.

(** ** The table *)

Inductive macro :=
| BEGIN_INTERFACE | END_INTERFACE | IMPLEMENTS
| BEGIN_CALLABLE_GROUP | DECL_CALLABLE | DECL_FUNCTION | END_CALLABLE_GROUP
| BEGIN_CLASS | DECL_CONSTRUCTOR | BEGIN_MEMBER_CALLABLE_GROUP | DECL_MEMBER_FUNCTION | END_MEMBER_CALLABLE_GROUP
| END_CLASS.
#[export] Instance macro_eq_dec : EqDecision macro.
Proof. solve_decision. Defined.

(** A type that a table names, [OBJECT] and [CALLABLE] unexpanded; and after the expansion:
    [object_param] and [callable_param] of a class and of a group, in a namespace. *)
Inductive type_argument (T : Type) := void_type | plain_type (t : T) | OBJECT (clazz : string) | CALLABLE (group : string).
Arguments void_type {T}.
Arguments plain_type {T}.
Arguments OBJECT {T}.
Arguments CALLABLE {T}.
Inductive cxx_type (T : Type) :=
| cxx_plain (t : T)
| cxx_object_param (class_namespace clazz : string) (d : direction)
| cxx_callable_param (group_namespace group : string) (d : direction).
Arguments cxx_plain {T}.
Arguments cxx_object_param {T}.
Arguments cxx_callable_param {T}.

Inductive argument (T : Type) := name_argument (s : string) | types_argument (ts : list (type_argument T)).
Arguments name_argument {T}.
Arguments types_argument {T}.

(** One line of a table: its number, a macro and the arguments. A variadic list of types is
    one argument here, and so is the function type of [DECL_FUNCTION]. *)
Record directive (T : Type) := mk_directive { line_number : nat; invoked : macro; arguments : list (argument T) }.
Arguments mk_directive {T}.
Arguments line_number {T}.
Arguments invoked {T}.
Arguments arguments {T}.
Abbreviation table T := (list (directive T)).

(** ** Fragments of C++ *)

(** A struct or class: by its name, or the specialization of a template. *)
Inductive entity := plain (name : string) | specialization (template argument : string).
#[export] Instance entity_eq_dec : EqDecision entity.
Proof. solve_decision. Defined.

(** The bases that the generated classes have. *)
Inductive base :=
| interface_receiver_metadata
| interface_symbol_pack (clazz : string)
| interface_pack (interfaces_of method_names_of : string)
| receiver_storage (clazz : string)
| async_interfaces (interfaces_of : string)
| async_mixin (name : string)
| erased_context.

Inductive scope :=
| namespace (name : string)
| class (e : entity) (bases : list base)
| type_list (alias : string)
| callable_group (alias : string)
| function (name : string)
| compound.

(** Elements of a [type_list]; [symbol_overloads] is [typename S::overloads_t] of a symbol
    found from the class that encloses the function. *)
Inductive element (T : Type) :=
| free_callable (c : contract (cxx_type T))
| descriptor (name : string) (d : direction)
| void_element.
Arguments free_callable {T}.
Arguments descriptor {T}.
Arguments void_element {T}.

Inductive item (T : Type) :=
| forward (name : string)
| begin_index (n : nat) | end_index (n : nat)
| method_name_at (name : string) (index : nat)
| symbol_name (s : string)
| using_alias (alias target : string)
| listed (e : element T)
| static_assert_not_reference (t : option (cxx_type T))
| returns (callee : string)
| calls (callee : string)
| register_interfaces (interfaces_of : string)
| constructor_statement (parameters : list (cxx_type T))
| callable_name (s : string) | member_tag (s : string)
| member_statement (signature : contract (cxx_type T)).
Arguments forward {T}.
Arguments begin_index {T}.
Arguments end_index {T}.
Arguments method_name_at {T}.
Arguments symbol_name {T}.
Arguments using_alias {T}.
Arguments listed {T}.
Arguments static_assert_not_reference {T}.
Arguments returns {T}.
Arguments calls {T}.
Arguments register_interfaces {T}.
Arguments constructor_statement {T}.
Arguments callable_name {T}.
Arguments member_tag {T}.
Arguments member_statement {T}.

Inductive fragment (T : Type) := Open (s : scope) | Close | Emit (i : item T).
Arguments Open {T}.
Arguments Close {T}.
Arguments Emit {T}.

(** ** Macros *)

Section Macros.
Context {T : Type} (is_reference : T -> bool).

(** The two macros of the library for the types of a table. *)
Record type_macros := mk_type_macros {
  object_macro : option (string -> cxx_type T);
  callable_macro : option (string -> cxx_type T)
}.
Definition expand_type (ms : type_macros) (t : type_argument T) : option (option (cxx_type T)) :=
  match t with
  | void_type => Some None
  | plain_type t => Some (Some (cxx_plain t))
  | OBJECT c => (fun f => Some (f c)) <$> object_macro ms
  | CALLABLE g => (fun f => Some (f g)) <$> callable_macro ms
  end.

(** A function has no parameter of type void here. *)
Definition expand_parameters (ms : type_macros) (ts : list (type_argument T)) : option (list (cxx_type T)) :=
  expanded ← mapM (expand_type ms) ts; mapM (fun t => t) expanded.

(** [signature_from_types]: a result and parameters; the result is no reference. *)
Definition result_ok (r : option (cxx_type T)) : bool :=
  match r with Some (cxx_plain t) => negb (is_reference t) | _ => true end.
Definition signature_from_types (ms : type_macros) (ts : list (type_argument T)) : option (contract (cxx_type T)) :=
  match ts with
  | [] => None
  | r :: ps =>
      r ← expand_type ms r;
      ps ← expand_parameters ms ps;
      if result_ok r then Some (mk_contract r ps false) else None
  end.
(** A function type as it is. *)
Definition function_type (ms : type_macros) (ts : list (type_argument T)) : option (contract (cxx_type T)) :=
  match ts with
  | [] => None
  | r :: ps => r ← expand_type ms r; ps ← expand_parameters ms ps; Some (mk_contract r ps false)
  end.
Definition constructor_signature (ms : type_macros) (ts : list (type_argument T)) : option (contract (cxx_type T)) :=
  ps ← expand_parameters ms ts; Some (mk_contract None ps false).
Definition unmatched : contract (cxx_type T) := mk_contract None [] true.

(** What a macro is replaced with: nothing, or fragments made of its arguments and of the
    line of the table. *)
Inductive shape := object_like | with_parameters (n : nat) | variadic.
#[export] Instance shape_eq_dec : EqDecision shape.
Proof. solve_decision. Defined.
Inductive signature_kind := result_and_parameters | a_function_type | parameters_only.
#[export] Instance signature_kind_eq_dec : EqDecision signature_kind.
Proof. solve_decision. Defined.
Inductive replacement :=
| fixed (fs : list (fragment T))
| with_line (f : nat -> list (fragment T))
| with_name (f : string -> nat -> list (fragment T))
| with_class (f : string -> string -> nat -> list (fragment T))
| with_signature (k : signature_kind) (f : contract (cxx_type T) -> list (fragment T)).
Record macro_definition := mk_macro { macro_shape : shape; replaced_with : option replacement }.

Definition arguments_fit (s : shape) (args : list (argument T)) : bool :=
  bool_decide (length args = match s with object_like => 0 | with_parameters n => n | variadic => 1 end)%nat.
Definition read_signature (k : signature_kind) (ms : type_macros) (ts : list (type_argument T))
  : option (contract (cxx_type T)) :=
  match k with
  | result_and_parameters => signature_from_types ms ts
  | a_function_type => function_type ms ts
  | parameters_only => constructor_signature ms ts
  end.
Definition replace (r : option replacement) (ms : type_macros) (line : nat) (args : list (argument T))
  : option (list (fragment T)) :=
  match r, args with
  | None, _ => Some []
  | Some (fixed fs), _ => Some fs
  | Some (with_line f), _ => Some (f line)
  | Some (with_name f), [name_argument s] => Some (f s line)
  | Some (with_class f), [name_argument ns; name_argument clazz] => Some (f ns clazz line)
  | Some (with_signature k f), [types_argument ts] => f <$> read_signature k ms ts
  | _, _ => None
  end.

(** ** Preprocessing *)

(** A header: definitions of macros, inclusions of the two tables, and source text. *)
Inductive source_line :=
| Define (m : macro) (d : macro_definition)
| Undef (m : macro)
| DefineTypes (ms : type_macros)
| UndefTypes
| IncludeImportDef
| IncludeExportDef
| Source (fs : list (fragment T)).

Definition macro_index (m : macro) : nat :=
  match m with
  | BEGIN_INTERFACE => 0 | END_INTERFACE => 1 | IMPLEMENTS => 2
  | BEGIN_CALLABLE_GROUP => 3 | DECL_CALLABLE => 4 | DECL_FUNCTION => 5 | END_CALLABLE_GROUP => 6
  | BEGIN_CLASS => 7 | DECL_CONSTRUCTOR => 8 | BEGIN_MEMBER_CALLABLE_GROUP => 9 | DECL_MEMBER_FUNCTION => 10
  | END_MEMBER_CALLABLE_GROUP => 11 | END_CLASS => 12
  end.
Record environment := mk_environment { macros : list (option macro_definition); types : type_macros }.
Definition no_types : type_macros := mk_type_macros None None.
Definition no_macros : environment := mk_environment (replicate 13 None) no_types.
Definition find_macro (e : environment) (m : macro) : option macro_definition := mjoin (macros e !! macro_index m).
Definition set_macro (m : macro) (d : option macro_definition) (e : environment) : environment :=
  mk_environment (<[macro_index m := d]> (macros e)) (types e).

(** A macro that is defined may only be defined again as it is; those that a header defines
    again are empty. *)
Definition may_define (e : environment) (m : macro) (d : macro_definition) : bool :=
  match find_macro e m with
  | None => true
  | Some d' =>
      match replaced_with d', replaced_with d with
      | None, None => bool_decide (macro_shape d' = macro_shape d)
      | _, _ => false
      end
  end.

(** A line of a table is an invocation of a macro: any other text is no declaration. *)
Definition expand_directive (e : environment) (d : directive T) : option (list (fragment T)) :=
  m ← find_macro e (invoked d);
  if arguments_fit (macro_shape m) (arguments d) then replace (replaced_with m) (types e) (line_number d) (arguments d)
  else None.
Definition expand_table (e : environment) (t : table T) : option (list (fragment T)) :=
  mjoin <$> mapM (expand_directive e) t.

Definition run_line (l : source_line) (e : environment) : option environment :=
  match l with
  | Define m d => if may_define e m d then Some (set_macro m (Some d) e) else None
  | Undef m => Some (set_macro m None e)
  | DefineTypes ms => Some (mk_environment (macros e) ms)
  | UndefTypes => Some (mk_environment (macros e) no_types)
  | IncludeImportDef | IncludeExportDef | Source _ => Some e
  end.
Definition emitted (import_def export_def : table T) (l : source_line) (e : environment) : option (list (fragment T)) :=
  match l with
  | Source fs => Some fs
  | IncludeImportDef => expand_table e import_def
  | IncludeExportDef => expand_table e export_def
  | _ => Some []
  end.
Fixpoint preprocess (import_def export_def : table T) (header : list source_line) (e : environment)
  : option (list (fragment T) * environment) :=
  match header with
  | [] => Some ([], e)
  | l :: rest =>
      fs ← emitted import_def export_def l e;
      e ← run_line l e;
      tail ← preprocess import_def export_def rest e;
      Some (fs ++ tail.1, tail.2)
  end.

(** Elements of lists of overloads, and the sentinel that closes them. *)
Definition contract_element (c : contract (cxx_type T)) : list (fragment T) := [Emit (listed (free_callable c))].
Definition sentinel_element : list (fragment T) := [Emit (listed (free_callable unmatched)); Close].

(** Groups of definitions that come again and again. *)
Definition define (s : shape) (m : macro) (r : replacement) : source_line := Define m (mk_macro s (Some r)).
Definition define_empty (s : shape) (m : macro) : source_line := Define m (mk_macro s None).
Definition no_interfaces : list source_line :=
  [define_empty (with_parameters 1) BEGIN_INTERFACE; define_empty object_like END_INTERFACE].
Definition no_groups : list source_line :=
  [define_empty (with_parameters 1) BEGIN_CALLABLE_GROUP; define_empty variadic DECL_CALLABLE;
   define_empty (with_parameters 1) DECL_FUNCTION; define_empty object_like END_CALLABLE_GROUP].
Definition no_members : list source_line :=
  [define_empty (with_parameters 1) BEGIN_MEMBER_CALLABLE_GROUP; define_empty variadic DECL_MEMBER_FUNCTION;
   define_empty object_like END_MEMBER_CALLABLE_GROUP].
Definition undef_interfaces : list source_line := [Undef BEGIN_INTERFACE; Undef END_INTERFACE].
Definition undef_declarations : list source_line :=
  map Undef [END_CLASS; END_MEMBER_CALLABLE_GROUP; DECL_MEMBER_FUNCTION; BEGIN_MEMBER_CALLABLE_GROUP; DECL_CONSTRUCTOR;
    BEGIN_CLASS; END_CALLABLE_GROUP; DECL_FUNCTION; DECL_CALLABLE; BEGIN_CALLABLE_GROUP].
Definition open_namespace (n : string) : source_line := Source [Open (namespace n)].
Definition close_namespace : source_line := Source [Close].

(** What a header does whatever the tables say: the text it emits itself and the
    environments that it includes the tables in. *)
Inductive segment := Text (fs : list (fragment T)) | Included (import : bool) (e : environment).
Fixpoint segments (header : list source_line) (e : environment) : option (list segment * environment) :=
  match header with
  | [] => Some ([], e)
  | l :: rest =>
      e' ← run_line l e;
      tail ← segments rest e';
      Some (match l with
            | Source fs => Text fs :: tail.1
            | IncludeImportDef => Included true e :: tail.1
            | IncludeExportDef => Included false e :: tail.1
            | _ => tail.1
            end, tail.2)
  end.
Definition expand_segment (import_def export_def : table T) (s : segment) : option (list (fragment T)) :=
  match s with
  | Text fs => Some fs
  | Included true e => expand_table e import_def
  | Included false e => expand_table e export_def
  end.

Lemma preprocess_segments i x header : forall e,
  preprocess i x header e =
    (s ← segments header e; fs ← mapM (expand_segment i x) s.1; Some (mjoin fs, s.2)).
Proof.
  induction header as [|l rest IH]; intros e; [done|]. simpl.
  destruct (run_line l e) as [e'|] eqn:He; simpl; [|by destruct (emitted i x l e)]. rewrite IH.
  destruct (segments rest e') as [[ss e2]|]; simpl; [|by destruct (emitted i x l e)].
  destruct l; simpl; try (destruct (mapM (expand_segment i x) ss); done);
    try (by destruct (expand_table e _), (mapM (expand_segment i x) ss)).
Qed.

(** ** Well-nested tables *)

(** The blocks of a table, over what stands for a signature. *)
Record group (S : Type) := mk_group { group_line : nat; group_name : string; overloads : list S; group_end : nat }.
#[global] Arguments mk_group {S}.
#[global] Arguments group_line {S}.
#[global] Arguments group_name {S}.
#[global] Arguments overloads {S}.
#[global] Arguments group_end {S}.
Inductive class_item (S : Type) := Implements (line : nat) (name : string) | Constructor (signature : S) | Members (g : group S).
#[global] Arguments Implements {S}.
#[global] Arguments Constructor {S}.
#[global] Arguments Members {S}.
Inductive block (S : Type) :=
| GroupBlock (g : group S)
| InterfaceBlock (line : nat) (name : string) (methods : list (group S)) (last : nat)
| ClassBlock (line : nat) (ns : option string) (clazz : string) (items : list (class_item S)) (last : nat).
#[global] Arguments GroupBlock {S}.
#[global] Arguments InterfaceBlock {S}.
#[global] Arguments ClassBlock {S}.

(** A signature as the table has it, on its line, and after the expansion of its types. A
    group declares signatures in two ways. *)
Record written := mk_written { written_line : nat; as_function : bool; written_types : list (type_argument T) }.
Record declared_signature := mk_declared { by_function : bool; declared_contract : contract (cxx_type T) }.

Definition write_signature (m : macro) (w : written) : directive T :=
  mk_directive (written_line w) m [types_argument (written_types w)].
Definition write_overload (w : written) : directive T :=
  write_signature (if as_function w then DECL_FUNCTION else DECL_CALLABLE) w.
Definition write_group (g : group written) : table T :=
  mk_directive (group_line g) BEGIN_CALLABLE_GROUP [name_argument (group_name g)] :: map write_overload (overloads g)
  ++ [mk_directive (group_end g) END_CALLABLE_GROUP []].
Definition write_members (g : group written) : table T :=
  mk_directive (group_line g) BEGIN_MEMBER_CALLABLE_GROUP [name_argument (group_name g)]
  :: map (write_signature DECL_MEMBER_FUNCTION) (overloads g)
  ++ [mk_directive (group_end g) END_MEMBER_CALLABLE_GROUP []].
Definition write_item (i : class_item written) : table T :=
  match i with
  | Implements line name => [mk_directive line IMPLEMENTS [name_argument name]]
  | Constructor w => [write_signature DECL_CONSTRUCTOR w]
  | Members g => write_members g
  end.
Definition write_block (b : block written) : table T :=
  match b with
  | GroupBlock g => write_group g
  | InterfaceBlock line name methods last =>
      mk_directive line BEGIN_INTERFACE [name_argument name] :: flat_map write_members methods
      ++ [mk_directive last END_INTERFACE []]
  | ClassBlock line ns clazz items last =>
      mk_directive line BEGIN_CLASS (option_list (name_argument <$> ns) ++ [name_argument clazz]) :: flat_map write_item items
      ++ [mk_directive last END_CLASS []]
  end.
Definition write (bs : list (block written)) : table T := flat_map write_block bs.

(** The types of a block expanded. *)
Definition elaborate_signature (k : signature_kind) (ms : type_macros) (w : written) : option declared_signature :=
  mk_declared (as_function w) <$> read_signature k ms (written_types w).
Definition elaborate_overload (ms : type_macros) (w : written) : option declared_signature :=
  elaborate_signature (if as_function w then a_function_type else result_and_parameters) ms w.
Definition elaborate_group (f : written -> option declared_signature) (g : group written) : option (group declared_signature) :=
  os ← mapM f (overloads g); Some (mk_group (group_line g) (group_name g) os (group_end g)).
Definition elaborate_members (ms : type_macros) : group written -> option (group declared_signature) :=
  elaborate_group (elaborate_signature result_and_parameters ms).
Definition elaborate_item (ms : type_macros) (i : class_item written) : option (class_item declared_signature) :=
  match i with
  | Implements line name => Some (Implements line name)
  | Constructor w => Constructor <$> elaborate_signature parameters_only ms w
  | Members g => Members <$> elaborate_members ms g
  end.
Definition elaborate_block (ms : type_macros) (b : block written) : option (block declared_signature) :=
  match b with
  | GroupBlock g => GroupBlock <$> elaborate_group (elaborate_overload ms) g
  | InterfaceBlock line name methods last =>
      methods ← mapM (elaborate_members ms) methods; Some (InterfaceBlock line name methods last)
  | ClassBlock line ns clazz items last => items ← mapM (elaborate_item ms) items; Some (ClassBlock line ns clazz items last)
  end.
Definition elaborate (ms : type_macros) : list (block written) -> option (list (block declared_signature)) :=
  mapM (elaborate_block ms).

(** What an environment makes of a table. *)
Definition replaced (e : environment) (m : macro) : option replacement := find_macro e m ≫= replaced_with.
Definition emit_name (e : environment) (m : macro) (name : string) (line : nat) : list (fragment T) :=
  match replaced e m with Some (with_name f) => f name line | Some (with_line f) => f line | Some (fixed fs) => fs | _ => [] end.
Definition emit_class (e : environment) (ns : option string) (clazz : string) (line : nat) : list (fragment T) :=
  match replaced e BEGIN_CLASS, ns with
  | Some (with_class f), Some ns => f ns clazz line
  | Some (with_name f), None => f clazz line
  | Some (fixed fs), _ => fs
  | _, _ => []
  end.
Definition emit_end (e : environment) (m : macro) (line : nat) : list (fragment T) :=
  match replaced e m with Some (with_line f) => f line | Some (fixed fs) => fs | _ => [] end.
Definition emit_signature (e : environment) (m : macro) (d : declared_signature) : list (fragment T) :=
  match replaced e m with Some (with_signature _ f) => f (declared_contract d) | Some (fixed fs) => fs | _ => [] end.
Definition emit_overload (e : environment) (d : declared_signature) : list (fragment T) :=
  emit_signature e (if by_function d then DECL_FUNCTION else DECL_CALLABLE) d.
Definition emit_group (e : environment) (g : group declared_signature) : list (fragment T) :=
  emit_name e BEGIN_CALLABLE_GROUP (group_name g) (group_line g) ++ flat_map (emit_overload e) (overloads g)
  ++ emit_end e END_CALLABLE_GROUP (group_end g).
Definition emit_members (e : environment) (g : group declared_signature) : list (fragment T) :=
  emit_name e BEGIN_MEMBER_CALLABLE_GROUP (group_name g) (group_line g)
  ++ flat_map (emit_signature e DECL_MEMBER_FUNCTION) (overloads g)
  ++ emit_end e END_MEMBER_CALLABLE_GROUP (group_end g).
Definition emit_item (e : environment) (i : class_item declared_signature) : list (fragment T) :=
  match i with
  | Implements line name => emit_name e IMPLEMENTS name line
  | Constructor d => emit_signature e DECL_CONSTRUCTOR d
  | Members g => emit_members e g
  end.
Definition emit_block (e : environment) (b : block declared_signature) : list (fragment T) :=
  match b with
  | GroupBlock g => emit_group e g
  | InterfaceBlock line name methods last =>
      emit_name e BEGIN_INTERFACE name line ++ flat_map (emit_members e) methods ++ emit_end e END_INTERFACE last
  | ClassBlock line ns clazz items last =>
      emit_class e ns clazz line ++ flat_map (emit_item e) items ++ emit_end e END_CLASS last
  end.

(** An environment that can replay tables: it has every macro, for the arguments that tables
    give it. [two] is whether a class has a namespace. *)
Definition takes (d : macro_definition) (ok : replacement -> bool) (s : shape) : bool :=
  bool_decide (macro_shape d = s) && match replaced_with d with None => true | Some r => ok r end.
Definition replays_macro (e : environment) (m : macro) (shapes : list shape) (ok : replacement -> bool) : bool :=
  match find_macro e m with Some d => existsb (takes d ok) shapes | None => false end.
Definition for_name (r : replacement) : bool := match r with with_name _ | with_line _ | fixed _ => true | _ => false end.
Definition for_end (r : replacement) : bool := match r with with_line _ | fixed _ => true | _ => false end.
Definition for_class (two : bool) (r : replacement) : bool :=
  match r with with_class _ => two | with_name _ => negb two | fixed _ => true | _ => false end.
(** A macro may read as a function type what is a result and parameters. *)
Definition reads (k' k : signature_kind) : bool :=
  bool_decide (k' = k) || bool_decide (k' = a_function_type) && bool_decide (k = result_and_parameters).
Definition for_signature (k : signature_kind) (r : replacement) : bool :=
  match r with with_signature k' _ => reads k' k | fixed _ => true | _ => false end.
Definition replayed (two : bool) : list (macro * list shape * (replacement -> bool)) :=
    [(BEGIN_INTERFACE, [with_parameters 1], for_name); (END_INTERFACE, [object_like], for_end);
     (IMPLEMENTS, [with_parameters 1], for_name); (BEGIN_CALLABLE_GROUP, [with_parameters 1], for_name);
     (DECL_CALLABLE, [variadic], for_signature result_and_parameters);
     (DECL_FUNCTION, [with_parameters 1; variadic], for_signature a_function_type);
     (END_CALLABLE_GROUP, [object_like], for_end);
     (BEGIN_CLASS, [with_parameters (if two then 2 else 1)], for_class two);
     (DECL_CONSTRUCTOR, [variadic], for_signature parameters_only);
     (BEGIN_MEMBER_CALLABLE_GROUP, [with_parameters 1], for_name);
     (DECL_MEMBER_FUNCTION, [variadic], for_signature result_and_parameters);
     (END_MEMBER_CALLABLE_GROUP, [object_like], for_end); (END_CLASS, [object_like], for_end)].
Definition replays (two : bool) (e : environment) : bool :=
  forallb (fun x => replays_macro e x.1.1 x.1.2 x.2) (replayed two).

(** It has the macros for types if it keeps signatures. *)
Definition keeps (e : environment) (m : macro) : bool :=
  match replaced e m with Some (with_signature _ _) => true | _ => false end.
Definition types_for (ms : type_macros) (e : environment) : Prop := forall m, keeps e m = true -> types e = ms.

Lemma expand_app e t1 t2 fs1 fs2 :
  expand_table e t1 = Some fs1 -> expand_table e t2 = Some fs2 -> expand_table e (t1 ++ t2) = Some (fs1 ++ fs2).
Proof.
  unfold expand_table. revert fs1. induction t1 as [|d t1 IH]; intros fs1; simpl; [by intros [= <-]|].
  destruct (expand_directive e d) as [fs|]; simpl; [|done]. destruct (mapM _ t1) as [l1|]; simpl; [|done].
  intros [= <-] H2. specialize (IH _ eq_refl H2). destruct (mapM _ (t1 ++ t2)) as [l|]; simpl in *; [|done].
  injection IH as IH. by rewrite IH, app_assoc.
Qed.
Lemma expand_one e d fs : expand_directive e d = Some fs -> expand_table e [d] = Some fs.
Proof. intros H. unfold expand_table. simpl. rewrite H. simpl. by rewrite app_nil_r. Qed.
Lemma expand_cons e d t fs1 fs2 :
  expand_directive e d = Some fs1 -> expand_table e t = Some fs2 -> expand_table e (d :: t) = Some (fs1 ++ fs2).
Proof. intros H. apply (expand_app e [d] t fs1 fs2 (expand_one _ _ _ H)). Qed.
Lemma expand_all {A B} e (w : A -> table T) (elab : A -> option B) (emit : B -> list (fragment T)) xs :
  (forall x y, elab x = Some y -> expand_table e (w x) = Some (emit y)) ->
  forall ys, mapM elab xs = Some ys -> expand_table e (flat_map w xs) = Some (flat_map emit ys).
Proof.
  intros Hx. induction xs as [|x xs IH]; intros ys; simpl; [by intros [= <-]|].
  intros (y & Hy & (ys' & Hys & [= <-])%bind_Some)%bind_Some. simpl. by apply expand_app; [apply Hx|apply IH].
Qed.
Lemma map_flat {A B} (f : A -> B) l : map f l = flat_map (fun x => [f x]) l.
Proof. by induction l as [|x l IH]; simpl; [|rewrite IH]. Qed.

(** ** Replaying a well-nested table *)

Lemma expand_named e m : replays_macro e m [with_parameters 1] for_name = true ->
  forall name line, expand_directive e (mk_directive line m [name_argument name]) = Some (emit_name e m name line).
Proof.
  unfold replays_macro, expand_directive, emit_name, replaced. intros Hm name line. simpl.
  destruct (find_macro e m) as [[s r]|]; [|done]. unfold takes in Hm. simpl in *.
  rewrite orb_false_r, andb_true_iff, bool_decide_eq_true in Hm. destruct Hm as [-> Hr]. by destruct r as [[]|].
Qed.
Lemma expand_end e m : replays_macro e m [object_like] for_end = true ->
  forall line, expand_directive e (mk_directive line m []) = Some (emit_end e m line).
Proof.
  unfold replays_macro, expand_directive, emit_end, replaced. intros Hm line. simpl.
  destruct (find_macro e m) as [[s r]|]; [|done]. unfold takes in Hm. simpl in *.
  rewrite orb_false_r, andb_true_iff, bool_decide_eq_true in Hm. destruct Hm as [-> Hr]. by destruct r as [[]|].
Qed.
Lemma reads_signature k' k ms ts c : reads k' k = true -> read_signature k ms ts = Some c -> read_signature k' ms ts = Some c.
Proof.
  unfold reads. rewrite orb_true_iff, andb_true_iff, !bool_decide_eq_true. intros [->|[-> ->]]; [done|].
  destruct ts as [|r ps]; [done|]. simpl. destruct (expand_type ms r) as [r'|]; [|done]. simpl.
  destruct (expand_parameters ms ps) as [ps'|]; [|done]. simpl. by destruct (result_ok r').
Qed.
Lemma expand_signature e ms m k shapes : replays_macro e m shapes (for_signature k) = true ->
  (forall s, s ∈ shapes -> s = with_parameters 1 \/ s = variadic) -> types_for ms e ->
  forall w d, elaborate_signature k ms w = Some d ->
  expand_directive e (write_signature m w) = Some (emit_signature e m d).
Proof.
  intros Hm Hs Ht w d. specialize (Ht m). revert Hm Ht.
  unfold replays_macro, expand_directive, emit_signature, replaced, keeps, elaborate_signature, write_signature, replaced. simpl.
  destruct (find_macro e m) as [[s r]|]; [|done]. simpl. rewrite existsb_exists. intros (s' & Hin & Htakes) Ht.
  unfold takes in Htakes. simpl in Htakes. rewrite andb_true_iff, bool_decide_eq_true in Htakes. destruct Htakes as [-> Hr].
  assert (arguments_fit s' [types_argument (written_types w)] = true) as ->.
  { apply list_elem_of_In in Hin. by destruct (Hs s' Hin) as [-> | ->]. }
  destruct r as [[| | | |k' f]|]; try done. simpl in *. rewrite Ht by done.
  intros (c & Hc & ->)%fmap_Some. by rewrite (reads_signature _ _ _ _ _ Hr Hc).
Qed.

Section Replays.
Context (two : bool) (ms : type_macros) (e : environment).
Hypothesis Hreplays : replays two e = true.
Hypothesis Htypes : types_for ms e.

Lemma replays_in m shapes ok : In (m, shapes, ok) (replayed two) -> replays_macro e m shapes ok = true.
Proof. intros Hin. unfold replays in Hreplays. rewrite forallb_forall in Hreplays. exact (Hreplays _ Hin). Qed.
Ltac entry := apply replays_in; simpl; tauto.

Lemma expand_class ns clazz line : is_Some ns <-> two = true ->
  expand_directive e (mk_directive line BEGIN_CLASS (option_list (name_argument <$> ns) ++ [name_argument clazz])) =
  Some (emit_class e ns clazz line).
Proof.
  intros Hns.
  assert (replays_macro e BEGIN_CLASS [with_parameters (if two then 2 else 1)] (for_class two) = true) as Hm by entry.
  revert Hm. unfold replays_macro, expand_directive, emit_class, replaced. simpl.
  destruct (find_macro e BEGIN_CLASS) as [[s r]|]; [|done]. unfold takes. simpl.
  rewrite orb_false_r, andb_true_iff, bool_decide_eq_true. intros [-> Hr].
  destruct ns as [ns|], two; try (exfalso; naive_solver); simpl; by destruct r as [[]|].
Qed.

Lemma expand_members g g' : elaborate_members ms g = Some g' -> expand_table e (write_members g) = Some (emit_members e g').
Proof.
  intros (os & Hos & [= <-])%bind_Some. unfold write_members, emit_members. simpl.
  apply expand_cons; [apply expand_named; entry|]. apply expand_app; [|apply expand_one, expand_end; entry].
  rewrite map_flat. revert Hos. apply expand_all. intros w d Hd. apply expand_one. revert Hd.
  eapply expand_signature; [entry|set_solver|done].
Qed.
Lemma expand_group g g' : elaborate_group (elaborate_overload ms) g = Some g' ->
  expand_table e (write_group g) = Some (emit_group e g').
Proof.
  intros (os & Hos & [= <-])%bind_Some. unfold write_group, emit_group. simpl.
  apply expand_cons; [apply expand_named; entry|]. apply expand_app; [|apply expand_one, expand_end; entry].
  rewrite map_flat. revert Hos. apply expand_all. intros w d Hd. apply expand_one. unfold write_overload, emit_overload.
  pose proof Hd as Hd'. unfold elaborate_overload, elaborate_signature in Hd'. apply fmap_Some in Hd' as (c & _ & ->). simpl.
  destruct (as_function w) eqn:Hw; (eapply expand_signature; [entry|set_solver|exact Htypes|]);
    unfold elaborate_overload in Hd; rewrite Hw in Hd; unfold elaborate_signature in Hd |- *; by rewrite Hw in Hd |- *.
Qed.
Lemma expand_item i i' : elaborate_item ms i = Some i' -> expand_table e (write_item i) = Some (emit_item e i').
Proof.
  destruct i as [line name|w|g]; simpl.
  - intros [= <-]. apply expand_one, expand_named. entry.
  - intros (d & Hd & ->)%fmap_Some. apply expand_one. revert Hd. eapply expand_signature; [entry|set_solver|done].
  - intros (g' & Hg & ->)%fmap_Some. by apply expand_members.
Qed.

(** The classes of a table have a namespace if it is the table of exports. *)
Definition on_side {S} (b : block S) : Prop :=
  match b with ClassBlock _ ns _ _ _ => is_Some ns <-> two = true | _ => True end.

Lemma expand_block b b' : on_side b -> elaborate_block ms b = Some b' -> expand_table e (write_block b) = Some (emit_block e b').
Proof.
  destruct b as [g|line name methods last|line ns clazz items last]; simpl; intros Hside.
  - intros (g' & Hg & ->)%fmap_Some. by apply expand_group.
  - intros (gs & Hgs & [= <-])%bind_Some. simpl. apply expand_cons; [apply expand_named; entry|].
    apply expand_app; [|apply expand_one, expand_end; entry]. revert Hgs. apply expand_all. apply expand_members.
  - intros (is' & His & [= <-])%bind_Some. simpl. apply expand_cons; [by apply expand_class|].
    apply expand_app; [|apply expand_one, expand_end; entry]. revert His. apply expand_all. apply expand_item.
Qed.

(** An environment that has every macro makes the same of a table whatever it was before:
    what it makes of the blocks, one after the other. *)
Lemma expand_write bs bs' : Forall on_side bs -> elaborate ms bs = Some bs' ->
  expand_table e (write bs) = Some (flat_map (emit_block e) bs').
Proof.
  intros Hside Hbs. unfold write. revert bs' Hbs. induction Hside as [|b bs Hb _ IH]; simpl; [by intros ? [= <-]|].
  intros bs' (b' & Hb' & (bs'' & Hbs & [= <-])%bind_Some)%bind_Some. simpl.
  apply expand_app; [by apply expand_block|by apply IH].
Qed.
End Replays.

(** ** Replaying two tables *)

Section Segments.
Context (import_blocks export_blocks : list (block declared_signature)).

Definition emit_segment (s : segment) : list (fragment T) :=
  match s with
  | Text fs => fs
  | Included true e => flat_map (emit_block e) import_blocks
  | Included false e => flat_map (emit_block e) export_blocks
  end.
Definition segment_ok (import_types export_types : type_macros) (s : segment) : Prop :=
  match s with
  | Text _ => True
  | Included true e => replays false e = true /\ types_for import_types e
  | Included false e => replays true e = true /\ types_for export_types e
  end.

Lemma expand_segments ims xms i x ss :
  Forall (on_side false) i -> Forall (on_side true) x ->
  elaborate ims i = Some import_blocks -> elaborate xms x = Some export_blocks -> Forall (segment_ok ims xms) ss ->
  mapM (expand_segment (write i) (write x)) ss = Some (map emit_segment ss).
Proof.
  intros Hi Hx Hei Hex Hss. induction Hss as [|s ss Hs _ IH]; [done|]. simpl. rewrite IH.
  assert (expand_segment (write i) (write x) s = Some (emit_segment s)) as ->; [|done].
  destruct s as [fs|[] e]; [done|..]; simpl in *; destruct Hs; by eapply expand_write.
Qed.
End Segments.

Lemma elaborate_on_side two ms bs bs' :
  Forall (on_side two) bs -> elaborate ms bs = Some bs' -> Forall (on_side two) bs'.
Proof.
  intros Hs. revert bs'. unfold elaborate. induction Hs as [|b bs Hb _ IH]; intros bs'; simpl; [by intros [= <-]|].
  intros (b' & Hb' & (bs'' & Hbs & [= <-])%bind_Some)%bind_Some. constructor; [|by apply IH].
  destruct b as [g|line name methods last|line ns clazz items last]; simpl in *.
  - by apply fmap_Some in Hb' as (g' & _ & ->).
  - by apply bind_Some in Hb' as (gs & _ & [= <-]).
  - by apply bind_Some in Hb' as (is' & _ & [= <-]).
Qed.

(** ** Macros that are replaced with nothing *)

Definition silent (e : environment) (m : macro) : bool :=
  match replaced e m with None | Some (fixed []) => true | _ => false end.
Lemma silent_name e m name line : silent e m = true -> emit_name e m name line = [].
Proof. unfold silent, emit_name. by destruct (replaced e m) as [[[]| | | |]|]. Qed.
Lemma silent_end e m line : silent e m = true -> emit_end e m line = [].
Proof. unfold silent, emit_end. by destruct (replaced e m) as [[[]| | | |]|]. Qed.
Lemma silent_signature e m d : silent e m = true -> emit_signature e m d = [].
Proof. unfold silent, emit_signature. by destruct (replaced e m) as [[[]| | | |]|]. Qed.
Lemma silent_class e ns clazz line : silent e BEGIN_CLASS = true -> emit_class e ns clazz line = [].
Proof. unfold silent, emit_class. by destruct (replaced e BEGIN_CLASS) as [[[]| | | |]|], ns. Qed.
Lemma flat_map_none {A B} (f : A -> list B) l : (forall x, f x = []) -> flat_map f l = [].
Proof. intros Hf. induction l as [|x l IH]; simpl; [done|]. by rewrite Hf. Qed.

Definition silent_groups (e : environment) : bool :=
  forallb (silent e) [BEGIN_CALLABLE_GROUP; DECL_CALLABLE; DECL_FUNCTION; END_CALLABLE_GROUP].
Definition silent_methods (e : environment) : bool :=
  forallb (silent e) [BEGIN_MEMBER_CALLABLE_GROUP; DECL_MEMBER_FUNCTION; END_MEMBER_CALLABLE_GROUP].
Definition silent_items (e : environment) : bool := silent e IMPLEMENTS && silent e DECL_CONSTRUCTOR && silent_methods e.

Lemma emit_overloads_silent e os :
  silent e DECL_CALLABLE && silent e DECL_FUNCTION = true -> flat_map (emit_overload e) os = [].
Proof.
  rewrite andb_true_iff. intros [H1 H2]. apply flat_map_none. intros d. apply silent_signature. by destruct (by_function d).
Qed.
Lemma emit_signatures_silent e m os : silent e m = true -> flat_map (emit_signature e m) os = [].
Proof. intros H. apply flat_map_none. intros d. by apply silent_signature. Qed.
Lemma emit_group_silent e g : silent_groups e = true -> emit_group e g = [].
Proof.
  unfold silent_groups, emit_group. simpl. rewrite !andb_true_iff. intros (H1 & H2 & H3 & H4 & _).
  rewrite silent_name, silent_end by done. rewrite emit_overloads_silent; [done|]. by rewrite H2, H3.
Qed.
Lemma emit_members_silent e g : silent_methods e = true -> emit_members e g = [].
Proof.
  unfold silent_methods, emit_members. simpl. rewrite !andb_true_iff. intros (H1 & H2 & H3 & _).
  rewrite silent_name, silent_end by done. by rewrite emit_signatures_silent.
Qed.
Lemma emit_methods_silent e gs : silent_methods e = true -> flat_map (emit_members e) gs = [].
Proof. intros H. apply flat_map_none. intros g. by apply emit_members_silent. Qed.
Lemma emit_items_silent e is_ : silent_items e = true -> flat_map (emit_item e) is_ = [].
Proof.
  unfold silent_items. rewrite !andb_true_iff. intros [[H1 H2] H3]. apply flat_map_none. intros [line name|d|g]; simpl.
  - by apply silent_name.
  - by apply silent_signature.
  - by apply emit_members_silent.
Qed.

(** Lists of overloads that are kept. *)
Lemma emit_overloads_kept e os k1 k2 :
  replaced e DECL_CALLABLE = Some (with_signature k1 contract_element) ->
  replaced e DECL_FUNCTION = Some (with_signature k2 contract_element) ->
  flat_map (emit_overload e) os = flat_map contract_element (map declared_contract os).
Proof.
  intros H1 H2. induction os as [|d os IH]; simpl; [done|]. rewrite IH. unfold emit_overload, emit_signature.
  destruct (by_function d); [by rewrite H2|by rewrite H1].
Qed.
Lemma emit_signatures_kept e m os k f :
  replaced e m = Some (with_signature k f) ->
  flat_map (emit_signature e m) os = flat_map f (map declared_contract os).
Proof. intros H1. induction os as [|d os IH]; simpl; [done|]. rewrite IH. unfold emit_signature. by rewrite H1. Qed.
End Macros.
Arguments macro_definition : clear implicits.
Arguments source_line : clear implicits.
Arguments environment : clear implicits.
Arguments segment : clear implicits.
