(* ===== verification/Declarations.v ===== *)
(** * The declarations of a table

    What comes out of the replays of a table, nested: its printing and parsing, lookup of
    the classes, lists and functions in it, the declarations that both generating headers
    make of a group or a class, and the methods that interface.h finds in a class. *)

From Stdlib Require Import ZArith Lia Sorted.
From stdpp Require Import base list strings.
From S2P Require Import Prelude ExportDispatch Import Interface Generate.

(** ** Declarations *)

Inductive declaration (T : Type) := Block (s : scope) (body : list (declaration T)) | Item (i : item T).
Arguments Block {T}.
Arguments Item {T}.

(** The nesting of fragments; a stack of the scopes that are open, with what was declared
    in them so far. *)
Section Nesting.
Context {T : Type}.

Fixpoint parse_fragments (fs : list (fragment T)) (stack : list (scope * list (declaration T)))
    (declared : list (declaration T)) : option (list (declaration T)) :=
  match fs with
  | [] => match stack with [] => Some declared | _ => None end
  | Open s :: fs => parse_fragments fs ((s, declared) :: stack) []
  | Close :: fs =>
      match stack with
      | (s, outer) :: stack => parse_fragments fs stack (outer ++ [Block s declared])
      | [] => None
      end
  | Emit i :: fs => parse_fragments fs stack (declared ++ [Item i])
  end.
Definition parse (fs : list (fragment T)) : option (list (declaration T)) := parse_fragments fs [] [].

Fixpoint print (d : declaration T) : list (fragment T) :=
  match d with
  | Item i => [Emit i]
  | Block s body => Open s :: flat_map print body ++ [Close]
  end.
Definition print_all (ds : list (declaration T)) : list (fragment T) := flat_map print ds.

Lemma declaration_ind' (P : declaration T -> Prop) :
  (forall i, P (Item i)) -> (forall s body, Forall P body -> P (Block s body)) -> forall d, P d.
Proof.
  intros Hi Hb. fix IH 1. intros [s body|i]; [apply Hb|apply Hi].
  induction body as [|d body IHb]; constructor; [apply IH|exact IHb].
Qed.

Lemma parse_print d : forall rest stack declared,
  parse_fragments (print d ++ rest) stack declared = parse_fragments rest stack (declared ++ [d]).
Proof.
  induction d as [i|s body IH] using declaration_ind'; intros rest stack declared; [done|].
  assert (forall rest acc,
    parse_fragments (flat_map print body ++ rest) ((s, declared) :: stack) acc =
    parse_fragments rest ((s, declared) :: stack) (acc ++ body)) as Hbody.
  { induction IH as [|d body Hd _ IHb]; intros rest' acc; simpl; [by rewrite app_nil_r|].
    by rewrite <- app_assoc, Hd, IHb, <- app_assoc. }
  simpl. rewrite <- app_assoc, Hbody. done.
Qed.

(** What is printed from declarations nests, as these declarations. *)
Lemma parse_print_all ds : parse (print_all ds) = Some ds.
Proof.
  assert (forall acc, parse_fragments (print_all ds) [] acc = Some (acc ++ ds)) as H; [|apply H].
  unfold print_all. induction ds as [|d ds IH]; intros acc; simpl; [by rewrite app_nil_r|].
  rewrite parse_print, IH. by rewrite <- app_assoc.
Qed.
Lemma print_all_app ds es : print_all (ds ++ es) = print_all ds ++ print_all es.
Proof. apply flat_map_app. Qed.
Lemma print_flat_map {A} (f : A -> list (fragment T)) (k : A -> list (declaration T)) l :
  (forall x, f x = print_all (k x)) -> flat_map f l = print_all (flat_map k l).
Proof. intros Hf. induction l as [|x l IH]; simpl; [done|]. by rewrite print_all_app, Hf, IH. Qed.

(** The list of overloads of a group. *)
Definition overload_list (cs : list (contract (cxx_type T))) : declaration T :=
  Block (type_list "overloads_t") (map (fun c => Item (listed (free_callable c))) (cs ++ [unmatched])).
Lemma print_overload_list cs :
  print (overload_list cs) = Open (type_list "overloads_t") :: flat_map contract_element cs ++ sentinel_element.
Proof.
  unfold overload_list. simpl. f_equal. induction cs as [|c cs IH]; [done|]. simpl. by rewrite IH.
Qed.

(** What a header is expected to declare, segment by segment. *)
Inductive planned := PlanText (fs : list (fragment T)) | PlanTable (import : bool) (k : block (declared_signature (T := T)) -> list (declaration T)).
Definition print_plan (ib xb : list (block declared_signature)) (p : planned) : list (fragment T) :=
  match p with
  | PlanText fs => fs
  | PlanTable true k => print_all (flat_map k ib)
  | PlanTable false k => print_all (flat_map k xb)
  end.
Definition follows (s : segment T) (p : planned) : Prop :=
  match s, p with
  | Text fs, PlanText fs' => fs = fs'
  | Included i e, PlanTable i' k => i = i' /\ forall b, on_side (negb i) b -> emit_block e b = print_all (k b)
  | _, _ => False
  end.
Lemma print_planned ib xb ss ps :
  Forall2 follows ss ps -> Forall (on_side false) ib -> Forall (on_side true) xb ->
  map (emit_segment ib xb) ss = map (print_plan ib xb) ps.
Proof.
  intros Hss Hi Hx. induction Hss as [|s p ss ps Hs _ IH]; [done|]. simpl. rewrite IH. f_equal.
  assert (forall side e (k : block declared_signature -> list (declaration T)) bs, Forall (on_side side) bs ->
    (forall b, on_side side b -> emit_block e b = print_all (k b)) -> flat_map (emit_block e) bs = print_all (flat_map k bs)) as Hall.
  { intros side e k bs Hbs Hk. induction Hbs as [|b bs Hb _ IHb]; simpl; [done|]. by rewrite print_all_app, Hk, IHb. }
  destruct s as [fs|[] e], p as [fs'|[] k]; simpl in *; try done; destruct Hs as [Heq Hk]; try done.
  - by eapply Hall.
  - by eapply Hall.
Qed.
End Nesting.

(** ** Names *)

Section Names.
Context {T : Type}.

Definition entity_name (e : entity) : string :=
  match e with plain n => n | specialization t a => t +:+ "<" +:+ a +:+ ">" end.
Definition qualify (prefix name : string) : string :=
  match prefix with EmptyString => name | _ => prefix +:+ "::" +:+ name end.

(** The classes that are defined, by their qualified name. *)
Definition class_body : Type := list base * list (declaration T).
Fixpoint entities (prefix : string) (d : declaration T) : list (string * class_body) :=
  match d with
  | Block (namespace n) body => flat_map (entities (qualify prefix n)) body
  | Block (class e bases) body =>
      (qualify prefix (entity_name e), (bases, body)) :: flat_map (entities (qualify prefix (entity_name e))) body
  | _ => []
  end.
Definition all_entities (ds : list (declaration T)) : list (string * class_body) := flat_map (entities EmptyString) ds.

(** A class is found when it is defined, and a class that is defined twice is an error. *)
Definition definition_of (ds : list (declaration T)) (q : string) : option class_body :=
  match filter (fun x => x.1 = q) (all_entities ds) with [(_, d)] => Some d | _ => None end.

(** What a body declares under a name. *)
Definition lists_named (alias : string) (d : declaration T) : list (list (declaration T)) :=
  match d with Block (type_list a) body | Block (callable_group a) body => if decide (a = alias) then [body] else [] | _ => [] end.
Definition listed_elements (body : list (declaration T)) : list (element T) :=
  omap (fun d => match d with Item (listed e) => Some e | _ => None end) body.
Definition list_named (alias : string) (body : list (declaration T)) : option (list (element T)) :=
  match flat_map (lists_named alias) body with [l] => Some (listed_elements l) | _ => None end.
Definition alias_named (alias : string) (d : declaration T) : list string :=
  match d with Item (using_alias a target) => if decide (a = alias) then [target] else [] | _ => [] end.
Definition alias_of (alias : string) (body : list (declaration T)) : option string :=
  match flat_map (alias_named alias) body with [t] => Some t | _ => None end.
Definition functions_named (name : string) (d : declaration T) : list (list (declaration T)) :=
  match d with Block (function f) body => if decide (f = name) then [body] else [] | _ => [] end.
Definition contracts (es : list (element T)) : list (contract (cxx_type T)) :=
  omap (fun e => match e with free_callable c => Some c | _ => None end) es.
Definition descriptors (es : list (element T)) : list (option (string * direction)) :=
  omap (fun e => match e with descriptor n d => Some (Some (n, d)) | void_element => Some None | _ => None end) es.

Definition function_names (ds : list (declaration T)) : list string :=
  omap (fun d => match d with Block (function f) _ => Some f | _ => None end) ds.
Definition function_named (name : string) (ds : list (declaration T)) : option (list (declaration T)) :=
  match flat_map (functions_named name) ds with [body] => Some body | _ => None end.

(** No class and no function is defined twice in a scope. *)
Definition no_redefinition (ds : list (declaration T)) : Prop :=
  NoDup (all_entities ds).*1 /\ NoDup (function_names ds) /\ Forall (fun e => NoDup (function_names e.2.2)) (all_entities ds).

#[global] Instance no_redefinition_dec ds : Decision (no_redefinition ds).
Proof. unfold no_redefinition. apply _. Defined.

(** The overloads of a symbol: [typename S::overloads_t]. *)
Definition overloads_of (ds : list (declaration T)) (symbol : string) : option (list (contract (cxx_type T))) :=
  d ← definition_of ds symbol; contracts <$> list_named "overloads_t" d.2.

Lemma definition_of_in ds q d : NoDup (all_entities ds).*1 -> (q, d) ∈ all_entities ds -> definition_of ds q = Some d.
Proof.
  unfold definition_of. induction (all_entities ds) as [|[q' d'] l IH]; intros Hnd Hin; [set_solver|].
  apply NoDup_cons in Hnd as [Hq Hnd]. apply elem_of_cons in Hin as [[= -> ->]|Hin].
  - rewrite filter_cons_True by done. destruct (filter _ l) as [|[q1 d1] l'] eqn:Hl; [done|]. exfalso.
    assert ((q1, d1) ∈ filter (fun x => x.1 = q') l) as [Heq H1]%list_elem_of_filter by (rewrite Hl; left).
    simpl in Heq. subst q1. apply Hq, list_elem_of_fmap. by exists (q', d1).
  - rewrite filter_cons_False; [by apply IH|]. simpl. intros ->. apply Hq. apply list_elem_of_fmap. by exists (q, d).
Qed.
Lemma definition_of_unique ds q d : no_redefinition ds -> (q, d) ∈ all_entities ds -> definition_of ds q = Some d.
Proof. intros [H _]. by apply definition_of_in. Qed.

Lemma function_named_none ds f : f ∉ function_names ds -> flat_map (functions_named f) ds = [].
Proof.
  induction ds as [|[[| | | |g|] b|i] l IH]; simpl; try done. intros [Hne Hl]%not_elem_of_cons.
  rewrite decide_False by done. by apply IH.
Qed.

Lemma function_named_in ds f body :
  NoDup (function_names ds) -> Block (function f) body ∈ ds -> function_named f ds = Some body.
Proof.
  intros Hnd Hin. unfold function_named. assert (flat_map (functions_named f) ds = [body]) as ->; [|done].
  induction ds as [|d ds IH]; [set_solver|]. apply elem_of_cons in Hin as [<-|Hin].
  - simpl in *. apply NoDup_cons in Hnd as [Hf _]. by rewrite decide_True, function_named_none.
  - destruct d as [[| | | |g|] b|i]; simpl in *; try by apply IH. apply NoDup_cons in Hnd as [Hg Hnd].
    rewrite decide_False; [by apply IH|]. intros ->. apply Hg. apply list_elem_of_omap.
    by exists (Block (function f) body).
Qed.
Lemma entities_in_block s body ds e : Block (namespace s) body ∈ ds -> e ∈ flat_map (entities s) body -> s ≠ EmptyString -> e ∈ all_entities ds.
Proof.
  intros Hin He Hs. unfold all_entities. apply list_elem_of_In, in_flat_map. exists (Block (namespace s) body).
  split; [by apply list_elem_of_In|]. simpl. apply list_elem_of_In. by destruct s.
Qed.
Lemma elem_of_flat_map {A B} (f : A -> list B) l y : y ∈ flat_map f l <-> exists x, x ∈ l /\ y ∈ f x.
Proof. rewrite list_elem_of_In, in_flat_map. by setoid_rewrite list_elem_of_In. Qed.
Lemma entity_at_top ds e bases body :
  Block (class e bases) body ∈ ds -> (entity_name e, (bases, body)) ∈ all_entities ds.
Proof. intros Hin. apply elem_of_flat_map. exists (Block (class e bases) body). split; [done|left]. Qed.
Lemma contracts_overload_list cs :
  contracts (listed_elements (map (fun c => Item (listed (free_callable c))) cs)) = cs.
Proof. induction cs as [|c cs IH]; [done|]. exact (f_equal (cons c) IH). Qed.
End Names.

(** ** The methods of a class *)

(** What interface.h finds: the lines of the first and the last directive of a block, and the
    methods that are declared at the lines between them. *)
Section Methods.
Context {T : Type}.
Abbreviation declaration := (declaration T).

Definition the_item {A} (f : item T -> option A) (body : list declaration) : option A :=
  match omap (fun d => match d with Item i => f i | _ => None end) body with [a] => Some a | _ => None end.
Definition begin_index_of : list declaration -> option nat := the_item (fun i => match i with begin_index n => Some n | _ => None end).
Definition end_index_of : list declaration -> option nat := the_item (fun i => match i with end_index n => Some n | _ => None end).
Definition methods_at (body : list declaration) : list (nat * string) :=
  omap (fun d => match d with Item (method_name_at name n) => Some (n, name) | _ => None end) body.

(** The call of [method_name_at] picks the overload for the index. Two overloads for one index
    differ in their result only, and do not compile. *)
Definition text_of : string -> text := String.list_byte_of_string.
Definition method_symbol (m : nat * string) : symbol := mk_symbol m.1 (text_of m.2).
Definition method_declared (ms : list (nat * string)) (index : nat) : option symbol :=
  method_symbol <$> head (filter (fun m => m.1 = index) ms).
Definition names_between (depth : nat) (body : list declaration) (ms : list (nat * string)) : option (list symbol) :=
  first ← begin_index_of body; last ← end_index_of body;
  if decide (NoDup ms.*1) then method_names_in_range (method_declared ms) depth first last else None.

Lemma method_declared_none ms n : (forall m, m ∈ ms -> m.1 ≠ n) -> method_declared ms n = None.
Proof.
  intros Hms. unfold method_declared. destruct (filter _ ms) as [|m l] eqn:Hf; [done|]. exfalso.
  assert (m ∈ filter (fun m => m.1 = n) ms) as [Heq Hin]%list_elem_of_filter by (rewrite Hf; left). by apply (Hms m).
Qed.
Lemma omap_none {A B} (f : A -> option B) (l : list A) : (forall x, x ∈ l -> f x = None) -> omap f l = [].
Proof.
  induction l as [|x l IH]; intros Hl; [done|]. simpl. rewrite (Hl x) by left. apply IH. intros y Hy. apply Hl. by right.
Qed.
Lemma omap_ext_in {A B} (f g : A -> option B) (l : list A) : (forall x, x ∈ l -> f x = g x) -> omap f l = omap g l.
Proof.
  induction l as [|x l IH]; intros Hl; [done|]. simpl. rewrite (Hl x) by left.
  assert (omap f l = omap g l) as IHl by (apply IH; intros y Hy; apply Hl; by right).
  destruct (g x); [exact (f_equal (cons _) IHl)|exact IHl].
Qed.

(** When the lines of a block increase, the scan finds its methods, in their order. *)
Lemma scan_increasing ms : forall first last, StronglySorted lt (first :: ms.*1 ++ [last]) ->
  omap (method_declared ms) (seq (first + 1) (last - (first + 1))) = map method_symbol ms.
Proof.
  induction ms as [|[n name] ms IH]; intros first last Hs.
  - apply omap_none. done.
  - cbn [fmap list_fmap fst app] in Hs. pose proof (StronglySorted_inv Hs) as [Hs1 Hf].
    pose proof (StronglySorted_inv Hs1) as [Hs2 Hn].
    assert (first < n)%nat as Hlt by (inversion Hf; done).
    assert (n < last)%nat as Hlast.
    { rewrite List.Forall_forall in Hn. apply Hn, in_app_iff. right. by left. }
    assert (forall m, m ∈ ms -> (n < m.1)%nat) as Hms.
    { intros m Hm. rewrite List.Forall_forall in Hn. apply Hn, in_app_iff. left. apply list_elem_of_In, list_elem_of_fmap. by exists m. }
    replace (last - (first + 1))%nat with ((n - (first + 1)) + S (last - (n + 1)))%nat by lia.
    rewrite seq_app, omap_app. rewrite omap_none.
    2: { intros i [Hi1 Hi2]%elem_of_seq. apply method_declared_none. intros m [->|Hm]%elem_of_cons; simpl; [lia|].
      specialize (Hms _ Hm). lia. }
    replace (first + 1 + (n - (first + 1)))%nat with n by lia. cbn [seq app omap list_omap map].
    unfold method_declared at 1. rewrite filter_cons_True by done. cbn [head fmap option_fmap option_map]. f_equal.
    rewrite <- (IH n last); [|exact Hs1]. rewrite Nat.add_1_r. apply omap_ext_in.
    intros i [Hi1 Hi2]%elem_of_seq. unfold method_declared. rewrite filter_cons_False; [done|]. simpl. lia.
Qed.
Lemma increasing_NoDup (first last : nat) ns : StronglySorted lt (first :: ns ++ [last]) -> NoDup ns.
Proof.
  intros [Hs _]%StronglySorted_inv. induction ns as [|n l IH]; [constructor|]. simpl in Hs. apply StronglySorted_inv in Hs as [Hs Hn].
  constructor; [|by apply IH]. intros Hin%list_elem_of_In. rewrite List.Forall_forall in Hn.
  specialize (Hn n). rewrite in_app_iff in Hn. specialize (Hn (or_introl Hin)). lia.
Qed.
Lemma names_between_scan depth body ms first last :
  begin_index_of body = Some first -> end_index_of body = Some last -> NoDup ms.*1 -> (last - (first + 1) <= 2 ^ depth)%nat ->
  names_between (S depth) body ms = Some (omap (method_declared ms) (seq (first + 1) (last - (first + 1)))).
Proof.
  intros Hb He Hs Hd. unfold names_between. rewrite Hb, He. cbn [mbind option_bind].
  rewrite decide_True, method_names_complete by done. by destruct (Nat.leb_spec (last - (first + 1)) (2 ^ depth)); [|lia].
Qed.
Lemma names_between_increasing depth body ms first last :
  begin_index_of body = Some first -> end_index_of body = Some last -> StronglySorted lt (first :: ms.*1 ++ [last]) ->
  (last - (first + 1) <= 2 ^ depth)%nat ->
  names_between (S depth) body ms = Some (map method_symbol ms).
Proof.
  intros Hb He Hs Hd. rewrite (names_between_scan _ _ _ _ _ Hb He); [by rewrite scan_increasing| |done].
  by eapply increasing_NoDup.
Qed.
(** Methods of other lines are not found. *)
Lemma names_between_outside depth body ms first last :
  begin_index_of body = Some first -> end_index_of body = Some last -> NoDup ms.*1 ->
  (forall m, m ∈ ms -> (m.1 <= first \/ last <= m.1)%nat) -> (last - (first + 1) <= 2 ^ depth)%nat ->
  names_between (S depth) body ms = Some [].
Proof.
  intros Hb He Hs Hms Hd. rewrite (names_between_scan _ _ _ _ _ Hb He Hs Hd). f_equal. apply omap_none.
  intros i [Hi1 Hi2]%elem_of_seq. apply method_declared_none. intros m Hm. specialize (Hms _ Hm). lia.
Qed.
End Methods.

(** ** What both headers declare *)

Section Shared.
Context {T : Type}.
Abbreviation source_line := (source_line T).

Definition struct (n : string) (bases : list base) : fragment T := Open (class (plain n) bases).
Definition special (t a : string) (bases : list base) : fragment T := Open (class (specialization t a) bases).

(** The methods of an interface: a template over the class that implements it. *)
Definition begin_member_symbol (bases : list base) (aliases : list (item T)) (name : string) (line : nat) : list (fragment T) :=
  [Emit (forward name); Emit (method_name_at name line); struct name bases] ++ map Emit aliases ++
  [Emit (symbol_name name); Open (type_list "overloads_t")].
Definition end_member_symbol : list (fragment T) := sentinel_element ++ [Close].
Definition empty_constructor : source_line := define_empty variadic DECL_CONSTRUCTOR.
Definition empty_end_class : source_line := define_empty object_like END_CLASS.
Definition empty_implements : source_line := define_empty (with_parameters 1) IMPLEMENTS.
Definition nothing_in_classes (parameters : nat) : list source_line :=
  [define_empty (with_parameters parameters) BEGIN_CLASS; empty_constructor] ++ no_members ++ [empty_end_class].
Definition accessors (names : list string) : list (fragment T) := flat_map (fun n => [Open (function n); Close]) names.

Abbreviation declaration := (declaration T).
Abbreviation block := (block (declared_signature (T := T))).
Abbreviation group := (group (declared_signature (T := T))).

Definition contracts_of (g : group) : list (contract (cxx_type T)) := map declared_contract (overloads g).
Definition on_interface (f : string -> list declaration) (b : block) : list declaration :=
  match b with InterfaceBlock _ name _ _ => f name | _ => [] end.
Definition on_group (f : string -> list declaration) (b : block) : list declaration :=
  match b with GroupBlock g => f (group_name g) | _ => [] end.
Definition on_class (f : string -> list declaration) (b : block) : list declaration :=
  match b with ClassBlock _ _ clazz _ _ => f clazz | _ => [] end.
Definition declare_forward (name : string) : list declaration := [Item (forward name)].

Definition class_block (e : entity) (bases : list base) (body : list declaration) : declaration := Block (class e bases) body.
Definition symbol_body (aliases : list (item T)) (g : group) : list declaration :=
  map Item aliases ++ [Item (symbol_name (group_name g)); overload_list (contracts_of g)].
Definition member_symbol (bases : list base) (aliases : list (item T)) (g : group) : list declaration :=
  [Item (forward (group_name g)); Item (method_name_at (group_name g) (group_line g));
   class_block (plain (group_name g)) bases (symbol_body aliases g)].
Definition item_symbols (bases : list base) (aliases : list (item T)) (i : class_item (declared_signature (T := T))) : list declaration :=
  match i with Members g => member_symbol bases aliases g | _ => [] end.

Definition implemented (items : list (class_item (declared_signature (T := T)))) : list string :=
  omap (fun i => match i with Implements _ name => Some name | _ => None end) items.
Definition constructors (items : list (class_item (declared_signature (T := T)))) : list (contract (cxx_type T)) :=
  omap (fun i => match i with Constructor d => Some (declared_contract d) | _ => None end) items.
Definition methods_of (items : list (class_item (declared_signature (T := T)))) : list group :=
  omap (fun i => match i with Members g => Some g | _ => None end) items.

Definition accessor (name : string) : declaration := Block (function name) [].
Lemma print_items (is_ : list (item T)) : flat_map print (map Item is_) = map Emit is_.
Proof. induction is_ as [|i is_ IH]; [done|]. exact (f_equal (cons _) IH). Qed.
Lemma emit_member_symbol e bases aliases g k :
  replaced e BEGIN_MEMBER_CALLABLE_GROUP = Some (with_name (begin_member_symbol bases aliases)) ->
  replaced e DECL_MEMBER_FUNCTION = Some (with_signature k contract_element) ->
  replaced e END_MEMBER_CALLABLE_GROUP = Some (fixed end_member_symbol) ->
  emit_members e g = print_all (member_symbol bases aliases g).
Proof.
  intros H1 H2 H3. unfold emit_members, emit_name, emit_end. rewrite H1, H3, (emit_signatures_kept _ _ _ _ _ H2).
  unfold print_all, member_symbol, class_block, symbol_body, begin_member_symbol. cbn [flat_map print].
  rewrite flat_map_app, print_items. cbn [flat_map]. rewrite print_overload_list. unfold contracts_of.
  rewrite ?app_nil_r. repeat (rewrite <- ?app_assoc; simpl). reflexivity.
Qed.
Lemma emit_item_symbols e bases aliases items k :
  silent e IMPLEMENTS && silent e DECL_CONSTRUCTOR = true ->
  replaced e BEGIN_MEMBER_CALLABLE_GROUP = Some (with_name (begin_member_symbol bases aliases)) ->
  replaced e DECL_MEMBER_FUNCTION = Some (with_signature k contract_element) ->
  replaced e END_MEMBER_CALLABLE_GROUP = Some (fixed end_member_symbol) ->
  flat_map (emit_item e) items = print_all (flat_map (item_symbols bases aliases) items).
Proof.
  rewrite andb_true_iff. intros [H1 H2] H3 H4 H5. apply print_flat_map. intros [line name|d|g]; simpl.
  - by apply silent_name.
  - by apply silent_signature.
  - by eapply emit_member_symbol.
Qed.
Lemma emit_item_interfaces e items f :
  replaced e IMPLEMENTS = Some (with_name (fun name _ => [Emit (listed (f name))])) ->
  silent e DECL_CONSTRUCTOR && silent_methods e = true ->
  flat_map (emit_item e) items = print_all (map (fun n => Item (listed (f n))) (implemented items)).
Proof.
  rewrite andb_true_iff. intros H1 [H2 H3]. induction items as [|[line name|d|g] items IH]; simpl; [done|..]; rewrite IH.
  - unfold emit_name. by rewrite H1.
  - by rewrite silent_signature.
  - by rewrite emit_members_silent.
Qed.
Lemma emit_item_constructors e items k :
  silent e IMPLEMENTS && silent_methods e = true ->
  replaced e DECL_CONSTRUCTOR = Some (with_signature k contract_element) ->
  flat_map (emit_item e) items = flat_map contract_element (constructors items).
Proof.
  rewrite andb_true_iff. intros [H1 H3] H2. induction items as [|[line name|d|g] items IH]; simpl; [done|..]; rewrite IH.
  - by rewrite silent_name.
  - unfold emit_signature. by rewrite H2.
  - by rewrite emit_members_silent.
Qed.

Lemma omap_some_map {A B} (f : A -> B) l : omap (fun m => m) (map (fun x => Some (f x)) l) = map f l.
Proof. induction l as [|x l IH]; [done|]. exact (f_equal (cons (f x)) IH). Qed.
Lemma Forall2_zip_in {A B} (P : A -> B -> Prop) l k x y : Forall2 P l k -> (x, y) ∈ zip l k -> P x y.
Proof.
  intros Hlk. induction Hlk as [|x' y' l k Hxy _ IH]; simpl; [set_solver|]. intros [[= -> ->]|Hin]%elem_of_cons; [done|by apply IH].
Qed.
Lemma string_app_assoc (a b c : string) : a +:+ b +:+ c = (a +:+ b) +:+ c.
Proof. induction a as [|x a IH]; [done|]. exact (f_equal (String x) IH). Qed.
End Shared.

Ltac by_block := intros [g|line name methods last|line [ns|] clazz items last] Hside; cbn in Hside;
  lazymatch type of Hside with
  | _ <-> _ => let H1 := fresh in let H2 := fresh in
      try (exfalso; destruct Hside as [H1 H2]; first [discriminate (H1 (ex_intro _ _ eq_refl)) | destruct (H2 eq_refl); discriminate])
  | _ => idtac
  end.
Ltac quiet := unfold emit_block, emit_group; rewrite ?emit_group_silent, ?emit_methods_silent, ?emit_items_silent,
  ?emit_overloads_silent, ?app_nil_r by reflexivity; try reflexivity.

Ltac nested := unfold print_all, class_block; simpl; rewrite ?flat_map_app, ?app_nil_r, <- ?app_assoc; reflexivity.
