(* ===== verification/ImportGenerate.v ===== *)
(** * import_generate.h and async_generate.h: the declarations of imports

    The headers as they are, one definition per replay of the table; what they declare for a
    well-nested table; the functions a caller finds in it, with the overloads they select
    from; and when a delegate class compiles. *)

From Stdlib Require Import ZArith Lia Sorted.
From stdpp Require Import base list strings.
From S2P Require Import Prelude Bytes ExportDispatch Import Interface Generate Declarations.

(** ** The header *)

Section Header.
Context {T : Type}.
Abbreviation source_line := (source_line T).
Abbreviation declaration := (declaration T).
Abbreviation block := (block (declared_signature (T := T))).
Abbreviation group := (group (declared_signature (T := T))).

(** [OBJECT] and [CALLABLE] in the table of imports. *)
Definition import_types : type_macros (T := T) :=
  mk_type_macros (Some (fun c => cxx_object_param "import_symbols" c import_t))
    (Some (fun n => cxx_callable_param "export_groups" n export_t)).

Definition replay (lines : list source_line) : list source_line :=
  lines ++ [IncludeImportDef] ++ undef_declarations.

Definition start : list source_line := no_interfaces ++ [empty_implements].
Definition forward_interfaces : list source_line :=
  [open_namespace "interfaces"] ++ undef_interfaces ++
  [define (with_parameters 1) BEGIN_INTERFACE (with_name (fun name _ => [Emit (forward name)])); define_empty object_like END_INTERFACE] ++
  replay (no_groups ++ nothing_in_classes 1) ++
  rev undef_interfaces ++ no_interfaces ++ [empty_implements; close_namespace].
Definition forward_descriptors : list source_line :=
  [open_namespace "interface_descriptors"] ++ undef_interfaces ++
  [define (with_parameters 1) BEGIN_INTERFACE (with_name (fun name _ => [Emit (forward name)])); define_empty object_like END_INTERFACE] ++
  replay (no_groups ++ nothing_in_classes 1) ++
  rev undef_interfaces ++ no_interfaces ++ [empty_implements; close_namespace].

(** The groups of the other table, whose classes have a namespace. *)
Definition forward_export_groups : list source_line :=
  [open_namespace "export_groups";
   define (with_parameters 1) BEGIN_CALLABLE_GROUP (with_name (fun name _ => [Emit (forward name)]));
   define_empty variadic DECL_CALLABLE; define_empty (with_parameters 1) DECL_FUNCTION; define_empty object_like END_CALLABLE_GROUP;
   define_empty (with_parameters 2) BEGIN_CLASS; empty_constructor] ++ no_members ++ [empty_end_class] ++
  [IncludeExportDef] ++ undef_declarations ++ [close_namespace].
Definition forward_import_symbols : list source_line :=
  [open_namespace "import_symbols"] ++
  replay (no_groups ++ [define (with_parameters 1) BEGIN_CLASS (with_name (fun clazz _ => [Emit (forward clazz)])); empty_constructor]
    ++ no_members ++ [empty_end_class]) ++
  [close_namespace].

Definition interface_symbols : list source_line :=
  [DefineTypes import_types; open_namespace "interface_descriptors"] ++ undef_interfaces ++
  [define (with_parameters 1) BEGIN_INTERFACE (with_name (fun name line =>
     [special name "import_t" []; struct "symbols" []; Emit (begin_index line)]));
   define object_like END_INTERFACE (with_line (fun line =>
     [Emit (end_index line); Close; Emit (using_alias "symbols_t" "symbols"); Emit (using_alias "method_symbols_t" "symbols"); Close]))] ++
  replay (no_groups ++
    [define (with_parameters 1) BEGIN_CLASS (with_name (fun clazz _ =>
       [struct ("ignored_class_" +:+ clazz) []; Emit (using_alias "ReceiverSymbol" "void")]));
     empty_implements; empty_constructor;
     define (with_parameters 1) BEGIN_MEMBER_CALLABLE_GROUP (with_name (begin_member_symbol [interface_receiver_metadata] []));
     define variadic DECL_MEMBER_FUNCTION (with_signature result_and_parameters contract_element);
     define object_like END_MEMBER_CALLABLE_GROUP (fixed end_member_symbol);
     define object_like END_CLASS (fixed [Close])]) ++
  [Undef IMPLEMENTS] ++ rev undef_interfaces ++ no_interfaces ++ [empty_implements; close_namespace; UndefTypes].

Definition forward_delegates : list source_line :=
  replay (no_groups ++ [define (with_parameters 1) BEGIN_CLASS (with_name (fun clazz _ => [Emit (forward clazz)])); empty_constructor]
    ++ no_members ++ [empty_end_class]).

Definition class_interface_lists : list source_line :=
  [Undef IMPLEMENTS] ++
  replay (no_groups ++
    [define (with_parameters 1) BEGIN_CLASS (with_name (fun clazz _ =>
       [special "class_interfaces" ("import_symbols::" +:+ clazz) []; Open (type_list "type")]));
     define (with_parameters 1) IMPLEMENTS (with_name (fun name _ => [Emit (listed (descriptor name import_t))]));
     empty_constructor] ++ no_members ++
    [define object_like END_CLASS (fixed [Emit (listed void_element); Close; Close])]) ++
  [Undef IMPLEMENTS; empty_implements].

(** The symbols themselves. *)
Definition self_receiver : list (item T) := [using_alias "receiver_symbol_t" "self_symbol_t"].
Definition symbols : list source_line :=
  [DefineTypes import_types; open_namespace "import_symbols"] ++ undef_interfaces ++
  [define (with_parameters 1) BEGIN_INTERFACE (with_name (fun name _ =>
     [struct ("ignored_interface_" +:+ name) []; Emit (using_alias "self_symbol_t" "void")]));
   define object_like END_INTERFACE (fixed [Close])] ++
  replay (
    [define (with_parameters 1) BEGIN_CALLABLE_GROUP (with_name (fun name _ =>
       [struct name []; Emit (symbol_name name); Open (type_list "overloads_t")]));
     define variadic DECL_CALLABLE (with_signature result_and_parameters contract_element);
     define (with_parameters 1) DECL_FUNCTION (with_signature a_function_type contract_element);
     define object_like END_CALLABLE_GROUP (fixed (sentinel_element ++ [Emit (using_alias "group_t" "callable_group"); Close]));
     define (with_parameters 1) BEGIN_CLASS (with_name (fun clazz line =>
       [struct clazz [interface_symbol_pack clazz]; Emit (begin_index line); Emit (using_alias "self_symbol_t" clazz);
        Emit (using_alias "delegate_t" clazz); Emit (symbol_name clazz)]));
     empty_implements; empty_constructor;
     define (with_parameters 1) BEGIN_MEMBER_CALLABLE_GROUP (with_name (begin_member_symbol [] self_receiver));
     define variadic DECL_MEMBER_FUNCTION (with_signature result_and_parameters contract_element);
     define object_like END_MEMBER_CALLABLE_GROUP (fixed end_member_symbol);
     define object_like END_CLASS (with_line (fun line => [Emit (end_index line); Close]))]) ++
  [Undef IMPLEMENTS] ++ rev undef_interfaces ++ no_interfaces ++ [empty_implements; close_namespace].

Definition constructor_metadata : list source_line :=
  [Source [Emit (forward "import_constructor_metadata")]] ++ undef_interfaces ++ no_interfaces ++
  replay (no_groups ++
    [define (with_parameters 1) BEGIN_CLASS (with_name (fun clazz _ =>
       [special "import_constructor_metadata" ("import_symbols::" +:+ clazz) []; Open (type_list "overloads_t")]));
     define variadic DECL_CONSTRUCTOR (with_signature parameters_only contract_element)] ++ no_members ++
    [define object_like END_CLASS (fixed end_member_symbol)]).

(** [call_<name>], [<name>], [construct_<class>]. *)
Definition call_functions : list source_line :=
  replay ([define (with_parameters 1) BEGIN_CALLABLE_GROUP (with_name (fun name _ =>
       [Open (function ("call_" +:+ name)); Emit (using_alias "overloads_t" ("import_symbols::" +:+ name))]));
     define_empty variadic DECL_CALLABLE; define_empty (with_parameters 1) DECL_FUNCTION;
     define object_like END_CALLABLE_GROUP (fixed [Emit (returns "import_overload_dispatch::invoke"); Close])] ++ nothing_in_classes 1).
Definition callable_binders : list source_line :=
  replay ([define (with_parameters 1) BEGIN_CALLABLE_GROUP (with_name (fun name _ =>
       [Open (function name); Emit (returns ("call_" +:+ name)); Close]));
     define_empty variadic DECL_CALLABLE; define_empty (with_parameters 1) DECL_FUNCTION; define_empty object_like END_CALLABLE_GROUP]
     ++ nothing_in_classes 1) ++ undef_interfaces ++ no_interfaces.
Definition construct_functions : list source_line :=
  replay (no_groups ++
    [define (with_parameters 1) BEGIN_CLASS (with_name (fun clazz _ =>
       [Open (function ("construct_" +:+ clazz)); Emit (using_alias "receiver_t" clazz);
        Emit (using_alias "overloads_t" ("import_constructor_metadata<import_symbols::" +:+ clazz +:+ ">"))])); empty_constructor] ++ no_members ++
    [define object_like END_CLASS (fixed [Emit (returns "import_constructor_overload_dispatch::construct"); Close])]).
Definition class_traits : list source_line :=
  replay (no_groups ++
    [define (with_parameters 1) BEGIN_CLASS (with_name (fun clazz _ =>
       [special "import_class_traits" clazz []; Open (function "construct"); Emit (returns ("construct_" +:+ clazz)); Close; Close]));
     empty_constructor] ++ no_members ++ [empty_end_class]).
Definition receiver_symbols : list source_line :=
  replay (no_groups ++
    [define (with_parameters 1) BEGIN_CLASS (with_name (fun clazz _ =>
       [special "import_receiver_symbol" (clazz +:+ "<Context>") []; Emit (using_alias "type" ("import_symbols::" +:+ clazz)); Close]));
     empty_constructor] ++ no_members ++ [empty_end_class]).

(** The mixins of interfaces and the delegate classes. *)
Definition delegates : list source_line :=
  undef_interfaces ++
  [define (with_parameters 1) BEGIN_INTERFACE (with_name (fun name _ =>
     [Open (namespace "interfaces"); special name "Host, import_t" [];
      Emit (using_alias "bridge_symbol_t" ("interface_descriptors::" +:+ name +:+ "<import_t>::symbols"))]
     ++ accessors ["context"; "receiver"]));
   define object_like END_INTERFACE (fixed [Close; Close])] ++
  replay (no_groups ++
    [define (with_parameters 1) BEGIN_CLASS (with_name (fun clazz _ =>
       [struct clazz [interface_pack ("import_symbols::" +:+ clazz) ("import_symbols::" +:+ clazz)];
        Emit (using_alias "bridge_class_t" ("import_symbols::" +:+ clazz)); Emit (using_alias "bridge_symbol_t" ("import_symbols::" +:+ clazz))]
       ++ accessors ["context"; "receiver"; "object"]));
     empty_constructor;
     define (with_parameters 1) BEGIN_MEMBER_CALLABLE_GROUP (with_name (fun name _ =>
       [Open (function name); Emit (using_alias "member_symbol_t" name)]));
     define_empty variadic DECL_MEMBER_FUNCTION;
     define object_like END_MEMBER_CALLABLE_GROUP (fixed [Emit (returns "import_overload_dispatch::invoke_member"); Close]);
     define object_like END_CLASS (fixed [Close])]) ++
  undef_interfaces ++ [Undef IMPLEMENTS; UndefTypes].

(** The header, in the namespace of the library. *)
Definition import_generate : list source_line :=
  [open_namespace "dynabridge"] ++ start ++ forward_interfaces ++ forward_descriptors ++ forward_export_groups
  ++ forward_import_symbols ++ interface_symbols ++ forward_export_groups ++ forward_delegates ++ forward_import_symbols
  ++ class_interface_lists ++ symbols ++ constructor_metadata ++ call_functions ++ callable_binders ++ construct_functions
  ++ class_traits ++ receiver_symbols ++ delegates ++ [close_namespace].

(** It leaves no macro behind, and defines what every replay needs. *)
Definition import_segments : list (segment T) := Eval vm_compute in
  match segments import_generate no_macros with Some (ss, _) => ss | None => [] end.
Lemma import_generate_segments : segments import_generate no_macros = Some (import_segments, no_macros).
Proof. vm_compute. reflexivity. Qed.

(** ** The declarations of a well-nested table *)

Definition interface_descriptor (b : block) : list declaration :=
  match b with
  | GroupBlock _ => []
  | InterfaceBlock line name methods last =>
      [class_block (specialization name "import_t") []
         [class_block (plain "symbols") []
            (Item (begin_index line) :: flat_map (member_symbol [interface_receiver_metadata] []) methods ++ [Item (end_index last)]);
          Item (using_alias "symbols_t" "symbols"); Item (using_alias "method_symbols_t" "symbols")]]
  | ClassBlock _ _ clazz items _ =>
      [class_block (plain ("ignored_class_" +:+ clazz)) []
         (Item (using_alias "ReceiverSymbol" "void") :: flat_map (item_symbols [interface_receiver_metadata] []) items)]
  end.

Definition class_interface_list (b : block) : list declaration :=
  match b with
  | ClassBlock _ _ clazz items _ =>
      [class_block (specialization "class_interfaces" ("import_symbols::" +:+ clazz)) []
         [Block (type_list "type") (map (fun n => Item (listed (descriptor n import_t))) (implemented items) ++ [Item (listed void_element)])]]
  | _ => []
  end.
Definition symbol_declarations (b : block) : list declaration :=
  match b with
  | GroupBlock g =>
      [class_block (plain (group_name g)) []
         [Item (symbol_name (group_name g)); overload_list (contracts_of g); Item (using_alias "group_t" "callable_group")]]
  | InterfaceBlock _ name methods _ =>
      [class_block (plain ("ignored_interface_" +:+ name)) []
         (Item (using_alias "self_symbol_t" "void") :: flat_map (member_symbol [] self_receiver) methods)]
  | ClassBlock line _ clazz items last =>
      [class_block (plain clazz) [interface_symbol_pack clazz]
         (Item (begin_index line) :: Item (using_alias "self_symbol_t" clazz) :: Item (using_alias "delegate_t" clazz)
          :: Item (symbol_name clazz) :: flat_map (item_symbols [] self_receiver) items ++ [Item (end_index last)])]
  end.
Definition class_metadata (b : block) : list declaration :=
  match b with
  | ClassBlock _ _ clazz items _ =>
      [class_block (specialization "import_constructor_metadata" ("import_symbols::" +:+ clazz)) [] [overload_list (constructors items)]]
  | _ => []
  end.
Definition call_function (name : string) : list declaration :=
  [Block (function ("call_" +:+ name))
     [Item (using_alias "overloads_t" ("import_symbols::" +:+ name)); Item (returns "import_overload_dispatch::invoke")]].
Definition binder_function (name : string) : list declaration :=
  [Block (function name) [Item (returns ("call_" +:+ name))]].
Definition construct_function (clazz : string) : list declaration :=
  [Block (function ("construct_" +:+ clazz))
     [Item (using_alias "receiver_t" clazz);
      Item (using_alias "overloads_t" ("import_constructor_metadata<import_symbols::" +:+ clazz +:+ ">"));
      Item (returns "import_constructor_overload_dispatch::construct")]].
Definition class_trait (clazz : string) : list declaration :=
  [class_block (specialization "import_class_traits" clazz) []
     [Block (function "construct") [Item (returns ("construct_" +:+ clazz))]]].
Definition receiver_symbol (clazz : string) : list declaration :=
  [class_block (specialization "import_receiver_symbol" (clazz +:+ "<Context>")) []
     [Item (using_alias "type" ("import_symbols::" +:+ clazz))]].
Definition member_function (g : group) : declaration :=
  Block (function (group_name g))
    [Item (using_alias "member_symbol_t" (group_name g)); Item (returns "import_overload_dispatch::invoke_member")].
Definition delegate (b : block) : list declaration :=
  match b with
  | GroupBlock _ => []
  | InterfaceBlock _ name methods _ =>
      [Block (namespace "interfaces")
         [class_block (specialization name "Host, import_t") []
            (Item (using_alias "bridge_symbol_t" ("interface_descriptors::" +:+ name +:+ "<import_t>::symbols"))
             :: map accessor ["context"; "receiver"] ++ map member_function methods)]]
  | ClassBlock _ _ clazz items _ =>
      [class_block (plain clazz) [interface_pack ("import_symbols::" +:+ clazz) ("import_symbols::" +:+ clazz)]
         (Item (using_alias "bridge_class_t" ("import_symbols::" +:+ clazz))
          :: Item (using_alias "bridge_symbol_t" ("import_symbols::" +:+ clazz))
          :: map accessor ["context"; "receiver"; "object"] ++ map member_function (methods_of items))]
  end.

(** The plan of the header, and all that it declares. *)
Definition import_plan : list planned :=
  let open n := PlanText [Open (namespace n)] in
  let close := PlanText [Close] in
  [open "dynabridge";
   open "interfaces"; PlanTable true (on_interface declare_forward); close;
   open "interface_descriptors"; PlanTable true (on_interface declare_forward); close;
   open "export_groups"; PlanTable false (on_group declare_forward); close;
   open "import_symbols"; PlanTable true (on_class declare_forward); close;
   open "interface_descriptors"; PlanTable true interface_descriptor; close;
   open "export_groups"; PlanTable false (on_group declare_forward); close;
   PlanTable true (on_class declare_forward);
   open "import_symbols"; PlanTable true (on_class declare_forward); close;
   PlanTable true class_interface_list;
   open "import_symbols"; PlanTable true symbol_declarations; close;
   PlanText [Emit (forward "import_constructor_metadata")];
   PlanTable true class_metadata;
   PlanTable true (on_group call_function);
   PlanTable true (on_group binder_function);
   PlanTable true (on_class construct_function);
   PlanTable true (on_class class_trait);
   PlanTable true (on_class receiver_symbol);
   PlanTable true delegate;
   close].
Definition import_declarations (ib xb : list block) : list declaration :=
  [Block (namespace "dynabridge")
    ([Block (namespace "interfaces") (flat_map (on_interface declare_forward) ib);
      Block (namespace "interface_descriptors") (flat_map (on_interface declare_forward) ib);
      Block (namespace "export_groups") (flat_map (on_group declare_forward) xb);
      Block (namespace "import_symbols") (flat_map (on_class declare_forward) ib);
      Block (namespace "interface_descriptors") (flat_map interface_descriptor ib);
      Block (namespace "export_groups") (flat_map (on_group declare_forward) xb)] ++
     flat_map (on_class declare_forward) ib ++
     [Block (namespace "import_symbols") (flat_map (on_class declare_forward) ib)] ++
     flat_map class_interface_list ib ++
     [Block (namespace "import_symbols") (flat_map symbol_declarations ib)] ++
     [Item (forward "import_constructor_metadata")] ++
     flat_map class_metadata ib ++ flat_map (on_group call_function) ib ++ flat_map (on_group binder_function) ib ++
     flat_map (on_class construct_function) ib ++ flat_map (on_class class_trait) ib ++ flat_map (on_class receiver_symbol) ib ++
     flat_map delegate ib)].

(** ** The header declares them *)

Lemma emit_member_function e g :
  replaced e BEGIN_MEMBER_CALLABLE_GROUP = Some (with_name (fun name _ =>
    [Open (function name); Emit (using_alias "member_symbol_t" name)])) ->
  silent e DECL_MEMBER_FUNCTION = true ->
  replaced e END_MEMBER_CALLABLE_GROUP = Some (fixed [Emit (returns "import_overload_dispatch::invoke_member"); Close]) ->
  emit_members e g = print_all [member_function g].
Proof. intros H1 H2 H3. unfold emit_members, emit_name, emit_end. by rewrite H1, H3, emit_signatures_silent. Qed.
Lemma emit_item_functions e items :
  silent e IMPLEMENTS && silent e DECL_CONSTRUCTOR = true ->
  replaced e BEGIN_MEMBER_CALLABLE_GROUP = Some (with_name (fun name _ =>
    [Open (function name); Emit (using_alias "member_symbol_t" name)])) ->
  silent e DECL_MEMBER_FUNCTION = true ->
  replaced e END_MEMBER_CALLABLE_GROUP = Some (fixed [Emit (returns "import_overload_dispatch::invoke_member"); Close]) ->
  flat_map (emit_item e) items = print_all (map member_function (methods_of items)).
Proof.
  rewrite andb_true_iff. intros [H1 H2] H3 H4 H5. induction items as [|[line name|d|g] items IH]; simpl; [done|..]; rewrite IH.
  - by rewrite silent_name.
  - by rewrite silent_signature.
  - by rewrite (emit_member_function e g H3 H4 H5).
Qed.
Lemma import_plan_followed : Forall2 follows import_segments import_plan.
Proof.
  unfold import_segments, import_plan.
  repeat (apply Forall2_cons; split; [first [reflexivity | split; [reflexivity|by_block; quiet]|idtac]|]); [..|apply Forall2_nil].
  - rewrite (print_flat_map _ (member_symbol [interface_receiver_metadata] []))
      by (intros x; by apply (emit_member_symbol _ [interface_receiver_metadata] [] x result_and_parameters)). nested.
  - rewrite (emit_item_symbols _ [interface_receiver_metadata] [] _ result_and_parameters) by reflexivity. nested.
  - erewrite emit_item_interfaces by reflexivity. nested.
  - erewrite emit_overloads_kept by reflexivity. unfold print_all, symbol_declarations, class_metadata, class_block. cbn [flat_map print]. rewrite print_overload_list. nested.
  - rewrite (print_flat_map _ (member_symbol [] self_receiver))
      by (intros x; by apply (emit_member_symbol _ [] self_receiver x result_and_parameters)). nested.
  - rewrite (emit_item_symbols _ [] self_receiver _ result_and_parameters) by reflexivity. nested.
  - erewrite emit_item_constructors by reflexivity. unfold print_all, symbol_declarations, class_metadata, class_block. cbn [flat_map print]. rewrite print_overload_list. nested.
  - rewrite (print_flat_map _ (fun g => [member_function g])) by (intros x; by apply emit_member_function).
    rewrite <- map_flat. nested.
  - rewrite emit_item_functions by reflexivity. nested.
  - done.
Qed.

Lemma import_plan_prints ib xb : mjoin (map (print_plan ib xb) import_plan) = print_all (import_declarations ib xb).
Proof.
  unfold import_plan, import_declarations, print_all. simpl.
  repeat first [rewrite flat_map_app | rewrite app_nil_r | rewrite <- app_assoc | progress simpl]. reflexivity.
Qed.

Context (is_reference : T -> bool).
Lemma import_segments_ok xms : Forall (segment_ok import_types xms) import_segments.
Proof.
  unfold import_segments. repeat constructor; try (intros []; by vm_compute).
Qed.

(** Whatever a table of exports is, the header declares these for a well-nested table of
    imports. *)
Lemma import_generate_declares xms i x ib xb :
  Forall (on_side false) i -> Forall (on_side true) x -> elaborate is_reference import_types i = Some ib -> elaborate is_reference xms x = Some xb ->
  exists fs, preprocess is_reference (write i) (write x) import_generate no_macros = Some (fs, no_macros) /\
    parse fs = Some (import_declarations ib xb).
Proof.
  intros Hi Hx Hib Hxb. exists (print_all (import_declarations ib xb)). split; [|apply parse_print_all].
  rewrite preprocess_segments, import_generate_segments. cbn [mbind option_bind fst snd].
  rewrite (expand_segments is_reference ib xb _ _ _ _ _ Hi Hx Hib Hxb (import_segments_ok xms)). cbn [mbind option_bind].
  rewrite (print_planned ib xb _ _ import_plan_followed), import_plan_prints; [done|by eapply elaborate_on_side..].
Qed.

(** ** What a caller finds *)

(** The namespace of the library. *)
Definition library (ds : list declaration) : list declaration :=
  match ds with [Block (namespace "dynabridge") body] => body | _ => [] end.

(** [call_<name>] and [<name>(ctx)], by the function and the symbol they name;
    [construct<Delegate>]. *)
Definition called_overloads (ds : list declaration) (f : string) : option (list (contract (cxx_type T))) :=
  body ← function_named f ds; q ← alias_of "overloads_t" body; overloads_of ds q.
Definition bound_overloads (ds : list declaration) (name : string) : option (list (contract (cxx_type T))) :=
  body ← function_named name ds;
  match body with [Item (returns f)] => called_overloads ds f | _ => None end.
Definition constructed_overloads (ds : list declaration) (delegate : string) : option (list (contract (cxx_type T))) :=
  d ← definition_of ds ("import_class_traits<" +:+ delegate +:+ ">");
  body ← function_named "construct" d.2;
  match body with [Item (returns f)] => called_overloads ds f | _ => None end.

(** The interfaces of a class, [void] left out. *)
Definition interface_list (ds : list declaration) (clazz : string) : option (list (option (string * direction))) :=
  d ← definition_of ds ("class_interfaces<" +:+ clazz +:+ ">"); descriptors <$> list_named "type" d.2.
Definition mixin (ds : list declaration) (i : option (string * direction)) : option (option (class_body (T := T))) :=
  match i with
  | None => Some None
  | Some (n, import_t) => Some <$> definition_of ds ("interfaces::" +:+ n +:+ "<Host, import_t>")
  | Some (n, export_t) => None
  end.

(** A member call on a delegate: member functions of the class hide those of its bases, and
    a name found in two bases is ambiguous; the overloads are those of the member's symbol. *)
Definition member_overloads (ds : list declaration) (d : class_body (T := T)) (body : list declaration)
  : option (list (contract (cxx_type T))) :=
  bridge_symbol_t ← alias_of "bridge_symbol_t" d.2;
  member_symbol_t ← alias_of "member_symbol_t" body;
  overloads_of ds (bridge_symbol_t +:+ "::" +:+ member_symbol_t).
Definition resolve_member (ds : list declaration) (clazz member : string) : option (list (contract (cxx_type T))) :=
  d ← definition_of ds clazz;
  match flat_map (functions_named member) d.2, d.1 with
  | [body], _ => member_overloads ds d body
  | [], [interface_pack interfaces_of _] =>
      is_ ← interface_list ds interfaces_of;
      mixins ← mapM (mixin ds) is_;
      let found := flat_map (fun m => map (pair m) (flat_map (functions_named member) (snd m))) (omap (fun m => m) mixins) in
      match found with [(m, body)] => member_overloads ds m body | _ => None end
  | _, _ => None
  end.

(** ** When a delegate compiles *)

(** [symbols_t] and [method_symbols_t] of a descriptor. *)
Definition descriptor_symbols (alias : string) (ds : list declaration) (i : string * direction) : option (list declaration) :=
  match i with
  | (n, import_t) =>
      d ← definition_of ds ("interface_descriptors::" +:+ n +:+ "<import_t>");
      symbols ← alias_of alias d.2;
      snd <$> definition_of ds ("interface_descriptors::" +:+ n +:+ "<import_t>::" +:+ symbols)
  | (_, export_t) => None
  end.
Definition interface_method_names (depth : nat) (ds : list declaration) (i : string * direction) : option (list symbol) :=
  body ← descriptor_symbols "method_symbols_t" ds i; names_between depth body (methods_at body).

(** A class without methods has the [method_name_at] of its bases, if only one has any. *)
Definition class_methods (ds : list declaration) (d : class_body (T := T)) : option (list (nat * string)) :=
  match methods_at d.2, d.1 with
  | [], [interface_symbol_pack clazz] =>
      is_ ← interface_list ds ("import_symbols::" +:+ clazz);
      bodies ← mapM (descriptor_symbols "symbols_t" ds) (omap (fun i => i) is_);
      match filter (fun ms => ms ≠ []) (map methods_at bodies) with [ms] => Some ms | _ => Some [] end
  | ms, _ => Some ms
  end.
Definition class_method_names (depth : nat) (ds : list declaration) (q : string) : option (list symbol) :=
  d ← definition_of ds q; ms ← class_methods ds d; names_between depth d.2 ms.

(** The base of a delegate, [interface_pack]: the bases it has, or the assertions that fail. *)
Definition delegate_pack (depth : nat) (ds : list declaration) (clazz : string)
  : option (list (string * direction) + list pack_error) :=
  d ← definition_of ds clazz;
  match d.1 with
  | [interface_pack interfaces_of names_of] =>
      is_ ← interface_list ds interfaces_of;
      own ← class_method_names depth ds names_of;
      _ ← mapM (interface_method_names depth ds) (omap (fun i => i) is_);
      Some (checked_interface_pack (fun i => default [] (interface_method_names depth ds i)) is_ own)
  | _ => None
  end.

(** The lines of a table: those of the groups of a class or an interface increase, between its
    first and its last; blocks follow each other. *)
Definition block_lines (b : block) : nat * list group * nat :=
  match b with
  | GroupBlock g => (group_line g, [], group_end g)
  | InterfaceBlock line _ methods last => (line, methods, last)
  | ClassBlock line _ _ items last => (line, methods_of items, last)
  end.
Definition lines_increase (b : block) : Prop :=
  StronglySorted lt ((block_lines b).1.1 :: map group_line (block_lines b).1.2 ++ [(block_lines b).2]).
Definition before (b c : block) : Prop := ((block_lines b).2 <= (block_lines c).1.1)%nat.
Definition within (depth : nat) (b : block) : Prop := ((block_lines b).2 - ((block_lines b).1.1 + 1) <= 2 ^ depth)%nat.

(** ** What the table declares *)

Definition interface_methods (ib : list block) (name : string) : option (list group) :=
  head (omap (fun b => match b with InterfaceBlock _ n methods _ => if decide (n = name) then Some methods else None | _ => None end) ib).
Definition with_sentinel (g : group) : list (contract (cxx_type T)) := contracts_of g ++ [unmatched].
Definition groups_named (member : string) (gs : list group) : list group := filter (fun g => group_name g = member) gs.
Definition class_member (ib : list block) (items : list (class_item (declared_signature (T := T)))) (member : string) : option group :=
  match groups_named member (methods_of items) with
  | [g] => Some g
  | [] =>
      gss ← mapM (interface_methods ib) (implemented items);
      match groups_named member (mjoin gss) with [g] => Some g | _ => None end
  | _ => None
  end.

Section Lookup.
Context (ib xb : list block).
Abbreviation scope := (library (import_declarations ib xb)).
Hypothesis Hscope : no_redefinition scope.

Lemma in_scope_app (d : declaration) k : d ∈ k ->
  In k [flat_map class_interface_list ib; flat_map class_metadata ib; flat_map (on_group call_function) ib;
        flat_map (on_group binder_function) ib; flat_map (on_class construct_function) ib; flat_map (on_class class_trait) ib;
        flat_map delegate ib] -> d ∈ scope.
Proof.
  intros Hd Hk. unfold import_declarations. simpl. repeat rewrite ?elem_of_app, ?elem_of_cons.
  simpl in Hk. repeat (destruct Hk as [<-|Hk]; [tauto|]). done.
Qed.
Lemma symbols_in_scope : Block (namespace "import_symbols") (flat_map symbol_declarations ib) ∈ scope.
Proof. unfold import_declarations. simpl. repeat rewrite ?elem_of_app, ?elem_of_cons. tauto. Qed.
Lemma descriptors_in_scope : Block (namespace "interface_descriptors") (flat_map interface_descriptor ib) ∈ scope.
Proof. unfold import_declarations. simpl. do 4 (apply elem_of_cons; right). left. Qed.

Lemma overloads_of_class q body cs :
  (q, body) ∈ all_entities scope -> flat_map (lists_named "overloads_t") body.2 = [map (fun c => Item (listed (free_callable c))) cs] ->
  overloads_of scope q = Some cs.
Proof.
  intros Hin Hbody. unfold overloads_of. rewrite (definition_of_unique _ _ _ Hscope Hin). simpl.
  unfold list_named. rewrite Hbody. simpl. by rewrite contracts_overload_list.
Qed.

Lemma group_symbol_overloads g : GroupBlock g ∈ ib -> overloads_of scope ("import_symbols::" +:+ group_name g) = Some (with_sentinel g).
Proof.
  intros Hg. eapply overloads_of_class.
  - eapply entities_in_block; [apply symbols_in_scope| |done]. apply elem_of_flat_map.
    eexists. split; [apply elem_of_flat_map; exists (GroupBlock g); split; [done|left]|left].
  - done.
Qed.
Lemma member_symbol_entity q bases aliases g (body : list declaration) : member_symbol bases aliases g ⊆ body -> 
  (q +:+ "::" +:+ group_name g, (bases, symbol_body aliases g))
  ∈ flat_map (entities q) body \/ q = EmptyString.
Proof.
  intros Hsub. destruct q as [|a q]; [by right|left]. apply elem_of_flat_map.
  exists (class_block (plain (group_name g)) bases (symbol_body aliases g)).
  split; [|left]. apply Hsub. right. right. left.
Qed.
Lemma class_member_overloads line ns clazz items last g :
  ClassBlock line ns clazz items last ∈ ib -> g ∈ methods_of items ->
  overloads_of scope ("import_symbols::" +:+ clazz +:+ "::" +:+ group_name g) = Some (with_sentinel g).
Proof.
  intros Hc Hg. apply (overloads_of_class _ ([], symbol_body self_receiver g)); [|reflexivity].
  eapply entities_in_block; [apply symbols_in_scope| |done]. apply elem_of_flat_map.
  eexists. split; [apply elem_of_flat_map; exists (ClassBlock line ns clazz items last); split; [done|left]|].
  right. edestruct (member_symbol_entity ("import_symbols::" +:+ clazz) [] self_receiver g) as [Hin|]; [|exact Hin|done].
  intros d Hd. do 4 (apply elem_of_cons; right). apply elem_of_app. left. apply elem_of_flat_map. exists (Members g).
  split; [|exact Hd]. unfold methods_of in Hg. apply list_elem_of_omap in Hg as ([l n|d'|g'] & Hin & Heq); try done. by injection Heq as ->.
Qed.
Lemma interface_member_overloads line name methods last g :
  InterfaceBlock line name methods last ∈ ib -> g ∈ methods ->
  overloads_of scope ("interface_descriptors::" +:+ name +:+ "<import_t>::symbols::" +:+ group_name g) = Some (with_sentinel g).
Proof.
  intros Hc Hg. apply (overloads_of_class _ ([interface_receiver_metadata], symbol_body [] g)); [|reflexivity].
  eapply entities_in_block; [apply descriptors_in_scope| |done]. apply elem_of_flat_map.
  eexists. split; [apply elem_of_flat_map; exists (InterfaceBlock line name methods last); split; [done|left]|].
  right. apply elem_of_flat_map. eexists. split; [left|]. right.
  edestruct (member_symbol_entity ("interface_descriptors::" +:+ (name +:+ "<import_t>") +:+ "::symbols") [interface_receiver_metadata] [] g) as [Hin|]; [| |done].
  2: { assert ("interface_descriptors::" +:+ name +:+ "<import_t>::symbols::" +:+ group_name g = 
    ("interface_descriptors::" +:+ (name +:+ "<import_t>") +:+ "::symbols") +:+ "::" +:+ group_name g) as -> by (simpl; by rewrite <- !string_app_assoc). exact Hin. }
  intros d Hd. apply elem_of_cons; right. apply elem_of_app. left. apply elem_of_flat_map. by exists g.
Qed.

Definition function_body (g : group) : list declaration :=
  [Item (using_alias "member_symbol_t" (group_name g)); Item (returns "import_overload_dispatch::invoke_member")].
Lemma functions_named_members m gs :
  flat_map (functions_named m) (map member_function gs) = map function_body (groups_named m gs).
Proof.
  unfold groups_named. induction gs as [|g gs IH]; [done|]. simpl. rewrite IH. destruct (decide (group_name g = m)) as [Hm|Hm].
  - by rewrite filter_cons_True.
  - by rewrite filter_cons_False.
Qed.
Definition reserved : list string := ["context"; "receiver"; "object"].
Lemma functions_named_accessors m names (k : list declaration) : m ∉ names -> flat_map (functions_named m) (map accessor names ++ k) = flat_map (functions_named m) k.
Proof.
  induction names as [|n names IH]; simpl; [done|]. intros [Hn Hr]%not_elem_of_cons. rewrite decide_False by done. by apply IH.
Qed.

Definition mixin_body (name : string) (methods : list group) : class_body :=
  ([], Item (using_alias "bridge_symbol_t" ("interface_descriptors::" +:+ name +:+ "<import_t>::symbols"))
       :: map accessor ["context"; "receiver"] ++ map member_function methods).
Lemma interface_methods_in name methods :
  interface_methods ib name = Some methods -> exists line last, InterfaceBlock line name methods last ∈ ib.
Proof.
  unfold interface_methods. intros Hh. apply head_Some_elem_of, list_elem_of_omap in Hh as ([g|line n ms last|? ? ? ? ?] & Hin & Heq); try done.
  case_decide; [|done]. simplify_eq. by exists line, last.
Qed.
Lemma mixin_found name methods : interface_methods ib name = Some methods ->
  mixin scope (Some (name, import_t)) = Some (Some (mixin_body name methods)).
Proof.
  intros (line & last & Hin)%interface_methods_in. cbn [mixin].
  assert (("interfaces::" +:+ name +:+ "<Host, import_t>", mixin_body name methods) ∈ all_entities scope) as He.
  { apply (entities_in_block "interfaces" [class_block (specialization name "Host, import_t") [] (mixin_body name methods).2]);
      [|left|done]. apply (in_scope_app _ (flat_map delegate ib)); [|simpl; tauto].
    apply elem_of_flat_map. exists (InterfaceBlock line name methods last). split; [done|left]. }
  by rewrite (definition_of_unique _ _ _ Hscope He).
Qed.
Lemma interface_list_found line ns clazz items last : ClassBlock line ns clazz items last ∈ ib ->
  interface_list scope ("import_symbols::" +:+ clazz) = Some (map (fun n => Some (n, import_t)) (implemented items) ++ [None]).
Proof.
  intros Hc. unfold interface_list.
  assert (Block (class (specialization "class_interfaces" ("import_symbols::" +:+ clazz)) [])
    [Block (type_list "type") (map (fun n => Item (listed (descriptor n import_t))) (implemented items) ++ [Item (listed void_element)])] ∈ scope) as Hin.
  { apply (in_scope_app _ (flat_map class_interface_list ib)); [|simpl; tauto]. apply elem_of_flat_map. eexists. split; [exact Hc|left]. }
  pose proof (definition_of_unique _ _ _ Hscope (entity_at_top _ _ _ _ Hin)) as Hd.
  change (entity_name _) with ("class_interfaces<" +:+ ("import_symbols::" +:+ clazz) +:+ ">") in Hd.
  rewrite Hd. unfold list_named. simpl. f_equal.
  generalize (implemented items). intros l. induction l as [|n l IH]; [done|]. exact (f_equal (cons _) IH).
Qed.

(** The member functions that a delegate finds in its interfaces. *)
Definition offered (member : string) (ngs : list (string * list group)) : list ((string * list group) * group) :=
  flat_map (fun ng => map (pair ng) (groups_named member ng.2)) ngs.
Lemma map_snd_pair {A B} (a : A) (l : list B) : (map (pair a) l).*2 = l.
Proof. induction l as [|b l IH]; [done|]. exact (f_equal (cons b) IH). Qed.
Lemma offered_groups member ngs : groups_named member (mjoin ngs.*2) = (offered member ngs).*2.
Proof.
  unfold groups_named, offered. induction ngs as [|[n gs] ngs IH]; [done|]. cbn [flat_map]. rewrite fmap_app, <- IH.
  change (mjoin ((n, gs) :: ngs).*2) with (gs ++ mjoin ngs.*2). rewrite filter_app. f_equal. by rewrite map_snd_pair.
Qed.
Lemma offered_functions member ngs : member ∉ reserved ->
  flat_map (fun m => map (pair m) (flat_map (functions_named member) (snd m))) (map (fun ng => mixin_body ng.1 ng.2) ngs) =
  map (fun o => (mixin_body o.1.1 o.1.2, function_body o.2)) (offered member ngs).
Proof.
  intros Hm. unfold offered. induction ngs as [|[n gs] ngs IH]; [done|]. cbn [flat_map map]. rewrite IH, map_app. f_equal.
  assert (flat_map (functions_named member) (map accessor ["context"; "receiver"] ++ map member_function gs) =
    map function_body (groups_named member gs)) as Hf.
  { rewrite functions_named_accessors by (unfold reserved in Hm; set_solver). apply functions_named_members. }
  change (flat_map (functions_named member) (snd (mixin_body (n, gs).1 (n, gs).2))) with
    (flat_map (functions_named member) (map accessor ["context"; "receiver"] ++ map member_function gs)).
  rewrite Hf. by rewrite !map_map.
Qed.

Lemma groups_named_in member gs g : g ∈ groups_named member gs -> g ∈ gs.
Proof. by intros [_ Hg]%list_elem_of_filter. Qed.
Lemma offered_in member ngs ng g : (ng, g) ∈ offered member ngs -> ng ∈ ngs /\ g ∈ ng.2.
Proof.
  intros (ng' & Hin & (g' & [= -> ->] & Hg)%list_elem_of_fmap)%elem_of_flat_map. split; [done|]. by eapply groups_named_in.
Qed.
Lemma aliases_of_functions a gs : flat_map (alias_named a) (map member_function gs) = [].
Proof. by induction gs as [|g gs IH]. Qed.
Lemma mixin_member_overloads n gs g : interface_methods ib n = Some gs -> g ∈ gs ->
  member_overloads scope (mixin_body n gs) (function_body g) = Some (with_sentinel g).
Proof.
  intros (line & last & Hin)%interface_methods_in Hg. unfold member_overloads, alias_of. simpl.
  rewrite aliases_of_functions. cbn [mbind option_bind]. rewrite <- (interface_member_overloads _ _ _ _ _ Hin Hg). f_equal.
  simpl. by rewrite <- !string_app_assoc.
Qed.
Definition delegate_body (clazz : string) (items : list (class_item (declared_signature (T := T)))) : class_body :=
  ([interface_pack ("import_symbols::" +:+ clazz) ("import_symbols::" +:+ clazz)],
   Item (using_alias "bridge_class_t" ("import_symbols::" +:+ clazz)) :: Item (using_alias "bridge_symbol_t" ("import_symbols::" +:+ clazz))
     :: map accessor reserved ++ map member_function (methods_of items)).
Lemma own_member_overloads line items last clazz g : ClassBlock line None clazz items last ∈ ib -> g ∈ methods_of items ->
  member_overloads scope (delegate_body clazz items) (function_body g) = Some (with_sentinel g).
Proof.
  intros Hc Hg. unfold member_overloads, alias_of. simpl. rewrite aliases_of_functions. cbn [mbind option_bind].
  rewrite <- (class_member_overloads _ _ _ _ _ _ Hc Hg). done.
Qed.

(** A delegate finds the member that the table declares for its class, its own or that of the
    only interface that has it, with the overloads of that group. *)
Lemma resolve_member_found line clazz items last member :
  ClassBlock line None clazz items last ∈ ib -> member ∉ reserved ->
  Forall (fun n => is_Some (interface_methods ib n)) (implemented items) ->
  resolve_member scope clazz member = with_sentinel <$> class_member ib items member.
Proof.
  intros Hc Hm Hifs. unfold resolve_member, class_member.
  assert (Block (class (plain clazz) (delegate_body clazz items).1) (delegate_body clazz items).2 ∈ scope) as Hin.
  { apply (in_scope_app _ (flat_map delegate ib)); [|simpl; tauto]. apply elem_of_flat_map. eexists. split; [exact Hc|left]. }
  pose proof (definition_of_unique _ _ _ Hscope (entity_at_top _ _ _ _ Hin)) as Hd. cbn [entity_name] in Hd. rewrite Hd. cbn [mbind option_bind].
  change (flat_map (functions_named member) ((delegate_body clazz items).1, (delegate_body clazz items).2).2) with
    (flat_map (functions_named member) (map accessor reserved ++ map member_function (methods_of items))). rewrite functions_named_accessors, functions_named_members by done.
  destruct (groups_named member (methods_of items)) as [|g [|g2 gs]] eqn:Hown; cbn [map].
  - cbn [fst delegate_body]. rewrite (interface_list_found _ _ _ _ _ Hc). cbn [mbind option_bind].
    assert (exists gss, mapM (interface_methods ib) (implemented items) = Some gss /\
      mapM (mixin scope) (map (fun n => Some (n, import_t)) (implemented items) ++ [None]) =
      Some (map (fun ng => Some (mixin_body ng.1 ng.2)) (zip (implemented items) gss) ++ [None])) as (gss & Hg & Hmix).
    { clear -Hifs Hscope. setoid_rewrite mapM_Some.
      induction Hifs as [|n ns [gs Hn] _ (gss & Hg & Hmix)]; [by exists []; repeat constructor|].
      exists (gs :: gss). split; constructor; try done. by apply mixin_found. }
    rewrite Hg. unfold class_body in *. rewrite Hmix. cbn [mbind option_bind]. rewrite omap_app, omap_some_map.
    change (omap _ [None]) with (@nil (class_body (T := T))). rewrite app_nil_r, offered_functions by done.
    assert (Forall2 (fun n gs => interface_methods ib n = Some gs) (implemented items) gss) as Hg2 by by apply mapM_Some.
    replace gss with (zip (implemented items) gss).*2 at 2 by (apply snd_zip; rewrite (Forall2_length _ _ _ Hg2); lia).
    rewrite offered_groups.
    destruct (offered member (zip (implemented items) gss)) as [|[[n gs] g] [|]] eqn:Hoff; [done| |done]. cbn.
    assert (((n, gs), g) ∈ offered member (zip (implemented items) gss)) as Hin' by (rewrite Hoff; left).
    apply offered_in in Hin' as [Hz Hgs]. apply mixin_member_overloads; [|done].
    exact (Forall2_zip_in _ _ _ _ _ Hg2 Hz).
  - apply (own_member_overloads line items last); [done|]. apply (groups_named_in member). rewrite Hown. left.
  - done.
Qed.

(** Calls of functions and constructions. *)
Lemma called_found name q last body : Block (function name) body ∈ scope ->
  body = [Item (using_alias "overloads_t" q); Item (returns last)] \/
    (exists r, body = [Item (using_alias "receiver_t" r); Item (using_alias "overloads_t" q); Item (returns last)]) ->
  called_overloads scope name = overloads_of scope q.
Proof.
  intros Hin Hbody. unfold called_overloads. rewrite (function_named_in _ _ _ (proj1 (proj2 Hscope)) Hin).
  by destruct Hbody as [->|[r ->]].
Qed.
Lemma group_called g : GroupBlock g ∈ ib -> called_overloads scope ("call_" +:+ group_name g) = Some (with_sentinel g).
Proof.
  intros Hg. erewrite called_found; [by apply group_symbol_overloads| |by left].
  apply (in_scope_app _ (flat_map (on_group call_function) ib)); [|simpl; tauto].
  apply elem_of_flat_map. exists (GroupBlock g). split; [done|left].
Qed.
Lemma group_bound g : GroupBlock g ∈ ib -> bound_overloads scope (group_name g) = Some (with_sentinel g).
Proof.
  intros Hg. unfold bound_overloads. rewrite (function_named_in _ _ [Item (returns ("call_" +:+ group_name g))]); [by apply group_called|apply Hscope|].
  apply (in_scope_app _ (flat_map (on_group binder_function) ib)); [|simpl; tauto].
  apply elem_of_flat_map. exists (GroupBlock g). split; [done|left].
Qed.
Lemma class_constructed line ns clazz items last : ClassBlock line ns clazz items last ∈ ib ->
  constructed_overloads scope clazz = Some (constructors items ++ [unmatched]).
Proof.
  intros Hc. unfold constructed_overloads.
  assert (class_block (specialization "import_class_traits" clazz) []
    [Block (function "construct") [Item (returns ("construct_" +:+ clazz))]] ∈ scope) as Ht.
  { apply (in_scope_app _ (flat_map (on_class class_trait) ib)); [|simpl; tauto].
    apply elem_of_flat_map. eexists. split; [exact Hc|left]. }
  pose proof (definition_of_unique _ _ _ Hscope (entity_at_top _ _ _ _ Ht)) as Hd.
  change (entity_name _) with ("import_class_traits<" +:+ clazz +:+ ">") in Hd. rewrite Hd.
  change (called_overloads scope ("construct_" +:+ clazz) = Some (constructors items ++ [unmatched])).
  erewrite called_found; [| |right; by eexists].
  - assert (class_block (specialization "import_constructor_metadata" ("import_symbols::" +:+ clazz)) []
      [overload_list (constructors items)] ∈ scope) as Hm.
    { apply (in_scope_app _ (flat_map class_metadata ib)); [|simpl; tauto].
      apply elem_of_flat_map. eexists. split; [exact Hc|left]. }
    exact (overloads_of_class _ _ _ (entity_at_top _ _ _ _ Hm) eq_refl).
  - apply (in_scope_app _ (flat_map (on_class construct_function) ib)); [|simpl; tauto].
    apply elem_of_flat_map. eexists. split; [exact Hc|left].
Qed.
(** The methods that the scan finds in the classes of a table. *)
Definition group_method (g : group) : nat * string := (group_line g, group_name g).
Definition interface_body (line : nat) (methods : list group) (last : nat) : list declaration :=
  Item (begin_index line) :: flat_map (member_symbol [interface_receiver_metadata] []) methods ++ [Item (end_index last)].
Definition class_symbol_body (line : nat) (clazz : string) (items : list (class_item (declared_signature (T := T)))) (last : nat) : list declaration :=
  Item (begin_index line) :: Item (using_alias "self_symbol_t" clazz) :: Item (using_alias "delegate_t" clazz)
    :: Item (Generate.symbol_name clazz) :: flat_map (item_symbols [] self_receiver) items ++ [Item (end_index last)].

Lemma methods_at_app (b1 b2 : list declaration) : methods_at (b1 ++ b2) = methods_at b1 ++ methods_at b2.
Proof. apply omap_app. Qed.
Lemma methods_at_symbols bases aliases (gs : list group) : methods_at (flat_map (member_symbol bases aliases) gs) = map group_method gs.
Proof. induction gs as [|g gs IH]; [done|]. exact (f_equal (cons _) IH). Qed.
Lemma item_symbols_methods bases aliases (items : list (class_item (declared_signature (T := T)))) : flat_map (item_symbols bases aliases) items = flat_map (member_symbol bases aliases) (methods_of items).
Proof. induction items as [|[line n|d|g] items IH]; [done|exact IH..|]. simpl. by rewrite IH. Qed.
Lemma the_item_symbols {A} (f : item T -> option A) bases aliases (gs : list group) (k : list declaration) :
  (forall n, f (forward n) = None) -> (forall n i, f (method_name_at n i) = None) ->
  omap (fun d => match d with Item i => f i | _ => None end) (flat_map (member_symbol bases aliases) gs ++ k) =
  omap (fun d => match d with Item i => f i | _ => None end) k.
Proof. intros H1 H2. induction gs as [|g gs IH]; [done|]. simpl. by rewrite H1, H2. Qed.

Lemma interface_body_scanned line methods last :
  begin_index_of (interface_body line methods last) = Some line /\ end_index_of (interface_body line methods last) = Some last /\
  methods_at (interface_body line methods last) = map group_method methods.
Proof.
  unfold begin_index_of, end_index_of, the_item, interface_body. simpl. rewrite !the_item_symbols by done.
  split_and!; try done. change (methods_at (?a :: ?b)) with (methods_at b). rewrite methods_at_app, methods_at_symbols. apply app_nil_r.
Qed.
Lemma class_symbol_body_scanned line clazz items last :
  begin_index_of (class_symbol_body line clazz items last) = Some line /\ end_index_of (class_symbol_body line clazz items last) = Some last /\
  methods_at (class_symbol_body line clazz items last) = map group_method (methods_of items).
Proof.
  unfold begin_index_of, end_index_of, the_item, class_symbol_body. rewrite item_symbols_methods. simpl. rewrite !the_item_symbols by done.
  split_and!; try done. change (methods_at (?a :: ?b :: ?c :: ?d :: ?e)) with (methods_at e).
  rewrite methods_at_app, methods_at_symbols. apply app_nil_r.
Qed.

Lemma descriptor_symbols_found alias line name methods last :
  alias = "symbols_t" \/ alias = "method_symbols_t" -> InterfaceBlock line name methods last ∈ ib ->
  descriptor_symbols alias scope (name, import_t) = Some (interface_body line methods last).
Proof.
  intros Ha Hin. unfold descriptor_symbols.
  assert (forall e, e ∈ flat_map (entities "interface_descriptors") (interface_descriptor (InterfaceBlock line name methods last)) ->
    e ∈ all_entities scope) as He.
  { intros e He. apply (entities_in_block "interface_descriptors" _ _ _ descriptors_in_scope); [|done]. apply elem_of_flat_map in He as (d & Hd & He).
    apply elem_of_flat_map. exists d. split; [|done]. apply elem_of_flat_map. by eexists. }
  erewrite (definition_of_unique scope ("interface_descriptors::" +:+ name +:+ "<import_t>") _ Hscope).
  2: { apply He. left. }
  cbn [mbind option_bind snd]. replace (alias_of alias _) with (Some "symbols") by by destruct Ha as [->| ->]. cbn [mbind option_bind].
  rewrite (definition_of_unique scope ("interface_descriptors::" +:+ name +:+ "<import_t>::" +:+ "symbols")
    ([], interface_body line methods last) Hscope); [reflexivity|].
  apply He. apply elem_of_flat_map. eexists. split; [left|]. right. apply elem_of_flat_map. eexists. split; [left|].
  assert ("interface_descriptors::" +:+ name +:+ "<import_t>::" +:+ "symbols" =
    qualify (qualify "interface_descriptors" (entity_name (specialization name "import_t"))) "symbols") as ->
    by (simpl; by rewrite <- !string_app_assoc).
  left.
Qed.
Lemma before_or_after bs b c : StronglySorted before bs -> b ∈ bs -> c ∈ bs -> b = c \/ before b c \/ before c b.
Proof.
  intros Hs. induction Hs as [|d l _ IH Hd]; intros Hb Hc; [set_solver|]. rewrite List.Forall_forall in Hd.
  apply elem_of_cons in Hb as [->|Hb]; apply elem_of_cons in Hc as [->|Hc]; [by left|right..|by apply IH].
  - left. apply Hd. by apply list_elem_of_In.
  - right. apply Hd. by apply list_elem_of_In.
Qed.
Section Packs.
Context (depth : nat).
Hypothesis Hlines : Forall lines_increase ib.
Hypothesis Hbefore : StronglySorted before ib.
Hypothesis Hwithin : Forall (within depth) ib.

Lemma map_group_method gs : (map group_method gs).*1 = map group_line gs.
Proof. induction gs as [|g gs IH]; [done|]. exact (f_equal (cons _) IH). Qed.
Lemma interface_names_found line name methods last : InterfaceBlock line name methods last ∈ ib ->
  interface_method_names (S depth) scope (name, import_t) = Some (map (method_symbol ∘ group_method) methods).
Proof.
  intros Hin. unfold interface_method_names. rewrite (descriptor_symbols_found _ line name methods last); [|by right|done].
  cbn [mbind option_bind]. destruct (interface_body_scanned line methods last) as (H1 & H2 & ->).
  rewrite (names_between_increasing depth _ _ line last H1 H2).
  - by rewrite map_map.
  - rewrite map_group_method. rewrite Forall_forall in Hlines. apply (Hlines _ Hin).
  - rewrite Forall_forall in Hwithin. apply (Hwithin _ Hin).
Qed.

Lemma lines_between b g : b ∈ ib -> g ∈ (block_lines b).1.2 ->
  ((block_lines b).1.1 < group_line g < (block_lines b).2)%nat.
Proof.
  intros Hb Hg. assert (lines_increase b) as Hb' by (rewrite Forall_forall in Hlines; by apply Hlines).
  apply StronglySorted_inv in Hb' as [Hs Hf].
  assert (In (group_line g) (map group_line (block_lines b).1.2)) as Hin by (apply in_map; by apply list_elem_of_In).
  split.
  - rewrite List.Forall_forall in Hf. apply Hf, in_app_iff. by left.
  - clear -Hs Hin. induction (map group_line _) as [|n l IH]; [done|]. simpl in Hs. apply StronglySorted_inv in Hs as [Hs Hn].
    destruct Hin as [->|Hin]; [|by apply IH]. rewrite List.Forall_forall in Hn. apply Hn, in_app_iff. right. by left.
Qed.

Lemma interface_bodies_found names : Forall (fun n => is_Some (interface_methods ib n)) names ->
  exists bodies, mapM (descriptor_symbols "symbols_t" scope) (map (fun n => (n, import_t)) names) = Some bodies /\
    forall body, body ∈ bodies -> exists l name methods e, InterfaceBlock l name methods e ∈ ib /\ methods_at body = map group_method methods.
Proof.
  setoid_rewrite mapM_Some. intros Hifs. induction Hifs as [|n names [gs Hn] _ (bodies & Hb & Hbodies)].
  - exists []. split; [constructor|set_solver].
  - apply interface_methods_in in Hn as (l & e & Hin). exists (interface_body l gs e :: bodies). split.
    + constructor; [|done]. apply descriptor_symbols_found; [by left|done].
    + intros body [->|Hbody]%elem_of_cons; [|by apply Hbodies]. exists l, n, gs, e. split; [done|]. apply interface_body_scanned.
Qed.

(** The own methods of a class are found, even when it has none and looks in its bases. *)
Lemma class_names_found line ns clazz items last : ClassBlock line ns clazz items last ∈ ib ->
  Forall (fun n => is_Some (interface_methods ib n)) (implemented items) ->
  class_method_names (S depth) scope ("import_symbols::" +:+ clazz) = Some (map (method_symbol ∘ group_method) (methods_of items)).
Proof.
  intros Hc Hifs. unfold class_method_names.
  assert (definition_of scope ("import_symbols::" +:+ clazz) = Some ([interface_symbol_pack clazz], class_symbol_body line clazz items last)) as ->.
  { apply definition_of_unique; [done|]. apply (entities_in_block "import_symbols" _ _ _ symbols_in_scope); [|done].
    apply elem_of_flat_map. eexists. split; [apply elem_of_flat_map; exists (ClassBlock line ns clazz items last); split; [done|left]|left]. }
  cbn [mbind option_bind snd].
  destruct (class_symbol_body_scanned line clazz items last) as (H1 & H2 & H3).
  assert (lines_increase (ClassBlock line ns clazz items last)) as Hl by (rewrite Forall_forall in Hlines; by apply Hlines).
  assert (within depth (ClassBlock line ns clazz items last)) as Hw by (rewrite Forall_forall in Hwithin; by apply Hwithin).
  unfold class_methods. cbn [snd fst]. rewrite H3.
  destruct (methods_of items) as [|g gs] eqn:Hown.
  - cbn [map]. rewrite (interface_list_found _ _ _ _ _ Hc). cbn [mbind option_bind].
    assert (exists bodies, mapM (descriptor_symbols "symbols_t" scope) (omap (fun i => i) (map (fun n => Some (n, import_t)) (implemented items) ++ [None])) = Some bodies /\
      forall body, body ∈ bodies -> exists l name methods e, InterfaceBlock l name methods e ∈ ib /\ methods_at body = map group_method methods)
      as (bodies & Hb & Hbodies).
    { rewrite omap_app, (omap_some_map (fun n => (n, import_t))), app_nil_r. by apply interface_bodies_found. }
    rewrite Hb. cbn [mbind option_bind].
    assert (names_between (S depth) (class_symbol_body line clazz items last) [] = Some []) as Hnone.
    { apply (names_between_increasing depth _ [] line last H1 H2); [|done]. unfold lines_increase in Hl. simpl in Hl. by rewrite Hown in Hl. }
    destruct (filter _ (map methods_at bodies)) as [|ms [|]] eqn:Hf; [done| |done]. cbn [mbind option_bind].
    assert (ms ∈ filter (fun ms => ms ≠ []) (map methods_at bodies)) as [_ Hms]%list_elem_of_filter by (rewrite Hf; left).
    apply list_elem_of_fmap in Hms as (body & -> & Hbody). apply Hbodies in Hbody as (l & name & methods & e & Hin & ->).
    apply (names_between_outside _ _ _ line last H1 H2); [..|done].
    + rewrite map_group_method. apply increasing_NoDup with l e. rewrite Forall_forall in Hlines. apply (Hlines _ Hin).
    + intros m (g & -> & Hg)%list_elem_of_fmap. pose proof (lines_between _ g Hin Hg) as Hbt. simpl in Hbt |- *.
      destruct (before_or_after ib _ _ Hbefore Hin Hc) as [|[Hlt|Hlt]]; [done|..]; unfold before in Hlt; simpl in Hlt; lia.
  - change (map group_method (g :: gs)) with (group_method g :: map group_method gs). cbn [mbind option_bind].
    change (group_method g :: map group_method gs) with (map group_method (g :: gs)).
    rewrite (names_between_increasing depth _ _ line last H1 H2); [by rewrite map_map| |done].
    rewrite map_group_method, <- Hown. exact Hl.
Qed.

(** The names that must differ: those of the methods of its interfaces and its own. *)
Lemma delegate_pack_found line clazz items last gss : ClassBlock line None clazz items last ∈ ib ->
  mapM (interface_methods ib) (implemented items) = Some gss ->
  exists methods_of_interface,
    delegate_pack (S depth) scope clazz =
      Some (checked_interface_pack methods_of_interface (map (fun n => Some (n, import_t)) (implemented items) ++ [None])
              (map (method_symbol ∘ group_method) (methods_of items))) /\
    mjoin (map methods_of_interface (map (fun n => (n, import_t)) (implemented items))) = map (method_symbol ∘ group_method) (mjoin gss).
Proof.
  intros Hc Hgss. exists (fun i => default [] (interface_method_names (S depth) scope i)).
  assert (Forall (fun n => is_Some (interface_methods ib n)) (implemented items)) as Hifs by by eapply mapM_is_Some_1.
  assert (definition_of scope clazz = Some (delegate_body clazz items)) as Hd.
  { apply definition_of_unique; [done|]. rewrite (surjective_pairing (delegate_body clazz items)).
    apply (entity_at_top _ (plain clazz)), (in_scope_app _ (flat_map delegate ib)); [|simpl; tauto].
    apply elem_of_flat_map. eexists. split; [exact Hc|left]. }
  assert (Forall2 (fun n gs => interface_method_names (S depth) scope (n, import_t) = Some (map (method_symbol ∘ group_method) gs)) (implemented items) gss) as Hnames.
  { apply mapM_Some in Hgss. eapply Forall2_impl; [exact Hgss|]. intros n gs (l & e & Hin)%interface_methods_in. by eapply interface_names_found. }
  split.
  - unfold delegate_pack. rewrite Hd. cbn [mbind option_bind delegate_body fst].
    rewrite (interface_list_found _ _ _ _ _ Hc). cbn [mbind option_bind]. rewrite (class_names_found _ _ _ _ _ Hc Hifs). cbn [mbind option_bind].
    rewrite omap_app, (omap_some_map (fun n => (n, import_t))), app_nil_r.
    assert (is_Some (mapM (interface_method_names (S depth) scope) (map (fun n => (n, import_t)) (implemented items)))) as [nss ->]; [|done].
    apply mapM_is_Some_2. clear -Hnames. induction Hnames as [|n gs ns gss Hn _ IH]; [constructor|]. constructor; [by eexists|done].
  - clear -Hnames. induction Hnames as [|n gs ns gss Hn _ IH]; [done|]. cbn [map mjoin list_join]. rewrite Hn. simpl. rewrite map_app. by f_equal.
Qed.
End Packs.
End Lookup.

(** ** The properties *)

(** What is declared for two tables: the header is preprocessed, and its scopes nest. *)
Definition generates (import_def export_def : table T) (ds : list declaration) : Prop :=
  exists fs, preprocess is_reference import_def export_def import_generate no_macros = Some (fs, no_macros) /\ parse fs = Some ds.
Lemma generates_declarations xms i x ib xb ds :
  Forall (on_side false) i -> Forall (on_side true) x ->
  elaborate is_reference import_types i = Some ib -> elaborate is_reference xms x = Some xb ->
  generates (write i) (write x) ds -> ds = import_declarations ib xb.
Proof.
  intros Hi Hx Hib Hxb (fs & Hfs & Hds). destruct (import_generate_declares xms i x ib xb Hi Hx Hib Hxb) as (fs' & Hfs' & Hds').
  rewrite Hfs in Hfs'. injection Hfs' as ->. congruence.
Qed.
Lemma on_import_side i ib line ns clazz items last :
  Forall (on_side false) i -> elaborate is_reference import_types i = Some ib ->
  ClassBlock line ns clazz items last ∈ ib -> ns = None.
Proof.
  intros Hi Hib Hc. pose proof (elaborate_on_side _ _ _ _ _ Hi Hib) as Hs. rewrite Forall_forall in Hs.
  specialize (Hs _ Hc). simpl in Hs. destruct ns; [|done]. destruct Hs as [Hs _]. discriminate Hs. by eexists.
Qed.

(** C7: import_generate.h turns every well-nested table into declarations, and leaves no
    macro defined. In them, when nothing is declared twice, [call_<name>] and [<name>] of a
    callable group select from the signatures of that group, [construct] of a class from its
    constructors, and a member call on a delegate from the only group of that name that the
    class or one of its interfaces declares, each list in the order of the table and closed
    by the signature that nothing matches. *)
Theorem import_generate_resolves xms i x ib xb :
  Forall (on_side false) i -> Forall (on_side true) x ->
  elaborate is_reference import_types i = Some ib -> elaborate is_reference xms x = Some xb ->
  exists ds, generates (write i) (write x) ds /\
    let found := library ds in
    (no_redefinition found ->
      (forall g, GroupBlock g ∈ ib ->
        called_overloads found ("call_" +:+ group_name g) = Some (with_sentinel g) /\
        bound_overloads found (group_name g) = Some (with_sentinel g)) /\
      (forall line ns clazz items last, ClassBlock line ns clazz items last ∈ ib ->
        constructed_overloads found clazz = Some (constructors items ++ [unmatched]) /\
        (Forall (fun n => is_Some (interface_methods ib n)) (implemented items) ->
          forall member, member ∉ reserved ->
            resolve_member found clazz member = with_sentinel <$> class_member ib items member))).
Proof.
  intros Hi Hx Hib Hxb. exists (import_declarations ib xb).
  split; [exact (import_generate_declares xms i x ib xb Hi Hx Hib Hxb)|]. intros found Hfound. split.
  - intros g Hg. split; [by apply group_called|by apply group_bound].
  - intros line ns clazz items last Hc. split; [by eapply class_constructed|]. intros Hifs member Hm.
    pose proof (on_import_side _ _ _ _ _ _ _ Hi Hib Hc) as ->. by eapply resolve_member_found.
Qed.

(** C14: a delegate class compiles exactly when its class implements no interface twice and
    its methods and those of its interfaces have different names, and then it has one base
    for each interface, in order; otherwise the assertions that are violated fail. This is so
    for tables whose lines increase, each method group after the first line of its class or
    interface and before the last, and for blocks of up to [2 ^ depth] lines, at one more
    level of template instantiation. *)
Theorem import_delegate_compiles depth xms i x ib xb ds line ns clazz items last gss :
  Forall (on_side false) i -> Forall (on_side true) x ->
  elaborate is_reference import_types i = Some ib -> elaborate is_reference xms x = Some xb ->
  generates (write i) (write x) ds -> no_redefinition (library ds) ->
  Forall lines_increase ib -> StronglySorted before ib -> Forall (within depth) ib ->
  ClassBlock line ns clazz items last ∈ ib -> mapM (interface_methods ib) (implemented items) = Some gss ->
  let names := map (c_string ∘ text_of ∘ group_name) (mjoin gss ++ methods_of items) in
  exists pack, delegate_pack (S depth) (library ds) clazz = Some pack /\
    match pack with
    | inl bases => bases = map (fun n => (n, import_t)) (implemented items) /\ NoDup (implemented items) /\ NoDup names
    | inr errors =>
        (duplicate_interface ∈ errors <-> ~ NoDup (implemented items)) /\ (duplicate_name ∈ errors <-> ~ NoDup names) /\ errors ≠ []
    end.
Proof.
  intros Hi Hx Hib Hxb Hds Hscope Hl Hb Hw Hc Hgss names.
  pose proof (on_import_side _ _ _ _ _ _ _ Hi Hib Hc) as ->.
  rewrite (generates_declarations _ _ _ _ _ _ Hi Hx Hib Hxb Hds) in Hscope |- *.
  destruct (delegate_pack_found ib xb Hscope depth Hl Hb Hw _ _ _ _ _ Hc Hgss) as (methods & -> & Hm).
  eexists. split; [reflexivity|].
  pose proof (interface_pack_sound methods (map (fun n => Some (n, import_t)) (implemented items) ++ [None])
    (map (method_symbol ∘ group_method) (methods_of items))) as Hp.
  rewrite omap_app, (omap_some_map (fun n => (n, import_t))), app_nil_r in Hp. cbn zeta in Hp.
  change (methods <$> ?l) with (map methods l) in Hp. rewrite Hm, <- map_app in Hp.
  change (c_string ∘ interface_detail.symbol_name <$> map (method_symbol ∘ group_method) ?l) with
    (map (c_string ∘ interface_detail.symbol_name) (map (method_symbol ∘ group_method) l)) in Hp.
  rewrite map_map in Hp. change (map (fun x => (c_string ∘ interface_detail.symbol_name) ((method_symbol ∘ group_method) x)) ?l) with
    (map (c_string ∘ text_of ∘ group_name) l) in Hp. fold names in Hp.
  assert (NoDup (map (fun n => (n, import_t)) (implemented items)) <-> NoDup (implemented items)) as Hnd.
  { split; [apply NoDup_fmap_1|]. apply NoDup_fmap_2. by intros ? ? [= ->]. }
  destruct (checked_interface_pack _ _ _); by rewrite Hnd in Hp.
Qed.
End Header.

(** ** A table *)

Module Sample.
Definition number : type_argument nat := plain_type 1%nat.
Definition reference (t : nat) : bool := bool_decide (t = 9%nat).
Definition signature (line : nat) (ts : list (type_argument nat)) : written := mk_written line false ts.
Definition shape : block written :=
  InterfaceBlock 3 "shape" [mk_group 4 "area" [signature 5 [number]; signature 6 [number; number]] 7] 8.
Definition log : block written := GroupBlock (mk_group 10 "log" [signature 11 [void_type; OBJECT "circle"]; mk_written 12 true [number; CALLABLE "sink"]] 13).
Definition circle (group_line : nat) (name : string) : block written :=
  ClassBlock 15 None "circle"
    [Implements 16 "shape"; Constructor (signature 17 [number]); Members (mk_group group_line name [signature 19 [void_type; number]] 20)] 21.
Definition imported : list (block written) := [shape; log; circle 18 "scale"].
Definition exported : list (block written) := [GroupBlock (mk_group 1 "sink" [signature 2 [void_type; number]] 3)].
Definition blocks (bs : list (block written)) : list (block declared_signature) :=
  default [] (elaborate reference import_types bs).

Definition items_of (b : block written) : list (class_item declared_signature) :=
  match blocks [b] with [ClassBlock _ _ _ items _] => items | _ => [] end.
Definition circle_items : list (class_item declared_signature) := items_of (circle 18 "scale").
Definition area : list (list (group declared_signature)) :=
  match blocks [shape] with [InterfaceBlock _ _ methods _] => [methods] | _ => [] end.
Lemma sides : Forall (on_side false) imported /\ Forall (on_side true) exported.
Proof.
  split; repeat apply Forall_cons_2; try apply Forall_nil_2; done.
Qed.
Lemma elaborated : elaborate reference import_types imported = Some (blocks imported) /\
  elaborate reference import_types exported = Some (blocks exported).
Proof. by vm_compute. Qed.
Lemma declared_once : no_redefinition (library (import_declarations (blocks imported) (blocks exported))).
Proof. refine (bool_decide_unpack (no_redefinition _) _). vm_compute. exact I. Qed.
Lemma in_order : Forall lines_increase (blocks imported) /\ StronglySorted before (blocks imported) /\ Forall (within 4) (blocks imported).
Proof. vm_compute. repeat split; repeat constructor. Qed.
End Sample.

Import Sample.
Lemma sample_generates : generates reference (write imported) (write exported) (import_declarations (blocks imported) (blocks exported)).
Proof.
  exact (import_generate_declares reference import_types _ _ _ _ (proj1 sides) (proj2 sides) (proj1 elaborated) (proj2 elaborated)).
Qed.
Lemma circle_in : ClassBlock 15 None "circle" circle_items 21 ∈ blocks imported.
Proof. vm_compute. right. right. left. Qed.
Lemma circle_interfaces : mapM (interface_methods (blocks imported)) (implemented circle_items) = Some area.
Proof. by vm_compute. Qed.

Lemma import_generate_resolves_witness :
  exists ds, generates reference (write imported) (write exported) ds /\ no_redefinition (library ds).
Proof.
  destruct (import_generate_resolves reference import_types imported exported _ _
    (proj1 sides) (proj2 sides) (proj1 elaborated) (proj2 elaborated)) as (ds & Hds & _).
  exists ds. split; [exact Hds|].
  rewrite (generates_declarations _ _ _ _ _ _ _ (proj1 sides) (proj2 sides) (proj1 elaborated) (proj2 elaborated) Hds).
  exact declared_once.
Defined.
Lemma import_delegate_compiles_witness :
  exists pack, delegate_pack 5 (library (import_declarations (blocks imported) (blocks exported))) "circle" = Some pack /\ pack = inl [("shape", import_t)].
Proof.
  destruct (import_delegate_compiles reference 4 import_types imported exported _ _ _ 15 None "circle" circle_items 21 area
    (proj1 sides) (proj2 sides) (proj1 elaborated) (proj2 elaborated) sample_generates declared_once
    (proj1 in_order) (proj1 (proj2 in_order)) (proj2 (proj2 in_order)) circle_in circle_interfaces) as (pack & Hp & Hpack).
  exists pack. split; [exact Hp|]. destruct pack as [bases|errors]; [by rewrite (proj1 Hpack)|].
  exfalso. destruct Hpack as (H1 & H2 & H3). destruct errors as [|[] errors]; [done|..].
  - apply (proj1 H1); [left|]. apply NoDup_singleton.
  - apply (proj1 H2); [left|]. refine (bool_decide_unpack (NoDup _) _). vm_compute. exact I.
Defined.

(** The names of the methods of a class are not compared when a group begins on the first
    line of its class: this delegate compiles, with a method that has the name of one of its
    interface. *)
Example unchecked_on_first_line :
  delegate_pack 5 (library (import_declarations (blocks [shape; circle 15 "area"]) [])) "circle" = Some (inl [("shape", import_t)]) /\
  delegate_pack 5 (library (import_declarations (blocks [shape; circle 18 "area"]) [])) "circle" = Some (inr [duplicate_name]).
Proof. by vm_compute. Qed.
