(* ===== verification/AsyncGenerate.v ===== *)
(** * async_generate.h: the declarations of asynchronous imports

    The header as it is, one definition per replay of the table; what it declares; and that an
    asynchronous delegate selects from the signatures that the synchronous one calls. *)

From Stdlib Require Import ZArith Lia.
From stdpp Require Import base list strings.
From S2P Require Import Prelude Bytes ExportDispatch Import Interface Generate Declarations ImportGenerate.

(** ** The header *)

Section Header.
Context {T : Type}.
Abbreviation source_line := (source_line T).
Abbreviation declaration := (declaration T).
Abbreviation block := (block (declared_signature (T := T))).
Abbreviation group := (group (declared_signature (T := T))).

Definition name_macro (m : macro) (f : string -> list (fragment T)) : source_line :=
  define (with_parameters 1) m (with_name (fun name _ => f name)).
Definition end_macro (m : macro) (fs : list (fragment T)) : source_line := define object_like m (fixed fs).
Definition undef_shapes : list source_line :=
  map Undef [BEGIN_INTERFACE; END_INTERFACE; BEGIN_CLASS; END_CLASS; BEGIN_MEMBER_CALLABLE_GROUP].
Definition async_member (symbol name : string) : list (fragment T) :=
  [Open (function name); Emit (using_alias "Symbol" (symbol +:+ name)); Emit (returns "prepare"); Close].

(** The mixins of interfaces. *)
Definition async_mixins : list source_line :=
  [open_namespace "dynabridge"; open_namespace "async_delegates";
   name_macro BEGIN_INTERFACE (fun name => [struct name []]); end_macro END_INTERFACE [Close];
   define_empty (with_parameters 1) IMPLEMENTS;
   name_macro BEGIN_CLASS (fun clazz => [Emit (forward clazz)]); define_empty object_like END_CLASS;
   define_empty (with_parameters 1) BEGIN_CALLABLE_GROUP; define_empty variadic DECL_CALLABLE; define_empty variadic DECL_FUNCTION;
   define_empty object_like END_CALLABLE_GROUP; define_empty variadic DECL_CONSTRUCTOR;
   name_macro BEGIN_MEMBER_CALLABLE_GROUP (async_member "Host::bridge_symbol_t::");
   define_empty variadic DECL_MEMBER_FUNCTION; define_empty object_like END_MEMBER_CALLABLE_GROUP;
   Undef BEGIN_CLASS; Undef END_CLASS;
   name_macro BEGIN_CLASS (fun clazz => [struct ("ignored_" +:+ clazz) []]); end_macro END_CLASS [Close];
   IncludeImportDef] ++ undef_shapes ++ [close_namespace].
Definition async_descriptors : list source_line :=
  [open_namespace "async_detail";
   name_macro BEGIN_INTERFACE (fun name => [special "mixin" ("interface_descriptors::" +:+ name +:+ "<import_t>, Host") [async_mixin name]; Close]);
   define_empty object_like END_INTERFACE; define_empty (with_parameters 1) BEGIN_CLASS; define_empty object_like END_CLASS;
   define_empty (with_parameters 1) BEGIN_MEMBER_CALLABLE_GROUP; IncludeImportDef] ++ undef_shapes ++ [close_namespace].

(** The delegates. *)
Definition async_classes : list source_line :=
  [open_namespace "async_delegates"] ++ no_interfaces ++ undef_interfaces ++
  [name_macro BEGIN_INTERFACE (fun name => [struct ("ignored_interface_" +:+ name) [erased_context];
     Emit (using_alias "bridge_symbol_t" ("interface_descriptors::" +:+ name +:+ "<import_t>::symbols"))]);
   end_macro END_INTERFACE [Close];
   name_macro BEGIN_CLASS (fun clazz => [struct clazz [receiver_storage clazz; async_interfaces ("import_symbols::" +:+ clazz)];
     Emit (using_alias "bridge_symbol_t" ("import_symbols::" +:+ clazz))]);
   end_macro END_CLASS [Close];
   name_macro BEGIN_MEMBER_CALLABLE_GROUP (async_member "bridge_symbol_t::"); IncludeImportDef] ++ undef_shapes ++ [close_namespace].
Definition async_traits : list source_line :=
  no_interfaces ++
  [name_macro BEGIN_CLASS (fun clazz => [special "async_class_traits" clazz []; Open (function "bind"); Emit (returns ("async_delegates::" +:+ clazz)); Close]);
   end_macro END_CLASS [Close]; define_empty (with_parameters 1) BEGIN_MEMBER_CALLABLE_GROUP; IncludeImportDef] ++ undef_shapes ++
  [Undef BEGIN_CALLABLE_GROUP; Undef END_CALLABLE_GROUP].
Definition async_functions : list source_line :=
  [open_namespace "async_functions"] ++ no_interfaces ++
  [define_empty (with_parameters 1) BEGIN_CLASS; define_empty object_like END_CLASS; define_empty (with_parameters 1) BEGIN_MEMBER_CALLABLE_GROUP;
   name_macro BEGIN_CALLABLE_GROUP (fun name =>
     [Open (function name); Emit (using_alias "Symbol" ("import_symbols::" +:+ name)); Emit (returns "checked_projection"); Close]);
   define_empty object_like END_CALLABLE_GROUP; IncludeImportDef] ++ undef_shapes ++ [close_namespace] ++
  map Undef [IMPLEMENTS; DECL_CONSTRUCTOR; DECL_MEMBER_FUNCTION; END_MEMBER_CALLABLE_GROUP; BEGIN_CALLABLE_GROUP; DECL_CALLABLE; DECL_FUNCTION; END_CALLABLE_GROUP]
  ++ [close_namespace].

Definition async_generate : list source_line :=
  async_mixins ++ async_descriptors ++ async_classes ++ async_traits ++ async_functions.

Definition async_segments : list (segment T) := Eval vm_compute in
  match segments async_generate no_macros with Some (ss, _) => ss | None => [] end.
Lemma async_generate_segments : segments async_generate no_macros = Some (async_segments, no_macros).
Proof. vm_compute. reflexivity. Qed.

(** ** The declarations of a well-nested table *)

Definition async_function_of (symbol : string) (g : group) : declaration :=
  Block (function (group_name g)) [Item (using_alias "Symbol" (symbol +:+ group_name g)); Item (returns "prepare")].
Definition async_mixin_declarations (b : block) : list declaration :=
  match b with
  | GroupBlock _ => []
  | InterfaceBlock _ name methods _ => [class_block (plain name) [] (map (async_function_of "Host::bridge_symbol_t::") methods)]
  | ClassBlock _ _ clazz items _ =>
      [class_block (plain ("ignored_" +:+ clazz)) [] (map (async_function_of "Host::bridge_symbol_t::") (methods_of items))]
  end.
Definition async_descriptor (name : string) : list declaration :=
  [class_block (specialization "mixin" ("interface_descriptors::" +:+ name +:+ "<import_t>, Host")) [async_mixin name] []].
Definition async_delegate (b : block) : list declaration :=
  match b with
  | GroupBlock _ => []
  | InterfaceBlock _ name methods _ =>
      [class_block (plain ("ignored_interface_" +:+ name)) [erased_context]
         (Item (using_alias "bridge_symbol_t" ("interface_descriptors::" +:+ name +:+ "<import_t>::symbols"))
          :: map (async_function_of "bridge_symbol_t::") methods)]
  | ClassBlock _ _ clazz items _ =>
      [class_block (plain clazz) [receiver_storage clazz; async_interfaces ("import_symbols::" +:+ clazz)]
         (Item (using_alias "bridge_symbol_t" ("import_symbols::" +:+ clazz)) :: map (async_function_of "bridge_symbol_t::") (methods_of items))]
  end.
Definition async_trait (clazz : string) : list declaration :=
  [class_block (specialization "async_class_traits" clazz) [] [Block (function "bind") [Item (returns ("async_delegates::" +:+ clazz))]]].
Definition async_group_function (name : string) : list declaration :=
  [Block (function name) [Item (using_alias "Symbol" ("import_symbols::" +:+ name)); Item (returns "checked_projection")]].

Definition async_plan : list planned :=
  let open n := PlanText [Open (namespace n)] in
  let close := PlanText [Close] in
  [open "dynabridge"; open "async_delegates"; PlanTable true async_mixin_declarations; close;
   open "async_detail"; PlanTable true (on_interface async_descriptor); close;
   open "async_delegates"; PlanTable true async_delegate; close;
   PlanTable true (on_class async_trait);
   open "async_functions"; PlanTable true (on_group async_group_function); close; close].
Definition async_declarations (ib : list block) : list declaration :=
  [Block (namespace "dynabridge")
    ([Block (namespace "async_delegates") (flat_map async_mixin_declarations ib);
      Block (namespace "async_detail") (flat_map (on_interface async_descriptor) ib);
      Block (namespace "async_delegates") (flat_map async_delegate ib)] ++
     flat_map (on_class async_trait) ib ++
     [Block (namespace "async_functions") (flat_map (on_group async_group_function) ib)])].

Lemma async_plan_prints ib xb : mjoin (map (print_plan ib xb) async_plan) = print_all (async_declarations ib).
Proof.
  unfold async_plan, async_declarations, print_all. simpl.
  repeat first [rewrite flat_map_app | rewrite app_nil_r | rewrite <- app_assoc | progress simpl]. reflexivity.
Qed.

Lemma emit_async_member e symbol g :
  replaced e BEGIN_MEMBER_CALLABLE_GROUP = Some (with_name (fun name _ => async_member symbol name)) ->
  silent e DECL_MEMBER_FUNCTION && silent e END_MEMBER_CALLABLE_GROUP = true ->
  emit_members e g = print_all [async_function_of symbol g].
Proof.
  rewrite andb_true_iff. intros H1 [H2 H3]. unfold emit_members, emit_name. by rewrite H1, silent_end, emit_signatures_silent.
Qed.
Lemma emit_async_items e symbol items :
  silent e IMPLEMENTS && silent e DECL_CONSTRUCTOR = true ->
  replaced e BEGIN_MEMBER_CALLABLE_GROUP = Some (with_name (fun name _ => async_member symbol name)) ->
  silent e DECL_MEMBER_FUNCTION && silent e END_MEMBER_CALLABLE_GROUP = true ->
  flat_map (emit_item e) items = print_all (map (async_function_of symbol) (methods_of items)).
Proof.
  rewrite andb_true_iff. intros [H1 H2] H3 H4. induction items as [|[line name|d|g] items IH]; simpl; [done|..]; rewrite IH.
  - by rewrite silent_name.
  - by rewrite silent_signature.
  - by rewrite (emit_async_member e symbol g H3 H4).
Qed.

Lemma async_plan_followed : Forall2 follows async_segments async_plan.
Proof.
  unfold async_segments, async_plan.
  repeat (apply Forall2_cons; split; [first [reflexivity | split; [reflexivity|by_block; quiet]|idtac]|]); [..|apply Forall2_nil].
  - rewrite (print_flat_map _ (fun g => [async_function_of "Host::bridge_symbol_t::" g])) by (intros x; by apply emit_async_member).
    rewrite <- map_flat. nested.
  - rewrite (emit_async_items _ "Host::bridge_symbol_t::") by reflexivity. nested.
  - rewrite (print_flat_map _ (fun g => [async_function_of "bridge_symbol_t::" g])) by (intros x; by apply emit_async_member).
    rewrite <- map_flat. nested.
  - rewrite (emit_async_items _ "bridge_symbol_t::") by reflexivity. nested.
  - done.
Qed.

Context (is_reference : T -> bool).
Lemma async_segments_ok xms : Forall (segment_ok import_types xms) async_segments.
Proof. unfold async_segments. repeat constructor; try (intros []; by vm_compute). Qed.
Definition generates_async (import_def export_def : table T) (ds : list declaration) : Prop :=
  exists fs, preprocess is_reference import_def export_def async_generate no_macros = Some (fs, no_macros) /\ parse fs = Some ds.
Lemma async_generate_declares xms i x ib xb :
  Forall (on_side false) i -> Forall (on_side true) x -> elaborate is_reference import_types i = Some ib -> elaborate is_reference xms x = Some xb ->
  generates_async (write i) (write x) (async_declarations ib).
Proof.
  intros Hi Hx Hib Hxb. exists (print_all (async_declarations ib)). split; [|apply parse_print_all].
  rewrite preprocess_segments, async_generate_segments. cbn [mbind option_bind fst snd].
  rewrite (expand_segments is_reference ib xb _ _ _ _ _ Hi Hx Hib Hxb (async_segments_ok xms)). cbn [mbind option_bind].
  rewrite (print_planned ib xb _ _ async_plan_followed), async_plan_prints; [done|by eapply elaborate_on_side..].
Qed.

(** ** What an asynchronous call finds *)

(** A nested class, by its name. *)
Definition classes_named (name : string) (d : declaration) : list (class_body (T := T)) :=
  match d with Block (class (plain n) bases) body => if decide (n = name) then [(bases, body)] else [] | _ => [] end.

(** The overloads of a method symbol and its [receiver_symbol_t]: the class that encloses it,
    or that which an interface is projected into. *)
Definition symbol_overloads (symbol : class_body (T := T)) : option (list (contract (cxx_type T))) :=
  contracts <$> list_named "overloads_t" symbol.2.
Definition own_receiver (enclosing symbol : class_body (T := T)) : option string :=
  r ← alias_of "receiver_symbol_t" symbol.2; alias_of r enclosing.2.
Definition projected_receiver (clazz : string) (symbol : class_body (T := T)) : option string :=
  match symbol.1 with [interface_receiver_metadata] => Some clazz | _ => None end.
Definition found_symbol (receiver : option string) (symbol : class_body (T := T)) : option (list (contract (cxx_type T)) * string) :=
  cs ← symbol_overloads symbol; r ← receiver; Some (cs, r).

(** A method symbol of a class: its own, or of the only interface that it has it from. *)
Definition find_symbol (di : list declaration) (q name : string) : option (list (contract (cxx_type T)) * string) :=
  d ← definition_of di q;
  match flat_map (classes_named name) d.2, d.1 with
  | [symbol], _ => found_symbol (own_receiver d symbol) symbol
  | [], [interface_symbol_pack clazz] =>
      is_ ← interface_list di ("import_symbols::" +:+ clazz);
      bodies ← mapM (descriptor_symbols "symbols_t" di) (omap (fun i => i) is_);
      match flat_map (flat_map (classes_named name)) bodies with
      | [symbol] => found_symbol (projected_receiver clazz symbol) symbol
      | _ => None
      end
  | _, _ => None
  end.

Fixpoint strip (prefix s : string) : option string :=
  match prefix, s with
  | EmptyString, _ => Some s
  | String a prefix, String b s => if decide (a = b) then strip prefix s else None
  | _, _ => None
  end.
Lemma strip_app p s : strip p (p +:+ s) = Some s.
Proof. induction p as [|a p IH]; [done|]. simpl. by rewrite decide_True. Qed.

(** [receiver_storage::prepare]: the symbol must belong to the class of the delegate. *)
Definition prepared (di : list declaration) (clazz q name : string) : option (list (contract (cxx_type T))) :=
  found ← find_symbol di q name; if decide (found.2 = clazz) then Some found.1 else None.
Definition async_symbol (prefix : string) (di : list declaration) (d : class_body (T := T)) (clazz : string) (body : list declaration)
  : option (list (contract (cxx_type T))) :=
  symbol ← alias_of "Symbol" body; name ← strip prefix symbol; q ← alias_of "bridge_symbol_t" d.2; prepared di clazz q name.

(** The mixin of an interface. *)
Definition async_mixin_of (ds : list declaration) (i : string * direction) : option (list declaration) :=
  match i with
  | (n, import_t) =>
      d ← definition_of ds ("async_detail::mixin<interface_descriptors::" +:+ n +:+ "<import_t>, Host>");
      match d.1 with [async_mixin name] => snd <$> definition_of ds ("async_delegates::" +:+ name) | _ => None end
  | (_, export_t) => None
  end.
(** A call looks [prepare] up in the delegate again, where a method of that name hides that of
    [receiver_storage], or makes it ambiguous. *)
Definition resolve_async (ds di : list declaration) (clazz member : string) : option (list (contract (cxx_type T))) :=
  d ← definition_of ds ("async_delegates::" +:+ clazz);
  match d.1 with
  | [receiver_storage _; async_interfaces interfaces_of] =>
      is_ ← interface_list di interfaces_of;
      mixins ← mapM (async_mixin_of ds) (omap (fun i => i) is_);
      match flat_map (functions_named "prepare") (d.2 ++ mjoin mixins) with
      | [] =>
          match flat_map (functions_named member) d.2, flat_map (functions_named member) (mjoin mixins) with
          | [body], _ => async_symbol "bridge_symbol_t::" di d clazz body
          | [], [body] => async_symbol "Host::bridge_symbol_t::" di d clazz body
          | _, _ => None
          end
      | _ => None
      end
  | _ => None
  end.

(** [async_functions::name]. *)
Definition in_namespace (name : string) (ds : list declaration) : list declaration :=
  flat_map (fun d => match d with Block (namespace n) body => if decide (n = name) then body else [] | _ => [] end) ds.
Definition async_called (ds di : list declaration) (name : string) : option (list (contract (cxx_type T))) :=
  body ← function_named name (in_namespace "async_functions" ds); q ← alias_of "Symbol" body; overloads_of di q.

Section Lookup.
Context (ib xb : list block).
Abbreviation sync := (library (import_declarations ib xb)).
Abbreviation async := (library (async_declarations ib)).
Hypothesis Hsync : no_redefinition sync.
Hypothesis Hasync : no_redefinition async.

Lemma functions_named_async m symbol (gs : list group) :
  flat_map (functions_named m) (map (async_function_of symbol) gs) =
  map (fun g => [Item (using_alias "Symbol" (symbol +:+ group_name g)); Item (returns "prepare")]) (groups_named m gs).
Proof.
  unfold groups_named. induction gs as [|g gs IH]; [done|]. cbn [map flat_map]. rewrite IH.
  destruct (decide (group_name g = m)) as [Hm|Hm]; simpl.
  - rewrite decide_True by done. by rewrite filter_cons_True.
  - rewrite decide_False by done. by rewrite filter_cons_False.
Qed.
Lemma classes_named_symbols m bases aliases (gs : list group) :
  flat_map (classes_named m) (flat_map (member_symbol bases aliases) gs) = map (fun g => (bases, symbol_body aliases g)) (groups_named m gs).
Proof.
  unfold groups_named. induction gs as [|g gs IH]; [done|]. cbn [flat_map]. rewrite flat_map_app, IH.
  destruct (decide (group_name g = m)) as [Hm|Hm]; simpl.
  - rewrite decide_True by done. by rewrite filter_cons_True.
  - rewrite decide_False by done. by rewrite filter_cons_False.
Qed.
Lemma symbol_overloads_body bases aliases (g : group) : symbol_overloads (bases, symbol_body aliases g) = Some (with_sentinel g).
Proof.
  unfold symbol_overloads, list_named, symbol_body. cbn [snd].
  assert (forall k, flat_map (lists_named "overloads_t") (map Item aliases ++ k) = flat_map (lists_named "overloads_t") k) as Hk.
  { intros k. induction aliases as [|i l IH]; [done|]. exact IH. }
  rewrite Hk. simpl. by rewrite contracts_overload_list.
Qed.

Lemma class_symbol_found line ns clazz items last : ClassBlock line ns clazz items last ∈ ib ->
  definition_of sync ("import_symbols::" +:+ clazz) = Some ([interface_symbol_pack clazz], class_symbol_body line clazz items last).
Proof.
  intros Hc. apply definition_of_unique; [done|]. apply (entities_in_block "import_symbols" _ _ _ (symbols_in_scope ib xb)); [|done].
  apply elem_of_flat_map. eexists. split; [apply elem_of_flat_map; exists (ClassBlock line ns clazz items last); split; [done|left]|left].
Qed.

Lemma aliases_of_symbols a bases aliases (gs : list group) : flat_map (alias_named a) (flat_map (member_symbol bases aliases) gs) = [].
Proof. induction gs as [|g gs IH]; [done|]. exact IH. Qed.
Lemma interface_symbols_found m names gss : mapM (interface_methods ib) names = Some gss ->
  exists bodies, mapM (descriptor_symbols "symbols_t" sync) (map (fun n => (n, import_t)) names) = Some bodies /\
    flat_map (flat_map (classes_named m)) bodies =
    map (fun g => ([interface_receiver_metadata], symbol_body [] g)) (groups_named m (mjoin gss)).
Proof.
  setoid_rewrite mapM_Some. intros Hgss. induction Hgss as [|n gs names gss Hn _ (bodies & Hb & Hs)]; [by exists []; split; [constructor|]|].
  apply interface_methods_in in Hn as (l & e & Hin). exists (interface_body l gs e :: bodies). split.
  - constructor; [|done]. apply descriptor_symbols_found; [done|by left|done].
  - cbn [flat_map]. rewrite Hs. change (mjoin (gs :: gss)) with (gs ++ mjoin gss). unfold groups_named. rewrite filter_app, map_app. f_equal.
    unfold interface_body. cbn [flat_map classes_named app]. rewrite flat_map_app, classes_named_symbols. apply app_nil_r.
Qed.
Lemma own_symbols_found m line clazz items last :
  flat_map (classes_named m) (class_symbol_body line clazz items last) =
  map (fun g => ([], symbol_body self_receiver g)) (groups_named m (methods_of items)).
Proof.
  unfold class_symbol_body. cbn [flat_map classes_named app]. rewrite item_symbols_methods, flat_map_app, classes_named_symbols. apply app_nil_r.
Qed.
Lemma found_symbol_body r bases aliases g : found_symbol (Some r) (bases, symbol_body aliases g) = Some (with_sentinel g, r).
Proof. unfold found_symbol. by rewrite symbol_overloads_body. Qed.
Lemma own_receiver_found line clazz items last g :
  own_receiver ([interface_symbol_pack clazz], class_symbol_body line clazz items last) ([], symbol_body self_receiver g) = Some clazz.
Proof.
  unfold own_receiver, alias_of. simpl. rewrite item_symbols_methods, flat_map_app, aliases_of_symbols. done.
Qed.

(** A class finds the symbol of the member that the table declares for it. *)
Lemma find_symbol_member line ns clazz items last gss m : ClassBlock line ns clazz items last ∈ ib ->
  mapM (interface_methods ib) (implemented items) = Some gss ->
  find_symbol sync ("import_symbols::" +:+ clazz) m = (fun g => (with_sentinel g, clazz)) <$> class_member ib items m.
Proof.
  intros Hc Hgss. unfold find_symbol, class_member. rewrite (class_symbol_found _ _ _ _ _ Hc). cbn [mbind option_bind snd fst].
  rewrite own_symbols_found. destruct (groups_named m (methods_of items)) as [|g [|]]; cbn [map]; [..|done].
  - rewrite (interface_list_found _ _ Hsync _ _ _ _ _ Hc). cbn [mbind option_bind].
    rewrite omap_app, (omap_some_map (fun n => (n, import_t))), app_nil_r, Hgss.
    destruct (interface_symbols_found m _ _ Hgss) as (bodies & -> & Hs). cbn [mbind option_bind]. rewrite Hs.
    destruct (groups_named m (mjoin gss)) as [|g [|]]; cbn [map]; [done| |done].
    unfold projected_receiver. cbn [fst]. by rewrite found_symbol_body.
  - by rewrite own_receiver_found, found_symbol_body.
Qed.

(** The functions of an asynchronous delegate. *)
Definition async_body (symbol : string) (g : group) : list declaration :=
  [Item (using_alias "Symbol" (symbol +:+ group_name g)); Item (returns "prepare")].
Lemma async_definition q s d : q = "async_delegates::" +:+ s -> (q, d) ∈ flat_map (entities "async_delegates") (flat_map async_mixin_declarations ib ++ flat_map async_delegate ib) ->
  definition_of async q = Some d.
Proof.
  intros -> Hin. apply definition_of_unique; [done|]. rewrite flat_map_app in Hin. apply elem_of_app in Hin as [Hin|Hin].
  - apply (entities_in_block "async_delegates" (flat_map async_mixin_declarations ib)); [left|done|done].
  - apply (entities_in_block "async_delegates" (flat_map async_delegate ib)); [right; right; left|done|done].
Qed.
Lemma async_mixins_found names gss : mapM (interface_methods ib) names = Some gss ->
  exists bodies, mapM (async_mixin_of async) (map (fun n => (n, import_t)) names) = Some bodies /\
    forall m, flat_map (functions_named m) (mjoin bodies) = map (async_body "Host::bridge_symbol_t::") (groups_named m (mjoin gss)).
Proof.
  setoid_rewrite mapM_Some. intros Hgss. induction Hgss as [|n gs names gss Hn _ (bodies & Hb & Hs)]; [by exists []; split; [constructor|]|].
  apply interface_methods_in in Hn as (l & e & Hin). exists (map (async_function_of "Host::bridge_symbol_t::") gs :: bodies). split.
  - constructor; [|done]. unfold async_mixin_of.
    rewrite (definition_of_unique async _ ([async_mixin n], [])); [|done|].
    + cbn [mbind option_bind fst]. rewrite (async_definition _ n ([], map (async_function_of "Host::bridge_symbol_t::") gs)); [done|done|].
      rewrite flat_map_app. apply elem_of_app. left. apply elem_of_flat_map.
      exists (class_block (plain n) [] (map (async_function_of "Host::bridge_symbol_t::") gs)).
      split; [apply elem_of_flat_map; eexists; split; [exact Hin|left]|left].
    + apply (entities_in_block "async_detail" (flat_map (on_interface async_descriptor) ib)); [right; left| |done].
      apply elem_of_flat_map. eexists. split; [apply elem_of_flat_map; eexists; split; [exact Hin|left]|].
      assert ("async_detail::mixin<interface_descriptors::" +:+ n +:+ "<import_t>, Host>" =
        qualify "async_detail" (entity_name (specialization "mixin" ("interface_descriptors::" +:+ n +:+ "<import_t>, Host")))) as ->
        by (simpl; by rewrite <- !string_app_assoc).
      left.
  - intros m. change (mjoin (?x :: ?l)) with (x ++ mjoin l). rewrite flat_map_app, Hs, functions_named_async.
    change (mjoin (gs :: gss)) with (gs ++ mjoin gss). unfold groups_named. by rewrite filter_app, map_app.
Qed.

Lemma async_symbol_found prefix line ns clazz items last gss g rest bases :
  ClassBlock line ns clazz items last ∈ ib -> mapM (interface_methods ib) (implemented items) = Some gss ->
  alias_of "bridge_symbol_t" rest = Some ("import_symbols::" +:+ clazz) ->
  async_symbol prefix sync (bases, rest) clazz (async_body prefix g) = with_sentinel <$> class_member ib items (group_name g).
Proof.
  intros Hc Hgss Ha. unfold async_symbol. change (alias_of "Symbol" (async_body prefix g)) with (Some (prefix +:+ group_name g)).
  cbn [mbind option_bind]. rewrite strip_app. cbn [mbind option_bind snd]. rewrite Ha. cbn [mbind option_bind].
  unfold prepared. rewrite (find_symbol_member _ _ _ _ _ _ _ Hc Hgss).
  destruct (class_member ib items (group_name g)); simpl; [by rewrite decide_True|done].
Qed.

Lemma aliases_of_async a symbol (gs : list group) : flat_map (alias_named a) (map (async_function_of symbol) gs) = [].
Proof. by induction gs as [|g gs IH]. Qed.
Lemma groups_named_name m (gs : list group) g : g ∈ groups_named m gs -> group_name g = m.
Proof. by intros [Hg _]%list_elem_of_filter. Qed.
Lemma resolve_async_found line ns clazz items last gss m : ClassBlock line ns clazz items last ∈ ib ->
  mapM (interface_methods ib) (implemented items) = Some gss ->
  groups_named "prepare" (methods_of items) = [] -> groups_named "prepare" (mjoin gss) = [] ->
  resolve_async async sync clazz m = with_sentinel <$> class_member ib items m.
Proof.
  intros Hc Hgss Hp1 Hp2. unfold resolve_async.
  set (rest := Item (using_alias "bridge_symbol_t" ("import_symbols::" +:+ clazz)) :: map (async_function_of "bridge_symbol_t::") (methods_of items)).
  rewrite (async_definition _ clazz ([receiver_storage clazz; async_interfaces ("import_symbols::" +:+ clazz)], rest)); [|done|].
  2: { rewrite flat_map_app. apply elem_of_app. right. apply elem_of_flat_map.
       exists (class_block (plain clazz) [receiver_storage clazz; async_interfaces ("import_symbols::" +:+ clazz)] rest).
       split; [apply elem_of_flat_map; eexists; split; [exact Hc|left]|left]. }
  assert (alias_of "bridge_symbol_t" rest = Some ("import_symbols::" +:+ clazz)) as Ha.
  { unfold alias_of, rest. simpl. by rewrite aliases_of_async. }
  assert (forall n, flat_map (functions_named n) rest = map (async_body "bridge_symbol_t::") (groups_named n (methods_of items))) as Hrest.
  { intros n. change (flat_map (functions_named n) rest) with (flat_map (functions_named n) (map (async_function_of "bridge_symbol_t::") (methods_of items))).
    apply functions_named_async. }
  cbn [mbind option_bind snd fst]. rewrite (interface_list_found _ _ Hsync _ _ _ _ _ Hc). cbn [mbind option_bind].
  rewrite omap_app, (omap_some_map (fun n => (n, import_t))), app_nil_r.
  destruct (async_mixins_found _ _ Hgss) as (bodies & -> & Hs). cbn [mbind option_bind].
  rewrite flat_map_app, !Hrest, !Hs, Hp1, Hp2. cbn [map app].
  assert (forall prefix gs g, groups_named m gs = [g] ->
    async_symbol prefix sync ([receiver_storage clazz; async_interfaces ("import_symbols::" +:+ clazz)], rest) clazz (async_body prefix g) =
    with_sentinel <$> class_member ib items m) as Hsym.
  { intros prefix gs g Hg. rewrite (async_symbol_found _ _ _ _ _ _ _ _ _ _ Hc Hgss Ha).
    assert (group_name g = m) as ->; [|done]. apply (groups_named_name m gs). rewrite Hg. left. }
  destruct (groups_named m (methods_of items)) as [|g [|g2 gs]] eqn:Hown; cbn [map].
  - destruct (groups_named m (mjoin gss)) as [|g [|g2 gs]] eqn:Hifs; cbn [map]; [|by eapply Hsym|];
      unfold class_member; rewrite Hown, Hgss; cbn [mbind option_bind]; by rewrite Hifs.
  - by eapply Hsym.
  - unfold class_member. by rewrite Hown.
Qed.

(** The functions of groups. *)
Lemma async_functions_in : in_namespace "async_functions" async = flat_map (on_group async_group_function) ib.
Proof.
  unfold in_namespace, async_declarations. simpl. rewrite flat_map_app. simpl. rewrite app_nil_r.
  replace (flat_map _ (flat_map (on_class async_trait) ib)) with (@nil declaration); [done|].
  clear. symmetry. by induction ib as [|[g|l n ms e|l n c is_ e] bs IH]; [|exact IH..].
Qed.
Lemma function_names_app (ds es : list declaration) : function_names (ds ++ es) = function_names ds ++ function_names es.
Proof. apply omap_app. Qed.
Lemma async_names_differ : NoDup (function_names (flat_map (on_group async_group_function) ib)).
Proof.
  replace (function_names (flat_map (on_group async_group_function) ib)) with (function_names (flat_map (on_group binder_function) ib)).
  - destruct Hsync as (_ & Hnd & _). unfold import_declarations in Hnd. cbn [library] in Hnd. rewrite !function_names_app in Hnd.
    repeat (apply NoDup_app in Hnd as (? & ? & Hnd); try done).
  - clear. induction ib as [|[g|l n ms e|l n c is_ e] bs IH]; [done|exact (f_equal (cons _) IH)|exact IH..].
Qed.
Lemma async_called_found g : GroupBlock g ∈ ib -> async_called async sync (group_name g) = Some (with_sentinel g).
Proof.
  intros Hg. unfold async_called. rewrite async_functions_in.
  rewrite (function_named_in _ _ [Item (using_alias "Symbol" ("import_symbols::" +:+ group_name g)); Item (returns "checked_projection")] async_names_differ).
  - by apply group_symbol_overloads.
  - apply elem_of_flat_map. exists (GroupBlock g). split; [done|left].
Qed.
End Lookup.

(** ** The property *)

Lemma generates_async_declarations xms i x ib xb ds :
  Forall (on_side false) i -> Forall (on_side true) x ->
  elaborate is_reference import_types i = Some ib -> elaborate is_reference xms x = Some xb ->
  generates_async (write i) (write x) ds -> ds = async_declarations ib.
Proof.
  intros Hi Hx Hib Hxb (fs & Hfs & Hds). destruct (async_generate_declares xms i x ib xb Hi Hx Hib Hxb) as (fs' & Hfs' & Hds').
  rewrite Hfs in Hfs'. injection Hfs' as ->. congruence.
Qed.

(** C15: the asynchronous delegates and functions that async_generate.h declares select from
    the signatures that the synchronous ones of import_generate.h call, for every member of
    every class, inherited from an interface or its own, and the symbol they find belongs to
    that class, as [prepare] asserts; provided that no method of the class is called
    [prepare]. *)
Theorem async_delegates_agree xms i x ib xb ds di :
  Forall (on_side false) i -> Forall (on_side true) x ->
  elaborate is_reference import_types i = Some ib -> elaborate is_reference xms x = Some xb ->
  generates is_reference (write i) (write x) di -> no_redefinition (library di) ->
  generates_async (write i) (write x) ds -> no_redefinition (library ds) ->
  (forall g, GroupBlock g ∈ ib ->
     async_called (library ds) (library di) (group_name g) = called_overloads (library di) ("call_" +:+ group_name g)) /\
  (forall line ns clazz items last gss member, ClassBlock line ns clazz items last ∈ ib ->
     mapM (interface_methods ib) (implemented items) = Some gss ->
     Forall (fun g => group_name g ≠ "prepare") (mjoin gss ++ methods_of items) -> member ∉ reserved ->
     resolve_async (library ds) (library di) clazz member = resolve_member (library di) clazz member).
Proof.
  intros Hi Hx Hib Hxb Hdi Hsync Hds Hasync.
  pose proof (generates_declarations _ _ _ _ _ _ _ Hi Hx Hib Hxb Hdi) as ->.
  pose proof (generates_async_declarations _ _ _ _ _ _ Hi Hx Hib Hxb Hds) as ->. split.
  - intros g Hg. rewrite (async_called_found _ _ Hsync _ Hg). symmetry. by apply group_called.
  - intros line ns clazz items last gss member Hc Hgss Hp Hm.
    pose proof (on_import_side _ _ _ _ _ _ _ _ Hi Hib Hc) as ->.
    assert (forall gs : list group, Forall (fun g => group_name g ≠ "prepare") gs -> groups_named "prepare" gs = []) as Hnone.
    { intros gs. induction 1 as [|g gs Hg _ IH]; [done|]. unfold groups_named in *. by rewrite filter_cons_False. }
    apply Forall_app in Hp as [Hp1 Hp2].
    rewrite (resolve_async_found _ _ Hsync Hasync _ _ _ _ _ _ _ Hc Hgss (Hnone _ Hp2) (Hnone _ Hp1)).
    symmetry. eapply resolve_member_found; [done..|]. by eapply mapM_is_Some_1.
Qed.
End Header.

(** ** The table of imports *)

Module AsyncSample.
Import ImportGenerate.Sample.
Lemma async_once : no_redefinition (library (async_declarations (blocks imported))).
Proof. refine (bool_decide_unpack (no_redefinition _) _). vm_compute. exact I. Qed.
Lemma async_generates : generates_async reference (write imported) (write exported) (async_declarations (blocks imported)).
Proof. exact (async_generate_declares reference import_types _ _ _ _ (proj1 sides) (proj2 sides) (proj1 elaborated) (proj2 elaborated)). Qed.
Lemma none_prepare : Forall (fun g => group_name g ≠ "prepare") (mjoin area ++ methods_of circle_items).
Proof. refine (bool_decide_unpack (Forall _ _) _). vm_compute. exact I. Qed.
Lemma area_not_reserved : "area" ∉ reserved.
Proof. refine (bool_decide_unpack _ _). vm_compute. exact I. Qed.

(** A method called [prepare] is called synchronously only, and so is every other method of
    its class. *)
Definition preparing : list (block declared_signature) :=
  blocks [shape; ClassBlock 15 None "circle" [Implements 16 "shape"; Members (mk_group 18 "prepare" [signature 19 [number]] 20)] 21].
Example prepare_is_hidden :
  resolve_member (library (import_declarations preparing [])) "circle" "area" =
    Some [mk_contract (Some (cxx_plain 1%nat)) [] false; mk_contract (Some (cxx_plain 1%nat)) [cxx_plain 1%nat] false; unmatched] /\
  resolve_async (library (async_declarations preparing)) (library (import_declarations preparing [])) "circle" "area" = None.
Proof. by vm_compute. Qed.
(** An interface and a class of one name are two definitions of one asynchronous template. *)
Definition shared_name : list (block declared_signature) := blocks [shape; ClassBlock 15 None "shape" [] 21].
Example interface_and_class_of_one_name :
  bool_decide (no_redefinition (library (import_declarations shared_name []))) = true /\
  bool_decide (no_redefinition (library (async_declarations shared_name))) = false.
Proof. by vm_compute. Qed.
End AsyncSample.

Import ImportGenerate.Sample AsyncSample.
Lemma async_delegates_agree_witness :
  resolve_async (library (async_declarations (blocks imported))) (library (import_declarations (blocks imported) (blocks exported))) "circle" "area" =
  resolve_member (library (import_declarations (blocks imported) (blocks exported))) "circle" "area".
Proof.
  exact (proj2 (async_delegates_agree reference import_types imported exported _ _ _ _
    (proj1 sides) (proj2 sides) (proj1 elaborated) (proj2 elaborated) sample_generates declared_once async_generates async_once)
    15%nat None "circle" circle_items 21%nat area "area" circle_in circle_interfaces none_prepare area_not_reserved).
Defined.
