(* ===== verification/ExportGenerate.v ===== *)
(** * export_generate.h: the declarations of exports

    The header as it is, one definition per replay of the table; what it declares for a
    well-nested table; what the registrar of a class registers; and that a delegate made from
    the same table calls just that. *)

From Stdlib Require Import ZArith Lia Sorted.
From stdpp Require Import base list strings.
From S2P Require Import Prelude Bytes ExportDispatch Import Interface Generate Declarations ImportGenerate.

(** ** The header *)

Section Header.
Context {T : Type}.
Abbreviation source_line := (source_line T).
Abbreviation declaration := (declaration T).
Abbreviation block := (block (declared_signature (T := T))).
Abbreviation group := (group (declared_signature (T := T))).

(** [OBJECT] and [CALLABLE] in the table of exports. *)
Definition export_types : type_macros (T := T) :=
  mk_type_macros (Some (fun c => cxx_object_param "export_classes" c export_t))
    (Some (fun n => cxx_callable_param "import_symbols" n import_t)).

Definition replay_exports (lines : list source_line) : list source_line :=
  lines ++ [IncludeExportDef] ++ undef_declarations.
Definition define_interfaces (begin_ end_ : option replacement) : list source_line :=
  undef_interfaces ++
  [Define BEGIN_INTERFACE (mk_macro (with_parameters 1) begin_); Define END_INTERFACE (mk_macro object_like end_)].
Definition reset_interfaces : list source_line := rev undef_interfaces ++ no_interfaces.
Definition class_macro (f : string -> string -> nat -> list (fragment T)) : source_line :=
  define (with_parameters 2) BEGIN_CLASS (with_class f).

Definition export_forward (name : string) : list source_line :=
  [open_namespace name] ++
  define_interfaces (Some (with_name (fun name _ => [Emit (forward name)]))) None ++
  replay_exports (no_groups ++ nothing_in_classes 2) ++ reset_interfaces ++ [close_namespace].

(** The names of the methods of an interface. *)
Definition begin_method_name (name : string) (line : nat) : list (fragment T) :=
  [Emit (forward name); Emit (method_name_at name line); struct name []; Emit (symbol_name name)].
Definition method_names : list source_line :=
  [open_namespace "interface_descriptors"] ++
  define_interfaces
    (Some (with_name (fun name line => [special name "export_t" []; Emit (using_alias "method_symbols_t" name); Emit (begin_index line)])))
    (Some (with_line (fun line => [Emit (end_index line); Close]))) ++
  replay_exports (no_groups ++
    [class_macro (fun _ clazz _ => [struct ("ignored_export_class_" +:+ clazz) []]);
     empty_implements; empty_constructor;
     define (with_parameters 1) BEGIN_MEMBER_CALLABLE_GROUP (with_name begin_method_name);
     define_empty variadic DECL_MEMBER_FUNCTION; define object_like END_MEMBER_CALLABLE_GROUP (fixed [Close]);
     define object_like END_CLASS (fixed [Close])]) ++
  [Undef IMPLEMENTS] ++ reset_interfaces ++ [empty_implements; close_namespace].

(** The native classes, and the symbols of the classes. *)
Definition forward_natives : list source_line :=
  replay_exports (no_groups ++
    [class_macro (fun ns clazz _ => [Open (namespace ns); Emit (forward clazz); Close]); empty_constructor]
    ++ no_members ++ [empty_end_class]).
Definition forward_export_classes : list source_line :=
  undef_interfaces ++ no_interfaces ++ [open_namespace "export_classes"] ++
  replay_exports (no_groups ++ [class_macro (fun _ clazz _ => [Emit (forward clazz)]); empty_constructor] ++ no_members ++ [empty_end_class]) ++
  [close_namespace].

Definition export_interface_lists : list source_line :=
  [Undef IMPLEMENTS] ++
  replay_exports (no_groups ++
    [class_macro (fun _ clazz _ => [special "class_interfaces" ("export_classes::" +:+ clazz) []; Open (type_list "type")]);
     define (with_parameters 1) IMPLEMENTS (with_name (fun name _ => [Emit (listed (descriptor name export_t))])); empty_constructor]
    ++ no_members ++ [define object_like END_CLASS (fixed [Emit (listed void_element); Close; Close])]) ++
  [Undef IMPLEMENTS; empty_implements].

(** The methods of a class. *)
Definition class_method_lists : list source_line :=
  define_interfaces (Some (with_name (fun name _ => [struct ("ignored_interface_" +:+ name) []]))) (Some (fixed [Close])) ++
  replay_exports (no_groups ++
    [class_macro (fun _ clazz line =>
       [special "class_method_names" ("export_classes::" +:+ clazz) []; struct "metadata" []; Emit (begin_index line)]);
     empty_constructor;
     define (with_parameters 1) BEGIN_MEMBER_CALLABLE_GROUP (with_name (fun name line => begin_method_name name line ++ [Close]));
     define_empty variadic DECL_MEMBER_FUNCTION; define_empty object_like END_MEMBER_CALLABLE_GROUP;
     define object_like END_CLASS (with_line (fun line =>
       [Emit (end_index line); Close; Emit (using_alias "type" "method_names_in_range_t<metadata>"); Close]))]) ++
  reset_interfaces.

(** The callable groups; every signature of a method is looked at as well. *)
Definition group_lists : list source_line :=
  [DefineTypes export_types; open_namespace "export_groups"] ++
  replay_exports (
    [define (with_parameters 1) BEGIN_CALLABLE_GROUP (with_name (fun name _ =>
       [struct name []; Emit (symbol_name name); Open (type_list "overloads_t")]));
     define variadic DECL_CALLABLE (with_signature result_and_parameters contract_element);
     define (with_parameters 1) DECL_FUNCTION (with_signature a_function_type contract_element);
     define object_like END_CALLABLE_GROUP (fixed (sentinel_element ++
       [Emit (using_alias "group_t" "callable_group"); Open (function "bind"); Emit (returns "export_free_callable_impl"); Close; Close]));
     define_empty (with_parameters 2) BEGIN_CLASS; empty_constructor;
     define_empty (with_parameters 1) BEGIN_MEMBER_CALLABLE_GROUP;
     define variadic DECL_MEMBER_FUNCTION (with_signature a_function_type (fun c => [Emit (static_assert_not_reference (result_type c))]));
     define_empty object_like END_MEMBER_CALLABLE_GROUP; empty_end_class]) ++
  [close_namespace].

(** [bind_<name>] and the three overloads of [export_<name>], told apart by their parameters. *)
Definition group_function (f : string -> string) (callee : string -> string) : list source_line :=
  replay_exports ([define (with_parameters 1) BEGIN_CALLABLE_GROUP (with_name (fun name _ =>
       [Open (function (f name)); Emit (returns (callee name)); Close]));
     define_empty variadic DECL_CALLABLE; define_empty (with_parameters 1) DECL_FUNCTION; define_empty object_like END_CALLABLE_GROUP]
    ++ nothing_in_classes 2).
Definition bind_name (name : string) : string := "bind_" +:+ name.
Definition export_builder_name (name : string) : string := "export_" +:+ name +:+ "(Context&, Module&)".
Definition export_signature_name (name : string) : string := "export_" +:+ name +:+ "<Signature>(Context&, Module&, Callable&&)".
Definition export_function_name (name : string) : string := "export_" +:+ name +:+ "(Context&, Module&, R (*)(Args...))".
Definition builder_of (name : string) : string := "export_callable_builder<export_groups::" +:+ name +:+ ">".
Definition group_builder_of (name : string) : string := "export_free_callable_group_builder<export_groups::" +:+ name +:+ ">".
Definition bind_of (name : string) : string := "export_groups::" +:+ name +:+ "::bind".
Definition bind_functions : list source_line := group_function bind_name builder_of.
Definition export_builders : list source_line := group_function export_builder_name group_builder_of.
Definition export_signatures : list source_line := group_function export_signature_name bind_of.
Definition export_functions : list source_line := group_function export_function_name bind_of.

(** The mixins of interfaces, and the proxies: two functions for every method, and the class
    that calls it. *)
Definition const_name (name : string) : string := name +:+ " const".
Definition member_name (name : string) : string := name +:+ "_member".
Definition forwarding_member (name : string) (_ : nat) : list (fragment T) :=
  [Open (function name); Emit (returns ("native()." +:+ name)); Close;
   Open (function (const_name name)); Emit (returns ("native()." +:+ name)); Close;
   struct (member_name name) []; Open (function "call"); Emit (returns ("receiver." +:+ name)); Close; Close].
Definition mixins : list source_line :=
  [open_namespace "interfaces"] ++
  define_interfaces
    (Some (with_name (fun name _ => special name "Host, export_t" [] :: accessors ["receiver"]))) (Some (fixed [Close])) ++
  replay_exports (no_groups ++
    [class_macro (fun _ clazz _ => struct ("ignored_export_class_" +:+ clazz) [] :: accessors ["receiver"]); empty_constructor;
     define (with_parameters 1) BEGIN_MEMBER_CALLABLE_GROUP (with_name forwarding_member);
     define_empty variadic DECL_MEMBER_FUNCTION; define_empty object_like END_MEMBER_CALLABLE_GROUP;
     define object_like END_CLASS (fixed [Close])]) ++
  reset_interfaces ++ [close_namespace].

Definition proxy_name (clazz : string) : string := clazz +:+ "_proxy".
Definition register_class (clazz : string) : list (fragment T) :=
  [Open (function "register_all"); Emit (calls "define_class"); Emit (calls ("export_class_registrar<exports::" +:+ proxy_name clazz +:+ "<Native>>"));
   Emit (calls "store_export_class"); Close].
Definition proxies : list source_line :=
  [open_namespace "exports"] ++
  define_interfaces
    (Some (with_name (fun name _ => struct ("ignored_interface_" +:+ name) [] :: accessors ["native"]))) (Some (fixed [Close])) ++
  replay_exports (no_groups ++
    [class_macro (fun ns clazz _ =>
       [Emit (forward (proxy_name clazz)); Emit (using_alias clazz (proxy_name clazz +:+ "<" +:+ ns +:+ "::" +:+ clazz +:+ ">"));
        struct (proxy_name clazz) [interface_pack ("export_classes::" +:+ clazz) ("export_classes::" +:+ clazz)]; Emit (symbol_name clazz)]
       ++ register_class clazz ++ accessors ["native"; "native const"]);
     empty_constructor;
     define (with_parameters 1) BEGIN_MEMBER_CALLABLE_GROUP (with_name forwarding_member);
     define_empty variadic DECL_MEMBER_FUNCTION; define_empty object_like END_MEMBER_CALLABLE_GROUP;
     define object_like END_CLASS (fixed [Close])]) ++
  reset_interfaces ++ [close_namespace].

Definition constructor_groups : list source_line :=
  replay_exports (no_groups ++
    [class_macro (fun _ clazz _ =>
       [special "export_constructor_group_for" ("exports::" +:+ proxy_name clazz +:+ "<Native>") []; Open (callable_group "type")]);
     define variadic DECL_CONSTRUCTOR (with_signature parameters_only contract_element)] ++ no_members ++
    [define object_like END_CLASS (fixed end_member_symbol)]).

(** The statements of the registrars. *)
Definition begin_member_registration (owner name : string) (_ : nat) : list (fragment T) :=
  [Open compound; Emit (callable_name name); Emit (member_tag (owner +:+ "::" +:+ member_name name))].
Definition register_member (c : contract (cxx_type T)) : list (fragment T) := [Emit (member_statement c)].
Definition interface_registrations : list source_line :=
  define_interfaces
    (Some (with_name (fun name _ =>
       [special "export_interface_registration" ("interface_descriptors::" +:+ name +:+ "<export_t>, Host") []; Open (function "register_all")])))
    (Some (fixed [Close; Close])) ++
  replay_exports (no_groups ++
    [class_macro (fun _ clazz _ => [struct ("ignored_interface_registration_" +:+ clazz) []; Open (function "register_all")]);
     empty_constructor;
     define (with_parameters 1) BEGIN_MEMBER_CALLABLE_GROUP (with_name (begin_member_registration "Host"));
     define variadic DECL_MEMBER_FUNCTION (with_signature result_and_parameters register_member);
     define object_like END_MEMBER_CALLABLE_GROUP (fixed [Close]); define object_like END_CLASS (fixed [Close; Close])]).
Definition class_registrars : list source_line :=
  define_interfaces
    (Some (with_name (fun name _ => [struct ("ignored_export_class_registrar_interface_" +:+ name) []; Open (function "register_all")])))
    (Some (fixed [Close; Close])) ++
  replay_exports (no_groups ++
    [class_macro (fun _ clazz _ =>
       [special "export_class_registrar" ("exports::" +:+ proxy_name clazz +:+ "<Native>") [];
        Emit (using_alias "class_t" ("exports::" +:+ proxy_name clazz)); Open (function "register_all");
        Emit (register_interfaces ("export_classes::" +:+ clazz))]);
     define variadic DECL_CONSTRUCTOR (with_signature parameters_only (fun c => [Emit (constructor_statement (parameters c))]));
     define (with_parameters 1) BEGIN_MEMBER_CALLABLE_GROUP (with_name (begin_member_registration "class_t"));
     define variadic DECL_MEMBER_FUNCTION (with_signature result_and_parameters register_member);
     define object_like END_MEMBER_CALLABLE_GROUP (fixed [Close]); define object_like END_CLASS (fixed [Close; Close])]).

Definition class_symbols : list source_line :=
  undef_interfaces ++ no_interfaces ++ [open_namespace "export_classes"] ++
  replay_exports (no_groups ++
    [class_macro (fun ns clazz _ =>
       [struct clazz []; Emit (using_alias "native_t" (ns +:+ "::" +:+ clazz)); Emit (using_alias "proxy_t" ("exports::" +:+ clazz));
        Emit (symbol_name clazz); Close]); empty_constructor] ++ no_members ++ [empty_end_class]) ++
  [close_namespace].

Definition export_generate : list source_line :=
  [open_namespace "dynabridge"] ++ no_interfaces ++ [empty_implements] ++ export_forward "interfaces" ++ export_forward "interface_descriptors"
  ++ method_names ++ forward_natives ++ forward_export_classes ++ export_interface_lists ++ class_method_lists ++ group_lists
  ++ bind_functions ++ export_builders ++ export_signatures ++ export_functions ++ mixins ++ proxies ++ constructor_groups
  ++ interface_registrations ++ class_registrars ++ class_symbols ++ rev undef_interfaces ++ [Undef IMPLEMENTS; UndefTypes; close_namespace].

Definition export_segments : list (segment T) := Eval vm_compute in
  match segments export_generate no_macros with Some (ss, _) => ss | None => [] end.
Lemma export_generate_segments : segments export_generate no_macros = Some (export_segments, no_macros).
Proof. vm_compute. reflexivity. Qed.

(** ** The declarations of a well-nested table *)

Definition method_name (g : group) : list declaration :=
  [Item (forward (group_name g)); Item (method_name_at (group_name g) (group_line g));
   class_block (plain (group_name g)) [] [Item (symbol_name (group_name g))]].
Definition interface_method_metadata (b : block) : list declaration :=
  match b with
  | GroupBlock _ => []
  | InterfaceBlock line name methods last =>
      [class_block (specialization name "export_t") []
         (Item (using_alias "method_symbols_t" name) :: Item (begin_index line) :: flat_map method_name methods ++ [Item (end_index last)])]
  | ClassBlock _ _ clazz items _ =>
      [class_block (plain ("ignored_export_class_" +:+ clazz)) [] (flat_map method_name (methods_of items))]
  end.
Definition native_forward (b : block) : list declaration :=
  match b with ClassBlock _ (Some ns) clazz _ _ => [Block (namespace ns) [Item (forward clazz)]] | _ => [] end.
Definition export_interface_list (b : block) : list declaration :=
  match b with
  | ClassBlock _ _ clazz items _ =>
      [class_block (specialization "class_interfaces" ("export_classes::" +:+ clazz)) []
         [Block (type_list "type") (map (fun n => Item (listed (descriptor n export_t))) (implemented items) ++ [Item (listed void_element)])]]
  | _ => []
  end.
Definition class_method_metadata (b : block) : list declaration :=
  match b with
  | GroupBlock _ => []
  | InterfaceBlock _ name methods _ => [class_block (plain ("ignored_interface_" +:+ name)) [] (flat_map method_name methods)]
  | ClassBlock line _ clazz items last =>
      [class_block (specialization "class_method_names" ("export_classes::" +:+ clazz)) []
         [class_block (plain "metadata") [] (Item (begin_index line) :: flat_map method_name (methods_of items) ++ [Item (end_index last)]);
          Item (using_alias "type" "method_names_in_range_t<metadata>")]]
  end.
Definition checked_results (g : group) : list declaration :=
  map (fun c => Item (static_assert_not_reference (result_type c))) (contracts_of g).
Definition group_declarations (b : block) : list declaration :=
  match b with
  | GroupBlock g =>
      [class_block (plain (group_name g)) []
         [Item (symbol_name (group_name g)); overload_list (contracts_of g); Item (using_alias "group_t" "callable_group");
          Block (function "bind") [Item (returns "export_free_callable_impl")]]]
  | InterfaceBlock _ _ methods _ => flat_map checked_results methods
  | ClassBlock _ _ _ items _ => flat_map checked_results (methods_of items)
  end.
Definition declare_function (f callee : string -> string) (name : string) : list declaration :=
  [Block (function (f name)) [Item (returns (callee name))]].
Definition forwarding (g : group) : list declaration :=
  [Block (function (group_name g)) [Item (returns ("native()." +:+ group_name g))];
   Block (function (const_name (group_name g))) [Item (returns ("native()." +:+ group_name g))];
   class_block (plain (member_name (group_name g))) [] [Block (function "call") [Item (returns ("receiver." +:+ group_name g))]]].
Definition mixin_declarations (b : block) : list declaration :=
  match b with
  | GroupBlock _ => []
  | InterfaceBlock _ name methods _ =>
      [class_block (specialization name "Host, export_t") [] (accessor "receiver" :: flat_map forwarding methods)]
  | ClassBlock _ _ clazz items _ =>
      [class_block (plain ("ignored_export_class_" +:+ clazz)) [] (accessor "receiver" :: flat_map forwarding (methods_of items))]
  end.
Definition proxy (b : block) : list declaration :=
  match b with
  | ClassBlock _ (Some ns) clazz items _ =>
      [Item (forward (proxy_name clazz)); Item (using_alias clazz (proxy_name clazz +:+ "<" +:+ ns +:+ "::" +:+ clazz +:+ ">"));
       class_block (plain (proxy_name clazz)) [interface_pack ("export_classes::" +:+ clazz) ("export_classes::" +:+ clazz)]
         (Item (symbol_name clazz)
          :: Block (function "register_all") [Item (calls "define_class"); Item (calls ("export_class_registrar<exports::" +:+ proxy_name clazz +:+ "<Native>>"));
               Item (calls "store_export_class")]
          :: accessor "native" :: accessor "native const" :: flat_map forwarding (methods_of items))]
  | InterfaceBlock _ name methods _ =>
      [class_block (plain ("ignored_interface_" +:+ name)) [] (accessor "native" :: flat_map forwarding methods)]
  | _ => []
  end.
Definition constructor_group (b : block) : list declaration :=
  match b with
  | ClassBlock _ _ clazz items _ =>
      [class_block (specialization "export_constructor_group_for" ("exports::" +:+ proxy_name clazz +:+ "<Native>")) []
         [Block (callable_group "type") (map (fun c => Item (listed (free_callable c))) (constructors items ++ [unmatched]))]]
  | _ => []
  end.
Definition member_registration (owner : string) (g : group) : declaration :=
  Block compound (Item (callable_name (group_name g)) :: Item (member_tag (owner +:+ "::" +:+ member_name (group_name g)))
    :: map (fun c => Item (member_statement c)) (contracts_of g)).
Definition item_registration (i : class_item (declared_signature (T := T))) : list declaration :=
  match i with
  | Implements _ _ => []
  | Constructor d => [Item (constructor_statement (parameters (declared_contract d)))]
  | Members g => [member_registration "class_t" g]
  end.
Definition interface_registration (b : block) : list declaration :=
  match b with
  | GroupBlock _ => []
  | InterfaceBlock _ name methods _ =>
      [class_block (specialization "export_interface_registration" ("interface_descriptors::" +:+ name +:+ "<export_t>, Host")) []
         [Block (function "register_all") (map (member_registration "Host") methods)]]
  | ClassBlock _ _ clazz items _ =>
      [class_block (plain ("ignored_interface_registration_" +:+ clazz)) []
         [Block (function "register_all") (map (member_registration "Host") (methods_of items))]]
  end.
Definition class_registrar (b : block) : list declaration :=
  match b with
  | GroupBlock _ => []
  | InterfaceBlock _ name methods _ =>
      [class_block (plain ("ignored_export_class_registrar_interface_" +:+ name)) []
         [Block (function "register_all") (map (member_registration "class_t") methods)]]
  | ClassBlock _ _ clazz items _ =>
      [class_block (specialization "export_class_registrar" ("exports::" +:+ proxy_name clazz +:+ "<Native>")) []
         [Item (using_alias "class_t" ("exports::" +:+ proxy_name clazz));
          Block (function "register_all")
            (Item (register_interfaces ("export_classes::" +:+ clazz)) :: flat_map item_registration items)]]
  end.
Definition class_symbol (b : block) : list declaration :=
  match b with
  | ClassBlock _ (Some ns) clazz _ _ =>
      [class_block (plain clazz) []
         [Item (using_alias "native_t" (ns +:+ "::" +:+ clazz)); Item (using_alias "proxy_t" ("exports::" +:+ clazz)); Item (symbol_name clazz)]]
  | _ => []
  end.

(** The plan of the header, and all that it declares. *)
Definition export_plan : list planned :=
  let open n := PlanText [Open (namespace n)] in
  let close := PlanText [Close] in
  [open "dynabridge";
   open "interfaces"; PlanTable false (on_interface declare_forward); close;
   open "interface_descriptors"; PlanTable false (on_interface declare_forward); close;
   open "interface_descriptors"; PlanTable false interface_method_metadata; close;
   PlanTable false native_forward;
   open "export_classes"; PlanTable false (on_class declare_forward); close;
   PlanTable false export_interface_list;
   PlanTable false class_method_metadata;
   open "export_groups"; PlanTable false group_declarations; close;
   PlanTable false (on_group (declare_function bind_name builder_of));
   PlanTable false (on_group (declare_function export_builder_name group_builder_of));
   PlanTable false (on_group (declare_function export_signature_name bind_of));
   PlanTable false (on_group (declare_function export_function_name bind_of));
   open "interfaces"; PlanTable false mixin_declarations; close;
   open "exports"; PlanTable false proxy; close;
   PlanTable false constructor_group;
   PlanTable false interface_registration;
   PlanTable false class_registrar;
   open "export_classes"; PlanTable false class_symbol; close;
   close].
Definition export_declarations (xb : list block) : list declaration :=
  [Block (namespace "dynabridge")
    ([Block (namespace "interfaces") (flat_map (on_interface declare_forward) xb);
      Block (namespace "interface_descriptors") (flat_map (on_interface declare_forward) xb);
      Block (namespace "interface_descriptors") (flat_map interface_method_metadata xb)] ++
     flat_map native_forward xb ++
     [Block (namespace "export_classes") (flat_map (on_class declare_forward) xb)] ++
     flat_map export_interface_list xb ++ flat_map class_method_metadata xb ++
     [Block (namespace "export_groups") (flat_map group_declarations xb)] ++
     flat_map (on_group (declare_function bind_name builder_of)) xb ++
     flat_map (on_group (declare_function export_builder_name group_builder_of)) xb ++
     flat_map (on_group (declare_function export_signature_name bind_of)) xb ++
     flat_map (on_group (declare_function export_function_name bind_of)) xb ++
     [Block (namespace "interfaces") (flat_map mixin_declarations xb);
      Block (namespace "exports") (flat_map proxy xb)] ++
     flat_map constructor_group xb ++ flat_map interface_registration xb ++ flat_map class_registrar xb ++
     [Block (namespace "export_classes") (flat_map class_symbol xb)])].

Lemma export_plan_prints ib xb : mjoin (map (print_plan ib xb) export_plan) = print_all (export_declarations xb).
Proof.
  unfold export_plan, export_declarations, print_all. simpl.
  repeat first [rewrite flat_map_app | rewrite app_nil_r | rewrite <- app_assoc | progress simpl]. reflexivity.
Qed.

(** ** The header declares them *)

Lemma emit_unkept_members e g (k : group -> list declaration) f :
  replaced e BEGIN_MEMBER_CALLABLE_GROUP = Some (with_name f) -> silent e DECL_MEMBER_FUNCTION = true ->
  f (group_name g) (group_line g) ++ emit_end e END_MEMBER_CALLABLE_GROUP (group_end g) = print_all (k g) ->
  emit_members e g = print_all (k g).
Proof. intros H1 H2 <-. unfold emit_members, emit_name. by rewrite H1, emit_signatures_silent. Qed.
Lemma emit_registered_members e owner g k :
  replaced e BEGIN_MEMBER_CALLABLE_GROUP = Some (with_name (begin_member_registration owner)) ->
  replaced e DECL_MEMBER_FUNCTION = Some (with_signature k register_member) ->
  replaced e END_MEMBER_CALLABLE_GROUP = Some (fixed [Close]) ->
  emit_members e g = print_all [member_registration owner g].
Proof.
  intros H1 H2 H3. unfold emit_members, emit_name, emit_end. rewrite H1, H3, (emit_signatures_kept _ _ _ _ _ H2).
  unfold print_all, member_registration. cbn [flat_map print]. simpl. unfold contracts_of. do 3 f_equal.
  rewrite app_nil_r. f_equal. induction (map declared_contract (overloads g)) as [|c cs IH]; [done|]. simpl. by rewrite IH.
Qed.
Lemma emit_checked_members e g k :
  silent e BEGIN_MEMBER_CALLABLE_GROUP && silent e END_MEMBER_CALLABLE_GROUP = true ->
  replaced e DECL_MEMBER_FUNCTION = Some (with_signature k (fun c => [Emit (static_assert_not_reference (result_type c))])) ->
  emit_members e g = print_all (checked_results g).
Proof.
  rewrite andb_true_iff. intros [H1 H3] H2. unfold emit_members. rewrite silent_name, silent_end by done.
  rewrite (emit_signatures_kept _ _ _ _ _ H2), app_nil_r. unfold checked_results, contracts_of.
  induction (map declared_contract (overloads g)) as [|c cs IH]; [done|]. simpl in *. by rewrite IH.
Qed.
(** The items of a class of which only the methods matter. *)
Lemma emit_item_methods e items (k : group -> list declaration) :
  silent e IMPLEMENTS && silent e DECL_CONSTRUCTOR = true -> (forall g, emit_members e g = print_all (k g)) ->
  flat_map (emit_item e) items = print_all (flat_map k (methods_of items)).
Proof.
  rewrite andb_true_iff. intros [H1 H2] Hk. induction items as [|[line name|d|g] items IH]; simpl; [done|..]; rewrite IH.
  - by rewrite silent_name.
  - by rewrite silent_signature.
  - by rewrite Hk, <- print_all_app.
Qed.
Lemma emit_item_registrations e items k1 k2 :
  silent e IMPLEMENTS = true ->
  replaced e DECL_CONSTRUCTOR = Some (with_signature k1 (fun c => [Emit (constructor_statement (parameters c))])) ->
  replaced e BEGIN_MEMBER_CALLABLE_GROUP = Some (with_name (begin_member_registration "class_t")) ->
  replaced e DECL_MEMBER_FUNCTION = Some (with_signature k2 register_member) ->
  replaced e END_MEMBER_CALLABLE_GROUP = Some (fixed [Close]) ->
  flat_map (emit_item e) items = print_all (flat_map item_registration items).
Proof.
  intros H1 H2 H3 H4 H5. apply print_flat_map. intros [line name|d|g]; simpl.
  - by apply silent_name.
  - unfold emit_signature. by rewrite H2.
  - by eapply emit_registered_members.
Qed.

Lemma print_contracts (cs : list (contract (cxx_type T))) :
  flat_map print (map (fun c => Item (listed (free_callable c))) (cs ++ [unmatched])) =
  flat_map contract_element cs ++ [Emit (listed (free_callable unmatched))].
Proof. induction cs as [|c cs IH]; [done|]. simpl. by rewrite IH. Qed.
Ltac methods k := rewrite (print_flat_map _ k) by (intros; first [eapply emit_unkept_members; reflexivity | eapply emit_registered_members; reflexivity | eapply emit_checked_members; reflexivity]).
Ltac items k := rewrite (emit_item_methods _ _ k) by first [reflexivity
  | intros; first [eapply emit_unkept_members; reflexivity | eapply emit_registered_members; reflexivity | eapply emit_checked_members; reflexivity]].

Lemma export_plan_followed : Forall2 follows export_segments export_plan.
Proof.
  unfold export_segments, export_plan.
  repeat (apply Forall2_cons; split; [first [reflexivity | split; [reflexivity|by_block; quiet]|idtac]|]); [..|apply Forall2_nil].
  - methods method_name. nested.
  - items method_name. nested.
  - erewrite emit_item_interfaces by reflexivity. nested.
  - methods method_name. nested.
  - items method_name. nested.
  - erewrite emit_overloads_kept by reflexivity. unfold print_all, group_declarations, class_block. cbn [flat_map print]. rewrite print_overload_list. nested.
  - methods checked_results. unfold emit_name, emit_end. simpl. nested.
  - items checked_results. nested.
  - methods forwarding. nested.
  - items forwarding. nested.
  - methods forwarding. nested.
  - items forwarding. nested.
  - erewrite emit_item_constructors by reflexivity. unfold print_all, constructor_group, class_block. cbn [flat_map print]. rewrite print_contracts. nested.
  - methods (fun g => [member_registration "Host" g]). rewrite <- map_flat. nested.
  - items (fun g => [member_registration "Host" g]). rewrite <- map_flat. nested.
  - methods (fun g => [member_registration "class_t" g]). rewrite <- map_flat. nested.
  - erewrite emit_item_registrations by reflexivity. nested.
  - done.
Qed.
Context (is_reference : T -> bool).
Lemma export_segments_ok ims : Forall (segment_ok ims export_types) export_segments.
Proof. unfold export_segments. repeat constructor; try (intros []; by vm_compute). Qed.

Definition generates_exports (import_def export_def : table T) (ds : list declaration) : Prop :=
  exists fs, preprocess is_reference import_def export_def export_generate no_macros = Some (fs, no_macros) /\ parse fs = Some ds.
(** Whatever a table of imports is, the header declares these for a well-nested table of
    exports. *)
Lemma export_generate_declares ims i x ib xb :
  Forall (on_side false) i -> Forall (on_side true) x -> elaborate is_reference ims i = Some ib -> elaborate is_reference export_types x = Some xb ->
  generates_exports (write i) (write x) (export_declarations xb).
Proof.
  intros Hi Hx Hib Hxb. exists (print_all (export_declarations xb)). split; [|apply parse_print_all].
  rewrite preprocess_segments, export_generate_segments. cbn [mbind option_bind fst snd].
  rewrite (expand_segments is_reference ib xb _ _ _ _ _ Hi Hx Hib Hxb (export_segments_ok ims)). cbn [mbind option_bind].
  rewrite (print_planned ib xb _ _ export_plan_followed), export_plan_prints; [done|by eapply elaborate_on_side..].
Qed.

(** ** What a registrar registers *)

Context `{EqDecision T}.
#[global] Instance cxx_type_eq_dec : EqDecision (cxx_type T).
Proof. solve_decision. Defined.
#[global] Instance signature_eq_dec : EqDecision (contract (cxx_type T)).
Proof. solve_decision. Defined.

Inductive registration :=
| registered_constructor (parameters : list (cxx_type T))
| registered_member (name tag : string) (signature : contract (cxx_type T)).

(** [constructor<Args...>()] needs the signature in the constructor group of the class, whose
    bases differ. *)
Definition is_declared_constructor (group : list (contract (cxx_type T))) (ps : list (cxx_type T)) : bool :=
  bool_decide (NoDup group) && bool_decide (mk_contract None ps false ∈ group).
Definition run_member (name tag : string) (d : declaration) : option registration :=
  match d with Item (member_statement c) => Some (registered_member name tag c) | _ => None end.
Definition run_statement (group : list (contract (cxx_type T))) (d : declaration) : option (list registration) :=
  match d with
  | Item (constructor_statement ps) => if is_declared_constructor group ps then Some [registered_constructor ps] else None
  | Block compound (Item (callable_name name) :: Item (member_tag tag) :: body) => mapM (run_member name tag) body
  | _ => None
  end.
Definition run_statements (group : list (contract (cxx_type T))) (body : list declaration) : option (list registration) :=
  mjoin <$> mapM (run_statement group) body.

(** [export_interface_registrar]: the registrations of the interfaces in a list, [void] left
    out. *)
Definition register_interface (ds : list declaration) (i : string * direction) : option (list registration) :=
  match i with
  | (n, export_t) =>
      d ← definition_of ds ("export_interface_registration<interface_descriptors::" +:+ n +:+ "<export_t>, Host>");
      body ← function_named "register_all" d.2; run_statements [] body
  | (_, import_t) => None
  end.
Fixpoint export_interface_registrar (ds : list declaration) (interfaces : list (option (string * direction))) : option (list registration) :=
  match interfaces with
  | [] => Some []
  | None :: tail => export_interface_registrar ds tail
  | Some i :: tail => rs ← register_interface ds i; rest ← export_interface_registrar ds tail; Some (rs ++ rest)
  end.

(** [export_class_registrar<exports::clazz>::register_all]. *)
Definition class_registrations (ds : list declaration) (clazz : string) : option (list registration) :=
  d ← definition_of ds ("export_class_registrar<exports::" +:+ proxy_name clazz +:+ "<Native>>");
  group ← definition_of ds ("export_constructor_group_for<exports::" +:+ proxy_name clazz +:+ "<Native>>");
  constructors ← contracts <$> list_named "type" group.2;
  body ← function_named "register_all" d.2;
  match body with
  | Item (register_interfaces interfaces_of) :: rest =>
      interfaces ← interface_list ds interfaces_of;
      inherited ← export_interface_registrar ds interfaces;
      own ← run_statements constructors rest;
      Some (inherited ++ own)
  | _ => None
  end.

(** What the table says. *)
Definition group_registrations (owner : string) (g : group) : list registration :=
  map (registered_member (group_name g) (owner +:+ "::" +:+ member_name (group_name g))) (contracts_of g).
Definition item_registered (i : class_item (declared_signature (T := T))) : list registration :=
  match i with
  | Implements _ _ => []
  | Constructor d => [registered_constructor (parameters (declared_contract d))]
  | Members g => group_registrations "class_t" g
  end.

Lemma run_group_registration group owner g :
  run_statement group (member_registration owner g) = Some (group_registrations owner g).
Proof.
  unfold group_registrations, member_registration. simpl. apply mapM_Some.
  induction (contracts_of g) as [|c cs IH]; constructor; done.
Qed.
Lemma run_all_groups group owner gs :
  run_statements group (map (member_registration owner) gs) = Some (flat_map (group_registrations owner) gs).
Proof.
  unfold run_statements. induction gs as [|g gs IH]; [done|].
  apply fmap_Some in IH as (rs & Hrs & Heq). cbn [map mapM]. rewrite run_group_registration. simpl.
  rewrite Hrs. simpl. by rewrite Heq.
Qed.

Definition declared_as_constructors (items : list (class_item (declared_signature (T := T)))) : Prop :=
  Forall (fun c => c = mk_contract None (parameters c) false) (constructors items).
Lemma elaborated_constructors ms bs bs' line ns clazz items last :
  elaborate is_reference ms bs = Some bs' -> ClassBlock line ns clazz items last ∈ bs' -> declared_as_constructors items.
Proof.
  intros Hbs%mapM_Some Hc. apply list_elem_of_lookup in Hc as [i Hi].
  destruct (Forall2_lookup_r _ _ _ _ _ Hbs Hi) as (b & _ & Hb). destruct b as [g|l n ms' e|l n c is_ e]; simpl in Hb.
  - by apply fmap_Some in Hb as (g' & _ & [=]).
  - by apply bind_Some in Hb as (gs & _ & [=]).
  - apply bind_Some in Hb as (items' & His & [= -> -> -> -> ->]). apply mapM_Some in His. clear Hbs Hi.
    unfold declared_as_constructors. induction His as [|i1 i2 is_ items Hi _ IH]; [constructor|].
    destruct i1 as [l1 n1|w|g]; simpl in Hi.
    + by injection Hi as <-.
    + apply fmap_Some in Hi as (d & Hd & ->). simpl. constructor; [|exact IH].
      unfold elaborate_signature in Hd. apply fmap_Some in Hd as (c' & Hc' & ->). simpl.
      apply bind_Some in Hc' as (ps & _ & [= <-]). done.
    + by apply fmap_Some in Hi as (g' & _ & ->).
Qed.

Section Lookup.
Context (xb : list block).
Abbreviation scope := (library (export_declarations xb)).
Hypothesis Hscope : no_redefinition scope.

Lemma declared_in_exports (d : declaration) k : d ∈ k ->
  In k [flat_map export_interface_list xb; flat_map constructor_group xb; flat_map interface_registration xb; flat_map class_registrar xb] ->
  d ∈ scope.
Proof.
  intros Hd Hk. unfold export_declarations. simpl. repeat rewrite ?elem_of_app, ?elem_of_cons.
  simpl in Hk. repeat (destruct Hk as [<-|Hk]; [tauto|]). done.
Qed.
Lemma export_definition q e bases body k : q = entity_name e -> Block (class e bases) body ∈ k ->
  In k [flat_map export_interface_list xb; flat_map constructor_group xb; flat_map interface_registration xb; flat_map class_registrar xb] ->
  definition_of scope q = Some (bases, body).
Proof.
  intros -> Hd Hk. apply (definition_of_unique _ _ _ Hscope), entity_at_top. by eapply declared_in_exports.
Qed.

Lemma interface_registered n gs : interface_methods xb n = Some gs ->
  register_interface scope (n, export_t) = Some (flat_map (group_registrations "Host") gs).
Proof.
  intros (line & last & Hin)%interface_methods_in. unfold register_interface.
  rewrite (export_definition _ (specialization "export_interface_registration" ("interface_descriptors::" +:+ n +:+ "<export_t>, Host")) []
    [Block (function "register_all") (map (member_registration "Host") gs)] (flat_map interface_registration xb)).
  - transitivity (run_statements [] (map (member_registration "Host") gs)); [reflexivity|apply run_all_groups].
  - simpl. by rewrite <- !string_app_assoc.
  - apply elem_of_flat_map. eexists. split; [exact Hin|left].
  - simpl. tauto.
Qed.
Lemma interfaces_registered names gss : mapM (interface_methods xb) names = Some gss ->
  export_interface_registrar scope (map (fun n => Some (n, export_t)) names ++ [None]) =
  Some (flat_map (group_registrations "Host") (mjoin gss)).
Proof.
  intros Hgss%mapM_Some. induction Hgss as [|n gs names gss Hn _ IH]; [done|].
  cbn [map app export_interface_registrar]. rewrite (interface_registered _ _ Hn). cbn [mbind option_bind]. rewrite IH.
  cbn [mbind option_bind]. change (mjoin (gs :: gss)) with (gs ++ mjoin gss). by rewrite flat_map_app.
Qed.

Lemma run_items group items :
  declared_as_constructors items -> NoDup group -> Forall (fun c => c ∈ group) (constructors items) ->
  run_statements group (flat_map item_registration items) = Some (flat_map item_registered items).
Proof.
  intros Hc Hnd Hin. unfold run_statements. induction items as [|[line n|d|g] items IH]; [done|by apply IH|..].
  - apply Forall_cons in Hc as [Hd Hc], Hin as [Hdin Hin]. specialize (IH Hc Hin). apply fmap_Some in IH as (rs & Hrs & Heq).
    cbn [flat_map item_registration app mapM run_statement].
    replace (is_declared_constructor group (parameters (declared_contract d))) with true.
    + cbn [mbind option_bind]. rewrite Hrs. cbn. by rewrite Heq.
    + symmetry. unfold is_declared_constructor. rewrite andb_true_iff, !bool_decide_eq_true. by rewrite <- Hd.
  - specialize (IH Hc Hin). apply fmap_Some in IH as (rs & Hrs & Heq). cbn [flat_map item_registration app mapM].
    rewrite run_group_registration. cbn [mbind option_bind]. rewrite Hrs. cbn. by rewrite Heq.
Qed.

Lemma exported_interface_list line ns clazz items last : ClassBlock line ns clazz items last ∈ xb ->
  interface_list scope ("export_classes::" +:+ clazz) = Some (map (fun n => Some (n, export_t)) (implemented items) ++ [None]).
Proof.
  intros Hc. unfold interface_list.
  rewrite (export_definition _ (specialization "class_interfaces" ("export_classes::" +:+ clazz)) []
    [Block (type_list "type") (map (fun n => Item (listed (descriptor n export_t))) (implemented items) ++ [Item (listed void_element)])]
    (flat_map export_interface_list xb)); [|done|apply elem_of_flat_map; eexists; split; [exact Hc|left]|simpl; tauto].
  unfold list_named. simpl. f_equal.
  generalize (implemented items). intros l. induction l as [|n l IH]; [done|]. exact (f_equal (cons _) IH).
Qed.
Lemma class_registered line ns clazz items last gss :
  ClassBlock line ns clazz items last ∈ xb -> mapM (interface_methods xb) (implemented items) = Some gss ->
  declared_as_constructors items -> NoDup (constructors items) ->
  class_registrations scope clazz =
    Some (flat_map (group_registrations "Host") (mjoin gss) ++ flat_map item_registered items).
Proof.
  intros Hc Hgss Hdecl Hnd. unfold class_registrations.
  rewrite (export_definition ("export_class_registrar<exports::" +:+ proxy_name clazz +:+ "<Native>>") (specialization "export_class_registrar" ("exports::" +:+ proxy_name clazz +:+ "<Native>")) []
    [Item (using_alias "class_t" ("exports::" +:+ proxy_name clazz));
     Block (function "register_all") (Item (register_interfaces ("export_classes::" +:+ clazz)) :: flat_map item_registration items)]
    (flat_map class_registrar xb)); [|generalize (proxy_name clazz); intros p; simpl; first [reflexivity|by rewrite <- !string_app_assoc]|apply elem_of_flat_map; eexists; split; [exact Hc|left]|simpl; tauto].
  rewrite (export_definition ("export_constructor_group_for<exports::" +:+ proxy_name clazz +:+ "<Native>>") (specialization "export_constructor_group_for" ("exports::" +:+ proxy_name clazz +:+ "<Native>")) []
    [Block (callable_group "type") (map (fun c => Item (listed (free_callable c))) (constructors items ++ [unmatched]))]
    (flat_map constructor_group xb)); [|generalize (proxy_name clazz); intros p; simpl; first [reflexivity|by rewrite <- !string_app_assoc]|apply elem_of_flat_map; eexists; split; [exact Hc|left]|simpl; tauto].
  cbn [mbind option_bind snd].
  change (list_named "type" _) with (Some (listed_elements (map (fun c => Item (listed (free_callable c))) (constructors items ++ [unmatched])))).
  cbn [fmap option_fmap option_map mbind option_bind].
  rewrite contracts_overload_list.
  change (function_named "register_all" _) with (Some (Item (register_interfaces ("export_classes::" +:+ clazz)) :: flat_map item_registration items)).
  cbn [mbind option_bind]. rewrite (exported_interface_list _ _ _ _ _ Hc). cbn [mbind option_bind].
  rewrite (interfaces_registered _ _ Hgss). cbn [mbind option_bind]. rewrite run_items; [done|done|..].
  - apply NoDup_app. split; [done|]. split; [|apply NoDup_singleton]. intros c Hin ->%list_elem_of_singleton.
    unfold declared_as_constructors in Hdecl. rewrite Forall_forall in Hdecl. by specialize (Hdecl _ Hin).
  - rewrite Forall_forall. intros c Hin. apply elem_of_app. by left.
Qed.
End Lookup.

(** ** One table on both sides *)

(** The table of imports of one program is the table of exports of another when its classes
    are given a namespace. Its types are expanded differently there. *)
Definition map_group {A B} (h : A -> B) (g : Generate.group A) : Generate.group B :=
  mk_group (group_line g) (group_name g) (map h (overloads g)) (group_end g).
Definition map_item {A B} (h : A -> B) (i : class_item A) : class_item B :=
  match i with
  | Implements line name => Implements line name
  | Constructor d => Constructor (h d)
  | Members g => Members (map_group h g)
  end.
Definition map_block {A B} (ns_of : string -> string) (h : A -> B) (b : Generate.block A) : Generate.block B :=
  match b with
  | GroupBlock g => GroupBlock (map_group h g)
  | InterfaceBlock line name methods last => InterfaceBlock line name (map (map_group h) methods) last
  | ClassBlock line _ clazz items last => ClassBlock line (Some (ns_of clazz)) clazz (map (map_item h) items) last
  end.
Definition in_namespace (ns_of : string -> string) : Generate.block (written (T := T)) -> Generate.block written := map_block ns_of (fun w => w).

Definition mirror (t : cxx_type T) : cxx_type T :=
  match t with
  | cxx_plain t => cxx_plain t
  | cxx_object_param _ c _ => cxx_object_param "export_classes" c export_t
  | cxx_callable_param _ g _ => cxx_callable_param "import_symbols" g import_t
  end.
Definition mirror_contract (c : contract (cxx_type T)) : contract (cxx_type T) :=
  mk_contract (mirror <$> result_type c) (map mirror (parameters c)) (is_unmatched_free_callable c).
Definition mirror_signature (d : declared_signature) : declared_signature :=
  mk_declared (by_function d) (mirror_contract (declared_contract d)).

Lemma expand_mirror t : expand_type export_types t = option_map (option_map mirror) (expand_type import_types t).
Proof. by destruct t. Qed.
Lemma expand_parameters_mirror ts : expand_parameters export_types ts = map mirror <$> expand_parameters import_types ts.
Proof.
  unfold expand_parameters. induction ts as [|t ts IH]; [done|]. cbn [mapM]. rewrite expand_mirror.
  destruct (expand_type import_types t) as [r|]; [|done]. cbn [mbind option_bind fmap option_fmap option_map].
  destruct (mapM (expand_type export_types) ts) as [l1|], (mapM (expand_type import_types) ts) as [l2|]; simpl in *; try done.
  - destruct r as [r|]; simpl; [|done]. rewrite IH. by destruct (mapM (fun t => t) l2).
  - destruct r as [r|]; simpl; [|done]. by rewrite IH.
  - destruct r as [r|]; simpl; [|done]. by destruct (mapM (fun t => t) l2).
Qed.
Lemma read_mirror k ts :
  read_signature is_reference k export_types ts = mirror_contract <$> read_signature is_reference k import_types ts.
Proof.
  assert (forall ts, constructor_signature export_types ts = mirror_contract <$> constructor_signature import_types ts) as Hc.
  { intros ts'. unfold constructor_signature. rewrite expand_parameters_mirror. by destruct (expand_parameters import_types ts'). }
  destruct k; simpl; [..|apply Hc]; destruct ts as [|r ps]; simpl; try done; rewrite expand_mirror, expand_parameters_mirror;
    destruct (expand_type import_types r) as [r'|]; simpl; try done; destruct (expand_parameters import_types ps) as [ps'|]; simpl; try done.
  destruct r' as [[t|n c d|n g d]|]; simpl; try done. by destruct (is_reference t).
Qed.
Lemma elaborate_signature_mirror k w :
  elaborate_signature is_reference k export_types w = mirror_signature <$> elaborate_signature is_reference k import_types w.
Proof. unfold elaborate_signature. rewrite read_mirror. by destruct (read_signature is_reference k import_types (written_types w)). Qed.

Lemma mapM_mirror {A B} (p q : A -> option B) (h : B -> B) l ys :
  (forall a b, p a = Some b -> q a = Some (h b)) -> mapM p l = Some ys -> mapM q l = Some (map h ys).
Proof.
  intros Hpq. rewrite !mapM_Some. intros Hys. induction Hys as [|x y l ys Hy _ IH]; constructor; [by apply Hpq|done].
Qed.
Lemma elaborate_group_mirror p q (g : Generate.group written) g' :
  (forall w d, p w = Some d -> q w = Some (mirror_signature d)) ->
  elaborate_group p g = Some g' -> elaborate_group q (map_group (fun w => w) g) = Some (map_group mirror_signature g').
Proof.
  intros Hpq (os & Hos & [= <-])%bind_Some. unfold elaborate_group. simpl. rewrite map_id.
  by rewrite (mapM_mirror _ _ _ _ _ Hpq Hos).
Qed.
Lemma elaborate_mirrored k w d :
  elaborate_signature is_reference k import_types w = Some d -> elaborate_signature is_reference k export_types w = Some (mirror_signature d).
Proof. intros Hd. by rewrite elaborate_signature_mirror, Hd. Qed.
Lemma elaborate_mirror ns_of bs ib :
  elaborate is_reference import_types bs = Some ib ->
  elaborate is_reference export_types (map (in_namespace ns_of) bs) = Some (map (map_block ns_of mirror_signature) ib).
Proof.
  unfold elaborate. rewrite !mapM_Some. intros Hbs. induction Hbs as [|b b' bs ib Hb _ IH]; constructor; [clear IH|done].
  destruct b as [g|line name methods last|line ns clazz items last]; simpl in *.
  - apply fmap_Some in Hb as (g' & Hg & ->). erewrite elaborate_group_mirror; [done| |exact Hg].
    intros w d. apply elaborate_mirrored.
  - apply bind_Some in Hb as (gs & Hgs & [= <-]). revert Hgs. rewrite mapM_Some. intros Hgs.
    assert (mapM (elaborate_members is_reference export_types) (map (map_group (fun w => w)) methods) = Some (map (map_group mirror_signature) gs)) as ->; [|done].
    apply mapM_Some. induction Hgs as [|g g' methods gs Hg _ IH]; constructor; [|done]. by eapply elaborate_group_mirror; [apply elaborate_mirrored|].
  - apply bind_Some in Hb as (is' & His & [= <-]). revert His. rewrite mapM_Some. intros His.
    assert (mapM (elaborate_item is_reference export_types) (map (map_item (fun w => w)) items) = Some (map (map_item mirror_signature) is')) as ->; [|done].
    apply mapM_Some. induction His as [|i i' items is' Hi _ IH]; constructor; [clear IH|done]. destruct i as [l n|w|g]; simpl in *.
    + by injection Hi as <-.
    + apply fmap_Some in Hi as (d & Hd & ->). by rewrite (elaborate_mirrored _ _ _ Hd).
    + apply fmap_Some in Hi as (g' & Hg & ->). unfold elaborate_members. erewrite elaborate_group_mirror; [done|apply elaborate_mirrored|exact Hg].
Qed.

Definition registered_overloads (member : string) (rs : list registration) : list (contract (cxx_type T)) :=
  omap (fun r => match r with registered_member n _ c => if decide (n = member) then Some c else None | _ => None end) rs.
Definition registered_constructors (rs : list registration) : list (list (cxx_type T)) :=
  omap (fun r => match r with registered_constructor ps => Some ps | _ => None end) rs.

Lemma registered_overloads_group member owner g :
  registered_overloads member (group_registrations owner g) = if decide (group_name g = member) then contracts_of g else [].
Proof.
  unfold registered_overloads, group_registrations. induction (contracts_of g) as [|c cs IH]; simpl; [by case_decide|].
  case_decide; [exact (f_equal (cons c) IH)|exact IH].
Qed.
Lemma registered_overloads_groups member owner gs :
  registered_overloads member (flat_map (group_registrations owner) gs) = flat_map contracts_of (groups_named member gs).
Proof.
  unfold groups_named. induction gs as [|g gs IH]; [done|]. cbn [flat_map]. unfold registered_overloads in *.
  rewrite omap_app, IH. change (omap _ (group_registrations owner g)) with (registered_overloads member (group_registrations owner g)).
  rewrite registered_overloads_group. case_decide; [by rewrite filter_cons_True|by rewrite filter_cons_False].
Qed.
Lemma registered_overloads_items member items :
  registered_overloads member (flat_map item_registered items) = flat_map contracts_of (groups_named member (methods_of items)).
Proof.
  rewrite <- (registered_overloads_groups member "class_t"). unfold registered_overloads.
  induction items as [|[line n|d|g] items IH]; [done|exact IH..|]. cbn [flat_map]. rewrite omap_app, IH.
  change (methods_of (Members g :: items)) with (g :: methods_of items). cbn [flat_map]. by rewrite omap_app.
Qed.
Lemma no_constructors owner gs : registered_constructors (flat_map (group_registrations owner) gs) = [].
Proof.
  unfold registered_constructors. induction gs as [|g gs IH]; [done|]. cbn [flat_map]. rewrite omap_app, IH, app_nil_r.
  unfold group_registrations. by induction (contracts_of g).
Qed.
Lemma registered_constructors_items items :
  registered_constructors (flat_map item_registered items) = map parameters (constructors items).
Proof.
  unfold registered_constructors. induction items as [|[line n|d|g] items IH]; [done|exact IH|..].
  - exact (f_equal (cons _) IH).
  - cbn [flat_map]. rewrite omap_app, IH. change (omap _ (item_registered (Members g))) with (registered_constructors (group_registrations "class_t" g)).
    pose proof (no_constructors "class_t" [g]) as Hn. simpl in Hn. rewrite app_nil_r in Hn. by rewrite Hn.
Qed.

(** The parts of a block that is expanded for exports. *)
Lemma implemented_map {A B} (h : A -> B) : forall items, omap (fun i => match i with Implements _ name => Some name | _ => None end) (map (map_item h) items) =
  omap (fun i => match i with Implements _ name => Some name | _ => None end) items.
Proof. intros items. induction items as [|[l n|d|g] items IH]; [done|exact (f_equal (cons n) IH)|exact IH..]. Qed.
Lemma methods_map (items : list (class_item (declared_signature (T := T)))) :
  methods_of (map (map_item mirror_signature) items) = map (map_group mirror_signature) (methods_of items).
Proof. induction items as [|[l n|d|g] items IH]; [done|exact IH..|exact (f_equal (cons _) IH)]. Qed.
Lemma constructors_map (items : list (class_item (declared_signature (T := T)))) :
  constructors (map (map_item mirror_signature) items) = map mirror_contract (constructors items).
Proof. induction items as [|[l n|d|g] items IH]; [done|exact IH|exact (f_equal (cons _) IH)|exact IH]. Qed.
Lemma contracts_map (g : group) : contracts_of (map_group mirror_signature g) = map mirror_contract (contracts_of g).
Proof. unfold contracts_of. simpl. by rewrite !map_map. Qed.
Lemma groups_named_map member (gs : list group) :
  groups_named member (map (map_group mirror_signature) gs) = map (map_group mirror_signature) (groups_named member gs).
Proof.
  unfold groups_named. induction gs as [|g gs IH]; [done|]. cbn [map]. destruct (decide (group_name g = member)).
  - rewrite !filter_cons_True by done. cbn [map]. by rewrite IH.
  - rewrite !filter_cons_False by done. by rewrite IH.
Qed.
Lemma interface_methods_map ns_of (ib : list block) n gs : interface_methods ib n = Some gs ->
  interface_methods (map (map_block ns_of mirror_signature) ib) n = Some (map (map_group mirror_signature) gs).
Proof.
  unfold interface_methods. induction ib as [|[g|line m methods last|line ns clazz items last] ib IH]; try done.
  simpl. destruct (decide (m = n)); [|exact IH]. by intros [= <-].
Qed.

(** ** The properties *)

Lemma generates_export_declarations ims i x ib xb ds :
  Forall (on_side false) i -> Forall (on_side true) x ->
  elaborate is_reference ims i = Some ib -> elaborate is_reference export_types x = Some xb ->
  generates_exports (write i) (write x) ds -> ds = export_declarations xb.
Proof.
  intros Hi Hx Hib Hxb (fs & Hfs & Hds). destruct (export_generate_declares ims i x ib xb Hi Hx Hib Hxb) as (fs' & Hfs' & Hds').
  rewrite Hfs in Hfs'. injection Hfs' as ->. congruence.
Qed.
Lemma groups_named_app member (gs1 gs2 : list group) : groups_named member (gs1 ++ gs2) = groups_named member gs1 ++ groups_named member gs2.
Proof. apply filter_app. Qed.
Lemma class_member_unique (ib : list block) items gss member g :
  mapM (interface_methods ib) (implemented items) = Some gss -> groups_named member (mjoin gss ++ methods_of items) = [g] ->
  class_member ib items member = Some g.
Proof.
  intros Hgss. rewrite groups_named_app. unfold class_member. rewrite Hgss. cbn [mbind option_bind].
  destruct (groups_named member (mjoin gss)) as [|g1 l1]; simpl; [by intros ->|].
  intros [= -> Hl]. apply app_eq_nil in Hl as [-> ->]. done.
Qed.

(** C13: export_generate.h turns every well-nested table into declarations, and leaves no
    macro defined. The registrar of a class, whose constructors differ, registers every
    signature of every method of the interfaces it implements, interface by interface, and
    then its own constructors and signatures, all in the order of the table and each under
    the name of its group. *)
Theorem export_generate_registers ims i x ib xb :
  Forall (on_side false) i -> Forall (on_side true) x ->
  elaborate is_reference ims i = Some ib -> elaborate is_reference export_types x = Some xb ->
  exists ds, generates_exports (write i) (write x) ds /\
    (no_redefinition (library ds) ->
      forall line ns clazz items last gss, ClassBlock line ns clazz items last ∈ xb ->
        mapM (interface_methods xb) (implemented items) = Some gss -> NoDup (constructors items) ->
        class_registrations (library ds) clazz =
          Some (flat_map (group_registrations "Host") (mjoin gss) ++ flat_map item_registered items)).
Proof.
  intros Hi Hx Hib Hxb. exists (export_declarations xb). split; [by eapply export_generate_declares|].
  intros Hscope line ns clazz items last gss Hc Hgss Hnd. eapply class_registered; try done. by eapply elaborated_constructors.
Qed.

(** C4: when one table is the imports of one program and, its classes in namespaces, the
    exports of another, a delegate calls what the other registers. For every class, the
    constructors that its delegate selects from are the registered ones, and for every member
    name that only one group has, so are the signatures of a member call, position by
    position: each is the registered one up to the types that stand for objects and
    callables, which name the export where the import names itself and the other way around. *)
Theorem delegates_call_what_is_registered ns_of xms yms i x y ib xb yb di dx line ns clazz items last gss :
  Forall (on_side false) i -> Forall (on_side true) x -> Forall (on_side false) y ->
  elaborate is_reference import_types i = Some ib -> elaborate is_reference xms x = Some xb -> elaborate is_reference yms y = Some yb ->
  generates is_reference (write i) (write x) di -> no_redefinition (library di) ->
  generates_exports (write y) (write (map (in_namespace ns_of) i)) dx -> no_redefinition (library dx) ->
  ClassBlock line ns clazz items last ∈ ib -> mapM (interface_methods ib) (implemented items) = Some gss ->
  NoDup (map mirror_contract (constructors items)) ->
  exists registered, class_registrations (library dx) clazz = Some registered /\
    (exists cs, constructed_overloads (library di) clazz = Some (cs ++ [unmatched]) /\
       registered_constructors registered = map (map mirror ∘ parameters) cs) /\
    forall member g, member ∉ reserved -> groups_named member (mjoin gss ++ methods_of items) = [g] ->
      exists cs, resolve_member (library di) clazz member = Some (cs ++ [unmatched]) /\
        registered_overloads member registered = map mirror_contract cs.
Proof.
  intros Hi Hx Hy Hib Hxb Hyb Hdi Hsi Hdx Hsx Hc Hgss Hnd.
  pose proof (elaborate_mirror ns_of _ _ Hib) as Hxb'.
  assert (Forall (on_side true) (map (in_namespace ns_of) i)) as Hx'.
  { clear. induction i as [|[g|l n ms e|l n c is_ e] bs IH]; constructor; simpl; done. }
  pose proof (generates_declarations _ _ _ _ _ _ _ Hi Hx Hib Hxb Hdi) as ->.
  pose proof (generates_export_declarations _ _ _ _ _ _ Hy Hx' Hyb Hxb' Hdx) as ->.
  pose proof (on_import_side _ _ _ _ _ _ _ _ Hi Hib Hc) as ->.
  set (xs := map (map_block ns_of mirror_signature) ib) in *.
  assert (ClassBlock line (Some (ns_of clazz)) clazz (map (map_item mirror_signature) items) last ∈ xs) as Hcx.
  { apply list_elem_of_fmap. by exists (ClassBlock line None clazz items last). }
  assert (mapM (interface_methods xs) (implemented (map (map_item mirror_signature) items)) = Some (map (map (map_group mirror_signature)) gss)) as Hgx.
  { replace (implemented (map (map_item mirror_signature) items)) with (implemented items) by (symmetry; apply implemented_map).
    eapply mapM_mirror; [|exact Hgss]. intros n gs. apply interface_methods_map. }
  exists (flat_map (group_registrations "Host") (mjoin (map (map (map_group mirror_signature)) gss)) ++ flat_map item_registered (map (map_item mirror_signature) items)).
  split; [|split].
  - apply (class_registered xs Hsx line (Some (ns_of clazz)) clazz _ last); [done..| |by rewrite constructors_map].
    by eapply elaborated_constructors.
  - exists (constructors items). split; [by eapply class_constructed|].
    unfold registered_constructors at 1. rewrite omap_app. fold (registered_constructors (flat_map (group_registrations "Host") (mjoin (map (map (map_group mirror_signature)) gss)))).
    fold (registered_constructors (flat_map item_registered (map (map_item mirror_signature) items))).
    rewrite no_constructors, registered_constructors_items, constructors_map. by rewrite map_map.
  - intros member g Hm Hg. exists (contracts_of g). split.
    + rewrite (resolve_member_found _ _ Hsi _ _ _ _ _ Hc Hm); [|by eapply mapM_is_Some_1]. by rewrite (class_member_unique _ _ _ _ _ Hgss Hg).
    + unfold registered_overloads at 1. rewrite omap_app.
      fold (registered_overloads member (flat_map (group_registrations "Host") (mjoin (map (map (map_group mirror_signature)) gss)))).
      fold (registered_overloads member (flat_map item_registered (map (map_item mirror_signature) items))).
      rewrite registered_overloads_groups, registered_overloads_items, methods_map.
      assert (mjoin (map (map (map_group mirror_signature)) gss) = map (map_group mirror_signature) (mjoin gss)) as ->.
      { clear. induction gss as [|gs gss IH]; [done|]. cbn [map mjoin list_join]. rewrite map_app. f_equal. exact IH. }
      rewrite <- flat_map_app, <- groups_named_app, <- map_app, groups_named_map, Hg. simpl. rewrite app_nil_r. apply contracts_map.
Qed.
End Header.

(** ** The table of the imports, exported *)

Module ExportSample.
Import ImportGenerate.Sample.
Definition ns_of (clazz : string) : string := "native".
Definition table : list (Generate.block written) := map (in_namespace ns_of) imported.
Definition export_blocks : list (Generate.block declared_signature) := map (map_block ns_of mirror_signature) (blocks imported).

Lemma table_side : Forall (on_side true) table.
Proof. repeat constructor; try done. Qed.
Lemma table_elaborated : elaborate reference export_types table = Some export_blocks.
Proof. by vm_compute. Qed.
Lemma table_generates : generates_exports reference (write []) (write table) (export_declarations export_blocks).
Proof. exact (export_generate_declares reference import_types [] table [] _ (Forall_nil_2 _) table_side eq_refl table_elaborated). Qed.
Lemma exported_once : no_redefinition (library (export_declarations export_blocks)).
Proof. refine (bool_decide_unpack (no_redefinition _) _). vm_compute. exact I. Qed.
Lemma constructors_differ : NoDup (map mirror_contract (constructors circle_items)).
Proof. vm_compute. apply NoDup_singleton. Qed.
Definition scale : Generate.group (declared_signature (T := nat)) :=
  match methods_of circle_items with [g] => g | _ => mk_group 0 "" [] 0 end.
Lemma only_scale : groups_named "scale" (mjoin area ++ methods_of circle_items) = [scale].
Proof. by vm_compute. Qed.
Lemma scale_not_reserved : "scale" ∉ reserved.
Proof. refine (bool_decide_unpack _ _). vm_compute. exact I. Qed.
Lemma resolved_scale : resolve_member (library (import_declarations (blocks imported) (blocks exported))) "circle" "scale" =
  Some ([mk_contract None [cxx_plain 1%nat] false] ++ [unmatched]).
Proof. by vm_compute. Qed.
End ExportSample.

Import ImportGenerate.Sample ExportSample.
Lemma export_generate_registers_witness :
  exists ds, generates_exports reference (write []) (write table) ds /\ no_redefinition (library ds).
Proof.
  destruct (export_generate_registers reference import_types [] table _ _ (Forall_nil_2 _) table_side eq_refl table_elaborated)
    as (ds & Hds & _).
  exists ds. split; [exact Hds|].
  rewrite (generates_export_declarations _ import_types _ _ _ _ _ (Forall_nil_2 _) table_side eq_refl table_elaborated Hds). exact exported_once.
Defined.
Lemma delegates_call_what_is_registered_witness :
  exists registered, class_registrations (library (export_declarations export_blocks)) "circle" = Some registered /\
    registered_overloads "scale" registered = [mk_contract None [cxx_plain 1%nat] false].
Proof.
  destruct (delegates_call_what_is_registered reference ns_of import_types import_types imported exported [] _ _ []
    _ _ 15 None "circle" circle_items 21 area (proj1 sides) (proj2 sides) (Forall_nil_2 _) (proj1 elaborated) (proj2 elaborated) eq_refl
    sample_generates declared_once table_generates exported_once circle_in circle_interfaces constructors_differ)
    as (registered & Hr & _ & Hm).
  exists registered. split; [exact Hr|].
  destruct (Hm "scale" scale scale_not_reserved only_scale) as (cs & Hcs & ->). rewrite resolved_scale in Hcs.
  injection Hcs as Hcs. apply (app_inv_tail [unmatched] [_] cs) in Hcs. by rewrite <- Hcs.
Defined.
