(* ===== verification/ExportCore.v ===== *)
(** * backend_base.h, export_callable.h and export_core.h: what compiles, and registration

    The hooks that a backend may have, with the wrappers that assert them; what makes a
    callable bindable with a signature; and the registration of a class, which runs the hooks
    one after the other. *)

From Stdlib Require Import ZArith Lia.
From stdpp Require Import base list strings.
From S2P Require Import Prelude ExportDispatch Registration Import Generate Declarations ImportGenerate ExportGenerate.

(** ** Compilation *)

(** The static assertions of the wrappers, of the registration and of the binders. *)
Inductive assertion :=
| export_target_not_definable | class_target_not_definable | class_target_not_storable
| object_handle_not_bindable | imported_object_not_convertible | exported_object_not_validated
| callable_not_importable | callable_not_exportable | constructor_not_definable
| object_not_makable | instance_not_definable | symbol_not_importable
| imported_receiver_not_constructible | exported_receiver_not_constructible | no_native_type
| callable_not_declared | constructor_not_declared | constructor_not_native | member_not_bindable | export_not_bindable
| overloads_not_bindable | context_not_invocable | context_not_legal
| forward_not_convertible | forward_result_not_convertible | reference_result | no_dynamic_value.
#[export] Instance assertion_eq_dec : EqDecision assertion.
Proof. solve_decision. Defined.

(** A part of a program that compiles, or an assertion that fails: the first, in the order in
    which the functions write them. *)
Definition compiled (X : Type) : Type := (X + assertion)%type.
#[export] Instance compiled_ret : MRet compiled := fun X x => inl x.
#[export] Instance compiled_bind : MBind compiled := fun X Y f m =>
  match m with inl x => f x | inr e => inr e end.
Definition static_assert (b : bool) (e : assertion) : compiled unit := if b then inl tt else inr e.
Definition compiles {X} (m : compiled X) : bool := match m with inl _ => true | inr _ => false end.

(** A hook that a backend has: the detectors ask whether its call is well formed. *)
Definition detected {X} (hook : option X) : bool := bool_decide (is_Some hook).
Definition hook_or {X} (hook : option X) (e : assertion) : compiled X :=
  match hook with Some f => inl f | None => inr e end.
Lemma hook_or_detected {X} (hook : option X) e : compiles (hook_or hook e) = detected hook.
Proof. by destruct hook. Qed.

Section Backend.
(** [T] declared types, [A] C++ arguments, [D] dynamic values, [Target] modules and
    [ClassTarget] classes of the runtime, [Binder] what is defined under a name, [Object] its
    objects, [Callable] imported groups, [Source] and [Context_] of imported symbols. *)
Context {T A D Target ClassTarget Binder Object Callable Source Context_ W : Type}.

(** [backend_t]: the hooks it implements, by the class or group that they are instantiated
    with. *)
Record backend_t := mk_backend {
  define_impl : option (Target -> string -> Binder -> eff W unit);
  define_member_impl : option (ClassTarget -> string -> Binder -> eff W unit);
  define_class_impl : string -> option (Target -> string -> eff W ClassTarget);
  define_constructor_impl : string -> list T -> option (ClassTarget -> eff W unit);
  store_export_class_impl : string -> option (ClassTarget -> eff W unit);
  bind_export_object_impl : string -> option (D -> eff W Object);
  to_dynamic_object_impl : string -> option (Object -> eff W D);
  try_bind_export_object_impl : string -> option (D -> eff W (option Object));
  try_import_callable_impl : string -> option (D -> eff W (option Callable));
  make_export_callable_impl : string -> option (Binder -> eff W D);
  make_export_object_impl : string -> option (list A -> eff W Object);
  define_export_instance_impl : string -> option (Target -> string -> Object -> eff W unit);
  import_impl : string -> option (Source -> string -> eff W Context_)
}.

Section Wrappers.
Context (b : backend_t).

(** The detectors. *)
Definition is_definable : bool := detected (define_impl b).
Definition is_class_definable (clazz : string) : bool := detected (define_class_impl b clazz).
Definition is_class_constructor_definable (clazz : string) (ps : list T) : bool := detected (define_constructor_impl b clazz ps).
Definition is_export_class_storable (clazz : string) : bool := detected (store_export_class_impl b clazz).
Definition is_export_object_bindable (clazz : string) : bool := detected (bind_export_object_impl b clazz).
Definition is_import_object_convertible (clazz : string) : bool := detected (to_dynamic_object_impl b clazz).
Definition is_export_object_try_bindable (clazz : string) : bool := detected (try_bind_export_object_impl b clazz).
Definition is_callable_importable (group : string) : bool := detected (try_import_callable_impl b group).
Definition is_callable_exportable (group : string) : bool := detected (make_export_callable_impl b group).
Definition is_export_object_makable (clazz : string) : bool := detected (make_export_object_impl b clazz).
Definition is_export_instance_definable (clazz : string) : bool := detected (define_export_instance_impl b clazz).
Definition is_importable (symbol : string) : bool := detected (import_impl b symbol).

(** The wrappers. *)
Definition define (target : Target) (name : string) (binder : Binder) : compiled (eff W unit) :=
  f ← hook_or (define_impl b) export_target_not_definable; inl (f target name binder).
Definition define_member (target : ClassTarget) (name : string) (binder : Binder) : compiled (eff W unit) :=
  f ← hook_or (define_member_impl b) export_target_not_definable; inl (f target name binder).
Definition define_class (clazz : string) : compiled (Target -> string -> eff W ClassTarget) :=
  hook_or (define_class_impl b clazz) class_target_not_definable.
Definition store_export_class (clazz : string) : compiled (ClassTarget -> eff W unit) :=
  hook_or (store_export_class_impl b clazz) class_target_not_storable.
Definition bind_export_object (clazz : string) : compiled (D -> eff W Object) :=
  hook_or (bind_export_object_impl b clazz) object_handle_not_bindable.
Definition to_dynamic_object (clazz : string) : compiled (Object -> eff W D) :=
  hook_or (to_dynamic_object_impl b clazz) imported_object_not_convertible.
Definition try_bind_export_object (clazz : string) : compiled (D -> eff W (option Object)) :=
  hook_or (try_bind_export_object_impl b clazz) exported_object_not_validated.
Definition try_import_callable (group : string) : compiled (D -> eff W (option Callable)) :=
  hook_or (try_import_callable_impl b group) callable_not_importable.
Definition make_export_callable (group : string) : compiled (Binder -> eff W D) :=
  hook_or (make_export_callable_impl b group) callable_not_exportable.
Definition define_constructor (clazz : string) (ps : list T) : compiled (ClassTarget -> eff W unit) :=
  hook_or (define_constructor_impl b clazz ps) constructor_not_definable.
Definition make_export_object (clazz : string) : compiled (list A -> eff W Object) :=
  hook_or (make_export_object_impl b clazz) object_not_makable.
Definition define_export_instance (clazz : string) : compiled (Target -> string -> Object -> eff W unit) :=
  hook_or (define_export_instance_impl b clazz) instance_not_definable.
Definition import_from (symbol : string) : compiled (Source -> string -> eff W Context_) :=
  hook_or (import_impl b symbol) symbol_not_importable.

(** [make_exported] and [export_instance]. *)
Definition make_exported (clazz : string) (args : list A) : compiled (eff W Object) :=
  make ← make_export_object clazz; inl (make args).
Definition export_instance (clazz : string) (target : Target) (name : string) (args : list A) : compiled (eff W unit) :=
  make ← make_exported clazz args;
  define ← define_export_instance clazz;
  inl (object ← make; define target name object).
End Wrappers.
End Backend.
Arguments backend_t : clear implicits.

(** ** Bindable callables *)

Section Bindable.
(** [T] declared types, [C] types of callables, [Y] types of dynamic values, [R] types of
    expressions. *)
Context {T C Y R : Type}.

(** What the compiler finds out about the types of a program: parameters that are no mutable
    references, results that are references, descriptors, conversions of arguments ([export_argument::try_make]) and of
    results ([to_export_result]), calls of a callable and of a member with the converted
    arguments, with the type of the result, and receivers ([bind_export_object_impl] and
    [native]). *)
Record compiler := mk_compiler {
  is_bridge_param : T -> bool;
  is_reference_result : T -> bool;
  is_bridge_descriptor_type : T -> bool;
  dynamic_value_t : option Y;
  try_make_formed : T -> Y -> bool;
  call_type : C -> list T -> option R;
  member_call_type : string -> C -> list T -> option R;
  to_export_result_formed : T -> R -> bool;
  receiver_formed : string -> Y -> bool
}.
Context (k : compiler).

Definition has_backend_dynamic_value : bool := bool_decide (is_Some (dynamic_value_t k)).
Definition are_export_arguments_convertible (ts : list T) : bool :=
  match dynamic_value_t k with None => true | Some y => forallb (fun t => try_make_formed k t y) ts end.
Definition is_export_member_receiver_convertible (clazz : string) (ts : list T) : bool :=
  match dynamic_value_t k with
  | None => true
  | Some y => receiver_formed k clazz y && forallb (fun t => try_make_formed k t y) ts
  end.
Definition result_formed (result : option T) (call : option R) : bool :=
  match result, call with
  | _, None => false
  | None, Some _ => true
  | Some r, Some e => to_export_result_formed k r e
  end.

Definition is_export_callable_bindable (c : contract T) (f : C) : bool :=
  forallb (is_bridge_param k) (parameters c)
  && match result_type c with Some r => negb (is_bridge_descriptor_type k r) | None => true end
  && are_export_arguments_convertible (parameters c)
  && result_formed (result_type c) (call_type k f (parameters c)).
Definition is_export_member_callable_bindable (clazz : string) (c : contract T) (f : C) : bool :=
  forallb (is_bridge_param k) (parameters c)
  && is_export_member_receiver_convertible clazz (parameters c)
  && result_formed (result_type c) (member_call_type k clazz f (parameters c)).

(** For dynamic arguments of given types. *)
Definition are_export_dynamic_arguments_convertible (ys : list Y) (ts : list T) : bool :=
  Nat.eqb (length ys) (length ts) && forallb (fun p => try_make_formed k p.2 p.1) (zip ys ts).
Definition is_export_invocable (c : contract T) (f : C) (ys : list Y) : bool :=
  Nat.eqb (length ys) (callable_arity c)
  && result_formed (result_type c) (call_type k f (parameters c))
  && are_export_dynamic_arguments_convertible ys (parameters c).
Definition is_export_member_invocable (clazz : string) (c : contract T) (f : C) (receiver : Y) (ys : list Y) : bool :=
  Nat.eqb (length ys) (callable_arity c)
  && (receiver_formed k clazz receiver && result_formed (result_type c) (member_call_type k clazz f (parameters c)))
  && are_export_dynamic_arguments_convertible ys (parameters c).

(** A group of overloads, its sentinel aside. *)
Definition is_export_overload_contract_bindable (c : contract T) (f : C) : bool :=
  if is_unmatched_free_callable c then true else is_export_callable_bindable c f.
Definition are_export_overloads_bindable (cs : list (contract T)) (f : C) : bool :=
  forallb (fun c => is_export_overload_contract_bindable c f) cs.

(** What makes a binder compile, and what it is then made of. *)
Definition result_is_value (c : contract T) : bool :=
  match result_type c with Some r => negb (is_reference_result k r) | None => true end.
Definition create_export_callable_binder (c : contract T) (f : C) : compiled (contract T * C) :=
  _ ← static_assert (result_is_value c) reference_result;
  _ ← static_assert (forallb (is_bridge_param k) (parameters c)) export_not_bindable;
  _ ← static_assert (is_export_callable_bindable c f) export_not_bindable;
  inl (c, f).
Definition create_export_member_callable_binder (clazz : string) (c : contract T) (f : C) : compiled (string * contract T * C) :=
  _ ← static_assert (result_is_value c) reference_result;
  _ ← static_assert (forallb (is_bridge_param k) (parameters c)) export_not_bindable;
  _ ← static_assert (is_export_member_callable_bindable clazz c f) member_not_bindable;
  inl (clazz, c, f).
Definition create_export_overload_binder (cs : list (contract T)) (f : C) : compiled (list (contract T) * C) :=
  _ ← static_assert has_backend_dynamic_value no_dynamic_value;
  _ ← static_assert (are_export_overloads_bindable cs f) overloads_not_bindable;
  inl (cs, f).

Lemma dynamic_arguments_convertible y ts ys :
  dynamic_value_t k = Some y -> are_export_arguments_convertible ts = true -> Forall (fun z => z = y) ys ->
  are_export_dynamic_arguments_convertible ys ts = Nat.eqb (length ys) (length ts).
Proof.
  unfold are_export_arguments_convertible, are_export_dynamic_arguments_convertible. intros ->. revert ts.
  intros ts Hts Hys. destruct (Nat.eqb (length ys) (length ts)) eqn:Hl; [|done]. apply Nat.eqb_eq in Hl. simpl.
  revert ts Hts Hl. induction Hys as [|z ys -> _ IH]; intros [|t ts]; try done. simpl. rewrite andb_true_iff.
  intros [-> Hts] [= Hl]. simpl. by apply IH.
Qed.

(** Every candidate that a bound group tries compiles, for all numbers of arguments, and so
    does the member a class binds: with the backend's dynamic values a bindable signature is
    invocable exactly when the numbers of arguments agree. *)
Lemma bindable_invocable y c f ys :
  dynamic_value_t k = Some y -> is_export_callable_bindable c f = true -> Forall (fun z => z = y) ys ->
  is_export_invocable c f ys = Nat.eqb (length ys) (callable_arity c).
Proof.
  intros Hy Hb Hys. unfold is_export_callable_bindable in Hb. rewrite !andb_true_iff in Hb. destruct Hb as [[[_ _] Hc] Hr].
  unfold is_export_invocable. rewrite Hr, (dynamic_arguments_convertible _ _ _ Hy Hc Hys). unfold callable_arity.
  by destruct (Nat.eqb (length ys) (length (parameters c))).
Qed.
Lemma member_bindable_invocable y clazz c f ys :
  dynamic_value_t k = Some y -> is_export_member_callable_bindable clazz c f = true -> Forall (fun z => z = y) ys ->
  is_export_member_invocable clazz c f y ys = Nat.eqb (length ys) (callable_arity c).
Proof.
  intros Hy Hb Hys. unfold is_export_member_callable_bindable, is_export_member_receiver_convertible in Hb. rewrite Hy in Hb.
  rewrite !andb_true_iff in Hb. destruct Hb as [[_ [Hrec Hc]] Hr].
  assert (are_export_arguments_convertible (parameters c) = true) as Hc' by (unfold are_export_arguments_convertible; by rewrite Hy).
  unfold is_export_member_invocable. rewrite Hr, Hrec, (dynamic_arguments_convertible _ _ _ Hy Hc' Hys). unfold callable_arity.
  by destruct (Nat.eqb (length ys) (length (parameters c))).
Qed.
End Bindable.
Arguments compiler : clear implicits.

(** ** Imported calls *)

Section Forward.
(** [T] declared types, [V] of receivers. What the compiler finds out: a backend that derives
    from [backend_base], the conversions of arguments, receivers ([to_cast]) and results
    ([from_cast] of a dynamic value, when the backend has one), and the constructor of an
    imported object. *)
Context {T V : Type}.
Record forward_compiler := mk_forward {
  derives_from_backend_base : bool;
  is_forward_param : T -> bool;
  is_reference_type : T -> bool;
  decay_type : T -> T;
  to_cast_formed : T -> bool;
  receiver_to_cast_formed : V -> bool;
  has_dynamic_value : bool;
  from_cast_formed : T -> bool;
  object_constructible : list T -> bool
}.
Context (k : forward_compiler).

Definition is_context_legal : bool := derives_from_backend_base k.
(** [backend_base::is_invocable], with a receiver or without one. *)
Definition is_invocable (receiver : option V) (ts : list T) : bool :=
  match receiver with Some v => receiver_to_cast_formed k v | None => true end && forallb (to_cast_formed k) ts.
Definition is_forward_invocable (receiver : option V) (ts : list T) : bool :=
  forallb (is_forward_param k) ts && is_invocable receiver ts.
Definition is_forward_result_convertible (r : option T) : bool :=
  match r with
  | None => true
  | Some r => negb (is_reference_type k r) && (negb (has_dynamic_value k) || from_cast_formed k r)
  end.
Definition is_forward_constructible (ts : list T) : bool :=
  forallb (is_forward_param k) ts && (forallb (fun t => to_cast_formed k (decay_type k t)) ts && object_constructible k ts).

(** [backend_base::invoke]; then [import_callable::invoke], which calls it. *)
Definition backend_invoke (receiver : option V) (r : option T) (ts : list T) : compiled unit :=
  _ ← static_assert (match r with Some r => negb (is_reference_type k r) | None => true end) reference_result;
  static_assert (is_invocable receiver ts) context_not_invocable.
Definition import_callable_compiled (receiver : option V) (c : contract T) : compiled unit :=
  _ ← static_assert (match result_type c with Some r => negb (is_reference_type k r) | None => true end) reference_result;
  _ ← static_assert is_context_legal context_not_legal;
  _ ← static_assert (is_forward_invocable receiver (parameters c)) forward_not_convertible;
  _ ← static_assert (is_forward_result_convertible (result_type c)) forward_result_not_convertible;
  backend_invoke receiver (result_type c) (parameters c).
Definition import_constructor_compiled (ts : list T) : compiled unit :=
  _ ← static_assert is_context_legal context_not_legal;
  static_assert (is_forward_constructible ts) imported_receiver_not_constructible.

(** Whatever fails is reported by [import_callable]: the assertions of [backend_base] do not
    fail after those. *)
Lemma import_callable_reports receiver c :
  compiles (import_callable_compiled receiver c) =
    is_context_legal && is_forward_invocable receiver (parameters c) && is_forward_result_convertible (result_type c)
  /\ import_callable_compiled receiver c ≠ inr context_not_invocable.
Proof.
  unfold import_callable_compiled, backend_invoke, is_forward_invocable, is_forward_result_convertible, static_assert.
  destruct (result_type c) as [r|]; [destruct (is_reference_type k r); simpl; [by rewrite andb_false_r|]|];
    (destruct is_context_legal; [|done]); (destruct (forallb (is_forward_param k) _); [|done]); simpl;
    (destruct (is_invocable receiver (parameters c)); [|done]); simpl; [|done].
  by destruct (negb (has_dynamic_value k) || from_cast_formed k r).
Qed.
End Forward.
Arguments forward_compiler : clear implicits.

(** [import_object_base] and [export_object_base]: the hooks of the objects themselves, and the
    native that an exported one makes and destroys. *)
Section Objects.
Context {A D Native W : Type}.
Context (construct_import_object_impl : option (list A -> eff W unit))
  (construct_export_object_impl : option (D -> list A -> eff W unit))
  (native_t : bool) (new_class : option (list A -> eff W Native)) (delete_class : Native -> W -> W).

Definition construct_import_object (args : list A) : compiled (eff W unit) :=
  f ← hook_or construct_import_object_impl imported_receiver_not_constructible; inl (f args).
Definition construct_export_object (self : D) (args : list A) : compiled (eff W unit) :=
  _ ← static_assert native_t no_native_type;
  f ← hook_or construct_export_object_impl exported_receiver_not_constructible; inl (f self args).
Definition is_export_class_constructible : bool := native_t && detected new_class.
Definition construct_native (args : list A) : compiled (eff W Native) :=
  _ ← static_assert is_export_class_constructible constructor_not_native;
  f ← hook_or new_class constructor_not_native; inl (f args).
Definition destroy_native (receiver : option Native) : eff W unit :=
  fun w => (Ok tt, match receiver with Some n => delete_class n w | None => w end).
End Objects.

(** ** Exported callables *)

Section Exporting.
Context {T A D Target ClassTarget Binder Object Callable Source Context_ W C Y R : Type} `{EqDecision T}.
Context (b : backend_t T A D Target ClassTarget Binder Object Callable Source Context_ W) (k : compiler T C Y R).
Context (free_binder : contract T * C -> Binder) (overload_binder : list (contract T) * C -> Binder).

Definition export_free_callable_impl (c : contract T) (target : Target) (name : string) (f : C) : compiled (eff W unit) :=
  _ ← static_assert (is_export_callable_bindable k c f) export_not_bindable;
  binder ← create_export_callable_binder k c f; define b target name (free_binder binder).
Definition export_free_callable_overloads_impl (cs : list (contract T)) (target : Target) (name : string) (f : C)
  : compiled (eff W unit) :=
  binder ← create_export_overload_binder k cs f; define b target name (overload_binder binder).
Definition make_export_group_callable (group : string) (cs : list (contract T)) (f : C) : compiled (eff W D) :=
  binder ← create_export_overload_binder k cs f;
  make ← make_export_callable b group; inl (make (overload_binder binder)).

(** [export_groups::name::bind]. *)
Definition group_bind (group : list (contract T)) (c : contract T) (target : Target) (name : string) (f : C) : compiled (eff W unit) :=
  _ ← static_assert (OverloadBuilder.is_declared_free_callable group c) callable_not_declared;
  _ ← static_assert (is_export_callable_bindable k c f) export_not_bindable;
  export_free_callable_impl c target name f.

Lemma export_free_compiles c target name f :
  compiles (export_free_callable_impl c target name f) = result_is_value k c && is_export_callable_bindable k c f && is_definable b.
Proof.
  unfold export_free_callable_impl, create_export_callable_binder, static_assert, define, is_definable.
  destruct (is_export_callable_bindable k c f) eqn:Hb; [|by rewrite andb_false_r]. simpl. rewrite andb_true_r.
  destruct (result_is_value k c); [|done]. simpl.
  assert (forallb (is_bridge_param k) (parameters c) = true) as ->.
  { unfold is_export_callable_bindable in Hb. rewrite !andb_true_iff in Hb. tauto. }
  simpl. by destruct (define_impl b).
Qed.
Lemma export_overloads_compile cs target name f :
  compiles (export_free_callable_overloads_impl cs target name f) =
    has_backend_dynamic_value k && are_export_overloads_bindable k cs f && is_definable b.
Proof.
  unfold export_free_callable_overloads_impl, create_export_overload_binder, static_assert, define, is_definable.
  destruct (has_backend_dynamic_value k); [|done]. simpl. destruct (are_export_overloads_bindable k cs f); [|done]. simpl.
  by destruct (define_impl b).
Qed.
Lemma group_bind_compiles group c target name f :
  compiles (group_bind group c target name f) = bool_decide (c ∈ group) && (result_is_value k c && is_export_callable_bindable k c f && is_definable b).
Proof.
  unfold group_bind, static_assert, OverloadBuilder.is_declared_free_callable.
  destruct (bool_decide (c ∈ group)); [|done]. simpl. rewrite <- (export_free_compiles c target name f).
  unfold export_free_callable_impl, static_assert. by destruct (is_export_callable_bindable k c f).
Qed.
End Exporting.

(** ** Registration *)

Section Register.
Context {T A D Target ClassTarget Binder Object Callable Source Context_ W C Y R : Type} `{EqDecision T}.
Context (b : backend_t (cxx_type T) A D Target ClassTarget Binder Object Callable Source Context_ W)
  (k : compiler (cxx_type T) C Y R).
(** The constructor group of a class; whether a native class has a constructor for converted
    arguments; the type of the forwarder of a member; and its binder. *)
Context (export_constructor_group_for : string -> list (contract (cxx_type T)))
  (is_constructible : string -> list (cxx_type T) -> bool)
  (export_member_forwarder : string -> contract (cxx_type T) -> C)
  (binder_of : string * contract (cxx_type T) * C -> Binder).

(** [export_class_registration]: [constructor] and [member]. *)
Definition constructor (clazz : string) (ps : list (cxx_type T)) : compiled (ClassTarget -> eff W unit) :=
  _ ← static_assert (is_declared_constructor (export_constructor_group_for clazz) ps) constructor_not_declared;
  _ ← static_assert (is_constructible clazz ps) constructor_not_native;
  define_constructor b clazz ps.
Definition export_member_callable (clazz : string) (c : contract (cxx_type T)) (f : C) : compiled (ClassTarget -> string -> eff W unit) :=
  _ ← static_assert (is_export_member_callable_bindable k clazz c f) member_not_bindable;
  binder ← create_export_member_callable_binder k clazz c f;
  define ← hook_or (define_member_impl b) export_target_not_definable;
  inl (fun target name => define target name (binder_of binder)).
Definition member (clazz name : string) (c : contract (cxx_type T)) (f : C) : compiled (ClassTarget -> eff W unit) :=
  _ ← static_assert (is_export_member_callable_bindable k clazz c f) member_not_bindable;
  define ← export_member_callable clazz c f; inl (fun target => define target name).

Definition registration_step (clazz : string) (r : registration (T := T)) : compiled (ClassTarget -> eff W unit) :=
  match r with
  | registered_constructor ps => constructor clazz ps
  | registered_member name tag c => member clazz name c (export_member_forwarder tag c)
  end.
Fixpoint compile_steps (clazz : string) (rs : list (registration (T := T))) : compiled (list (ClassTarget -> eff W unit)) :=
  match rs with
  | [] => inl []
  | r :: rs => step ← registration_step clazz r; steps ← compile_steps clazz rs; inl (step :: steps)
  end.
Fixpoint run_steps (steps : list (ClassTarget -> eff W unit)) (target : ClassTarget) : eff W unit :=
  match steps with [] => mret tt | step :: steps => step target ;; run_steps steps target end.

(** [exports::clazz::register_all]: the class is defined, everything is registered on it, and
    then it is stored. *)
Definition register_all (clazz : string) (rs : list (registration (T := T))) : compiled (Target -> eff W unit) :=
  define ← define_class b clazz;
  steps ← compile_steps clazz rs;
  store ← store_export_class b clazz;
  inl (fun target => class_target ← define target clazz; run_steps steps class_target ;; store class_target).

(** What a registration needs to compile. *)
Definition registrable (clazz : string) (r : registration (T := T)) : bool :=
  match r with
  | registered_constructor ps =>
      is_declared_constructor (export_constructor_group_for clazz) ps && is_constructible clazz ps && is_class_constructor_definable b clazz ps
  | registered_member name tag c =>
      is_export_member_callable_bindable k clazz c (export_member_forwarder tag c) && result_is_value k c && detected (define_member_impl b)
  end.
Lemma bindable_params clazz c f : is_export_member_callable_bindable k clazz c f = true -> forallb (is_bridge_param k) (parameters c) = true.
Proof. unfold is_export_member_callable_bindable. rewrite !andb_true_iff. tauto. Qed.
Lemma step_compiles clazz r : compiles (registration_step clazz r) = registrable clazz r.
Proof.
  destruct r as [ps|name tag c]; simpl.
  - unfold constructor, define_constructor, is_class_constructor_definable, static_assert.
    destruct (is_declared_constructor _ ps); [|done]. simpl. destruct (is_constructible clazz ps); [|done]. apply hook_or_detected.
  - unfold member, export_member_callable, create_export_member_callable_binder, static_assert.
    destruct (is_export_member_callable_bindable k clazz c _) eqn:Hb; [|done]. simpl.
    destruct (result_is_value k c); [|done]. simpl. rewrite (bindable_params _ _ _ Hb). simpl. by destruct (define_member_impl b).
Qed.
(** What compiles is the call of the hooks. *)
Lemma registration_step_hook clazz r step : registration_step clazz r = inl step ->
  match r with
  | registered_constructor ps => define_constructor_impl b clazz ps = Some step
  | registered_member name tag c =>
      exists f, define_member_impl b = Some f /\ step = (fun target => f target name (binder_of (clazz, c, export_member_forwarder tag c)))
  end.
Proof.
  destruct r as [ps|name tag c]; simpl.
  - unfold constructor, define_constructor, static_assert. destruct (is_declared_constructor _ ps); [|done].
    simpl. destruct (is_constructible clazz ps); [|done]. simpl. by destruct (define_constructor_impl b clazz ps); [intros [= ->]|].
  - unfold member, export_member_callable, create_export_member_callable_binder, static_assert.
    destruct (is_export_member_callable_bindable k clazz c _) eqn:Hb; [|done]. simpl. destruct (result_is_value k c); [|done].
    simpl. rewrite (bindable_params _ _ _ Hb). simpl. destruct (define_member_impl b); [|done]. intros [= <-]. eauto.
Qed.
Lemma register_all_hooks clazz rs run : register_all clazz rs = inl run ->
  exists define steps store, define_class_impl b clazz = Some define /\ compile_steps clazz rs = inl steps /\
    store_export_class_impl b clazz = Some store /\
    run = (fun target => class_target ← define target clazz; run_steps steps class_target ;; store class_target).
Proof.
  unfold register_all, define_class, store_export_class.
  destruct (define_class_impl b clazz) as [define|]; [|done]. simpl.
  destruct (compile_steps clazz rs) as [steps|]; [|done]. simpl.
  destruct (store_export_class_impl b clazz) as [store|]; [|done]. intros [= <-]. eauto 10.
Qed.
Lemma steps_compile clazz rs : compiles (compile_steps clazz rs) = forallb (registrable clazz) rs.
Proof.
  induction rs as [|r rs IH]; [done|]. simpl. rewrite <- (step_compiles clazz r), <- IH.
  destruct (registration_step clazz r); [|done]. by destruct (compile_steps clazz rs).
Qed.
Lemma register_all_compiles clazz rs :
  compiles (register_all clazz rs) = is_class_definable b clazz && forallb (registrable clazz) rs && is_export_class_storable b clazz.
Proof.
  unfold register_all, define_class, store_export_class, is_class_definable, is_export_class_storable, detected.
  rewrite <- (steps_compile clazz rs). destruct (define_class_impl b clazz); [|done]. simpl.
  destruct (compile_steps clazz rs); [|done]. simpl. by destruct (store_export_class_impl b clazz).
Qed.

(** A constructor that is declared, native and definable; a member that is bindable, returns
    a value and is definable. *)
Definition can_register (clazz : string) (r : registration (T := T)) : Prop :=
  match r with
  | registered_constructor ps =>
      is_declared_constructor (export_constructor_group_for clazz) ps = true /\ is_constructible clazz ps = true /\
      is_Some (define_constructor_impl b clazz ps)
  | registered_member name tag c =>
      is_export_member_callable_bindable k clazz c (export_member_forwarder tag c) = true /\
      result_is_value k c = true /\ is_Some (define_member_impl b)
  end.
Lemma registrable_iff clazz r : registrable clazz r = true <-> can_register clazz r.
Proof.
  unfold can_register. destruct r; simpl; rewrite !andb_true_iff; unfold is_class_constructor_definable, detected;
    rewrite bool_decide_eq_true; tauto.
Qed.
Lemma register_all_iff clazz rs : compiles (register_all clazz rs) = true <->
  is_Some (define_class_impl b clazz) /\ is_Some (store_export_class_impl b clazz) /\
  forall r, r ∈ rs -> can_register clazz r.
Proof.
  rewrite register_all_compiles, !andb_true_iff, forallb_forall. unfold is_class_definable, is_export_class_storable, detected.
  rewrite !bool_decide_eq_true. split.
  - intros [[Hd Hr] Hs]. split_and!; [done..|]. intros r Hin. apply registrable_iff, Hr. by apply list_elem_of_In.
  - intros (Hd & Hs & Hr). split_and!; [done| |done]. intros r Hin. apply registrable_iff, Hr. by apply list_elem_of_In.
Qed.

Lemma steps_length clazz rs : forall steps, compile_steps clazz rs = inl steps -> length steps = length rs.
Proof.
  induction rs as [|r rs IH]; intros steps; simpl; [by intros [= <-]|].
  destruct (registration_step clazz r); [|done]. simpl. destruct (compile_steps clazz rs) as [steps'|]; [|done].
  intros [= <-]. simpl. by rewrite (IH _ eq_refl).
Qed.
(** The run of the steps: up to the first that does not return. *)
Lemma run_steps_stops steps target w :
  exists n w', (n <= length steps)%nat /\
    run_steps (take n steps) target w = (Ok tt, w') /\
    match steps !! n with
    | Some step => run_steps steps target w = step target w' /\ (step target w').1 ≠ Ok tt
    | None => run_steps steps target w = (Ok tt, w')
    end.
Proof.
  revert w. induction steps as [|step steps IH]; intros w; [by exists 0%nat, w|].
  destruct (step target w) as [[[]| | |] w1] eqn:Hs.
  - destruct (IH w1) as (n & w' & Hn & Hrun & Hrest). exists (S n), w'. simpl. unfold mbind, eff_bind. rewrite Hs.
    split_and!; [lia|done|exact Hrest].
  - exists 0%nat, w. simpl. unfold mbind, eff_bind. rewrite Hs. split_and!; [lia|done..].
  - exists 0%nat, w. simpl. unfold mbind, eff_bind. rewrite Hs. split_and!; [lia|done..].
  - exists 0%nat, w. simpl. unfold mbind, eff_bind. rewrite Hs. split_and!; [lia|done..].
Qed.

(** ** All or nothing *)

(** The classes of a context are in its registry, where the store hook of the backend puts
    them; the other hooks leave it as it is. *)
Context {K : Type} `{Countable K} (registry_of : W -> ClassRegistry.export_class_registry K ClassTarget)
  (type_key : string -> K).
Definition leaves_registry {X} (m : eff W X) : Prop := forall w, registry_of (m w).2 = registry_of w.
Definition stores_class (clazz : string) : Prop :=
  forall store, store_export_class_impl b clazz = Some store -> forall t w,
    match store t w with
    | (Ok _, w') => registry_of w' = ClassRegistry.store (registry_of w) (type_key clazz) t
    | (_, w') => registry_of w' = registry_of w
    end.
Definition definitions_leave_registry : Prop :=
  (forall clazz define target name, define_class_impl b clazz = Some define -> leaves_registry (define target name)) /\
  (forall clazz ps define t, define_constructor_impl b clazz ps = Some define -> leaves_registry (define t)) /\
  (forall define t name binder, define_member_impl b = Some define -> leaves_registry (define t name binder)).

Lemma step_leaves_registry clazz r step :
  definitions_leave_registry -> registration_step clazz r = inl step -> forall t, leaves_registry (step t).
Proof.
  intros (_ & Hc & Hm) Hr t. apply registration_step_hook in Hr. destruct r as [ps|name tag c].
  - exact (Hc _ _ _ t Hr).
  - destruct Hr as (f & Hf & ->). exact (Hm _ t _ _ Hf).
Qed.
Lemma steps_leave_registry clazz rs : definitions_leave_registry -> forall steps,
  compile_steps clazz rs = inl steps -> forall t, leaves_registry (run_steps steps t).
Proof.
  intros Hd. induction rs as [|r rs IH]; intros steps; simpl; [by intros [= <-]|].
  destruct (registration_step clazz r) as [step|] eqn:Hr; [|done]. simpl.
  destruct (compile_steps clazz rs) as [steps'|]; [|done]. intros [= <-] t w. simpl. unfold mbind, eff_bind.
  pose proof (step_leaves_registry _ _ _ Hd Hr t w) as Hs. destruct (step t w) as [[[]| | |] w1]; simpl in *; try done.
  by rewrite (IH _ eq_refl).
Qed.
Lemma register_all_registry clazz rs run target w :
  definitions_leave_registry -> stores_class clazz -> register_all clazz rs = inl run ->
  match run target w with
  | (Ok _, w') => exists t, registry_of w' = ClassRegistry.store (registry_of w) (type_key clazz) t
  | (_, w') => registry_of w' = registry_of w
  end.
Proof.
  intros Hd Hs (define & steps & store & Hdef & Hsteps & Hstore & ->)%register_all_hooks. unfold mbind, eff_bind.
  pose proof (proj1 Hd _ _ target clazz Hdef w) as H1.
  destruct (define target clazz w) as [[t| | |] w1]; simpl in *; try done.
  pose proof (steps_leave_registry _ _ Hd _ Hsteps t w1) as H2.
  destruct (run_steps steps t w1) as [[[]| | |] w2]; simpl in *; try congruence.
  pose proof (Hs _ Hstore t w2) as H3. destruct (store t w2) as [[[]| | |] w3]; try congruence.
  exists t. congruence.
Qed.

(** C11: the registration of a class compiles exactly when the backend can define and store
    the class and every constructor and member can be registered: a constructor is declared,
    native and definable, a member is bindable without a reference as its result. Once the class is defined, the
    definitions run in their order up to the first that fails, and then nothing more does. The class is in the
    registry of the context when all succeed, without a change to another class; and when
    one fails, with its error, the registry is as it was. *)
Theorem register_all_or_nothing `{ErrorPolicy} clazz rs :
  definitions_leave_registry -> stores_class clazz ->
  (compiles (register_all clazz rs) = true <->
     is_Some (define_class_impl b clazz) /\ is_Some (store_export_class_impl b clazz) /\
     forall r, r ∈ rs -> can_register clazz r) /\
  match register_all clazz rs with
  | inr _ => True
  | inl run =>
      exists define steps store, define_class_impl b clazz = Some define /\ compile_steps clazz rs = inl steps /\
        length steps = length rs /\ store_export_class_impl b clazz = Some store /\
        forall target w,
          (forall t w1, define target clazz w = (Ok t, w1) ->
             exists n w2, (n <= length steps)%nat /\ run_steps (take n steps) t w1 = (Ok tt, w2) /\
               match steps !! n with
               | Some step => run target w = step t w2 /\ (run target w).1 ≠ Ok tt
               | None => run target w = store t w2
               end) /\
          match run target w with
          | (Ok _, w') => exists t, forall key,
              ClassRegistry.get (registry_of w') key =
              if decide (key = type_key clazz) then Ok t else ClassRegistry.get (registry_of w) key
          | (_, w') => registry_of w' = registry_of w
          end
  end.
Proof.
  intros Hd Hs. split; [apply register_all_iff|].
  destruct (register_all clazz rs) as [run|] eqn:Hrun; [|done].
  pose proof (fun target w => register_all_registry clazz rs run target w Hd Hs Hrun) as Hreg.
  apply register_all_hooks in Hrun as (define & steps & store & Hdef & Hsteps & Hstore & ->).
  exists define, steps, store. split_and!; try done; [by apply steps_length with clazz|]. intros target w. split.
  - intros t w1 Hdw. destruct (run_steps_stops steps t w1) as (n & w2 & Hn & Hrun & Hrest). exists n, w2. split_and!; [done..|].
    unfold mbind, eff_bind. rewrite Hdw. destruct (steps !! n) as [step|].
    + destruct Hrest as [-> Hne]. by destruct (step t w2) as [[[]| | |] w3].
    + by rewrite Hrest.
  - specialize (Hreg target w). destruct ((define target clazz ≫= _) w) as [[[]| | |] w']; try done.
    destruct Hreg as [t Ht]. exists t. intros key. rewrite Ht. apply ClassRegistry.get_store.
Qed.
End Register.

(** ** A backend that logs *)

Module LogBackend.
Definition log_type : Type := list string.
Definition world_type : Type := (log_type * ClassRegistry.export_class_registry string string)%type.
Definition note (s : string) : eff world_type unit := fun w => (Ok tt, (w.1 ++ [s], w.2)).
Definition log_backend : backend_t (cxx_type nat) unit unit unit string (string * contract (cxx_type nat) * string) unit unit unit unit world_type :=
  mk_backend None (Some (fun t name binder => if decide (name = "broken") then throw (runtime_error []) else note (t +:+ "." +:+ name)))
    (fun _ => Some (fun _ name => note ("class " +:+ name) ;; mret name)) (fun clazz ps => Some (fun t => note (t +:+ "()")))
    (fun clazz => Some (fun t w => (Ok tt, (w.1, ClassRegistry.store w.2 clazz t))))
    (fun _ => None) (fun _ => None) (fun _ => None) (fun _ => None) (fun _ => None) (fun _ => None) (fun _ => None) (fun _ => None).
Definition accepts_all : compiler (cxx_type nat) string unit unit :=
  mk_compiler (fun _ => true) (fun _ => false) (fun _ => false) (Some tt) (fun _ _ => true) (fun _ _ => Some tt) (fun _ _ _ => Some tt) (fun _ _ => true) (fun _ _ => true).
Definition declared_constructors (clazz : string) : list (contract (cxx_type nat)) := [mk_contract None [] false; unmatched].
Definition registered_circle : list (registration (T := nat)) :=
  [registered_constructor []; registered_member "scale" "circle::scale_member" (mk_contract None [] false)].
Definition broken_circle : list (registration (T := nat)) :=
  [registered_constructor []; registered_member "broken" "circle::broken_member" (mk_contract None [] false);
   registered_member "scale" "circle::scale_member" (mk_contract None [] false)].

Definition register (rs : list (registration (T := nat))) : outcome unit * world_type :=
  match register_all log_backend accepts_all declared_constructors (fun _ _ => true) (fun tag _ => tag) (fun x => (x.1.1, x.1.2, x.2)) "circle" rs with
  | inl run => run tt ([], [])
  | inr _ => (Aborted, ([], []))
  end.
Example registers_in_order :
  register registered_circle =
    (Ok tt, (["class circle"; "circle()"; "circle.scale"], [ClassRegistry.mk_entry "circle" "circle"])) /\
  register broken_circle = (Throw (runtime_error []), (["class circle"; "circle()"], [])).
Proof. by vm_compute. Qed.

Lemma log_definitions : definitions_leave_registry log_backend snd.
Proof.
  split_and!.
  - by intros clazz define target name [= <-] w.
  - by intros clazz ps define t [= <-] w.
  - intros define t name binder [= <-] w. by case_decide.
Qed.
Lemma log_stores clazz : stores_class log_backend snd (fun c => c) clazz.
Proof. by intros store [= <-] t w. Qed.
End LogBackend.

Lemma register_all_or_nothing_witness :
  exists run, register_all LogBackend.log_backend LogBackend.accepts_all LogBackend.declared_constructors (fun _ _ => true) (fun tag _ => tag)
    (fun x => (x.1.1, x.1.2, x.2)) "circle" LogBackend.broken_circle = inl run /\ (run tt ([], [])).2.2 = [].
Proof.
  pose proof (register_all_or_nothing (H0 := Build_ErrorPolicy true) LogBackend.log_backend LogBackend.accepts_all LogBackend.declared_constructors (fun _ _ => true) (fun tag _ => tag)
    (fun x => (x.1.1, x.1.2, x.2)) snd (fun c => c) "circle" LogBackend.broken_circle LogBackend.log_definitions (LogBackend.log_stores "circle")) as Hr.
  eexists. split; [reflexivity|]. destruct Hr as [_ (define & steps & store & _ & _ & _ & _ & Hr)].
  destruct (Hr tt ([], [])) as [_ Hreg]. exact Hreg.
Defined.
