(* ===== verification/BoundOverloads.v ===== *)
(** * export_callable.h: the functions bound to an exported group

    [export_bound_overload_set] makes one callable object of the functions bound to the
    signatures of a group: it inherits a call operator per signature, and C++ overload
    resolution picks one of them for the arguments that dispatch has converted. This file
    shows that dispatch, which has already picked a signature by its own rules, reaches the
    function that was bound to it, for the flat sets of C++17 and the recursive ones of
    C++14 alike. *)

From Stdlib Require Import ZArith Lia.
From stdpp Require Import base list strings.
From S2P Require Import Prelude Overloads ExportDispatch DirectDispatch Registration ExportCore.
Import OverloadBuilder.

(** ** The call operators *)

Section Set_.
Context {T C : Type} `{EqDecision T}.
Local Abbreviation slot := (bound_export_overload_slot (T := T) (C := C)).

(** The implied object parameter of a member function, mutable or const, or a parameter of
    a declared type; the set itself, a mutable lvalue, or what a converted argument of a
    declared type is passed as. *)
Inductive set_parameter := MutableSet | ConstSet | Param (t : T).
Inductive set_argument := SetArg | Arg (t : T).

(** Implicit conversions of arguments, and which of two is better: the language's, over the
    types of the program. *)
Context (converts : T -> T -> bool) (better_conversion : T -> T -> T -> bool).

Definition convertible (x : set_argument) (p : set_parameter) : bool :=
  match x, p with
  | SetArg, (MutableSet | ConstSet) => true
  | Arg a, Param t => converts a t
  | _, _ => false
  end.
Definition better (x : set_argument) (p q : set_parameter) : bool :=
  match x, p, q with
  | SetArg, MutableSet, ConstSet => true
  | Arg a, Param t, Param u => better_conversion a t u
  | _, _, _ => false
  end.

(** [bound_export_overload_slot::operator()], and that of the empty set. *)
Definition slot_function (s : slot) : candidate set_parameter (contract T) :=
  mk_candidate (MutableSet :: map Param (parameters (slot_contract s))) (Some (slot_contract s)).
Definition empty_function : candidate set_parameter (contract T) := mk_candidate [ConstSet] None.

Definition bound_overload_set_flat (slots : list slot) : list (candidate set_parameter (contract T)) :=
  match slots with [] => [empty_function] | _ => map slot_function slots end.
Fixpoint bound_overload_set_recursive (slots : list slot) : list (candidate set_parameter (contract T)) :=
  match slots with
  | [] => [empty_function]
  | head :: tail => slot_function head :: bound_overload_set_recursive tail
  end.
Definition export_bound_overload_set (flat : bool) (slots : list slot) : list (candidate set_parameter (contract T)) :=
  if flat then bound_overload_set_flat slots else bound_overload_set_recursive slots.

(** The signature whose operator a call with converted arguments picks; [None] when it does
    not compile. *)
Definition call_arguments (ts : list T) : list set_argument := SetArg :: map Arg ts.
Definition resolve (flat : bool) (slots : list slot) (ts : list T) : option (contract T) :=
  select_in convertible better (export_bound_overload_set flat slots) (call_arguments ts).

Definition exact (x : set_argument) : set_parameter := match x with SetArg => MutableSet | Arg t => Param t end.

Lemma slot_function_exact s :
  select_parameters (slot_function s) = map exact (call_arguments (parameters (slot_contract s))).
Proof. unfold slot_function, call_arguments. simpl. f_equal. rewrite map_map. by apply map_ext. Qed.

Lemma elem_of_set flat slots f : f ∈ export_bound_overload_set flat slots ->
  selects f = None \/ exists s, s ∈ slots /\ f = slot_function s.
Proof.
  assert (f ∈ bound_overload_set_recursive slots -> selects f = None \/ exists s, s ∈ slots /\ f = slot_function s) as Hrec.
  { induction slots as [|s slots IH]; simpl; [intros ->%list_elem_of_singleton; by left|].
    intros [->|Hf]%elem_of_cons; [right; exists s; split; [left|done]|].
    destruct (IH Hf) as [|(t & Ht & ->)]; [by left|right]. exists t. split; [by right|done]. }
  destruct flat; [|done]. simpl. destruct slots as [|s slots]; [exact Hrec|].
  intros (t & -> & Ht)%list_elem_of_fmap. right. by exists t.
Qed.
Lemma slot_in_set flat slots s : s ∈ slots -> slot_function s ∈ export_bound_overload_set flat slots.
Proof.
  intros Hs. destruct flat; simpl.
  - destruct slots; [by apply not_elem_of_nil in Hs|]. by apply list_elem_of_fmap_2.
  - induction slots as [|t slots IH]; [by apply not_elem_of_nil in Hs|]. simpl.
    apply elem_of_cons in Hs as [->|Hs]; [left|right; by apply IH].
Qed.

(** Types of arguments that are passed as what they are declared: values, and references
    that are passed on. Nothing is better than that. *)
Context (is_value : T -> Prop) (identity_converts : forall t, is_value t -> converts t t = true)
  (identity_best : forall t u, is_value t -> better_conversion t u t = false).

Lemma exact_unbeaten ts s f : Forall is_value ts -> parameters (slot_contract s) = ts ->
  better_function better (call_arguments ts) f (slot_function s) = false.
Proof.
  intros Hts Hp. unfold better_function. rewrite slot_function_exact, Hp. apply andb_false_iff. left.
  unfold call_arguments. destruct (select_parameters f) as [|p ps]; [done|]. clear Hp.
  change (better SetArg p MutableSet || some_better (better) (map Arg ts) ps (map exact (map Arg ts)) = false).
  assert (better SetArg p MutableSet = false) as -> by by destruct p. simpl.
  revert ps. induction Hts as [|t ts Ht _ IH]; intros [|q qs]; try done. simpl. rewrite IH, orb_false_r.
  destruct q; try done. by apply identity_best.
Qed.
Lemma exact_viable s : Forall is_value (parameters (slot_contract s)) ->
  Overloads.viable convertible (call_arguments (parameters (slot_contract s))) (slot_function s) = true.
Proof.
  unfold Overloads.viable. rewrite slot_function_exact. unfold call_arguments. simpl.
  generalize (parameters (slot_contract s)). intros ts Hts.
  induction Hts as [|t ts Ht _ IH]; [done|]. simpl. by rewrite identity_converts, IH.
Qed.

(** A call that compiles with the types of a bound signature picks that signature. *)
Lemma resolve_exact flat slots s c : s ∈ slots -> Forall is_value (parameters (slot_contract s)) ->
  resolve flat slots (parameters (slot_contract s)) = Some c -> c = slot_contract s.
Proof.
  intros Hs Hv (f & Hf & Hc & Hvf & Hbest)%select_in_best.
  destruct (Hbest (slot_function s)) as [Heq|Hbeat]; [by apply slot_in_set|by apply exact_viable|by injection Heq|].
  by rewrite exact_unbeaten in Hbeat.
Qed.
End Set_.
Arguments set_parameter : clear implicits.
Arguments set_argument : clear implicits.

(** ** The builder *)

Section Builder.
Context {T A D Target ClassTarget Binder Object Callable Source Context_ W C Y E R : Type} `{EqDecision T} `{ErrorPolicy}.
Local Abbreviation slot := (bound_export_overload_slot (T := T) (C := C)).
Context (b : backend_t T A D Target ClassTarget Binder Object Callable Source Context_ W) (k : compiler T C Y E).
Context (overload_binder : list (contract T) * (C + list slot) -> Binder).
Context (converts : T -> T -> bool) (better_conversion : T -> T -> T -> bool).
(** The type of a call of an operator; the functions that are bound, the initialisation of
    the parameters of an operator, the conversion to its result, and the result of a void one. *)
Context (expression_of : option T -> E) (call_bound : C -> list A -> eff W R)
  (pass : list T -> list A -> eff W (list A)) (convert_result : T -> R -> eff W R) (void_result : R).

(** A set as the callable of a binder. *)
Definition set_compiler (flat : bool) : compiler T (C + list slot) Y E :=
  mk_compiler (is_bridge_param k) (is_reference_result k) (is_bridge_descriptor_type k) (dynamic_value_t k)
    (try_make_formed k)
    (fun f ts => match f with
                 | inl f => call_type k f ts
                 | inr slots => c ← resolve converts better_conversion flat slots ts; Some (expression_of (result_type c))
                 end)
    (fun clazz f ts => match f with inl f => member_call_type k clazz f ts | inr _ => None end)
    (to_export_result_formed k) (receiver_formed k).

(** [export_free_callable_group_builder]: [bind] and [commit]. *)
Record export_free_callable_group_builder := mk_group_builder { target_ : Target; slots_ : list slot }.

Definition group_bind_callable (declared : list (contract T)) (c : contract T) (f : C) (builder : export_free_callable_group_builder)
  : export_free_callable_group_builder + build_error :=
  match bind_group declared (is_export_callable_bindable k) c f (slots_ builder) with
  | inl slots => inl (mk_group_builder (target_ builder) slots)
  | inr e => inr e
  end.
Definition commit (flat : bool) (declared : list (contract T)) (name : string) (builder : export_free_callable_group_builder)
  : eff W unit + (build_error + assertion) :=
  match build declared (slots_ builder) with
  | inr e => inr (inl e)
  | inl slots =>
      match export_free_callable_overloads_impl b (set_compiler flat) overload_binder declared (target_ builder) name (inr slots) with
      | inl define => inl define
      | inr e => inr (inr e)
      end
  end.
Fixpoint group_binds (declared : list (contract T)) (binds : list (contract T * C)) (builder : export_free_callable_group_builder)
  : export_free_callable_group_builder + build_error :=
  match binds with
  | [] => inl builder
  | (c, f) :: binds => match group_bind_callable declared c f builder with inl builder => group_binds declared binds builder | inr e => inr e end
  end.

(** A call of an operator, and of the set with arguments converted for a signature. *)
Definition slot_call (s : slot) (args : list A) : eff W R :=
  args ← pass (parameters (slot_contract s)) args;
  r ← call_bound (slot_callable s) args;
  match result_type (slot_contract s) with
  | Some t => convert_result t r
  | None => mret void_result
  end.
Fixpoint slot_of (c : contract T) (slots : list slot) : option slot :=
  match slots with [] => None | s :: slots => if decide (slot_contract s = c) then Some s else slot_of c slots end.
Definition set_target (flat : bool) (slots : list slot) : target (T := T) (A := A) (R := R) (W := W) := fun c args =>
  match resolve converts better_conversion flat slots (parameters c) with
  | Some picked => match slot_of picked slots with Some s => slot_call s args | None => undefined_behaviour end
  | None => undefined_behaviour
  end.

(** What the program bound to each signature. *)
Definition bound_by (binds : list (contract T * C)) : target (T := T) (A := A) (R := R) (W := W) := fun c args =>
  match list_find (fun cf => cf.1 = c) binds with
  | Some (_, (c, f)) => slot_call (mk_slot c f) args
  | None => undefined_behaviour
  end.
Definition slots_of (binds : list (contract T * C)) : list slot := map (fun cf => mk_slot cf.1 cf.2) binds.

Lemma group_binds_all declared binds : forall builder builder',
  group_binds declared binds builder = inl builder' ->
  target_ builder' = target_ builder /\
  bind_all (bind_group declared (is_export_callable_bindable k)) binds (slots_ builder) = inl (slots_ builder').
Proof.
  induction binds as [|[c f] binds IH]; intros builder builder' Hb; simpl in *; [by simplify_eq|].
  unfold group_bind_callable in Hb. destruct (bind_group _ _ c f (slots_ builder)) as [slots|]; [|done].
  by apply IH in Hb.
Qed.
Lemma slot_of_slots_of c binds : slot_of c (slots_of binds) = (fun p => mk_slot p.2.1 p.2.2) <$> list_find (fun cf => cf.1 = c) binds.
Proof.
  induction binds as [|[d f] binds IH]; [done|]. simpl. destruct (decide (d = c)); [done|].
  rewrite IH. by destruct (list_find _ binds) as [[]|].
Qed.
End Builder.

(** ** Dispatch to targets that agree on the declared signatures *)

Section Agree.
Context {T D N A R W : Type} `{ErrorPolicy} {B : ExportBackend T D N A R W}.
Context (order : nat -> list nat) (callable callable' : target (T := T) (A := A) (R := R) (W := W)).

Lemma candidate_agree c f :
  (forall args w, callable c args w = callable' c args w) ->
  candidate_call_optional order callable c f = candidate_call_optional order callable' c f.
Proof.
  intros Hc. unfold candidate_call_optional, call_impl. do 2 (apply eff_bind_cong; intros ???).
  case_match; [|done]. do 2 (apply eff_bind_cong; intros ???). case_match; [|done].
  apply eff_bind_cong. intros args g _. unfold mbind at 1 3, eff_bind at 1 3.
  assert (on_world (callable c args) g = on_world (callable' c args) g) as -> by (unfold on_world; by rewrite Hc).
  done.
Qed.
Lemma overload_call_agree cs argc sa f :
  (forall c args w, c ∈ cs -> is_unmatched_free_callable c = false -> callable c args w = callable' c args w) ->
  overload_call_optional order cs callable argc sa f = overload_call_optional order cs callable' argc sa f.
Proof.
  revert f. induction cs as [|c cs IH]; intros f Hcs; simpl; [done|].
  assert (forall g, overload_call_optional order cs callable argc sa g = overload_call_optional order cs callable' argc sa g) as Hrest.
  { intros g. apply IH. intros d args w Hd. apply Hcs. by right. }
  destruct (is_unmatched_free_callable c) eqn:Hu; [apply Hrest|]. destruct (can_access sa c); [|apply Hrest].
  destruct (Nat.eqb argc (callable_arity c)); [|apply Hrest].
  transitivity ((result ← candidate_call_optional order callable c;
     match result with Some d => mret (Some d) | None => overload_call_optional order cs callable' argc sa end) f).
  - apply eff_bind_cong. intros [d|] g _; [done|apply Hrest].
  - unfold mbind, eff_bind. rewrite candidate_agree; [done|]. intros args w. apply Hcs; [left|done].
Qed.
End Agree.

(** ** What a committed group calls *)

Section Committed.
Context {T A D N Target ClassTarget Binder Object Callable Source Context_ W C Y E R : Type} `{EqDecision T} `{ErrorPolicy}.
Local Abbreviation slot := (bound_export_overload_slot (T := T) (C := C)).
Context (b : backend_t T A D Target ClassTarget Binder Object Callable Source Context_ W) (k : compiler T C Y E).
Context (overload_binder : list (contract T) * (C + list slot) -> Binder).
Context (converts : T -> T -> bool) (better_conversion : T -> T -> T -> bool).
Context (expression_of : option T -> E) (call_bound : C -> list A -> eff W R)
  (pass : list T -> list A -> eff W (list A)) (convert_result : T -> R -> eff W R) (void_result : R).
Context (is_value : T -> Prop) (identity_converts : forall t, is_value t -> converts t t = true)
  (identity_best : forall t u, is_value t -> better_conversion t u t = false).

Local Abbreviation set_target := (set_target converts better_conversion call_bound pass convert_result void_result).
Local Abbreviation bound_by := (bound_by call_bound pass convert_result void_result).
Local Abbreviation resolve := (resolve converts better_conversion).

(** A chain of binds up to a commit that compiles. *)
Definition committed (flat : bool) (declared : list (contract T)) (target : Target) (name : string)
    (binds : list (contract T * C)) (slots : list slot) (define : eff W unit) : Prop :=
  group_binds k declared binds (mk_group_builder target []) = inl (mk_group_builder target slots) /\
  commit b k overload_binder converts better_conversion expression_of flat declared name (mk_group_builder target slots) = inl define.

Lemma committed_slots flat declared target name binds slots define :
  committed flat declared target name binds slots define ->
  NoDup (map slot_contract slots) /\ slots = slots_of binds /\
  (forall c, c ∈ declared -> is_unmatched_free_callable c = false ->
     c ∈ map slot_contract slots /\ is_Some (resolve flat slots (parameters c))).
Proof.
  intros [[_ Hb]%group_binds_all Hc]. simpl in Hb.
  destruct (bind_all_wf declared (is_export_callable_bindable k) binds [] slots Hb) as ((Hnd & _) & -> & _).
  { split; [constructor|set_solver]. }
  simpl in Hnd, Hc |- *. fold (slots_of binds) in Hnd, Hc |- *.
  split_and!; [done..|]. intros c Hin Hu. unfold commit, build in Hc. simpl in Hc.
  destruct (is_export_overload_builder_complete declared _) eqn:Hfull; [|done]. rewrite (complete_spec (is_export_callable_bindable k)) in Hfull.
  split; [by apply Hfull|].
  assert (compiles (export_free_callable_overloads_impl b (set_compiler k converts better_conversion expression_of flat)
            overload_binder declared target name (inr (slots_of binds))) = true) as Hcomp.
  { by destruct (export_free_callable_overloads_impl _ _ _ _ _ _ _). }
  rewrite export_overloads_compile, !andb_true_iff in Hcomp. destruct Hcomp as [[_ Hcomp] _].
  unfold are_export_overloads_bindable in Hcomp. rewrite forallb_forall in Hcomp.
  specialize (Hcomp c ltac:(by apply list_elem_of_In)). unfold is_export_overload_contract_bindable in Hcomp. rewrite Hu in Hcomp.
  unfold is_export_callable_bindable in Hcomp. rewrite !andb_true_iff in Hcomp. destruct Hcomp as [_ Hcall].
  simpl in Hcall. destruct (resolve flat (slots_of binds) (parameters c)); [by eexists|]. by destruct (result_type c).
Qed.

Lemma committed_resolves flat declared target name binds slots define c :
  committed flat declared target name binds slots define ->
  c ∈ declared -> is_unmatched_free_callable c = false -> Forall is_value (parameters c) ->
  resolve flat slots (parameters c) = Some c.
Proof.
  intros (_ & _ & Hall)%committed_slots Hc Hu Hv. destruct (Hall c Hc Hu) as [(s & -> & Hs)%list_elem_of_fmap [d Hd]].
  rewrite Hd. f_equal. by eapply (resolve_exact converts better_conversion is_value identity_converts identity_best).
Qed.

Lemma set_target_bound flat declared target name binds slots define c args :
  committed flat declared target name binds slots define ->
  c ∈ declared -> is_unmatched_free_callable c = false -> Forall is_value (parameters c) ->
  set_target flat slots c args = bound_by binds c args.
Proof.
  intros Hcom Hc Hu Hv. unfold BoundOverloads.set_target, BoundOverloads.bound_by. erewrite committed_resolves by done.
  destruct (committed_slots _ _ _ _ _ _ _ Hcom) as (_ & -> & _). rewrite slot_of_slots_of.
  destruct (list_find _ binds) as [[i [d f]]|]; done.
Qed.

Lemma commit_defines flat declared target name slots action :
  commit b k overload_binder converts better_conversion expression_of flat declared name (mk_group_builder target slots) = inl action ->
  define b target name (overload_binder (declared, inr slots)) = inl action.
Proof.
  unfold commit, build, export_free_callable_overloads_impl, create_export_overload_binder, static_assert. simpl.
  destruct (is_export_overload_builder_complete declared slots); [|done].
  destruct (has_backend_dynamic_value _); [|done]. simpl. destruct (are_export_overloads_bindable _ _ _); [|done]. simpl.
  by destruct (define b target name _) as [|e]; intros Hd; simplify_eq.
Qed.

(** C6: what a committed group calls: when a chain of binds compiles up to commit, the call
    that dispatch makes for a declared signature reaches the function that was bound to that
    signature, whatever the order of the binds and for flat and recursive sets alike, so
    that dispatch over the set is dispatch over the bound functions; it is this set that is
    defined under the name; and no two signatures of the group take the same parameters.
    The parameters are values; C++ resolution enters by its law that no conversion is better
    than the identity. *)
Theorem committed_group_calls_bound {BD : ExportBackend T D N A R W} flat declared target name binds slots action order argc sa f :
  committed flat declared target name binds slots action ->
  (forall c, c ∈ declared -> is_unmatched_free_callable c = false -> Forall is_value (parameters c)) ->
  overload_call_optional order declared (set_target flat slots) argc sa f =
    overload_call_optional order declared (bound_by binds) argc sa f /\
  define b target name (overload_binder (declared, inr slots)) = inl action /\
  (forall c d, c ∈ declared -> d ∈ declared -> is_unmatched_free_callable c = false ->
     is_unmatched_free_callable d = false -> parameters c = parameters d -> c = d).
Proof.
  intros Hcom Hv. split_and!.
  - apply overload_call_agree. intros c args w Hc Hu. by erewrite set_target_bound by eauto.
  - destruct Hcom as [_ Hc]. by apply commit_defines in Hc.
  - intros c d Hc Hd Huc Hud Hp. apply (f_equal (fun ts => resolve flat slots ts)) in Hp.
    erewrite !committed_resolves in Hp by eauto. by injection Hp.
Qed.
End Committed.

(** ** A group of three signatures *)

Module SetSample.
Local Abbreviation slot := (bound_export_overload_slot (T := param) (C := nat)).
(** Numbers convert to each other; the backend reads an unsigned number as such only when it
    is at least 100. *)
Definition converts (t u : param) : bool :=
  match t, u with (PInt | PUnsigned), (PInt | PUnsigned) => true | _, _ => bool_decide (t = u) end.
Definition better (t u v : param) : bool := bool_decide (t = u) && negb (bool_decide (u = v)).
Definition is_value (t : param) : Prop := match t with PObject _ => False | _ => True end.

Definition reads (t : param) (d : cpp_value) : bool :=
  match t, d with PInt, AInt z => z <? 100 | PUnsigned, AInt z => 100 <=? z | PString, AString _ => true | _, _ => false end.
Definition make (t : param) (d : cpp_value) : eff (list string) (option cpp_value * cpp_value) :=
  fun w => (Ok (if reads t d then Some d else None, d), w).
#[global] Instance dynamic : ExportBackend param cpp_value cpp_value cpp_value cpp_value (list string) := {|
  uses_rpc_export_probe := false; ExportDispatch.is_bridge_descriptor := fun _ => false;
  argument_probe := fun t d w => (Ok (reads t d), w); argument_try_make := make;
  argument_prepare := fun t d w => (Ok None, w); argument_get := fun t d w => (Ok d, w);
  to_export_result := fun t r w => (Ok r, w); undefined_value := fun w => (Ok (AInt 0), w) |}.

Definition runtime : backend_t param cpp_value cpp_value string unit (list (contract param) * (nat + list slot)) unit unit unit unit (list string) :=
  mk_backend (Some (fun target name _ w => (Ok tt, w ++ [name]))) None (fun _ => None) (fun _ _ => None) (fun _ => None) (fun _ => None)
    (fun _ => None) (fun _ => None) (fun _ => None) (fun _ => None) (fun _ => None) (fun _ => None) (fun _ => None).
Definition types : compiler param nat unit unit :=
  mk_compiler (fun _ => true) (fun _ => false) (fun _ => false) (Some tt) (fun _ _ => true) (fun _ _ => Some tt) (fun _ _ _ => None)
    (fun _ _ => true) (fun _ _ => false).

Definition c_int : contract param := mk_contract (Some PInt) [PInt] false.
Definition c_unsigned : contract param := mk_contract None [PUnsigned] false.
Definition c_text : contract param := mk_contract (Some PInt) [PString; PInt] false.
Definition declared : list (contract param) := [c_int; c_unsigned; c_text].
Definition binds : list (contract param * nat) := [(c_text, 3%nat); (c_unsigned, 2%nat); (c_int, 1%nat)].
Definition call_bound (f : nat) (args : list cpp_value) : eff (list string) cpp_value := fun w =>
  (Ok (AInt (Z.of_nat f)), w ++ [match f with 1 => "int" | 2 => "unsigned" | _ => "text" end])%nat.
Definition target (flat : bool) : ExportDispatch.target (T := param) (A := cpp_value) (R := cpp_value) (W := list string) :=
  set_target converts better call_bound (fun _ => mret) (fun _ => mret) (AInt 0) flat (slots_of binds).
Definition run (flat : bool) (args : list cpp_value) : outcome (option cpp_value) * list string :=
  let '(r, f) := overload_call_optional ExportDispatch.Sample.order declared (target flat) (length args) None (mk_frame args []) in
  (r, world f).

Example dispatched :
  map (run true) [[AInt 5]; [AInt 500]; [AString []; AInt 1]] =
    [(Ok (Some (AInt 1)), ["int"]); (Ok (Some (AInt 0)), ["unsigned"]); (Ok (Some (AInt 3)), ["text"])]%string.
Proof. by vm_compute. Qed.
Example same_for_recursive : map (run false) [[AInt 5]; [AInt 500]; []] = map (run true) [[AInt 5]; [AInt 500]; []].
Proof. by vm_compute. Qed.

(** Signatures with the same parameters do not compile, and neither does a group with a
    signature that is not bound. *)
Definition committing (flat : bool) (declared : list (contract param)) (slots : list slot) :=
  commit runtime types id converts better (fun _ => tt) flat declared "f" (mk_group_builder "module" slots).
Example same_parameters_refused :
  let d := mk_contract (Some PString) [PInt] false in
  committing true [c_int; d] (slots_of [(c_int, 1%nat); (d, 2%nat)]) = inr (inr overloads_not_bindable) /\
  committing false declared (slots_of [(c_int, 1%nat)]) = inr (inl incomplete).
Proof. by vm_compute. Qed.
End SetSample.

Lemma committed_group_calls_bound_witness :
  overload_call_optional ExportDispatch.Sample.order SetSample.declared (SetSample.target false) 1 None (mk_frame [AInt 500] []) =
  overload_call_optional ExportDispatch.Sample.order SetSample.declared
    (bound_by SetSample.call_bound (fun _ => mret) (fun _ => mret) (AInt 0) SetSample.binds) 1 None (mk_frame [AInt 500] []).
Proof.
  apply (committed_group_calls_bound (R := cpp_value) SetSample.runtime SetSample.types id SetSample.converts SetSample.better (fun _ => tt)
    SetSample.call_bound (fun _ => mret) (fun _ => mret) (AInt 0) SetSample.is_value
    ltac:(by intros []) ltac:(by intros [] []) false SetSample.declared "module" "f" SetSample.binds
    (slots_of SetSample.binds) (fun w => (Ok tt, w ++ ["f"]%string)) ExportDispatch.Sample.order 1 None (mk_frame [AInt 500] [])).
  - split; vm_compute; reflexivity.
  - intros c Hc _. repeat (apply elem_of_cons in Hc as [->|Hc]; [by repeat constructor|]). by apply not_elem_of_nil in Hc.
Defined.
