(* ===== verification/ImportGroups.v ===== *)
(** * callable.h and import_callable.h: groups of contracts as base classes

    A group of callables inherits from its contracts, so that a signature is declared when it
    is a base. A group of imported callables or constructors inherits a static function from
    each of its contracts, all under one name, and C++ overload resolution picks one: flat
    groups (C++17) with one using-declaration for all, recursive ones (C++14) with one per
    contract. *)

From Stdlib Require Import ZArith Lia.
From stdpp Require Import base list gmap.
From S2P Require Import Prelude Overloads ExportDispatch Registration Import ExportCore.

(** ** Groups of callables (callable.h) *)

Section CallableGroup.
(** [T] declared types, [V] receiver types; [None] is [no_receiver_t]. A type that is given as
    a contract is a [callable], or another one. *)
Context {T V : Type} `{EqDecision T, EqDecision V}.
Record callable := mk_callable { receiver_t : option V; signature_t : contract T }.
Inductive given_type := a_callable (c : callable) | another_type (n : nat).

#[export] Instance callable_eq_dec : EqDecision callable.
Proof. pose proof (OverloadBuilder.contract_eq_dec (T := T)). solve_decision. Defined.

Definition is_callable (t : given_type) : bool := match t with a_callable _ => true | another_type _ => false end.
Definition free_callable (c : contract T) : callable := mk_callable None c.

(** [callable_group]: its bases, its own and those of its bases; the assertion of a head that is
    no callable is [None]. *)
Fixpoint callable_group (contracts : list given_type) : option (list callable) :=
  match contracts with
  | [] => Some []
  | a_callable head :: tail => bases ← callable_group tail; Some (head :: bases)
  | another_type _ :: _ => None
  end.
Definition is_declared_free_callable (c : contract T) (group : list callable) : bool := bool_decide (free_callable c ∈ group).
Definition is_declared_member_callable (receiver : V) (c : contract T) (group : list callable) : bool :=
  bool_decide (mk_callable (Some receiver) c ∈ group).

Lemma callable_group_bases contracts bases :
  callable_group contracts = Some bases <-> contracts = map a_callable bases.
Proof.
  revert bases. induction contracts as [|[head|n] contracts IH]; intros bases; simpl.
  - split; [by intros [= <-]|by destruct bases].
  - split.
    + destruct (callable_group contracts) as [tail|] eqn:Ht; [|done]. intros [= <-]. simpl. f_equal. by apply IH.
    + destruct bases as [|b bases]; [done|]. intros [= -> ->]. by rewrite (proj2 (IH bases) eq_refl).
  - split; [done|by destruct bases].
Qed.

(** A free signature is no member of any class. *)
Lemma declared_apart receiver c : is_declared_member_callable receiver c [free_callable c] = false.
Proof. unfold is_declared_member_callable. by case_bool_decide as Hin; [apply list_elem_of_singleton in Hin|]. Qed.
End CallableGroup.
Arguments callable : clear implicits.
Arguments given_type : clear implicits.

(** ** Groups of imported callables and constructors (import_callable.h) *)

Section ImportGroup.
Context {T V X : Type} `{EqDecision T, EqDecision V}.

(** The parameters of [invoke] and [construct]: the context, a reference to the receiver, and
    the declared types; what arguments convert to is the language's. The contracts of a group are
    callables, which the groups assert. *)
Inductive static_parameter := ContextParameter | ReceiverParameter (v : V) | DeclaredParameter (t : T).
Context (convertible : X -> static_parameter -> bool) (better : X -> static_parameter -> static_parameter -> bool).
Local Abbreviation candidate := (Overloads.candidate static_parameter (callable T V)).

Definition import_function (c : callable T V) : candidate :=
  mk_candidate (ContextParameter :: match receiver_t c with Some v => [ReceiverParameter v] | None => [] end
                ++ map DeclaredParameter (parameters (signature_t c))) (Some c).
Definition import_callable_group_flat (cs : list (callable T V)) : list candidate := map import_function cs.
Fixpoint import_callable_group_recursive (cs : list (callable T V)) : list candidate :=
  match cs with
  | [] => [mk_candidate [] None]
  | head :: tail => import_function head :: import_callable_group_recursive tail
  end.

(** The call of [invoke] or [construct]: a group that has a contract twice has a base twice,
    and is left out. *)
Definition select_import (flat : bool) (cs : list (callable T V)) (xs : list X) : option (callable T V) :=
  if decide (NoDup cs) then
    select_in convertible better (if flat then import_callable_group_flat cs else import_callable_group_recursive cs) xs
  else None.

Lemma import_group_recursive_flat cs :
  import_callable_group_recursive cs = import_callable_group_flat cs ++ [mk_candidate [] None].
Proof. unfold import_callable_group_flat. induction cs as [|c cs IH]; simpl; [done|]. by rewrite IH. Qed.

Lemma import_function_viable xs c :
  Overloads.viable convertible xs (import_function c) = true ->
  length xs = S (length (option_list (receiver_t c)) + callable_arity (signature_t c)).
Proof.
  unfold Overloads.viable, import_function. simpl. destruct xs as [|x xs]; [done|]. simpl.
  rewrite andb_true_iff. intros [_ Hv]. f_equal. unfold callable_arity.
  assert (forall ys ps, all2 convertible ys ps = true -> length ys = length ps) as Hlen.
  { induction ys as [|y ys IH]; intros [|p ps]; simpl; try done. rewrite andb_true_iff. intros [_ Hps]. f_equal. by apply IH. }
  apply Hlen in Hv. rewrite Hv, length_app, length_map. by destruct (receiver_t c).
Qed.

(** A call picks the one contract that is better than every other its arguments convert to,
    however the group inherits from its contracts and in whatever order they are declared; a
    deleted function is never picked. *)
Lemma select_import_iff flat cs xs c :
  select_import flat cs xs = Some c <-> NoDup cs /\ selected convertible better import_function cs xs c.
Proof.
  unfold select_import. case_decide as Hnd; [|naive_solver].
  destruct xs as [|x xs].
  - assert (forall d, Overloads.viable convertible [] (import_function d) = false) as Hno by done.
    split; [|by intros (_ & _ & _ & Hv & _)]. intros (f & Hf & Hc & Hv & _)%select_in_best.
    assert (f ∈ import_callable_group_recursive cs) as Hf'.
    { rewrite import_group_recursive_flat. destruct flat; [apply elem_of_app; by left|by rewrite <- import_group_recursive_flat]. }
    rewrite import_group_recursive_flat in Hf'. apply elem_of_app in Hf' as [(d & -> & _)%list_elem_of_fmap|Hd].
    + by rewrite Hno in Hv.
    + by apply list_elem_of_singleton in Hd as ->.
  - assert ((if flat then import_callable_group_flat cs else import_callable_group_recursive cs) =
       map import_function cs ++ (if flat then [] else [mk_candidate [] None])) as ->.
    { destruct flat; [by rewrite app_nil_r|apply import_group_recursive_flat]. }
    rewrite select_in_group; [naive_solver|done|]. split; [by left|]. by destruct flat; repeat constructor.
Qed.

Lemma select_import_agree flat flat' cs cs' xs :
  Permutation cs cs' -> select_import flat cs xs = select_import flat' cs' xs.
Proof.
  intros Hp. apply option_eq. intros c. rewrite !select_import_iff. by rewrite (selected_perm _ _ _ _ _ xs c Hp), Hp.
Qed.
Lemma select_import_arity flat cs xs c : select_import flat cs xs = Some c ->
  c ∈ cs /\ length xs = S (length (option_list (receiver_t c)) + callable_arity (signature_t c)).
Proof. intros (_ & Hc & _ & Hv & _)%select_import_iff. split; [done|by eapply import_function_viable]. Qed.
End ImportGroup.

(** ** Calls through a group *)

Section GroupCall.
Context {T A D R O W X : Type} `{EqDecision T}.
Context (convertible : X -> static_parameter (T := T) (V := T) -> bool)
  (better : X -> static_parameter (T := T) (V := T) -> static_parameter (T := T) (V := T) -> bool).
(** What the compiler finds out; and the conversions, the backend's call and the destructor of
    [Import]; [object_t(ctx, construct_object, ...)] and the receiver that is made of it. *)
Context (k : forward_compiler T T) (to_cast : T -> A -> eff W D) (destroy_value : D -> W -> W)
  (invoke_impl : contract (declared T) -> list D -> eff W R) (order : nat -> list nat)
  (construct_object : list (T * A) -> eff W O) (receiver_of : O -> eff W R).

Definition declared_contract (c : contract T) : contract (declared T) :=
  mk_contract (value_param <$> result_type c) (map value_param (parameters c)) (is_unmatched_free_callable c).

(** [import_callable::invoke]: with its assertions, and the receiver, when there is one, before
    the arguments. *)
Definition invoke_picked (c : callable T T) (actual : list A) : option (eff (import_state D W) R) :=
  match import_callable_compiled k (receiver_t c) (signature_t c) with
  | inr _ => None
  | inl _ =>
      let call := import_callable_invoke to_cast destroy_value invoke_impl order (declared_contract (signature_t c)) (parameters (signature_t c)) in
      match receiver_t c, actual with
      | None, actual => call None actual
      | Some r, self :: actual => call (Some (r, self)) actual
      | Some _, [] => None
      end
  end.
(** An argument is its type and its value; the first is the context. *)
Definition import_group_invoke (flat : bool) (cs : list (callable T T)) (args : list (X * A)) : option (eff (import_state D W) R) :=
  c ← select_import convertible better flat cs args.*1; invoke_picked c (tail args.*2).

(** [import_constructor::construct], and through a group. *)
Definition construct_picked (c : callable T T) (actual : list A) : option (eff W R) :=
  match import_constructor_compiled k (parameters (signature_t c)) with
  | inr _ => None
  | inl _ =>
      if (length actual =? callable_arity (signature_t c))%nat then
        Some (object ← construct_object (zip (parameters (signature_t c)) actual); receiver_of object)
      else None
  end.
Definition import_group_construct (flat : bool) (cs : list (callable T T)) (args : list (X * A)) : option (eff W R) :=
  c ← select_import convertible better flat cs args.*1; construct_picked c (tail args.*2).

(** A call that picks a contract has an argument for each of its parameters: it compiles
    exactly when the assertions of that contract hold. *)
Lemma import_group_invoke_compiles flat cs args c :
  select_import convertible better flat cs args.*1 = Some c ->
  import_group_invoke flat cs args = invoke_picked c (tail args.*2) /\
  (is_Some (import_group_invoke flat cs args) <-> compiles (import_callable_compiled k (receiver_t c) (signature_t c)) = true).
Proof.
  intros Hc. pose proof (select_import_arity _ _ _ _ _ _ Hc) as [_ Hlen]. unfold import_group_invoke. rewrite Hc. cbn [mbind option_bind].
  split; [done|]. unfold invoke_picked. destruct (import_callable_compiled _ _ _); [|by split; [intros []|]].
  split; [done|]. intros _. rewrite length_fmap in Hlen. destruct args as [|x args]; [done|]. simpl in *. injection Hlen as Hlen.
  unfold import_callable_invoke, callable_arity in *. destruct (receiver_t c) as [r|]; simpl in Hlen.
  - destruct args as [|self args]; [done|]. simpl in *. injection Hlen as Hlen. rewrite length_fmap, (proj2 (Nat.eqb_eq _ _) Hlen). by eexists.
  - rewrite length_fmap, (proj2 (Nat.eqb_eq _ _) Hlen). by eexists.
Qed.
Lemma import_group_construct_compiles flat cs args c :
  Forall (fun c => receiver_t c = None) cs -> select_import convertible better flat cs args.*1 = Some c ->
  is_Some (import_group_construct flat cs args) <-> compiles (import_constructor_compiled k (parameters (signature_t c))) = true.
Proof.
  intros Hfree Hc. pose proof (select_import_arity _ _ _ _ _ _ Hc) as [Hin Hlen]. unfold import_group_construct. rewrite Hc. cbn [mbind option_bind].
  rewrite Forall_forall in Hfree. rewrite (Hfree c Hin) in Hlen. simpl in Hlen. unfold construct_picked.
  destruct (import_constructor_compiled _ _); [|by split; [intros []|]]. split; [done|]. intros _.
  rewrite length_fmap in Hlen. destruct args as [|x args]; [done|]. simpl in *. injection Hlen as Hlen.
  rewrite length_fmap, (proj2 (Nat.eqb_eq _ _) Hlen). by eexists.
Qed.

(** The same contract is called whatever the group looks like. *)
Lemma import_group_invoke_agree flat flat' cs cs' args :
  Permutation cs cs' -> import_group_invoke flat cs args = import_group_invoke flat' cs' args.
Proof. intros Hp. unfold import_group_invoke. by rewrite (select_import_agree _ _ flat flat' _ _ _ Hp). Qed.
End GroupCall.

(** ** A group of two functions and a member *)

Module GroupSample.
Definition x_convertible (x : option nat) (p : static_parameter (T := nat) (V := nat)) : bool :=
  match x, p with None, ContextParameter => true | Some n, DeclaredParameter t => (n <=? t)%nat | Some n, ReceiverParameter v => (n =? v)%nat | _, _ => false end.
Definition x_better (x : option nat) (p q : static_parameter (T := nat) (V := nat)) : bool :=
  match p, q with DeclaredParameter t, DeclaredParameter u => (t <? u)%nat | _, _ => false end.
Definition f1 : callable nat nat := free_callable (mk_contract (Some 1%nat) [1%nat] false).
Definition f2 : callable nat nat := free_callable (mk_contract None [2%nat] false).
Definition m7 : callable nat nat := mk_callable (Some 7%nat) (mk_contract None [1%nat] false).
Definition pick (flat : bool) (xs : list (option nat)) : option (callable nat nat) := select_import x_convertible x_better flat [f2; f1; m7] xs.

Example picked : map (pick true) [[None; Some 1]; [None; Some 2]; [None; Some 7; Some 0]; [None; Some 3]; []]%nat =
  [Some f1; Some f2; Some m7; None; None].
Proof. by vm_compute. Qed.
Example picked_alike : map (pick false) [[None; Some 1]; [None; Some 2]; []]%nat = map (pick true) [[None; Some 1]; [None; Some 2]; []]%nat.
Proof. by vm_compute. Qed.
Example bases : callable_group [a_callable f1; a_callable m7] = Some [f1; m7] /\ callable_group [a_callable f1; @another_type nat nat 0] = None /\
  is_declared_member_callable 7%nat (signature_t m7) [f1; m7] = true /\ is_declared_free_callable (signature_t m7) [f1; m7] = false.
Proof. by vm_compute. Qed.
End GroupSample.
