(* ===== verification/Published.v ===== *)
(** * The classes that a registration publishes

    What a backend promises of the classes of its runtime, as an interface ([ClassObjects]);
    what a class offers once [register_all] has returned, for every backend that keeps that
    promise, and for the table that the registrar was generated from; and the Node-API
    backend as an instance. *)

From Stdlib Require Import ZArith Lia.
From stdpp Require Import base list strings gmap.
From S2P Require Import Prelude ExportDispatch Registration Import Generate Declarations ImportGenerate ExportGenerate ExportCore.

(** ** The interface *)

Section Interface.
Context {T A D Target ClassTarget Binder Object Callable Source Context_ W I : Type}.

(** The class objects of a runtime: where one can be made, which are usable, what is found under the name of a
    member, and the constructor, as the backend tells constructors apart. *)
Record class_objects := mk_classes {
  ready : W -> Target -> Prop;
  usable : W -> ClassTarget -> Prop;
  attribute : W -> ClassTarget -> string -> option Binder;
  initializer : W -> ClassTarget -> option I;
  constructor_of : string -> list T -> I
}.

(** Defining a class makes a usable one. A definition on it that returns sets one attribute,
    or the constructor, whatever was there, and nothing else; storing it changes neither. *)
Class ClassObjects (b : backend_t T A D Target ClassTarget Binder Object Callable Source Context_ W) (v : class_objects) : Prop := {
  class_made clazz f target name w t w' :
    define_class_impl b clazz = Some f -> ready v w target -> f target name w = (Ok t, w') -> usable v w' t;
  member_set f w t name x w' :
    define_member_impl b = Some f -> usable v w t -> f t name x w = (Ok tt, w') ->
    usable v w' t /\ (forall n, attribute v w' t n = if decide (n = name) then Some x else attribute v w t n) /\
    initializer v w' t = initializer v w t;
  constructor_set clazz ps f w t w' :
    define_constructor_impl b clazz ps = Some f -> usable v w t -> f t w = (Ok tt, w') ->
    usable v w' t /\ (forall n, attribute v w' t n = attribute v w t n) /\ initializer v w' t = Some (constructor_of v clazz ps);
  class_stored clazz f w t w' :
    store_export_class_impl b clazz = Some f -> usable v w t -> f t w = (Ok tt, w') ->
    (forall n, attribute v w' t n = attribute v w t n) /\ initializer v w' t = initializer v w t
}.
End Interface.
Arguments class_objects : clear implicits.

(** ** What is published *)

Section Published.
Context {T A D Target ClassTarget Binder Object Callable Source Context_ W I C Y R : Type} `{EqDecision T}.
Context (b : backend_t (cxx_type T) A D Target ClassTarget Binder Object Callable Source Context_ W)
  (k : compiler (cxx_type T) C Y R) (v : class_objects (cxx_type T) Target ClassTarget Binder W I) `{!ClassObjects b v}.
Context (export_constructor_group_for : string -> list (contract (cxx_type T)))
  (is_constructible : string -> list (cxx_type T) -> bool)
  (export_member_forwarder : string -> contract (cxx_type T) -> C)
  (binder_of : string * contract (cxx_type T) * C -> Binder).
Abbreviation registration := (registration (T := T)).
Abbreviation step_of := (registration_step b k export_constructor_group_for is_constructible export_member_forwarder binder_of).
Abbreviation steps_of := (compile_steps b k export_constructor_group_for is_constructible export_member_forwarder binder_of).
Abbreviation register := (register_all b k export_constructor_group_for is_constructible export_member_forwarder binder_of).

(** The registrations under one name, and the binder of one. *)
Definition members_named (name : string) (rs : list registration) : list (string * contract (cxx_type T)) :=
  omap (fun r => match r with registered_member n tag c => if decide (n = name) then Some (tag, c) else None | _ => None end) rs.
Definition member_binder (clazz : string) (m : string * contract (cxx_type T)) : Binder :=
  binder_of (clazz, m.2, export_member_forwarder m.1 m.2).

(** A registration, as the class sees it. *)
Lemma step_sets clazz r step w t w' :
  step_of clazz r = inl step -> usable v w t -> step t w = (Ok tt, w') ->
  usable v w' t /\
  (forall n, attribute v w' t n = from_option (fun m => Some (member_binder clazz m)) (attribute v w t n) (last (members_named n [r]))) /\
  initializer v w' t = from_option (fun ps => Some (constructor_of v clazz ps)) (initializer v w t) (last (registered_constructors [r])).
Proof.
  intros Hr Hu Hw. apply registration_step_hook in Hr. destruct r as [ps|name tag c]; simpl.
  - by eapply constructor_set.
  - destruct Hr as (f & Hf & ->). destruct (member_set _ _ _ _ _ _ Hf Hu Hw) as (Hu' & Ha & Hi). split_and!; [done| |done].
    intros n. rewrite Ha. destruct (decide (n = name)) as [->|Hne].
    + by rewrite decide_True.
    + by rewrite decide_False.
Qed.

Lemma last_default {X Y'} (f : X -> option Y') d l1 l2 :
  from_option f (from_option f d (last l1)) (last l2) = from_option f d (last (l1 ++ l2)).
Proof.
  destruct l2 as [|x l2] using rev_ind; simpl; [by rewrite app_nil_r|]. by rewrite app_assoc, !last_snoc.
Qed.

Lemma members_named_app name rs1 rs2 : members_named name (rs1 ++ rs2) = members_named name rs1 ++ members_named name rs2.
Proof. apply omap_app. Qed.
Lemma registered_constructors_app (rs1 rs2 : list registration) :
  registered_constructors (rs1 ++ rs2) = registered_constructors rs1 ++ registered_constructors rs2.
Proof. apply omap_app. Qed.

(** The steps that all return: every name has the last of what was registered under it. *)
Lemma steps_set clazz rs : forall steps w t w',
  steps_of clazz rs = inl steps -> usable v w t -> run_steps steps t w = (Ok tt, w') ->
  usable v w' t /\
  (forall n, attribute v w' t n = from_option (fun m => Some (member_binder clazz m)) (attribute v w t n) (last (members_named n rs))) /\
  initializer v w' t = from_option (fun ps => Some (constructor_of v clazz ps)) (initializer v w t) (last (registered_constructors rs)).
Proof.
  induction rs as [|r rs IH]; intros steps w t w'; simpl; [by intros [= <-] Hu [= <-]|].
  destruct (step_of clazz r) as [step|] eqn:Hr; [|done]. simpl.
  destruct (steps_of clazz rs) as [steps'|]; [|done]. intros [= <-] Hu. simpl. unfold mbind, eff_bind.
  destruct (step t w) as [[[]| | |] w1] eqn:Hs; try done. intros Hrun.
  destruct (step_sets _ _ _ _ _ _ Hr Hu Hs) as (Hu1 & Ha1 & Hi1). destruct (IH _ _ _ _ eq_refl Hu1 Hrun) as (Hu' & Ha' & Hi').
  split_and!; [done| |].
  - intros n. by rewrite Ha', Ha1, last_default, <- members_named_app.
  - by rewrite Hi', Hi1, last_default, <- registered_constructors_app.
Qed.

Lemma register_all_publishes clazz rs run target w w' :
  register clazz rs = inl run -> ready v w target -> run target w = (Ok tt, w') ->
  exists t w1, (exists define, define_class_impl b clazz = Some define /\ define target clazz w = (Ok t, w1)) /\
    (forall n, attribute v w' t n = from_option (fun m => Some (member_binder clazz m)) (attribute v w1 t n) (last (members_named n rs))) /\
    initializer v w' t = from_option (fun ps => Some (constructor_of v clazz ps)) (initializer v w1 t) (last (registered_constructors rs)).
Proof.
  intros (define & steps & store & Hdef & Hsteps & Hstore & ->)%register_all_hooks Hw. unfold mbind, eff_bind.
  destruct (define target clazz w) as [[t| | |] w1] eqn:Hd; try done.
  pose proof (class_made _ _ _ _ _ _ _ Hdef Hw Hd) as Hu.
  destruct (run_steps steps t w1) as [[[]| | |] w2] eqn:Hrun; try done. intros Hs.
  destruct (steps_set _ _ _ _ _ _ Hsteps Hu Hrun) as (Hu2 & Ha & Hi). destruct (class_stored _ _ _ _ _ Hstore Hu2 Hs) as [Ha' Hi'].
  exists t, w1. split_and!; [eauto| |].
  - intros n. by rewrite Ha', Ha.
  - by rewrite Hi', Hi.
Qed.

(** ** The table *)

Context (is_reference : T -> bool).
Abbreviation group := (group (declared_signature (T := T))).

Lemma members_named_overloads member rs : (members_named member rs).*2 = registered_overloads member rs.
Proof.
  unfold members_named, registered_overloads. induction rs as [|[ps|n tag c] rs IH]; [done|exact IH|]. simpl.
  case_decide; [exact (f_equal (cons c) IH)|exact IH].
Qed.
Lemma registered_from_groups member gss items :
  registered_overloads member (flat_map (group_registrations (T := T) "Host") (mjoin gss) ++ flat_map item_registered items) =
  flat_map contracts_of (groups_named member (mjoin gss ++ methods_of items)).
Proof.
  unfold registered_overloads at 1. rewrite omap_app. fold (registered_overloads member (flat_map (group_registrations (T := T) "Host") (mjoin gss))).
  fold (registered_overloads member (flat_map item_registered items)).
  by rewrite registered_overloads_groups, registered_overloads_items, <- flat_map_app, <- groups_named_app.
Qed.
Lemma constructors_from_items gss items :
  registered_constructors (flat_map (group_registrations (T := T) "Host") (mjoin gss) ++ flat_map item_registered items) =
  map parameters (constructors items).
Proof. by rewrite registered_constructors_app, no_constructors, registered_constructors_items. Qed.

(** C12: when the registration that was generated for a class returns, a member group of the
    class or of one of its interfaces is published with its last signature, and the class
    with its last constructor: each definition replaces the one before it. A name without a
    group is what it was in the new class. *)
Theorem registration_publishes_last ims i x ib xb ds line ns clazz items last_line gss rs run target w w' :
  Forall (on_side false) i -> Forall (on_side true) x ->
  elaborate is_reference ims i = Some ib -> elaborate is_reference export_types x = Some xb ->
  generates_exports is_reference (write i) (write x) ds -> no_redefinition (library ds) ->
  ClassBlock line ns clazz items last_line ∈ xb -> mapM (interface_methods xb) (implemented items) = Some gss ->
  NoDup (constructors items) -> class_registrations (library ds) clazz = Some rs ->
  register clazz rs = inl run -> ready v w target -> run target w = (Ok tt, w') ->
  exists t w1, (exists define, define_class_impl b clazz = Some define /\ define target clazz w = (Ok t, w1)) /\
    (forall member g, groups_named member (mjoin gss ++ methods_of items) = [g] ->
      match last (contracts_of g) with
      | Some c => exists tag, attribute v w' t member = Some (member_binder clazz (tag, c))
      | None => attribute v w' t member = attribute v w1 t member
      end) /\
    (forall member, groups_named member (mjoin gss ++ methods_of items) = [] -> attribute v w' t member = attribute v w1 t member) /\
    initializer v w' t =
      match last (constructors items) with
      | Some c => Some (constructor_of v clazz (parameters c))
      | None => initializer v w1 t
      end.
Proof.
  intros Hi Hx Hib Hxb Hds Hscope Hc Hgss Hnd Hrs Hrun Hw Hret.
  pose proof (generates_export_declarations _ _ _ _ _ _ _ Hi Hx Hib Hxb Hds) as ->.
  rewrite (class_registered xb Hscope _ _ _ _ _ _ Hc Hgss) in Hrs; [injection Hrs as <-|by eapply elaborated_constructors|done].
  destruct (register_all_publishes _ _ _ _ _ _ Hrun Hw Hret) as (t & w1 & Hd & Ha & Hini). exists t, w1. split; [done|].
  assert (forall member, snd <$> last (members_named member (flat_map (group_registrations "Host") (mjoin gss) ++ flat_map item_registered items))
    = last (flat_map contracts_of (groups_named member (mjoin gss ++ methods_of items)))) as Hlast.
  { intros member. by rewrite <- fmap_last, members_named_overloads, registered_from_groups. }
  split_and!.
  - intros member g Hg. specialize (Hlast member). rewrite Hg in Hlast. simpl in Hlast. rewrite app_nil_r in Hlast. rewrite Ha.
    destruct (last (members_named member _)) as [[tag c]|]; simpl in *; rewrite <- Hlast; [by exists tag|done].
  - intros member Hg. specialize (Hlast member). rewrite Hg in Hlast. rewrite Ha. by destruct (last (members_named member _)).
  - rewrite Hini, constructors_from_items. change (map parameters ?l) with (parameters <$> l). rewrite fmap_last.
    by destruct (last (constructors items)).
Qed.
End Published.
