(* ===== verification/RpcRouter.v ===== *)
(** * The RPC router: routes, definition and dispatch

    rpc.h, [router] and its [route]: a vector of routes sorted by symbol identifier,
    each owning the binder it was made from. Binders live on a heap, so that leaks and
    double deletions are visible. *)

From Stdlib Require Import ZArith Lia Sorting.Sorted.
From stdpp Require Import base list gmap.
From S2P Require Import Prelude Bytes RpcValue RpcCodec Interface ExportDispatch.

Module rpc_router.

(** A route: its identifier and name, and the state pointer; the invoke and destroy
    functions are those of the binder it points to. *)
Record route := mk_route { id_ : Z; name_ : text; state_ : option nat }.

(** What a route can be made from: a binder of the library, or one of the user's own,
    with overloads or with one typed signature; those of the user see the arguments
    as constants. *)
Inductive binder (T A R W : Type) :=
| LibraryBinder (b : export_overload_binder (T := T) (A := A) (R := R) (W := W))
| CustomOverloads (dispatch_optional : nat -> list value -> eff W (option value))
| CustomTyped (arity : nat) (call_optional : list value -> eff W (option value)).
Arguments LibraryBinder {T A R W}.
Arguments CustomOverloads {T A R W}.
Arguments CustomTyped {T A R W}.

(** The router, its binders, and the rest of the world. *)
Record server (T A R W : Type) := mk_server {
  routes_ : list route;
  binders : gmap nat (binder T A R W);
  next_state : nat;
  outside : W
}.
Arguments mk_server {T A R W}.
Arguments routes_ {T A R W}.
Arguments binders {T A R W}.
Arguments next_state {T A R W}.
Arguments outside {T A R W}.

(** [std::lower_bound]: binary search with a window of [len] elements at [first];
    every round at least halves the window, so its length is enough fuel. *)
Fixpoint lower_bound_loop (fuel : nat) (routes : list route) (value : Z) (first len : nat) : nat :=
  match fuel with
  | O => first
  | S fuel =>
      if Nat.eqb len 0 then first else
      let half := (len / 2)%nat in
      match routes !! (first + half)%nat with
      | Some candidate =>
          if id_ candidate <? value then lower_bound_loop fuel routes value (first + half + 1) (len - half - 1)
          else lower_bound_loop fuel routes value first half
      | None => first
      end
  end.
Definition lower_bound (routes : list route) (value : Z) : nat :=
  lower_bound_loop (length routes) routes value 0 (length routes).

Section Router.
Context {T N A R W : Type} `{ErrorPolicy} {B : ExportBackend T value N A R W}.
Context (order : nat -> list nat).
Local Abbreviation M := (eff (server T A R W)).
Local Abbreviation binder := (binder T A R W).

(** ** Routes *)

Definition set_routes (routes : list route) : M unit :=
  modify (fun s => mk_server routes (binders s) (next_state s) (outside s)).

(** [route::make]: the binder is moved to the heap; its move constructor may throw. *)
Definition new_binder (b : binder) : M nat := fun s =>
  (Ok (next_state s),
   mk_server (routes_ s) (<[next_state s := b]> (binders s)) (S (next_state s)) (outside s)).
Definition route_make (id : Z) (name : text) (b : outcome binder) : M route :=
  b ← lift b;
  p ← new_binder b;
  mret (mk_route id name (Some p)).

(** [destroy_binder]: deleting what is not there is undefined. *)
Definition destroy_binder (p : nat) : M unit := fun s =>
  match binders s !! p with
  | Some _ => (Ok tt, mk_server (routes_ s) (delete p (binders s)) (next_state s) (outside s))
  | None => (Undefined, s)
  end.

Definition route_reset (r : route) : M route :=
  match state_ r with
  | Some p => destroy_binder p ≫= fun _ => mret (mk_route (id_ r) (name_ r) None)
  | None => mret r
  end.

(** Move assignment: the target, and what is left of the source. *)
Definition route_move_assign (this other : route) : M (route * route) :=
  _ ← route_reset this;
  mret (mk_route (id_ other) (name_ other) (state_ other),
        mk_route (id_ other) (name_ other) None).

(** [invoke_binder] of the three kinds of binder. *)
Definition invoke_binder (b : binder) (args : list value) : eff W (option value) :=
  match b with
  | LibraryBinder b => fun w =>
      let '(r, f) := dispatch_optional order b (length args) None (mk_frame args w) in (r, world f)
  | CustomOverloads dispatch_optional => dispatch_optional (length args) args
  | CustomTyped arity call_optional =>
      if Nat.eqb (length args) arity then call_optional args else mret None
  end.

Definition route_invoke (r : route) (args : list value) : M (option value) := fun s =>
  match state_ r ≫= fun p => binders s !! p with
  | Some b => let '(o, w) := invoke_binder b args (outside s) in
              (o, mk_server (routes_ s) (binders s) (next_state s) w)
  | None => (Undefined, s)
  end.

(** ** The router *)

(** The name a [const char*] denotes ends at its first NUL. *)
Definition define (name : text) (b : outcome binder) : M unit :=
  let id := symbol_id name in
  routes ← gets routes_;
  let existing := lower_bound routes id in
  match routes !! existing with
  | Some r =>
      if id_ r =? id then
        if negb (bool_decide (name_ r = c_string name)) then
          raise (protocol_error (lit "RPC symbol hash collision"))
        else
          made ← route_make id (c_string name) b;
          moved ← route_move_assign r made;
          set_routes (<[existing := moved.1]> routes) ≫= fun _ =>
          _ ← route_reset moved.2; mret tt
      else
        made ← route_make id (c_string name) b;
        set_routes (take existing routes ++ made :: drop existing routes)
  | None =>
      made ← route_make id (c_string name) b;
      set_routes (take existing routes ++ made :: drop existing routes)
  end.

(** The body of [dispatch], inside its [try]. *)
Definition dispatch_body (frame : text) : M text :=
  match try_decode_request frame (mk_request 0 []) with
  | (false, _) => lift (encode_error (lit "invalid RPC request frame"))
  | (true, request) =>
      routes ← gets routes_;
      match routes !! lower_bound routes (method request) with
      | Some candidate =>
          if negb (id_ candidate =? method request) then lift (encode_error (lit "unknown RPC method"))
          else
            result ← route_invoke candidate (args request);
            match result with
            | None => lift (encode_error (lit "RPC argument conversion or arity mismatch"))
            | Some v => lift (encode_response v)
            end
      | None => lift (encode_error (lit "unknown RPC method"))
      end
  end.

(** The handlers, compiled in only with exceptions. *)
Definition dispatch (frame : text) : M text := fun s =>
  match dispatch_body frame s with
  | (Throw e, s') =>
      if has_exceptions then
        match what e with
        | Some message => (encode_error message, s')
        | None => (encode_error (lit "unknown RPC server failure"), s')
        end
      else (Throw e, s')
  | r => r
  end.

Definition size (s : server T A R W) : nat := length (routes_ s).

(** [~router]: the vector destroys its routes in order. *)
Fixpoint destroy_routes (routes : list route) : M unit :=
  match routes with
  | [] => mret tt
  | r :: rest => _ ← route_reset r; destroy_routes rest
  end.
Definition destroy_router : M unit :=
  routes ← gets routes_; destroy_routes routes ≫= fun _ => set_routes [].

(** [loopback_transport::round_trip]. *)
Definition round_trip (request : text) : M text := dispatch request.

(** ** Invariant *)

(** The routes are strictly sorted by identifier, each identifier is the hash of its
    name, and the binders of the heap are those of the routes, one each. *)
Record router_wf (s : server T A R W) : Prop := {
  wf_sorted : StronglySorted Z.lt (map id_ (routes_ s));
  wf_ids : forall r, r ∈ routes_ s -> id_ r = symbol_id (name_ r);
  wf_states : exists ps, Permutation (map state_ (routes_ s)) (map Some ps) /\ NoDup ps
              /\ forall p, is_Some (binders s !! p) <-> p ∈ ps;
  wf_fresh : forall p, is_Some (binders s !! p) -> (p < next_state s)%nat
}.

End Router.

(** ** Binary search *)

Section LowerBound.
Context (routes : list route) (sorted : StronglySorted Z.lt (map id_ routes)).

Lemma sorted_lookup i j r r' :
  routes !! i = Some r -> routes !! j = Some r' -> (i < j)%nat -> id_ r < id_ r'.
Proof.
  revert i j. induction routes as [|x l IH]; intros [|i] [|j] Hi Hj Hij; simpl in *; try lia; try done;
    inversion_clear sorted as [|? ? Hs Hall].
  - simplify_eq. eapply Forall_forall in Hall; [done|]. apply list_elem_of_fmap.
    exists r'. split; [done|]. by eapply list_elem_of_lookup_2.
  - eapply IH; eauto. lia.
Qed.

(** [n] is where the identifiers stop being less than [v]. *)
Definition partition_point (v : Z) (n : nat) : Prop :=
  (n <= length routes)%nat /\
  (forall i r, routes !! i = Some r -> (i < n)%nat -> id_ r < v) /\
  (forall i r, routes !! i = Some r -> (n <= i)%nat -> v <= id_ r).

Lemma lower_bound_loop_spec v fuel : forall first len,
  (len <= fuel)%nat -> (first + len <= length routes)%nat ->
  (forall i r, routes !! i = Some r -> (i < first)%nat -> id_ r < v) ->
  (forall i r, routes !! i = Some r -> (first + len <= i)%nat -> v <= id_ r) ->
  partition_point v (lower_bound_loop fuel routes v first len).
Proof.
  induction fuel as [|fuel IH]; intros first len Hf Hl Hlo Hhi; cbn -[Nat.div Nat.eqb].
  { replace len with 0%nat in * by lia. split_and!; [lia|done|]. intros i r Hi Hge. eapply Hhi; [done|lia]. }
  destruct (Nat.eqb_spec len 0) as [->|Hne].
  { split_and!; [lia|done|]. intros i r Hi Hge. eapply Hhi; [done|lia]. }
  assert (len / 2 < len)%nat as Hhalf by (apply Nat.div_lt; lia).
  destruct (lookup_lt_is_Some_2 routes (first + len / 2)) as [c Hc]; [lia|]. rewrite Hc.
  destruct (Z.ltb_spec (id_ c) v) as [Hlt|Hge]; apply IH; try lia.
  - intros i r Hi Hlti. destruct (decide (i = first + len / 2)%nat) as [->|Hn]; [by simplify_eq|].
    pose proof (sorted_lookup i (first + len / 2) r c Hi Hc). lia.
  - intros i r Hi Hgei. eapply Hhi; [done|lia].
  - done.
  - intros i r Hi Hgei. destruct (decide (i = first + len / 2)%nat) as [->|Hn]; [simplify_eq; lia|].
    pose proof (sorted_lookup (first + len / 2) i c r Hc Hi). lia.
Qed.

Lemma lower_bound_spec v : partition_point v (lower_bound routes v).
Proof.
  apply lower_bound_loop_spec; try lia. intros i r Hi Hge. apply lookup_lt_Some in Hi. lia.
Qed.

(** The route found is the one with the identifier, when there is one. *)
Lemma lower_bound_found v r :
  routes !! lower_bound routes v = Some r -> id_ r = v \/ forall r', r' ∈ routes -> id_ r' ≠ v.
Proof.
  intros Hr. destruct (decide (id_ r = v)) as [|Hne]; [by left|right].
  destruct (lower_bound_spec v) as (_ & Hlo & Hhi). intros r' (i & Hi)%list_elem_of_lookup_1 Heq.
  destruct (Nat.lt_trichotomy i (lower_bound routes v)) as [Hlt|[->|Hgt]].
  - specialize (Hlo _ _ Hi Hlt). lia.
  - congruence.
  - pose proof (sorted_lookup _ _ _ _ Hr Hi Hgt). pose proof (Hhi _ _ Hr (Nat.le_refl _)). lia.
Qed.

Lemma lower_bound_absent v :
  routes !! lower_bound routes v = None -> forall r', r' ∈ routes -> id_ r' ≠ v.
Proof.
  intros Hn%lookup_ge_None r' (i & Hi)%list_elem_of_lookup_1 Heq.
  destruct (lower_bound_spec v) as (_ & Hlo & _).
  assert (i < lower_bound routes v)%nat by (apply lookup_lt_Some in Hi; lia).
  specialize (Hlo _ _ Hi). lia.
Qed.
End LowerBound.

(** ** Lists with one element put in or replaced *)

Lemma insert_at_Permutation {X} (x : X) n l : Permutation (take n l ++ x :: drop n l) (x :: l).
Proof. rewrite <- Permutation_middle. by rewrite take_drop. Qed.

Lemma replace_at {X} (x y : X) n l :
  l !! n = Some x -> exists k, Permutation l (x :: k) /\ Permutation (<[n := y]> l) (y :: k).
Proof.
  intros Hn. exists (take n l ++ drop (S n) l). split.
  - rewrite <- (take_drop_middle l n x Hn) at 1. symmetry. apply Permutation_middle.
  - rewrite (insert_take_drop l n y) by by eapply lookup_lt_Some. symmetry. apply Permutation_middle.
Qed.

Lemma sorted_insert_at (v : Z) ids : forall n,
  StronglySorted Z.lt ids ->
  (forall i x, ids !! i = Some x -> (i < n)%nat -> x < v) ->
  (forall i x, ids !! i = Some x -> (n <= i)%nat -> v < x) ->
  StronglySorted Z.lt (take n ids ++ v :: drop n ids).
Proof.
  induction ids as [|x ids IH]; intros n Hs Hlo Hhi.
  { rewrite take_nil, drop_nil. repeat constructor. }
  inversion_clear Hs as [|? ? Hs' Hall]. destruct n as [|n]; simpl.
  - constructor; [by constructor|]. apply Forall_forall. intros y (i & Hi)%list_elem_of_lookup_1.
    apply (Hhi i y Hi). lia.
  - constructor.
    + apply IH; [done|intros i y Hi Hlt; apply (Hlo (S i) y Hi); lia|
                 intros i y Hi Hge; apply (Hhi (S i) y Hi); lia].
    + rewrite insert_at_Permutation. constructor; [|done]. apply (Hlo 0%nat x); [done|lia].
Qed.

Lemma symbol_id_c_string name : symbol_id (c_string name) = symbol_id name.
Proof.
  unfold symbol_id. generalize 14695981039346656037.
  induction name as [|c name IH]; intros hash; [done|]. simpl.
  case_bool_decide as Hc; simpl.
  - subst. done.
  - destruct (Z.eqb_spec (bval c) 0); [done|]. apply IH.
Qed.

Section Correctness.
Context {T N A R W : Type} `{ErrorPolicy} {B : ExportBackend T value N A R W}.
Local Abbreviation M := (eff (server T A R W)).
Local Abbreviation binder := (binder T A R W).
Local Abbreviation server := (server T A R W).
Implicit Types (s : server) (r : route).

(** The abstract router: a finite map from identifiers to names and binders. *)
Definition route_table s : gmap Z (text * binder) :=
  list_to_map (omap (fun r => match state_ r ≫= fun p => binders s !! p with
                              | Some b => Some (id_ r, (name_ r, b))
                              | None => None
                              end) (routes_ s)).

Lemma state_live s r :
  router_wf s -> r ∈ routes_ s -> exists p b, state_ r = Some p /\ binders s !! p = Some b.
Proof.
  intros [_ _ (ps & Hps & _ & Hlive) _] Hr.
  assert (state_ r ∈ map Some ps) as Hin.
  { rewrite <- Hps. by apply list_elem_of_fmap_2. }
  apply list_elem_of_fmap in Hin as (p & Hp & Hin). apply Hlive in Hin as [b Hb]. eauto.
Qed.

Lemma ids_unique s r r' : router_wf s -> r ∈ routes_ s -> r' ∈ routes_ s -> id_ r = id_ r' -> r = r'.
Proof.
  intros [Hs _ _ _] (i & Hi)%list_elem_of_lookup_1 (j & Hj)%list_elem_of_lookup_1 Heq.
  destruct (Nat.lt_trichotomy i j) as [Hlt|[->|Hlt]]; [|congruence|].
  - pose proof (sorted_lookup _ Hs _ _ _ _ Hi Hj Hlt). lia.
  - pose proof (sorted_lookup _ Hs _ _ _ _ Hj Hi Hlt). lia.
Qed.

Lemma StronglySorted_NoDup (l : list Z) : StronglySorted Z.lt l -> NoDup l.
Proof.
  induction 1 as [|x l _ IH Hall]; constructor; [|done]. intros Hin.
  eapply Forall_forall in Hall; [|done]. lia.
Qed.

Lemma table_lookup s k n b :
  router_wf s ->
  route_table s !! k = Some (n, b) <->
  exists r p, r ∈ routes_ s /\ id_ r = k /\ name_ r = n /\ state_ r = Some p /\ binders s !! p = Some b.
Proof.
  intros Hwf. unfold route_table. rewrite <- elem_of_list_to_map.
  - rewrite list_elem_of_omap. split.
    + intros (r & Hr & Hm). destruct (state_ r) as [p|] eqn:Hp; simpl in Hm; [|done].
      destruct (binders s !! p) eqn:Hb; simplify_eq. exists r, p. by rewrite Hb.
    + intros (r & p & Hr & <- & <- & Hp & Hb). exists r. split; [done|].
      rewrite Hp. simpl. by rewrite Hb.
  - pose proof (StronglySorted_NoDup _ (wf_sorted s Hwf)) as Hnd.
    induction (routes_ s) as [|r l IH]; [constructor|]. simpl in *.
    apply NoDup_cons in Hnd as [Hni Hnd].
    destruct (state_ r ≫= fun p => binders s !! p); simpl; [|by apply IH].
    constructor; [|by apply IH]. contradict Hni.
    apply list_elem_of_fmap in Hni as ((k' & x) & Hk & Hx). simpl in Hk. subst.
    apply list_elem_of_omap in Hx as (r' & Hr' & Hm).
    destruct (state_ r' ≫= fun p => binders s !! p); simplify_eq/=.
    apply list_elem_of_fmap. exists r'. split; [congruence|done].
Qed.

(** What a definition does to the routes, however they are arranged: [dead] is the
    route it replaces, if any, and [rest] the others. *)
Record stores s s' (id : Z) (name : text) (b : binder) (dead rest : list route) : Prop := {
  st_old : Permutation (routes_ s) (dead ++ rest);
  st_new : Permutation (routes_ s') (mk_route id name (Some (next_state s)) :: rest);
  st_dead : forall r, r ∈ dead -> id_ r = id;
  st_rest : forall r, r ∈ rest -> id_ r ≠ id;
  st_binders : forall p, binders s' !! p =
    if decide (p = next_state s) then Some b
    else if decide (Some p ∈ map state_ dead) then None else binders s !! p;
  st_next : next_state s' = S (next_state s)
}.

Lemma stores_states s s' id name b dead rest :
  router_wf s -> stores s s' id name b dead rest ->
  (exists ps, Permutation (map state_ (routes_ s')) (map Some ps) /\ NoDup ps
     /\ forall p, is_Some (binders s' !! p) <-> p ∈ ps) /\
  (forall p, is_Some (binders s' !! p) -> (p < next_state s')%nat) /\
  (forall r p, r ∈ rest -> state_ r = Some p -> p ≠ next_state s /\ Some p ∉ map state_ dead).
Proof.
  intros [_ _ (ps & Hps & Hnd & Hlive) Hfresh] [Hold Hnew _ _ Hb Hnext].
  rewrite Hold, map_app in Hps.
  assert (exists qd qr, map state_ dead = map Some qd /\ map state_ rest = map Some qr
            /\ Permutation ps (qd ++ qr)) as (qd & qr & Hqd & Hqr & Hperm).
  { apply Permutation_map_inv in Hps as (l & Heq & Hl).
    symmetry in Heq. apply map_eq_app in Heq as (qd & qr & -> & ? & ?). exists qd, qr.
    by split_and!. }
  rewrite Hperm in Hnd. apply NoDup_app in Hnd as (Hndd & Hdisj & Hndr).
  assert (forall p, p ∈ qd \/ p ∈ qr <-> is_Some (binders s !! p)) as Hin.
  { intros p. rewrite Hlive, Hperm, elem_of_app. done. }
  assert (next_state s ∉ qr) as Hnr.
  { intros Hp. assert (next_state s < next_state s)%nat by (apply Hfresh, Hin; by right). lia. }
  assert (forall p, Some p ∈ map state_ dead <-> p ∈ qd) as Hdead.
  { intros p. rewrite Hqd, list_elem_of_fmap. naive_solver. }
  split_and!.
  - exists (next_state s :: qr). split_and!.
    + rewrite Hnew. simpl. by rewrite Hqr.
    + by constructor.
    + intros p. rewrite Hb, elem_of_cons. destruct (decide (p = next_state s)); [naive_solver|].
      destruct (decide (Some p ∈ map state_ dead)) as [Hd|Hd]; rewrite Hdead in Hd.
      * split; [by intros []|]. intros [?|Hq]; [done|]. by destruct (Hdisj p Hd).
      * rewrite <- Hin. naive_solver.
  - intros p. rewrite Hb, Hnext. destruct (decide (p = next_state s)); [lia|].
    destruct (decide (Some p ∈ map state_ dead)); [by intros []|]. intros Hp%Hfresh. lia.
  - intros r p Hr Hp. assert (p ∈ qr) as Hq.
    { assert (Some p ∈ map state_ rest) as Hm by (rewrite <- Hp; by apply list_elem_of_fmap_2).
      rewrite Hqr, list_elem_of_fmap in Hm. naive_solver. }
    split; [congruence|]. rewrite Hdead. intros Hd. by apply (Hdisj p Hd).
Qed.

Lemma stores_table s s' id name b dead rest :
  router_wf s -> router_wf s' -> stores s s' id name b dead rest ->
  route_table s' = <[id := (name, b)]> (route_table s).
Proof.
  intros Hwf Hwf' Hst. destruct (stores_states _ _ _ _ _ _ _ Hwf Hst) as (_ & _ & Hrest).
  destruct Hst as [Hold Hnew Hdead Hres Hb _].
  apply map_eq. intros k. apply option_eq. intros [n c].
  rewrite lookup_insert_Some, !table_lookup by done. split.
  - intros (r & p & Hr & Hk & Hn & Hp & Hc). rewrite Hnew, elem_of_cons in Hr.
    destruct Hr as [->|Hr]; simpl in *.
    + left. simplify_eq. rewrite Hb, decide_True in Hc by done. naive_solver.
    + right. split; [rewrite <- Hk; intros E; by apply (Hres r Hr)|].
      destruct (Hrest r p Hr Hp) as [Hne Hnd]. rewrite Hb, decide_False, decide_False in Hc by done.
      exists r, p. split_and!; try done. rewrite Hold, elem_of_app. by right.
  - intros [[<- Heq]|(Hne & r & p & Hr & Hk & Hn & Hp & Hc)].
    + injection Heq as <- <-. exists (mk_route id name (Some (next_state s))), (next_state s).
      split_and!; try done; [rewrite Hnew; left|by rewrite Hb, decide_True].
    + rewrite Hold, elem_of_app in Hr. destruct Hr as [Hr|Hr].
      { apply Hdead in Hr. congruence. }
      destruct (Hrest r p Hr Hp) as [Hne' Hnd]. exists r, p.
      split_and!; try done; [rewrite Hnew; by right|by rewrite Hb, decide_False, decide_False].
Qed.

(** The specification of [define] and of the router's other operations. *)
Definition spec_define (name : text) (b : outcome binder) (table : gmap Z (text * binder))
  : outcome unit * gmap Z (text * binder) :=
  match table !! symbol_id name with
  | Some (n, _) =>
      if decide (n = c_string name) then
        match b with
        | Ok b => (Ok tt, <[symbol_id name := (c_string name, b)]> table)
        | Throw e => (Throw e, table) | Aborted => (Aborted, table) | Undefined => (Undefined, table)
        end
      else (DYNABRIDGE_RAISE (protocol_error (lit "RPC symbol hash collision")), table)
  | None =>
      match b with
      | Ok b => (Ok tt, <[symbol_id name := (c_string name, b)]> table)
      | Throw e => (Throw e, table) | Aborted => (Aborted, table) | Undefined => (Undefined, table)
      end
  end.

Lemma table_absent s k :
  router_wf s -> (forall r, r ∈ routes_ s -> id_ r ≠ k) -> route_table s !! k = None.
Proof.
  intros Hwf Hk. apply eq_None_not_Some. intros [[n b] Hx].
  apply table_lookup in Hx as (r & p & Hr & Hid & _); [|done]. by apply (Hk r).
Qed.

Lemma table_present s r :
  router_wf s -> r ∈ routes_ s -> exists p b, state_ r = Some p /\ binders s !! p = Some b
    /\ route_table s !! id_ r = Some (name_ r, b).
Proof.
  intros Hwf Hr. destruct (state_live s r Hwf Hr) as (p & b & Hp & Hb). exists p, b.
  split_and!; [done..|]. apply table_lookup; [done|]. by exists r, p.
Qed.

(** What the search finds, in terms of the table. *)
Lemma found_route s k :
  router_wf s ->
  match routes_ s !! lower_bound (routes_ s) k with
  | Some r => if id_ r =? k then exists p b, state_ r = Some p /\ binders s !! p = Some b
                                 /\ route_table s !! k = Some (name_ r, b)
              else route_table s !! k = None
  | None => route_table s !! k = None
  end.
Proof.
  intros Hwf. pose proof (wf_sorted s Hwf) as Hs.
  destruct (routes_ s !! lower_bound (routes_ s) k) as [r|] eqn:Hr.
  - pose proof (list_elem_of_lookup_2 _ _ _ Hr) as Hin.
    destruct (Z.eqb_spec (id_ r) k) as [<-|Hne]; [by apply table_present|].
    apply table_absent; [done|]. by destruct (lower_bound_found _ Hs _ _ Hr).
  - apply table_absent; [done|]. by apply lower_bound_absent.
Qed.

Lemma insert_wf s k n b :
  router_wf s -> k = symbol_id n ->
  (forall r, r ∈ routes_ s -> id_ r ≠ k) ->
  let i := lower_bound (routes_ s) k in
  let s' := mk_server (take i (routes_ s) ++ mk_route k n (Some (next_state s)) :: drop i (routes_ s))
              (<[next_state s := b]> (binders s)) (S (next_state s)) (outside s) in
  router_wf s' /\ stores s s' k n b [] (routes_ s).
Proof.
  intros Hwf -> Habs i s'.
  assert (stores s s' (symbol_id n) n b [] (routes_ s)) as Hst.
  { split; try done.
    - apply insert_at_Permutation. - intros r Hr. set_solver.
    - intros p. unfold s'. cbn [binders].
      destruct (decide (p = next_state s)) as [->|]; [by rewrite lookup_insert_eq|].
      rewrite lookup_insert_ne, decide_False; [done|apply not_elem_of_nil|done]. }
  split; [|done]. destruct (stores_states _ _ _ _ _ _ _ Hwf Hst) as (? & ? & _). split; try done.
  - simpl. rewrite map_app, map_cons, <- firstn_map, <- skipn_map.
    destruct (lower_bound_spec _ (wf_sorted s Hwf) (symbol_id n)) as (_ & Hlo & Hhi).
    apply sorted_insert_at; [apply Hwf| |]; intros j x Hj; apply list_lookup_fmap_Some in Hj as (r & -> & Hr).
    + by apply Hlo. + intros Hge. specialize (Hhi _ _ Hr Hge).
      pose proof (Habs r (list_elem_of_lookup_2 _ _ _ Hr)). simpl in *. lia.
  - intros r. simpl. rewrite insert_at_Permutation, elem_of_cons. intros [->|Hr]; [done|].
    by apply Hwf.
Qed.

Lemma replace_wf s i r p n b :
  router_wf s -> routes_ s !! i = Some r -> state_ r = Some p -> n = name_ r ->
  let s' := mk_server (<[i := mk_route (id_ r) n (Some (next_state s))]> (routes_ s))
              (delete p (<[next_state s := b]> (binders s))) (S (next_state s)) (outside s) in
  router_wf s' /\ exists rest, stores s s' (id_ r) n b [r] rest.
Proof.
  intros Hwf Hi Hp -> s'.
  pose proof (list_elem_of_lookup_2 _ _ _ Hi) as Hr.
  destruct (replace_at r (mk_route (id_ r) (name_ r) (Some (next_state s))) i _ Hi) as (rest & Hold & Hnew).
  destruct (state_live s r Hwf Hr) as (p' & b' & Hp' & Hb'). simplify_eq.
  assert (p < next_state s)%nat by (eapply Hwf; by eexists).
  assert (stores s s' (id_ r) (name_ r) b [r] rest) as Hst.
  { split; try done.
    - intros r' ->%list_elem_of_singleton. done.
    - intros r' Hr'. pose proof (StronglySorted_NoDup _ (wf_sorted s Hwf)) as Hnd.
      rewrite Hold in Hnd. simpl in Hnd. apply NoDup_cons in Hnd as [Hni _].
      intros Heq. apply Hni. rewrite <- Heq. by apply list_elem_of_fmap_2.
    - intros q. unfold s'. cbn [binders map].
      destruct (decide (q = next_state s)) as [->|Hq].
      + rewrite lookup_delete_ne, lookup_insert_eq by lia. done.
      + destruct (decide (Some q ∈ [state_ r])) as [Hin|Hin].
        * apply list_elem_of_singleton in Hin. assert (q = p) as -> by congruence. apply lookup_delete_eq.
        * rewrite list_elem_of_singleton in Hin.
          by rewrite lookup_delete_ne, lookup_insert_ne by congruence. }
  split; [|by exists rest]. destruct (stores_states _ _ _ _ _ _ _ Hwf Hst) as (? & ? & _). split; try done.
  - simpl. rewrite list_fmap_insert. simpl.
    rewrite list_insert_id; [apply Hwf|]. by rewrite list_lookup_fmap, Hi.
  - intros q. simpl. rewrite Hnew, elem_of_cons. intros [->|Hq]; [exact (wf_ids s Hwf r Hr)|].
    apply (wf_ids s Hwf). rewrite Hold. by right.
Qed.

(** The run of [define], from the two stores. *)
Lemma define_refines s name b :
  router_wf s -> b ≠ Undefined ->
  let '(r, s') := define name b s in
  (r, route_table s') = spec_define name b (route_table s) /\ router_wf s' /\ outside s' = outside s
  /\ r ≠ Undefined.
Proof.
  intros Hwf Hb. unfold define, spec_define, gets.
  unfold mbind at 1, eff_bind at 1.
  pose proof (found_route s (symbol_id name) Hwf) as Hf.
  set (i := lower_bound (routes_ s) (symbol_id name)) in *.
  assert (route_table s !! symbol_id name = None ->
    let '(r, s') := (made ← route_make (symbol_id name) (c_string name) b;
                     set_routes (take i (routes_ s) ++ made :: drop i (routes_ s))) s in
    (r, route_table s') = match b with
        | Ok b => (Ok tt, <[symbol_id name := (c_string name, b)]> (route_table s))
        | Throw e => (Throw e, route_table s) | Aborted => (Aborted, route_table s)
        | Undefined => (Undefined, route_table s) end
    /\ router_wf s' /\ outside s' = outside s /\ r ≠ Undefined) as Hinsert.
  { intros Htab. unfold route_make, set_routes, mbind, eff_bind, lift.
    destruct b as [b| | |]; try done. simpl.
    destruct (insert_wf s (symbol_id name) (c_string name) b Hwf) as [Hwf' Hst].
    - by rewrite symbol_id_c_string.
    - intros r Hr Heq. destruct (table_present s r Hwf Hr) as (? & ? & _ & _ & Ht).
      rewrite Heq in Ht. congruence.
    - split_and!; try done. f_equal. by apply (stores_table s _ _ _ _ [] (routes_ s)). }
  destruct (routes_ s !! i) as [r|] eqn:Hi; [|rewrite Hf; by apply Hinsert].
  destruct (Z.eqb_spec (id_ r) (symbol_id name)) as [Hid|Hid]; [|rewrite Hf; by apply Hinsert].
  destruct Hf as (p & b0 & Hp & Hb0 & ->).
  destruct (decide (name_ r = c_string name)) as [Hn|Hn].
  - rewrite bool_decide_eq_true_2 by done. simpl.
    unfold route_make, route_move_assign, route_reset, destroy_binder, new_binder, set_routes,
      mbind, eff_bind, lift.
    destruct b as [b| | |]; try done. simpl. rewrite Hp. simpl.
    assert (p < next_state s)%nat by (eapply Hwf; by eexists).
    rewrite lookup_insert_ne, Hb0 by lia. simpl.
    destruct (replace_wf s i r p (c_string name) b Hwf Hi Hp) as (Hwf' & rest & Hst); [done|].
    rewrite Hid in *. split_and!; try done. f_equal. by eapply stores_table.
  - rewrite bool_decide_eq_false_2 by done. simpl. unfold raise.
    split_and!; try done. unfold DYNABRIDGE_RAISE. by destruct has_exceptions.
Qed.

Lemma destroy_routes_run l : forall ps s,
  Permutation (map state_ l) (map Some ps) -> NoDup ps ->
  (forall p, is_Some (binders s !! p) <-> p ∈ ps) ->
  exists s', destroy_routes l s = (Ok tt, s') /\ binders s' = ∅ /\ outside s' = outside s.
Proof.
  induction l as [|r l IH]; intros ps s Hps Hnd Hlive; simpl in *.
  - apply Permutation_nil in Hps. destruct ps; [|done]. exists s. split_and!; [done| |done].
    apply map_eq. intros p. rewrite lookup_empty. apply eq_None_not_Some. rewrite Hlive. set_solver.
  - assert (state_ r ∈ map Some ps) as Hin by (rewrite <- Hps; left).
    apply list_elem_of_fmap in Hin as (p & Hp & Hin).
    apply elem_of_Permutation in Hin as [qs Hqs]. rewrite Hqs in *. simpl in Hps.
    rewrite Hp in Hps. apply Permutation_cons_inv in Hps. apply NoDup_cons in Hnd as [Hni Hnd].
    assert (is_Some (binders s !! p)) as [b Hb] by (rewrite Hlive, Hqs; left).
    destruct (IH qs (mk_server (routes_ s) (delete p (binders s)) (next_state s) (outside s)))
      as (s' & Hrun & Hemp & Hout); [done..| |].
    + intros q. simpl. destruct (decide (q = p)) as [->|Hne].
      * rewrite lookup_delete_eq. split; [by intros []|done].
      * rewrite lookup_delete_ne by done. rewrite Hlive, Hqs. set_solver.
    + exists s'. split_and!; try done. unfold route_reset, destroy_binder. rewrite Hp.
      unfold mbind, eff_bind. by rewrite Hb.
Qed.

Definition new_router (w : W) : server := mk_server [] ∅ 0 w.

Lemma empty_wf (w : W) : router_wf (new_router w).
Proof.
  split; simpl; [constructor|set_solver| |by intros p []].
  exists []. split_and!; [done|constructor|]. intros p. rewrite lookup_empty. split; [by intros []|set_solver].
Qed.

(** Definitions one after another, the caller handling what they throw. *)
Definition define_all (defs : list (text * outcome binder)) s : server :=
  foldl (fun s nb => (define nb.1 nb.2 s).2) s defs.

Lemma define_all_refines defs : forall s,
  router_wf s -> Forall (fun nb => nb.2 ≠ Undefined) defs ->
  router_wf (define_all defs s) /\ outside (define_all defs s) = outside s /\
  route_table (define_all defs s)
    = foldl (fun t nb => (spec_define nb.1 nb.2 t).2) (route_table s) defs.
Proof.
  unfold define_all. induction defs as [|[name b] defs IH]; intros s Hwf Hdef; [done|]. simpl.
  apply Forall_cons in Hdef as [Hb Hdef]. simpl in Hb.
  pose proof (define_refines s name b Hwf Hb) as Hd.
  destruct (define name b s) as [r s1] eqn:E. destruct Hd as (Heq & Hwf1 & Hout & _).
  destruct (IH s1 Hwf1 Hdef) as (? & Hout2 & Htab). split_and!; try done; simpl.
  - congruence. - rewrite <- Heq. exact Htab.
Qed.

(** C9: a router built by any sequence of definitions, with binders whose moves
    throw and with hash collisions among the names, is a finite map from symbol
    identifiers to names and binders: redefining a name replaces its binder and
    deletes the old one once, a colliding name raises protocol_error and changes
    nothing, and destroying the router deletes every binder that is left. *)
Theorem router_refines_map (defs : list (text * outcome binder)) (w : W) :
  Forall (fun nb => nb.2 ≠ Undefined) defs ->
  let s := define_all defs (new_router w) in
  router_wf s /\ outside s = w /\
  route_table s = foldl (fun t nb => (spec_define nb.1 nb.2 t).2) ∅ defs /\
  (forall name b, b ≠ Undefined -> (define name b s).1 = (spec_define name b (route_table s)).1
                               /\ safe (define name b) s) /\
  exists s', destroy_router s = (Ok tt, s') /\ routes_ s' = [] /\ binders s' = ∅.
Proof.
  intros Hdefs s. destruct (define_all_refines defs _ (empty_wf w) Hdefs) as (Hwf & Hout & Htab).
  fold s in Hwf, Hout, Htab. split_and!; try done.
  - intros name b Hb. pose proof (define_refines s name b Hwf Hb) as Hd. unfold safe.
    destruct (define name b s) as [r s1]. destruct Hd as (Heq & _ & _ & Hr).
    split; [|done]. by rewrite <- Heq.
  - destruct (wf_states s Hwf) as (ps & Hps & Hnd & Hlive).
    destruct (destroy_routes_run _ _ _ Hps Hnd Hlive) as (s' & Hrun & Hemp & _).
    eexists. split.
    + unfold destroy_router, gets, mbind, eff_bind. rewrite Hrun. done.
    + done.
Qed.

(** ** Dispatch *)

Context (order : nat -> list nat).

(** The reply computed from the table, before the handlers. *)
Definition spec_dispatch_body (table : gmap Z (text * binder)) (frame : text) (w : W) : outcome text * W :=
  match try_decode_request frame (mk_request 0 []) with
  | (false, _) => (encode_error (lit "invalid RPC request frame"), w)
  | (true, request) =>
      match table !! method request with
      | None => (encode_error (lit "unknown RPC method"), w)
      | Some (_, b) =>
          match invoke_binder order b (args request) w with
          | (Ok None, w') => (encode_error (lit "RPC argument conversion or arity mismatch"), w')
          | (Ok (Some v), w') => (encode_response v, w')
          | (Throw e, w') => (Throw e, w')
          | (Aborted, w') => (Aborted, w')
          | (Undefined, w') => (Undefined, w')
          end
      end
  end.

Definition with_outside s (w : W) : server := mk_server (routes_ s) (binders s) (next_state s) w.

Lemma dispatch_body_refines s frame :
  router_wf s ->
  dispatch_body order frame s =
    let '(r, w) := spec_dispatch_body (route_table s) frame (outside s) in (r, with_outside s w).
Proof.
  intros Hwf. assert (with_outside s (outside s) = s) as Hself by by destruct s.
  unfold dispatch_body, spec_dispatch_body.
  destruct (try_decode_request frame (mk_request 0 [])) as [[] request]; [|by rewrite Hself].
  unfold gets. unfold mbind at 1, eff_bind at 1.
  pose proof (found_route s (method request) Hwf) as Hf.
  destruct (routes_ s !! lower_bound (routes_ s) (method request)) as [r|];
    [|by rewrite Hf; unfold lift; rewrite Hself].
  destruct (Z.eqb_spec (id_ r) (method request)); simpl; [|by rewrite Hf; unfold lift; rewrite Hself].
  destruct Hf as (p & b & Hp & Hb & ->).
  unfold route_invoke, mbind, eff_bind, lift. rewrite Hp. simpl. rewrite Hb.
  by destruct (invoke_binder order b (args request) (outside s)) as [[[v|]| | |] w].
Qed.

(** What the peer of a dispatch is told. *)
Inductive reply := Result (v : value) | Error (message : text).

Definition spec_reply (table : gmap Z (text * binder)) (frame : text) (w : W) : option reply :=
  match try_decode_request frame (mk_request 0 []) with
  | (false, _) => Some (Error (lit "invalid RPC request frame"))
  | (true, request) =>
      match table !! method request with
      | None => Some (Error (lit "unknown RPC method"))
      | Some (_, b) =>
          match (invoke_binder order b (args request) w).1 with
          | Ok None => Some (Error (lit "RPC argument conversion or arity mismatch"))
          | Ok (Some v) => Some (if wire_fits v then Result v else Error (lit "RPC string is too large"))
          | Throw e => Some (Error (default (lit "unknown RPC server failure") (what e)))
          | Aborted | Undefined => None
          end
      end
  end.

Definition reply_decodes (frame : text) (r : reply) : Prop :=
  match r with
  | Result v => exists v', try_decode_response frame value_ops.empty [] = (response_status.ok, v', [])
                      /\ v' ≡ v
  | Error m => try_decode_response frame value_ops.empty []
                 = (response_status.remote_error, value_ops.empty, m)
  end.

Context (exceptions : has_exceptions = true).

Lemma encode_error_decodes m frame :
  encode_error m = Ok frame -> zlen m <= u32_max -> reply_decodes frame (Error m).
Proof.
  intros He Hm. rewrite encode_error_Ok in He by done. simplify_eq. by apply decode_wire_error.
Qed.

Lemma encode_response_too_large v :
  wire_fits v = false ->
  encode_response v = Throw (protocol_error (lit "RPC string is too large")).
Proof.
  intros Hfit. unfold encode_response. rewrite encoded_size_spec, Hfit.
  unfold DYNABRIDGE_RAISE. by rewrite exceptions.
Qed.

Lemma encode_response_fits v : wire_fits v = true -> encode_response v = Ok (wire_response v).
Proof.
  intros Hfit. unfold encode_response. rewrite encoded_size_spec, Hfit. simpl.
  pose proof (wire_value_fits_bound v Hfit).
  rewrite checked_add_Ok by (unfold size_max, u32_max in *; lia). simpl.
  rewrite encode_value_spec, Hfit. simpl. unfold writer_finish, wire_response. simpl.
  by rewrite <- !app_assoc.
Qed.

(** [dispatch] with its handlers: an exception becomes an error reply. *)
Lemma dispatch_run s frame (r : outcome text) (w : W) :
  router_wf s -> spec_dispatch_body (route_table s) frame (outside s) = (r, w) ->
  dispatch order frame s =
    (match r with
     | Throw e => encode_error (default (lit "unknown RPC server failure") (what e))
     | r => r
     end, with_outside s w).
Proof.
  intros Hwf Hspec. unfold dispatch. rewrite (dispatch_body_refines s frame Hwf), Hspec.
  destruct r as [|e| |]; try done. rewrite exceptions. by destruct (what e).
Qed.

(** C25: dispatch answers every frame, well formed or not: it never lets an exception
    out, never changes the router, and its reply is a response frame that decodes to
    the binder's result, or to an error naming what went wrong: an undecodable
    request, an unknown method, a mismatch of the arguments, a result too large for
    the wire, or the exception of the called function. *)
Theorem dispatch_answers s frame (r : reply) :
  router_wf s -> spec_reply (route_table s) frame (outside s) = Some r ->
  match r with Result v => value_ok v | Error m => zlen m <= u32_max end ->
  exists reply_frame w,
    dispatch order frame s = (Ok reply_frame, with_outside s w) /\ reply_decodes reply_frame r.
Proof.
  intros Hwf Hreply Hr.
  destruct (spec_dispatch_body (route_table s) frame (outside s)) as [o w] eqn:Hspec.
  rewrite (dispatch_run s frame o w Hwf Hspec).
  assert (forall m, zlen m <= u32_max -> exists f,
            encode_error m = Ok f /\ reply_decodes f (Error m)) as Herr.
  { intros m Hm. eexists. split; [by apply encode_error_Ok|]. by apply decode_wire_error. }
  unfold spec_reply, spec_dispatch_body in *.
  destruct (try_decode_request frame (mk_request 0 [])) as [[] request]; simplify_eq.
  2:{ destruct (Herr _ Hr) as (f & -> & Hd). by exists f, (outside s). }
  destruct (route_table s !! method request) as [[n b]|]; simplify_eq.
  2:{ destruct (Herr _ Hr) as (f & -> & Hd). by exists f, (outside s). }
  destruct (invoke_binder order b (args request) (outside s)) as [[[v|]|e| |] w1]; simpl in *; simplify_eq.
  - destruct (wire_fits v) eqn:Hfit; simplify_eq.
    + exists (wire_response v), w. split.
      * by rewrite encode_response_fits.
      * exists (canonical v). split; [by apply decode_wire_response|by apply canonical_equiv].
    + rewrite encode_response_too_large by done. simpl.
      destruct (Herr _ Hr) as (f & -> & Hd). by exists f, w.
  - destruct (Herr _ Hr) as (f & -> & Hd). by exists f, w.
  - destruct (Herr _ Hr) as (f & -> & Hd). by exists f, w.
Qed.
End Correctness.

(** ** A concrete router *)

Definition sample_binder (n : Z) : binder unit unit unit (list Z) :=
  CustomTyped 1 (fun args w => (Ok (head args), n :: w)).

Definition sample_defs : list (text * outcome (binder unit unit unit (list Z))) :=
  [(lit "f", Ok (sample_binder 1)); (lit "g", Ok (sample_binder 2));
   (lit "f", Throw foreign_exception); (lit "f", Ok (sample_binder 3))].

#[local] Instance sample_policy : ErrorPolicy := {| has_exceptions := true |}.
#[local] Instance sample_backend : ExportBackend unit value unit unit unit (list Z) := {|
  uses_rpc_export_probe := true;
  is_bridge_descriptor _ := false;
  argument_probe _ _ := mret true;
  argument_try_make _ d := mret (Some tt, d);
  argument_prepare _ _ := mret None;
  argument_get _ _ := mret tt;
  to_export_result _ _ := mret value_ops.empty;
  undefined_value := mret value_ops.empty
|}.

Lemma router_refines_map_witness :
  let s := define_all sample_defs (new_router []) in
  router_wf s /\ size s = 2%nat /\
  exists s', destroy_router s = (Ok tt, s') /\ routes_ s' = [] /\ binders s' = ∅.
Proof.
  intros s. destruct (router_refines_map sample_defs []) as (Hwf & _ & _ & _ & Hd).
  - by repeat constructor.
  - split_and!; [exact Hwf|by vm_compute|exact Hd].
Defined.

Lemma dispatch_answers_witness :
  let s := define_all sample_defs (new_router []) in
  let frame := wire_request (symbol_id (lit "f")) [value_ops.signed_integer 5] in
  exists reply_frame w,
    dispatch (fun n => seq 0 n) frame s = (Ok reply_frame, with_outside s w) /\
    reply_decodes reply_frame (Result (value_ops.signed_integer 5)).
Proof.
  intros s frame. apply (dispatch_answers (B := sample_backend)).
  - done.
  - destruct (define_all_refines sample_defs (new_router [])) as (Hwf & _);
      [apply empty_wf|by repeat constructor|exact Hwf].
  - by vm_compute.
  - by vm_compute.
Defined.
End rpc_router.
