(* ===== verification/RpcCall.v ===== *)
(** * Remote calls: the RPC backend on both sides

    rpc.h, [rpc_backend]: its converters as an export backend, its import calls, and
    the loopback transport that joins a client to a router. The theorem of this file
    is the one the program exists for: a remote call is the local call. *)

From Stdlib Require Import ZArith Lia.
From stdpp Require Import base list gmap.
From S2P Require Import Prelude Bytes RpcValue RpcCodec Converters Interface ExportDispatch RpcRouter.
Import rpc_router.

(** ** The types with an [rpc_backend::converter] *)

Inductive scalar := SInt | SUnsigned | SDouble | SBool | SString.
#[export] Instance scalar_eq_dec : EqDecision scalar.
Proof. solve_decision. Defined.

(** C++ values of these types; a double is its bit pattern. *)
Inductive native := NInt (z : Z) | NUnsigned (z : Z) | NDouble (pattern : Z) | NBool (b : bool) | NString (s : text).

Definition type_of (n : native) : scalar :=
  match n with
  | NInt _ => SInt | NUnsigned _ => SUnsigned | NDouble _ => SDouble | NBool _ => SBool | NString _ => SString
  end.
Definition native_dom (n : native) : Prop :=
  match n with
  | NInt z => int_dom z | NUnsigned z => unsigned_dom z | NDouble p => double_dom p
  | NBool _ | NString _ => True
  end.

Section Converters.
(** What a moved-from string holds. *)
Context (moved_from : text -> text).

Definition rpc_probe (t : scalar) (v : value) : bool :=
  match t with
  | SInt => from_probe converter_int v | SUnsigned => from_probe converter_unsigned v
  | SDouble => from_probe converter_double v | SBool => from_probe converter_bool v
  | SString => from_probe (converter_string moved_from) v
  end.

(** Conversion of a mutable value, with what is left of it, and of a constant one. *)
Definition rpc_from_mut (t : scalar) (v : value) : option native * value :=
  match t with
  | SInt => let r := from_mut converter_int v in (NInt <$> r.1, r.2)
  | SUnsigned => let r := from_mut converter_unsigned v in (NUnsigned <$> r.1, r.2)
  | SDouble => let r := from_mut converter_double v in (NDouble <$> r.1, r.2)
  | SBool => let r := from_mut converter_bool v in (NBool <$> r.1, r.2)
  | SString => let r := from_mut (converter_string moved_from) v in (NString <$> r.1, r.2)
  end.

Definition rpc_from (t : scalar) (v : value) : option native :=
  match t with
  | SInt => NInt <$> from_optional converter_int v | SUnsigned => NUnsigned <$> from_optional converter_unsigned v
  | SDouble => NDouble <$> from_optional converter_double v | SBool => NBool <$> from_optional converter_bool v
  | SString => NString <$> from_optional (converter_string moved_from) v
  end.

(** [to_cast] of an lvalue borrows a string, of an rvalue it takes it. *)
Definition rpc_to (n : native) : value :=
  match n with
  | NInt z => to_cast converter_int z | NUnsigned z => to_cast converter_unsigned z
  | NDouble p => to_cast converter_double p | NBool b => to_cast converter_bool b
  | NString s => to_cast (converter_string moved_from) s
  end.
Definition rpc_to_rvalue (n : native) : value :=
  match n with NString s => converter_string_to_rvalue s | n => rpc_to n end.

(** [rpc_backend] as the backend of export dispatch; the user's functions work on [W]. *)
#[export] Instance rpc_backend {W} : ExportBackend scalar value native native native W := {|
  uses_rpc_export_probe := true;
  is_bridge_descriptor _ := false;
  argument_probe t d := mret (rpc_probe t d);
  argument_try_make t d := mret (rpc_from_mut t d);
  argument_prepare t d := mret (rpc_from t d);
  argument_get t n := mret n;
  to_export_result t r := mret (rpc_to_rvalue r);
  undefined_value := mret value_ops.empty
|}.

(** ** The import side *)

Section Import.
Context `{ErrorPolicy} {S : Type} (round_trip : text -> eff S text).

(** [rpc_backend::import_impl]: an import context holds the identifier of its name. *)
Definition import_impl (name : text) : Z := symbol_id name.

Definition rpc_from_cast (t : scalar) (v : value) : outcome native :=
  match rpc_from t v with
  | None => DYNABRIDGE_RAISE (bad_conversion
      (lit "dynabridge value is not convertible to the requested C++ type"))
  | Some n => Ok n
  end.

(** [invoke_impl<R>] and its void form; [None] when the program does not compile. *)
Definition invoke_impl (method : Z) (result : scalar) (values : list value) : option (eff S native) :=
  frame ← encode_request_values method values;
  Some (frame ← lift frame;
        response ← round_trip frame;
        v ← lift (decode_response response);
        lift (rpc_from_cast result v)).
Definition invoke_impl_void (method : Z) (values : list value) : option (eff S unit) :=
  frame ← encode_request_values method values;
  Some (frame ← lift frame;
        response ← round_trip frame;
        _ ← lift (decode_response response);
        mret tt).

(** [rpc_backend::invoke]: the arguments are lowered first. *)
Definition invoke (method : Z) (result : scalar) (args : list native) : option (eff S native) :=
  invoke_impl method result (map rpc_to_rvalue args).
Definition invoke_void (method : Z) (args : list native) : option (eff S unit) :=
  invoke_impl_void method (map rpc_to_rvalue args).
End Import.

(** ** The converters, uniformly *)

Lemma rpc_to_rvalue_equiv n : rpc_to_rvalue n ≡ rpc_to n.
Proof. by destruct n. Qed.

Lemma rpc_to_ok n : native_dom n -> value_ok (rpc_to_rvalue n).
Proof.
  destruct n; simpl; intros Hd.
  - by apply (to_ok (c := converter_int) (dom := int_dom)).
  - by apply (to_ok (c := converter_unsigned) (dom := unsigned_dom)).
  - by apply (to_ok (c := converter_double) (dom := double_dom)).
  - by apply (to_ok (c := converter_bool) (dom := any_dom)).
  - apply value_ok_string.
Qed.

Lemma rpc_from_to n v : native_dom n -> v ≡ rpc_to n -> rpc_from (type_of n) v = Some n.
Proof.
  intros Hd Hv. destruct n; cbn [native_dom rpc_to rpc_from type_of] in *; unfold from_optional, to_cast in *.
  - by rewrite (from_equiv_to converter_int int_dom _ _ Hd Hv).
  - by rewrite (from_equiv_to converter_unsigned unsigned_dom _ _ Hd Hv).
  - by rewrite (from_equiv_to converter_double double_dom _ _ Hd Hv).
  - by rewrite (from_equiv_to converter_bool any_dom _ _ I Hv).
  - by rewrite (from_equiv_to (converter_string moved_from) any_dom _ _ I Hv).
Qed.

Lemma rpc_from_mut_from t v : (rpc_from_mut t v).1 = rpc_from t v.
Proof.
  destruct t; cbn [rpc_from_mut rpc_from fst]; unfold from_optional; f_equal; [done..|].
  apply (from_mut_from (c := converter_string moved_from) (dom := any_dom)).
Qed.

Lemma rpc_probe_from t v : rpc_probe t v = true -> is_Some (rpc_from t v).
Proof.
  destruct t; cbn [rpc_probe rpc_from]; unfold from_probe, from_optional; rewrite fmap_is_Some; intros Hp.
  - by apply (probe_from (c := converter_int) (dom := int_dom)).
  - by apply (probe_from (c := converter_unsigned) (dom := unsigned_dom)).
  - by apply (probe_from (c := converter_double) (dom := double_dom)).
  - by apply (probe_from (c := converter_bool) (dom := any_dom)).
  - by apply (probe_from (c := converter_string moved_from) (dom := any_dom)).
Qed.

(** A value that came from [n] is accepted by [n]'s type and by no other. *)
Lemma rpc_probe_to t n v : native_dom n -> v ≡ rpc_to n -> rpc_probe t v = bool_decide (t = type_of n).
Proof.
  intros Hd [Hk Hv].
  destruct (decide (t = type_of n)) as [->|Hne].
  - rewrite bool_decide_eq_true_2 by done. pose proof (rpc_from_to n v Hd (conj Hk Hv)) as Hf.
    destruct n; cbn [rpc_probe rpc_from type_of] in *; unfold from_probe, from_optional in *.
    + apply (probe_from (c := converter_int) (dom := int_dom)). apply fmap_Some in Hf as (x & -> & _). eauto.
    + apply (probe_from (c := converter_unsigned) (dom := unsigned_dom)). apply fmap_Some in Hf as (x & -> & _). eauto.
    + apply (probe_from (c := converter_double) (dom := double_dom)). apply fmap_Some in Hf as (x & -> & _). eauto.
    + apply (probe_from (c := converter_bool) (dom := any_dom)). apply fmap_Some in Hf as (x & -> & _). eauto.
    + apply (probe_from (c := converter_string moved_from) (dom := any_dom)).
      apply fmap_Some in Hf as (x & -> & _). eauto.
  - rewrite bool_decide_eq_false_2 by done.
    destruct t, n; try done; unfold rpc_probe, from_probe, converter_int, converter_unsigned, converter_double,
      converter_bool, converter_string, value_ops.kind; simpl in *; by rewrite Hk.
Qed.
End Converters.

(** ** From decoded arguments to the call *)

Section Server.
Context (moved_from : text -> text) {W : Type} `{ErrorPolicy}.
Context (order : nat -> list nat) (order_permutes : forall n, Permutation (order n) (seq 0 n)).
Local Abbreviation backend := (rpc_backend moved_from (W := W)).
Local Abbreviation function := (target (T := scalar) (A := native) (R := native) (W := W)).

(** Decoded values that stand for [args]. *)
Definition stands_for (ds : list value) (args : list native) : Prop :=
  Forall2 (fun d n => d ≡ rpc_to moved_from n) ds args.

Lemma accepts_all_types params ds args :
  Forall native_dom args -> stands_for ds args -> length params = length ds ->
  accepts_all (rpc_probe moved_from) params ds = bool_decide (params = map type_of args).
Proof.
  intros Hd Hs. revert params. induction Hs as [|d n ds args Hdn _ IH]; intros [|t params] Hl;
    simpl in *; try done.
  apply Forall_cons in Hd as [Hn Hd]. rewrite (rpc_probe_to moved_from t n d Hn Hdn), IH by (done || lia).
  rewrite <- bool_decide_and. apply bool_decide_ext. naive_solver.
Qed.

Lemma convert_native params args i n f d :
  params = map type_of args -> args !! i = Some n -> native_dom n ->
  slots f !! i = Some d -> d ≡ rpc_to moved_from n ->
  exists d', convert_plan (B := backend) params ScalarOnly i f
             = (Ok (Some n), mk_frame (<[i := d']> (slots f)) (world f)).
Proof.
  intros -> Hi Hn Hd Hdn. exists (rpc_from_mut moved_from (type_of n) d).2.
  unfold convert_plan. rewrite list_lookup_fmap, Hi. cbn [fmap option_fmap option_map].
  unfold try_make.
  etransitivity; [apply eff_bind_run, get_slot_run, Hd|].
  unfold mbind, eff_bind, on_world. cbn -[rpc_from_mut rpc_from]. unfold mret, eff_ret.
  by rewrite (rpc_from_mut_from moved_from), (rpc_from_to moved_from n d Hn Hdn).
Qed.

(** Converting in any order yields the arguments, one per index. *)
Lemma eval_each_native args is_ : forall f,
  NoDup is_ -> Forall native_dom args ->
  (forall i, i ∈ is_ -> exists n d, args !! i = Some n /\ slots f !! i = Some d /\ d ≡ rpc_to moved_from n) ->
  exists m ds, eval_each is_ (convert_plan (B := backend) (map type_of args) ScalarOnly) f
               = (Ok m, mk_frame ds (world f)) /\ forall i, i ∈ is_ -> m !! i = Some (args !! i).
Proof.
  induction is_ as [|i is_ IH]; intros f Hnd Hdom Hi; simpl.
  { exists ∅, (slots f). split; [by destruct f|set_solver]. }
  apply NoDup_cons in Hnd as [Hni Hnd].
  destruct (Hi i) as (n & d & Hn & Hd & Hdn); [left|].
  assert (native_dom n) as Hnn by (eapply Forall_lookup_1; eauto).
  destruct (convert_native (map type_of args) args i n f d eq_refl Hn Hnn Hd Hdn) as [d' Hc].
  rewrite (eff_bind_run _ _ _ _ _ Hc).
  destruct (IH (mk_frame (<[i := d']> (slots f)) (world f))) as (m & ds & Hm & Hval); [done..| |].
  - intros j Hj. destruct (Hi j) as (n' & d2 & ? & ? & ?); [by right|]. exists n', d2. simpl.
    rewrite list_lookup_insert_ne by set_solver. done.
  - rewrite (eff_bind_run _ _ _ _ _ Hm). exists (<[i := Some n]> m), ds. split; [done|].
    intros j Hj. destruct (decide (i = j)) as [<-|Hne]; [by rewrite lookup_insert_eq, Hn|].
    rewrite lookup_insert_ne by done. apply Hval. set_solver.
Qed.

Lemma eval_pack_native args ds w :
  Forall native_dom args -> stands_for ds args ->
  exists ds', eval_pack order (length args) (convert_plan (B := backend) (map type_of args) ScalarOnly)
                (mk_frame ds w) = (Ok (map Some args), mk_frame ds' w).
Proof.
  intros Hdom Hs. destruct (eval_each_native args (order (length args)) (mk_frame ds w))
    as (m & ds' & Hm & Hval); [rewrite order_permutes; apply NoDup_seq|done| |].
  - intros i Hi. rewrite order_permutes, elem_of_seq in Hi.
    destruct (lookup_lt_is_Some_2 args i) as [n Hn]; [lia|].
    destruct (Forall2_lookup_r _ _ _ _ _ Hs Hn) as (d & Hd & Hdn). by exists n, d.
  - exists ds'. unfold eval_pack. rewrite (eff_bind_run _ _ _ _ _ Hm). unfold mret, eff_ret. f_equal. f_equal.
    rewrite <- (length_map Some args). apply omap_seq_values. intros i Hi. rewrite length_map in Hi.
    rewrite Hval by (rewrite order_permutes, elem_of_seq; lia). simpl.
    rewrite list_lookup_fmap. destruct (lookup_lt_is_Some_2 args i Hi) as [n ->]. done.
Qed.

Lemma eval_get_native args f :
  eval_pack order (length args) (get_argument (B := backend) (map type_of args) (map Some args)) f
  = (Ok args, f).
Proof.
  destruct (eval_pack_reads order order_permutes (eq f)
    (get_argument (B := backend) (map type_of args) (map Some args)) args f) as (? & Hr & <-); [|done|done].
  intros i n ? Hn <-. exists f. split; [|done]. unfold get_argument. rewrite !list_lookup_fmap, Hn. by destruct f.
Qed.

(** What a binder returns for the result of the function. *)
Definition result_value (c : contract scalar) (r : native) : value :=
  match result_type c with Some _ => rpc_to_rvalue moved_from r | None => value_ops.empty end.

Lemma commit_run (f : function) c args ds w :
  Forall native_dom args -> stands_for ds args -> parameters c = map type_of args ->
  exists ds', commit (B := backend) order f c (mk_frame ds w) =
    (match (f c args w).1 with
     | Ok r => Ok (Some (result_value c r))
     | Throw e => Throw e | Aborted => Aborted | Undefined => Undefined
     end, mk_frame ds' (f c args w).2).
Proof.
  intros Hdom Hs Hp. unfold commit, callable_arity. rewrite Hp, length_map.
  destruct (eval_pack_native args ds w Hdom Hs) as [ds' Hc]. exists ds'.
  rewrite (eff_bind_run _ _ _ _ _ Hc), (eff_bind_run _ _ _ _ _ (eval_get_native args _)).
  unfold mbind, eff_bind, on_world, result_value. simpl.
  destruct (f c args w) as [[r| | |] w']; try done. by destruct (result_type c).
Qed.

(** The signature that takes the call: the first with the types of the arguments. *)
Definition selects (args : list native) (c : contract scalar) : bool :=
  negb (is_unmatched_free_callable c) && bool_decide (parameters c = map type_of args).

Lemma viable_selects ds args c (w : W) :
  Forall native_dom args -> stands_for ds args ->
  viable (rpc_probe moved_from) (length ds) None (mk_frame ds w) c = selects args c.
Proof.
  intros Hdom Hs. unfold viable, selects, can_access, callable_arity. simpl.
  rewrite andb_true_r. destruct (is_unmatched_free_callable c); [done|]. simpl.
  destruct (Nat.eqb_spec (length ds) (length (parameters c))) as [Hl|Hl]; simpl.
  - by apply accepts_all_types.
  - rewrite bool_decide_eq_false_2; [done|]. intros Hp. apply Hl. rewrite Hp, length_map.
    by eapply Forall2_length.
Qed.

Lemma find_ext {X} (p q : X -> bool) l : (forall x, p x = q x) -> find p l = find q l.
Proof. intros Hpq. induction l as [|x l IH]; [done|]. simpl. by rewrite Hpq, IH. Qed.

Lemma rpc_scalar_only c : scalar_only (B := backend) c = true.
Proof. unfold scalar_only. simpl. by induction (parameters c). Qed.

(** Invoking a library binder on values that stand for [args] calls the selected
    signature's function on [args]. *)
Lemma invoke_binder_native (b : export_overload_binder (T := scalar) (A := native) (R := native) (W := W))
    ds args w :
  Forall native_dom args -> stands_for ds args ->
  invoke_binder (B := backend) order (LibraryBinder b) ds w =
    match find (selects args) (overloads b) with
    | None => (Ok None, w)
    | Some c => (match (callable_ b c args w).1 with
                 | Ok r => Ok (Some (result_value c r))
                 | Throw e => Throw e | Aborted => Aborted | Undefined => Undefined
                 end, (callable_ b c args w).2)
    end.
Proof.
  intros Hdom Hs. unfold invoke_binder, dispatch_optional.
  rewrite (dispatch_scalar (B := backend) order (callable_ b) eq_refl (rpc_probe moved_from)
             (fun t d w => eq_refl)); [|by apply Forall_forall; intros c _; apply rpc_scalar_only|done].
  rewrite (find_ext _ (selects args)) by (intros c; by apply viable_selects).
  destruct (find (selects args) (overloads b)) as [c|] eqn:Hfind; [|done].
  apply find_some in Hfind as [_ Hsel]. unfold selects in Hsel.
  apply andb_true_iff in Hsel as [_ Hp%bool_decide_eq_true].
  rewrite (call_commits (B := backend) order order_permutes (callable_ b) (rpc_probe moved_from)).
  - destruct (commit_run (callable_ b) c args ds w Hdom Hs Hp) as [ds' ->]. done.
  - intros t d w0 o d' w' Hacc Hmk. injection Hmk as Hmk _.
    assert (o = (rpc_from_mut moved_from t d).1) as -> by by rewrite Hmk.
    rewrite (rpc_from_mut_from moved_from). by apply rpc_probe_from.
  - rewrite (accepts_all_types _ _ args); [by apply bool_decide_eq_true|done..|].
    rewrite Hp, length_map. symmetry. by eapply Forall2_length.
Qed.
End Server.

(** ** The remote call *)

Section RemoteCall.
Context (moved_from : text -> text) {W : Type} `{ErrorPolicy} (exceptions : has_exceptions = true).
Context (order : nat -> list nat) (order_permutes : forall n, Permutation (order n) (seq 0 n)).
Local Abbreviation backend := (rpc_backend moved_from (W := W)).
Local Abbreviation server := (server scalar native native W).

(** What the client's frame makes the router do. *)
Lemma request_reaches_binder (s : server) name n b args :
  route_table s !! symbol_id name = Some (n, LibraryBinder b) ->
  Forall native_dom args -> request_encodable (map (rpc_to_rvalue moved_from) args) = true ->
  spec_dispatch_body (B := backend) order (route_table s)
    (wire_request (symbol_id name) (map (rpc_to_rvalue moved_from) args)) (outside s) =
  match find (selects args) (overloads b) with
  | None => (encode_error (lit "RPC argument conversion or arity mismatch"), outside s)
  | Some c =>
      (match (callable_ b c args (outside s)).1 with
       | Ok r => encode_response (result_value moved_from c r)
       | Throw e => Throw e | Aborted => Aborted | Undefined => Undefined
       end, (callable_ b c args (outside s)).2)
  end.
Proof.
  intros Htab Hdom Henc. unfold spec_dispatch_body.
  assert (args_ok (map (rpc_to_rvalue moved_from) args)) as Hok.
  { unfold args_ok. rewrite Forall_map. eapply Forall_impl; [done|]. intros x Hx. by apply rpc_to_ok. }
  rewrite request_decodes; [|apply symbol_id_range|done..]. cbn [method RpcCodec.args]. rewrite Htab.
  rewrite (invoke_binder_native moved_from order order_permutes b _ args); [|done|].
  - destruct (find (selects args) (overloads b)) as [c|]; [|done].
    by destruct (callable_ b c args (outside s)) as [[r| | |] w].
  - unfold stands_for. clear - Hok. induction args as [|x args IH]; simpl; constructor.
    + inversion_clear Hok. etransitivity; [by apply canonical_equiv|apply rpc_to_rvalue_equiv].
    + apply IH. by inversion_clear Hok.
Qed.

Definition remote_call (name : text) (t : scalar) (args : list native) : option (eff server native) :=
  invoke moved_from (round_trip (B := backend) order) (import_impl name) t args.

Lemma remote_call_run (s : server) name n b t args :
  router_wf s -> route_table s !! symbol_id name = Some (n, LibraryBinder b) ->
  Forall native_dom args -> request_encodable (map (rpc_to_rvalue moved_from) args) = true ->
  exists call, remote_call name t args = Some call /\
  forall r w, spec_dispatch_body (B := backend) order (route_table s)
    (wire_request (symbol_id name) (map (rpc_to_rvalue moved_from) args)) (outside s) = (r, w) ->
  call s = ((response ← match r with
                        | Throw e => encode_error (default (lit "unknown RPC server failure") (what e))
                        | r => r end;
             v ← decode_response response; rpc_from_cast moved_from t v), with_outside s w).
Proof.
  intros Hwf Htab Hdom Henc. unfold remote_call, invoke, invoke_impl, import_impl.
  rewrite encode_values_encode. unfold request_encodable in Henc.
  pose proof Henc as Henc'. rewrite <- andb_assoc in Henc. apply andb_true_iff in Henc as [-> _].
  cbn [mbind option_bind]. eexists. split; [reflexivity|]. intros r w Hspec.
  assert (encode_request (symbol_id name) (map (rpc_to_rvalue moved_from) args)
          = Ok (wire_request (symbol_id name) (map (rpc_to_rvalue moved_from) args))) as ->
    by by apply encode_request_Ok_iff.
  unfold mbind at 1, eff_bind at 1, lift at 1. unfold round_trip.
  unfold mbind at 1, eff_bind at 1. rewrite (dispatch_run order exceptions _ _ _ _ Hwf Hspec).
  destruct r as [resp|e| |]; simpl; try done.
  - unfold mbind, eff_bind, lift. by destruct (decode_response resp).
  - destruct (encode_error _); simpl; try done. unfold mbind, eff_bind, lift. by destruct (decode_response a).
Qed.

(** C1: a call through the RPC backend is the call. When a client calls a name whose
    binder declares a signature with the types of its arguments, the first such
    signature's function runs on exactly those arguments, once, on the server's
    world, and the client gets its result, or a remote_error with the text of the
    exception it threw; when no signature has these types the client gets a
    remote_error and nothing runs. *)
Theorem remote_call_is_local_call (s : server) name n b t args :
  router_wf s -> route_table s !! symbol_id name = Some (n, LibraryBinder b) ->
  Forall native_dom args -> request_encodable (map (rpc_to_rvalue moved_from) args) = true ->
  exists call, remote_call name t args = Some call /\
  match find (selects args) (overloads b) with
  | None => call s = (Throw (remote_error (lit "RPC argument conversion or arity mismatch")), s)
  | Some c =>
      match callable_ b c args (outside s) with
      | (Ok r, w) =>
          result_type c = Some t -> type_of r = t -> native_dom r ->
          wire_fits (rpc_to_rvalue moved_from r) = true -> call s = (Ok r, with_outside s w)
      | (Throw e, w) =>
          let m := default (lit "unknown RPC server failure") (what e) in
          zlen m <= u32_max -> call s = (Throw (remote_error m), with_outside s w)
      | (Aborted, w) => call s = (Aborted, with_outside s w)
      | (Undefined, w) => call s = (Undefined, with_outside s w)
      end
  end.
Proof.
  intros Hwf Htab Hdom Henc.
  destruct (remote_call_run s name n b t args Hwf Htab Hdom Henc) as (call & Hcall & Hrun).
  exists call. split; [done|]. pose proof (request_reaches_binder s name n b args Htab Hdom Henc) as Hreach.
  assert (forall m, zlen m <= u32_max ->
    (response ← encode_error m; v ← decode_response response; rpc_from_cast moved_from t v)
    = Throw (remote_error m)) as Herr.
  { intros m Hm. rewrite encode_error_Ok by done. simpl. unfold decode_response.
    rewrite decode_wire_error by done. simpl. unfold DYNABRIDGE_RAISE. by rewrite exceptions. }
  destruct (find (selects args) (overloads b)) as [c|].
  - destruct (callable_ b c args (outside s)) as [[r|e| |] w] eqn:Hf; cbn [fst snd] in Hreach;
      rewrite (Hrun _ _ Hreach); try done.
    + intros Ht Htr Hdr Hfit. unfold result_value. rewrite Ht.
      rewrite (encode_response_fits _ Hfit). simpl. unfold decode_response.
      rewrite decode_wire_response by (done || by apply rpc_to_ok). simpl.
      unfold rpc_from_cast. rewrite <- Htr, (rpc_from_to moved_from r); [done..|].
      etransitivity; [apply canonical_equiv, rpc_to_ok, Hdr|apply rpc_to_rvalue_equiv].
    + intros m Hm. by rewrite Herr.
  - rewrite (Hrun _ _ Hreach). rewrite encode_error_Ok by by vm_compute.
    replace (with_outside s (outside s)) with s by by destruct s.
    f_equal. rewrite <- (Herr (lit "RPC argument conversion or arity mismatch")) by by vm_compute.
    by rewrite encode_error_Ok by by vm_compute.
Qed.
End RemoteCall.

(** ** A concrete call *)

Module SampleCall.
#[local] Instance policy : ErrorPolicy := {| has_exceptions := true |}.
Definition moved_from (s : text) : text := [].
Definition order (n : nat) : list nat := rev (seq 0 n).
Lemma sample_order_permutes n : Permutation (order n) (seq 0 n).
Proof. symmetry. apply Permutation_rev. Qed.

(** Two overloads; the world counts the calls. *)
Definition add_ints : contract scalar := mk_contract (Some SInt) [SInt; SInt] false.
Definition add_strings : contract scalar := mk_contract (Some SString) [SString; SString] false.
Definition add : target (T := scalar) (A := native) (R := native) (W := Z) := fun c args w =>
  match args with
  | [NInt a; NInt b] => (Ok (NInt (a + b)), w + 1)
  | [NString a; NString b] => (Ok (NString (a ++ b)), w + 1)
  | _ => (Throw (std_exception (lit "add")), w + 1)
  end.
Definition add_binder : binder scalar native native Z :=
  LibraryBinder (mk_binder [add_strings; add_ints] add).
Definition server : server scalar native native Z :=
  define_all [(lit "add", Ok add_binder)] (new_router 0).

Lemma server_wf : router_wf server.
Proof.
  apply (define_all_refines [(lit "add", Ok add_binder)] (new_router 0)); [apply empty_wf|].
  by repeat constructor.
Qed.
End SampleCall.

Lemma remote_call_is_local_call_witness :
  exists call, remote_call (H := SampleCall.policy) SampleCall.moved_from SampleCall.order (lit "add") SInt
                 [NInt 2; NInt (-5)] = Some call /\
  call SampleCall.server = (Ok (NInt (-3)), with_outside SampleCall.server 1).
Proof.
  destruct (remote_call_is_local_call (H := SampleCall.policy) SampleCall.moved_from eq_refl
              SampleCall.order SampleCall.sample_order_permutes SampleCall.server (lit "add") (lit "add")
              (mk_binder [SampleCall.add_strings; SampleCall.add_ints] SampleCall.add) SInt
              [NInt 2; NInt (-5)]) as (call & Hcall & Hrun).
  - apply SampleCall.server_wf.
  - by vm_compute.
  - repeat constructor; by vm_compute.
  - by vm_compute.
  - exists call. split; [exact Hcall|]. apply Hrun; by vm_compute.
Defined.
