(* ===== verification/AsyncOperation.v ===== *)
(** * async.h: one asynchronous operation, shared by its submitter and its completers

    [operation_state] is reached from the thread that submits the operation and from
    any number of threads that hold a copy of the completion token. A thread is a
    list of instructions: every critical section is one instruction, and so is every
    access outside the lock. A system steps by running the first instruction of any
    thread, or by a token holder starting a call. *)

From Stdlib Require Import ZArith Lia.
From stdpp Require Import base list.
From S2P Require Import Prelude.

Section Async.
(** The results and the errors of the operation. *)
Context {R E : Type}.

(** [async_result<R>]: a value or an error. *)
Inductive async_result := Value (r : R) | Failed (e : E).

(** [async_submission]. *)
Inductive async_submission := accept | reject_with (e : E).

(** The fields of [operation_state] that its logic depends on: the flags, the deferred
    detach, and whether each of the owning slots still holds its object. The last two
    fields record what the outside has seen: the results handed to the handler, with
    whether they retired the operation, and how often access was released. *)
Record operation_state := mk_state {
  delivered : bool;
  retired : bool;
  submitting : bool;
  cleaned : bool;
  pending_detach : option E;
  access_held : bool;
  context_held : bool;
  operation_held : bool;
  handler_held : bool;
  outputs : list (async_result * bool);
  released : nat
}.

(** Instructions of the threads. *)
Inductive instr :=
| CallOperation                                (** the submitter runs the operation *)
| RejectCheck (e : E)                          (** [reject], to its unlock *)
| Submitted                                    (** [submitted], to its unlock *)
| DeliverLock (r : async_result) (retire : bool) (** [deliver], to its unlock *)
| TakeHandler                                  (** the handler is moved out of its slot *)
| ReleaseAccess (held : bool)
| RunCallback (r : async_result) (retire : bool)
| CleanupLock                                  (** [cleanup], to its unlock *)
| CleanupSlots.

Definition finish (r : async_result) : list instr := [DeliverLock r true].
Definition detach (e : E) : list instr := [DeliverLock (Failed e) false].
Definition cleanup : list instr := [CleanupLock].
Definition reject (e : E) : list instr := [RejectCheck e].
Definition submitted : list instr := [Submitted].

Definition set_flags (delivered retired submitting cleaned : bool) (pending : option E) (access : bool)
    (s : operation_state) : operation_state :=
  mk_state delivered retired submitting cleaned pending access (context_held s) (operation_held s)
    (handler_held s) (outputs s) (released s).

(** The critical section of [deliver]; what the thread goes on with. *)
Definition deliver_lock (r : async_result) (retire : bool) (s : operation_state)
  : list instr * operation_state :=
  if negb retire && submitting s then
    ([], set_flags (delivered s) (retired s) (submitting s) (cleaned s)
           (match pending_detach s, r with None, Failed e => Some e | p, _ => p end) (access_held s) s)
  else if retire && retired s then ([], s)
  else
    let release := retire && access_held s in
    let s' := set_flags true (retire || retired s) (submitting s) (cleaned s) (pending_detach s)
                (negb retire && access_held s) s in
    if delivered s then ([ReleaseAccess release; CleanupLock], s')
    else ([TakeHandler; ReleaseAccess release; RunCallback r retire; CleanupLock], s').

(** [outcome] is what the operation returns to its submitter. *)
Definition run_instr (outcome_ : async_submission) (i : instr) : eff operation_state (list instr) := fun s =>
  match i with
  | CallOperation =>
      if operation_held s && context_held s then
        match outcome_ with
        | accept => (Ok submitted, s)
        | reject_with e => (Ok (reject e ++ submitted), s)
        end
      else (Undefined, s)
  | RejectCheck e => if retired s then (Aborted, s) else (Ok (finish (Failed e)), s)
  | Submitted =>
      let s' := set_flags (delivered s) (retired s) false (cleaned s) None (access_held s) s in
      (Ok (match pending_detach s with Some e => detach e | None => [] end ++ cleanup), s')
  | DeliverLock r retire => let '(is_, s') := deliver_lock r retire s in (Ok is_, s')
  | TakeHandler =>
      if handler_held s then
        (Ok [], mk_state (delivered s) (retired s) (submitting s) (cleaned s) (pending_detach s)
                  (access_held s) (context_held s) (operation_held s) false (outputs s) (released s))
      else (Undefined, s)
  | ReleaseAccess held =>
      (Ok [], mk_state (delivered s) (retired s) (submitting s) (cleaned s) (pending_detach s)
                (access_held s) (context_held s) (operation_held s) (handler_held s) (outputs s)
                (if held then S (released s) else released s))
  | RunCallback r retire =>
      (Ok [], mk_state (delivered s) (retired s) (submitting s) (cleaned s) (pending_detach s)
                (access_held s) (context_held s) (operation_held s) (handler_held s)
                ((r, retire) :: outputs s) (released s))
  | CleanupLock =>
      if negb (retired s) || submitting s || cleaned s then (Ok [], s)
      else (Ok [CleanupSlots],
            set_flags (delivered s) (retired s) (submitting s) true (pending_detach s) (access_held s) s)
  | CleanupSlots =>
      if operation_held s && context_held s then
        (Ok [], mk_state (delivered s) (retired s) (submitting s) (cleaned s) (pending_detach s)
                  (access_held s) false false (handler_held s) (outputs s) (released s))
      else (Undefined, s)
  end.

(** ** The system *)

Record system := mk_system { threads : list (list instr); state : operation_state }.

(** [static_invocation::start]: the state is made from the context, the operation, the
    handler and the access guard, and the submitter calls the operation. *)
Definition start (access : bool) : system :=
  mk_system [[CallOperation]] (mk_state false false true false None access true true true [] 0).

Inductive action :=
| Run (thread : nat) (outcome_ : async_submission)
| CallFinish (r : async_result)
| CallDetach (e : E).

(** [None] when the thread has nothing to run. *)
Definition act (a : action) (s : system) : option (outcome system) :=
  match a with
  | CallFinish r => Some (Ok (mk_system (threads s ++ [finish r]) (state s)))
  | CallDetach e => Some (Ok (mk_system (threads s ++ [detach e]) (state s)))
  | Run t o =>
      match threads s !! t with
      | Some (i :: rest) =>
          Some (match run_instr o i (state s) with
                | (Ok is_, st) => Ok (mk_system (<[t := is_ ++ rest]> (threads s)) st)
                | (Throw e, _) => Throw e
                | (Aborted, _) => Aborted
                | (Undefined, _) => Undefined
                end)
      | _ => None
      end
  end.

Inductive step : system -> system -> Prop :=
| do_act a s s' : act a s = Some (Ok s') -> step s s'.

(** ** Counting pending instructions *)

Fixpoint occ (p : instr -> bool) (l : list instr) : nat :=
  match l with [] => 0 | i :: l => (if p i then 1 else 0) + occ p l end.
Definition occurs (p : instr -> bool) (s : system) : nat := occ p (mjoin (threads s)).

Definition is_submit (i : instr) : bool :=
  match i with CallOperation | Submitted => true | _ => false end.
Definition is_call (i : instr) : bool := match i with CallOperation => true | _ => false end.
Definition is_take (i : instr) : bool := match i with TakeHandler => true | _ => false end.
Definition is_release (i : instr) : bool := match i with ReleaseAccess true => true | _ => false end.
Definition is_callback (i : instr) : bool := match i with RunCallback _ _ => true | _ => false end.
Definition is_detached_callback (i : instr) : bool :=
  match i with RunCallback _ false => true | _ => false end.
Definition is_cleanup (i : instr) : bool := match i with CleanupLock => true | _ => false end.
Definition is_slots (i : instr) : bool := match i with CleanupSlots => true | _ => false end.

Definition bool_nat (b : bool) : nat := if b then 1 else 0.

(** The invariant. *)
Record invariant (access : bool) (s : system) : Prop := {
  inv_submit : occurs is_submit s = bool_nat (submitting (state s));
  inv_take : occurs is_take s = bool_nat (delivered (state s) && handler_held (state s));
  inv_handler : delivered (state s) = false -> handler_held (state s) = true;
  inv_callback : (occurs is_callback s + length (outputs (state s)) = bool_nat (delivered (state s)))%nat;
  inv_deferred : submitting (state s) = true -> occurs is_detached_callback s = 0%nat
                 /\ Forall (fun o => o.2 = true) (outputs (state s));
  inv_access : (occurs is_release s + released (state s) + bool_nat (access_held (state s)) = bool_nat access)%nat;
  inv_kept : retired (state s) = false -> access_held (state s) = access;
  inv_retired_access : retired (state s) = true -> access_held (state s) = false;
  inv_retired : retired (state s) = true -> delivered (state s) = true;
  inv_pending : pending_detach (state s) ≠ None -> submitting (state s) = true;
  inv_slots : occurs is_slots s = bool_nat (cleaned (state s) && operation_held (state s));
  inv_held : operation_held (state s) = context_held (state s);
  inv_operation : cleaned (state s) = false -> operation_held (state s) = true;
  inv_cleaned : cleaned (state s) = true -> retired (state s) = true /\ submitting (state s) = false;
  inv_cleanup : retired (state s) = true -> submitting (state s) = false -> cleaned (state s) = false ->
                (1 <= occurs is_cleanup s)%nat
}.

Lemma occ_app p l k : occ p (l ++ k) = (occ p l + occ p k)%nat.
Proof. induction l as [|i l IH]; simpl; [done|]. rewrite IH. lia. Qed.

Lemma occurs_spawn p s l st :
  occurs p (mk_system (threads s ++ [l]) st) = (occurs p s + occ p l)%nat.
Proof. unfold occurs. simpl. rewrite join_app. simpl. rewrite app_nil_r. apply occ_app. Qed.

(** Running the head of a thread replaces it by what it goes on with. *)
Lemma occurs_run p s t i rest is_ st :
  threads s !! t = Some (i :: rest) ->
  (occurs p (mk_system (<[t := is_ ++ rest]> (threads s)) st) + bool_nat (p i)
   = occurs p s + occ p is_)%nat.
Proof.
  intros Ht. unfold occurs. cbn [threads].
  rewrite insert_take_drop by by eapply lookup_lt_Some.
  rewrite <- (take_drop_middle (threads s) t _ Ht) at 3.
  rewrite !join_app. cbn [mjoin list_join]. rewrite !occ_app. cbn [occ]. unfold bool_nat. lia.
Qed.

Lemma occurs_head p s t i rest :
  threads s !! t = Some (i :: rest) -> (bool_nat (p i) <= occurs p s)%nat.
Proof.
  intros Ht. unfold occurs. rewrite <- (take_drop_middle (threads s) t _ Ht), join_app.
  cbn [mjoin list_join]. rewrite !occ_app. cbn [occ]. unfold bool_nat. lia.
Qed.

(** What running an instruction does to every count, and the counts it had. *)
Ltac pose_counts Ht is_ st :=
  let go p := (pose proof (occurs_run p _ _ _ _ is_ st Ht); pose proof (occurs_head p _ _ _ _ Ht)) in
  go is_submit; go is_take; go is_release; go is_callback; go is_detached_callback; go is_cleanup;
  go is_slots.

Lemma start_invariant access : invariant access (start access).
Proof. split; try done; by destruct access. Qed.

Lemma spawn_invariant access s l :
  invariant access s -> l = [] \/ (exists r b, l = [DeliverLock r b]) ->
  invariant access (mk_system (threads s ++ [l]) (state s)).
Proof.
  intros Hinv Hl.
  assert (forall p, occ p l = 0%nat \/ exists r b, l = [DeliverLock r b]) as Hocc.
  { intros p. destruct Hl as [->|Hl]; [by left|by right]. }
  destruct Hinv. split; simpl; rewrite ?occurs_spawn; try done;
    destruct Hl as [->|(r & b & ->)]; simpl; rewrite ?Nat.add_0_r; done.
Qed.

Ltac proj := cbn [delivered retired submitting cleaned pending_detach access_held context_held operation_held
  handler_held outputs released set_flags threads state negb andb orb] in *.

(** Uses the implications whose premise is decided. *)
Ltac use_flags :=
  repeat match goal with
  | H : ?x = ?x -> _ |- _ => specialize (H eq_refl)
  | H : true = false -> _ |- _ => clear H
  | H : false = true -> _ |- _ => clear H
  | H : true = false |- _ => discriminate H
  | H : false = true |- _ => discriminate H
  | H : _ /\ _ |- _ => destruct H
  | H : ?x = true |- _ => is_var x; subst x
  | H : ?x = false |- _ => is_var x; subst x
  | H : None ≠ None -> _ |- _ => clear H
  | H : Some ?x ≠ None -> _ |- _ => specialize (H (not_eq_sym (None_ne_Some x)))
  end.

Ltac close_field :=
  use_flags; try assumption; try lia; try (split; [lia|]); auto.

(** One instruction, once every flag it reads is known. *)
Ltac close_run Hrun Hst :=
  try discriminate Hrun; injection Hrun as <- <-; cbn in *; use_flags; try lia;
  split; rewrite Hst; cbn; intros; close_field.

Lemma run_invariant access s t i rest o is_ st :
  invariant access s -> threads s !! t = Some (i :: rest) ->
  run_instr o i (state s) = (Ok is_, st) ->
  invariant access (mk_system (<[t := is_ ++ rest]> (threads s)) st).
Proof.
  intros Hinv Ht Hrun. pose_counts Ht is_ st. destruct Hinv. clear Ht.
  set (s' := mk_system (<[t := is_ ++ rest]> (threads s)) st) in *.
  assert (state s' = st) as Hst by done. clearbody s'.
  destruct (state s) as [del ret sub cln pend acc ctx op hnd out rel]. proj. subst ctx.
  destruct op, cln, ret, sub, del; use_flags.
  all: destruct i as [|e| |r retire| |held|r retire| |]; cbn [run_instr] in Hrun; proj.
  all: first
    [ solve [destruct o; close_run Hrun Hst]
    | solve [destruct pend; close_run Hrun Hst]
    | solve [destruct held; close_run Hrun Hst]
    | solve [destruct hnd; close_run Hrun Hst]
    | solve [destruct retire, hnd, pend; close_run Hrun Hst]
    | solve [destruct retire, acc, pend, r; close_run Hrun Hst] ].
Qed.

Definition reachable (access : bool) (s : system) : Prop := rtc step (start access) s.

Lemma run_act t o s s' :
  act (Run t o) s = Some (Ok s') ->
  exists i rest is_ st, threads s !! t = Some (i :: rest) /\ run_instr o i (state s) = (Ok is_, st)
    /\ s' = mk_system (<[t := is_ ++ rest]> (threads s)) st.
Proof.
  unfold act. destruct (threads s !! t) as [[|i rest]|] eqn:Ht; try done.
  destruct (run_instr o i (state s)) as [[is_|e| |] st] eqn:Hrun; intros Heq; simplify_eq.
  exists i, rest, is_, st. auto.
Qed.

Lemma operation_step_invariant access s s' : invariant access s -> step s s' -> invariant access s'.
Proof.
  intros Hinv Hs. destruct Hs as [a s s' Ha]. destruct a as [t o|r|e].
  - apply run_act in Ha as (i & rest & is_ & st & Ht & Hrun & ->). exact (run_invariant _ _ _ _ _ _ _ _ Hinv Ht Hrun).
  - cbn in Ha. simplify_eq. apply spawn_invariant; unfold finish; eauto.
  - cbn in Ha. simplify_eq. apply spawn_invariant; unfold detach; eauto.
Qed.

Lemma operation_steps_invariant access s s' : invariant access s -> rtc step s s' -> invariant access s'.
Proof. apply rtc_preserves. intros; by eapply operation_step_invariant. Qed.

Lemma operation_reachable_invariant access s : reachable access s -> invariant access s.
Proof. apply operation_steps_invariant, start_invariant. Qed.

(** ** What the outside sees *)

(** An instruction at the head of a thread runs, unless it is the check of [reject]. *)
Lemma run_safe access s t i rest o :
  invariant access s -> threads s !! t = Some (i :: rest) ->
  match run_instr o i (state s) with
  | (Ok _, _) => True
  | (Aborted, _) => (exists e, i = RejectCheck e) /\ retired (state s) = true
  | _ => False
  end.
Proof.
  intros [] Ht. pose proof (fun p => occurs_head p _ _ _ _ Ht) as Hh.
  destruct i as [|e| |r retire| |held|r retire| |]; cbn [run_instr]; try done.
  - specialize (Hh is_submit). cbn in Hh. rewrite inv_held0.
    assert (context_held (state s) = true) as ->; [|by destruct o].
    rewrite <- inv_held0. apply inv_operation0.
    destruct (cleaned (state s)); [|done].
    destruct inv_cleaned0 as [_ Hs]; [done|]. rewrite Hs in *. cbn in *. lia.
  - destruct (retired (state s)) eqn:?; eauto.
  - destruct (deliver_lock _ _ _). exact I.
  - specialize (Hh is_take). cbn in Hh. destruct (handler_held (state s)); [done|].
    rewrite andb_false_r in *. cbn in *. lia.
  - destruct (_ || _); exact I.
  - specialize (Hh is_slots). cbn in Hh. rewrite <- inv_held0, andb_diag.
    destruct (operation_held (state s)); [done|]. rewrite andb_false_r in *. cbn in *. lia.
Qed.

Lemma outputs_at_most_one access s :
  invariant access s -> (length (outputs (state s)) <= 1)%nat /\ (released (state s) <= bool_nat access)%nat.
Proof.
  intros []. split; [|lia]. assert (bool_nat (delivered (state s)) <= 1)%nat by (destruct (delivered _); simpl; lia). lia.
Qed.

(** C28: whatever the interleaving, the accesses to the slots find their objects: the
    operation and the context are there when the submitter calls, the handler when the
    thread that delivers moves it out, and they are destroyed at most once. The handler
    is called at most once and access is released at most once. The only abort is the
    contract check of [reject] when the operation has already been finished. *)
Theorem operation_safe access s a :
  reachable access s ->
  act a s ≠ Some Undefined /\
  (act a s = Some Aborted -> exists t o e rest, a = Run t o /\
     threads s !! t = Some (RejectCheck e :: rest) /\ retired (state s) = true) /\
  (length (outputs (state s)) <= 1)%nat /\ (released (state s) <= bool_nat access)%nat.
Proof.
  intros Hr. apply operation_reachable_invariant in Hr.
  split; [|split; [|by apply outputs_at_most_one]].
  all: destruct a as [t o| |]; try done; unfold act;
    destruct (threads s !! t) as [[|i rest]|] eqn:Ht; try done;
    pose proof (run_safe _ _ _ _ _ o Hr Ht) as Hsafe;
    destruct (run_instr o i (state s)) as [[] ?]; try done.
  intros _. destruct Hsafe as [[e ->] ?]. eauto 10.
Qed.

(** Every instruction strictly reduces the work left, so that without new calls a
    schedule ends. *)
Definition instr_weight (i : instr) : nat :=
  match i with
  | CallOperation => 22
  | RejectCheck _ => 8
  | Submitted => 12
  | DeliverLock _ _ => 7
  | CleanupLock => 2
  | _ => 1
  end.
Fixpoint thread_weight (l : list instr) : nat :=
  match l with [] => 0 | i :: l => instr_weight i + thread_weight l end.
Definition weight (s : system) : nat := thread_weight (mjoin (threads s)).

Lemma thread_weight_app l k : thread_weight (l ++ k) = (thread_weight l + thread_weight k)%nat.
Proof. induction l as [|i l IH]; simpl; [done|]. rewrite IH. lia. Qed.

Lemma run_weight o i s is_ st :
  run_instr o i s = (Ok is_, st) -> (thread_weight is_ < instr_weight i)%nat.
Proof.
  destruct i; cbn [run_instr deliver_lock]; intros Hrun; repeat case_match; simplify_eq/=; try lia.
  all: unfold deliver_lock in *; repeat case_match; simplify_eq/=; lia.
Qed.

Lemma weight_threads s t i rest is_ st :
  threads s !! t = Some (i :: rest) ->
  (weight (mk_system (<[t := is_ ++ rest]> (threads s)) st) + instr_weight i
   = weight s + thread_weight is_)%nat.
Proof.
  intros Ht. unfold weight. cbn [threads].
  rewrite insert_take_drop by by eapply lookup_lt_Some.
  rewrite <- (take_drop_middle (threads s) t _ Ht) at 3.
  rewrite !join_app. cbn [mjoin list_join]. rewrite !thread_weight_app. cbn [thread_weight]. lia.
Qed.

Lemma run_decreases t o s s' : act (Run t o) s = Some (Ok s') -> (weight s' < weight s)%nat.
Proof.
  intros (i & rest & is_ & st & Ht & Hrun & ->)%run_act.
  pose proof (weight_threads _ _ _ _ is_ st Ht). pose proof (run_weight _ _ _ _ _ Hrun). lia.
Qed.

Definition quiescent (s : system) : Prop := Forall (fun l => l = []) (threads s).

Lemma quiescent_occurs p s : quiescent s -> occurs p s = 0%nat.
Proof.
  unfold quiescent, occurs. intros Hq. induction Hq as [|l ls -> Hq IH]; [done|]. apply IH.
Qed.

(** A system that is not quiescent can always run a thread: no thread waits for another. *)
Lemma not_quiescent s : ~ quiescent s -> exists t i rest, threads s !! t = Some (i :: rest).
Proof.
  unfold quiescent. generalize (threads s). intros ls Hq.
  apply not_Forall_Exists, Exists_exists in Hq; [|apply _]. destruct Hq as ([|i rest] & Hin & Hne); [by destruct Hne|].
  apply list_elem_of_lookup_1 in Hin as [t Ht]. eauto.
Qed.

(** Whatever the scheduler picks, the threads that are there run out of work within
    [weight s] steps when the operation does not reject. *)
Definition is_reject (i : instr) : bool := match i with RejectCheck _ => true | _ => false end.
Definition no_reject (s : system) : Prop := occurs is_reject s = 0%nat.

Lemma run_no_reject i s is_ st :
  run_instr accept i s = (Ok is_, st) -> occ is_reject is_ = 0%nat.
Proof.
  intros Hrun. destruct i; cbn [run_instr] in Hrun; unfold deliver_lock in *;
    repeat case_match; simplify_eq/=; done.
Qed.

Lemma quiesce_within access n s :
  invariant access s -> no_reject s -> (weight s <= n)%nat ->
  exists s', rtc step s s' /\ quiescent s' /\ no_reject s'.
Proof.
  revert s. induction n as [n IH] using lt_wf_ind; intros s Hinv Hno Hw.
  destruct (decide (quiescent s)) as [|Hq]; [by eauto using rtc_refl|].
  destruct (not_quiescent _ Hq) as (t & i & rest & Ht).
  pose proof (run_safe _ _ _ _ _ accept Hinv Ht) as Hsafe.
  destruct (run_instr accept i (state s)) as [[is_|e| |] st] eqn:Hrun; try done.
  - set (s1 := mk_system (<[t := is_ ++ rest]> (threads s)) st).
    assert (act (Run t accept) s = Some (Ok s1)) as Ha by (unfold act; by rewrite Ht, Hrun).
    pose proof (run_decreases _ _ _ _ Ha).
    assert (step s s1) as Hstep by (by econstructor).
    destruct (IH (weight s1) ltac:(lia) s1) as (s' & Hs & Hq'); try done.
    + by eapply operation_step_invariant.
    + pose proof (occurs_run is_reject _ _ _ _ is_ st Ht) as Hocc.
      pose proof (run_no_reject _ _ _ _ Hrun). unfold no_reject in *. subst s1. lia.
    + exists s'. split; [by eapply rtc_l|done].
  - destruct Hsafe as [[e ->] _]. pose proof (occurs_head is_reject _ _ _ _ Ht) as Hh.
    unfold no_reject in Hno. rewrite Hno in Hh. cbn in Hh. lia.
Qed.

(** A finish in flight: it is pending, or it has retired the operation. *)
Definition is_finish (i : instr) : bool := match i with DeliverLock _ true => true | _ => false end.
Definition finishing (s : system) : Prop := retired (state s) = true \/ (1 <= occurs is_finish s)%nat.

Lemma run_finishing o i s is_ st :
  run_instr o i s = (Ok is_, st) ->
  (retired s = true -> retired st = true) /\ (is_finish i = true -> retired st = true).
Proof.
  intros Hrun.
  destruct i as [|e| |r [] | |held|r retire| |]; cbn [run_instr] in Hrun; unfold deliver_lock in *;
    repeat case_match; simplify_eq/=; (split; intros; simplify_eq/=; auto).
Qed.

Lemma finishing_step s s' : finishing s -> step s s' -> finishing s'.
Proof.
  intros Hf Hs. destruct Hs as [a s s' Ha]. destruct a as [t o|r|e].
  - apply run_act in Ha as (i & rest & is_ & st & Ht & Hrun & ->).
    pose proof (occurs_run is_finish _ _ _ _ is_ st Ht) as Hocc.
    destruct (run_finishing _ _ _ _ _ Hrun) as [Hret Hfin]. unfold finishing in *. cbn [state].
    destruct Hf as [Hf|Hf]; [by auto|]. destruct (is_finish i); [by auto|]. simpl in *. right. lia.
  - simplify_eq/=. destruct Hf; [by left|]. right. rewrite occurs_spawn. simpl. lia.
  - simplify_eq/=. destruct Hf; [by left|]. right. rewrite occurs_spawn. simpl. lia.
Qed.

Lemma finishing_steps s s' : finishing s -> rtc step s s' -> finishing s'.
Proof. apply rtc_preserves, finishing_step. Qed.

Lemma quiescent_state access s :
  invariant access s -> quiescent s ->
  submitting (state s) = false /\ pending_detach (state s) = None /\
  length (outputs (state s)) = bool_nat (delivered (state s)) /\
  handler_held (state s) = negb (delivered (state s)) /\
  (released (state s) + bool_nat (access_held (state s)) = bool_nat access)%nat /\
  operation_held (state s) = negb (retired (state s)) /\ context_held (state s) = negb (retired (state s)).
Proof.
  intros [] Hq. rewrite !(quiescent_occurs _ _ Hq) in *.
  destruct (state s) as [del ret sub cln pend acc ctx op hnd out rel]. proj. subst ctx.
  destruct sub; [done|]. assert (pend = None) as -> by (destruct pend; [by specialize (inv_pending0 (not_eq_sym (None_ne_Some _)))|done]).
  split_and!; try done.
  - destruct del, hnd; try done. by specialize (inv_handler0 eq_refl).
  - destruct op, cln, ret; use_flags; try done; cbn in *; lia.
  - destruct op, cln, ret; use_flags; try done; cbn in *; lia.
Qed.

Lemma finished_retires s0 s : finishing s0 -> rtc step s0 s -> quiescent s -> retired (state s) = true.
Proof.
  intros Hf Hs Hq. destruct (finishing_steps _ _ Hf Hs) as [|Hocc]; [done|]. rewrite (quiescent_occurs _ _ Hq) in Hocc. lia.
Qed.

(** C17: once a completer has called [finish] in any reachable system, every later system
    where no call is left to run has called the handler exactly once and destroyed it,
    released access exactly once if it was given, and destroyed the operation and the
    context. *)
Theorem finished_operation_completes access s0 s :
  reachable access s0 -> finishing s0 -> rtc step s0 s -> quiescent s ->
  retired (state s) = true /\ submitting (state s) = false /\
  length (outputs (state s)) = 1%nat /\ handler_held (state s) = false /\
  released (state s) = bool_nat access /\
  operation_held (state s) = false /\ context_held (state s) = false.
Proof.
  intros Hr Hf Hs Hq. pose proof (finished_retires _ _ Hf Hs Hq) as Hret.
  pose proof (operation_steps_invariant _ _ _ (operation_reachable_invariant _ _ Hr) Hs) as Hinv.
  destruct (quiescent_state _ _ Hinv Hq) as (Hsub & _ & Hout & Hh & Hrel & Hop & Hctx).
  destruct Hinv. rewrite Hret in *. specialize (inv_retired0 eq_refl). specialize (inv_retired_access0 eq_refl).
  rewrite inv_retired0, inv_retired_access0 in *. simpl in *. split_and!; auto; lia.
Qed.

(** An operation that is only detached keeps what it needs: with no call left to run
    and no [finish], the operation, the context and the access guard are still held, and
    the handler has been called once if it was taken, and is still held otherwise. *)
Theorem detached_operation_stays access s :
  reachable access s -> quiescent s -> retired (state s) = false ->
  submitting (state s) = false /\ pending_detach (state s) = None /\
  operation_held (state s) = true /\ context_held (state s) = true /\
  released (state s) = 0%nat /\ access_held (state s) = access /\
  length (outputs (state s)) = bool_nat (negb (handler_held (state s))).
Proof.
  intros Hr Hq Hret. apply operation_reachable_invariant in Hr.
  destruct (quiescent_state _ _ Hr Hq) as (Hsub & Hpend & Hout & Hh & Hrel & Hop & Hctx).
  destruct Hr. specialize (inv_kept0 Hret). rewrite Hret, inv_kept0, Hh in *. simpl in *.
  rewrite negb_involutive. split_and!; auto; lia.
Qed.

(** While the submitting call has not returned, no detach reaches the handler. *)
Theorem detach_waits_for_submission access s :
  reachable access s -> submitting (state s) = true ->
  Forall (fun o => o.2 = true) (outputs (state s)) /\
  forall t r rest, threads s !! t ≠ Some (RunCallback r false :: rest).
Proof.
  intros Hr Hsub. apply operation_reachable_invariant in Hr. destruct Hr.
  destruct (inv_deferred0 Hsub) as [Hz Hall]. split; [done|]. intros t r rest Ht.
  pose proof (occurs_head is_detached_callback _ _ _ _ Ht) as Hh. cbn in Hh. lia.
Qed.

(** No thread waits for another: every step of a thread reduces the work left, so a
    schedule without new calls has at most [weight s] steps, and if the operation does
    not reject, some schedule of what is left runs everything to the end. *)
Theorem operation_wait_free access s :
  reachable access s ->
  (forall t o s', act (Run t o) s = Some (Ok s') -> (weight s' < weight s)%nat) /\
  (no_reject s -> exists s', rtc step s s' /\ quiescent s').
Proof.
  intros Hr. split; [by intros; eapply run_decreases|]. intros Hno.
  destruct (quiesce_within access (weight s) s) as (s' & Hs & Hq & _); eauto using operation_reachable_invariant.
Qed.

(** Runs a schedule. *)
Fixpoint acts (l : list action) (s : system) : option system :=
  match l with
  | [] => Some s
  | a :: l => match act a s with Some (Ok s') => acts l s' | _ => None end
  end.

Lemma operation_acts_steps l s s' : acts l s = Some s' -> rtc step s s'.
Proof.
  revert s. induction l as [|a l IH]; simpl; intros s Ha; [by simplify_eq; apply rtc_refl|].
  destruct (act a s) as [[s1| | |]|] eqn:Hact; try done. eapply rtc_l; [|by apply IH]. by econstructor.
Qed.
End Async.

Arguments async_result : clear implicits.
Arguments operation_state : clear implicits.
Arguments system : clear implicits.
Arguments action : clear implicits.

(** ** Invocations: operations that have not been started *)

Section Invocation.
Context {R E : Type}.

(** [static_invocation]: which of its slots hold an object, and whether the access guard
    is given. *)
Record static_invocation := mk_invocation {
  context_ : bool;
  access_ : bool;
  operation_ : bool
}.

(** [async_detail::require]. *)
Definition require {S} (condition : bool) : eff S unit := fun s =>
  if condition then (Ok tt, s) else (Aborted, s).

(** The constructor, and [make_invocation] around it. *)
Definition new_static_invocation (owner access : bool) : outcome static_invocation :=
  if owner then Ok (mk_invocation owner access true) else Aborted.
Definition make_invocation := new_static_invocation.

(** The move constructor: the shared pointers of the source are left empty, its
    operation is moved from but its slot stays engaged. *)
Definition move_static_invocation (other : static_invocation) : static_invocation * static_invocation :=
  (other, mk_invocation false false (operation_ other)).
Definition move_assign_static_invocation (this other : static_invocation) (same : bool)
  : static_invocation * static_invocation :=
  if same then (this, this) else move_static_invocation other.

(** [static_invocation::start], on the object it consumes. *)
Definition static_start : eff static_invocation (system R E) := fun this =>
  if operation_ this && context_ this then
    (Ok (start (access_ this)), mk_invocation false false false)
  else (Aborted, this).

(** [invocation]: the erased operation, owned by a [unique_ptr]. *)
Definition invocation := option static_invocation.
Definition erase_invocation (call : static_invocation) : invocation := Some (move_static_invocation call).1.
Definition move_invocation (other : invocation) : invocation * invocation := (other, None).
(** The operation is moved to a local before it starts, and destroyed with it. *)
Definition invocation_start : eff invocation (system R E) := fun this =>
  match this with
  | None => (Aborted, None)
  | Some call => ((static_start call).1, None)
  end.

(** An invocation that was made for a context starts, static or erased, as the same
    system; it starts only once, and neither does what was moved from. *)
Theorem invocation_starts_once owner access inv :
  make_invocation owner access = Ok inv ->
  owner = true /\
  (static_start inv).1 = Ok (start access) /\
  (invocation_start (erase_invocation inv)).1 = Ok (start access) /\
  (static_start (static_start inv).2).1 = Aborted /\
  (static_start (move_static_invocation inv).2).1 = Aborted /\
  (invocation_start (invocation_start (erase_invocation inv)).2).1 = Aborted /\
  (invocation_start (move_invocation (erase_invocation inv)).2).1 = Aborted.
Proof.
  unfold make_invocation, new_static_invocation. destruct owner; intros Hinv; simplify_eq/=; auto 10.
Qed.
End Invocation.

(** ** Schedules *)

Module Sample.
(** A completer finishes with 7 while the submitter is still in the operation and a
    second one detaches; the submitter's [submitted] runs the cleanup. *)
Definition racing : list (action nat nat) :=
  [CallFinish (Value 7%nat); CallDetach 1%nat; Run 2%nat accept; Run 1%nat accept; Run 1%nat accept; Run 1%nat accept].
Definition rest : list (action nat nat) :=
  [Run 1%nat accept; Run 1%nat accept; Run 0%nat accept; Run 0%nat accept; Run 0%nat accept; Run 0%nat accept; Run 0%nat accept;
   Run 0%nat accept; Run 0%nat accept].
(** Only a detach, while the operation is being submitted, then the submitter returns. *)
Definition detached : list (action nat nat) :=
  [Run 0%nat accept; CallDetach 1%nat; Run 1%nat accept; Run 0%nat accept; Run 0%nat accept; Run 0%nat accept; Run 0%nat accept;
   Run 0%nat accept; Run 0%nat accept; Run 0%nat accept].
Definition after (l : list (action nat nat)) : system nat nat :=
  default (start true) (acts l (start true)).

Lemma operation_after_reachable l : acts l (start true) ≠ None -> reachable true (after l).
Proof.
  unfold after. destruct (acts l (start true)) as [s|] eqn:Hl; [|done]. intros _.
  by eapply operation_acts_steps.
Qed.
End Sample.

Lemma operation_safe_witness :
  act (Run 1%nat accept) (Sample.after Sample.racing) ≠ Some Undefined.
Proof.
  apply (operation_safe true (Sample.after Sample.racing) (Run 1%nat accept)).
  apply Sample.operation_after_reachable. vm_compute. discriminate.
Defined.

Lemma finished_operation_completes_witness :
  outputs (state (Sample.after (Sample.racing ++ Sample.rest))) = [(Value 7%nat, true)] /\
  released (state (Sample.after (Sample.racing ++ Sample.rest))) = 1%nat.
Proof.
  split; [vm_compute; reflexivity|].
  apply (finished_operation_completes true (Sample.after Sample.racing)).
  - apply Sample.operation_after_reachable. vm_compute. discriminate.
  - left. vm_compute; reflexivity.
  - apply (operation_acts_steps Sample.rest). vm_compute; reflexivity.
  - vm_compute. repeat constructor.
Defined.

Lemma detached_operation_stays_witness :
  outputs (state (Sample.after Sample.detached)) = [(Failed 1%nat, false)] /\
  operation_held (state (Sample.after Sample.detached)) = true.
Proof.
  split; [vm_compute; reflexivity|].
  apply (detached_operation_stays true (Sample.after Sample.detached)).
  - apply Sample.operation_after_reachable. vm_compute. discriminate.
  - vm_compute. repeat constructor.
  - vm_compute; reflexivity.
Defined.

Lemma detach_waits_for_submission_witness :
  Forall (fun o => o.2 = true) (outputs (state (Sample.after Sample.racing))).
Proof.
  apply (detach_waits_for_submission true (Sample.after Sample.racing)).
  - apply Sample.operation_after_reachable. vm_compute. discriminate.
  - vm_compute; reflexivity.
Defined.

Lemma operation_wait_free_witness :
  exists s', rtc step (Sample.after Sample.racing) s' /\ quiescent s'.
Proof.
  apply (operation_wait_free true (Sample.after Sample.racing)).
  - apply Sample.operation_after_reachable. vm_compute. discriminate.
  - vm_compute; reflexivity.
Defined.

Lemma invocation_starts_once_witness :
  (invocation_start (R:=nat) (E:=nat) (erase_invocation (mk_invocation true true true))).1 = Ok (start true).
Proof. apply (invocation_starts_once true true). reflexivity. Defined.
