(* ===== verification/AsyncImport.v ===== *)
(** * async_import.h, async_generate.h: asynchronous calls of imported members

    A call is prepared on the caller's side: the contract is selected with the original
    argument expressions, the arguments are captured by value, and a hook of the backend
    makes a cold operation that shares the ownership of the receiver. Prepared calls are
    the invocations of [AsyncOperation]; a program interleaves binding, preparing, starting
    and dropping them. *)

From Stdlib Require Import ZArith Lia.
From stdpp Require Import base list gmap gmultiset.
From S2P Require Import Prelude Ownership ExportDispatch Import AsyncOperation.

(** ** Argument types *)

Inductive reference := NoReference | LvalueReference | RvalueReference.
#[export] Instance reference_eq_dec : EqDecision reference.
Proof. solve_decision. Defined.

(** A type: an object type, its const, and the reference to it. An argument expression has
    the type that [Args&&] deduces, so that only lvalues are references. *)
Record cpp_type (T : Type) := mk_type { decayed : T; is_const : bool; reference_ : reference }.
Arguments mk_type {T}.
Arguments decayed {T}.
Arguments is_const {T}.
Arguments reference_ {T}.
#[export] Instance cpp_type_eq_dec {T} `{EqDecision T} : EqDecision (cpp_type T).
Proof. solve_decision. Defined.

Definition is_reference {T} (d : declared (cpp_type T)) : bool :=
  match d with value_param t => negb (bool_decide (reference_ t = NoReference)) | _ => false end.
Definition is_lvalue_reference {T} (d : declared (cpp_type T)) : bool :=
  match d with value_param t => bool_decide (reference_ t = LvalueReference) | _ => false end.
Definition is_const_referred {T} (d : declared (cpp_type T)) : bool :=
  match d with value_param t => is_const t | _ => false end.

(** [safe_signature]. *)
Definition safe_signature {T} (args : list (declared (cpp_type T))) : bool :=
  forallb (fun a => negb (is_lvalue_reference a) || is_const_referred a) args.

(** [contract_result]; [None] where a static assertion fails, [Some None] for void. *)
Definition contract_result {T} (c : contract (declared (cpp_type T))) : option (option (declared (cpp_type T))) :=
  if match result_type c with Some r => is_reference r | None => false end then None
  else if safe_signature (parameters c) then Some (result_type c) else None.

(** ** Capturing *)

(** What [async_capture] says of a decayed type: the three specialisations of the header,
    one of the user, or none. *)
Inductive capture_class := Arithmetic | OwnedString | Retained | UserCapture | NotCaptured.

Section Capture.
Context {T X V W : Type} `{EqDecision T}.
Context (convertible : cpp_type T -> parameter (cpp_type T) -> bool)
  (better : cpp_type T -> parameter (cpp_type T) -> parameter (cpp_type T) -> bool).
Context (classify : T -> capture_class).
(** The copy of a [std::string], and of a shared pointer; a capture of the user, whether it
    is declared noexcept, and whether what it yields moves without throwing. *)
Context (copy_string copy_shared : V -> eff W V)
  (user_capture : cpp_type T -> V -> eff W V) (user_noexcept user_nothrow_move : cpp_type T -> bool).
(** [!DYNABRIDGE_HAS_EXCEPTIONS && DYNABRIDGE_NO_EXCEPTION_STRICT]; the destructor of a
    captured value; the order of evaluation of the arguments of [make_tuple]. *)
Context (strict : bool) (destroy_value : V -> W -> W) (order : nat -> list nat).

(** An argument that may be moved from. *)
Definition is_movable (x : cpp_type T) : bool :=
  negb (bool_decide (reference_ x = LvalueReference)) && negb (is_const x).

(** [async_capture<decay<X>>::capture]. *)
Definition async_capture (x : cpp_type T) (v : V) : option (eff W V) :=
  match classify (decayed x) with
  | Arithmetic => Some (mret v)
  | OwnedString => Some (if is_movable x then mret v else copy_string v)
  | Retained => Some (if is_movable x then mret v else copy_shared v)
  | UserCapture => Some (user_capture x v)
  | NotCaptured => None
  end.
Definition capture_noexcept (x : cpp_type T) : bool :=
  match classify (decayed x) with
  | OwnedString => is_movable x
  | UserCapture => user_noexcept x
  | _ => true
  end.
Definition captured_nothrow_move (x : cpp_type T) : bool :=
  match classify (decayed x) with UserCapture => user_nothrow_move x | _ => true end.

(** [async_detail::capture]: strict builds assert both. *)
Definition capture (x : cpp_type T) (v : V) : option (eff W V) :=
  if strict && negb (captured_nothrow_move x && capture_noexcept x) then None else async_capture x v.

Definition capture_jobs (args : list (cpp_type T * V)) : option (list (eff W V)) :=
  mapM (fun a => capture a.1 a.2) args.

(** [std::make_tuple(capture(args)...)], of which every value is moved into the tuple: it is
    a temporary until all are captured, and belongs to the tuple afterwards. *)
Fixpoint take_values (ns : list nat) : eff (import_state V W) (list V) :=
  match ns with
  | [] => mret []
  | n :: ns => fun s =>
      match owned s !! n with
      | None => (Undefined, s)
      | Some v =>
          (vs ← take_values ns; mret (v :: vs))
            (mk_import (delete n (owned s)) (next_owned s) (outside s))
      end
  end.
Definition capture_tuple (jobs : list (eff W V)) : eff (import_state V W) (list V) :=
  made ← lower_each destroy_value (order (length jobs)) jobs [];
  take_values (omap (position made) (seq 0 (length jobs))).

(** The part of [prepare] before the hook: the selector reads the original argument types,
    before the capture changes their categories. *)
Definition prepare_arguments (flat : bool) (cs : list (contract (declared (cpp_type T))))
    (args : list (cpp_type T * V)) : option (contract (declared (cpp_type T)) * eff (import_state V W) (list V)) :=
  c ← select convertible better flat cs args.*1;
  jobs ← capture_jobs args;
  Some (c, capture_tuple jobs).
End Capture.

Section CaptureProofs.
Context {T V W : Type} `{EqDecision T}.
Context (convertible : cpp_type T -> parameter (cpp_type T) -> bool)
  (better : cpp_type T -> parameter (cpp_type T) -> parameter (cpp_type T) -> bool).
Context (classify : T -> capture_class) (copy_string copy_shared : V -> eff W V)
  (user_capture : cpp_type T -> V -> eff W V) (user_noexcept user_nothrow_move : cpp_type T -> bool)
  (strict : bool) (destroy_value : V -> W -> W) (order : nat -> list nat).
Context (order_permutes : forall n, Permutation (order n) (seq 0 n)).
(** The copies and the captures of the user respect the language; noexcept is kept. *)
Context (copy_string_defined : forall v w, (copy_string v w).1 ≠ Undefined)
  (copy_shared_ok : forall v w, exists r w', copy_shared v w = (Ok r, w'))
  (user_defined : forall x v w, (user_capture x v w).1 ≠ Undefined)
  (user_noexcept_ok : forall x v w, user_noexcept x = true -> exists r w', user_capture x v w = (Ok r, w')).
Abbreviation capture := (capture classify copy_string copy_shared user_capture user_noexcept user_nothrow_move strict).
Abbreviation capture_jobs := (capture_jobs classify copy_string copy_shared user_capture user_noexcept user_nothrow_move strict).
Abbreviation capture_tuple := (capture_tuple destroy_value order).

Lemma capture_runs x v job w :
  capture x v = Some job ->
  (job w).1 ≠ Undefined /\ (strict = true -> exists r w', job w = (Ok r, w')).
Proof.
  unfold AsyncImport.capture, async_capture, capture_noexcept. intros Hj.
  destruct (strict && _) eqn:Hs; [done|].
  destruct (classify (decayed x)) eqn:?; simplify_eq.
  - split; [done|]. intros _. by exists v, w.
  - destruct (is_movable x) eqn:Hm; [split; [done|]; intros _; by exists v, w|].
    split; [apply copy_string_defined|]. intros ->. by rewrite andb_false_r in Hs.
  - destruct (is_movable x); [split; [done|]; intros _; by exists v, w|].
    destruct (copy_shared_ok v w) as (r & w' & Hr). rewrite Hr. eauto.
  - split; [apply user_defined|]. intros ->. apply user_noexcept_ok.
    destruct (user_noexcept x); [done|]. by rewrite andb_false_r in Hs.
Qed.

Lemma take_values_holds (base : gmap nat V) ns (s : import_state V W) :
  holds base ns s -> exists vs s', take_values ns s = (Ok vs, s') /\ owned s' = base /\ outside s' = outside s /\
    Forall2 (fun n v => owned s !! n = Some v) ns vs.
Proof.
  revert s. induction ns as [|n ns IH]; intros s Hh; cbn [take_values].
  - exists [], s. split_and!; try done. by apply holds_nothing.
  - destruct (holds_delete base n ns s (outside s) Hh) as [[v Hv] Hd]. rewrite Hv.
    destruct (IH _ Hd) as (vs & s' & Hrun & Ho & Hw & Hall). exists (v :: vs), s'.
    rewrite (eff_bind_run _ _ _ _ _ Hrun). split_and!; [done..|]. constructor; [done|].
    eapply Forall2_impl; [exact Hall|]. cbn. intros m v' Hm.
    destruct (decide (m = n)) as [->|]; [by rewrite lookup_delete_eq in Hm|by rewrite lookup_delete_ne in Hm].
Qed.

Lemma position_all {Y} (made : list (nat * Y)) :
  NoDup made.*1 -> omap (position made) made.*1 = made.*2.
Proof.
  induction made as [|[i y] made IH]; simpl; intros Hnd; [done|]. apply NoDup_cons in Hnd as [Hi Hnd].
  rewrite decide_True by done. f_equal. etrans; [|exact (IH Hnd)]. apply list_omap_ext, Forall_Forall2_diag, Forall_forall.
  intros j Hj. case_decide; [by subst|done].
Qed.

Lemma position_permutes {Y} (made : list (nat * Y)) is_ :
  Permutation made.*1 is_ -> NoDup is_ -> Permutation (omap (position made) is_) made.*2.
Proof.
  intros Hp Hnd. rewrite <- (position_all made) by (by rewrite Hp).
  revert Hp. generalize made.*1. intros l Hp. clear -Hp. symmetry in Hp.
  induction Hp; simpl; repeat case_match; try done.
  - by constructor.
  - by constructor.
  - by etrans.
Qed.

Definition jobs_run (jobs : list (eff W V)) : Prop :=
  Forall (fun job : eff W V => forall w, (job w).1 ≠ Undefined) jobs.

Lemma capture_jobs_run args jobs :
  capture_jobs args = Some jobs ->
  length jobs = length args /\ jobs_run jobs /\
  (strict = true -> Forall (fun job : eff W V => forall w, exists r w', job w = (Ok r, w')) jobs).
Proof.
  intros Hj. apply mapM_Some in Hj. split; [by symmetry; eapply Forall2_length|].
  split; [|intros Hs]; apply Forall_forall; intros job Hjob w;
    apply list_elem_of_lookup in Hjob as [i Hi];
    destruct (Forall2_lookup_r _ _ _ _ _ Hj Hi) as ([x v] & _ & Hc); by apply (capture_runs x v job w Hc).
Qed.

Lemma lower_each_ok jobs : Forall (fun job : eff W V => forall w, exists r w', job w = (Ok r, w')) jobs ->
  forall is_ made (s : import_state V W), (forall i, i ∈ is_ -> is_Some (jobs !! i)) ->
  exists r s', lower_each destroy_value is_ jobs made s = (Ok r, s').
Proof.
  intros Hall is_. induction is_ as [|i is_ IH]; intros made s Hin; cbn [lower_each]; [by eexists _, _|].
  destruct (Hin i) as [job Hj]; [left|]. rewrite Hj.
  rewrite Forall_forall in Hall. destruct (Hall job) with (w := outside s) as (r & w' & Hr); [by eapply list_elem_of_lookup_2|].
  unfold lower, on_outside, mbind, eff_bind. rewrite Hr. apply IH. intros k Hk. apply Hin. by right.
Qed.

Lemma capture_tuple_spec jobs s :
  fresh s -> jobs_run jobs ->
  match capture_tuple jobs s with
  | (Ok vs, s') => owned s' = owned s /\ exists vals,
      spec_lower (order (length jobs)) jobs [] (outside s) = (Ok vals, outside s') /\
      Forall2 (fun i v => position vals i = Some v) (seq 0 (length jobs)) vs
  | (Throw _, s') => owned s' = owned s
  | (Aborted, _) => True
  | (Undefined, _) => False
  end.
Proof.
  intros Hf Hjobs.
  assert (jobs_defined (order (length jobs)) jobs) as Hdef.
  { intros i Hi. rewrite order_permutes in Hi. apply elem_of_seq in Hi.
    destruct (lookup_lt_is_Some_2 jobs i) as [job Hj]; [lia|]. exists job. split; [done|].
    by eapply Forall_lookup_1 in Hjobs. }
  assert (holds (owned s) [] s) as Hh.
  { split_and!; [constructor| |done|done]. by intros n ?%not_elem_of_nil. }
  pose proof (lower_each_holds destroy_value (owned s) jobs (order (length jobs)) [] [] s Hh ltac:(constructor) Hdef) as Hl.
  unfold AsyncImport.capture_tuple. unfold mbind at 1, eff_bind at 1.
  destruct (lower_each destroy_value (order (length jobs)) jobs [] s) as [[made|e| |] s1]; try done.
  destruct Hl as [Hh1 (vals & Hm & Hv & Hspec)].
  assert (made.*1 = vals.*1) as Hfst.
  { clear -Hm. induction Hm as [|? ? ? ? [? _]]; simpl; [done|]. by f_equal. }
  assert (Permutation made.*1 (seq 0 (length jobs))) as Hp.
  { rewrite Hfst, Hv, app_nil_r, <- (order_permutes (length jobs)). symmetry. apply Permutation_rev. }
  pose proof (position_permutes made _ Hp (NoDup_seq _ _)) as Hpos.
  destruct (take_values_holds (owned s) _ s1 (holds_perm _ _ _ _ (symmetry Hpos) Hh1)) as (vs & s2 & Hrun & Ho & Hw & Hall).
  rewrite Hrun. split; [done|]. exists vals. rewrite Hw. split; [done|].
  assert (forall i, i ∈ seq 0 (length jobs) -> is_Some (position made i)) as Hsome.
  { intros i Hi. rewrite <- Hp in Hi. clear -Hi. induction made as [|[j n] made IH]; simpl in *; [by apply not_elem_of_nil in Hi|].
    case_decide; [by eauto|]. apply IH. by apply elem_of_cons in Hi as [|]. }
  clear -Hall Hsome Hm. revert vs Hall. induction (seq 0 (length jobs)) as [|i l IH]; intros vs Hall; simpl in *.
  { inversion Hall. constructor. }
  destruct (Hsome i) as [n Hn]; [left|]. rewrite Hn in Hall. inversion Hall as [|? v ? vs' Hv Hall']; subst.
  constructor; [|apply IH; [|done]; intros k Hk; apply Hsome; by right].
  rewrite <- (made_position made vals s1 i Hm), Hn. done.
Qed.

Lemma take_values_ends ns (s : import_state V W) :
  (exists vs, (take_values ns s).1 = Ok vs) \/ (take_values ns s).1 = Undefined.
Proof.
  revert s. induction ns as [|n ns IH]; intros s; cbn [take_values]; [left; by exists []|].
  destruct (owned s !! n); [|by right]. unfold mbind, eff_bind.
  destruct (IH (mk_import (delete n (owned s)) (next_owned s) (outside s))) as [[vs Hv]|Hv];
    destruct (take_values ns _) as [[] ?]; simplify_eq/=; eauto.
Qed.

Lemma capture_tuple_ok jobs s :
  Forall (fun job : eff W V => forall w, exists r w', job w = (Ok r, w')) jobs ->
  (exists vs, (capture_tuple jobs s).1 = Ok vs) \/ (capture_tuple jobs s).1 = Undefined.
Proof.
  intros Hall. destruct (lower_each_ok jobs Hall (order (length jobs)) [] s) as (made & s1 & Hl).
  { intros i Hi. rewrite order_permutes in Hi. apply elem_of_seq in Hi. apply lookup_lt_is_Some_2. lia. }
  unfold AsyncImport.capture_tuple. rewrite (eff_bind_run _ _ _ _ _ Hl). apply take_values_ends.
Qed.

(** C31: an asynchronous call compiles against the contract that the original argument
    expressions select; each argument is captured once, in its position, whatever the order
    of evaluation, and a capture that throws leaves nothing behind; in strict builds no
    capture throws. *)
Theorem async_capture_exact flat cs args c m s :
  prepare_arguments convertible better classify copy_string copy_shared user_capture user_noexcept
    user_nothrow_move strict destroy_value order flat cs args = Some (c, m) ->
  fresh s ->
  select convertible better flat cs args.*1 = Some c /\
  exists jobs, capture_jobs args = Some jobs /\
  match m s with
  | (Ok vs, s') => owned s' = owned s /\ exists vals,
      spec_lower (order (length args)) jobs [] (outside s) = (Ok vals, outside s') /\
      Forall2 (fun i v => position vals i = Some v) (seq 0 (length args)) vs
  | (Throw _, s') => owned s' = owned s /\ strict = false
  | (Aborted, _) => strict = false
  | (Undefined, _) => False
  end.
Proof.
  intros Hp Hf. unfold prepare_arguments in Hp. apply bind_Some in Hp as (c' & Hc & Hp).
  apply bind_Some in Hp as (jobs & Hj & Hp). simplify_eq. split; [done|]. exists jobs. split; [done|].
  destruct (capture_jobs_run _ _ Hj) as (Hlen & Hrun & Hstrict). rewrite <- Hlen.
  pose proof (capture_tuple_spec jobs s Hf Hrun) as Hspec.
  assert (strict = false \/ exists vs, (capture_tuple jobs s).1 = Ok vs) as Hok.
  { destruct (strict) eqn:Hs; [right|by left]. 
    destruct (capture_tuple_ok jobs s (Hstrict eq_refl)) as [|Hu]; [done|].
    destruct (capture_tuple jobs s) as [[] ?]; simplify_eq/=; done. }
  destruct (capture_tuple jobs s) as [[vs|e| |] s'] eqn:Hrun'; try done;
    destruct Hok as [|[? ?]]; simplify_eq/=; done.
Qed.
End CaptureProofs.

(** ** Shared ownership of the receiver *)

(** What is destroyed, and for which context. *)
Inductive destroyed := ReceiverDestroyed (box context : nat) | ContextDestroyed (context : nat).

(** The control blocks: a [shared_ptr] to a context, or to an [owned_receiver], is one
    element of a multiset, so that the multiplicity is the strong count. [boxes] holds the
    contents of the live [owned_receiver]s: their context and receiver. *)
Record world (O W : Type) := mk_world {
  contexts : gmultiset nat;
  next_context : nat;
  receivers : gmultiset nat;
  boxes : gmap nat (nat * O);
  next_receiver : nat;
  log : list destroyed;
  user : W
}.
Arguments mk_world {O W}.
Arguments contexts {O W}.
Arguments next_context {O W}.
Arguments receivers {O W}.
Arguments boxes {O W}.
Arguments next_receiver {O W}.
Arguments log {O W}.
Arguments user {O W}.

Section Ownership.
Context {O W : Type}.
Abbreviation M := (eff (world O W)).

Definition on_user {A} (m : eff W A) : M A := fun s =>
  let '(r, w) := m (user s) in
  (r, mk_world (contexts s) (next_context s) (receivers s) (boxes s) (next_receiver s) (log s) w).

(** [std::make_shared<Context>()]; copies and destructors of the pointers. The last
    destructor destroys the object. *)
Definition make_context : M nat := fun s =>
  (Ok (next_context s),
   mk_world ({[+ next_context s +]} ⊎ contexts s) (S (next_context s)) (receivers s) (boxes s) (next_receiver s)
     (log s) (user s)).
Definition copy_context (c : nat) : M unit := fun s =>
  if decide (c ∈ contexts s) then
    (Ok tt, mk_world ({[+ c +]} ⊎ contexts s) (next_context s) (receivers s) (boxes s) (next_receiver s) (log s) (user s))
  else (Undefined, s).
Definition release_context (c : nat) : M unit := fun s =>
  if decide (c ∈ contexts s) then
    let left_ := contexts s ∖ {[+ c +]} in
    (Ok tt, mk_world left_ (next_context s) (receivers s) (boxes s) (next_receiver s)
              (if decide (c ∈ left_) then log s else ContextDestroyed c :: log s) (user s))
  else (Undefined, s).

Definition copy_receiver (b : nat) : M unit := fun s =>
  if decide (b ∈ receivers s) then
    (Ok tt, mk_world (contexts s) (next_context s) ({[+ b +]} ⊎ receivers s) (boxes s) (next_receiver s) (log s) (user s))
  else (Undefined, s).
(** The members of [owned_receiver] are destroyed in reverse order: the receiver, then the
    context pointer. *)
Definition release_receiver (b : nat) : M unit := fun s =>
  if decide (b ∈ receivers s) then
    let left_ := receivers s ∖ {[+ b +]} in
    if decide (b ∈ left_) then
      (Ok tt, mk_world (contexts s) (next_context s) left_ (boxes s) (next_receiver s) (log s) (user s))
    else match boxes s !! b with
         | Some (c, _) =>
             release_context c
               (mk_world (contexts s) (next_context s) left_ (delete b (boxes s)) (next_receiver s)
                  (ReceiverDestroyed b c :: log s) (user s))
         | None => (Undefined, s)
         end
  else (Undefined, s).

(** What a running operation reads: the receiver, and through it the context. *)
Definition use_receiver (b : nat) : M O := fun s =>
  match boxes s !! b with
  | Some (c, o) => if decide (c ∈ contexts s) then (Ok o, s) else (Undefined, s)
  | None => (Undefined, s)
  end.
Definition use_context (c : nat) : M unit := fun s =>
  if decide (c ∈ contexts s) then (Ok tt, s) else (Undefined, s).

(** The allocation of [std::make_shared], and the constructor of the delegate, which reads
    the context. *)
Context (allocate : eff W unit) (construct_delegate : nat -> eff W O).

Definition make_box (c : nat) (o : O) : M nat := fun s =>
  let b := next_receiver s in
  (Ok b, mk_world (contexts s) (next_context s) ({[+ b +]} ⊎ receivers s) (<[b := (c, o)]> (boxes s)) (S b)
           (log s) (user s)).
(** [owned_receiver(c, object)]: when the delegate throws, the context pointer is destroyed. *)
Definition owned_receiver (c : nat) : M nat :=
  o ← unwinding (use_context c ;; on_user (construct_delegate c)) (release_context c); make_box c o.

(** [receiver_storage(owner, object)]: [owner] is a pointer the constructor owns.
    [receiver_] shares the control block of the box, which the local pointer releases. *)
Definition receiver_storage (owner : option nat) : M nat :=
  match owner with
  | None => fun s => (Aborted, s)
  | Some c =>
      unwinding (on_user allocate) (release_context c) ;;
      b ← owned_receiver c; copy_receiver b ;; release_receiver b ;; mret b
  end.
End Ownership.

(** ** Prepared calls *)

(** What the projection gives the caller, and the pointer that its operation has as its
    context: a receiver for member calls, a context for free functions. *)
Inductive call_object := StaticCall (call : static_invocation) | ErasedCall (call : invocation).
Inductive handle := ToReceiver (box : nat) | ToContext (context : nat).
Record call := mk_call { shares : option handle; object : call_object }.

(** [projection::apply]. *)
Definition projection (erased : bool) (i : static_invocation) : call_object :=
  if erased then ErasedCall (erase_invocation i) else StaticCall i.

(** The operation that a hook makes: whether its context is the receiver, and whether it has
    an access guard. *)
Record hook_result := mk_hook_result { keeps_owner : bool; access_guard : bool }.

Section Prepare.
Context {T V O W R E : Type} `{EqDecision T}.
Context (convertible : cpp_type T -> parameter (cpp_type T) -> bool)
  (better : cpp_type T -> parameter (cpp_type T) -> parameter (cpp_type T) -> bool)
  (classify : T -> capture_class) (copy_string copy_shared : V -> eff W V)
  (user_capture : cpp_type T -> V -> eff W V) (user_noexcept user_nothrow_move : cpp_type T -> bool)
  (strict : bool) (destroy_value : V -> W -> W) (order : nat -> list nat).
(** The backend: the [result_type] of the call its hooks return for a contract, and the
    hooks, given the captured values. *)
Context (hook_result_type : contract (declared (cpp_type T)) -> option (declared (cpp_type T)))
  (prepare_async : contract (declared (cpp_type T)) -> list V -> eff W hook_result).
Context (allocate : eff W unit) (construct_delegate : nat -> eff W O).
Abbreviation state := (world O (import_state V W)).
Abbreviation M := (eff state).
Abbreviation arguments flat cs args :=
  (prepare_arguments convertible better classify copy_string copy_shared user_capture user_noexcept
     user_nothrow_move strict destroy_value order flat cs args).

(** [checked_projection]: the static assertions on a contract. *)
Definition checked_projection (c : contract (declared (cpp_type T))) : option unit :=
  r ← contract_result c;
  if decide (hook_result_type c = r) then Some tt else None.

(** A call of a hook, which owns the pointer it is given; its operation may keep it. *)
Definition call_hook (share : M unit) (release : M unit) (c : contract (declared (cpp_type T))) (values : list V)
  : M (bool * static_invocation) :=
  share ;;
  h ← unwinding (on_user (on_outside (prepare_async c values))) release;
  (if keeps_owner h then mret tt else release) ;;
  i ← lift (make_invocation true (access_guard h)); mret (keeps_owner h, i).

(** [receiver_storage::prepare], on the storage that shares box [b]. *)
Definition prepare (erased flat : bool) (symbol_receiver delegate_class : nat)
    (cs : list (contract (declared (cpp_type T)))) (args : list (cpp_type T * V)) (b : nat) : option (M call) :=
  if decide (symbol_receiver = delegate_class) then
    '(c, captured) ← arguments flat cs args;
    _ ← checked_projection c;
    Some (values ← on_user captured;
          '(kept, i) ← call_hook (copy_receiver b) (release_receiver b) c values;
          mret (mk_call (if (kept : bool) then Some (ToReceiver b) else None) (projection erased i)))
  else None.

(** [async_functions::name(owner, args...)] owns [owner] and moves it into the hook. *)
Definition async_function (erased flat : bool) (cs : list (contract (declared (cpp_type T))))
    (args : list (cpp_type T * V)) (owner : option nat) : option (M call) :=
  '(c, captured) ← arguments flat cs args;
  _ ← checked_projection c;
  Some (match owner with
        | None => (fun s => (Aborted, s)) : M call
        | Some o =>
            values ← unwinding (on_user captured) (release_context o);
            '(kept, i) ← call_hook (mret tt) (release_context o) c values;
            mret (mk_call (if (kept : bool) then Some (ToContext o) else None) (projection erased i))
        end).

(** ** Programs *)

(** A program: the context pointers and the storages it has, the calls it has prepared, and
    the operations that are started and not yet destroyed. *)
Record program := mk_program {
  owners : gmultiset nat;
  storages : gmultiset nat;
  calls : list call;
  running : list (option handle * system R E);
  now : state
}.

Inductive program_action :=
| NewOwner | CopyOwner (c : nat) | DropOwner (c : nat)
| BindAsync (owner : option nat)
| CopyStorage (b : nat) | DropStorage (b : nat)
| PrepareMember (erased flat : bool) (symbol_receiver delegate_class : nat)
    (cs : list (contract (declared (cpp_type T)))) (args : list (cpp_type T * V)) (b : nat)
| PrepareFree (erased flat : bool) (cs : list (contract (declared (cpp_type T)))) (args : list (cpp_type T * V))
    (owner : option nat)
| DropCall (i : nat)
| StartCall (i : nat) (fails : bool)          (** whether an allocation of [start] throws *)
| RunOperation (k : nat) (a : action R E)
| DestroyOperation (k : nat).

Definition release_handle (h : option handle) : M unit :=
  match h with Some (ToReceiver b) => release_receiver b | Some (ToContext c) => release_context c | None => mret tt end.
Definition use_handle (h : option handle) : M unit :=
  match h with Some (ToReceiver b) => use_receiver b ;; mret tt | Some (ToContext c) => use_context c | None => mret tt end.

(** The program goes on after a call that returned or threw. *)
Definition goes_on {A} (r : outcome A * state) (returned : A -> state -> program) (threw : state -> program)
  : outcome program :=
  match r with
  | (Ok a, w) => Ok (returned a w)
  | (Throw _, w) => Ok (threw w)
  | (Aborted, _) => Aborted
  | (Undefined, _) => Undefined
  end.

Definition with_owners (f : gmultiset nat -> gmultiset nat) (p : program) (w : state) : program :=
  mk_program (f (owners p)) (storages p) (calls p) (running p) w.
Definition with_storages (f : gmultiset nat -> gmultiset nat) (p : program) (w : state) : program :=
  mk_program (owners p) (f (storages p)) (calls p) (running p) w.
Definition with_calls (f : list call -> list call) (p : program) (w : state) : program :=
  mk_program (owners p) (storages p) (f (calls p)) (running p) w.
Definition with_running (f : list (option handle * system R E) -> list (option handle * system R E))
    (p : program) (w : state) : program :=
  mk_program (owners p) (storages p) (calls p) (f (running p)) w.

Definition runs_operation (a : action R E) (s : system R E) : bool :=
  match a with
  | Run t _ => match threads s !! t with Some (CallOperation :: _) => true | _ => false end
  | _ => false
  end.
Definition holds_context (s : system R E) : bool := context_held (AsyncOperation.state s).

(** A prepared call starts as the operation of [AsyncOperation]; when an allocation throws, a
    static call is left as it was and an erased one has given up its operation. *)
Definition start_call (o : call_object) : outcome (system R E) :=
  match o with StaticCall i => (static_start i).1 | ErasedCall i => (invocation_start i).1 end.

(** [None] when the program has nothing to do that with, or does not compile. *)
Definition perform (a : program_action) (p : program) : option (outcome program) :=
  match a with
  | NewOwner =>
      Some (goes_on (make_context (now p)) (fun c => with_owners (disj_union {[+ c +]}) p) (with_owners id p))
  | CopyOwner c =>
      if decide (c ∈ owners p) then
        Some (goes_on (copy_context c (now p)) (fun _ => with_owners (disj_union {[+ c +]}) p) (with_owners id p))
      else None
  | DropOwner c =>
      if decide (c ∈ owners p) then
        Some (goes_on (release_context c (now p)) (fun _ => with_owners (.∖ {[+ c +]}) p) (with_owners id p))
      else None
  | BindAsync None => Some (goes_on (receiver_storage (on_outside allocate) (fun c => on_outside (construct_delegate c))
                              None (now p)) (fun b => with_storages (disj_union {[+ b +]}) p) (with_storages id p))
  | BindAsync (Some c) =>
      if decide (c ∈ owners p) then
        Some (goes_on ((copy_context c ;;
                        receiver_storage (on_outside allocate) (fun c => on_outside (construct_delegate c)) (Some c)) (now p))
                (fun b => with_storages (disj_union {[+ b +]}) p) (with_storages id p))
      else None
  | CopyStorage b =>
      if decide (b ∈ storages p) then
        Some (goes_on (copy_receiver b (now p)) (fun _ => with_storages (disj_union {[+ b +]}) p) (with_storages id p))
      else None
  | DropStorage b =>
      if decide (b ∈ storages p) then
        Some (goes_on (release_receiver b (now p)) (fun _ => with_storages (.∖ {[+ b +]}) p) (with_storages id p))
      else None
  | PrepareMember erased flat symbol_receiver delegate_class cs args b =>
      if decide (b ∈ storages p) then
        m ← prepare erased flat symbol_receiver delegate_class cs args b;
        Some (goes_on (m (now p)) (fun c => with_calls (cons c) p) (with_calls id p))
      else None
  | PrepareFree erased flat cs args None =>
      m ← async_function erased flat cs args None;
      Some (goes_on (m (now p)) (fun c => with_calls (cons c) p) (with_calls id p))
  | PrepareFree erased flat cs args (Some c) =>
      if decide (c ∈ owners p) then
        m ← async_function erased flat cs args (Some c);
        Some (goes_on ((copy_context c ;; m) (now p)) (fun c => with_calls (cons c) p) (with_calls id p))
      else None
  | DropCall i =>
      c ← calls p !! i;
      Some (goes_on (release_handle (shares c) (now p)) (fun _ => with_calls (delete i) p) (with_calls id p))
  | StartCall i fails =>
      c ← calls p !! i;
      Some (if (fails : bool) then
              match object c with
              | StaticCall _ => Ok p
              | ErasedCall _ => goes_on (release_handle (shares c) (now p)) (fun _ => with_calls (delete i) p) (with_calls id p)
              end
            else s ← start_call (object c);
                 Ok (mk_program (owners p) (storages p) (delete i (calls p)) ((shares c, s) :: running p) (now p)))
  | RunOperation k a =>
      '(h, s) ← running p !! k;
      r ← act a s;
      Some (s' ← r;
            goes_on (((if runs_operation a s then use_handle h else mret tt) ;;
                      (if holds_context s && negb (holds_context s') then release_handle h else mret tt)) (now p))
              (fun _ => with_running <[k := (h, s')]> p) (with_running id p))
  | DestroyOperation k =>
      '(h, s) ← running p !! k;
      if decide (Forall (fun l => l = []) (threads s)) then
        Some (goes_on ((if holds_context s then release_handle h else mret tt) (now p))
                (fun _ => with_running (delete k) p) (with_running id p))
      else None
  end.

Definition start_program (w : W) : program :=
  mk_program ∅ ∅ [] [] (mk_world ∅ 0 ∅ ∅ 0 [] (mk_import ∅ 0 w)).
Inductive program_step : program -> program -> Prop :=
| do_perform a p p' : perform a p = Some (Ok p') -> program_step p p'.
Definition program_reachable (p : program) : Prop := exists w, rtc program_step (start_program w) p.
End Prepare.

(** ** The invariant of the control blocks *)

Section Blocks.
Context {O W : Type} (U : W -> Prop).
Abbreviation M := (eff (world O W)).

(** The context pointers inside the boxes. *)
Definition box_contexts (m : gmap nat (nat * O)) : gmultiset nat := map_refs (fun x => {[+ x.1 +]}) m.
Lemma box_contexts_insert m b c o : m !! b = None -> box_contexts (<[b := (c, o)]> m) = {[+ c +]} ⊎ box_contexts m.
Proof. exact (map_refs_insert _ m b (c, o)). Qed.
Lemma box_contexts_delete m b c o : m !! b = Some (c, o) -> box_contexts m = {[+ c +]} ⊎ box_contexts (delete b m).
Proof. exact (map_refs_delete _ m b (c, o)). Qed.

(** Newest first: nothing is destroyed twice, and no receiver after its context. *)
Fixpoint ordered (l : list destroyed) : Prop :=
  match l with
  | [] => True
  | ReceiverDestroyed b c :: l => ContextDestroyed c ∉ l /\ (forall c', ReceiverDestroyed b c' ∉ l) /\ ordered l
  | ContextDestroyed c :: l => ContextDestroyed c ∉ l /\ ordered l
  end.

(** [C] and [R] are the pointers outside the boxes. *)
Record world_wf (C R : gmultiset nat) (w : world O W) : Prop := {
  wf_contexts : contexts w = C ⊎ box_contexts (boxes w);
  wf_receivers : receivers w = R;
  wf_live : forall b, b ∈ receivers w <-> is_Some (boxes w !! b);
  wf_next_context : forall c, (c < next_context w)%nat <-> c ∈ contexts w \/ ContextDestroyed c ∈ log w;
  wf_next_receiver : forall b, (b < next_receiver w)%nat <-> is_Some (boxes w !! b) \/ exists c, ReceiverDestroyed b c ∈ log w;
  wf_gone_context : forall c, ContextDestroyed c ∈ log w -> c ∉ contexts w;
  wf_gone_receiver : forall b c, ReceiverDestroyed b c ∈ log w -> boxes w !! b = None;
  wf_ordered : ordered (log w);
  wf_user : U (user w)
}.

(** What the user's code does to its own world. *)
Definition user_keeps {A} (m : eff W A) : Prop :=
  forall u, U u ->
  match m u with
  | (Ok _, u') | (Throw _, u') => U u'
  | (Aborted, _) => True
  | (Undefined, _) => False
  end.
Lemma upholds_on_user {A} (m : eff W A) C R :
  user_keeps m -> upholds (world_wf C R) (on_user m) (fun _ => world_wf C R) (world_wf C R).
Proof.
  intros Hm w []. unfold on_user. specialize (Hm (user w) wf_user0). destruct (m (user w)) as [[] u]; try done; by split.
Qed.

Lemma upholds_make_context C R E :
  upholds (world_wf C R) make_context (fun c => world_wf ({[+ c +]} ⊎ C) R) E.
Proof.
  intros w [Hc Hr Hl Hnc Hnr Hgc Hgr Ho Hu]. simpl.
  assert (next_context w ∉ contexts w /\ ContextDestroyed (next_context w) ∉ log w) as [Hn1 Hn2].
  { split; intros Hx; [assert (next_context w < next_context w)%nat; [|lia]; apply Hnc; by left|].
    assert (next_context w < next_context w)%nat; [|lia]. apply Hnc. by right. }
  split; simpl; try done.
  - rewrite Hc. multiset_solver.
  - intros c. rewrite gmultiset_elem_of_disj_union, gmultiset_elem_of_singleton. specialize (Hnc c).
    split; [|intros [[->|]|]; [lia|assert (c < next_context w)%nat; [tauto|lia]..]].
    intros Hlt. destruct (decide (c = next_context w)); [tauto|]. assert (c < next_context w)%nat by lia. tauto.
  - intros c Hx. rewrite gmultiset_elem_of_disj_union, gmultiset_elem_of_singleton. intros [->|]; [done|].
    by apply (Hgc c).
Qed.
Lemma upholds_copy_context C R c E :
  c ∈ C -> upholds (world_wf C R) (copy_context c) (fun _ => world_wf ({[+ c +]} ⊎ C) R) E.
Proof.
  intros HcC w [Hc Hr Hl Hnc Hnr Hgc Hgr Ho Hu]. unfold copy_context.
  rewrite decide_True by (rewrite Hc; multiset_solver).
  assert (c ∈ contexts w) as Hin by (rewrite Hc; multiset_solver).
  split; simpl; try done.
  - rewrite Hc. multiset_solver.
  - intros c'. rewrite Hnc, gmultiset_elem_of_disj_union, gmultiset_elem_of_singleton.
    split; [tauto|]. intros [[->|]|]; tauto.
  - intros c' Hx. rewrite gmultiset_elem_of_disj_union, gmultiset_elem_of_singleton.
    intros [->|]; [by eapply Hgc|by apply (Hgc c')].
Qed.
Lemma upholds_release_context C R c E :
  upholds (world_wf ({[+ c +]} ⊎ C) R) (release_context c) (fun _ => world_wf C R) E.
Proof.
  intros w [Hc Hr Hl Hnc Hnr Hgc Hgr Ho Hu]. unfold release_context.
  assert (c ∈ contexts w) as Hin by (rewrite Hc; multiset_solver). rewrite decide_True by done.
  assert (contexts w ∖ {[+ c +]} = C ⊎ box_contexts (boxes w)) as Hleft by (rewrite Hc; multiset_solver).
  assert (forall d, d ∈ contexts w <-> d = c \/ d ∈ contexts w ∖ {[+ c +]}) as Hiff by (intros d; multiset_solver).
  assert (ContextDestroyed c ∉ log w) as Hnot by (intros Hx; by apply (Hgc c)).
  split; simpl; try done.
  - intros d. rewrite Hnc, Hiff. destruct (decide (c ∈ _)) as [Hd|Hd]; rewrite ?elem_of_cons.
    + split; [|tauto]. intros [[->|]|]; tauto.
    + split; [|naive_solver]. intros [[->|]|]; tauto.
  - intros b. rewrite Hnr. destruct (decide (c ∈ _)); [done|]. split; (intros [|[d Hd]]; [by left|right; exists d]);
      [by right|by apply elem_of_cons in Hd as [|]].
  - intros d Hd Hx. destruct (decide (c ∈ _)) as [Hk|Hk]; [by apply (Hgc d Hd), Hiff; right|].
    apply elem_of_cons in Hd as [[= ->]|Hd]; [done|]. by apply (Hgc d Hd), Hiff; right.
  - intros b d Hd. destruct (decide (c ∈ _)); [by eapply Hgr|]. apply elem_of_cons in Hd as [|Hd]; [done|by eapply Hgr].
  - by destruct (decide (c ∈ _)).
Qed.

Lemma upholds_copy_receiver C R b E :
  b ∈ R -> upholds (world_wf C R) (copy_receiver b) (fun _ => world_wf C ({[+ b +]} ⊎ R)) E.
Proof.
  intros HbR w [Hc Hr Hl Hnc Hnr Hgc Hgr Ho Hu]. unfold copy_receiver. subst R. rewrite decide_True by done.
  split; simpl; try done.
  intros d. rewrite gmultiset_elem_of_disj_union, gmultiset_elem_of_singleton, <- Hl. naive_solver.
Qed.

Lemma upholds_release_receiver C R b E :
  upholds (world_wf C ({[+ b +]} ⊎ R)) (release_receiver b) (fun _ => world_wf C R) E.
Proof.
  intros w [Hc Hr Hl Hnc Hnr Hgc Hgr Ho Hu]. unfold release_receiver.
  assert (b ∈ receivers w) as Hin by (rewrite Hr; multiset_solver). rewrite decide_True by done.
  assert (receivers w ∖ {[+ b +]} = R) as Hleft by (rewrite Hr; multiset_solver). rewrite Hleft.
  assert (forall d, d ∈ receivers w <-> d = b \/ d ∈ R) as Hiff by (intros d; rewrite Hr; multiset_solver).
  destruct (decide (b ∈ R)) as [Hb|Hb].
  - split; simpl; try done. intros d. rewrite <- Hl, Hiff. naive_solver.
  - destruct (proj1 (Hl b) Hin) as [[c o] Hbox]. rewrite Hbox. apply (upholds_release_context C R c E).
    assert (c ∈ contexts w) as Hcin by (rewrite Hc, (box_contexts_delete _ _ _ _ Hbox); multiset_solver).
    assert (forall d, is_Some (delete b (boxes w) !! d) <-> d ≠ b /\ is_Some (boxes w !! d)) as Hdel.
    { intros d. destruct (decide (d = b)) as [->|]; [rewrite lookup_delete_eq; split; [by intros []|tauto]|].
      rewrite lookup_delete_ne by done. tauto. }
    split; simpl; try done.
    + rewrite Hc, (box_contexts_delete _ _ _ _ Hbox). multiset_solver.
    + intros d. rewrite Hdel, <- Hl, Hiff. naive_solver.
    + intros d. rewrite Hnc, elem_of_cons. naive_solver.
    + intros d. rewrite Hnr, Hdel. split.
      * intros [Hd|[e Hd]]; [|right; exists e; by right].
        destruct (decide (d = b)) as [->|]; [right; exists c; left|by left].
      * intros [[_ Hd]|[e Hd]]; [by left|]. apply elem_of_cons in Hd as [[= -> ->]|]; [left; by eauto|right; by eauto].
    + intros d Hd%elem_of_cons. destruct Hd as [|Hd]; [done|by apply Hgc].
    + intros d e Hd. apply elem_of_cons in Hd as [[= -> ->]|Hd]; [apply lookup_delete_eq|].
      destruct (decide (d = b)) as [->|]; [apply lookup_delete_eq|]. rewrite lookup_delete_ne by done. by eapply Hgr.
    + split_and!; [by intros Hx; apply (Hgc c)| |done]. intros e Hx. by rewrite (Hgr _ _ Hx) in Hbox.
Qed.

Lemma upholds_use_context C R c E : c ∈ C -> upholds (world_wf C R) (use_context c) (fun _ => world_wf C R) E.
Proof.
  intros Hc w Hw. unfold use_context. rewrite decide_True; [done|]. rewrite (wf_contexts _ _ _ Hw). multiset_solver.
Qed.
Lemma upholds_use_receiver C R b E :
  b ∈ R -> upholds (world_wf C R) (use_receiver b) (fun _ => world_wf C R) E.
Proof.
  intros Hb w Hw. unfold use_receiver. rewrite <- (wf_receivers _ _ _ Hw) in Hb.
  apply (wf_live _ _ _ Hw) in Hb as [[c o] Hbox]. rewrite Hbox, decide_True; [done|].
  rewrite (wf_contexts _ _ _ Hw), (box_contexts_delete _ _ _ _ Hbox). multiset_solver.
Qed.

Lemma upholds_owned_receiver (construct_delegate : nat -> eff W O) C R c :
  user_keeps (construct_delegate c) ->
  upholds (world_wf ({[+ c +]} ⊎ C) R) (owned_receiver construct_delegate c) (fun b => world_wf C ({[+ b +]} ⊎ R)) (world_wf C R).
Proof.
  intros Hd. unfold owned_receiver. eapply upholds_then.
  { eapply upholds_unwinding; [|apply upholds_release_context].
    eapply upholds_then; [apply upholds_use_context, elem_of_head|]. intros ?. by apply upholds_on_user. }
  intros o w [Hc Hr Hl Hnc Hnr Hgc Hgr Ho Hu].
  assert (boxes w !! next_receiver w = None) as Hnone.
  { apply eq_None_not_Some. intros Hx. assert (next_receiver w < next_receiver w)%nat; [|lia]. apply Hnr. by left. }
  split; simpl; try done.
  - rewrite Hc, box_contexts_insert by done. multiset_solver.
  - by rewrite Hr.
  - intros d. rewrite gmultiset_elem_of_disj_union, gmultiset_elem_of_singleton, Hl.
    destruct (decide (d = next_receiver w)) as [->|]; [rewrite lookup_insert_eq; split; [by eauto|tauto]|].
    rewrite lookup_insert_ne by done. tauto.
  - intros d. specialize (Hnr d). destruct (decide (d = next_receiver w)) as [->|].
    + rewrite lookup_insert_eq. split; [left; by eauto|lia].
    + rewrite lookup_insert_ne by done. rewrite <- Hnr. lia.
  - intros d e Hx. rewrite lookup_insert_ne; [by eapply Hgr|]. intros <-.
    assert (next_receiver w < next_receiver w)%nat; [|lia]. apply Hnr. by eauto.
Qed.

Lemma upholds_receiver_storage allocate construct_delegate C R c :
  user_keeps allocate -> (forall c, user_keeps (construct_delegate c)) ->
  upholds (world_wf ({[+ c +]} ⊎ C) R) (receiver_storage allocate construct_delegate (Some c))
    (fun b => world_wf C ({[+ b +]} ⊎ R)) (world_wf C R).
Proof.
  intros Ha Hd. unfold receiver_storage.
  eapply upholds_then; [eapply upholds_unwinding; [by apply upholds_on_user|apply upholds_release_context]|]. intros ?.
  eapply upholds_then; [by apply upholds_owned_receiver|]. intros b.
  eapply upholds_then; [apply upholds_copy_receiver, elem_of_head|]. intros ?.
  eapply upholds_then; [apply upholds_release_receiver|]. intros ?. by apply upholds_return.
Qed.
End Blocks.

(** ** What an action does to its operation *)

Section Operations.
Context {R E : Type}.

Lemma act_ok access (s : system R E) a r :
  reachable access s -> act a s = Some r ->
  match r with Ok s' => reachable access s' | Aborted => True | _ => False end.
Proof.
  intros Hr Ha. destruct r as [s'|e| |]; [|exfalso|done|exfalso].
  { eapply rtc_r; [exact Hr|]. by econstructor. }
  all: destruct a as [t o| |]; simplify_eq/=; destruct (threads s !! t) as [[|i rest]|] eqn:Ht; simplify_eq/=;
    pose proof (run_safe _ _ _ _ _ o (operation_reachable_invariant _ _ Hr) Ht);
    by destruct (run_instr o i _) as [[] ?].
Qed.

Lemma act_keeps_context (s s' : system R E) a :
  act a s = Some (Ok s') ->
  (holds_context s' = true -> holds_context s = true) /\ (runs_operation a s = true -> holds_context s = true).
Proof.
  unfold holds_context. destruct a as [t o| |]; intros Ha; simplify_eq/=; try done.
  destruct (threads s !! t) as [[|i rest]|] eqn:Ht; try done.
  destruct i as [|e| |r retire| |held|r retire| |]; cbn [run_instr] in Ha; unfold deliver_lock in Ha;
    simplify_eq/=; repeat (case_match; simplify_eq/=); rewrite ?andb_true_iff in *; naive_solver.
Qed.

End Operations.

(** ** Programs keep their receivers *)

Section Programs.
Context {T V O W R E : Type} `{EqDecision T}.
Context (convertible : cpp_type T -> parameter (cpp_type T) -> bool)
  (better : cpp_type T -> parameter (cpp_type T) -> parameter (cpp_type T) -> bool)
  (classify : T -> capture_class) (copy_string copy_shared : V -> eff W V)
  (user_capture : cpp_type T -> V -> eff W V) (user_noexcept user_nothrow_move : cpp_type T -> bool)
  (strict : bool) (destroy_value : V -> W -> W) (order : nat -> list nat)
  (hook_result_type : contract (declared (cpp_type T)) -> option (declared (cpp_type T)))
  (prepare_async : contract (declared (cpp_type T)) -> list V -> eff W hook_result)
  (allocate : eff W unit) (construct_delegate : nat -> eff W O).
Context (order_permutes : forall n, Permutation (order n) (seq 0 n)).
(** What the user and the backend provide has defined behaviour. *)
Context (copy_string_defined : forall v w, (copy_string v w).1 ≠ Undefined)
  (copy_shared_ok : forall v w, exists r w', copy_shared v w = (Ok r, w'))
  (user_defined : forall x v w, (user_capture x v w).1 ≠ Undefined)
  (user_noexcept_ok : forall x v w, user_noexcept x = true -> exists r w', user_capture x v w = (Ok r, w'))
  (hook_defined : forall c vs w, (prepare_async c vs w).1 ≠ Undefined)
  (allocate_defined : forall w, (allocate w).1 ≠ Undefined)
  (delegate_defined : forall c w, (construct_delegate c w).1 ≠ Undefined).
Abbreviation state := (world O (import_state V W)).
Abbreviation program := (@program V O W R E).
Abbreviation prepare := (prepare (O:=O) convertible better classify copy_string copy_shared user_capture user_noexcept
  user_nothrow_move strict destroy_value order hook_result_type prepare_async).
Abbreviation async_function := (async_function (O:=O) convertible better classify copy_string copy_shared user_capture
  user_noexcept user_nothrow_move strict destroy_value order hook_result_type prepare_async).
Abbreviation perform := (perform (R:=R) (E:=E) convertible better classify copy_string copy_shared user_capture user_noexcept
  user_nothrow_move strict destroy_value order hook_result_type prepare_async allocate construct_delegate).

(** No captured value is left outside of the operations. *)
Definition no_values (u : import_state V W) : Prop := owned u = ∅.
Abbreviation wf := (world_wf no_values).
Implicit Types (st : state) (p : program).

Lemma no_values_outside {A} (m : eff W A) :
  (forall w, (m w).1 ≠ Undefined) -> user_keeps no_values (on_outside m).
Proof.
  intros Hm u Hu. unfold on_outside. specialize (Hm (outside u)). by destruct (m (outside u)) as [[] ?].
Qed.
Lemma no_values_captured flat cs args c m :
  prepare_arguments convertible better classify copy_string copy_shared user_capture user_noexcept
    user_nothrow_move strict destroy_value order flat cs args = Some (c, m) ->
  user_keeps no_values m.
Proof.
  intros Hp. unfold prepare_arguments in Hp. apply bind_Some in Hp as (c' & _ & Hp).
  apply bind_Some in Hp as (jobs & Hj & Hp). simplify_eq. intros u Hu.
  destruct (capture_jobs_run classify copy_string copy_shared user_capture user_noexcept user_nothrow_move strict
              copy_string_defined copy_shared_ok user_defined user_noexcept_ok args jobs Hj) as (_ & Hrun & _).
  assert (fresh u) as Hf by (intros n _; by rewrite Hu).
  pose proof (capture_tuple_spec destroy_value order order_permutes jobs u Hf Hrun) as Hs.
  unfold no_values in *. destruct (capture_tuple destroy_value order jobs u) as [[] u']; try done.
  - destruct Hs as [-> _]. done.
  - by rewrite Hs.
Qed.

Definition context_refs (h : option handle) : gmultiset nat := match h with Some (ToContext c) => {[+ c +]} | _ => ∅ end.
Definition receiver_refs (h : option handle) : gmultiset nat := match h with Some (ToReceiver b) => {[+ b +]} | _ => ∅ end.

Lemma upholds_release_handle C B h E' :
  upholds (wf (context_refs h ⊎ C) (receiver_refs h ⊎ B)) (release_handle h : eff state unit) (fun _ => wf C B) E'.
Proof.
  destruct h as [[b|c]|]; simpl; rewrite ?(left_id_L ∅ (⊎)).
  - apply upholds_release_receiver.
  - apply upholds_release_context.
  - by apply upholds_return.
Qed.
Lemma upholds_use_handle C B h E' :
  upholds (wf (context_refs h ⊎ C) (receiver_refs h ⊎ B)) (use_handle h : eff state unit)
    (fun _ => wf (context_refs h ⊎ C) (receiver_refs h ⊎ B)) E'.
Proof.
  destruct h as [[b|c]|]; simpl.
  - eapply upholds_then; [apply upholds_use_receiver, elem_of_head|]. intros ?. by apply upholds_return.
  - apply upholds_use_context, elem_of_head.
  - by apply upholds_return.
Qed.

(** An object that starts. *)
Definition startable (o : call_object) : Prop := exists access, start_call (R:=R) (E:=E) o = Ok (start access).
Lemma projection_starts erased access : startable (projection erased (mk_invocation true access true)).
Proof. by exists access; destruct erased. Qed.

Lemma upholds_call_hook P C B Cs Bs share release c values :
  upholds P share (fun _ => wf Cs Bs) (wf C B) -> upholds (wf Cs Bs) release (fun _ => wf C B) (wf C B) ->
  upholds P (call_hook (O:=O) prepare_async share release c values)
    (fun r w => (exists a, r.2 = mk_invocation true a true) /\ if (r.1 : bool) then wf Cs Bs w else wf C B w) (wf C B).
Proof.
  intros Hshare Hrelease. unfold call_hook. eapply upholds_then; [exact Hshare|]. intros ?.
  eapply upholds_then.
  { eapply upholds_unwinding; [|exact Hrelease]. apply upholds_on_user, no_values_outside, hook_defined. }
  intros [[] g]; simpl.
  - intros w Hw. split; [by exists g|done].
  - eapply upholds_then; [exact Hrelease|]. intros ? w Hw. split; [by exists g|done].
Qed.

Lemma upholds_prepare erased flat symbol_receiver delegate_class cs args b m C B :
  prepare erased flat symbol_receiver delegate_class cs args b = Some m -> b ∈ B ->
  upholds (wf C B) m (fun c w => startable (object c) /\ wf (context_refs (shares c) ⊎ C) (receiver_refs (shares c) ⊎ B) w)
    (wf C B).
Proof.
  unfold AsyncImport.prepare. intros Hp Hb. case_decide; [|done]. apply bind_Some in Hp as ([c captured] & Hargs & Hp).
  apply bind_Some in Hp as (_ & _ & Hp). simplify_eq.
  eapply upholds_then; [eapply upholds_on_user, no_values_captured, Hargs|]. intros values.
  eapply upholds_then; [eapply (upholds_call_hook _ C B); [by apply upholds_copy_receiver|apply upholds_release_receiver]|].
  intros [kept i]. apply upholds_return. intros w [[a Hi] Hw]. simpl in *. subst i.
  split; [apply projection_starts|]. destruct kept; simpl; rewrite ?(left_id_L ∅ (⊎)); done.
Qed.

Lemma upholds_async_function erased flat cs args o m C B :
  async_function erased flat cs args (Some o) = Some m ->
  upholds (wf ({[+ o +]} ⊎ C) B) m
    (fun c w => startable (object c) /\ wf (context_refs (shares c) ⊎ C) (receiver_refs (shares c) ⊎ B) w) (wf C B).
Proof.
  unfold AsyncImport.async_function. intros Hp. apply bind_Some in Hp as ([c captured] & Hargs & Hp).
  apply bind_Some in Hp as (_ & _ & Hp). simplify_eq.
  eapply upholds_then.
  { eapply upholds_unwinding; [eapply upholds_on_user, no_values_captured, Hargs|apply upholds_release_context]. }
  intros values. eapply upholds_then; [eapply (upholds_call_hook _ C B ({[+ o +]} ⊎ C) B)|].
  { by apply upholds_return. } { apply upholds_release_context. }
  intros [kept i]. apply upholds_return. intros w [[a Hi] Hw]. simpl in *. subst i.
  split; [apply projection_starts|]. destruct kept; simpl; rewrite ?(left_id_L ∅ (⊎)); done.
Qed.

(** ** The invariant of programs *)

Definition op_refs (f : option handle -> gmultiset nat) (o : option handle * system R E) : gmultiset nat :=
  if holds_context o.2 then f o.1 else ∅.
(** All pointers outside of the boxes. *)
Definition context_handles (p : program) : gmultiset nat :=
  owners p ⊎ refs (fun c => context_refs (shares c)) (calls p) ⊎ refs (op_refs context_refs) (running p).
Definition receiver_handles (p : program) : gmultiset nat :=
  storages p ⊎ refs (fun c => receiver_refs (shares c)) (calls p) ⊎ refs (op_refs receiver_refs) (running p).

Record program_wf (p : program) : Prop := {
  wf_world : wf (context_handles p) (receiver_handles p) (now p);
  wf_calls : Forall (fun c => startable (object c)) (calls p);
  wf_running : Forall (fun o => exists access, reachable access o.2) (running p)
}.
Definition ok_program (r : outcome program) : Prop :=
  match r with Ok p => program_wf p | Aborted => True | _ => False end.

Lemma ok_goes_on {A} P (m : eff state A) Q E' w returned threw :
  upholds P m Q E' -> P w -> (forall a w, Q a w -> program_wf (returned a w)) -> (forall w, E' w -> program_wf (threw w)) ->
  ok_program (goes_on (R:=R) (E:=E) (m w) returned threw).
Proof. intros Hm Hw Hq He. specialize (Hm w Hw). unfold goes_on. destruct (m w) as [[] ?]; simpl; auto. Qed.

(** A handle of an operation is used while the operation holds it, and released with it. *)
Lemma upholds_operation C B h (s s' : system R E) a E' :
  act a s = Some (Ok s') ->
  upholds (wf (op_refs context_refs (h, s) ⊎ C) (op_refs receiver_refs (h, s) ⊎ B))
    ((if runs_operation a s then use_handle h else mret tt) ;;
     (if holds_context s && negb (holds_context s') then release_handle h else mret tt) : eff state unit)
    (fun _ => wf (op_refs context_refs (h, s') ⊎ C) (op_refs receiver_refs (h, s') ⊎ B)) E'.
Proof.
  intros Ha. destruct (act_keeps_context _ _ _ Ha) as [Hmono Hruns]. unfold op_refs. simpl.
  eapply (upholds_then _ _ _ (fun _ => wf (op_refs context_refs (h, s) ⊎ C) (op_refs receiver_refs (h, s) ⊎ B)));
    unfold op_refs; simpl.
  - destruct (runs_operation a s) eqn:Hr; [|by apply upholds_return]. rewrite (Hruns eq_refl). apply upholds_use_handle.
  - intros ?. destruct (holds_context s) eqn:Hs; simpl.
    + destruct (holds_context s'); [by apply upholds_return|]. simpl. rewrite !(left_id_L ∅ (⊎)). apply upholds_release_handle.
    + destruct (holds_context s'); [by discriminate Hmono|]. by apply upholds_return.
Qed.

(** The same pointers, written in another way. *)
Lemma wf_same C B C' B' st : wf C B st -> C = C' -> B = B' -> wf C' B' st.
Proof. by intros ? -> ->. Qed.
Ltac same_handles Hw :=
  eapply wf_same; [exact Hw|..]; unfold context_handles, receiver_handles in *; simpl in *;
  unfold op_refs in *; simpl in *; multiset_solver.

(** A program whose calls and operations are those of [p]. *)
Lemma with_world_wf p (w : state) o sts :
  program_wf p -> wf (o ⊎ refs (fun c => context_refs (shares c)) (calls p) ⊎ refs (op_refs context_refs) (running p))
                    (sts ⊎ refs (fun c => receiver_refs (shares c)) (calls p) ⊎ refs (op_refs receiver_refs) (running p)) w ->
  program_wf (mk_program o sts (calls p) (running p) w).
Proof. intros [] Hw. by split. Qed.
Lemma with_call_wf p (w : state) c :
  program_wf p -> startable (object c) ->
  wf (context_refs (shares c) ⊎ context_handles p) (receiver_refs (shares c) ⊎ receiver_handles p) w ->
  program_wf (with_calls (cons c) p w).
Proof. intros [] Hc Hw. split; [|by constructor|done]. same_handles Hw. Qed.
Lemma call_handles p i c :
  calls p !! i = Some c ->
  context_handles p = context_refs (shares c) ⊎ context_handles (with_calls (delete i) p (now p)) /\
  receiver_handles p = receiver_refs (shares c) ⊎ receiver_handles (with_calls (delete i) p (now p)).
Proof.
  intros Hi. unfold context_handles, receiver_handles. simpl.
  rewrite (refs_delete (fun c => context_refs (shares c)) _ _ _ Hi), (refs_delete (fun c => receiver_refs (shares c)) _ _ _ Hi).
  split; multiset_solver.
Qed.
Lemma operation_handles p k o :
  running p !! k = Some o ->
  context_handles p = op_refs context_refs o ⊎ context_handles (with_running (delete k) p (now p)) /\
  receiver_handles p = op_refs receiver_refs o ⊎ receiver_handles (with_running (delete k) p (now p)).
Proof.
  intros Hi. unfold context_handles, receiver_handles. simpl.
  rewrite (refs_delete (op_refs context_refs) _ _ _ Hi), (refs_delete (op_refs receiver_refs) _ _ _ Hi).
  split; multiset_solver.
Qed.

Lemma perform_owner a p r :
  match a with NewOwner | CopyOwner _ | DropOwner _ | CopyStorage _ | DropStorage _ | BindAsync _ => True | _ => False end ->
  program_wf p -> perform a p = Some r -> ok_program r.
Proof.
  intros Ha Hp Hr. pose proof (wf_world p Hp) as Hw.
  destruct a as [|c|c|[c|]|b|b| | | | | |]; try done; cbn [AsyncImport.perform] in Hr;
    try (case_decide; [|done]); apply (inj Some) in Hr; subst r; try done.
  - eapply ok_goes_on; [apply (upholds_make_context no_values (context_handles p) (receiver_handles p) (fun _ => False))|done|..|done].
    intros c w Hw'. apply with_world_wf; [done|]. same_handles Hw'.
  - eapply ok_goes_on; [apply (upholds_copy_context no_values (context_handles p) (receiver_handles p) c (fun _ => False))|done|..|done].
    { unfold context_handles. multiset_solver. }
    intros ? w Hw'. apply with_world_wf; [done|]. same_handles Hw'.
  - eapply ok_goes_on; [apply (upholds_release_context no_values (context_handles p ∖ {[+ c +]}) (receiver_handles p) c (fun _ => False))|..|done].
    { same_handles Hw. }
    intros ? w Hw'. apply with_world_wf; [done|]. same_handles Hw'.
  - eapply (ok_goes_on (wf (context_handles p) (receiver_handles p)) _
      (fun b => wf (context_handles p) ({[+ b +]} ⊎ receiver_handles p)) (wf (context_handles p) (receiver_handles p))); [|done|..].
    + eapply upholds_then; [apply upholds_copy_context; unfold context_handles; multiset_solver|]. intros ?.
      apply upholds_receiver_storage; [by apply no_values_outside|intros d; by apply no_values_outside].
    + intros b w Hw'. apply with_world_wf; [done|]. same_handles Hw'.
    + intros w Hw'. by apply with_world_wf.
  - eapply ok_goes_on; [apply (upholds_copy_receiver no_values (context_handles p) (receiver_handles p) b (fun _ => False))|done|..|done].
    { unfold receiver_handles. multiset_solver. }
    intros ? w Hw'. apply with_world_wf; [done|]. same_handles Hw'.
  - eapply ok_goes_on; [apply (upholds_release_receiver no_values (context_handles p) (receiver_handles p ∖ {[+ b +]}) b (fun _ => False))|..|done].
    { same_handles Hw. }
    intros ? w Hw'. apply with_world_wf; [done|]. same_handles Hw'.
Qed.

Lemma ok_new_call p (m : eff state call) C B :
  program_wf p -> wf C B (now p) ->
  upholds (wf C B) m (fun c w => startable (object c) /\
      wf (context_refs (shares c) ⊎ context_handles p) (receiver_refs (shares c) ⊎ receiver_handles p) w)
    (wf (context_handles p) (receiver_handles p)) ->
  ok_program (goes_on (m (now p)) (fun c => with_calls (cons c) p) (with_calls id p)).
Proof.
  intros Hp Hw Hm. eapply ok_goes_on; [exact Hm|done|..].
  - intros c w [Hc Hw']. by apply with_call_wf.
  - intros w Hw'. by apply with_world_wf.
Qed.

Lemma perform_prepare a p r :
  match a with PrepareMember _ _ _ _ _ _ _ | PrepareFree _ _ _ _ _ => True | _ => False end ->
  program_wf p -> perform a p = Some r -> ok_program r.
Proof.
  intros Ha Hp Hr. pose proof (wf_world p Hp) as Hw.
  destruct a as [| | | | | |erased flat sr dc cs args b|erased flat cs args [c|]| | | |]; try done; cbn [AsyncImport.perform] in Hr;
    try (case_decide as Hin; [|done]); apply bind_Some in Hr as (m & Hm & Hr); apply (inj Some) in Hr; subst r.
  - eapply ok_new_call; [done..|]. eapply upholds_prepare; [exact Hm|]. unfold receiver_handles. multiset_solver.
  - eapply ok_new_call; [done..|]. eapply upholds_then; [|intros ?; by eapply upholds_async_function].
    apply upholds_copy_context. unfold context_handles. multiset_solver.
  - unfold AsyncImport.async_function in Hm. apply bind_Some in Hm as ([c captured] & _ & Hm).
    apply bind_Some in Hm as (_ & _ & Hm). by simplify_eq.
Qed.

Lemma ok_release_call p i c :
  program_wf p -> calls p !! i = Some c ->
  ok_program (goes_on (release_handle (shares c) (now p)) (fun _ => with_calls (delete i) p) (with_calls id p)).
Proof.
  intros Hp Hi. pose proof (wf_world p Hp) as Hw. destruct (call_handles p i c Hi) as [HC HB].
  set (p' := with_calls (delete i) p (now p)) in *.
  eapply ok_goes_on; [apply (upholds_release_handle (context_handles p') (receiver_handles p') _ (fun _ => False))| |..|done].
  { rewrite <- HC, <- HB. exact Hw. }
  intros ? w Hw'. destruct Hp. split; [exact Hw'|by apply Forall_delete|done].
Qed.

Lemma perform_call a p r :
  match a with DropCall _ | StartCall _ _ => True | _ => False end ->
  program_wf p -> perform a p = Some r -> ok_program r.
Proof.
  intros Ha Hp Hr.
  destruct a as [| | | | | | | |i|i fails| |]; try done; cbn [AsyncImport.perform] in Hr;
    apply bind_Some in Hr as (c & Hi & Hr); apply (inj Some) in Hr; subst r; [by apply ok_release_call|].
  destruct fails.
  { destruct (object c); [done|by apply ok_release_call]. }
  destruct (Forall_lookup_1 _ _ _ _ (wf_calls p Hp) Hi) as [access Hs]. rewrite Hs.
  destruct (call_handles p i c Hi) as [HC HB]. pose proof (wf_world p Hp) as Hw. rewrite HC, HB in Hw.
  destruct Hp. split; [|by apply Forall_delete|constructor; [|done]].
  - same_handles Hw.
  - exists access. constructor.
Qed.

Lemma perform_operation a p r :
  match a with RunOperation _ _ | DestroyOperation _ => True | _ => False end ->
  program_wf p -> perform a p = Some r -> ok_program r.
Proof.
  intros Ha Hp Hr. pose proof (wf_world p Hp) as Hw.
  destruct a as [| | | | | | | | | |k a|k]; try done; cbn [AsyncImport.perform] in Hr;
    apply bind_Some in Hr as ([h s] & Hk & Hr); destruct (operation_handles p k _ Hk) as [HC HB];
    rewrite HC, HB in Hw; destruct (Forall_lookup_1 _ _ _ _ (wf_running p Hp) Hk) as [access Hs].
  - apply bind_Some in Hr as (o & Ho & Hr). apply (inj Some) in Hr. subst r.
    pose proof (act_ok _ _ _ _ Hs Ho) as Hreach. destruct o as [s'|e| |]; try done.
    eapply (ok_goes_on _ _ _ (fun _ => False)); [by apply upholds_operation|exact Hw| |done].
    intros ? w Hw'. destruct Hp. split; [|done|].
    + pose proof (refs_insert (op_refs context_refs) _ _ _ (h, s') Hk).
      pose proof (refs_insert (op_refs receiver_refs) _ _ _ (h, s') Hk).
      pose proof (refs_delete (op_refs context_refs) _ _ _ Hk).
      pose proof (refs_delete (op_refs receiver_refs) _ _ _ Hk).
      eapply wf_same; [exact Hw'|..]; unfold context_handles, receiver_handles in *; simpl in *; multiset_solver.
    + apply Forall_insert; [done|]. by exists access.
  - case_decide; [|done]. apply (inj Some) in Hr. subst r.
    eapply (ok_goes_on _ _ (fun _ => wf (context_handles (with_running (delete k) p (now p)))
              (receiver_handles (with_running (delete k) p (now p)))) (fun _ => False)); [|exact Hw| |done].
    + unfold op_refs. simpl. destruct (holds_context s); [apply upholds_release_handle|].
      rewrite !(left_id_L ∅ (⊎)). by apply upholds_return.
    + intros ? w Hw'. destruct Hp. split; [exact Hw'|done|by apply Forall_delete].
Qed.

Lemma perform_ok a p r : program_wf p -> perform a p = Some r -> ok_program r.
Proof.
  intros Hp Hr. destruct a;
    first [by eapply perform_owner; [|exact Hp|exact Hr] | by eapply perform_prepare; [|exact Hp|exact Hr]
          | by eapply perform_call; [|exact Hp|exact Hr] | by eapply perform_operation; [|exact Hp|exact Hr]].
Qed.

Abbreviation program_step := (program_step (R:=R) (E:=E) convertible better classify copy_string copy_shared user_capture
  user_noexcept user_nothrow_move strict destroy_value order hook_result_type prepare_async allocate construct_delegate).
Abbreviation program_reachable := (program_reachable (R:=R) (E:=E) convertible better classify copy_string copy_shared user_capture
  user_noexcept user_nothrow_move strict destroy_value order hook_result_type prepare_async allocate construct_delegate).

Lemma start_program_wf (w : W) : program_wf (start_program w).
Proof.
  split; [|constructor..]. split; cbn; try done.
  - intros b. rewrite lookup_empty. split; [multiset_solver|by intros []].
  - intros c. split; [lia|]. intros [?|?%not_elem_of_nil]; [multiset_solver|done].
  - intros b. rewrite lookup_empty. split; [lia|]. intros [[? Hx]|[? ?%not_elem_of_nil]]; done.
  - by intros c ?%not_elem_of_nil.
Qed.
Lemma reachable_program_wf p : program_reachable p -> program_wf p.
Proof.
  intros [w Hsteps]. pose proof (start_program_wf w) as Hp. remember (start_program w) as p0 eqn:E0. clear E0.
  induction Hsteps as [p0|p0 p1 p2 Hstep _ IH]; [done|]. apply IH.
  destruct Hstep as [a p0 p1 Ha]. exact (perform_ok a p0 (Ok p1) Hp Ha).
Qed.

(** C29: however binding, preparing, starting, running and dropping are interleaved, nothing
    reads a receiver or a context that is gone: each lives exactly as long as a storage, an
    unstarted call or a running operation shares it; every one is destroyed once, a receiver
    before its context; and when nothing is left, neither are they. *)
Theorem async_receivers_live p :
  program_reachable p ->
  (forall a r, perform a p = Some r -> r = Aborted \/ exists p', r = Ok p') /\
  (forall b, b ∈ receiver_handles p <-> exists c o, boxes (now p) !! b = Some (c, o) /\ c ∈ contexts (now p)) /\
  (forall c, c ∈ context_handles p -> c ∈ contexts (now p)) /\
  ordered (log (now p)) /\ owned (user (now p)) = ∅ /\
  (owners p = ∅ -> storages p = ∅ -> calls p = [] -> running p = [] ->
   contexts (now p) = ∅ /\ boxes (now p) = ∅ /\
   (forall b, (b < next_receiver (now p))%nat -> exists c, ReceiverDestroyed b c ∈ log (now p)) /\
   (forall c, (c < next_context (now p))%nat -> ContextDestroyed c ∈ log (now p))).
Proof.
  intros Hp%reachable_program_wf. pose proof (wf_world p Hp) as [Hc Hr Hl Hnc Hnr Hgc Hgr Ho Hu].
  split_and!; [| | |done|done|].
  - intros a r Ha. pose proof (perform_ok a p r Hp Ha) as Hok. destruct r; simpl in Hok; try done; eauto.
  - intros b. rewrite <- Hr, Hl. split; [|by intros (c & o & -> & _); eauto]. intros [[c o] Hb]. exists c, o. split; [done|].
    rewrite Hc, (box_contexts_delete _ _ _ _ Hb). multiset_solver.
  - intros c Hin. rewrite Hc. apply gmultiset_elem_of_disj_union. by left.
  - intros Howners Hstorages Hcalls Hrunning.
    assert (receivers (now p) = ∅) as Hr0.
    { rewrite Hr. unfold receiver_handles. by rewrite Hstorages, Hcalls, Hrunning. }
    assert (boxes (now p) = ∅) as Hb0.
    { apply map_empty. intros b. apply eq_None_not_Some. rewrite <- Hl, Hr0. multiset_solver. }
    assert (contexts (now p) = ∅) as Hc0.
    { rewrite Hc, Hb0. unfold context_handles. by rewrite Howners, Hcalls, Hrunning. }
    split_and!; [done..| |].
    + intros b Hb. apply Hnr in Hb as [[? Hb]|]; [|done]. by rewrite Hb0 in Hb.
    + intros c Hx. apply Hnc in Hx as [Hx|]; [|done]. rewrite Hc0 in Hx. multiset_solver.
Qed.

(** The static assertions on a contract. *)
Definition projectable (c : contract (declared (cpp_type T))) : Prop :=
  (forall r, result_type c = Some r -> is_reference r = false) /\
  (forall a, a ∈ parameters c -> is_lvalue_reference a = true -> is_const_referred a = true).

Lemma safe_signature_iff (l : list (declared (cpp_type T))) :
  safe_signature l = true <-> forall a, a ∈ l -> is_lvalue_reference a = true -> is_const_referred a = true.
Proof.
  unfold safe_signature. rewrite forallb_forall. split; intros Hall a Ha; specialize (Hall a).
  - apply list_elem_of_In in Ha. specialize (Hall Ha). intros Hl. by rewrite Hl in Hall.
  - apply list_elem_of_In in Ha. specialize (Hall Ha). destruct (is_lvalue_reference a); [by rewrite Hall|done].
Qed.
Lemma contract_result_iff (c : contract (declared (cpp_type T))) r :
  contract_result c = Some r <-> r = result_type c /\ projectable c.
Proof.
  unfold contract_result, projectable. rewrite <- safe_signature_iff.
  destruct (result_type c) as [x|]; [destruct (is_reference x) eqn:Hx|]; destruct (safe_signature (parameters c));
    split; try done; try (by intros [= <-]; split_and!; try done; intros ? [= <-]); intros (Heq & Hr & ?); subst; try done.
  - by rewrite (Hr x eq_refl) in Hx.
Qed.
Lemma checked_projection_iff c :
  checked_projection hook_result_type c = Some tt <-> projectable c /\ hook_result_type c = result_type c.
Proof.
  unfold checked_projection. split.
  - intros (r & Hr & Hd)%bind_Some. case_decide; [|done]. apply contract_result_iff in Hr as [-> ?]. done.
  - intros [Hp Heq]. rewrite (proj2 (contract_result_iff c (result_type c)) (conj eq_refl Hp)). simpl.
    case_decide; done.
Qed.

(** An asynchronous member call compiles exactly when the symbol belongs to the
    delegate's class, the arguments select one contract, all can be captured, the contract
    has no output parameter and returns no reference, and the backend's hook gives the
    declared result. *)
Theorem async_call_compiles erased flat symbol_receiver delegate_class cs args b :
  (exists m, prepare erased flat symbol_receiver delegate_class cs args b = Some m) <->
  symbol_receiver = delegate_class /\ exists c, select convertible better flat cs args.*1 = Some c /\
    Forall (fun a => is_Some (capture classify copy_string copy_shared user_capture user_noexcept user_nothrow_move
                                strict a.1 a.2)) args /\
    projectable c /\ hook_result_type c = result_type c.
Proof.
  unfold AsyncImport.prepare, prepare_arguments. split.
  - case_decide as Hsame; [|by intros [? ?]].
    intros [m ([c captured] & (c' & Hsel & (jobs & Hj & [= <- <-])%bind_Some)%bind_Some & ([] & Hch & _)%bind_Some)%bind_Some].
    split; [done|]. exists c'. split; [done|]. apply checked_projection_iff in Hch. split; [|done].
    apply mapM_Some in Hj. eapply Forall2_Forall_l in Hj; [exact Hj|]. apply Forall_true. by eauto.
  - intros [Hsame (c & Hsel & Hall & Hch)]. case_decide; [|done]. rewrite Hsel. apply mapM_is_Some in Hall as [jobs Hj].
    unfold capture_jobs. cbn [mbind option_bind]. rewrite Hj. cbn [mbind option_bind].
    apply checked_projection_iff in Hch. rewrite Hch. by eexists.
Qed.
End Programs.

(** ** A sample program *)

Module Sample.
Inductive ty := Number | Str | View.
#[global] Instance ty_eq_dec : EqDecision ty.
Proof. solve_decision. Defined.

Definition lvalue (t : ty) : cpp_type ty := mk_type t false LvalueReference.
Definition prvalue (t : ty) : cpp_type ty := mk_type t false NoReference.
Definition const_reference (t : ty) : cpp_type ty := mk_type t true LvalueReference.
Definition rvalue_reference (t : ty) : cpp_type ty := mk_type t false RvalueReference.

Definition convertible (x : cpp_type ty) (p : parameter (cpp_type ty)) : bool :=
  match p with
  | DeclaredType (value_param t) =>
      bool_decide (decayed x = decayed t) &&
      (if decide (reference_ t = RvalueReference) then negb (bool_decide (reference_ x = LvalueReference)) else true)
  | _ => false
  end.
Definition better (x : cpp_type ty) (p q : parameter (cpp_type ty)) : bool :=
  match p, q with
  | DeclaredType (value_param t), DeclaredType (value_param u) =>
      bool_decide (reference_ t = RvalueReference) && negb (bool_decide (reference_ u = RvalueReference))
  | _, _ => false
  end.
Definition classify (t : ty) : capture_class :=
  match t with Number => Arithmetic | Str => OwnedString | View => NotCaptured end.

(** The world counts the strings that memory still has room for. *)
Definition copy_string (v : nat) : eff nat nat := fun w =>
  match w with 0%nat => (Throw (std_exception []), w) | S w => (Ok v, w) end.
Lemma copy_string_defined v w : (copy_string v w).1 ≠ Undefined.
Proof. by destruct w. Qed.
Definition copy_shared (v : nat) : eff nat nat := mret v.
Definition user_capture (x : cpp_type ty) (v : nat) : eff nat nat := mret v.
Definition destroy_value (v w : nat) : nat := w.
Definition order (n : nat) : list nat := reverse (seq 0 n).

Definition by_rvalue : contract (declared (cpp_type ty)) :=
  mk_contract (Some (value_param (prvalue Str))) [value_param (rvalue_reference Str); value_param (prvalue Number)] false.
Definition by_reference : contract (declared (cpp_type ty)) :=
  mk_contract (Some (value_param (prvalue Str))) [value_param (const_reference Str); value_param (prvalue Number)] false.
Definition overloads : list (contract (declared (cpp_type ty))) := [by_reference; by_rvalue].

Definition prepare_async (c : contract (declared (cpp_type ty))) (vs : list nat) : eff nat hook_result :=
  mret (mk_hook_result true false).
Definition allocate : eff nat unit := mret tt.
Definition construct_delegate (c : nat) : eff nat nat := mret c.

Abbreviation prepare_arguments := (prepare_arguments convertible better classify copy_string copy_shared user_capture
  (fun _ => true) (fun _ => true) true destroy_value order).
Abbreviation perform := (perform (R:=nat) (E:=nat) convertible better classify copy_string copy_shared user_capture
  (fun _ => true) (fun _ => true) true destroy_value order result_type prepare_async allocate construct_delegate).

Abbreviation actions := (@program_action ty nat nat nat).
Fixpoint performs (l : list actions) (p : @program nat nat nat nat nat) : option (@program nat nat nat nat nat) :=
  match l with
  | [] => Some p
  | a :: l => match perform a p with Some (Ok p') => performs l p' | _ => None end
  end.
(** The caller forgets its pointers as soon as it can; the operation finishes. *)
Definition whole_life : list actions :=
  [NewOwner; BindAsync (Some 0%nat); DropOwner 0;
   PrepareMember true true 5 5 overloads [(prvalue Str, 7%nat); (lvalue Number, 9%nat)] 0; DropStorage 0;
   StartCall 0 false; RunOperation 0 (Run 0%nat accept); RunOperation 0 (CallFinish (Value 3%nat))]
  ++ replicate 4 (RunOperation 0 (Run 1%nat accept)) ++ replicate 3 (RunOperation 0 (Run 0%nat accept)) ++
  [RunOperation 0 (Run 1%nat accept); DestroyOperation 0].
End Sample.

Lemma async_capture_exact_witness :
  exists m, Sample.prepare_arguments true Sample.overloads [(Sample.prvalue Sample.Str, 7%nat); (Sample.lvalue Sample.Number, 9%nat)]
              = Some (Sample.by_rvalue, m) /\
    match m (mk_import ∅ 0 0%nat) with (Ok vs, s') => vs = [7; 9]%nat /\ owned s' = ∅ | _ => False end.
Proof.
  eexists. split; [reflexivity|].
  pose proof (async_capture_exact Sample.convertible Sample.better Sample.classify Sample.copy_string Sample.copy_shared
    Sample.user_capture (fun _ => true) (fun _ => true) true Sample.destroy_value Sample.order
    (fun n => reverse_Permutation _) Sample.copy_string_defined ltac:(intros; eexists _, _; reflexivity) ltac:(intros; vm_compute; discriminate) ltac:(intros; eexists _, _; reflexivity)
    true Sample.overloads [(Sample.prvalue Sample.Str, 7%nat); (Sample.lvalue Sample.Number, 9%nat)] Sample.by_rvalue _
    (mk_import ∅ 0 0%nat) eq_refl (fun n _ => lookup_empty n)) as [_ (jobs & _ & H)].
  vm_compute in H |- *. split; [reflexivity|apply H].
Defined.

Lemma async_receivers_live_witness :
  match Sample.performs Sample.whole_life (start_program 0%nat) with
  | Some p => log (now p) = [ContextDestroyed 0; ReceiverDestroyed 0 0] /\ contexts (now p) = ∅
  | None => False
  end.
Proof.
  destruct (Sample.performs Sample.whole_life (start_program 0%nat)) as [p|] eqn:Hp; [|vm_compute in Hp; discriminate].
  assert (log (now p) = [ContextDestroyed 0; ReceiverDestroyed 0 0] /\ owners p = ∅ /\ storages p = ∅ /\ calls p = [] /\ running p = [])
    as (Hlog & Ho & Hs & Hc & Hr) by (vm_compute in Hp; injection Hp as <-; vm_compute; auto).
  split; [exact Hlog|].
  refine (proj1 (proj2 (proj2 (proj2 (proj2 (proj2 (async_receivers_live Sample.convertible Sample.better Sample.classify
    Sample.copy_string Sample.copy_shared Sample.user_capture (fun _ => true) (fun _ => true) true Sample.destroy_value
    Sample.order result_type Sample.prepare_async Sample.allocate Sample.construct_delegate
    (fun n => reverse_Permutation _) _ _ _ _ _ _ _ p _))))) Ho Hs Hc Hr)).
  1-7: first [exact Sample.copy_string_defined | intros; eexists _, _; reflexivity | intros; vm_compute; discriminate].
  exists 0%nat. clear -Hp. revert Hp. generalize (start_program (O:=nat) (V:=nat) (R:=nat) (E:=nat) 0%nat).
  generalize Sample.whole_life. intros l. induction l as [|a l IH]; intros q Hq; simpl in Hq; [by simplify_eq|].
  destruct (Sample.perform a q) as [[q'| | |]|] eqn:Ha; try done.
  eapply rtc_l; [exact (do_perform _ _ _ _ _ _ _ _ _ _ _ _ _ _ _ a q q' Ha)|by apply IH].
Defined.
