(* ===== verification/FlowAsync.v ===== *)
(** * extensions/flux_foundry/async.h: delivering an operation to a flow

    An awaitable of the flow library starts the call it was created with and is resumed with
    the result; [start_invocation] runs a flow of one awaitable whose sink calls a handler.
    The library is a parameter: it forwards what the awaitable is resumed with, and may call
    the sink again. *)

From Stdlib Require Import ZArith Lia.
From stdpp Require Import base list.
From S2P Require Import Prelude AsyncOperation AsyncImport.

(** ** Errors (async.h) *)

Inductive errc := not_enough_memory | resource_unavailable_try_again | operation_canceled.
(** [async_error]: a default one has neither. *)
Record async_error := mk_error { code : option errc; exception : option exn }.
Definition no_error : async_error := mk_error None None.
Definition error_of_code (c : errc) : async_error := mk_error (Some c) None.
Definition error_of_exception (e : exn) : async_error := mk_error None (Some e).

(** The errors of the library, as this extension makes them. *)
Definition awaitable_creating_error : async_error := error_of_code not_enough_memory.
Definition async_submission_failed_error : async_error := error_of_code resource_unavailable_try_again.
Definition cancel_error : async_error := error_of_code operation_canceled.

(** ** Awaitables *)

Section Flow.
Context {R : Type} `{policy : ErrorPolicy}.

(** [flux_foundry::result_t<R, async_error>]. *)
Inductive result_t := value_tag (r : R) | error_tag (e : async_error).

(** [forward_result::finish], what it resumes with. *)
Definition forward_result (r : async_result R async_error) : result_t :=
  match r with Value r => value_tag r | Failed e => error_tag e end.

(** [invocation_awaitable]: the call it may still start, the error of its input, and what it
    has been resumed with, the last first. *)
Record awaitable := mk_awaitable { call_ : option call_object; input_error : async_error; resumed : list result_t }.

(** The input of an awaitable, and its constructor. *)
Definition make_awaitable (input : call_object + async_error) : awaitable :=
  match input with inl c => mk_awaitable (Some c) no_error [] | inr e => mk_awaitable None e [] end.
Definition available (a : awaitable) : bool := true.

Definition resume (r : result_t) : eff awaitable unit := fun a =>
  (Ok tt, mk_awaitable (call_ a) (input_error a) (r :: resumed a)).

(** [submit]: [allocation] is what [start] does before the operation runs. The call is moved
    to a local variable first, and an exception is delivered as the result. *)
Definition submit (allocation : outcome unit) : eff awaitable (option (system R async_error)) := fun a =>
  match call_ a with
  | None => (resume (error_tag (input_error a)) ;; mret None) a
  | Some operation =>
      let a' := mk_awaitable None (input_error a) (resumed a) in
      match (allocation ;; start_call operation) with
      | Ok s => (Ok (Some s), a')
      | Throw e => if has_exceptions then (resume (error_tag (error_of_exception e)) ;; mret None) a' else (Throw e, a')
      | Aborted => (Aborted, a')
      | Undefined => (Undefined, a')
      end
  end.

(** All resumptions of an awaitable and of the operation it started, the last first: the
    handler of the operation resumes with each of its outputs. *)
Definition resumptions (a : awaitable) (s : option (system R async_error)) : list result_t :=
  match s with Some s => map (fun o => forward_result o.1) (outputs (AsyncOperation.state s)) | None => [] end ++ resumed a.

(** ** Sinks *)

(** The handler of [start_invocation], and what is left of it. *)
Record sink_state (H : Type) := mk_sink { slot : option H; invoked : list (H * result_t) }.
Arguments mk_sink {H}.
Arguments slot {H}.
Arguments invoked {H}.

Section Sink.
Context {H : Type}.
(** What a handler makes the library emplace before it returns. *)
Context (reenters : H -> result_t -> list result_t).

(** [invocation_sink::emplace]: the handler is moved out of the shared slot and called. *)
Fixpoint emplace (fuel : nat) (r : result_t) (s : sink_state H) : option (sink_state H) :=
  match fuel with
  | O => None
  | S fuel =>
      match slot s with
      | None => Some s
      | Some done_ =>
          foldr (fun r s => s ← s; emplace fuel r s) (Some (mk_sink None ((done_, r) :: invoked s))) (reenters done_ r)
      end
  end.

(** The sink, after the library has emplaced [rs], the first of them last in the list. *)
Definition emplaces (fuel : nat) (rs : list result_t) (s : sink_state H) : option (sink_state H) :=
  foldr (fun r s => s ← s; emplace fuel r s) (Some s) rs.

(** [start_invocation]: the slot of the handler, then the blueprint; when it has no memory,
    the call is destroyed and the handler is given the error. *)
Inductive started := Abandoned (s : option (sink_state H)) | Flowing (a : awaitable) (s : sink_state H).
Definition start_invocation (slot_allocation : outcome unit) (owned_ : bool) (fuel : nat) (call : call_object) (handler : H)
  : outcome started :=
  slot_allocation ;;
  (let s := mk_sink (Some handler) [] in
   mret (if owned_ then Flowing (make_awaitable (inl call)) s
         else Abandoned (emplace fuel (error_tag (error_of_code not_enough_memory)) s))).

Lemma emplace_empty fuel r l : emplace (S fuel) r (mk_sink None l) = Some (mk_sink None l).
Proof. done. Qed.
Lemma emplaces_empty fuel rs l : emplaces (S fuel) rs (mk_sink None l) = Some (mk_sink None l).
Proof. unfold emplaces. induction rs as [|r rs IH]; cbn [foldr]; [done|]. by rewrite IH. Qed.
Lemma emplace_full fuel r h l :
  emplace (S (S fuel)) r (mk_sink (Some h) l) = Some (mk_sink None ((h, r) :: l)).
Proof. exact (emplaces_empty fuel (reenters h r) ((h, r) :: l)). Qed.
Lemma emplaces_full fuel rs r h :
  emplaces (S (S fuel)) (rs ++ [r]) (mk_sink (Some h) []) = Some (mk_sink None [(h, r)]).
Proof.
  unfold emplaces. rewrite foldr_app. cbn [foldr]. cbn [mbind option_bind]. rewrite emplace_full.
  apply (emplaces_empty (S fuel)).
Qed.
End Sink.

(** ** Exactly one delivery *)

Lemma submitted_once a access s0 s :
  reachable (R:=R) access s0 -> resumed a = [] -> rtc step s0 s ->
  (length (resumptions a (Some s)) <= 1)%nat /\
  (finishing s0 -> quiescent s -> exists r b, outputs (AsyncOperation.state s) = [(r, b)] /\
     resumptions a (Some s) = [forward_result r]).
Proof.
  intros Hr Ha Hs. unfold resumptions. rewrite Ha, app_nil_r, length_map.
  pose proof (operation_steps_invariant _ _ _ (operation_reachable_invariant _ _ Hr) Hs) as Hinv.
  split; [by destruct (outputs_at_most_one _ _ Hinv)|]. intros Hf Hq.
  destruct (quiescent_state _ _ Hinv Hq) as (_ & _ & Hout & _).
  rewrite (inv_retired _ _ Hinv (finished_retires _ _ Hf Hs Hq)) in Hout.
  destruct (outputs (AsyncOperation.state s)) as [|[r b] [|]]; try done. by exists r, b.
Qed.

(** An awaitable is resumed exactly once: at once with the error of its input, or with the
    exception when its operation could not start, and otherwise by the operation, with the
    value or the error it finishes with; it gives its call up. *)
Definition resumed_once (input : call_object + async_error) (allocation : outcome unit)
    (r : outcome (option (system R async_error)) * awaitable) : Prop :=
  match r with
  | (Ok None, a) => call_ a = None /\
      resumptions a None = [error_tag match input, allocation with
                                      | inr e, _ => e
                                      | inl _, Throw e => error_of_exception e
                                      | _, _ => no_error
                                      end]
  | (Ok (Some s0), a) => call_ a = None /\ resumptions a (Some s0) = [] /\
      forall s1 s2, rtc step s0 s1 -> rtc step s1 s2 ->
        (length (resumptions a (Some s2)) <= 1)%nat /\
        (finishing s1 -> quiescent s2 -> exists r b, outputs (AsyncOperation.state s2) = [(r, b)] /\
           resumptions a (Some s2) = [forward_result r])
  | _ => False
  end.
Lemma awaitable_resumes_once input allocation :
  has_exceptions = true -> allocation ≠ Aborted -> allocation ≠ Undefined ->
  match input with inl c => startable (R:=R) (E:=async_error) c | inr _ => True end ->
  resumed_once input allocation (submit allocation (make_awaitable input)).
Proof.
  intros Hx Hna Hnu Hin. destruct input as [c|e]; simpl; [|done]. unfold submit. simpl.
  destruct allocation as [[]|e| |]; try done; simpl; [|by rewrite Hx].
  destruct Hin as [access Hstart]. rewrite Hstart. split_and!; [done..|]. intros s1 s2 H1 H2.
  by apply (submitted_once (mk_awaitable None no_error []) access s1 s2).
Qed.

(** C30: the handler of [start_invocation] is called exactly once, however often it is
    re-entered or the library repeats itself: at once with [not_enough_memory] when the flow
    cannot be made, without starting the call; with the exception when the operation cannot
    start; and otherwise when the operation is finished, with what it finishes with. Until
    then it is called at most once, and nothing is left of it afterwards. *)
Theorem start_invocation_answers_once {H} (reenters : H -> result_t -> list result_t) allocation owned_ call handler fuel :
  has_exceptions = true -> allocation ≠ Aborted -> allocation ≠ Undefined -> startable (R:=R) (E:=async_error) call ->
  match start_invocation reenters (Ok tt) owned_ (S (S fuel)) call handler with
  | Ok (Abandoned s) => owned_ = false /\
      s = Some (mk_sink None [(handler, error_tag (error_of_code not_enough_memory))])
  | Ok (Flowing a s) => owned_ = true /\
      match submit allocation a with
      | (Ok None, a') => exists e, allocation = Throw e /\ forall repeats,
          emplaces reenters (S (S fuel)) (repeats ++ resumptions a' None) s
          = Some (mk_sink None [(handler, error_tag (error_of_exception e))])
      | (Ok (Some s0), a') => forall s1 s2, rtc step s0 s1 -> rtc step s1 s2 ->
          (exists sink, emplaces reenters (S (S fuel)) (resumptions a' (Some s2)) s = Some sink /\
             (length (invoked sink) <= 1)%nat) /\
          (finishing s1 -> quiescent s2 -> exists r b, outputs (AsyncOperation.state s2) = [(r, b)] /\
             forall repeats, emplaces reenters (S (S fuel)) (repeats ++ resumptions a' (Some s2)) s
             = Some (mk_sink None [(handler, forward_result r)]))
      | _ => False
      end
  | _ => False
  end.
Proof.
  intros Hx Hna Hnu Hstart. unfold start_invocation. destruct owned_; simpl; [|split; [done|apply (emplace_full reenters fuel)]].
  split; [done|]. pose proof (awaitable_resumes_once (inl call) allocation Hx Hna Hnu Hstart) as Hr. cbn [make_awaitable] in Hr.
  destruct (submit allocation (mk_awaitable (Some call) no_error [])) as [[[s0|]|e| |] a'] eqn:Hsub; try done.
  - destruct Hr as (_ & _ & Hr). intros s1 s2 H1 H2. destruct (Hr s1 s2 H1 H2) as [Hle Hone]. split.
    + destruct (resumptions a' (Some s2)) as [|r [|]]; simpl in *; [by eexists| |lia].
      exists (mk_sink None [(handler, r)]). split; [apply (emplaces_full reenters fuel [] r handler)|done].
    + intros Hf Hq. destruct (Hone Hf Hq) as (r & b & Hout & ->). exists r, b. split; [done|]. intros repeats. apply emplaces_full.
  - destruct Hr as [_ Hr]. destruct Hstart as [access Hstart].
    destruct allocation as [[]|e| |]; try done; [unfold submit in Hsub; simpl in Hsub; by rewrite Hstart in Hsub|].
    exists e. split; [done|]. intros repeats. rewrite Hr. apply emplaces_full.
Qed.
End Flow.

Arguments mk_sink {R H}.

(** ** A sample flow *)

Module Sample.
#[global] Instance policy : ErrorPolicy := {| has_exceptions := true |}.
(** A handler that makes the library emplace the same result twice more. *)
Definition reenters (h : nat) (r : result_t (R:=nat)) : list (result_t (R:=nat)) := [r; r].
Definition fresh_call : call_object := StaticCall (mk_invocation true true true).
Definition flowing : awaitable (R:=nat) := make_awaitable (inl fresh_call).
(** The submitter returns, then a completer finishes with 7. *)
Definition schedule : list (action nat async_error) :=
  replicate 3 (Run 0%nat accept) ++ CallFinish (Value 7%nat) :: replicate 6 (Run 1%nat accept).
End Sample.

Lemma start_invocation_answers_once_witness :
  match acts Sample.schedule (start true) with
  | Some s => emplaces Sample.reenters 2 (resumptions Sample.flowing (Some s)) (mk_sink (Some 5%nat) [])
              = Some (mk_sink None [(5%nat, value_tag 7%nat)])
  | None => False
  end.
Proof.
  destruct (acts Sample.schedule (start true)) as [s|] eqn:Hs; [|vm_compute in Hs; discriminate].
  pose proof (start_invocation_answers_once Sample.reenters (Ok tt) true Sample.fresh_call 5%nat 0
    eq_refl ltac:(discriminate) ltac:(discriminate) ltac:(by exists true)) as [_ H].
  destruct (H s s) as [_ Hone].
  - exact (operation_acts_steps _ _ _ Hs).
  - constructor.
  - destruct Hone as (r & b & Hout & Hsink).
    + left. vm_compute in Hs. injection Hs as <-. reflexivity.
    + vm_compute in Hs. injection Hs as <-. vm_compute. repeat constructor.
    + specialize (Hsink []). vm_compute in Hs. injection Hs as <-. vm_compute in Hout. injection Hout as <- <-. exact Hsink.
Defined.
