(* ===== verification/UvExecutor.v ===== *)
(** * extensions/flux_foundry/uv_executor.h: a task queue on a libuv loop

    Any thread dispatches; the loop thread empties the queue in rounds. libuv is not
    modelled: it calls [on_async] whenever it likes while the handle is open (which covers
    the calls that were asked for and spurious ones), and [on_closed] once after
    [uv_close]. [sent] records that [uv_async_send] was called since the last start of
    [on_async], which is when libuv documents that it will call it again. *)

From Stdlib Require Import ZArith Lia.
From stdpp Require Import base list.
From S2P Require Import Prelude.

Module uv_executor.
Section Executor.
(** Tasks. *)
Context {T : Type}.

Definition max_tasks_per_round : nat := 16.

(** The handle inside [state_t]: closing after [uv_close]; deleted with the state. *)
Inductive handle_status := HandleOpen | HandleClosing | HandleDeleted.

(** A call of [on_async] past its critical section: the tasks it still has to run and
    what it will do after them. *)
Record round := mk_round { todo : list T; rearm : bool; close_ : bool }.

(** [state_t], the pointer of the executor to it, and where the threads are: the round
    the loop thread is in, and the thread inside [close] between its unlock and its send
    ([Some true] on the loop thread). [queued] and [ran] record what happened: the tasks
    in the order they were queued, and in the order they ran with whether inline. *)
Record state_t := mk_state {
  tasks : list T;
  closing : bool;
  handle : handle_status;
  state_ : bool;
  sent : bool;
  in_round : option round;
  closer : option bool;
  queued : list T;
  ran : list (T * bool)
}.

Definition new_executor : state_t := mk_state [] false HandleOpen true false None None [] [].

(** [uv_async_send] on the handle of the state. *)
Definition async_send : eff state_t unit := fun s =>
  match handle s with
  | HandleDeleted => (Undefined, s)
  | _ => (Ok tt, mk_state (tasks s) (closing s) (handle s) (state_ s) true (in_round s) (closer s) (queued s) (ran s))
  end.

(** [dispatch] of a task that is not empty; [on_loop]: it is called on the loop thread. *)
Definition dispatch (on_loop : bool) (task : T) : eff state_t unit := fun s =>
  if negb (state_ s) then (Aborted, s)
  else if closing s then (Aborted, s)
  else match on_loop, tasks s with
       | true, [] =>
           (Ok tt, mk_state (tasks s) (closing s) (handle s) (state_ s) (sent s) (in_round s) (closer s)
                     (queued s) (ran s ++ [(task, true)]))
       | _, _ =>
           async_send (mk_state (tasks s ++ [task]) (closing s) (handle s) (state_ s) (sent s) (in_round s)
                         (closer s) (queued s ++ [task]) (ran s))
       end.

(** [close], to its unlock; the second call finds [state_] empty. *)
Definition close_lock (on_loop : bool) : eff state_t unit := fun s =>
  if negb (state_ s) then (Ok tt, s)
  else (Ok tt, mk_state (tasks s) true (handle s) false (sent s) (in_round s) (Some on_loop) (queued s) (ran s)).

(** The rest of [close]. *)
Definition close_send : eff state_t unit := fun s =>
  async_send (mk_state (tasks s) (closing s) (handle s) (state_ s) (sent s) (in_round s) None (queued s) (ran s)).

(** The critical section of [on_async]. *)
Definition on_async : eff state_t unit := fun s =>
  let batch := take max_tasks_per_round (tasks s) in
  let left := drop max_tasks_per_round (tasks s) in
  let rearm := match left with [] => false | _ => true end in
  (Ok tt, mk_state left (closing s) (handle s) (state_ s) false
            (Some (mk_round batch rearm (closing s && negb rearm))) (closer s) (queued s) (ran s)).

(** The next task of the round, or what follows the tasks. *)
Definition continue_round (r : round) : eff state_t unit := fun s =>
  match todo r with
  | task :: rest =>
      (Ok tt, mk_state (tasks s) (closing s) (handle s) (state_ s) (sent s)
                (Some (mk_round rest (rearm r) (close_ r))) (closer s) (queued s) (ran s ++ [(task, false)]))
  | [] =>
      let s' := mk_state (tasks s) (closing s) (handle s) (state_ s) (sent s) None (closer s) (queued s) (ran s) in
      if rearm r then async_send s'
      else if close_ r then
        (Ok tt, mk_state (tasks s) (closing s) HandleClosing (state_ s) (sent s) None (closer s) (queued s) (ran s))
      else (Ok tt, s')
  end.

(** [on_closed] deletes the state. *)
Definition on_closed : eff state_t unit := fun s =>
  (Ok tt, mk_state (tasks s) (closing s) HandleDeleted (state_ s) (sent s) (in_round s) (closer s) (queued s) (ran s)).

Inductive action :=
| Dispatch (on_loop : bool) (task : T)
| CloseLock (on_loop : bool)
| CloseSend
| OnAsync
| Continue
| OnClosed.

(** The loop thread is inside [close]. *)
Definition loop_busy (s : state_t) : bool := match closer s with Some true => true | _ => false end.

(** [None] when the action cannot happen: libuv calls nothing on a handle that is closed
    or inside another callback, and a thread inside [close] does nothing else. *)
Definition act (a : action) (s : state_t) : option (outcome unit * state_t) :=
  match a with
  | Dispatch true task => if loop_busy s then None else Some (dispatch true task s)
  | Dispatch false task => Some (dispatch false task s)
  | CloseLock on_loop => if loop_busy s && on_loop then None else Some (close_lock on_loop s)
  | CloseSend => match closer s with Some _ => Some (close_send s) | None => None end
  | OnAsync =>
      match handle s, in_round s with
      | HandleOpen, None => if loop_busy s then None else Some (on_async s)
      | _, _ => None
      end
  | Continue =>
      match in_round s with
      | Some r => if loop_busy s then None else Some (continue_round r s)
      | None => None
      end
  | OnClosed =>
      match handle s, in_round s with
      | HandleClosing, None => if loop_busy s then None else Some (on_closed s)
      | _, _ => None
      end
  end.

(** One action, among those a caller allows. *)
Inductive step (allowed : action -> Prop) : state_t -> state_t -> Prop :=
| do_act a s s' : allowed a -> act a s = Some (Ok tt, s') -> step allowed s s'.

Definition reachable (allowed : action -> Prop) (s : state_t) : Prop := rtc (step allowed) new_executor s.

(** [close] is only called on the loop thread. *)
Definition closed_on_loop (a : action) : Prop := a ≠ CloseLock false.
Definition anything (a : action) : Prop := True.

(** The tasks that ran from the queue. *)
Definition ran_queued (s : state_t) : list T :=
  omap (fun '(t, inline) => if inline : bool then None else Some t) (ran s).
Definition round_tasks (s : state_t) : list T :=
  match in_round s with Some r => todo r | None => [] end.
Definition rearming (s : state_t) : bool := match in_round s with Some r => rearm r | None => false end.
Definition round_closes (s : state_t) : bool := match in_round s with Some r => close_ r | None => false end.
Definition is_open (s : state_t) : bool := match handle s with HandleOpen => true | _ => false end.

Record invariant (s : state_t) : Prop := {
  inv_order : queued s = ran_queued s ++ round_tasks s ++ tasks s;
  inv_wake : tasks s ≠ [] -> is_open s = true /\ (sent s || rearming s = true);
  inv_length : (length (round_tasks s) <= max_tasks_per_round)%nat;
  inv_open : in_round s ≠ None -> is_open s = true;
  inv_round_close : round_closes s = true -> closing s = true /\ tasks s = [];
  inv_closing : is_open s = false -> closing s = true /\ tasks s = [];
  inv_state : state_ s = negb (closing s);
  inv_closer : closer s ≠ None -> closing s = true;
  inv_close : closing s = true -> is_open s = true -> closer s = None ->
              sent s || rearming s || round_closes s = true
}.

Lemma uv_new_invariant : invariant new_executor.
Proof. split; try done. cbn; lia. Qed.

Lemma uv_act_invariant a s s' : invariant s -> act a s = Some (Ok tt, s') -> invariant s'.
Proof.
  intros [] Hact. destruct s as [ts cl h st sn ir co q rn].
  unfold act, loop_busy, dispatch, close_lock, close_send, on_async, continue_round, on_closed, async_send,
    ran_queued, round_tasks, rearming, round_closes, is_open in *. cbn in *.
  destruct a as [[] t|on| | | |]; repeat (destruct_match_in Hact; cbn in Hact; try discriminate Hact).
  all: simplify_eq/=.
  all: try (exfalso; intuition congruence).
  all: split; unfold ran_queued, round_tasks, rearming, round_closes, is_open; cbn; intros;
    rewrite ?omap_app, ?app_nil_r, <-?app_assoc in *; cbn; rewrite <- ?app_assoc, ?app_nil_r in *; try done;
    try (intuition (congruence || lia)).
  all: try (rewrite length_take; unfold max_tasks_per_round; lia).
  all: try (rewrite andb_true_r in *; done).
  all: pose proof (take_drop 16 ts) as Htd; rewrite Heql, ?app_nil_r in Htd; congruence.
Qed.

Lemma uv_step_invariant allowed s s' : invariant s -> step allowed s s' -> invariant s'.
Proof. intros Hinv Hs. destruct Hs as [a s s' _ Ha]. by eapply uv_act_invariant. Qed.

Lemma uv_steps_invariant allowed s s' : invariant s -> rtc (step allowed) s s' -> invariant s'.
Proof. apply rtc_preserves. intros; by eapply uv_step_invariant. Qed.

Lemma uv_reachable_invariant allowed s : reachable allowed s -> invariant s.
Proof. apply uv_steps_invariant, uv_new_invariant. Qed.

(** While the loop thread is inside [close] the handle stays open; no other thread is. *)
Definition closer_safe (s : state_t) : Prop := closer s = None \/ (closer s = Some true /\ is_open s = true).

Lemma closer_safe_act a s s' :
  invariant s -> closer_safe s -> a ≠ CloseLock false -> act a s = Some (Ok tt, s') -> closer_safe s'.
Proof.
  intros [] Hsafe Ha Hact. destruct s as [ts cl h st sn ir co q rn].
  unfold closer_safe, act, loop_busy, dispatch, close_lock, close_send, on_async, continue_round, on_closed,
    async_send, is_open in *. cbn in *.
  destruct a as [[] t|[]| | | |]; repeat (case_match; simplify_eq/=); 
    try (destruct cl; cbn in *; try (specialize (inv_closing0 eq_refl))); intuition congruence.
Qed.

Lemma closer_safe_reachable s : reachable closed_on_loop s -> closer_safe s.
Proof.
  intros Hr. cut (invariant s /\ closer_safe s); [by intros []|].
  refine (rtc_preserves _ (fun s => invariant s /\ closer_safe s) _ _ _ _ Hr).
  - intros s1 s2 [Hinv Hsafe] Hs. split; [by eapply uv_step_invariant|].
    destruct Hs as [a s1 s2 Ha Hact]. by eapply closer_safe_act.
  - split; [apply uv_new_invariant|by left].
Qed.

(** The queue is first in, first out, and no task is lost or run twice: at any point
    the tasks that were queued are those that ran from the queue, then what is left of
    the round, then the queue. A round has at most sixteen tasks, and once the handle is
    closed every task that was queued has run. *)
Theorem executor_fifo allowed s :
  reachable allowed s ->
  queued s = ran_queued s ++ round_tasks s ++ tasks s /\
  (length (round_tasks s) <= max_tasks_per_round)%nat /\
  (is_open s = false -> queued s = ran_queued s).
Proof.
  intros Hr%uv_reachable_invariant. destruct Hr. split_and!; try done.
  intros Hc. destruct (inv_closing0 Hc) as [_ Ht]. rewrite inv_order0, Ht. unfold round_tasks.
  destruct (in_round s); [by rewrite inv_open0 in Hc|]. by rewrite !app_nil_r.
Qed.

(** No wakeup is lost: while tasks are queued the handle is open, and the loop has
    been asked for another call or the round that runs is going to ask; while the executor
    is closing with an open handle, likewise, or the round that runs is going to close it,
    or the call of [close] has not reached its send. *)
Theorem executor_wakes allowed s :
  reachable allowed s ->
  (tasks s ≠ [] -> is_open s = true /\ (sent s || rearming s = true)) /\
  (closing s = true -> is_open s = true -> closer s = None ->
   sent s || rearming s || round_closes s = true).
Proof. intros Hr%uv_reachable_invariant. by destruct Hr. Qed.

(** When [close] is called on the loop thread, the state is never used after it was
    deleted, and every abort is a dispatch through a closed executor. *)
Theorem executor_safe s a :
  reachable closed_on_loop s -> closed_on_loop a ->
  match act a s with
  | Some (Ok _, _) | None => True
  | Some (Aborted, _) => (exists on_loop t, a = Dispatch on_loop t) /\ closing s = true
  | _ => False
  end.
Proof.
  intros Hr Ha. pose proof (closer_safe_reachable _ Hr) as Hsafe. apply uv_reachable_invariant in Hr as [].
  destruct s as [ts cl h st sn ir co q rn].
  unfold closer_safe, closed_on_loop, act, loop_busy, dispatch, close_lock, close_send, on_async, continue_round,
    on_closed, async_send, is_open, round_closes in *. cbn in *.
  destruct a as [[] t|[]| | | |]; repeat (case_match; simplify_eq/=); try exact I;
    try (destruct cl; cbn in *; try (specialize (inv_closing0 eq_refl))); intuition (eauto || congruence).
Qed.

(** ** Turns of the loop *)

(** A schedule. *)
Fixpoint acts (l : list action) (s : state_t) : option (outcome unit * state_t) :=
  match l with
  | [] => Some (Ok tt, s)
  | a :: l => match act a s with Some (Ok _, s') => acts l s' | r => r end
  end.

Lemma acts_app l k s s' : acts l s = Some (Ok tt, s') -> acts (l ++ k) s = acts k s'.
Proof.
  revert s. induction l as [|a l IH]; simpl; intros s Hl; [by simplify_eq|].
  destruct (act a s) as [[[] s1]|]; try done. by apply IH.
Qed.

Lemma uv_acts_steps (allowed : action -> Prop) l s s' :
  Forall allowed l -> acts l s = Some (Ok tt, s') -> rtc (step allowed) s s'.
Proof.
  revert s. induction l as [|a l IH]; simpl; intros s Hall Hl; [by simplify_eq; apply rtc_refl|].
  inversion Hall; subst. destruct (act a s) as [[[[]| | |] s1]|] eqn:Ha; try done.
  eapply rtc_l; [by econstructor|]. by apply IH.
Qed.

(** The call of [on_async] that was asked for, with its whole round. *)
Definition turn (s : state_t) : list action :=
  if sent s then OnAsync :: replicate (S (length (take max_tasks_per_round (tasks s)))) Continue else [].

(** The rest of a round, when its tasks dispatch nothing. *)
Lemma round_runs r s :
  in_round s = Some r -> closer s = None ->
  acts (replicate (length (todo r)) Continue) s =
  Some (Ok tt, mk_state (tasks s) (closing s) (handle s) (state_ s) (sent s)
                 (Some (mk_round [] (rearm r) (close_ r))) None (queued s)
                 (ran s ++ map (fun t => (t, false)) (todo r))).
Proof.
  destruct r as [todo_ re cl]. cbn [todo rearm close_].
  revert s. induction todo_ as [|t l IH]; intros s Hr Hc; simpl.
  - rewrite app_nil_r. destruct s; simpl in *. by subst.
  - unfold loop_busy. rewrite Hr, Hc. simpl. rewrite IH by done. simpl. by rewrite <- app_assoc.
Qed.

(** A turn of an idle loop runs the first sixteen tasks; it asks for another turn when
    tasks are left, and closes the handle when the executor is closing and none are. *)
Lemma turn_runs s :
  sent s = true -> in_round s = None -> closer s = None -> handle s = HandleOpen ->
  exists s', acts (turn s) s = Some (Ok tt, s') /\
    tasks s' = drop max_tasks_per_round (tasks s) /\
    ran s' = ran s ++ map (fun t => (t, false)) (take max_tasks_per_round (tasks s)) /\
    closing s' = closing s /\ in_round s' = None /\ closer s' = None /\
    (tasks s' ≠ [] -> sent s' = true /\ handle s' = HandleOpen) /\
    (tasks s' = [] -> sent s' = false /\ handle s' = if closing s then HandleClosing else HandleOpen).
Proof.
  intros Hs Hr Hc Ho. unfold turn. rewrite Hs, replicate_S_end.
  cbn [acts app act]. unfold loop_busy. rewrite Ho, Hr, Hc.
  cbn [on_async]. set (s1 := mk_state _ _ _ _ _ _ _ _ _).
  rewrite (acts_app _ _ _ _ (round_runs (mk_round (take max_tasks_per_round (tasks s)) _ _) s1 eq_refl Hc)).
  cbn [todo rearm close_ replicate acts act in_round loop_busy closer continue_round].
  subst s1. cbn [tasks closing handle state_ sent in_round closer queued ran].
  destruct (drop max_tasks_per_round (tasks s)) as [|t l] eqn:Hd; [destruct (closing s) eqn:Hcl|];
    unfold async_send; cbn; rewrite ?Ho, ?Hcl; eexists; (split; [done|]); cbn; split_and!; intros; done.
Qed.

Fixpoint turns (n : nat) (s : state_t) : list action :=
  match n with
  | O => []
  | S n => match acts (turn s) s with Some (Ok _, s') => turn s ++ turns n s' | _ => [] end
  end.

Lemma turn_allowed s : Forall closed_on_loop (turn s).
Proof. unfold turn. destruct (sent s); constructor; [done|]. by apply Forall_replicate. Qed.
Lemma turns_allowed n s : Forall closed_on_loop (turns n s).
Proof.
  revert s. induction n as [|n IH]; intros s; simpl; [done|].
  destruct (acts (turn s) s) as [[[] s1]|]; auto using Forall_app_2, turn_allowed.
Qed.

Lemma turns_idle n s : sent s = false -> acts (turns n s) s = Some (Ok tt, s).
Proof.
  intros Hs. induction n as [|n IH]; [done|]. simpl. unfold turn at 1 2. rewrite Hs. simpl. done.
Qed.

Lemma turns_drain n s :
  sent s = true -> in_round s = None -> closer s = None -> handle s = HandleOpen -> tasks s ≠ [] ->
  (length (tasks s) <= n * max_tasks_per_round)%nat ->
  exists s', acts (turns n s) s = Some (Ok tt, s') /\ tasks s' = [] /\
    ran s' = ran s ++ map (fun t => (t, false)) (tasks s) /\
    handle s' = if closing s then HandleClosing else HandleOpen.
Proof.
  revert s. induction n as [|n IH]; intros s Hs Hr Hc Ho Hne Hlen.
  { destruct (tasks s); simpl in *; [done|lia]. }
  destruct (turn_runs s Hs Hr Hc Ho) as (s1 & Ha & Ht1 & Hran & Hcl1 & Hr1 & Hc1 & Hmore & Hdone).
  simpl. rewrite Ha, (acts_app _ _ _ _ Ha).
  destruct (decide (tasks s1 = [])) as [He|He].
  - destruct (Hdone He) as [Hs1 Hh1]. exists s1. rewrite turns_idle by done. split_and!; try done.
    rewrite Hran. do 2 f_equal. apply take_ge.
    rewrite He in Ht1. symmetry in Ht1. apply drop_nil_inv in Ht1. done.
  - destruct (Hmore He) as [Hs1 Hh1].
    destruct (IH s1 Hs1 Hr1 Hc1 Hh1 He) as (s' & Ha' & Ht' & Hran' & Hh').
    { rewrite Ht1, length_drop. simpl in Hlen. unfold max_tasks_per_round in *. lia. }
    exists s'. split_and!; try done; [|by rewrite <- Hcl1].
    rewrite Hran', Hran, Ht1, <- app_assoc, <- map_app, take_drop. done.
Qed.

(** C33: the queue empties: an idle loop with queued tasks has been asked for a turn, and
    as many turns as the queue has rounds, each of them asked for by the one before, run
    the tasks in the order of the queue and, if the executor is closing, close the
    handle. *)
Theorem executor_drains allowed s n :
  reachable allowed s -> in_round s = None -> closer s = None ->
  tasks s ≠ [] -> (length (tasks s) <= n * max_tasks_per_round)%nat ->
  exists s', acts (turns n s) s = Some (Ok tt, s') /\ rtc (step closed_on_loop) s s' /\
    tasks s' = [] /\ ran s' = ran s ++ map (fun t => (t, false)) (tasks s) /\
    is_open s' = negb (closing s).
Proof.
  intros Hreach%uv_reachable_invariant Hr Hc Hne Hlen. destruct Hreach.
  destruct (inv_wake0 Hne) as [Hopen Hwake]. unfold rearming in Hwake. rewrite Hr, orb_false_r in Hwake.
  unfold is_open in Hopen. destruct (handle s) eqn:Hh; try done.
  destruct (turns_drain n s Hwake Hr Hc Hh Hne Hlen) as (s' & Ha & Ht & Hran & Hh').
  exists s'. split_and!; try done.
  - eapply uv_acts_steps; [apply turns_allowed|done].
  - unfold is_open. rewrite Hh'. by destruct (closing s).
Qed.

(** [close] on another thread can touch the state after it is deleted: it sets the
    flag under the lock and sends after it, and a round that was asked for by an earlier
    dispatch sees the flag, closes the handle and lets libuv delete the state between
    the two. *)
Theorem off_loop_close_uses_deleted_state (t : T) :
  exists s, reachable anything s /\ exists s', act CloseSend s = Some (Undefined, s').
Proof.
  set (l := [Dispatch false t; CloseLock false; OnAsync; Continue; Continue; OnClosed]).
  assert (acts l new_executor ≠ None) as Hl by done.
  destruct (acts l new_executor) as [[[[]| | |] s]|] eqn:Ha; try done.
  exists s. split.
  - eapply uv_acts_steps; [|done]. repeat constructor.
  - vm_compute in Ha. simplify_eq. by eexists.
Qed.
End Executor.

#[global] Arguments state_t : clear implicits.
#[global] Arguments action : clear implicits.
End uv_executor.

(** ** Schedules *)

Module Sample.
Import uv_executor.

(** Twenty tasks from another thread; the loop dispatches one more in its first round
    and closes the executor before the second. *)
Definition busy : list (action nat) :=
  map (Dispatch false) (seq 0 20) ++ [OnAsync; Continue; Dispatch true 20%nat; CloseLock true; CloseSend].
Definition after (l : list (action nat)) : state_t nat :=
  match acts l new_executor with Some (_, s) => s | None => new_executor end.
Definition round_done : list (action nat) := busy ++ replicate 16 Continue.

Lemma uv_after_reachable (allowed : action nat -> Prop) l s :
  Forall allowed l -> acts l new_executor = Some (Ok tt, s) -> reachable allowed (after l).
Proof. intros Hall Ha. unfold after. rewrite Ha. by eapply uv_acts_steps. Qed.

Lemma round_done_reachable : reachable closed_on_loop (after round_done).
Proof.
  eapply uv_after_reachable; [|vm_compute; reflexivity].
  unfold round_done, busy. rewrite !Forall_app. split_and!.
  - apply Forall_forall. intros a [i [-> _]]%list_elem_of_fmap. done.
  - repeat constructor; done.
  - by apply Forall_replicate.
Qed.
End Sample.

Lemma executor_fifo_witness :
  uv_executor.queued (Sample.after Sample.round_done) =
    uv_executor.ran_queued (Sample.after Sample.round_done) ++ uv_executor.round_tasks (Sample.after Sample.round_done)
    ++ uv_executor.tasks (Sample.after Sample.round_done).
Proof. apply (uv_executor.executor_fifo _ _ Sample.round_done_reachable). Defined.

Lemma executor_wakes_witness :
  uv_executor.sent (Sample.after Sample.round_done) || uv_executor.rearming (Sample.after Sample.round_done) = true.
Proof.
  destruct (uv_executor.executor_wakes _ _ Sample.round_done_reachable) as [Hwake _].
  apply Hwake. vm_compute. discriminate.
Defined.

Lemma executor_safe_witness :
  (exists on_loop t, uv_executor.Dispatch false 7%nat = uv_executor.Dispatch on_loop t) /\
  uv_executor.closing (Sample.after Sample.round_done) = true.
Proof.
  apply (uv_executor.executor_safe _ (uv_executor.Dispatch false 7%nat) Sample.round_done_reachable).
  intros ?. discriminate.
Defined.

Lemma executor_drains_witness :
  exists s' : uv_executor.state_t nat, uv_executor.tasks s' = [] /\ uv_executor.is_open s' = false.
Proof.
  assert (uv_executor.tasks (Sample.after Sample.round_done) ≠ []) as Hne by (vm_compute; discriminate).
  assert (length (uv_executor.tasks (Sample.after Sample.round_done)) <= 1 * uv_executor.max_tasks_per_round)%nat
    as Hlen by (vm_compute; lia).
  assert (uv_executor.in_round (Sample.after Sample.round_done) = None) as Hr by (vm_compute; reflexivity).
  assert (uv_executor.closer (Sample.after Sample.round_done) = None) as Hc by (vm_compute; reflexivity).
  destruct (uv_executor.executor_drains _ _ 1 Sample.round_done_reachable Hr Hc Hne Hlen)
    as (s' & _ & _ & Ht & _ & Ho).
  exists s'. split; [exact Ht|]. rewrite Ho. vm_compute. reflexivity.
Defined.
