(* ===== verification/PyExecutor.v ===== *)
(** * extensions/flux_foundry/python_interpreter_executor.h: a worker thread of the interpreter

    Any thread dispatches; one worker takes the queue in batches and runs each batch with
    the GIL held. The interpreter stays initialized (the executor is destroyed before
    [Py_Finalize]); of the interpreter only the GIL is modelled: at most one thread holds
    it, and [PyGILState_Ensure] and [PyEval_RestoreThread] wait until it is free. The
    condition variable is a flag of the worker: it sleeps when it finds nothing to do
    under the lock, and a notification wakes it. *)

From Stdlib Require Import ZArith Lia.
From stdpp Require Import base list.
From S2P Require Import Prelude.

Module python_interpreter_executor.
Section Executor.
(** Tasks. *)
Context {T : Type}.

(** Threads that hold the GIL: the worker, the thread that shuts the executor down, any
    other. *)
Inductive thread := Worker | Stopper | Other.

(** Where the worker is in [run]: before it recorded its id, in front of the critical
    section of the loop, asleep in the wait, with a batch that waits for the GIL, with the
    rest of a batch to run and the whole batch to destroy, past the loop. *)
Inductive worker_phase :=
| Starting | Checking | Asleep
| Batch (batch : list T) | Running (todo batch : list T)
| Exited.

(** Where the first call of [shutdown] is: not made, past its critical section, past its
    notification, joining with the GIL released or not, before [PyEval_RestoreThread],
    returned. *)
Inductive stopper_phase := NotCalled | Locked | Notified | Joining (released : bool) | Restoring | Returned.

(** The members of the executor and the phases of the threads. [notifies] counts the
    dispatches between their unlock and their [notify_one]. [queued], [ran] and [cleared]
    record the tasks that were queued, that ran (with the thread that held the GIL) and
    whose captures were destroyed (likewise). *)
Record executor := mk_executor {
  tasks_ : list T;
  worker_id_ : bool;
  stopping_ : bool;
  worker : worker_phase;
  stopper : stopper_phase;
  notifies : nat;
  gil : option thread;
  queued : list T;
  ran : list (T * bool * option thread);
  cleared : list (T * option thread)
}.

Definition new_executor : executor :=
  mk_executor [] false false Starting NotCalled 0 None [] [] [].

Definition set_worker w s :=
  mk_executor (tasks_ s) (worker_id_ s) (stopping_ s) w (stopper s) (notifies s) (gil s) (queued s) (ran s) (cleared s).
Definition set_stopper p s :=
  mk_executor (tasks_ s) (worker_id_ s) (stopping_ s) (worker s) p (notifies s) (gil s) (queued s) (ran s) (cleared s).
Definition set_gil g s :=
  mk_executor (tasks_ s) (worker_id_ s) (stopping_ s) (worker s) (stopper s) (notifies s) g (queued s) (ran s) (cleared s).

(** [ready_.notify_one]: the worker is the only one that waits. *)
Definition notify_one (s : executor) : executor :=
  match worker s with Asleep => set_worker Checking s | _ => s end.

(** [dispatch] of a task that is not empty, to its unlock; an inline task runs at once. *)
Definition dispatch (on_worker : bool) (task : T) : eff executor unit := fun s =>
  if stopping_ s then (Aborted, s)
  else if on_worker && worker_id_ s then
    (Ok tt, mk_executor (tasks_ s) (worker_id_ s) (stopping_ s) (worker s) (stopper s) (notifies s) (gil s)
              (queued s) (ran s ++ [(task, true, gil s)]) (cleared s))
  else
    (Ok tt, mk_executor (tasks_ s ++ [task]) (worker_id_ s) (stopping_ s) (worker s) (stopper s)
              (S (notifies s)) (gil s) (queued s ++ [task]) (ran s) (cleared s)).

(** The notification of a dispatch. *)
Definition dispatch_notify (s : executor) : executor :=
  notify_one (mk_executor (tasks_ s) (worker_id_ s) (stopping_ s) (worker s) (stopper s) (pred (notifies s))
                (gil s) (queued s) (ran s) (cleared s)).

(** [shutdown], to its unlock. A worker that gets past it aborts: it cannot join itself. *)
Definition shutdown_lock (on_worker : bool) : eff executor unit := fun s =>
  if stopping_ s then (Ok tt, s)
  else
    let s' := mk_executor (tasks_ s) (worker_id_ s) true (worker s) Locked (notifies s) (gil s) (queued s)
                (ran s) (cleared s) in
    if on_worker then (Aborted, s') else (Ok tt, s').

(** The next statement of [shutdown]; [None] when it has to wait. *)
Definition shutdown_next (s : executor) : option executor :=
  match stopper s with
  | NotCalled | Returned => None
  | Locked => Some (set_stopper Notified (notify_one s))
  | Notified =>
      match gil s with
      | Some Stopper => Some (set_stopper (Joining true) (set_gil None s))
      | _ => Some (set_stopper (Joining false) s)
      end
  | Joining released =>
      match worker s with
      | Exited => Some (set_stopper (if released then Restoring else Returned) s)
      | _ => None
      end
  | Restoring =>
      match gil s with
      | None => Some (set_stopper Returned (set_gil (Some Stopper) s))
      | _ => None
      end
  end.

(** The next statement of [run]; [None] when it has to wait. *)
Definition worker_next (s : executor) : option executor :=
  match worker s with
  | Starting =>
      Some (mk_executor (tasks_ s) true (stopping_ s) Checking (stopper s) (notifies s) (gil s) (queued s)
              (ran s) (cleared s))
  | Checking =>
      if stopping_ s || (match tasks_ s with [] => false | _ => true end) then
        let s' w := mk_executor [] (worker_id_ s) (stopping_ s) w (stopper s) (notifies s) (gil s)
                      (queued s) (ran s) (cleared s) in
        match tasks_ s with
        | [] => Some (s' Exited)
        | batch => Some (s' (Batch batch))
        end
      else Some (set_worker Asleep s)
  | Asleep => None
  | Batch batch =>
      match gil s with
      | None => Some (set_worker (Running batch batch) (set_gil (Some Worker) s))
      | _ => None
      end
  | Running (task :: todo) batch =>
      Some (mk_executor (tasks_ s) (worker_id_ s) (stopping_ s) (Running todo batch) (stopper s) (notifies s)
              (gil s) (queued s) (ran s ++ [(task, false, gil s)]) (cleared s))
  | Running [] batch =>
      Some (mk_executor (tasks_ s) (worker_id_ s) (stopping_ s) Checking (stopper s) (notifies s) None
              (queued s) (ran s) (cleared s ++ map (fun t => (t, gil s)) batch))
  | Exited => None
  end.

Inductive action :=
| Dispatch (on_worker : bool) (task : T)
| DispatchNotify
| ShutdownLock (on_worker : bool)
| ShutdownNext
| WorkerNext
| Acquire (t : thread)
| Release (t : thread).

Definition lift (o : option executor) : option (outcome unit * executor) := option_map (fun s => (Ok tt, s)) o.

(** [None] when the action cannot happen: it waits, or its thread is elsewhere. The
    worker calls the executor from a task; a thread that shuts the executor down does
    nothing else until it returns, and may hold the GIL before. *)
Definition act (a : action) (s : executor) : option (outcome unit * executor) :=
  match a with
  | Dispatch true task => match worker s with Running _ _ => Some (dispatch true task s) | _ => None end
  | Dispatch false task => Some (dispatch false task s)
  | DispatchNotify => match notifies s with O => None | _ => Some (Ok tt, dispatch_notify s) end
  | ShutdownLock true => match worker s with Running _ _ => Some (shutdown_lock true s) | _ => None end
  | ShutdownLock false => Some (shutdown_lock false s)
  | ShutdownNext => lift (shutdown_next s)
  | WorkerNext => lift (worker_next s)
  | Acquire t =>
      match t, stopper s, gil s with
      | Other, _, None | Stopper, NotCalled, None => Some (Ok tt, set_gil (Some t) s)
      | _, _, _ => None
      end
  | Release t =>
      match t, gil s with
      | Other, Some Other => Some (Ok tt, set_gil None s)
      | _, _ => None
      end
  end.

Inductive step : executor -> executor -> Prop :=
| do_act a s s' : act a s = Some (Ok tt, s') -> step s s'.
Definition reachable (s : executor) : Prop := rtc step new_executor s.

(** The tasks that ran from the queue, those the worker still has, and those it will destroy. *)
Definition ran_queued (s : executor) : list T :=
  omap (fun '(t, inline, _) => if inline : bool then None else Some t) (ran s).
Definition worker_todo (s : executor) : list T :=
  match worker s with Batch b => b | Running todo _ => todo | _ => [] end.
Definition worker_batch (s : executor) : list T :=
  match worker s with Batch b | Running _ b => b | _ => [] end.
Definition is_running (s : executor) : bool := match worker s with Running _ _ => true | _ => false end.
Definition has_work (s : executor) : bool :=
  stopping_ s || match tasks_ s with [] => false | _ => true end.

Record invariant (s : executor) : Prop := {
  inv_order : queued s = ran_queued s ++ worker_todo s ++ tasks_ s;
  inv_cleared : ran_queued s ++ worker_todo s = map fst (cleared s) ++ worker_batch s;
  inv_ran : Forall (fun '(_, _, g) => g = Some Worker) (ran s);
  inv_clear : Forall (fun '(_, g) => g = Some Worker) (cleared s);
  inv_gil : gil s = Some Worker <-> is_running s = true;
  inv_asleep : worker s = Asleep -> has_work s = true ->
               (1 <= notifies s)%nat \/ stopper s = Locked;
  inv_exited : worker s = Exited -> stopping_ s = true /\ tasks_ s = [];
  inv_id : worker_id_ s = match worker s with Starting => false | _ => true end;
  inv_stopping : stopping_ s = match stopper s with NotCalled => false | _ => true end;
  inv_stopper : (stopper s = Restoring \/ stopper s = Returned -> worker s = Exited);
  inv_joining : stopper s = Joining true \/ stopper s = Joining false \/ stopper s = Restoring ->
                gil s ≠ Some Stopper
}.

Lemma py_new_invariant : invariant new_executor.
Proof. split; try done. all: cbn; intuition congruence. Qed.

Lemma py_act_invariant a s s' : invariant s -> act a s = Some (Ok tt, s') -> invariant s'.
Proof.
  intros [] Hact. destruct s as [ts id stp w st n g q rn clr].
  unfold act, lift, dispatch, dispatch_notify, shutdown_lock, shutdown_next, notify_one, worker_next, set_worker,
    set_stopper, set_gil, ran_queued, worker_todo, worker_batch, is_running, has_work in *. cbn in *.
  destruct a as [[] t| |[]| | |[]|[]]; repeat (destruct_match_in Hact; cbn in Hact; try discriminate Hact).
  all: simplify_eq/=.
  all: try (assert (g = Some Worker) as -> by (by apply inv_gil0)).
  all: split; unfold ran_queued, worker_todo, worker_batch, is_running, has_work; cbn; intros; try assumption;
    rewrite ?omap_app, ?map_app, ?map_map, ?app_nil_r, ?Forall_app in *; cbn;
    rewrite <- ?app_assoc, ?app_nil_r in *; try done;
    try (intuition (congruence || lia)).
  all: try (split; [done|]; first [by repeat constructor | apply Forall_map, Forall_true; done]).
  - by destruct st.
  - by rewrite map_id.
Qed.

Lemma py_reachable_invariant s : reachable s -> invariant s.
Proof.
  intros Hr. refine (rtc_preserves _ _ _ _ _ py_new_invariant Hr).
  intros s1 s2 Hinv Hs. destruct Hs as [a s1 s2 Ha]. by eapply py_act_invariant.
Qed.

(** The queue is first in, first out, and no task is lost or run twice; a task's
    captures are destroyed after its batch has run; when the worker has left its loop
    every task that was queued has run and its captures are destroyed, and no task can be
    queued any more. *)
Theorem python_executor_fifo s :
  reachable s ->
  queued s = ran_queued s ++ worker_todo s ++ tasks_ s /\
  ran_queued s ++ worker_todo s = map fst (cleared s) ++ worker_batch s /\
  (worker s = Exited ->
   ran_queued s = queued s /\ map fst (cleared s) = queued s /\
   forall b t, (dispatch b t s).1 = Aborted).
Proof.
  intros Hr%py_reachable_invariant. destruct Hr. split_and!; try done.
  intros He. destruct (inv_exited0 He) as [Hs Ht]. unfold worker_todo, worker_batch in *.
  rewrite He, Ht in *. rewrite !app_nil_r in *. split_and!; try congruence.
  intros b t. unfold dispatch. by rewrite Hs.
Qed.

(** Every task, queued or inline, runs on the worker with the GIL held, and the
    captures of a queued task are destroyed with the GIL held. *)
Theorem python_executor_gil s :
  reachable s ->
  Forall (fun '(_, _, g) => g = Some Worker) (ran s) /\ Forall (fun '(_, g) => g = Some Worker) (cleared s).
Proof. intros Hr%py_reachable_invariant. by destruct Hr. Qed.

(** ** Shutting down *)

(** The statements that do not come from outside: threads that hold the GIL give it back. *)
Definition internal (a : action) : bool :=
  match a with DispatchNotify | ShutdownNext | WorkerNext | Release _ => true | _ => false end.

Definition phase_weight (w : worker_phase) : nat :=
  match w with
  | Exited => 0
  | Checking => 1
  | Asleep | Starting => 2
  | Running todo _ => 2 + length todo
  | Batch batch => 3 + length batch
  end.
Definition stopper_weight (p : stopper_phase) : nat :=
  match p with NotCalled | Returned => 0 | Restoring => 1 | Joining _ => 2 | Notified => 3 | Locked => 4 end.
Definition weight (s : executor) : nat :=
  phase_weight (worker s) + stopper_weight (stopper s) + notifies s
  + (match tasks_ s with [] => 0 | ts => 4 + length ts end)
  + (match gil s with Some Other => 1 | _ => 0 end).

Lemma internal_decreases a s s' :
  invariant s -> stopping_ s = true -> internal a = true -> act a s = Some (Ok tt, s') ->
  (weight s' < weight s)%nat /\ stopping_ s' = true /\ queued s' = queued s.
Proof.
  intros [] Hstop Hint Hact. destruct s as [ts id stp w st n g q rn clr]. cbn in *. subst stp.
  unfold act, lift, dispatch_notify, shutdown_next, notify_one, worker_next, set_worker, set_stopper, set_gil,
    weight in *. cbn in *.
  destruct a as [| | | | | |[]]; try done; repeat (destruct_match_in Hact; cbn in Hact; try discriminate Hact);
    simplify_eq/=; repeat split; try done; cbn; try lia.
Qed.
(** An executor that is stopping is done, or some thread can go on. *)
Lemma stopping_progress s :
  invariant s -> stopping_ s = true ->
  (worker s = Exited /\ stopper s = Returned) \/
  exists a s', internal a = true /\ act a s = Some (Ok tt, s').
Proof.
  intros [] Hstop. destruct s as [ts id stp w st n g q rn clr]. unfold is_running, has_work in *. cbn in *. subst stp.
  assert (forall a s', internal a = true -> act a (mk_executor ts id true w st n g q rn clr) = Some (Ok tt, s') ->
    (w = Exited /\ st = Returned) \/ exists a s', internal a = true /\ act a (mk_executor ts id true w st n g q rn clr) = Some (Ok tt, s')) as Hgo by eauto.
  unfold act, lift, shutdown_next, worker_next in Hgo. cbn in Hgo.
  destruct st as [| | |[]| |]; try done; destruct w as [| | |b|[|t l] b|], g as [[]|]; cbn in *;
    try (by left); try (exfalso; intuition (congruence || lia));
    try (by eapply (Hgo WorkerNext)); try (by eapply (Hgo ShutdownNext)); try (by eapply (Hgo (Release Other))).
  all: try (destruct ts; by eapply (Hgo WorkerNext)).
  all: (destruct n; [exfalso|by eapply (Hgo DispatchNotify)]).
  all: destruct (inv_asleep0 eq_refl eq_refl) as [Hn|Hn]; [inversion Hn|discriminate Hn].
Qed.

(** C32: shutting down ends: every statement of the threads reduces the work left, so a
    schedule without new calls is finite; no state is stuck before the worker has left
    its loop and [shutdown] has returned; and some schedule gets there, where every task
    that was queued has run. In particular the thread that shuts down never waits for the
    worker while it holds the GIL. *)
Theorem python_executor_shutdown s :
  reachable s -> stopping_ s = true ->
  (forall a s', internal a = true -> act a s = Some (Ok tt, s') -> (weight s' < weight s)%nat) /\
  (worker s = Exited /\ stopper s = Returned \/ exists a s', internal a = true /\ act a s = Some (Ok tt, s')) /\
  exists s', rtc step s s' /\ worker s' = Exited /\ stopper s' = Returned /\
    queued s' = queued s /\ ran_queued s' = queued s /\ map fst (cleared s') = queued s.
Proof.
  intros Hr%py_reachable_invariant Hstop. split_and!.
  { intros a s' Hint Ha. by destruct (internal_decreases _ _ _ Hr Hstop Hint Ha). }
  { by apply stopping_progress. }
  remember (weight s) as n eqn:Hn. revert s Hn Hr Hstop.
  induction n as [n IH] using lt_wf_ind; intros s -> Hr Hstop.
  destruct (stopping_progress s Hr Hstop) as [[Hw Hst]|(a & s1 & Hint & Ha)].
  - exists s. destruct Hr. destruct (inv_exited0 Hw) as [_ Ht].
    unfold worker_todo, worker_batch in *. rewrite Hw, Ht in *. rewrite !app_nil_r in *.
    split_and!; try done; try congruence.
  - destruct (internal_decreases _ _ _ Hr Hstop Hint Ha) as (Hlt & Hstop1 & Hq).
    destruct (IH _ Hlt s1 eq_refl (py_act_invariant _ _ _ Hr Ha) Hstop1) as (s' & Hs & Hrest).
    exists s'. rewrite Hq in Hrest. split; [eapply rtc_l; [by econstructor|done]|done].
Qed.

(** No wakeup is lost: a worker that sleeps while there is something to do is about
    to be notified, by a dispatch or by [shutdown]. *)
Theorem python_executor_wakes s :
  reachable s -> worker s = Asleep -> has_work s = true -> (1 <= notifies s)%nat \/ stopper s = Locked.
Proof. intros Hr%py_reachable_invariant. by destruct Hr. Qed.

(** Runs a schedule. *)
Fixpoint acts (l : list action) (s : executor) : option executor :=
  match l with
  | [] => Some s
  | a :: l => match act a s with Some (Ok _, s') => acts l s' | _ => None end
  end.

Lemma py_acts_steps l s s' : acts l s = Some s' -> rtc step s s'.
Proof.
  revert s. induction l as [|a l IH]; simpl; intros s Ha; [by simplify_eq; apply rtc_refl|].
  destruct (act a s) as [[[[]| | |] s1]|] eqn:Hact; try done. eapply rtc_l; [by econstructor|by apply IH].
Qed.
End Executor.

#[global] Arguments executor : clear implicits.
#[global] Arguments action : clear implicits.
End python_interpreter_executor.

(** ** A schedule *)

Module Sample.
Import python_interpreter_executor.

(** The worker falls asleep; a thread that holds the GIL dispatches twice and shuts the
    executor down while the worker waits for the GIL. *)
Definition asleep : list (action nat) := [WorkerNext; WorkerNext; Dispatch false 1%nat].
Definition stopping : list (action nat) :=
  asleep ++ [DispatchNotify; Acquire Stopper; WorkerNext; Dispatch false 2%nat; ShutdownLock false].
Definition after (l : list (action nat)) : executor nat := default new_executor (acts l new_executor).

Lemma py_after_reachable l : acts l new_executor ≠ None -> reachable (after l).
Proof.
  unfold after. destruct (acts l new_executor) as [s|] eqn:Hl; [|done]. intros _. by eapply py_acts_steps.
Qed.
Lemma asleep_reachable : reachable (after asleep).
Proof. apply py_after_reachable. vm_compute. discriminate. Qed.
Lemma stopping_reachable : reachable (after stopping).
Proof. apply py_after_reachable. vm_compute. discriminate. Qed.
End Sample.

Lemma python_executor_fifo_witness :
  python_interpreter_executor.queued (Sample.after Sample.stopping) = [1; 2]%nat /\
  python_interpreter_executor.queued (Sample.after Sample.stopping) =
    python_interpreter_executor.ran_queued (Sample.after Sample.stopping)
    ++ python_interpreter_executor.worker_todo (Sample.after Sample.stopping)
    ++ python_interpreter_executor.tasks_ (Sample.after Sample.stopping).
Proof.
  split; [vm_compute; reflexivity|].
  apply (python_interpreter_executor.python_executor_fifo _ Sample.stopping_reachable).
Defined.

Lemma python_executor_gil_witness :
  Forall (fun '(_, _, g) => g = Some python_interpreter_executor.Worker)
    (python_interpreter_executor.ran (Sample.after Sample.stopping)).
Proof. apply (python_interpreter_executor.python_executor_gil _ Sample.stopping_reachable). Defined.

Lemma python_executor_shutdown_witness :
  exists s' : python_interpreter_executor.executor nat,
    python_interpreter_executor.worker s' = python_interpreter_executor.Exited /\
    python_interpreter_executor.ran_queued s' = [1; 2]%nat.
Proof.
  assert (python_interpreter_executor.stopping_ (Sample.after Sample.stopping) = true) as Hs by (vm_compute; reflexivity).
  destruct (python_interpreter_executor.python_executor_shutdown _ Sample.stopping_reachable Hs)
    as (_ & _ & s' & _ & Hw & _ & _ & Hran & _).
  exists s'. split; [exact Hw|]. rewrite Hran. vm_compute. reflexivity.
Defined.

Lemma python_executor_wakes_witness :
  (1 <= python_interpreter_executor.notifies (Sample.after Sample.asleep))%nat \/
  python_interpreter_executor.stopper (Sample.after Sample.asleep) = python_interpreter_executor.Locked.
Proof.
  apply (python_interpreter_executor.python_executor_wakes _ Sample.asleep_reachable); vm_compute; reflexivity.
Defined.
