(* ===== verification/NapiBackend.v ===== *)
(** * backends/napi.h: ownership of native objects behind Node-API values

    Node-API is not modelled: the record [host] holds the functions the backend calls, each
    a function of what was called before (the trace), and [HostLaws] states what the
    Node-API documentation says of them and the backend relies on. The C++ side is an
    explicit heap: the native objects, the class states and callback holders, and the
    handoff records a constructor call may find behind an external. *)

From Stdlib Require Import ZArith Lia.
From stdpp Require Import base list gmap.
From S2P Require Import Prelude.

(** [napi_value], pointers of either heap, [napi_ref], and [type_key] of a receiver. *)
Abbreviation value := nat (only parsing).
Abbreviation pointer := nat (only parsing).
Abbreviation ref := nat (only parsing).
Abbreviation class := nat (only parsing).

(** What the backend did to the environment. *)
Inductive event :=
| DidReference (r : ref) (v : value)
| DidDeleteReference (r : ref)
| DidTypeTag (v : value) (c : class)
| DidWrap (v : value) (p : pointer)
| DidCreateExternal (v : value) (p : pointer)
| DidCreateFunction (v : value) (p : pointer)
| DidDefineClass (v : value) (p : pointer)
| DidAddFinalizer (v : value) (p : pointer)
| DidDefine (target : value) (name : string) (v : value)
| DidNewInstance (constructor : value) (self : value)
| DidThrowError (message : text).

Abbreviation trace := (list event) (only parsing).

(** The functions of Node-API; [None] and [false] are statuses other than [napi_ok].
    [new_instance] gives the object a constructor is called on. *)
Record host := mk_host {
  napi_create_reference : trace -> value -> option ref;
  napi_get_reference_value : trace -> ref -> option value;
  napi_type_tag_object : trace -> value -> class -> bool;
  napi_check_object_type_tag : trace -> value -> class -> option bool;
  napi_wrap : trace -> value -> pointer -> bool;
  napi_unwrap : trace -> value -> option pointer;
  napi_create_external : trace -> pointer -> option value;
  napi_get_value_external : trace -> value -> option pointer;
  napi_create_function : trace -> pointer -> option value;
  napi_define_class : trace -> pointer -> option value;
  napi_add_finalizer : trace -> value -> pointer -> bool;
  napi_get_named_property : trace -> value -> string -> option value;
  napi_set_named_property : trace -> value -> string -> value -> bool;
  napi_create_object : trace -> value;
  napi_get_undefined : trace -> value;
  napi_new_instance : trace -> value -> option value
}.

(** An object is tagged once and wrapped once, whoever wraps it; the tag that is checked is
    the one that was given, and what is no object has none; an object that this library has
    wrapped holds the pointer it was wrapped with. Nothing is said of objects that others
    wrap. *)
Class HostLaws (h : host) : Prop := {
  tag_once t v c c' : DidTypeTag v c ∈ t -> napi_type_tag_object h t v c' = false;
  wrap_once t v p q : DidWrap v p ∈ t -> napi_wrap h t v q = false;
  check_tag t v c : napi_check_object_type_tag h t v c = Some true -> DidTypeTag v c ∈ t;
  undefined_untagged t t' c : napi_check_object_type_tag h t (napi_get_undefined h t') c ≠ Some true;
  unwrap_wrapped t v p q : DidWrap v p ∈ t -> napi_unwrap h t v = Some q -> DidWrap v q ∈ t
}.

(** What lives at an address of the C++ side: [handoffs] is the memory that can be read as a
    handoff record, also memory that others gave to their externals. *)
Record handoff := mk_handoff { magic : bool; receiver : option pointer }.
Inductive holder := ClassState (c : class) (constructor_arity : option nat) | CallbackHolder (binder : nat).

Record env_state := mk_env {
  events : trace;
  natives : gmap pointer class;
  holders : gmap pointer holder;
  handoffs : gmap pointer handoff;
  next : pointer
}.

(** ** Callbacks *)

(** What [napi_get_cb_info] tells a callback. *)
Record cb_info := mk_info { info_ok : bool; this : option value; argv : list value; data : option pointer }.

Section Callbacks.
Context {S : Type} (napi_throw_error : text -> eff S unit).

(** [catch (const std::exception&)], with the error handed to JavaScript. *)
Definition catch_std {A} (m : eff S (option A)) : eff S (option A) := fun s =>
  match m s with
  | (Throw e, s') =>
      match what e with
      | Some message => (napi_throw_error message ;; mret None) s'
      | None => (Throw e, s')
      end
  | r => r
  end.
(** [catch (...)] behind it. *)
Definition catch_all {A} (fallback : string) (m : eff S (option A)) : eff S (option A) := fun s =>
  match catch_std m s with
  | (Throw _, s') => (napi_throw_error (lit fallback) ;; mret None) s'
  | r => r
  end.

(** [callback_dispatch::call], [member_callback_dispatch::call] and the overload callback:
    an exact or a least arity, the binder of the holder, and the mapping of what it throws.
    [binder] is the call of the binder; an overload gives [Ok None] without a match. *)
Definition callback (expected : option nat) (binder : list value -> eff S (option value)) (info : cb_info)
  : eff S (option value) :=
  match expected with
  | Some n =>
      if info_ok info && (length (argv info) =? n)%nat && bool_decide (data info ≠ None) then
        catch_all "dynabridge N-API callback failed" (binder (argv info))
      else napi_throw_error (lit "dynabridge N-API callback received invalid call info") ;; mret None
  | None =>
      if info_ok info && bool_decide (data info ≠ None) then
        catch_all "dynabridge N-API overload callback failed"
          (result ← binder (argv info);
           match result with
           | Some v => mret (Some v)
           | None =>
               napi_throw_error (lit "dynabridge N-API overload has no matching signature") ;; mret None
           end)
      else napi_throw_error (lit "dynabridge N-API overload callback received invalid call info") ;; mret None
  end.
End Callbacks.

Section Backend.
Context {N : Type} (h : host).
(** The conversions of the arguments of a constructor, and the constructor of the native. *)
Context (convert : class -> list value -> outcome (list N)) (construct : class -> list N -> option exn).
Abbreviation M := (eff env_state).

Definition record (e : event) : M unit := fun s =>
  (Ok tt, mk_env (events s ++ [e]) (natives s) (holders s) (handoffs s) (next s)).
Definition ask {A} (f : trace -> A) : M A := fun s => (Ok (f (events s)), s).

Definition napi_throw_error (message : text) : M unit := record (DidThrowError message).

Definition check (ok : bool) (message : string) : M unit :=
  if ok then mret tt else throw (runtime_error (lit message)).

(** ** Natives and holders *)

(** [export_object_base::construct_native]: a constructor that throws leaves no object. *)
Definition construct_native (c : class) (args : list N) : M pointer := fun s =>
  match construct c args with
  | Some e => (Throw e, s)
  | None => (Ok (next s), mk_env (events s) (<[next s := c]> (natives s)) (holders s) (handoffs s) (S (next s)))
  end.

(** [export_object_base::destroy_native], and [native_finalizer]. *)
Definition destroy_native (p : pointer) : M unit := fun s =>
  match natives s !! p with
  | None => (Undefined, s)
  | Some _ => (Ok tt, mk_env (events s) (delete p (natives s)) (holders s) (handoffs s) (next s))
  end.

Definition new_holder (x : holder) : M pointer := fun s =>
  (Ok (next s), mk_env (events s) (natives s) (<[next s := x]> (holders s)) (handoffs s) (S (next s))).

(** [erased_backend_holder::destroy], through [manage_entry]. *)
Definition destroy_holder (p : pointer) : M unit := fun s =>
  match holders s !! p with
  | None => (Undefined, s)
  | Some _ => (Ok tt, mk_env (events s) (natives s) (delete p (holders s)) (handoffs s) (next s))
  end.

(** ** [object_t]: an owned reference *)

Definition object_reset (ref_ : option ref) : M (option ref) :=
  match ref_ with
  | Some r => record (DidDeleteReference r) ;; mret None
  | None => mret None
  end.

(** [reset(env, value)]; also the constructor from a value. *)
Definition object_reset_to (ref_ : option ref) (v : option value) : M (option ref) :=
  object_reset ref_ ;;
  match v with
  | None => mret None
  | Some v =>
      r ← ask (fun t => napi_create_reference h t v);
      match r with
      | Some r => record (DidReference r v) ;; mret (Some r)
      | None => throw (runtime_error (lit "napi_create_reference failed"))
      end
  end.

Definition object_get (ref_ : option ref) : M (option value) :=
  match ref_ with None => mret None | Some r => ask (fun t => napi_get_reference_value h t r) end.

(** [construct_export_object_from_native]. *)
Definition construct_export_object_from_native (c : class) (ref_ : option ref) (self : value)
    (receiver : pointer) : M (option ref) :=
  tagged ← ask (fun t => napi_type_tag_object h t self c);
  if negb tagged then destroy_native receiver ;; throw (runtime_error (lit "napi_type_tag_object failed"))
  else
    record (DidTypeTag self c) ;;
    wrapped ← ask (fun t => napi_wrap h t self receiver);
    if negb wrapped then destroy_native receiver ;; throw (runtime_error (lit "napi_wrap failed"))
    else
      record (DidWrap self receiver) ;;
      object_reset_to ref_ (Some self).

(** [construct_export_object_impl]. *)
Definition construct_export_object_impl (c : class) (ref_ : option ref) (self : value) (args : list N)
  : M (option ref) :=
  receiver ← construct_native c args;
  construct_export_object_from_native c ref_ self receiver.

(** ** The constructor of an exported class *)


(** [construct_signature] and [construct_indices]: the temporary object releases its
    reference at once. *)
Definition construct_signature (c : class) (arity : nat) (info : cb_info) (self : value) : M unit :=
  if negb (info_ok info && (length (argv info) =? arity)%nat) then
    throw (runtime_error (lit "dynabridge N-API constructor received invalid call info"))
  else
    args ← lift (convert c (argv info));
    object ← construct_export_object_impl c None self args;
    object_reset object ;; mret tt.

(** [missing_constructor_entry]. *)
Definition missing_constructor_entry : M unit :=
  throw (runtime_error (lit "dynabridge N-API class has no exported constructor")).

Definition set_handoff (d : pointer) (x : handoff) : M unit := fun s =>
  (Ok tt, mk_env (events s) (natives s) (holders s) (<[d := x]> (handoffs s)) (next s)).

(** [try_construct_external_proxy]; the memory behind an external is read whoever made it. *)
Definition try_construct_external_proxy (c : class) (info : cb_info) (self : value) : M bool :=
  match info_ok info, argv info with
  | true, [arg] =>
      d ← ask (fun t => napi_get_value_external h t arg);
      match d with
      | None => mret false
      | Some d =>
          x ← gets (fun s => handoffs s !! d);
          match x with
          | None => undefined_behaviour
          | Some x =>
              match magic x, receiver x with
              | true, Some p =>
                  object ← construct_export_object_from_native c None self p;
                  set_handoff d (mk_handoff true None) ;;
                  object_reset object ;; mret true
              | _, _ => mret false
              end
          end
      end
  | _, _ => mret false
  end.

(** [construct_entry], on the class state behind the constructor. *)
Definition construct_entry (state : pointer) (info : cb_info) (self : value) : M unit :=
  x ← gets (fun s => holders s !! state);
  match x with
  | Some (ClassState c arity) =>
      external ← try_construct_external_proxy c info self;
      if external : bool then mret tt
      else match arity with
           | Some n => construct_signature c n info self
           | None => missing_constructor_entry
           end
  | _ => undefined_behaviour
  end.

(** [class_constructor]. *)
Definition class_constructor (info : cb_info) : M (option value) :=
  if negb (info_ok info) then mret None
  else
    self ← match this info with Some v => mret v | None => ask (napi_create_object h) end;
    catch_std napi_throw_error (
      match data info with
      | Some state => construct_entry state info self
      | None => mret tt
      end ;; mret (Some self)).

(** ** Objects made by C++ *)

(** [class_target_t]: the reference to the constructor, and the class state. *)
Record class_target := mk_target { constructor_ref : ref; state : pointer }.

Definition target_constructor (target : class_target) : M value :=
  v ← ask (fun t => napi_get_reference_value h t (constructor_ref target));
  match v with
  | Some v => mret v
  | None => throw (runtime_error (lit "napi_get_reference_value failed for class constructor"))
  end.

(** The call of the host: it makes an object and calls the constructor of the class on it;
    an exception that crosses the callback has no meaning. It fails when the constructor
    left a pending error. *)
Definition call_new_instance (constructor : value) (target : class_target) (args : list value)
  : M (option value) := fun s =>
  match napi_new_instance h (events s) constructor with
  | None => (Ok None, s)
  | Some self =>
      let s0 := (record (DidNewInstance constructor self) s).2 in
      match class_constructor (mk_info true (Some self) args (Some (state target))) s0 with
      | (Ok (Some _), s') => (Ok (Some self), s')
      | (Ok None, s') => (Ok None, s')
      | (Throw _, s') => (Undefined, s')
      | (Aborted, s') => (Aborted, s')
      | (Undefined, s') => (Undefined, s')
      end
  end.

Definition new_handoff (p : pointer) : M pointer := fun s =>
  (Ok (next s), mk_env (events s) (natives s) (holders s) (<[next s := mk_handoff true (Some p)]> (handoffs s)) (S (next s))).
Definition handoff_receiver (d : pointer) : M (option pointer) := gets (fun s => handoffs s !! d ≫= receiver).

(** [make_export_object_impl]; the target is what the registry of the context holds. *)
Definition make_export_object_impl (c : class) (target : option class_target) (args : list N)
  : M (option ref) :=
  match target with
  | None => throw (runtime_error (lit "dynabridge export class is not registered in this context"))
  | Some target =>
      p ← construct_native c args;
      d ← new_handoff p;
      external ← ask (fun t => napi_create_external h t d);
      match external with
      | None => destroy_native p ;; throw (runtime_error (lit "napi_create_external failed"))
      | Some external =>
          record (DidCreateExternal external d) ;;
          constructor ← target_constructor target;
          v ← call_new_instance constructor target [external];
          left ← handoff_receiver d;
          match v, left with
          | Some v, None => object_reset_to None (Some v)
          | _, _ =>
              match left with Some p => destroy_native p | None => mret tt end ;;
              throw (runtime_error (lit "napi_new_instance failed for exported object"))
          end
      end
  end.

(** ** Receivers of member calls *)

Definition checked_unwrap_export_object (c : class) (v : option value) : M (option pointer) :=
  match v with
  | None => mret None
  | Some v =>
      matches ← ask (fun t => napi_check_object_type_tag h t v c);
      match matches with
      | Some true => ask (fun t => napi_unwrap h t v)
      | _ => mret None
      end
  end.
Definition try_bind_export_object_impl := checked_unwrap_export_object.

Inductive member_receiver_policy := checked_member_receiver_policy | trusted_member_receiver_policy.

Definition bind_member_export_object (policy : member_receiver_policy) (c : class) (self : option value)
  : M (option pointer) :=
  match policy with
  | checked_member_receiver_policy => checked_unwrap_export_object c self
  | trusted_member_receiver_policy =>
      match self with None => mret None | Some v => ask (fun t => napi_unwrap h t v) end
  end.

(** ** Functions and classes *)

(** [module_t::define]. *)
Definition module_define (target : value) (name : string) (v : value) : M unit :=
  ok ← ask (fun t => napi_set_named_property h t target name v);
  check ok "napi_set_named_property failed" ;;
  record (DidDefine target name v).

(** [class_target_t::define]. *)
Definition class_target_define (target : class_target) (name : string) (v : value) : M unit :=
  constructor ← target_constructor target;
  prototype ← ask (fun t => napi_get_named_property h t constructor "prototype");
  match prototype with
  | None => throw (runtime_error (lit "napi class prototype lookup failed"))
  | Some prototype =>
      ok ← ask (fun t => napi_set_named_property h t prototype name v);
      check ok "napi class method definition failed" ;;
      record (DidDefine prototype name v)
  end.

(** [make_function_impl] and [make_member_function]: one per kind of holder. *)
Definition make_function (binder : nat) : M value :=
  holder ← new_holder (CallbackHolder binder);
  function ← ask (fun t => napi_create_function h t holder);
  match function with
  | None => destroy_holder holder ;; throw (runtime_error (lit "napi_create_function failed"))
  | Some function =>
      record (DidCreateFunction function holder) ;;
      ok ← ask (fun t => napi_add_finalizer h t function holder);
      if negb ok then destroy_holder holder ;; throw (runtime_error (lit "napi_add_finalizer failed"))
      else record (DidAddFinalizer function holder) ;; mret function
  end.

(** [define_impl] on a module or an object, and on a class. *)
Definition define_impl (target : value) (name : string) (binder : nat) : M unit :=
  function ← make_function binder; module_define target name function.
Definition define_impl_class (target : class_target) (name : string) (binder : nat) : M unit :=
  function ← make_function binder; class_target_define target name function.

(** [constructor_reference]: a reference that the cleanup of the environment also drops. *)
Definition constructor_reference (constructor : value) : M ref :=
  r ← ask (fun t => napi_create_reference h t constructor);
  match r with
  | Some r => record (DidReference r constructor) ;; mret r
  | None => throw (runtime_error (lit "napi_create_reference failed for class constructor"))
  end.

(** [define_class_impl]. *)
Definition define_class_impl (c : class) (target : value) (name : string) : M class_target :=
  state ← new_holder (ClassState c None);
  constructor ← ask (fun t => napi_define_class h t state);
  match constructor with
  | None => destroy_holder state ;; throw (runtime_error (lit "napi_define_class failed"))
  | Some constructor =>
      record (DidDefineClass constructor state) ;;
      ok ← ask (fun t => napi_add_finalizer h t constructor state);
      if negb ok then destroy_holder state ;; throw (runtime_error (lit "napi_add_finalizer failed"))
      else
        record (DidAddFinalizer constructor state) ;;
        module_define target name constructor ;;
        r ← constructor_reference constructor;
        mret (mk_target r state)
  end.

(** [define_constructor_impl], through [set_constructor]. *)
Definition define_constructor_impl (target : class_target) (arity : nat) : M unit := fun s =>
  match holders s !! state target with
  | Some (ClassState c _) =>
      (Ok tt, mk_env (events s) (natives s) (<[state target := ClassState c (Some arity)]> (holders s)) (handoffs s) (next s))
  | _ => (Undefined, s)
  end.

(** ** Ownership *)

Definition wraps (s : env_state) : list (value * pointer) :=
  omap (fun e => match e with DidWrap v p => Some (v, p) | _ => None end) (events s).
Definition tags (s : env_state) : list (value * class) :=
  omap (fun e => match e with DidTypeTag v c => Some (v, c) | _ => None end) (events s).

(** Every native is owned by the one object that wraps it, which carries the tag of its
    class; at most the native [o] is still owned by the C++ code that made it. *)
Record owned (o : option (pointer * class)) (s : env_state) : Prop := {
  own_free p c : o = Some (p, c) -> natives s !! p = Some c /\ p ∉ (wraps s).*2;
  own_live p c : natives s !! p = Some c -> o = Some (p, c) \/ exists v, (v, p) ∈ wraps s /\ (v, c) ∈ tags s;
  own_wrapped v p : (v, p) ∈ wraps s -> exists c, natives s !! p = Some c /\ (v, c) ∈ tags s;
  own_objects : NoDup (wraps s).*1;
  own_pointers : NoDup (wraps s).*2;
  own_tags : NoDup (tags s).*1;
  own_fresh p c : natives s !! p = Some c -> (p < next s)%nat
}.

Lemma wraps_elem s v p : (v, p) ∈ wraps s <-> DidWrap v p ∈ events s.
Proof.
  unfold wraps. rewrite list_elem_of_omap. split.
  - intros ([] & Hin & Heq); simplify_eq; done.
  - intros Hin. by exists (DidWrap v p).
Qed.
Lemma tags_elem s v c : (v, c) ∈ tags s <-> DidTypeTag v c ∈ events s.
Proof.
  unfold tags. rewrite list_elem_of_omap. split.
  - intros ([] & Hin & Heq); simplify_eq; done.
  - intros Hin. by exists (DidTypeTag v c).
Qed.

(** An object that carries a tag of this library was also wrapped by it. The code tags first:
    a construction that [napi_wrap] refuses leaves an object that is not genuine. *)
Definition genuine (s : env_state) (v : value) : Prop := forall c, (v, c) ∈ tags s -> exists p, (v, p) ∈ wraps s.

(** Events that change no ownership. *)
Definition neutral (e : event) : bool :=
  match e with DidWrap _ _ | DidTypeTag _ _ => false | _ => true end.

Lemma owned_ext o s s' :
  owned o s -> wraps s' = wraps s -> tags s' = tags s -> natives s' = natives s -> (next s <= next s')%nat ->
  owned o s'.
Proof.
  intros [] Hw Ht Hn Hx. split; rewrite ?Hw, ?Ht, ?Hn; try done.
  intros p c Hp. specialize (own_fresh0 p c Hp). lia.
Qed.

Lemma record_owned e o E : neutral e = true -> triple (owned o) (record e) (fun _ => owned o) E.
Proof.
  intros He s Hs. simpl. eapply owned_ext; [exact Hs| | |done|done]; unfold wraps, tags; simpl;
    rewrite omap_app; destruct e; try done; by rewrite app_nil_r.
Qed.

Lemma ask_triple {A} (f : trace -> A) P E :
  triple P (ask f) (fun a s => a = f (events s) /\ P s) E.
Proof. by intros s Hs. Qed.

Lemma throw_triple {A} e P (Q : A -> env_state -> Prop) : triple P (throw e) Q P.
Proof. by intros s Hs. Qed.
Lemma ret_triple {A} (a : A) (P E : env_state -> Prop) : triple P (mret a) (fun _ => P) E.
Proof. by intros s Hs. Qed.
Lemma ask_bind {A B} (f : trace -> A) (k : A -> M B) (P : env_state -> Prop) Q E :
  (forall a, triple (fun s => a = f (events s) /\ P s) (k a) Q E) -> triple P (ask f ≫= k) Q E.
Proof. intros Hk. eapply triple_bind; [apply (ask_triple _ P)|done]. Qed.
Lemma strengthen {A} (m : M A) (P P' : env_state -> Prop) Q E :
  triple P m Q E -> (forall s, P' s -> P s) -> triple P' m Q E.
Proof. intros Hm HP s Hs. apply Hm. auto. Qed.

Lemma construct_native_owned c args :
  triple (owned None) (construct_native c args) (fun p => owned (Some (p, c))) (owned None).
Proof.
  intros s Hs. unfold construct_native. destruct (construct c args) as [e|]; [done|].
  destruct Hs. split; cbn [events natives next]; try done.
  - intros p c' [= <- <-]. rewrite lookup_insert_eq. split; [done|].
    intros [[v p'] [Heq Hin]]%list_elem_of_fmap. destruct (own_wrapped0 _ _ Hin) as (c' & Hc & _).
    specialize (own_fresh0 _ _ Hc). simpl in *. lia.
  - intros p c'. rewrite lookup_insert_Some. intros [[<- <-]|[Hne Hp]]; [by left|].
    destruct (own_live0 _ _ Hp) as [|]; [done|by right].
  - intros v p Hin. destruct (own_wrapped0 _ _ Hin) as (c' & Hc & Ht). exists c'. split; [|done].
    rewrite lookup_insert_ne; [done|]. specialize (own_fresh0 _ _ Hc). lia.
  - intros p c'. rewrite lookup_insert_Some. intros [[<- <-]|[Hne Hp]]; [lia|].
    specialize (own_fresh0 _ _ Hp). lia.
Qed.

Lemma destroy_free p c E : triple (owned (Some (p, c))) (destroy_native p) (fun _ => owned None) E.
Proof.
  intros s []. unfold destroy_native. destruct (own_free0 p c eq_refl) as [Hp Hnot]. rewrite Hp.
  split; cbn [events natives next]; try done.
  - intros q c'. rewrite lookup_delete_Some. intros [Hne Hq].
    destruct (own_live0 _ _ Hq) as [Heq|]; [by simplify_eq|by right].
  - intros v q Hin. destruct (own_wrapped0 _ _ Hin) as (c' & Hc & Ht). exists c'. split; [|done].
    rewrite lookup_delete_ne; [done|]. intros ->. apply Hnot.
    apply list_elem_of_fmap. by exists (v, q).
  - intros q c'. rewrite lookup_delete_Some. intros [_ Hq]. by eapply own_fresh0.
Qed.

Context `{!HostLaws h}.

Lemma object_reset_owned r o : triple (owned o) (object_reset r) (fun _ => owned o) (owned o).
Proof.
  destruct r as [r|]; simpl; [|by intros s Hs].
  eapply triple_bind; [by apply record_owned|intros []]. apply ret_triple.
Qed.

Lemma object_reset_to_owned r v o : triple (owned o) (object_reset_to r v) (fun _ => owned o) (owned o).
Proof.
  unfold object_reset_to. eapply triple_bind; [apply object_reset_owned|intros r0].
  destruct v as [v|]; [|apply ret_triple].
  apply ask_bind. intros [r'|]; (eapply strengthen; [|by intros s [_ Hs]]); [|apply throw_triple].
  eapply triple_bind; [by apply record_owned|intros []]. apply ret_triple.
Qed.

(** Tagging an object that the host agrees to tag. *)
Lemma tag_owned o v c E :
  triple (fun s => owned o s /\ napi_type_tag_object h (events s) v c = true) (record (DidTypeTag v c))
    (fun _ s => owned o s /\ (v, c) ∈ tags s) E.
Proof.
  intros s [[] Ht]. simpl. set (s' := mk_env _ _ _ _ _).
  assert (wraps s' = wraps s) as Hw by (unfold wraps; simpl; rewrite omap_app; apply app_nil_r).
  assert (tags s' = tags s ++ [(v, c)]) as Htags by (unfold tags; simpl; by rewrite omap_app).
  split; [|rewrite Htags; set_solver].
  split; rewrite ?Hw, ?Htags; try done.
  - intros p c' Hp. destruct (own_live0 _ _ Hp) as [|(v' & ? & ?)]; [by left|right]. exists v'. set_solver.
  - intros v' p Hin. destruct (own_wrapped0 _ _ Hin) as (c' & ? & ?). exists c'. set_solver.
  - rewrite fmap_app. apply NoDup_app. split_and!; [done| |apply NoDup_singleton].
    intros v' [[v1 c1] [-> Hin]]%list_elem_of_fmap Hv. simpl in Hv. apply list_elem_of_singleton in Hv as ->.
    apply tags_elem in Hin. by rewrite (tag_once _ _ _ _ Hin) in Ht.
Qed.

(** Wrapping the native that is still free. *)
Lemma wrap_owned v p c E :
  triple (fun s => (owned (Some (p, c)) s /\ (v, c) ∈ tags s) /\ napi_wrap h (events s) v p = true)
    (record (DidWrap v p)) (fun _ s => owned None s /\ (v, p) ∈ wraps s) E.
Proof.
  intros s [[[] Htag] Hwrap]. simpl. set (s' := mk_env _ _ _ _ _).
  assert (wraps s' = wraps s ++ [(v, p)]) as Hw by (unfold wraps; simpl; by rewrite omap_app).
  assert (tags s' = tags s) as Htags by (unfold tags; simpl; rewrite omap_app; apply app_nil_r).
  destruct (own_free0 p c eq_refl) as [Hp Hnot].
  split; [|rewrite Hw; set_solver].
  split; rewrite ?Hw, ?Htags; try done.
  - intros q c' Hq. right. destruct (own_live0 _ _ Hq) as [Heq|(v' & ? & ?)].
    + simplify_eq. exists v. set_solver.
    + exists v'. set_solver.
  - intros v' q [Hin|Hin]%elem_of_app; [by apply own_wrapped0|].
    apply list_elem_of_singleton in Hin. simplify_eq. by exists c.
  - rewrite fmap_app. apply NoDup_app. split_and!; [done| |apply NoDup_singleton].
    intros v' [[v1 p1] [-> Hin]]%list_elem_of_fmap Hv. simpl in Hv. apply list_elem_of_singleton in Hv as ->.
    apply wraps_elem in Hin. by rewrite (wrap_once _ _ _ _ Hin) in Hwrap.
  - rewrite fmap_app. apply NoDup_app. split_and!; [done| |apply NoDup_singleton].
    intros q Hin Hq. apply list_elem_of_singleton in Hq as ->. done.
Qed.

(** The native passes to the object, or is destroyed. *)
Lemma from_native_owned c r self p :
  triple (owned (Some (p, c))) (construct_export_object_from_native c r self p)
    (fun _ => owned None) (owned None).
Proof.
  unfold construct_export_object_from_native.
  apply ask_bind. intros [|]; cbn [negb].
  - eapply triple_bind.
    { eapply strengthen; [apply (tag_owned (Some (p, c)) self c)|]. by intros s [Ht Hs]. }
    intros []. apply ask_bind. intros [|]; cbn [negb].
    + eapply triple_bind; [eapply strengthen; [apply wrap_owned|]|intros []].
      * intros s [Hw [Hs Ht]]. eauto.
      * eapply strengthen; [apply object_reset_to_owned|]. by intros s [Hs _].
    + eapply triple_bind; [eapply strengthen; [apply destroy_free|]|intros []; apply throw_triple].
      by intros s [_ [Hs _]].
  - eapply triple_bind; [eapply strengthen; [apply destroy_free|]|intros []; apply throw_triple].
    by intros s [_ Hs].
Qed.

(** ** A constructor that JavaScript calls *)


Context (convert_defined : forall c l, convert c l ≠ Undefined).







(** ** Genuine objects *)





(** ** Finalizers *)





(** The receiver a checked member call is given is a live native of its class, when the
    object is genuine. *)
Theorem napi_checked_receiver c v s p s' :
  owned None s -> (forall o, v = Some o -> genuine s o) -> checked_unwrap_export_object c v s = (Ok (Some p), s') ->
  s' = s /\ natives s !! p = Some c /\ exists o, v = Some o /\ (o, p) ∈ wraps s.
Proof.
  intros [] Hgen Hun. unfold checked_unwrap_export_object, ask, mbind, eff_bind in Hun.
  destruct v as [v|]; [|done].
  destruct (napi_check_object_type_tag h (events s) v c) as [[]|] eqn:Hc; try done.
  injection Hun as Hun <-.
  pose proof (check_tag _ _ _ Hc) as Htag.
  destruct (Hgen v eq_refl c) as [q Hq%wraps_elem]; [by apply tags_elem|].
  pose proof (unwrap_wrapped _ _ _ _ Hq Hun) as Hw.
  apply wraps_elem in Hw. apply tags_elem in Htag.
  destruct (own_wrapped0 _ _ Hw) as (c' & Hp & Ht).
  split_and!; [done| |by eauto].
  rewrite Hp. f_equal. apply list_elem_of_lookup_1 in Ht as [i Hi], Htag as [j Hj].
  assert (i = j) as ->; [|congruence].
  eapply (NoDup_lookup (tags s).*1); [done| |]; rewrite list_lookup_fmap.
  - by rewrite Hi.
  - by rewrite Hj.
Qed.

(** ** Objects that C++ makes *)

(** Documented: an external gives back the pointer it was made with. *)
Class ExternalLaws : Prop :=
  external_data t t' v d : (forall d', DidCreateExternal v d' ∉ t') ->
    napi_get_value_external h (t ++ DidCreateExternal v d :: t') v = Some d.

Definition with_event (e : event) (s : env_state) : env_state :=
  mk_env (events s ++ [e]) (natives s) (holders s) (handoffs s) (next s).
Lemma record_run e s : record e s = (Ok tt, with_event e s).
Proof. done. Qed.
Lemma owned_event e o s : neutral e = true -> owned o s -> owned o (with_event e s).
Proof. intros He Hs. exact (record_owned e o (fun _ => True) He s Hs). Qed.

(** What the host answers when a native is handed to a new object. *)
Inductive taking := tag_refused | wrap_refused | reference_refused | taken (r : ref).
Definition taking_of (c : class) (self : value) (p : pointer) (t : trace) : taking :=
  if negb (napi_type_tag_object h t self c) then tag_refused
  else if negb (napi_wrap h (t ++ [DidTypeTag self c]) self p) then wrap_refused
  else match napi_create_reference h ((t ++ [DidTypeTag self c]) ++ [DidWrap self p]) self with
       | None => reference_refused
       | Some r => taken r
       end.
Definition with_events (l : list event) (s : env_state) : env_state :=
  mk_env (events s ++ l) (natives s) (holders s) (handoffs s) (next s).
Definition without_native (p : pointer) (s : env_state) : env_state :=
  mk_env (events s) (delete p (natives s)) (holders s) (handoffs s) (next s).

Lemma from_native_run c self p s :
  is_Some (natives s !! p) ->
  construct_export_object_from_native c None self p s =
  match taking_of c self p (events s) with
  | tag_refused => (Throw (runtime_error (lit "napi_type_tag_object failed")), without_native p s)
  | wrap_refused => (Throw (runtime_error (lit "napi_wrap failed")), without_native p (with_events [DidTypeTag self c] s))
  | reference_refused =>
      (Throw (runtime_error (lit "napi_create_reference failed")), with_events [DidTypeTag self c; DidWrap self p] s)
  | taken r => (Ok (Some r), with_events [DidTypeTag self c; DidWrap self p; DidReference r self] s)
  end.
Proof.
  intros [c' Hp]. unfold construct_export_object_from_native, taking_of, with_events, object_reset_to, object_reset, ask, record, mret, eff_ret.
  unfold mbind, eff_bind. destruct (napi_type_tag_object h (events s) self c); cbn.
  2: { unfold destroy_native. by rewrite Hp. }
  destruct (napi_wrap h (events s ++ [DidTypeTag self c]) self p); cbn.
  2: { unfold destroy_native. cbn. by rewrite Hp. }
  destruct (napi_create_reference h _ self); cbn; by rewrite <- !app_assoc.
Qed.

(** The constructor, called with the external of a handoff: what it throws becomes the
    pending error, and the handoff then still names the native. *)
Lemma constructor_on_handoff c n state self external d p s :
  is_Some (natives s !! p) -> holders s !! state = Some (ClassState c n) ->
  handoffs s !! d = Some (mk_handoff true (Some p)) -> napi_get_value_external h (events s) external = Some d ->
  class_constructor (mk_info true (Some self) [external] (Some state)) s =
  match taking_of c self p (events s) with
  | tag_refused => (Ok None, with_event (DidThrowError (lit "napi_type_tag_object failed")) (without_native p s))
  | wrap_refused =>
      (Ok None, with_event (DidThrowError (lit "napi_wrap failed")) (without_native p (with_events [DidTypeTag self c] s)))
  | reference_refused =>
      (Ok None, with_event (DidThrowError (lit "napi_create_reference failed")) (with_events [DidTypeTag self c; DidWrap self p] s))
  | taken r =>
      (Ok (Some self), mk_env (events s ++ [DidTypeTag self c; DidWrap self p; DidReference r self; DidDeleteReference r])
                         (natives s) (holders s) (<[d := mk_handoff true None]> (handoffs s)) (next s))
  end.
Proof.
  intros Hp Hst Hd Hext. unfold class_constructor. cbn [info_ok this argv data negb]. unfold mbind at 1, eff_bind at 1, mret at 1, eff_ret at 1.
  unfold catch_std, construct_entry, gets. unfold mbind at 1 2, eff_bind at 1 2. rewrite Hst.
  unfold try_construct_external_proxy. cbn [info_ok argv]. unfold ask at 1. unfold mbind at 1 2, eff_bind at 1 2. rewrite Hext.
  unfold gets. unfold mbind at 1, eff_bind at 1. rewrite Hd. cbn [magic receiver]. unfold mbind at 1, eff_bind at 1.
  rewrite (from_native_run c self p s Hp). destruct (taking_of c self p (events s)) as [| | |r]; try done.
  unfold set_handoff, object_reset, record, mret, eff_ret, mbind, eff_bind, with_events. cbn. by rewrite <- app_assoc.
Qed.

(** Destroying a native that was just made leaves the natives as they were. *)
Lemma destroy_made p c (n : gmap nat class) s :
  n !! p = None -> natives s = <[p := c]> n -> owned (Some (p, c)) s ->
  exists s', destroy_native p s = (Ok tt, s') /\ owned None s' /\ natives s' = n.
Proof.
  intros Hp Hn Hs. pose proof (destroy_free p c (fun _ => True) s Hs) as Hd.
  unfold destroy_native in *. rewrite Hn, lookup_insert_eq in *.
  eexists. split; [done|]. split; [done|]. cbn. by rewrite delete_insert_id.
Qed.

(** What becomes of the native of an object that C++ makes, by the answers of the host. *)
Inductive settlement := nothing_left | native_lost | destroyed_twice | destroyed_while_wrapped | owned_by_object.
Definition settlement_of (c : class) (target : class_target) (args : list N) (s : env_state) : settlement :=
  match construct c args, napi_create_external h (events s) (S (next s)) with
  | Some _, _ | _, None => nothing_left
  | None, Some external =>
      let t := events s ++ [DidCreateExternal external (S (next s))] in
      match napi_get_reference_value h t (constructor_ref target) with
      | None => native_lost
      | Some constructor =>
          match napi_new_instance h t constructor with
          | None => nothing_left
          | Some self =>
              match taking_of c self (next s) (t ++ [DidNewInstance constructor self]) with
              | tag_refused | wrap_refused => destroyed_twice
              | reference_refused => destroyed_while_wrapped
              | taken _ => owned_by_object
              end
          end
      end
  end.

(** What each leaves, of the call in [s] that made a native of [c]. *)
Definition settled (c : class) (s : env_state) (x : settlement) (r : outcome (option ref) * env_state) : Prop :=
  match x, r with
  | nothing_left, (Throw _, s') => owned None s' /\ natives s' = natives s
  | native_lost, (Throw _, s') => natives s' = <[next s := c]> (natives s) /\ next s ∉ (wraps s').*2
  | destroyed_twice, (Undefined, _) => True
  | destroyed_while_wrapped, (Throw _, s') => natives s' !! next s = None /\ next s ∈ (wraps s').*2
  | owned_by_object, (Ok (Some _), s') | owned_by_object, (Throw _, s') =>
      owned None s' /\ natives s' = <[next s := c]> (natives s) /\ next s ∈ (wraps s').*2
  | _, _ => False
  end.

Lemma owned_fresh o s : owned o s -> natives s !! next s = None /\ next s ∉ (wraps s).*2.
Proof.
  intros []. assert (natives s !! next s = None) as Hp.
  { destruct (natives s !! next s) as [c'|] eqn:E; [|done]. specialize (own_fresh0 _ _ E). lia. }
  split; [done|]. intros [[v q] [Hq Hin]]%list_elem_of_fmap. simpl in Hq. subst q.
  destruct (own_wrapped0 _ _ Hin) as (c & Hc & _). congruence.
Qed.
(** A native that a new object has taken. *)
Lemma taken_owned c self p s r :
  owned (Some (p, c)) s -> taking_of c self p (events s) = taken r ->
  owned None (with_events [DidTypeTag self c; DidWrap self p; DidReference r self] s).
Proof.
  intros Hs Ht. pose proof (from_native_owned c None self p s Hs) as Hown.
  rewrite from_native_run, Ht in Hown; [exact Hown|]. destruct Hs. by destruct (own_free0 p c eq_refl) as [-> _].
Qed.

(** The reference to the finished object is made, or refused. *)
Lemma finish_owned c s self s' :
  owned None s' -> natives s' = <[next s := c]> (natives s) -> next s ∈ (wraps s').*2 ->
  settled c s owned_by_object (object_reset_to None (Some self) s').
Proof.
  intros Hs Hn Hw. pose proof (object_reset_to_owned None (Some self) None s' Hs) as Hfin.
  unfold object_reset_to, object_reset, ask, record, mret, eff_ret in *. unfold mbind, eff_bind in *.
  destruct (napi_create_reference h (events s') self) as [r|]; cbn in Hfin |- *; (split_and!; [done..|]);
    [|done]. unfold wraps in *. cbn. by rewrite omap_app, fmap_app, elem_of_app; left.
Qed.

Lemma target_constructor_run target s :
  target_constructor target s =
  match napi_get_reference_value h (events s) (constructor_ref target) with
  | Some v => (Ok v, s)
  | None => (Throw (runtime_error (lit "napi_get_reference_value failed for class constructor")), s)
  end.
Proof. unfold target_constructor, ask, mbind, eff_bind. by destruct (napi_get_reference_value h (events s) _). Qed.

(** C40: what an object that C++ makes leaves behind, for every answer of the host. When the
    constructor throws, or the external or the object cannot be made, the error leaves
    nothing. When the new object takes the native it owns it, also when the reference to
    the object is refused after that. The other answers break ownership: without a value
    behind the reference of the class the native stays without an owner; when the object
    cannot be tagged or wrapped the native is destroyed twice; and when its first reference
    is refused the native is destroyed although the object wraps it. *)
Theorem export_object_settled `{!ExternalLaws} c n target args s :
  owned None s -> holders s !! state target = Some (ClassState c n) ->
  settled c s (settlement_of c target args s) (make_export_object_impl c (Some target) args s).
Proof.
  clear convert_defined. intros Hs Hst. destruct (owned_fresh _ _ Hs) as [Hp Hw].
  unfold settlement_of, make_export_object_impl.
  pose proof (construct_native_owned c args s Hs) as Hc. unfold construct_native in *.
  unfold mbind at 1, eff_bind at 1. destruct (construct c args) as [e|]; [done|].
  set (p := next s) in *. set (s1 := mk_env _ _ _ _ _) in *.
  set (s2 := mk_env (events s1) (natives s1) (holders s1) (<[next s1 := mk_handoff true (Some p)]> (handoffs s1)) (S (next s1))).
  assert (owned (Some (p, c)) s2) as Hs2 by (eapply owned_ext; [exact Hc| | | |]; simpl; (done || lia)).
  rewrite (eff_bind_run _ _ s1 (S p) s2) by done.
  rewrite (eff_bind_run _ _ s2 (napi_create_external h (events s) (S p)) s2) by done.
  destruct (napi_create_external h (events s) (S p)) as [external|].
  2:{ destruct (destroy_made p c _ s2 Hp eq_refl Hs2) as (s' & Hd & Hown & Hnat). by rewrite (eff_bind_run _ _ _ _ _ Hd). }
  rewrite (eff_bind_run _ _ _ _ _ (record_run _ s2)).
  set (s3 := with_event (DidCreateExternal external (S p)) s2). change (events s ++ [_]) with (events s3).
  assert (owned (Some (p, c)) s3) as Hs3 by by apply owned_event.
  unfold mbind at 1, eff_bind at 1. rewrite target_constructor_run. destruct (napi_get_reference_value h (events s3) (constructor_ref target)) as [f|].
  2:{ cbn. split; [done|]. unfold wraps; cbn. rewrite omap_app, fmap_app. cbn. by rewrite app_nil_r. }
  unfold mbind at 1, eff_bind at 1, call_new_instance. destruct (napi_new_instance h (events s3) f) as [self|].
  2:{ unfold handoff_receiver, gets. unfold mbind at 1, eff_bind at 1. cbn [handoffs s3 with_event s2].
      rewrite lookup_insert_eq. cbn [mbind option_bind receiver].
      destruct (destroy_made p c _ s3 Hp eq_refl Hs3) as (s' & Hd & Hown & Hnat). by rewrite (eff_bind_run _ _ _ _ _ Hd). }
  rewrite record_run. cbn [snd]. set (s4 := with_event (DidNewInstance f self) s3). change (events s3 ++ [_]) with (events s4).
  assert (owned (Some (p, c)) s4) as Hs4 by by apply owned_event.
  assert (natives s4 !! p = Some c) as Hp4 by apply lookup_insert_eq.
  rewrite (constructor_on_handoff c n (state target) self external (S p) p s4);
    [|by eexists|done|cbn; by rewrite lookup_insert_eq|].
  2:{ cbn. rewrite <- app_assoc. apply external_data. by intros d' ?%list_elem_of_singleton. }
  pose proof (taken_owned c self p s4) as Htaken.
  destruct (taking_of c self p (events s4)) as [| | |r]; unfold handoff_receiver, gets, destroy_native, mbind, eff_bind, mret, eff_ret;
    cbn [handoffs natives with_event without_native with_events s4 s3 s2 s1 option_bind].
  - rewrite lookup_insert_eq. cbn. by rewrite lookup_delete_eq.
  - rewrite lookup_insert_eq. cbn. by rewrite lookup_delete_eq.
  - rewrite lookup_insert_eq. cbn. rewrite lookup_insert_eq. cbn. rewrite lookup_delete_eq. split; [done|].
    unfold wraps. cbn. rewrite !omap_app. cbn. rewrite !fmap_app. set_solver.
  - rewrite lookup_insert_eq. cbn [option_bind receiver]. specialize (Htaken r Hs4 eq_refl).
    match goal with |- context [object_reset_to None (Some self) ?x] => set (s5 := x) end.
    assert (owned None s5) as Hs5.
    { eapply owned_ext; [exact Htaken| | |done|done]; unfold wraps, tags; cbn; by rewrite !omap_app. }
    apply finish_owned; [done|done|]. unfold wraps. cbn. rewrite !omap_app. cbn. rewrite !fmap_app. set_solver.
Qed.

(** ** Holders of functions and classes *)

(** What a holder's owner is: nothing was left of a failed call, or the finalizer of the
    value that reaches the holder will destroy it. *)
Definition holder_settled (s s' : env_state) : Prop :=
  holders s' = holders s \/
  exists v x, holders s' = <[next s := x]> (holders s) /\ DidAddFinalizer v (next s) ∈ events s'.

(** A function or a class that is made leaves no holder without an owner: when the
    host refuses to make it or to take the finalizer the holder is destroyed once, and
    otherwise the finalizer of the value will destroy it, whatever fails later. *)
Theorem holders_settled (s : env_state) c target name binder :
  holders s !! next s = None ->
  (match make_function binder s with
   | (Ok f, s') => DidCreateFunction f (next s) ∈ events s' /\ holder_settled s s'
   | (Throw _, s') => holders s' = holders s
   | _ => False
   end) /\
  (match define_class_impl c target name s with
   | (Ok t, s') => state t = next s /\ holders s' !! state t = Some (ClassState c None) /\ holder_settled s s'
   | (Throw _, s') => holder_settled s s'
   | _ => False
   end).
Proof.
  intros Hnext. split.
  - unfold make_function, new_holder, destroy_holder, ask, record, throw, mret, eff_ret. unfold mbind, eff_bind. cbn.
    destruct (napi_create_function h (events s) (next s)) as [f|]; cbn.
    + destruct (napi_add_finalizer h (events s ++ [DidCreateFunction f (next s)]) f (next s)); cbn.
      * split; [rewrite !elem_of_app; left; right; left|]. right. exists f, (CallbackHolder binder).
        split; [done|]. apply elem_of_app. right. left.
      * rewrite lookup_insert_eq. cbn. by apply delete_insert_id.
    + rewrite lookup_insert_eq. cbn. by apply delete_insert_id.
  - unfold define_class_impl, new_holder, destroy_holder, module_define, constructor_reference, check, ask, record,
      throw, mret, eff_ret. unfold mbind, eff_bind. cbn.
    destruct (napi_define_class h (events s) (next s)) as [f|]; cbn.
    2:{ rewrite lookup_insert_eq. cbn. left. by apply delete_insert_id. }
    destruct (napi_add_finalizer h (events s ++ [DidDefineClass f (next s)]) f (next s)); cbn.
    2:{ rewrite lookup_insert_eq. cbn. left. by apply delete_insert_id. }
    destruct (napi_set_named_property h _ target name f); cbn.
    2:{ right. exists f, (ClassState c None). split; [done|]. cbn [events]. rewrite !elem_of_app. right. left. }
    destruct (napi_create_reference h _ f) as [r|]; cbn.
    + split_and!; [done|by rewrite lookup_insert_eq|]. right. exists f, (ClassState c None).
      split; [done|]. cbn [events]. rewrite !elem_of_app. left. left. right. left.
    + right. exists f, (ClassState c None). split; [done|]. cbn [events]. rewrite !elem_of_app. left. right. left.
Qed.

Definition accepts (expected : option nat) (info : cb_info) : bool :=
  info_ok info && bool_decide (data info ≠ None)
  && match expected with Some n => (length (argv info) =? n)%nat | None => true end.
Definition fallback (expected : option nat) : string :=
  match expected with Some _ => "dynabridge N-API callback failed" | None => "dynabridge N-API overload callback failed" end.

(** A callback lets no exception out, whatever its binder throws: with call
    information it accepts it runs the binder once, returns its value, or leaves the
    message of its exception as the pending error; otherwise it does not run it. *)
Theorem callback_never_throws expected (binder : list value -> M (option value)) info s :
  match callback napi_throw_error expected binder info s with (Throw _, _) => False | _ => True end /\
  (accepts expected info = false -> exists m, callback napi_throw_error expected binder info s = (Ok None, with_event (DidThrowError m) s)) /\
  (accepts expected info = true ->
   (forall v s', binder (argv info) s = (Ok (Some v), s') -> callback napi_throw_error expected binder info s = (Ok (Some v), s')) /\
   (forall e s', binder (argv info) s = (Throw e, s') ->
      callback napi_throw_error expected binder info s =
        (Ok None, with_event (DidThrowError (default (lit (fallback expected)) (what e))) s'))).
Proof.
  unfold callback, accepts. destruct (info_ok info), (bool_decide (data info ≠ None)), expected as [n|]; cbn [andb];
    try (destruct (length (argv info) =? n)%nat; cbn [andb]).
  all: split_and!; try done; try (by eexists); intros;
    unfold catch_all, catch_std; unfold mbind, eff_bind.
  all: try (destruct (binder (argv info) s) as [[[v|]|e| |] s'] eqn:Hb; try done; cbn; by destruct (what e)).
  all: split; [intros v s' Hb|intros e s' Hb]; rewrite Hb; [done|by destruct (what e)].
Qed.
End Backend.

Arguments ExternalLaws h : clear implicits.

(** An operation of the backend among the rest of a program's state. *)
Definition on_env {U X} (m : eff env_state X) : eff (env_state * U) X := fun w => ((m w.1).1, ((m w.1).2, w.2)).

(** ** napi_converters.h *)

Module NapiConverters.
(** A double: [Finite m e] is [m * 2^e]. *)
Inductive double := Finite (m e : Z) | Infinite (negative : bool) | NotANumber.

(** [std::isfinite] and [std::trunc(x) == x], with the integer it then is. *)
Definition integral (x : double) : option Z :=
  match x with
  | Finite m e =>
      if 0 <=? e then Some (m * 2 ^ e)
      else if m mod 2 ^ (- e) =? 0 then Some (m / 2 ^ (- e)) else None
  | _ => None
  end.

(** [from] of an integer type with limits [min] and [max]; [get] is what
    [napi_get_value_double] gives. *)
Definition integer_from (min max : Z) (get : option double) : option Z :=
  match get with
  | None => None
  | Some x =>
      match integral x with
      | Some z => if (z <? min) || (z >? max) then None else Some z
      | None => None
      end
  end.
Definition int_from := integer_from (- 2 ^ 31) (2 ^ 31 - 1).
Definition unsigned_from := integer_from 0 (2 ^ 32 - 1).

(** [to]: the value the host makes, or the error of [check]. *)
Definition to_checked {V} (message : string) (made : option V) : outcome V :=
  match made with Some v => Ok v | None => Throw (runtime_error (lit message)) end.
Definition int_to {V} (create : Z -> option V) (z : Z) := to_checked "napi_create_int32 failed" (create z).
Definition unsigned_to {V} (create : Z -> option V) (z : Z) := to_checked "napi_create_uint32 failed" (create z).
Definition string_to {V} (create : text -> Z -> option V) (t : text) :=
  to_checked "napi_create_string_utf8 failed" (create t (zlen t)).

(** [from] of a string: [is_string] is the answer of [napi_typeof], [size] and [copy] those
    of [napi_get_value_string_utf8] without and with a buffer of the given size. *)
Definition string_from (is_string : option bool) (size : option Z) (copy : Z -> option text)
  : outcome (option text) :=
  string ← to_checked "napi_typeof failed during string conversion" is_string;
  if string : bool then
    n ← to_checked "napi_get_value_string_utf8 size probe failed" size;
    if n =? u64_modulus - 1 then Throw (length_error (lit "dynabridge N-API string is too large"))
    else
      copied ← to_checked "napi_get_value_string_utf8 failed" (copy (n + 1));
      Ok (Some copied)
  else Ok None.

(** A number converts to an integer exactly when it is that integer and fits; nothing
    is rounded or wrapped, and infinities and NaN are refused. A string converts to its
    bytes, whatever they are, when the host copies all that fits before the final zero. *)
Theorem napi_conversions_exact :
  (forall min max x z, integer_from min max (Some x) = Some z <->
     min <= z <= max /\ exists m e, x = Finite m e /\
       (if 0 <=? e then z = m * 2 ^ e else z * 2 ^ (- e) = m)) /\
  (forall t, zlen t < u64_modulus - 1 ->
     string_from (Some true) (Some (zlen t)) (fun n => Some (firstn (Z.to_nat (n - 1)) t)) = Ok (Some t)).
Proof.
  split.
  - intros min max x z. unfold integer_from. split.
    + intros Hx. destruct (integral x) as [z'|] eqn:Hi; [|done].
      destruct ((z' <? min) || (z' >? max)) eqn:Hr; simplify_eq.
      apply orb_false_iff in Hr as [?%Z.ltb_ge Hmax]. rewrite Z.gtb_ltb in Hmax. apply Z.ltb_ge in Hmax.
      split; [lia|]. destruct x as [m e| |]; try done. exists m, e. split; [done|]. simpl in Hi.
      destruct (0 <=? e) eqn:He; [by simplify_eq|]. apply Z.leb_gt in He.
      destruct (m mod 2 ^ (- e) =? 0) eqn:Hm; simplify_eq. apply Z.eqb_eq in Hm.
      assert (0 < 2 ^ (- e)) by (apply Z.pow_pos_nonneg; lia).
      rewrite (Z.div_mod m (2 ^ (- e))) at 2 by lia. lia.
    + intros (Hr & m & e & -> & Hz). simpl.
      assert ((z <? min) || (z >? max) = false) as Hrange.
      { apply orb_false_iff. rewrite Z.gtb_ltb. split; apply Z.ltb_ge; lia. }
      destruct (0 <=? e) eqn:He; [by subst; rewrite Hrange|]. apply Z.leb_gt in He.
      assert (0 < 2 ^ (- e)) by (apply Z.pow_pos_nonneg; lia).
      subst m. rewrite Z.mod_mul, Z.div_mul by lia. simpl. by rewrite Hrange.
  - intros t Ht. unfold string_from, to_checked. simpl.
    assert (zlen t =? u64_modulus - 1 = false) as -> by (apply Z.eqb_neq; lia).
    simpl. rewrite Z.add_simpl_r. unfold zlen. by rewrite Nat2Z.id, firstn_all.
Qed.
Lemma napi_conversions_exact_witness :
  int_from (Some (Finite 3 (-1))) = None /\ unsigned_from (Some (Finite 6 (-1))) = Some 3 /\
  string_from (Some true) (Some 2) (fun n => Some (firstn (Z.to_nat (n - 1)) (lit "ab"))) = Ok (Some (lit "ab")).
Proof.
  split_and!; [reflexivity|reflexivity|]. apply (proj2 napi_conversions_exact (lit "ab")). reflexivity.
Defined.
End NapiConverters.

(** ** Concrete hosts *)

Module Sample.
(** A value that was not used before. *)
Definition used (e : event) : value :=
  match e with
  | DidReference _ v | DidTypeTag v _ | DidWrap v _ | DidCreateExternal v _ | DidCreateFunction v _
  | DidDefineClass v _ | DidAddFinalizer v _ | DidDefine _ _ v | DidNewInstance _ v => v
  | _ => O
  end.
Definition unused (t : list event) : value := S (max_list (map used t)).

Fixpoint find {A} (f : event -> option A) (t : list event) : option A :=
  match t with [] => None | e :: t => match f e with Some a => Some a | None => find f t end end.

Definition tag_of (t : list event) (v : value) : option class :=
  find (fun e => match e with DidTypeTag w c => if decide (w = v) then Some c else None | _ => None end) t.
Definition wrap_of (t : list event) (v : value) : option pointer :=
  find (fun e => match e with DidWrap w p => if decide (w = v) then Some p else None | _ => None end) t.

(** Everything succeeds that [tag], [wrap] and [lookup] allow. *)
Definition sample_host (tag wrap : bool) (lookup : bool) : host :=
  mk_host
    (fun t v => Some (length t))
    (fun t r => if lookup then Some O else None)
    (fun t v c => tag && bool_decide (tag_of t v = None))
    (fun t v c => if decide (v = O) then None else Some (bool_decide (tag_of t v = Some c)))
    (fun t v p => wrap && bool_decide (wrap_of t v = None))
    (fun t v => wrap_of t v)
    (fun t d => Some (unused t))
    (fun t v => find (fun e => match e with DidCreateExternal w d => if decide (w = v) then Some d else None | _ => None end) (reverse t))
    (fun t p => Some (unused t))
    (fun t p => Some (unused t))
    (fun t v p => true)
    (fun t v n => Some O)
    (fun t v n w => true)
    unused
    (fun t => O)
    (fun t f => Some (unused t)).
Definition good_host := sample_host true true true.

(** A host with two values of others: an object wraps the pointer 99, an external holds the
    pointer 77. *)
Definition foreign_object : value := 42.
Definition foreign_external : value := 43.
Definition foreign_host : host := mk_host
  (napi_create_reference good_host) (napi_get_reference_value good_host)
  (napi_type_tag_object good_host) (napi_check_object_type_tag good_host)
  (fun t v p => bool_decide (v ≠ foreign_object) && napi_wrap good_host t v p)
  (fun t v => match napi_unwrap good_host t v with Some p => Some p | None => if decide (v = foreign_object) then Some 99%nat else None end)
  (napi_create_external good_host)
  (fun t v => if decide (v = foreign_external) then Some 77%nat else napi_get_value_external good_host t v)
  (napi_create_function good_host) (napi_define_class good_host) (napi_add_finalizer good_host)
  (napi_get_named_property good_host) (napi_set_named_property good_host) (napi_create_object good_host)
  (napi_get_undefined good_host) (napi_new_instance good_host).

Lemma find_None {A} (f : event -> option A) t e : find f t = None -> e ∈ t -> f e = None.
Proof.
  induction t as [|x t IH]; simpl; [by intros _ ?%not_elem_of_nil|].
  destruct (f x) eqn:Hx; [done|]. intros Hf [->|Hin]%elem_of_cons; auto.
Qed.
Lemma find_Some {A} (f : event -> option A) t a : find f t = Some a -> exists e, e ∈ t /\ f e = Some a.
Proof.
  induction t as [|x t IH]; simpl; [done|]. destruct (f x) eqn:Hx.
  - intros [= ->]. exists x. split; [left|done].
  - intros Hf. destruct (IH Hf) as (e & ? & ?). exists e. split; [by right|done].
Qed.
Lemma find_app {A} (f : event -> option A) t t' :
  find f (t ++ t') = match find f t with Some a => Some a | None => find f t' end.
Proof. induction t as [|x t IH]; simpl; [done|]. by destruct (f x). Qed.
Lemma find_all_None {A} (f : event -> option A) t : (forall e, e ∈ t -> f e = None) -> find f t = None.
Proof.
  induction t as [|x t IH]; simpl; intros Hf; [done|]. rewrite (Hf x) by left. apply IH.
  intros e He. apply Hf. by right.
Qed.

#[global] Instance sample_laws tag wrap lookup : HostLaws (sample_host tag wrap lookup).
Proof.
  split; cbn.
  - intros t v c c' Hin. rewrite bool_decide_eq_false_2, andb_false_r; [done|].
    intros Hf. pose proof (find_None _ _ _ Hf Hin) as Hx. simpl in Hx. by case_decide.
  - intros t v p q Hin. rewrite bool_decide_eq_false_2, andb_false_r; [done|].
    intros Hf. pose proof (find_None _ _ _ Hf Hin) as Hx. simpl in Hx. by case_decide.
  - intros t v c. case_decide; [done|]. intros [= Hb%bool_decide_eq_true]. apply find_Some in Hb as (e & Hin & He).
    destruct e; simplify_eq/=; case_decide; by simplify_eq.
  - done.
  - intros t v p q _ Hb. apply find_Some in Hb as (e & Hin & He).
    destruct e; simplify_eq/=; case_decide; by simplify_eq.
Qed.

#[global] Instance good_host_laws : HostLaws good_host := sample_laws true true true.

#[global] Instance foreign_laws : HostLaws foreign_host.
Proof.
  pose proof good_host_laws as []. split; cbn [foreign_host NapiBackend.napi_type_tag_object NapiBackend.napi_check_object_type_tag
    NapiBackend.napi_wrap NapiBackend.napi_unwrap NapiBackend.napi_get_undefined]; try done.
  - intros t v p q Hin. rewrite (wrap_once0 _ _ _ _ Hin). apply andb_false_r.
  - intros t v p q Hin. destruct (napi_unwrap good_host t v) as [p'|] eqn:Hu; [intros [= <-]; eauto|].
    exfalso. pose proof (find_None _ _ _ Hu Hin) as Hx. simpl in Hx. by case_decide.
Qed.

#[global] Instance sample_externals tag wrap lookup : ExternalLaws (sample_host tag wrap lookup).
Proof.
  intros t t' v d Hno. cbn. rewrite reverse_app, reverse_cons, <- app_assoc, !find_app. simpl.
  rewrite find_all_None; [by rewrite decide_True|].
  intros [] Hin; try done. case_decide; [subst|done]. rewrite elem_of_reverse in Hin. exfalso. by eapply Hno.
Qed.

(** A class with a constructor of one argument, in an environment without natives. *)
Definition class_env : env_state := mk_env [] ∅ {[ 5%nat := ClassState 7 (Some 1%nat) ]} ∅ 6.
Definition target : class_target := mk_target 0 5.
Definition convert (c : class) (l : list value) : outcome (list nat) := Ok l.
Definition construct (c : class) (l : list nat) : option exn :=
  match l with [13%nat] => Some foreign_exception | [9%nat] => Some (std_exception (lit "bad")) | _ => None end.
Definition js_call (arg : value) : cb_info := mk_info true (Some 42%nat) [arg] (Some 5%nat).

Lemma class_env_owned : owned None class_env.
Proof.
  split; unfold wraps, tags; simpl; try done; try constructor.
  by intros v p ?%not_elem_of_nil.
Qed.
End Sample.

(** ** What the code does not guard against *)

Module Unguarded.
(** An exception that is no [std::exception] leaves the constructor of a class, while every
    other callback catches it. *)
Example foreign_exception_leaves :
  (class_constructor Sample.good_host Sample.convert Sample.construct (Sample.js_call 13) Sample.class_env).1
  = Throw foreign_exception.
Proof. by vm_compute. Qed.

(** The constructor, called on an object that others have wrapped, fails and leaves its tag
    on the object; a checked receiver is then the pointer of the others. *)
Definition after_refusal : env_state :=
  (class_constructor Sample.foreign_host Sample.convert Sample.construct (Sample.js_call 3) Sample.class_env).2.
Example refused_object_passes_the_check :
  (class_constructor Sample.foreign_host Sample.convert Sample.construct (Sample.js_call 3) Sample.class_env).1 = Ok None /\
  (checked_unwrap_export_object Sample.foreign_host 7 (Some Sample.foreign_object) after_refusal).1 = Ok (Some 99%nat) /\
  natives after_refusal = ∅.
Proof. by vm_compute. Qed.

(** The external of others is read as a handoff record. *)
Example foreign_external_is_read :
  (class_constructor Sample.foreign_host Sample.convert Sample.construct (Sample.js_call Sample.foreign_external) Sample.class_env).1
  = Undefined.
Proof. by vm_compute. Qed.
End Unguarded.

(** ** Witnesses *)


Lemma export_object_settled_witness :
  let make h := make_export_object_impl h Sample.convert Sample.construct 7 (Some Sample.target) [1%nat] Sample.class_env in
  owned None (make Sample.good_host).2 /\ natives (make Sample.good_host).2 = {[ 6%nat := 7%nat ]} /\
  (make (Sample.sample_host false true true)).1 = Undefined /\
  natives (make (Sample.sample_host true true false)).2 = {[ 6%nat := 7%nat ]} /\
  6%nat ∉ (wraps (make (Sample.sample_host true true false)).2).*2.
Proof.
  pose proof (fun h laws externals => @export_object_settled _ h Sample.convert Sample.construct laws externals 7 (Some 1%nat)
    Sample.target [1%nat] Sample.class_env Sample.class_env_owned eq_refl) as H.
  pose proof (H Sample.good_host _ _) as H1. pose proof (H (Sample.sample_host true true false) _ _) as H2. clear H.
  vm_compute in H1, H2 |- *. split_and!; [apply H1|apply H1|reflexivity|apply H2|apply H2].
Defined.

Lemma napi_checked_receiver_witness :
  natives (mk_env [DidTypeTag 42 7; DidWrap 42 6] {[ 6%nat := 7%nat ]} ∅ ∅ 7) !! 6%nat = Some 7%nat.
Proof.
  set (s := mk_env _ _ _ _ _).
  assert (owned None s) as Hs.
  { split; try done.
    - intros p c Hp. cbn in Hp. apply lookup_singleton_Some in Hp as [<- <-]. right. exists 42%nat. split; left.
    - intros v p Hin. apply list_elem_of_singleton in Hin. simplify_eq. exists 7%nat. split; [done|left].
    - apply NoDup_singleton.
    - apply NoDup_singleton.
    - apply NoDup_singleton.
    - intros p c Hp. cbn in Hp. apply lookup_singleton_Some in Hp as [<- <-]. simpl. lia. }
  apply (napi_checked_receiver Sample.good_host 7 (Some 42%nat) s 6 s Hs); [|vm_compute; reflexivity].
  intros o [= <-] c Hin. apply list_elem_of_singleton in Hin. exists 6%nat. left.
Defined.

Lemma holders_settled_witness :
  match make_function Sample.good_host 3 Sample.class_env with
  | (Ok f, s') => DidCreateFunction f 6 ∈ events s'
  | _ => False
  end.
Proof.
  pose proof (proj1 (holders_settled Sample.good_host Sample.class_env 7 0 "Shape" 3 eq_refl)) as H.
  vm_compute in H |- *. apply H.
Defined.

Lemma callback_never_throws_witness :
  callback napi_throw_error (Some 1%nat) (fun _ => throw (bad_conversion (lit "bad"))) (Sample.js_call 3) Sample.class_env
  = (Ok None, with_event (DidThrowError (lit "bad")) Sample.class_env).
Proof.
  destruct (callback_never_throws (Some 1%nat) (fun _ => throw (bad_conversion (lit "bad"))) (Sample.js_call 3)
    Sample.class_env) as (_ & _ & Haccept).
  destruct (Haccept eq_refl) as [_ Hthrow]. exact (Hthrow (bad_conversion (lit "bad")) _ eq_refl).
Defined.
