(* ===== verification/NapiCalls.v ===== *)
(** * backends/napi.h: calls from JavaScript

    The Node-API backend as a backend of export dispatch, and the functions that
    [make_function] gives to JavaScript: what a call of one does, from its call information
    to the value it returns or the error it leaves. The converters are those of
    napi_converters.h, and objects are bound as arguments and as receivers. *)

From Stdlib Require Import ZArith Lia.
From stdpp Require Import base list gmap.
From S2P Require Import Prelude Interface ExportDispatch DirectDispatch NapiBackend.
Import NapiConverters.

(** ** The backend *)

(** The functions of Node-API that the converters call; [None] is a status other than
    [napi_ok]. [is_string] is [napi_typeof] compared with [napi_string]. *)
Record scalars := mk_scalars {
  napi_get_value_double : trace -> value -> option double;
  is_string : trace -> value -> option bool;
  napi_get_value_string_size : trace -> value -> option Z;
  napi_get_value_string_utf8 : trace -> value -> Z -> option text;
  napi_create_int32 : trace -> Z -> option value;
  napi_create_uint32 : trace -> Z -> option value;
  napi_create_string_utf8 : trace -> text -> Z -> option value
}.

Section Calls.
Context {U : Type} `{ErrorPolicy} (h : host) (sc : scalars).
(** The environment, and the state of the user's functions. *)
Abbreviation W := (env_state * U)%type.
Abbreviation M := (eff W).

(** [export_argument::try_make]: [from_optional], or [try_bind_export_object]. *)
Definition napi_try_make (t : param) (v : value) : eff env_state (option cpp_value) := fun s =>
  let tr := events s in
  match t with
  | PInt => (Ok (AInt <$> int_from (napi_get_value_double sc tr v)), s)
  | PUnsigned => (Ok (AUnsigned <$> unsigned_from (napi_get_value_double sc tr v)), s)
  | PString =>
      (o ← string_from (is_string sc tr v) (napi_get_value_string_size sc tr v)
             (napi_get_value_string_utf8 sc tr v); Ok (option_map AString o), s)
  | PObject c => ((p ← try_bind_export_object_impl h c (Some v); mret (option_map AObject p)) : eff env_state _) s
  end.

(** [export_argument::get]: of an object, its native, which is read. *)
Definition napi_get (t : param) (n : cpp_value) : eff env_state cpp_value := fun s =>
  match n with
  | AObject p => match natives s !! p with Some _ => (Ok n, s) | None => (Undefined, s) end
  | _ => (Ok n, s)
  end.

(** [to_export_result]: a type without a converter does not compile. *)
Definition napi_to (t : param) (r : cpp_value) : eff env_state value := fun s =>
  match t, r with
  | PInt, AInt z => (int_to (napi_create_int32 sc (events s)) z, s)
  | PUnsigned, AUnsigned z => (unsigned_to (napi_create_uint32 sc (events s)) z, s)
  | PString, AString x => (string_to (napi_create_string_utf8 sc (events s)) x, s)
  | _, _ => (Undefined, s)
  end.

(** [napi_backend] as the backend of export dispatch: it has no [export_probe_policy], and
    its converters have no probe. *)
#[export] Instance napi_backend : ExportBackend param value cpp_value cpp_value cpp_value W := {|
  uses_rpc_export_probe := false;
  is_bridge_descriptor t := match t with PObject _ => true | _ => false end;
  argument_probe t d := undefined_behaviour;
  argument_try_make t d := o ← on_env (napi_try_make t d); mret (o, d);
  argument_prepare t d := on_env (napi_try_make t d);
  argument_get t n := on_env (napi_get t n);
  to_export_result t r := on_env (napi_to t r);
  undefined_value := on_env (ask (napi_get_undefined h))
|}.

(** ** The functions given to JavaScript *)

Context (order : nat -> list nat).
Abbreviation function := (target (T := param) (A := cpp_value) (R := cpp_value) (W := W)).

(** What a callback holder holds: the binder of a free signature, of a member of a class,
    or of an overload group. *)
Inductive callable_binder :=
| FreeBinder (c : contract param) (f : function)
| MemberBinder (policy : member_receiver_policy) (cls : class) (c : contract param) (f : pointer -> function)
| OverloadBinder (b : export_overload_binder (T := param) (A := cpp_value) (R := cpp_value) (W := W)).

(** [call_indices]: the value of the binder, or the undefined value after a void one. *)
Definition call_indices (call : option (M (option value))) : M (option value) :=
  match call with
  | None => undefined_behaviour
  | Some call =>
      r ← call;
      match r with
      | Some v => mret (Some v)
      | None => v ← on_env (ask (napi_get_undefined h)); mret (Some v)
      end
  end.

(** [typed_callback_holder::call_signature]. *)
Definition call_signature (c : contract param) (f : function) (args : list value) : M (option value) :=
  call_indices (export_callable_binder_call order c f args).

(** [typed_member_callback_holder::call_signature]: the receiver goes to the binder. *)
Definition member_call_signature (policy : member_receiver_policy) (cls : class) (c : contract param)
    (f : pointer -> function) (receiver : option value) (args : list value) : M (option value) :=
  call_indices (export_member_binder_call order (fun _ => on_env (bind_member_export_object h policy cls receiver))
    c f (default O receiver) args).

(** [argv_accessor] over a buffer of one more than the arity of the group. The runtime
    fills what was not passed with the undefined value, drops what is too much, and tells
    how many there were. *)
Definition static_arity (b : export_overload_binder (T := param) (A := cpp_value) (R := cpp_value) (W := W)) : nat :=
  max_callable_arity (map callable_arity (overloads b)).
Definition buffer (n : nat) (undefined : value) (args : list value) : list value :=
  take n args ++ replicate (n - length args) undefined.
Definition overload_dispatch (b : export_overload_binder (T := param) (A := cpp_value) (R := cpp_value) (W := W))
    (args : list value) : M (option value) := fun w =>
  let slots := buffer (S (static_arity b)) (napi_get_undefined h (events w.1)) args in
  let '(r, f) := dispatch_optional order b (length args) (Some (static_arity b)) (mk_frame slots w) in
  (r, world f).

(** The static type of a callback, and the call of what its holder holds. *)
Definition expected (b : callable_binder) : option nat :=
  match b with
  | FreeBinder c _ | MemberBinder _ _ c _ => Some (callable_arity c)
  | OverloadBinder _ => None
  end.
Definition invoke (b : callable_binder) (receiver : option value) (args : list value) : M (option value) :=
  match b with
  | FreeBinder c f => call_signature c f args
  | MemberBinder policy cls c f => member_call_signature policy cls c f receiver args
  | OverloadBinder b => overload_dispatch b args
  end.

(** The call of the holder behind the data, which must be there and of the static type of
    the callback; [binders] tells holders apart. *)
Definition invoke_holder (binders : nat -> callable_binder) (kind : nat) (info : cb_info) (args : list value)
  : M (option value) :=
  holder ← gets (fun w : W => match data info with Some p => holders w.1 !! p | None => None end);
  match holder with
  | Some (CallbackHolder n) => if decide (n = kind) then invoke (binders kind) (this info) args else undefined_behaviour
  | _ => undefined_behaviour
  end.

(** The callback that [make_function] gave to the runtime, on what the runtime passes. *)
Definition function_entry (binders : nat -> callable_binder) (kind : nat) (info : cb_info) : M (option value) :=
  callback (fun m => on_env (napi_throw_error m)) (expected (binders kind)) (invoke_holder binders kind info) info.

(** ** What a call means *)

(** What the arguments are read as. *)
Definition reads (s : env_state) (t : param) (v : value) : option cpp_value :=
  let tr := events s in
  match t with
  | PInt => AInt <$> int_from (napi_get_value_double sc tr v)
  | PUnsigned => AUnsigned <$> unsigned_from (napi_get_value_double sc tr v)
  | PString =>
      match is_string sc tr v, napi_get_value_string_size sc tr v with
      | Some true, Some n => AString <$> napi_get_value_string_utf8 sc tr v (n + 1)
      | _, _ => None
      end
  | PObject c =>
      match napi_check_object_type_tag h tr v c with
      | Some true => AObject <$> napi_unwrap h tr v
      | _ => None
      end
  end.

(** The native of a receiver of the class. *)
Definition receiver_of (policy : member_receiver_policy) (s : env_state) (cls : class) (v : option value) : option pointer :=
  v ← v;
  match policy with
  | trusted_member_receiver_policy => napi_unwrap h (events s) v
  | checked_member_receiver_policy =>
      match napi_check_object_type_tag h (events s) v cls with
      | Some true => napi_unwrap h (events s) v
      | _ => None
      end
  end.

(** The local call a call from JavaScript stands for, or why there is none. *)
Definition local_call (s : env_state) (b : callable_binder) (receiver : option value) (args : list value)
  : string + M value :=
  let take c := arguments (reads s) (fun _ n => n) (parameters c) args in
  match b with
  | FreeBinder c f =>
      if negb (length args =? callable_arity c)%nat then inl "dynabridge N-API callback received invalid call info"
      else match take c with
           | Some xs => inr (answer f c xs)
           | None => inl "dynabridge export argument conversion failed"
           end
  | MemberBinder policy cls c f =>
      if negb (length args =? callable_arity c)%nat then inl "dynabridge N-API callback received invalid call info"
      else match receiver_of policy s cls receiver with
           | None => inl "dynabridge export object has no proxy receiver"
           | Some p =>
               match take c with
               | Some xs => inr (answer (f p) c xs)
               | None => inl "dynabridge export member argument conversion failed"
               end
           end
  | OverloadBinder b =>
      match chosen (reads s) (fun _ n => n) (length args) None args (overloads b) with
      | Some (c, xs) => inr (answer (callable_ b) c xs)
      | None => inl "dynabridge N-API overload has no matching signature"
      end
  end%string.

(** What JavaScript sees of an outcome: a value, or the pending error. *)
Definition seen (fallback : string) (r : outcome value * W) : outcome (option value) * W :=
  match r with
  | (Ok v, w) => (Ok (Some v), w)
  | (Throw e, w) => (Ok None, (with_event (DidThrowError (default (lit fallback) (what e))) w.1, w.2))
  | (Aborted, w) => (Aborted, w)
  | (Undefined, w) => (Undefined, w)
  end.

(** Documented: the kind of every value is told; a string of a size that memory can hold is
    copied as far as the buffer reaches. *)
Class ReadableScalars : Prop := {
  kind_told t v : is_Some (is_string sc t v);
  string_copied t v : is_string sc t v = Some true ->
    exists x, napi_get_value_string_size sc t v = Some (zlen x) /\ zlen x < u64_modulus - 1 /\
      forall n, 0 < n -> napi_get_value_string_utf8 sc t v n = Some (firstn (Z.to_nat (n - 1)) x)
}.

(** ** Proofs *)

Context (order_permutes : forall n, Permutation (order n) (seq 0 n)).
Context `{!HostLaws h, !ReadableScalars} (exceptions : has_exceptions = true).

Lemma try_make_reads t v s : napi_try_make t v s = (Ok (reads s t v), s).
Proof.
  destruct t; try done.
  - unfold napi_try_make, reads, string_from. destruct (kind_told (events s) v) as [[] Hk]; rewrite Hk; [|done].
    destruct (string_copied (events s) v Hk) as (x & -> & Hx & Hcopy). cbn.
    rewrite (proj2 (Z.eqb_neq _ _)) by lia. rewrite Hcopy by (unfold zlen; lia). done.
  - unfold napi_try_make, reads, try_bind_export_object_impl, checked_unwrap_export_object, ask, mbind, eff_bind.
    by destruct (napi_check_object_type_tag h (events s) v c) as [[]|].
Qed.

(** In an environment whose natives are owned, genuine arguments are read, and objects live. *)
Definition passable (s : env_state) (v : value) : Prop := genuine s v \/ exists t, v = napi_get_undefined h t.
Lemma reads_env s (u : U) vs :
  owned None s -> (forall v, v ∈ vs -> passable s v) -> Reads (fun _ => True) (reads s) (fun _ n => n) vs (eq (s, u)).
Proof.
  intros Hs Hgen. split; [done| |].
  - intros t v w _ _ <-. exists (s, u). split; [|done]. cbn. unfold mbind, eff_bind, on_env. cbn. by rewrite try_make_reads.
  - intros t v n w _ Hv Hn <-. specialize (Hgen v Hv). exists (s, u). split; [|done].
    change (on_env (napi_get t n) (s, u) = (Ok n, (s, u))).
    unfold on_env, napi_get. cbn [fst snd]. destruct n as [| | |p]; try done.
    destruct t; cbn in Hn; try (by repeat (destruct_match_in Hn; simplify_eq/=)).
    + by destruct (int_from _).
    + by destruct (unsigned_from _).
    + destruct (is_string _ _ _) as [[]|]; try done. destruct (napi_get_value_string_size _ _ _); try done.
      by destruct (napi_get_value_string_utf8 _ _ _ _).
    + assert (genuine s v) as Hg.
      { destruct Hgen as [|[tr ->]]; [done|]. exfalso. apply (undefined_untagged (events s) tr c).
        by destruct (napi_check_object_type_tag h (events s) _ c) as [[]|]. }
      destruct (napi_checked_receiver h c (Some v) s p s) as (_ & Hp & _); [done|by intros o [= <-]| |by rewrite Hp].
      unfold checked_unwrap_export_object, ask, mbind, eff_bind.
      destruct (napi_check_object_type_tag h (events s) v c) as [[]|]; try done.
      by destruct (napi_unwrap h (events s) v); simplify_eq/=.
Qed.

Lemma call_indices_answer (c : contract param) (f : function) xs w :
  call_indices (Some (r ← f c xs;
     match result_type c with
     | Some t => d ← to_export_result t r; mret (Some d)
     | None => mret None
     end)) w = (v ← answer f c xs; mret (Some v)) w.
Proof.
  unfold call_indices, answer, mbind, eff_bind. destruct (f c xs w) as [[r| | |] w']; try done.
  destruct (result_type c) as [t|]; cbn -[napi_to]; [|done].
  unfold on_env, mret, eff_ret. by destruct (napi_to t r w'.1) as [[] ?].
Qed.

Lemma call_indices_ext (m m' : M (option value)) w : m w = m' w -> call_indices (Some m) w = call_indices (Some m') w.
Proof. unfold call_indices, mbind, eff_bind. by intros ->. Qed.

(** A binder of one signature, with the conversions done. *)
Lemma call_indices_tuple message (c : contract param) (f : function) args s u :
  owned None s -> (forall v, v ∈ args -> genuine s v) -> length args = callable_arity c ->
  call_indices (Some (with_tuple args (fun _ _ => invoke_converted order (lit message) (parameters c)
    (fun xs => r ← f c xs;
       match result_type c with
       | Some t => d ← to_export_result t r; mret (Some d)
       | None => mret None
       end)))) (s, u) =
  match arguments (reads s) (fun _ n => n) (parameters c) args with
  | Some xs => (v ← answer f c xs; mret (Some v)) (s, u)
  | None => (Throw (bad_conversion (lit message)), (s, u))
  end.
Proof.
  intros Hs Hg Hl. pose proof (reads_env s u args Hs (fun v Hv => or_introl (Hg v Hv))) as HR.
  assert (forall X (call : list cpp_value -> M X),
    invoke_converted order (lit message) (parameters c) call (mk_frame args (s, u)) =
    match arguments (reads s) (fun _ n => n) (parameters c) args with
    | Some xs => on_world (call xs) (mk_frame args (s, u))
    | None => raise (bad_conversion (lit message)) (mk_frame args (s, u))
    end) as Hinvoke.
  { intros X call. destruct (invoke_converted_direct order order_permutes (HR := HR) (lit message) (parameters c) call (s, u))
      as (w & <- & Hi); [by apply Forall_true|unfold callable_arity in Hl; lia|done..]. }
  destruct (arguments (reads s) _ _ _) as [xs|] eqn:Ha.
  - rewrite <- call_indices_answer. apply call_indices_ext. unfold with_tuple.
    rewrite Hinvoke. apply on_world_leaves.
  - unfold call_indices, mbind at 1, eff_bind at 1, with_tuple.
    rewrite Hinvoke. unfold raise, DYNABRIDGE_RAISE. by rewrite exceptions.
Qed.

Lemma member_receiver policy cls receiver s (u : U) :
  on_env (bind_member_export_object h policy cls receiver) (s, u) = (Ok (receiver_of policy s cls receiver), (s, u)).
Proof.
  unfold on_env, bind_member_export_object, checked_unwrap_export_object, receiver_of, ask, mbind, eff_bind.
  destruct policy, receiver as [v|]; try done. cbn.
  by destruct (napi_check_object_type_tag h (events s) v cls) as [[]|].
Qed.

Lemma receiver_live s cls receiver q :
  owned None s -> (forall v, receiver = Some v -> genuine s v) ->
  receiver_of checked_member_receiver_policy s cls receiver = Some q -> natives s !! q = Some cls.
Proof.
  intros Hs Hg Hq. destruct (napi_checked_receiver h cls receiver s q s) as (_ & Hp & _); [done|done| |done].
  unfold receiver_of in Hq. unfold checked_unwrap_export_object, ask, mbind, eff_bind.
  destruct receiver as [v|]; [|done]. cbn in Hq.
  destruct (napi_check_object_type_tag h (events s) v cls) as [[]|]; try done. by rewrite Hq.
Qed.

Lemma chosen_buffer s undefined cs args :
  let n := max_callable_arity (map callable_arity cs) in
  forall cs', cs' ⊆ cs ->
  chosen (reads s) (fun _ n => n) (length args) (Some n) (buffer (S n) undefined args) cs' =
  chosen (reads s) (fun _ n => n) (length args) None args cs'.
Proof.
  intros n. induction cs' as [|c cs' IH]; intros Hsub; [done|]. simpl.
  rewrite IH by set_solver. clear IH.
  assert (callable_arity c <= n)%nat as Hc.
  { apply max_callable_arity_spec, list_elem_of_fmap. exists c. split; [done|set_solver]. }
  rewrite (proj2 (Nat.leb_le _ _) Hc).
  destruct (is_unmatched_free_callable c); [done|]. simpl.
  destruct (Nat.eqb_spec (length args) (callable_arity c)) as [Hl|]; [|done].
  unfold buffer. rewrite take_ge by lia. by rewrite arguments_app by (unfold callable_arity in Hl; lia).
Qed.

Lemma overload_dispatch_run b args s u :
  owned None s -> (forall v, v ∈ args -> genuine s v) ->
  overload_dispatch b args (s, u) =
    match chosen (reads s) (fun _ n => n) (length args) None args (overloads b) with
    | Some (c, xs) => (v ← answer (callable_ b) c xs; mret (Some v)) (s, u)
    | None => (Ok None, (s, u))
    end.
Proof.
  intros Hs Hg. unfold overload_dispatch, dispatch_optional. cbn [fst].
  set (slots := buffer _ _ args).
  assert (forall v, v ∈ slots -> passable s v) as Hslots.
  { intros v [Hv%elem_of_take|[-> _]%elem_of_replicate]%elem_of_app; [left|right]; eauto.
    apply Hg. destruct Hv as (i & Hv & _). by eapply list_elem_of_lookup_2. }
  pose proof (reads_env s u slots Hs Hslots) as HR.
  assert (Forall (fun c => length args = callable_arity c -> (length args <= length slots)%nat) (overloads b)) as Hfit.
  { apply Forall_forall. intros c Hc Hl.
    assert (callable_arity c <= static_arity b)%nat.
    { apply max_callable_arity_spec, list_elem_of_fmap. eauto. }
    unfold slots, buffer. rewrite length_app, length_take, length_replicate. lia. }
  destruct (dispatch_direct order order_permutes (callable_ b) (HR := HR) (overloads b) (length args)
    (Some (static_arity b)) (s, u)) as (w & <- & Hd); [|exact Hfit|done|].
  { apply Forall_forall. intros c _. by apply Forall_true. }
  rewrite Hd. clear Hfit Hd. unfold slots, static_arity. rewrite chosen_buffer by done.
  destruct (chosen _ _ _ _ _ _) as [[c xs]|]; [|done].
  unfold mbind, eff_bind, on_world, mret, eff_ret. cbn [world]. by destruct (answer _ _ _ _) as [[] ?].
Qed.

Lemma catch_all_seen fallback (m : M (option value)) w (r : outcome value) w' :
  m w = (v ← r; Ok (Some v), w') ->
  catch_all (fun m => on_env (napi_throw_error m)) fallback m w = seen fallback (r, w').
Proof.
  intros Hm. unfold catch_all, catch_std. rewrite Hm. destruct r as [v|e| |]; try done. cbn. by destruct (what e).
Qed.

Lemma bind_some {X} (m : M X) w :
  (v ← m; mret (Some v)) w = (v ← (m w).1; Ok (Some v), (m w).2).
Proof. unfold mbind at 1, eff_bind. by destruct (m w) as [[] ?]. Qed.

(** A callback that is accepted, around what its binder does. *)
Lemma entry_typed binders kind n info w r w' :
  expected (binders kind) = Some n -> info_ok info = true -> data info ≠ None -> length (argv info) = n ->
  invoke_holder binders kind info (argv info) w = (v ← r; Ok (Some v), w') ->
  function_entry binders kind info w = seen (fallback (expected (binders kind))) (r, w').
Proof.
  intros He Hok Hd Hl Hm. unfold function_entry, callback. rewrite He, Hok. cbn [andb fallback].
  rewrite (proj2 (Nat.eqb_eq _ _) Hl), bool_decide_eq_true_2 by done. cbn [andb]. by apply catch_all_seen.
Qed.
Lemma entry_overload binders kind info w r w' :
  expected (binders kind) = None -> info_ok info = true -> data info ≠ None ->
  invoke_holder binders kind info (argv info) w = (v ← r; Ok (Some v), w') ->
  function_entry binders kind info w = seen (fallback (expected (binders kind))) (r, w').
Proof.
  intros He Hok Hd Hm. unfold function_entry, callback. rewrite He, Hok. cbn [andb fallback].
  rewrite bool_decide_eq_true_2 by done. apply catch_all_seen.
  unfold mbind at 1, eff_bind at 1. rewrite Hm. by destruct r.
Qed.

Lemma holder_called binders kind info p s u args :
  data info = Some p -> holders s !! p = Some (CallbackHolder kind) ->
  invoke_holder binders kind info args (s, u) = invoke (binders kind) (this info) args (s, u).
Proof.
  intros Hd Hh. unfold invoke_holder, gets, mbind, eff_bind. cbn [fst]. rewrite Hd, Hh. by rewrite decide_True.
Qed.

Lemma seen_refusal fallback e message (w : W) :
  what e = Some message -> seen fallback (Throw e, w) = (Ok None, (with_event (DidThrowError message) w.1, w.2)).
Proof. intros He. cbn. by rewrite He. Qed.

(** A wrong number of arguments is refused before the binder is looked at. *)
Lemma entry_arity binders kind n info s u :
  expected (binders kind) = Some n -> length (argv info) ≠ n ->
  function_entry binders kind info (s, u) =
    (Ok None, (with_event (DidThrowError (lit "dynabridge N-API callback received invalid call info")) s, u)).
Proof.
  intros He Hl. unfold function_entry, callback. rewrite He, (proj2 (Nat.eqb_neq _ _) Hl).
  by rewrite andb_false_r.
Qed.

(** The answer of a typed binder: a local call, or the refusal of its conversions. *)
Lemma entry_answers binders kind n info message (c : contract param) (f : function) s u :
  expected (binders kind) = Some n -> info_ok info = true -> data info ≠ None -> length (argv info) = n ->
  invoke_holder binders kind info (argv info) (s, u) =
    match arguments (reads s) (fun _ n => n) (parameters c) (argv info) with
    | Some xs => (v ← answer f c xs; mret (Some v)) (s, u)
    | None => (Throw (bad_conversion (lit message)), (s, u))
    end ->
  function_entry binders kind info (s, u) =
    match arguments (reads s) (fun _ n => n) (parameters c) (argv info) with
    | Some xs => seen (fallback (expected (binders kind))) (answer f c xs (s, u))
    | None => (Ok None, (with_event (DidThrowError (lit message)) s, u))
    end.
Proof.
  intros He Hok Hd Hl Hi. destruct (arguments _ _ _ _) as [xs|].
  - rewrite bind_some in Hi. rewrite (entry_typed _ _ _ _ _ _ _ He Hok Hd Hl Hi). by rewrite <- surjective_pairing.
  - rewrite (entry_typed _ _ _ _ _ (Throw (bad_conversion (lit message))) (s, u) He Hok Hd Hl Hi).
    by apply seen_refusal.
Qed.

(** C2: a call from JavaScript is a local call. In an environment that owns its natives, a
    function made for a free signature, a member or an overload group calls exactly the
    C++ function that [local_call] names, on the arguments it names: the first
    signature of the group that reads them, on the native of a receiver. It returns the
    converted result; what the function throws becomes the pending error, and when there is
    no local call the error says why and nothing was run. The receiver of a checked member
    is a live native of its class. The receiver and the arguments may be any values but
    objects that a refused construction has left with a tag and without a native. *)
Theorem napi_call_is_local_call binders kind info p s u :
  owned None s -> (forall v, this info = Some v \/ v ∈ argv info -> genuine s v) ->
  info_ok info = true -> data info = Some p -> holders s !! p = Some (CallbackHolder kind) ->
  function_entry binders kind info (s, u) =
    match local_call s (binders kind) (this info) (argv info) with
    | inl m => (Ok None, (with_event (DidThrowError (lit m)) s, u))
    | inr call => seen (fallback (expected (binders kind))) (call (s, u))
    end /\
  (forall cls q, receiver_of checked_member_receiver_policy s cls (this info) = Some q -> natives s !! q = Some cls).
Proof.
  intros Hs Hgen Hok Hd Hh. split; [|by intros cls q; apply receiver_live; eauto].
  assert (data info ≠ None) as Hd' by congruence. assert (forall v, v ∈ argv info -> genuine s v) as Hg by eauto.
  pose proof (holder_called binders kind info p s u (argv info) Hd Hh) as Hi.
  destruct (binders kind) as [c f|policy cls c f|b] eqn:Hb; cbn [local_call invoke] in *.
  - destruct (Nat.eqb_spec (length (argv info)) (callable_arity c)) as [Hl|Hl]; cbn [negb];
      [|eapply entry_arity; [by rewrite Hb|done]].
    unfold call_signature, export_callable_binder_call in Hi. rewrite (proj2 (Nat.eqb_eq _ _) Hl) in Hi.
    rewrite (call_indices_tuple _ _ _ _ _ _ Hs Hg Hl) in Hi. rewrite <- Hb.
    erewrite entry_answers by (done || by rewrite Hb). by destruct (arguments _ _ _ _).
  - destruct (Nat.eqb_spec (length (argv info)) (callable_arity c)) as [Hl|Hl]; cbn [negb];
      [|eapply entry_arity; [by rewrite Hb|done]].
    unfold member_call_signature, export_member_binder_call in Hi. rewrite (proj2 (Nat.eqb_eq _ _) Hl) in Hi.
    rewrite (call_indices_ext _ _ _ (eff_bind_run _ _ _ _ _ (member_receiver policy cls (this info) s u))) in Hi.
    destruct (receiver_of policy s cls (this info)) as [q|].
    + rewrite (call_indices_tuple _ _ _ _ _ _ Hs Hg Hl) in Hi. rewrite <- Hb.
      erewrite entry_answers by (done || by rewrite Hb). by destruct (arguments _ _ _ _).
    + unfold call_indices, mbind at 1, eff_bind at 1, raise, DYNABRIDGE_RAISE in Hi. rewrite exceptions in Hi.
      rewrite (entry_typed binders kind (callable_arity c) info (s, u)
        (Throw (runtime_error (lit "dynabridge export object has no proxy receiver"))) (s, u));
        [by apply seen_refusal|by rewrite Hb|done..].
  - rewrite (overload_dispatch_run _ _ _ _ Hs Hg) in Hi. destruct (chosen _ _ _ _ _ _) as [[c xs]|].
    + rewrite bind_some in Hi. rewrite <- Hb. erewrite entry_overload; [|by rewrite Hb|done..|exact Hi].
      by rewrite <- surjective_pairing.
    + unfold function_entry, callback. rewrite Hb, Hok. cbn [andb expected].
      rewrite bool_decide_eq_true_2 by done. unfold catch_all, catch_std, mbind, eff_bind. by rewrite Hi.
Qed.
End Calls.

(** ** Functions of a sample environment *)

Module CallSample.
(** Even values are numbers, odd ones are the string of one letter. *)
Definition sc : scalars := mk_scalars
  (fun t v => if Nat.even v then Some (Finite (Z.of_nat v / 2) 0) else None)
  (fun t v => Some (Nat.odd v))
  (fun t v => Some 1)
  (fun t v n => Some (firstn (Z.to_nat (n - 1)) (lit "x")))
  (fun t z => Some (Z.to_nat (2 * z)))
  (fun t z => Some (Z.to_nat (2 * z)))
  (fun t x n => Some 1%nat).

#[global] Instance sc_readable : ReadableScalars sc.
Proof. split; cbn; [by eauto|]. intros t v _. exists (lit "x"). by split_and!. Qed.

(** An overload group on numbers, texts and objects of class 7, which logs its calls. *)
Definition f_int : contract param := mk_contract (Some PInt) [PInt; PInt] false.
Definition f_text : contract param := mk_contract (Some PInt) [PInt; PString] false.
Definition f_object : contract param := mk_contract None [PObject 7] false.
Definition log := list (list cpp_value).
Definition f : target (T := param) (A := cpp_value) (R := cpp_value) (W := env_state * log) := fun c args w =>
  match args with
  | [AInt 0; _] => (Throw foreign_exception, w)
  | _ => (Ok (AInt (zlen args)), (w.1, w.2 ++ [args]))
  end.
Definition binders (kind : nat) : callable_binder (U := log) := OverloadBinder (mk_binder [f_int; f_text; f_object] f).

(** The environment after the function was made. *)
Definition env : env_state := (make_function Sample.good_host 3 Sample.class_env).2.
Definition call (args : list value) : eff (env_state * log) (option value) :=
  function_entry Sample.good_host sc ExportDispatch.Sample.order binders 3 (mk_info true (Some 42%nat) args (Some 6%nat)).

Lemma env_owned : owned None env.
Proof.
  split; unfold wraps, tags; simpl; try done; try constructor.
  by intros v p ?%not_elem_of_nil.
Qed.

(** A number is no text; no object of the class was made; what the function throws, and
    calls that no signature takes, are errors. *)
Example no_signature : (call [8; 3; 5]%nat (env, [])).1 = Ok None /\ (call [8%nat] (env, [])).1 = Ok None.
Proof. by vm_compute. Qed.
Example foreign : call [0; 4]%nat (env, []) =
  (Ok None, (with_event (DidThrowError (lit "dynabridge N-API overload callback failed")) env, [])).
Proof. by vm_compute. Qed.
End CallSample.

Lemma napi_call_is_local_call_witness :
  CallSample.call [8; 3]%nat (CallSample.env, []) = (Ok (Some 4%nat), (CallSample.env, [[AInt 4; AString (lit "x")]])).
Proof.
  etransitivity.
  { apply (napi_call_is_local_call (H := ExportDispatch.Sample.exceptions) Sample.good_host CallSample.sc
      ExportDispatch.Sample.order ExportDispatch.Sample.order_permutes eq_refl CallSample.binders 3
      (mk_info true (Some 42%nat) [8; 3]%nat (Some 6%nat)) 6 CallSample.env [] CallSample.env_owned); try reflexivity.
    intros v _ c Hin. vm_compute in Hin. by apply not_elem_of_nil in Hin. }
  vm_compute. reflexivity.
Defined.
