(* ===== verification/NapiReferences.v ===== *)
(** * backends/napi.h: references, the cleanup of the environment, contexts and their caches

    [NapiBackend] records the references it makes; here they are the state. A reference is
    owned by an [object_t] or by the [constructor_reference] behind a [class_target_t], which
    a cleanup hook of the environment also reaches; a handle is usable while its scope is
    open. A program creates, moves, assigns, refreshes and destroys class targets and
    contexts, opens and closes scopes, and the environment may be torn down before it is
    over. *)

From Stdlib Require Import ZArith Lia.
From stdpp Require Import base list gmap gmultiset.
From S2P Require Import Prelude Ownership.

(** ** The environment *)

(** [napi_value]: the scope a handle belongs to, and the object it names. *)
Record handle := mk_handle { scope_of : nat; names : nat }.
#[export] Instance handle_eq_dec : EqDecision handle.
Proof. solve_decision. Defined.

(** The answers of Node-API, each a function of the number of calls before it: whether a
    call succeeds, and what a call of a function or a property lookup gives. *)
Record host := mk_host {
  create_reference_ok : nat -> bool;
  add_hook_ok : nat -> bool;
  reference_value_ok : nat -> bool;
  get_undefined_ok : nat -> bool;
  named_property : nat -> nat -> string -> option nat;
  call_function : nat -> nat -> nat -> list nat -> option nat;
  is_function : nat -> nat -> bool
}.

(** [class_target_t]; the environment of a target or a context is given or not. *)
Record class_target_t := mk_target {
  reference_ : option nat;
  target_env : bool;
  constructor_ref : option nat;
  state_ : option nat
}.
Record context_t := mk_context {
  env_ : bool;
  callable_ : option nat;
  callable_cache_ : option handle;
  this_arg_cache_ : option handle
}.

(** [references] are the live ones and [named] what they name; [boxes] the
    [constructor_reference]s, without a reference once they are cleaned up; [hooks] the
    cleanup hooks, the last added first; [calls] the functions called, with this and the
    arguments. *)
Record world := mk_world {
  clock : nat;
  env_alive : bool;
  scopes : list nat;
  next_scope : nat;
  references : gmultiset nat;
  named : gmap nat nat;
  next_reference : nat;
  boxes : gmap nat (option nat);
  next_box : nat;
  hooks : list nat;
  calls : list (nat * nat * list nat);
  targets : list class_target_t;
  contexts : list context_t
}.

(** The object that [undefined] is. *)
Definition undefined_object : nat := 0%nat.

Definition with_references (refs : gmultiset nat) (w : world) : world :=
  mk_world (clock w) (env_alive w) (scopes w) (next_scope w) refs (named w) (next_reference w) (boxes w) (next_box w)
    (hooks w) (calls w) (targets w) (contexts w).
Definition with_boxes (bs : gmap nat (option nat)) (next : nat) (hs : list nat) (w : world) : world :=
  mk_world (clock w) (env_alive w) (scopes w) (next_scope w) (references w) (named w) (next_reference w) bs next hs
    (calls w) (targets w) (contexts w).
Definition with_targets (ts : list class_target_t) (w : world) : world :=
  mk_world (clock w) (env_alive w) (scopes w) (next_scope w) (references w) (named w) (next_reference w) (boxes w)
    (next_box w) (hooks w) (calls w) ts (contexts w).
Definition with_contexts (cs : list context_t) (w : world) : world :=
  mk_world (clock w) (env_alive w) (scopes w) (next_scope w) (references w) (named w) (next_reference w) (boxes w)
    (next_box w) (hooks w) (calls w) (targets w) cs.
Definition with_scopes (ss : list nat) (next : nat) (w : world) : world :=
  mk_world (clock w) (env_alive w) ss next (references w) (named w) (next_reference w) (boxes w)
    (next_box w) (hooks w) (calls w) (targets w) (contexts w).

Section Backend.
Context (h : host).
Abbreviation M := (eff world).

(** A call of Node-API has no meaning without its environment. *)
Definition api {A} (f : nat -> A) : M A := fun w =>
  if env_alive w then
    (Ok (f (clock w)),
     mk_world (S (clock w)) (env_alive w) (scopes w) (next_scope w) (references w) (named w) (next_reference w) (boxes w)
       (next_box w) (hooks w) (calls w) (targets w) (contexts w))
  else (Undefined, w).
(** A handle is used in an open scope, and made in the current one. *)
Definition use_handle (v : handle) : M nat := fun w =>
  if decide (scope_of v ∈ scopes w) then (Ok (names v), w) else (Undefined, w).
Definition new_handle (object : nat) : M handle := fun w =>
  match scopes w with s :: _ => (Ok (mk_handle s object), w) | [] => (Undefined, w) end.

Definition check {A} (r : option A) (message : string) : M A :=
  match r with Some a => mret a | None => throw (runtime_error (lit message)) end.
Definition on_ok {A} (ok : bool) (a : A) : option A := if ok then Some a else None.

Definition add_reference (object : nat) : M nat := fun w =>
  (Ok (next_reference w),
   mk_world (clock w) (env_alive w) (scopes w) (next_scope w) ({[+ next_reference w +]} ⊎ references w)
     (<[next_reference w := object]> (named w)) (S (next_reference w)) (boxes w) (next_box w) (hooks w) (calls w)
     (targets w) (contexts w)).
Definition napi_create_reference (v : handle) : M (option nat) :=
  object ← use_handle v;
  ok ← api (create_reference_ok h);
  if (ok : bool) then r ← add_reference object; mret (Some r) else mret None.
Definition remove_reference (r : nat) : M unit := fun w =>
  if decide (r ∈ references w) then (Ok tt, with_references (references w ∖ {[+ r +]}) w) else (Undefined, w).
Definition napi_delete_reference (r : nat) : M unit := api (fun _ => tt) ;; remove_reference r.
Definition named_object (r : nat) : M nat := fun w =>
  match named w !! r with
  | Some object => if decide (r ∈ references w) then (Ok object, w) else (Undefined, w)
  | None => (Undefined, w)
  end.
Definition napi_get_reference_value (r : nat) : M (option handle) :=
  ok ← api (reference_value_ok h);
  object ← named_object r;
  v ← new_handle object;
  mret (on_ok ok v).
Definition napi_get_undefined : M (option handle) :=
  ok ← api (get_undefined_ok h);
  v ← new_handle undefined_object;
  mret (on_ok ok v).

(** ** [object_t] *)

(** Every member acts on [ref_]; a moved-from object has none. *)
Definition object_new (v : option handle) : M (option nat) :=
  match v with
  | None => mret None
  | Some v =>
      r ← napi_create_reference v;
      r ← check r "napi_create_reference failed";
      mret (Some r)
  end.
Definition object_reset (ref_ : option nat) : M unit :=
  match ref_ with Some r => napi_delete_reference r | None => mret tt end.
Definition object_get (ref_ : option nat) : M (option handle) :=
  match ref_ with Some r => napi_get_reference_value r | None => mret None end.

(** ** [class_target_t] *)

Definition get_box (q : nat) : M (option nat) := fun w =>
  match boxes w !! q with Some x => (Ok x, w) | None => (Undefined, w) end.
Definition set_box (q : nat) (x : option nat) : M unit := fun w =>
  (Ok tt, with_boxes (<[q := x]> (boxes w)) (next_box w) (hooks w) w).
Definition free_box (q : nat) : M unit := fun w =>
  (Ok tt, with_boxes (delete q (boxes w)) (next_box w) (hooks w) w).
Definition new_box (r : nat) : M nat := fun w =>
  (Ok (next_box w), with_boxes (<[next_box w := Some r]> (boxes w)) (S (next_box w)) (next_box w :: hooks w) w).
Definition remove_hook (q : nat) : M unit := fun w =>
  (Ok tt, with_boxes (boxes w) (next_box w) (filter (fun x => x ≠ q) (hooks w)) w).

(** [constructor_reference]: the constructor, [cleanup], which the environment also runs,
    and the destructor. *)
Definition constructor_reference (constructor : handle) : M nat :=
  r ← napi_create_reference constructor;
  r ← check r "napi_create_reference failed for class constructor";
  hooked ← api (add_hook_ok h);
  if (hooked : bool) then new_box r
  else napi_delete_reference r ;; throw (runtime_error (lit "napi_add_env_cleanup_hook failed")).
Definition cleanup (q : nat) : M unit :=
  x ← get_box q;
  match x with
  | Some r => napi_delete_reference r ;; set_box q None
  | None => undefined_behaviour
  end.
Definition destroy_constructor_reference (q : nat) : M unit :=
  x ← get_box q;
  match x with
  | Some _ => api (fun _ => tt) ;; remove_hook q ;; cleanup q ;; free_box q
  | None => free_box q
  end.

Definition get_target (i : nat) : M class_target_t := fun w =>
  match targets w !! i with Some t => (Ok t, w) | None => (Undefined, w) end.
Definition set_target (i : nat) (t : class_target_t) : M unit := modify (fun w => with_targets (<[i := t]> (targets w)) w).
Definition add_target (t : class_target_t) : M unit := modify (fun w => with_targets (t :: targets w) w).
Definition remove_target (i : nat) : M unit := modify (fun w => with_targets (delete i (targets w)) w).

Definition moved_from_target : class_target_t := mk_target None false None None.
Definition destroy_reference (p : option nat) : M unit :=
  match p with Some q => destroy_constructor_reference q | None => mret tt end.

(** The constructor, the move constructor and assignment, and the destructor, on the
    targets of a program. *)
Definition new_target (constructor : handle) (state : nat) : M unit :=
  q ← constructor_reference constructor;
  x ← get_box q;
  add_target (mk_target (Some q) true x (Some state)).
Definition move_target (i : nat) : M unit :=
  t ← get_target i; set_target i moved_from_target ;; add_target t.
Definition assign_target (i j : nat) : M unit :=
  if decide (i = j) then mret tt
  else
    this ← get_target i;
    other ← get_target j;
    set_target i other ;; set_target j moved_from_target ;; destroy_reference (reference_ this).
Definition drop_target (i : nat) : M unit :=
  t ← get_target i; remove_target i ;; destroy_reference (reference_ t).

(** ** [context_t] *)

Definition get_context (i : nat) : M context_t := fun w =>
  match contexts w !! i with Some c => (Ok c, w) | None => (Undefined, w) end.
Definition set_context (i : nat) (c : context_t) : M unit := modify (fun w => with_contexts (<[i := c]> (contexts w)) w).
Definition add_context (c : context_t) : M unit := modify (fun w => with_contexts (c :: contexts w) w).
Definition remove_context (i : nat) : M unit := modify (fun w => with_contexts (delete i (contexts w)) w).

Definition set_callable_member (r : option nat) (c : context_t) : context_t :=
  mk_context (env_ c) r (callable_cache_ c) (this_arg_cache_ c).
Definition set_callable_cache (v : option handle) (c : context_t) : context_t :=
  mk_context (env_ c) (callable_ c) v (this_arg_cache_ c).
Definition set_this_arg_cache (v : option handle) (c : context_t) : context_t :=
  mk_context (env_ c) (callable_ c) (callable_cache_ c) v.

(** What [refresh_this_arg] stores. *)
Definition undefined_handle (env : bool) : M (option handle) :=
  if env then v ← napi_get_undefined; v ← check v "napi_get_undefined failed"; mret (Some v) else mret None.

(** The constructors: the reference is released when the rest throws. *)
Definition new_context (callable : option handle) : M unit :=
  r ← object_new callable;
  this_arg ← unwinding (undefined_handle true) (object_reset r);
  add_context (mk_context true r callable this_arg).
Definition new_borrowed_context (callable : handle) : M unit :=
  this_arg ← undefined_handle true;
  add_context (mk_context true None (Some callable) this_arg).

Definition moved_from_context : context_t := mk_context false None None None.
Definition move_context (i : nat) : M unit :=
  c ← get_context i; set_context i moved_from_context ;; add_context c.
(** The old reference is deleted before the new one is stored. *)
Definition assign_context (i j : nat) : M unit :=
  if decide (i = j) then mret tt
  else
    this ← get_context i;
    other ← get_context j;
    set_context i (set_callable_member None this) ;; object_reset (callable_ this) ;;
    set_context i other ;; set_context j moved_from_context.
Definition drop_context (i : nat) : M unit :=
  c ← get_context i; remove_context i ;; object_reset (callable_ c).

Definition refresh_callable (i : nat) : M unit :=
  c ← get_context i; v ← object_get (callable_ c); set_context i (set_callable_cache v c).
Definition refresh_this_arg (i : nat) : M unit :=
  c ← get_context i;
  if env_ c then v ← undefined_handle true; set_context i (set_this_arg_cache v c) else mret tt.
Definition refresh (i : nat) : M unit := refresh_callable i ;; refresh_this_arg i.
Definition callable (i : nat) : M (option handle) :=
  c ← get_context i;
  match callable_cache_ c with
  | Some v => mret (Some v)
  | None => refresh_callable i ;; c ← get_context i; mret (callable_cache_ c)
  end.
Definition this_arg (i : nat) : M (option handle) :=
  c ← get_context i;
  match this_arg_cache_ c with
  | Some v => mret (Some v)
  | None => refresh_this_arg i ;; c ← get_context i; mret (this_arg_cache_ c)
  end.
(** [callable_.reset(env_, callable)] first deletes, then creates, then the cache follows. *)
Definition set_callable (i : nat) (v : option handle) : M unit :=
  c ← get_context i;
  set_context i (set_callable_member None c) ;; object_reset (callable_ c) ;;
  r ← (if env_ c then object_new v
       else match v with None => mret None | Some _ => throw (runtime_error (lit "napi_create_reference failed")) end);
  c ← get_context i;
  set_context i (set_callable_cache v (set_callable_member r c)).

(** ** Calls of imported functions *)

Fixpoint use_handles (vs : list handle) : M (list nat) :=
  match vs with [] => mret [] | v :: vs => o ← use_handle v; os ← use_handles vs; mret (o :: os) end.
Definition log_call (f this : nat) (args : list nat) : M unit := modify (fun w =>
  mk_world (clock w) (env_alive w) (scopes w) (next_scope w) (references w) (named w) (next_reference w) (boxes w)
    (next_box w) (hooks w) ((f, this, args) :: calls w) (targets w) (contexts w)).
(** [napi_call_function] refuses a null environment, receiver or function. *)
Definition napi_call_function (env : bool) (this f : option handle) (args : list handle) : M (option handle) :=
  match env, this, f with
  | true, Some this, Some f =>
      this ← use_handle this; f ← use_handle f; args ← use_handles args;
      result ← api (fun t => call_function h t f this args);
      log_call f this args ;;
      match result with Some o => v ← new_handle o; mret (Some v) | None => mret None end
  | _, _, _ => mret None
  end.

(** [call], and [invoke_impl] before the result is converted; the receiver of a member call
    is the first argument. *)
Definition call (i : nat) (f : option handle) (args : list handle) : M handle :=
  this ← this_arg i;
  c ← get_context i;
  result ← napi_call_function (env_ c) this f args;
  check result "napi_call_function failed".
Definition invoke_impl (i : nat) (receiver : option handle) (args : list handle) : M handle :=
  f ← callable i;
  call i f (match receiver with Some r => r :: args | None => args end).

(** [import_property] and [import_impl], from a module or an object. *)
Definition import_property (source : handle) (name : string) : M handle :=
  source ← use_handle source;
  result ← api (fun t => named_property h t source name);
  result ← check result "N-API import lookup failed";
  new_handle result.
Definition import_impl (source : handle) (name : string) : M unit :=
  v ← import_property source name; new_context (Some v).

(** [try_import_callable_impl]: a borrowed context for a function, nothing for anything else. *)
Definition try_import_callable (value : option handle) : M bool :=
  match value with
  | None => mret false
  | Some v =>
      o ← use_handle v;
      ok ← api (fun t => is_function h t o);
      if (ok : bool) then new_borrowed_context v ;; mret true else mret false
  end.

(** ** The environment goes away *)

(** Handle scopes of the host, and its teardown: the hooks run, the last added first. *)
Definition open_scope : M unit := modify (fun w => with_scopes (next_scope w :: scopes w) (S (next_scope w)) w).
Definition close_scope : M unit := modify (fun w => with_scopes (tail (scopes w)) (next_scope w) w).
Fixpoint run_hooks (qs : list nat) : M unit :=
  match qs with [] => mret tt | q :: qs => remove_hook q ;; cleanup q ;; run_hooks qs end.
Definition end_env : M unit := modify (fun w =>
  mk_world (clock w) false [] (next_scope w) (references w) (named w) (next_reference w) (boxes w)
    (next_box w) (hooks w) (calls w) (targets w) (contexts w)).
Definition teardown : M unit := qs ← gets hooks; run_hooks qs ;; end_env.

(** ** Programs *)

Inductive action :=
| NewTarget (constructor : handle) (state : nat) | MoveTarget (i : nat) | AssignTarget (i j : nat) | DropTarget (i : nat)
| NewContext (callable : option handle) | MoveContext (i : nat) | AssignContext (i j : nat) | DropContext (i : nat)
| SetCallable (i : nat) (callable : option handle) | Refresh (i : nat)
| Invoke (i : nat) (receiver : option handle) (args : list handle)
| ImportFunction (source : handle) (name : string) | TryImport (value : option handle)
| OpenScope | CloseScope | Teardown.

Definition run (a : action) : M unit :=
  match a with
  | NewTarget v s => new_target v s
  | MoveTarget i => move_target i
  | AssignTarget i j => assign_target i j
  | DropTarget i => drop_target i
  | NewContext v => new_context v
  | MoveContext i => move_context i
  | AssignContext i j => assign_context i j
  | DropContext i => drop_context i
  | SetCallable i v => set_callable i v
  | Refresh i => refresh i
  | Invoke i receiver args => invoke_impl i receiver args ;; mret tt
  | ImportFunction source name => import_impl source name
  | TryImport v => try_import_callable v ;; mret tt
  | OpenScope => open_scope
  | CloseScope => close_scope
  | Teardown => teardown
  end.

(** What a program has to see to: handles and caches of open scopes, calls while there is an
    environment, and no reference of a context left to it afterwards. Class targets are
    moved and destroyed at any time. *)
Definition usable (w : world) (v : handle) : Prop := scope_of v ∈ scopes w.
Definition usable_all (w : world) (vs : list handle) : Prop := Forall (usable w) vs.
Definition in_env (w : world) : Prop := env_alive w = true /\ scopes w ≠ [].
Definition option_list {A} (o : option A) : list A := match o with Some a => [a] | None => [] end.
Definition droppable (w : world) (i : nat) : Prop :=
  exists c, contexts w !! i = Some c /\ (callable_ c = None \/ env_alive w = true).
Definition admissible (a : action) (w : world) : Prop :=
  match a with
  | NewTarget v _ => env_alive w = true /\ usable w v
  | MoveTarget i | DropTarget i => is_Some (targets w !! i)
  | AssignTarget i j => is_Some (targets w !! i) /\ is_Some (targets w !! j)
  | NewContext v | TryImport v => in_env w /\ usable_all w (option_list v)
  | MoveContext i => is_Some (contexts w !! i)
  | AssignContext i j => droppable w i /\ is_Some (contexts w !! j)
  | DropContext i => droppable w i
  | SetCallable i v => is_Some (contexts w !! i) /\ env_alive w = true /\ usable_all w (option_list v)
  | Refresh i => is_Some (contexts w !! i) /\ in_env w
  | Invoke i receiver args =>
      in_env w /\ usable_all w (option_list receiver ++ args) /\
      exists c, contexts w !! i = Some c /\ usable_all w (option_list (callable_cache_ c) ++ option_list (this_arg_cache_ c))
  | ImportFunction source _ => in_env w /\ usable w source
  | OpenScope | Teardown => env_alive w = true
  | CloseScope => True
  end.

Definition start : world := mk_world 0 true [] 0 ∅ ∅ 0 ∅ 0 [] [] [] [].
Inductive step : world -> world -> Prop :=
| do_return a w w' : admissible a w -> run a w = (Ok tt, w') -> step w w'
| do_throw a w w' e : admissible a w -> run a w = (Throw e, w') -> step w w'.
Definition reachable (w : world) : Prop := rtc step start w.
End Backend.

(** ** Ownership *)

Definition option_refs (o : option nat) : gmultiset nat := match o with Some r => {[+ r +]} | None => ∅ end.
Definition box_refs (m : gmap nat (option nat)) : gmultiset nat := map_refs option_refs m.
Definition context_refs (cs : list context_t) : gmultiset nat := refs (fun c => option_refs (callable_ c)) cs.
Lemma context_refs_elem cs i c r : cs !! i = Some c -> callable_ c = Some r -> r ∈ context_refs cs.
Proof.
  intros Hi Hr. unfold context_refs. rewrite (refs_delete _ _ _ _ Hi), Hr.
  apply gmultiset_elem_of_disj_union. left. by apply gmultiset_elem_of_singleton.
Qed.
(** The boxes that still have their reference. *)
Definition full_boxes (m : gmap nat (option nat)) : list nat :=
  omap (fun x => match x.2 with Some _ => Some x.1 | None => None end) (map_to_list m).

(** The caches of a context: a handle to what its reference names, and to undefined. *)
Definition good_caches (names_ : gmap nat nat) (c : context_t) : Prop :=
  (forall r v, callable_ c = Some r -> callable_cache_ c = Some v -> names_ !! r = Some (names v)) /\
  (forall v, this_arg_cache_ c = Some v -> names v = undefined_object).

(** Reads the fields of a world that is given by its constructor. *)
Ltac fields := cbn [clock env_alive scopes next_scope references named next_reference boxes next_box hooks calls targets
  contexts with_references with_boxes with_targets with_contexts with_scopes fst snd].

Section Ownership.
Context (h : host).
Abbreviation M := (eff world).

(** The state, with what the locals of a computation own beside the targets and contexts:
    references and boxes. *)
Record inv (alive : bool) (ss : list nat) (T : list class_target_t) (C : list context_t) (R : gmultiset nat)
    (Q : list nat) (w : world) : Prop := {
  inv_alive : env_alive w = alive;
  inv_scopes : scopes w = ss;
  inv_targets : targets w = T;
  inv_contexts : contexts w = C;
  inv_references : references w = box_refs (boxes w) ⊎ context_refs C ⊎ R;
  inv_named r : r ∈ references w -> is_Some (named w !! r) /\ (r < next_reference w)%nat;
  inv_hooks : Permutation (hooks w) (full_boxes (boxes w));
  inv_boxes : Permutation (map_to_list (boxes w)).*1 (omap reference_ T ++ Q);
  inv_next_box q : is_Some (boxes w !! q) -> (q < next_box w)%nat;
  inv_dead : alive = false -> hooks w = [];
  inv_caches : Forall (good_caches (named w)) C
}.

Lemma own_more (x A B R : gmultiset nat) : x ⊎ (A ⊎ B ⊎ R) = A ⊎ B ⊎ (x ⊎ R).
Proof. multiset_solver. Qed.
Lemma own_less r (A B R : gmultiset nat) :
  r ∈ A ⊎ B ⊎ ({[+ r +]} ⊎ R) /\ (A ⊎ B ⊎ ({[+ r +]} ⊎ R)) ∖ {[+ r +]} = A ⊎ B ⊎ R.
Proof. split; multiset_solver. Qed.
Lemma elem_of_less (x r : nat) (X : gmultiset nat) : x ∈ X ∖ {[+ r +]} -> x ∈ X.
Proof. multiset_solver. Qed.

Lemma upholds_api {A} (f : nat -> A) ss T C R Q E :
  upholds (inv true ss T C R Q) (api f) (fun _ => inv true ss T C R Q) E.
Proof. intros w []. unfold api. rewrite inv_alive0. by split. Qed.

Lemma upholds_napi_value v al ss T C R Q E :
  scope_of v ∈ ss -> upholds (inv al ss T C R Q) (use_handle v) (fun o w => o = names v /\ inv al ss T C R Q w) E.
Proof. intros Hv w Hw. unfold use_handle. rewrite (inv_scopes _ _ _ _ _ _ _ Hw), decide_True by done. done. Qed.
Lemma upholds_new_handle o al ss T C R Q E :
  ss ≠ [] -> upholds (inv al ss T C R Q) (new_handle o)
    (fun v w => (names v = o /\ scope_of v ∈ ss) /\ inv al ss T C R Q w) E.
Proof.
  intros Hs w Hw. unfold new_handle. pose proof (inv_scopes _ _ _ _ _ _ _ Hw) as ->.
  destruct ss as [|s ss]; [done|]. split; [split; [done|left]|done].
Qed.

Lemma upholds_add_reference o al ss T C R Q E :
  upholds (inv al ss T C R Q) (add_reference o)
    (fun r w => named w !! r = Some o /\ inv al ss T C ({[+ r +]} ⊎ R) Q w) E.
Proof.
  intros w []. unfold add_reference. split; fields; [by rewrite lookup_insert_eq|].
  split; fields; try done.
  - rewrite inv_references0. apply own_more.
  - intros r. rewrite gmultiset_elem_of_disj_union, gmultiset_elem_of_singleton.
    intros [->|Hr]; [rewrite lookup_insert_eq; split; [by eauto|lia]|].
    destruct (inv_named0 r Hr). rewrite lookup_insert_ne by lia. split; [done|lia].
  - apply Forall_forall. intros c Hc. rewrite Forall_forall in inv_caches0. destruct (inv_caches0 c Hc) as [H1 H2].
    split; [|done]. intros r v Hr Hv. rewrite lookup_insert_ne; [by apply H1|]. intros <-.
    apply list_elem_of_lookup in Hc as [i Hi]. pose proof (context_refs_elem _ _ _ _ Hi Hr) as Hin.
    destruct (inv_named0 (next_reference w)); [|lia]. rewrite inv_references0, !gmultiset_elem_of_disj_union. auto.
Qed.

Lemma upholds_create_reference v ss T C R Q E :
  scope_of v ∈ ss ->
  upholds (inv true ss T C R Q) (napi_create_reference h v)
    (fun o w => match o with
                | Some r => named w !! r = Some (names v) /\ inv true ss T C ({[+ r +]} ⊎ R) Q w
                | None => inv true ss T C R Q w
                end) E.
Proof.
  intros Hv. unfold napi_create_reference. eapply upholds_then; [by apply upholds_napi_value|]. intros o w [-> Hw]. revert w Hw.
  eapply upholds_then; [apply upholds_api|]. intros [].
  - eapply upholds_then; [apply upholds_add_reference|]. intros r. by apply upholds_return.
  - by apply upholds_return.
Qed.

Lemma upholds_delete_reference r ss T C R Q E :
  upholds (inv true ss T C ({[+ r +]} ⊎ R) Q) (napi_delete_reference r) (fun _ => inv true ss T C R Q) E.
Proof.
  unfold napi_delete_reference. eapply upholds_then; [apply upholds_api|]. intros _ w []. unfold remove_reference.
  destruct (own_less r (box_refs (boxes w)) (context_refs C) R) as [Hin Heq]. rewrite decide_True by (by rewrite inv_references0).
  split; fields; try done.
  - by rewrite inv_references0, Heq.
  - intros r' Hr. apply inv_named0. by eapply elem_of_less.
Qed.

(** ** Objects and boxes *)

(** The object a reference names, in a handle of the current scope. *)
Definition is_handle (ss : list nat) (o : option nat) (v : handle) : Prop := o = Some (names v) /\ scope_of v ∈ ss.

Lemma upholds_reference_value r ss T C R Q E :
  ss ≠ [] -> r ∈ context_refs C ⊎ R ->
  upholds (inv true ss T C R Q) (napi_get_reference_value h r)
    (fun v w => match v with Some v => is_handle ss (named w !! r) v | None => True end /\ inv true ss T C R Q w) E.
Proof.
  intros Hs Hr. unfold napi_get_reference_value. eapply upholds_then; [apply upholds_api|]. intros ok.
  eapply (upholds_then _ _ _ (fun o w => named w !! r = Some o /\ inv true ss T C R Q w)).
  { intros w Hw. unfold named_object.
    assert (r ∈ references w) as Hin.
    { rewrite (inv_references _ _ _ _ _ _ _ Hw). clear -Hr. multiset_solver. }
    destruct (proj1 (inv_named _ _ _ _ _ _ _ Hw r Hin)) as [o Ho]. rewrite Ho, decide_True by done. done. }
  intros o w [Ho Hw]. unfold new_handle, mbind, eff_bind. pose proof (inv_scopes _ _ _ _ _ _ _ Hw) as Hsc.
  destruct (scopes w) as [|x xs]; subst; [done|]. split; [|done]. destruct ok; simpl; [|done].
  split; [done|left].
Qed.

Lemma upholds_undefined ss T C R Q E :
  ss ≠ [] ->
  upholds (inv true ss T C R Q) (napi_get_undefined h)
    (fun v w => match v with Some v => is_handle ss (Some undefined_object) v | None => True end /\ inv true ss T C R Q w) E.
Proof.
  intros Hs. unfold napi_get_undefined. eapply upholds_then; [apply upholds_api|]. intros ok.
  eapply upholds_then; [by apply upholds_new_handle|]. intros v. apply upholds_return. intros w [[Hn Hv] Hw].
  split; [|done]. destruct ok; simpl; [|done]. by split; [rewrite Hn|].
Qed.

Lemma upholds_object_get r ss T C R Q E :
  ss ≠ [] -> (forall x, r = Some x -> x ∈ context_refs C ⊎ R) ->
  upholds (inv true ss T C R Q) (object_get h r)
    (fun v w => match v with Some v => exists x, r = Some x /\ is_handle ss (named w !! x) v | None => True end
                /\ inv true ss T C R Q w) E.
Proof.
  intros Hs Hr. destruct r as [r|]; simpl; [|by apply upholds_return].
  eapply upholds_post; [apply upholds_reference_value; eauto|]. intros [v|] w [Hv Hw]; eauto.
Qed.

Lemma upholds_object_reset r al ss T C R Q E :
  r = None \/ al = true ->
  upholds (inv al ss T C (option_refs r ⊎ R) Q) (object_reset r) (fun _ => inv al ss T C R Q) E.
Proof.
  intros [->| ->].
  - apply upholds_return. simpl. by rewrite (left_id_L ∅ (⊎)).
  - destruct r as [r|]; [apply upholds_delete_reference|]. apply upholds_return. simpl. by rewrite (left_id_L ∅ (⊎)).
Qed.

Lemma upholds_object_new v ss T C R Q :
  (forall x, v = Some x -> scope_of x ∈ ss) ->
  upholds (inv true ss T C R Q) (object_new h v)
    (fun r w => match v, r with
                | Some v, Some r => named w !! r = Some (names v)
                | None, None => True
                | _, _ => False
                end /\ inv true ss T C (option_refs r ⊎ R) Q w) (inv true ss T C R Q).
Proof.
  intros Hv. destruct v as [v|]; simpl.
  - eapply upholds_then; [apply upholds_create_reference; auto|]. intros [r|]; simpl.
    + apply (upholds_return _ _ (fun r0 w => _)). intros w [Hn Hw]. done.
    + by intros w Hw.
  - apply upholds_return. intros w Hw. split; [done|]. simpl. by rewrite (left_id_L ∅ (⊎)).
Qed.

Lemma full_boxes_cons m q x :
  m !! q = None -> Permutation (full_boxes (<[q := x]> m)) (option_list (fmap (fun _ => q) x) ++ full_boxes m).
Proof.
  intros Hq. unfold full_boxes. rewrite (map_to_list_insert m q x Hq). by destruct x.
Qed.
Lemma full_boxes_delete m q x :
  m !! q = Some x -> Permutation (full_boxes m) (option_list (fmap (fun _ => q) x) ++ full_boxes (delete q m)).
Proof.
  intros Hq. rewrite <- (insert_delete_id m q x Hq) at 1. apply full_boxes_cons, lookup_delete_eq.
Qed.
Lemma pointers_cons (m : gmap nat (option nat)) q x :
  m !! q = None -> Permutation (map_to_list (<[q := x]> m)).*1 (q :: (map_to_list m).*1).
Proof. intros Hq. by rewrite (map_to_list_insert m q x Hq). Qed.
Lemma pointers_delete (m : gmap nat (option nat)) q x :
  m !! q = Some x -> Permutation (map_to_list m).*1 (q :: (map_to_list (delete q m)).*1).
Proof. intros Hq. by rewrite <- (map_to_list_delete m q x Hq). Qed.
Lemma full_boxes_not m q : m !! q = Some None \/ m !! q = None -> q ∉ full_boxes m.
Proof.
  intros Hq Hin. unfold full_boxes in Hin. apply list_elem_of_omap in Hin as ([q' [x|]] & Hin & ?); simplify_eq/=.
  apply elem_of_map_to_list in Hin. destruct Hq; congruence.
Qed.

Lemma filter_other (q : nat) (l : list nat) : q ∉ l -> filter (fun x => x ≠ q) l = l.
Proof.
  induction l as [|x l IH]; [done|]. intros [Hx Hl]%not_elem_of_cons.
  rewrite filter_cons_True by auto. by rewrite IH.
Qed.

(** A box that nothing points to yet, and one that has just lost its last pointer. *)
Lemma upholds_new_box r ss T C R Q E :
  upholds (inv true ss T C ({[+ r +]} ⊎ R) Q) (new_box r)
    (fun q w => boxes w !! q = Some (Some r) /\ inv true ss T C R (q :: Q) w) E.
Proof.
  intros w []. unfold new_box. split; fields; [apply lookup_insert_eq|].
  assert (boxes w !! next_box w = None) as Hnone.
  { apply eq_None_not_Some. intros Hx. specialize (inv_next_box0 _ Hx). lia. }
  split; fields; try done.
  - rewrite inv_references0. unfold box_refs. rewrite map_refs_insert by done. simpl.
    clear. generalize (map_refs option_refs (boxes w)), (context_refs C). intros. multiset_solver.
  - rewrite (full_boxes_cons _ _ _ Hnone), inv_hooks0. done.
  - rewrite (pointers_cons _ _ _ Hnone), inv_boxes0. apply Permutation_middle.
  - intros q. destruct (decide (q = next_box w)) as [->|]; [lia|]. rewrite lookup_insert_ne by done.
    intros Hq. specialize (inv_next_box0 _ Hq). lia.
Qed.

Lemma upholds_free_box q al ss T C R Q E :
  upholds (fun w => boxes w !! q = Some None /\ inv al ss T C R (q :: Q) w) (free_box q) (fun _ => inv al ss T C R Q) E.
Proof.
  intros w [Hq []]. unfold free_box. split; fields; try done.
  - rewrite inv_references0. unfold box_refs. rewrite (map_refs_delete _ _ _ _ Hq). simpl. by rewrite (left_id_L ∅ (⊎)).
  - by rewrite inv_hooks0, (full_boxes_delete _ _ _ Hq).
  - apply (Permutation_cons_inv (a:=q)). rewrite <- (pointers_delete _ _ _ Hq), inv_boxes0. symmetry. apply Permutation_middle.
  - intros q' Hq'. apply inv_next_box0. destruct (decide (q' = q)) as [->|]; [by rewrite lookup_delete_eq in Hq'; destruct Hq'|].
    by rewrite lookup_delete_ne in Hq'.
Qed.

(** The hook and the cleanup it runs. *)
Lemma upholds_detach q r ss T C R Q E :
  upholds (fun w => boxes w !! q = Some (Some r) /\ inv true ss T C R Q w) (remove_hook q ;; cleanup q)
    (fun _ w => boxes w !! q = Some None /\ inv true ss T C R Q w) E.
Proof.
  intros w [Hq []].
  assert (box_refs (boxes w) = {[+ r +]} ⊎ box_refs (delete q (boxes w))) as Hrefs by exact (map_refs_delete option_refs _ _ _ Hq).
  assert (box_refs (<[q := None]> (boxes w)) = box_refs (delete q (boxes w))) as Hrefs'.
  { rewrite <- insert_delete_eq. unfold box_refs. rewrite map_refs_insert by apply lookup_delete_eq. simpl. by rewrite (left_id_L ∅ (⊎)). }
  unfold remove_hook, cleanup, get_box, napi_delete_reference, api, remove_reference, set_box, mbind, eff_bind. fields.
  rewrite Hq. fields. rewrite inv_alive0. fields.
  assert (r ∈ references w) as Hr.
  { rewrite inv_references0, Hrefs, !gmultiset_elem_of_disj_union, gmultiset_elem_of_singleton. auto. }
  rewrite decide_True by done. fields. split; [apply lookup_insert_eq|].
  split; fields; try done.
  - rewrite inv_references0, Hrefs, Hrefs'. clear. multiset_solver.
  - intros x Hx. apply inv_named0. by eapply elem_of_less.
  - rewrite inv_hooks0, (full_boxes_delete _ _ _ Hq). simpl. rewrite filter_cons_False by (intros Hx; by apply Hx).
    rewrite <- (insert_delete_eq (boxes w) q None), (full_boxes_cons _ _ None) by apply lookup_delete_eq. simpl.
    rewrite filter_other; [done|]. apply full_boxes_not. right. apply lookup_delete_eq.
  - rewrite <- inv_boxes0, (pointers_delete _ _ _ Hq), <- (insert_delete_eq (boxes w) q None).
    apply pointers_cons, lookup_delete_eq.
  - intros q' Hq'. apply inv_next_box0. destruct (decide (q' = q)) as [->|]; [by eauto|]. by rewrite lookup_insert_ne in Hq'.
Qed.

Lemma upholds_destroy_constructor_reference q al ss T C R Q E :
  upholds (inv al ss T C R (q :: Q)) (destroy_constructor_reference q) (fun _ => inv al ss T C R Q) E.
Proof.
  intros w Hw. unfold destroy_constructor_reference, get_box at 1. unfold mbind at 1, eff_bind at 1.
  assert (is_Some (boxes w !! q)) as [x Hq].
  { assert (q ∈ (map_to_list (boxes w)).*1) as Hin by (rewrite (inv_boxes _ _ _ _ _ _ _ Hw); set_solver).
    apply list_elem_of_fmap in Hin as ([q' x] & -> & Hin). apply elem_of_map_to_list in Hin. by exists x. }
  rewrite Hq. destruct x as [r|]; [|by apply (upholds_free_box q al ss T C R Q E)].
  assert (al = true) as ->.
  { destruct al; [done|]. pose proof (inv_hooks _ _ _ _ _ _ _ Hw) as Hh. rewrite (inv_dead _ _ _ _ _ _ _ Hw eq_refl) in Hh.
    rewrite (full_boxes_delete _ _ _ Hq) in Hh. by apply Permutation_nil in Hh. }
  assert (upholds (fun w => boxes w !! q = Some (Some r) /\ inv true ss T C R (q :: Q) w)
    (api (fun _ => tt) ;; remove_hook q ;; cleanup q ;; free_box q) (fun _ => inv true ss T C R Q) E) as Hk; [|exact (Hk w (conj Hq Hw))].
  eapply (upholds_then _ _ _ (fun _ w => boxes w !! q = Some (Some r) /\ inv true ss T C R (q :: Q) w)).
  { intros w' [Hq' Hw']. pose proof (upholds_api (fun _ => tt) ss T C R (q :: Q) E w' Hw') as Ha.
    unfold api in *. rewrite (inv_alive _ _ _ _ _ _ _ Hw') in *. done. }
  intros ?. intros w' Hw'.
  pose proof (upholds_detach q r ss T C R (q :: Q) E w' Hw') as Hd. unfold mbind, eff_bind in *.
  destruct (remove_hook q w') as [[]  w1]; try done. destruct (cleanup q w1) as [[] w2]; try done.
  by apply (upholds_free_box q true ss T C R Q E).
Qed.

Lemma upholds_constructor_reference v ss T C R Q :
  scope_of v ∈ ss ->
  upholds (inv true ss T C R Q) (constructor_reference h v) (fun q => inv true ss T C R (q :: Q)) (inv true ss T C R Q).
Proof.
  intros Hv. unfold constructor_reference. eapply upholds_then; [by apply upholds_create_reference|].
  intros [r|]; [|by intros w Hw]. simpl.
  eapply (upholds_then _ _ _ (fun r' w => r' = r /\ inv true ss T C ({[+ r +]} ⊎ R) Q w)).
  { apply upholds_return. by intros w [_ Hw]. }
  intros r' w [-> Hw]. revert w Hw. eapply upholds_then; [apply upholds_api|]. intros [].
  - eapply upholds_post; [apply upholds_new_box|]. by intros q w [_ Hw].
  - apply upholds_throw, upholds_delete_reference.
Qed.

(** ** Class targets *)

(** The references of others, which the operations leave alone. *)
Context (frame : gmultiset nat).

(** A world between two operations. *)
Definition wf (w : world) : Prop := exists al ss T C, inv al ss T C frame [] w.

Lemma inv_with_targets al ss T T' C R Q Q' w :
  inv al ss T C R Q w -> Permutation (omap reference_ T ++ Q) (omap reference_ T' ++ Q') ->
  inv al ss T' C R Q' (with_targets T' w).
Proof. intros [] Hp. split; fields; try done. by rewrite inv_boxes0. Qed.

Lemma targets_insert T i t t' : T !! i = Some t ->
  Permutation (option_list (reference_ t') ++ omap reference_ T) (option_list (reference_ t) ++ omap reference_ (<[i := t']> T)).
Proof.
  revert i. induction T as [|u T IH]; intros [|i] Hi; simplify_eq/=.
  - destruct (reference_ t), (reference_ t'); simpl; try done. apply perm_swap.
  - specialize (IH _ Hi). destruct (reference_ u); [|done].
    etrans; [symmetry; apply Permutation_middle|]. rewrite IH. apply Permutation_middle.
Qed.
Lemma targets_delete T i t : T !! i = Some t ->
  Permutation (omap reference_ T) (option_list (reference_ t) ++ omap reference_ (delete i T)).
Proof.
  revert i. induction T as [|u T IH]; intros [|i] Hi; simplify_eq/=; [by destruct (reference_ t)|].
  specialize (IH _ Hi). destruct (reference_ u); [|done]. rewrite IH. apply Permutation_middle.
Qed.

Lemma target_at al ss T C R Q w i : inv al ss T C R Q w -> is_Some (targets w !! i) ->
  exists t, T !! i = Some t /\ get_target i w = (Ok t, w).
Proof.
  intros Hw [t Ht]. exists t. unfold get_target. rewrite Ht. by rewrite <- (inv_targets _ _ _ _ _ _ _ Hw).
Qed.

Lemma upholds_destroy_reference p al ss T C R Q E :
  upholds (inv al ss T C R (option_list p ++ Q)) (destroy_reference p) (fun _ => inv al ss T C R Q) E.
Proof. destruct p as [q|]; [apply upholds_destroy_constructor_reference|by apply upholds_return]. Qed.

(** What an operation of a program ends in. *)
Definition ends_wf {A} (r : outcome A * world) : Prop :=
  match r with (Ok _, w) | (Throw _, w) => wf w | (Aborted, _) => True | (Undefined, _) => False end.

Lemma upholds_ends {A} al ss T C (m : M A) w :
  upholds (inv al ss T C frame []) m (fun _ => wf) wf -> inv al ss T C frame [] w -> ends_wf (m w).
Proof. intros Hm Hw. exact (Hm w Hw). Qed.
Lemma upholds_weaken {A} P (m : M A) Q (E E' : world -> Prop) :
  upholds P m Q E -> (forall w, E w -> E' w) -> upholds P m Q E'.
Proof. intros Hm HE w Hw. specialize (Hm w Hw). destruct (m w) as [[] ?]; auto. Qed.
Lemma inv_wf al ss T C w : inv al ss T C frame [] w -> wf w.
Proof. intros Hw. by exists al, ss, T, C. Qed.
Lemma omap_target t T : omap reference_ (t :: T) = option_list (reference_ t) ++ omap reference_ T.
Proof. simpl. by destruct (reference_ t). Qed.

Lemma new_target_wf v s w : wf w -> env_alive w = true -> usable w v -> ends_wf (new_target h v s w).
Proof.
  intros (al & ss & T & C & Hw) Ha Hv. unfold usable in Hv.
  rewrite (inv_alive _ _ _ _ _ _ _ Hw) in Ha. subst al. rewrite (inv_scopes _ _ _ _ _ _ _ Hw) in Hv.
  eapply upholds_ends; [|exact Hw]. unfold new_target. eapply upholds_then.
  { eapply upholds_weaken; [by apply upholds_constructor_reference|apply inv_wf]. }
  intros q w1 H1. unfold get_box, add_target, modify, mbind, eff_bind.
  assert (is_Some (boxes w1 !! q)) as [x Hq].
  { assert (q ∈ (map_to_list (boxes w1)).*1) as Hin by (rewrite (inv_boxes _ _ _ _ _ _ _ H1); set_solver).
    apply list_elem_of_fmap in Hin as ([q' x] & -> & Hin). apply elem_of_map_to_list in Hin. by exists x. }
  rewrite Hq. exists true, ss, (mk_target (Some q) true x (Some s) :: T), C.
  rewrite (inv_targets _ _ _ _ _ _ _ H1). eapply inv_with_targets; [exact H1|]. simpl. rewrite app_nil_r. symmetry. apply Permutation_cons_append.
Qed.

Lemma move_target_wf i w : wf w -> is_Some (targets w !! i) -> ends_wf (move_target i w).
Proof.
  intros (al & ss & T & C & Hw) Hi. destruct (target_at _ _ _ _ _ _ _ i Hw Hi) as (t & Ht & Hg).
  unfold move_target. rewrite (eff_bind_run _ _ _ _ _ Hg). unfold set_target, add_target, modify, mbind, eff_bind. fields.
  rewrite (inv_targets _ _ _ _ _ _ _ Hw). apply (inv_wf al ss (t :: <[i := moved_from_target]> T) C).
  apply (inv_with_targets al ss T _ C frame [] [] w Hw). rewrite !app_nil_r, omap_target.
  exact (targets_insert T i t moved_from_target Ht).
Qed.

Lemma drop_target_wf i w : wf w -> is_Some (targets w !! i) -> ends_wf (drop_target i w).
Proof.
  intros (al & ss & T & C & Hw) Hi. destruct (target_at _ _ _ _ _ _ _ i Hw Hi) as (t & Ht & Hg).
  unfold drop_target. rewrite (eff_bind_run _ _ _ _ _ Hg). unfold remove_target, modify, mbind, eff_bind.
  rewrite (inv_targets _ _ _ _ _ _ _ Hw).
  apply (upholds_post _ _ _ (fun _ => wf) wf (upholds_destroy_reference (reference_ t) al ss (delete i T) C frame [] wf)).
  - intros _ w'. apply inv_wf.
  - eapply inv_with_targets; [exact Hw|]. rewrite !app_nil_r, (targets_delete T i t Ht). apply Permutation_app_comm.
Qed.

Lemma assign_target_wf i j w :
  wf w -> is_Some (targets w !! i) -> is_Some (targets w !! j) -> ends_wf (assign_target i j w).
Proof.
  intros (al & ss & T & C & Hw) Hi Hj. unfold assign_target. case_decide as Hne; [by apply (inv_wf al ss T C)|].
  destruct (target_at _ _ _ _ _ _ _ i Hw Hi) as (t & Ht & Hgi). destruct (target_at _ _ _ _ _ _ _ j Hw Hj) as (u & Hu & Hgj).
  rewrite (eff_bind_run _ _ _ _ _ Hgi), (eff_bind_run _ _ _ _ _ Hgj). unfold set_target, modify, mbind, eff_bind. fields.
  rewrite (inv_targets _ _ _ _ _ _ _ Hw).
  apply (upholds_post _ _ _ (fun _ => wf) wf
    (upholds_destroy_reference (reference_ t) al ss (<[j := moved_from_target]> (<[i := u]> T)) C frame [] wf)).
  - intros _ w'. apply inv_wf.
  - apply (inv_with_targets al ss T _ C frame [] _ w Hw). rewrite !app_nil_r.
    pose proof (targets_insert T i t u Ht) as H1.
    assert (<[i := u]> T !! j = Some u) as Hju by by rewrite list_lookup_insert_ne.
    pose proof (targets_insert (<[i := u]> T) j u moved_from_target Hju) as H2. simpl in H2.
    rewrite (Permutation_app_comm (omap _ _)). apply (Permutation_app_inv_l (option_list (reference_ u))).
    rewrite H1, H2. rewrite !app_assoc. apply Permutation_app_tail, Permutation_app_comm.
Qed.

(** ** Contexts *)

(** A computation that leaves a part of the world alone. *)
Definition leaves {X A} (part : world -> X) (m : M A) : Prop := forall w, part (m w).2 = part w.
Lemma upholds_leaves {X A} (part : world -> X) (m : M A) P Q E x :
  leaves part m -> upholds P m Q E ->
  upholds (fun w => part w = x /\ P w) m (fun a w => part w = x /\ Q a w) (fun w => part w = x /\ E w).
Proof.
  intros Hl Hm w [Hx Hw]. specialize (Hm w Hw). specialize (Hl w). rewrite <- Hx, <- Hl. destruct (m w) as [[] ?]; done.
Qed.
Lemma leaves_then {X A B} (part : world -> X) (m : M A) (f : A -> M B) :
  leaves part m -> (forall a, leaves part (f a)) -> leaves part (m ≫= f).
Proof.
  intros Hm Hf w. unfold mbind, eff_bind. specialize (Hm w). destruct (m w) as [[a|e| |] w']; try done.
  by rewrite (Hf a w').
Qed.
Ltac leaves := repeat first [match goal with |- forall _, leaves _ _ => intros ? end | apply leaves_then | intros w; reflexivity
  | intros w; unfold api, use_handle, new_handle, named_object, remove_reference, get_context; repeat case_match; reflexivity].
(** The history: what references name, and the calls that were made. *)
Definition history (w : world) : gmap nat nat * list (nat * nat * list nat) := (named w, calls w).
Lemma undefined_history : leaves history (napi_get_undefined h).
Proof. unfold napi_get_undefined. leaves. Qed.
Lemma reference_value_history r : leaves history (napi_get_reference_value h r).
Proof. unfold napi_get_reference_value. leaves. Qed.
Lemma object_get_history r : leaves history (object_get h r).
Proof. destruct r; [apply reference_value_history|leaves]. Qed.
Lemma object_reset_history r : leaves history (object_reset r).
Proof. destruct r; unfold object_reset, napi_delete_reference; leaves. Qed.
Lemma undefined_handle_history env : leaves history (undefined_handle h env).
Proof.
  destruct env; unfold undefined_handle; [|leaves]. apply leaves_then; [apply undefined_history|]. intros [v|]; unfold check; leaves.
Qed.

Lemma inv_with_contexts al ss T C C' R R' Q w :
  inv al ss T C R Q w -> context_refs C ⊎ R = context_refs C' ⊎ R' -> Forall (good_caches (named w)) C' ->
  inv al ss T C' R' Q (with_contexts C' w).
Proof.
  intros [] Hr Hc. split; fields; try done. rewrite inv_references0, <- !(assoc_L (⊎)). by rewrite Hr.
Qed.
Lemma context_at al ss T C R Q w i : inv al ss T C R Q w -> is_Some (contexts w !! i) ->
  exists c, C !! i = Some c /\ get_context i w = (Ok c, w).
Proof.
  intros Hw [c Hc]. exists c. unfold get_context. rewrite Hc. by rewrite <- (inv_contexts _ _ _ _ _ _ _ Hw).
Qed.
Lemma upholds_get_context i c al ss T C R Q E :
  C !! i = Some c -> upholds (inv al ss T C R Q) (get_context i) (fun c' w => c' = c /\ inv al ss T C R Q w) E.
Proof. intros Hc w Hw. unfold get_context. rewrite (inv_contexts _ _ _ _ _ _ _ Hw), Hc. done. Qed.

(** Replacing a context, where the difference of what it refers to is left to the locals. *)
Lemma inv_set_context i c c' al ss T C R R' Q w :
  inv al ss T C R Q w -> C !! i = Some c -> good_caches (named w) c' ->
  option_refs (callable_ c) ⊎ R = option_refs (callable_ c') ⊎ R' ->
  inv al ss T (<[i := c']> C) R' Q (with_contexts (<[i := c']> (contexts w)) w).
Proof.
  intros Hw Hc Hg Hr. rewrite (inv_contexts _ _ _ _ _ _ _ Hw). eapply inv_with_contexts; [exact Hw| |].
  - unfold context_refs. pose proof (refs_insert (fun c => option_refs (callable_ c)) C i c c' Hc) as Hi. simpl in Hi.
    clear -Hi Hr. revert Hi Hr. generalize (refs (fun c => option_refs (callable_ c)) C),
      (refs (fun c => option_refs (callable_ c)) (<[i := c']> C)), (option_refs (callable_ c)), (option_refs (callable_ c')).
    intros X Y a b Hi Hr. multiset_solver.
  - apply Forall_insert; [exact (inv_caches _ _ _ _ _ _ _ Hw)|done].
Qed.
Lemma inv_add_context c al ss T C R Q w :
  inv al ss T C (option_refs (callable_ c) ⊎ R) Q w -> good_caches (named w) c ->
  inv al ss T (c :: C) R Q (with_contexts (c :: contexts w) w).
Proof.
  intros Hw Hg. rewrite (inv_contexts _ _ _ _ _ _ _ Hw). eapply inv_with_contexts; [exact Hw| |].
  - unfold context_refs. simpl. generalize (refs (fun c => option_refs (callable_ c)) C), (option_refs (callable_ c)).
    clear. intros. multiset_solver.
  - constructor; [done|exact (inv_caches _ _ _ _ _ _ _ Hw)].
Qed.
Lemma inv_remove_context i c al ss T C R Q w :
  inv al ss T C R Q w -> C !! i = Some c ->
  inv al ss T (delete i C) (option_refs (callable_ c) ⊎ R) Q (with_contexts (delete i (contexts w)) w).
Proof.
  intros Hw Hc. rewrite (inv_contexts _ _ _ _ _ _ _ Hw). eapply inv_with_contexts; [exact Hw| |].
  - unfold context_refs. rewrite (refs_delete _ _ _ _ Hc). generalize (refs (fun c => option_refs (callable_ c)) (delete i C)), (option_refs (callable_ c)).
    clear. intros. multiset_solver.
  - apply Forall_delete, (inv_caches _ _ _ _ _ _ _ Hw).
Qed.
Lemma context_good al ss T C R Q w i c : inv al ss T C R Q w -> C !! i = Some c -> good_caches (named w) c.
Proof. intros Hw Hc. exact (Forall_lookup_1 _ _ _ _ (inv_caches _ _ _ _ _ _ _ Hw) Hc). Qed.
Lemma moved_from_good n : good_caches n moved_from_context.
Proof. by split. Qed.

Lemma upholds_undefined_handle env ss T C R Q :
  (env = true -> ss ≠ []) ->
  upholds (inv true ss T C R Q) (undefined_handle h env)
    (fun v w => (forall x, v = Some x -> names x = undefined_object /\ scope_of x ∈ ss) /\ (env = true <-> is_Some v) /\
       inv true ss T C R Q w) (inv true ss T C R Q).
Proof.
  intros Hs. destruct env; simpl; [|apply upholds_return; intros w Hw; split_and!; [done|split; [done|by intros []]|done]].
  eapply upholds_then; [apply upholds_undefined; auto|]. intros [v|]; [|by intros w [_ Hw]].
  intros w [[Hn Hv] Hw]. split_and!; [|by split; eauto|done]. intros x [= <-]. by split; [congruence|].
Qed.

(** ** The operations of contexts *)

Lemma good_new n r v t :
  match v, r with Some v, Some r => n !! r = Some (names v) | None, None => True | _, _ => False end ->
  (forall x, t = Some x -> names x = undefined_object) -> good_caches n (mk_context true r v t).
Proof. intros Hr Ht. split; [|done]. intros r' v' [= ->] [= ->]. done. Qed.

Lemma upholds_new_context v ss T C Q :
  ss ≠ [] -> (forall x, v = Some x -> scope_of x ∈ ss) ->
  upholds (inv true ss T C frame Q) (new_context h v) (fun _ w => exists C', inv true ss T C' frame Q w) (inv true ss T C frame Q).
Proof.
  intros Hs Hv. unfold new_context. eapply upholds_then; [by apply upholds_object_new|]. intros r.
  intros w [Hr Hw]. pose proof (upholds_leaves history _ _ _ _ (history w)
    (undefined_handle_history true) (upholds_undefined_handle true ss T C (option_refs r ⊎ frame) Q (fun _ => Hs)) w (conj eq_refl Hw)) as Hu.
  unfold unwinding, mbind, eff_bind. destruct (undefined_handle h true w) as [[t|e| |] w1]; try done.
  - destruct Hu as [Hh (Ht & _ & Hw1)]. unfold add_context, modify. eexists. apply inv_add_context; [exact Hw1|].
    injection Hh as Hn _. rewrite Hn. apply good_new; [done|]. intros x Hx. by apply Ht.
  - destruct Hu as [_ Hw1].
    pose proof (upholds_throw _ _ e (fun (_ : unit) _ => False) (inv true ss T C frame Q)
      (upholds_object_reset r true ss T C frame Q (inv true ss T C frame Q) (or_intror eq_refl)) w1 Hw1) as Ht.
    unfold mbind, eff_bind in Ht. destruct (object_reset r w1) as [[] w2]; done.
Qed.

Lemma upholds_new_borrowed_context v ss T C Q :
  ss ≠ [] ->
  upholds (inv true ss T C frame Q) (new_borrowed_context h v) (fun _ w => exists C', inv true ss T C' frame Q w) (inv true ss T C frame Q).
Proof.
  intros Hs. unfold new_borrowed_context. eapply upholds_then; [by apply upholds_undefined_handle|]. intros t w (Ht & _ & Hw).
  unfold add_context, modify. eexists. apply inv_add_context.
  - simpl. by rewrite (left_id_L ∅ (⊎)).
  - split; [done|]. intros x Hx. by apply Ht.
Qed.

Lemma move_context_wf i w : wf w -> is_Some (contexts w !! i) -> ends_wf (move_context i w).
Proof.
  intros (al & ss & T & C & Hw) Hi. destruct (context_at _ _ _ _ _ _ _ i Hw Hi) as (c & Hc & Hg).
  unfold move_context. rewrite (eff_bind_run _ _ _ _ _ Hg). unfold set_context, add_context, modify, mbind, eff_bind. simpl.
  pose proof (context_good _ _ _ _ _ _ _ _ _ Hw Hc) as Hgood.
  eapply inv_wf, inv_add_context.
  - eapply inv_set_context; [exact Hw|exact Hc|apply moved_from_good|]. simpl. by rewrite (left_id_L ∅ (⊎)).
  - exact Hgood.
Qed.

Lemma drop_context_wf i w : wf w -> droppable w i -> ends_wf (drop_context i w).
Proof.
  intros (al & ss & T & C & Hw) (c & Hi & Hd). unfold drop_context, get_context. unfold mbind, eff_bind. rewrite Hi.
  unfold remove_context, modify. rewrite (inv_alive _ _ _ _ _ _ _ Hw) in Hd. rewrite (inv_contexts _ _ _ _ _ _ _ Hw) in Hi.
  apply (upholds_post _ _ _ (fun _ => wf) wf (upholds_object_reset (callable_ c) al ss T (delete i C) frame [] wf Hd)).
  - intros _ w'. apply inv_wf.
  - by apply inv_remove_context.
Qed.

Lemma set_context_run i c w : set_context i c w = (Ok tt, with_contexts (<[i := c]> (contexts w)) w).
Proof. done. Qed.

Lemma assign_context_wf i j w :
  wf w -> droppable w i -> is_Some (contexts w !! j) -> ends_wf (assign_context i j w).
Proof.
  intros (al & ss & T & C & Hw) (c & Hi & Hd) Hj. unfold assign_context. case_decide as Hne; [by apply (inv_wf al ss T C)|].
  destruct (context_at _ _ _ _ _ _ _ j Hw Hj) as (d & Hdj & Hgj).
  assert (get_context i w = (Ok c, w)) as Hgi by (unfold get_context; by rewrite Hi).
  rewrite (inv_alive _ _ _ _ _ _ _ Hw) in Hd. rewrite (inv_contexts _ _ _ _ _ _ _ Hw) in Hi.
  rewrite (eff_bind_run _ _ _ _ _ Hgi), (eff_bind_run _ _ _ _ _ Hgj).
  pose proof (context_good _ _ _ _ _ _ _ _ _ Hw Hi) as [Hg1 Hg2]. pose proof (context_good _ _ _ _ _ _ _ _ _ Hw Hdj) as Hgd.
  set (C1 := <[i := set_callable_member None c]> C).
  assert (inv al ss T C1 (option_refs (callable_ c) ⊎ frame) []
    (with_contexts (<[i := set_callable_member None c]> (contexts w)) w)) as H1.
  { eapply inv_set_context; [exact Hw|exact Hi|by split|]. simpl. by rewrite (left_id_L ∅ (⊎)). }
  rewrite (eff_bind_run _ _ _ _ _ (set_context_run _ _ _)).
  pose proof (upholds_leaves history _ _ _ _ (named w, calls w) (object_reset_history (callable_ c))
    (upholds_object_reset (callable_ c) al ss T C1 frame [] (fun _ => False) Hd)
    (with_contexts (<[i := set_callable_member None c]> (contexts w)) w) (conj eq_refl H1)) as H2.
  unfold mbind at 1, eff_bind at 1. destruct (object_reset (callable_ c) _) as [[[]|e| |] w2]; [|by destruct H2|exact I|by destruct H2].
  destruct H2 as [Hh H2]. injection Hh as Hn _. unfold set_context, modify, mbind, eff_bind. simpl.
  assert (C1 !! j = Some d) as Hdj1 by (unfold C1; by rewrite list_lookup_insert_ne).
  assert (C1 !! i = Some (set_callable_member None c)) as Hi1.
  { unfold C1. apply list_lookup_insert_eq. by eapply lookup_lt_Some. }
  (* the other context, moved and then assigned *)
  assert (inv al ss T (<[j := moved_from_context]> C1) (option_refs (callable_ d) ⊎ frame) []
    (with_contexts (<[j := moved_from_context]> (contexts w2)) w2)) as H3.
  { eapply inv_set_context; [exact H2|exact Hdj1|apply moved_from_good|]. simpl. by rewrite (left_id_L ∅ (⊎)). }
  pose proof (inv_set_context i _ d al ss T _ _ frame [] _ H3 (ltac:(by rewrite list_lookup_insert_ne) : _ !! i = Some _)) as H4.
  simpl in H4. rewrite (list_insert_insert_ne (contexts w2) j i) by done.
  eapply inv_wf. refine (H4 _ _).
  - fields. by rewrite Hn.
  - by rewrite (left_id_L ∅ (⊎)).
Qed.

(** A cache can be used. *)
Definition usable_in (ss : list nat) (v : option handle) : Prop := forall x, v = Some x -> scope_of x ∈ ss.
(** A context with new caches. *)
Definition same_reference (c c' : context_t) : Prop := env_ c' = env_ c /\ callable_ c' = callable_ c.

Lemma refresh_callable_run i c ss T C Q :
  ss ≠ [] -> C !! i = Some c ->
  upholds (inv true ss T C frame Q) (refresh_callable h i)
    (fun _ w => exists v, usable_in ss v /\ inv true ss T (<[i := set_callable_cache v c]> C) frame Q w) (fun _ => False).
Proof.
  intros Hs Hc. unfold refresh_callable. eapply upholds_then; [by apply upholds_get_context|]. intros c' w [-> Hw]. revert w Hw.
  intros w Hw. assert (forall x, callable_ c = Some x -> x ∈ context_refs C ⊎ frame) as Hin.
  { intros x Hx. apply gmultiset_elem_of_disj_union. left. by eapply context_refs_elem. }
  pose proof (upholds_object_get (callable_ c) ss T C frame Q (fun _ => False) Hs Hin w Hw) as Hv.
  unfold mbind, eff_bind. destruct (object_get h (callable_ c) w) as [[v|e| |] w1]; try done.
  destruct Hv as [Hv Hw1]. rewrite set_context_run. exists v. split.
  - intros x ->. by destruct Hv as (r & _ & _ & ?).
  - eapply inv_set_context; [exact Hw1|exact Hc| |done].
    split; [|exact (proj2 (context_good _ _ _ _ _ _ _ _ _ Hw1 Hc))]. simpl. intros r x Hr ->.
    destruct Hv as (r' & Hr' & Hn & _). simplify_eq. by rewrite Hn.
Qed.

Lemma refresh_this_arg_run i c ss T C Q :
  ss ≠ [] -> C !! i = Some c ->
  upholds (inv true ss T C frame Q) (refresh_this_arg h i)
    (fun _ w => exists c', same_reference c c' /\ callable_cache_ c' = callable_cache_ c /\
       (if env_ c then usable_in ss (this_arg_cache_ c') /\ is_Some (this_arg_cache_ c') else c' = c) /\
       inv true ss T (<[i := c']> C) frame Q w) (inv true ss T C frame Q).
Proof.
  intros Hs Hc. unfold refresh_this_arg. eapply upholds_then; [by apply upholds_get_context|]. intros c' w [-> Hw]. revert w Hw.
  destruct (env_ c) eqn:Henv.
  - eapply upholds_then; [by apply upholds_undefined_handle|]. intros t w (Ht & Hsome & Hw). rewrite set_context_run.
    exists (set_this_arg_cache t c). split; [done|]. split; [done|]. split.
    + split; [|by apply Hsome]. intros x Hx. by apply Ht.
    + eapply inv_set_context; [exact Hw|exact Hc| |done].
      split; [exact (proj1 (context_good _ _ _ _ _ _ _ _ _ Hw Hc))|]. intros x Hx. by apply Ht.
  - apply upholds_return. intros w Hw. exists c. rewrite list_insert_id by done. done.
Qed.

Lemma refresh_wf i w : wf w -> is_Some (contexts w !! i) -> in_env w -> ends_wf (refresh h i w).
Proof.
  intros (al & ss & T & C & Hw) Hi [Ha Hs]. destruct (context_at _ _ _ _ _ _ _ i Hw Hi) as (c & Hc & _).
  rewrite (inv_alive _ _ _ _ _ _ _ Hw) in Ha. subst al. rewrite (inv_scopes _ _ _ _ _ _ _ Hw) in Hs.
  pose proof (refresh_callable_run i c ss T C [] Hs Hc w Hw) as H1. unfold refresh, mbind, eff_bind.
  destruct (refresh_callable h i w) as [[[]|e| |] w1]; try done. destruct H1 as (v & Hv & H1).
  pose proof (refresh_this_arg_run i (set_callable_cache v c) ss T _ [] Hs
    (list_lookup_insert_eq _ _ _ (lookup_lt_Some _ _ _ Hc)) w1 H1) as H2.
  destruct (refresh_this_arg h i w1) as [[[]|e| |] w2]; try done; [|by eapply inv_wf].
  destruct H2 as (c' & _ & _ & _ & H2). by eapply inv_wf.
Qed.

Lemma set_callable_wf i v w :
  wf w -> is_Some (contexts w !! i) -> env_alive w = true -> usable_all w (option_list v) -> ends_wf (set_callable h i v w).
Proof.
  intros (al & ss & T & C & Hw) Hi Ha Hv. destruct (context_at _ _ _ _ _ _ _ i Hw Hi) as (c & Hc & Hg).
  rewrite (inv_alive _ _ _ _ _ _ _ Hw) in Ha. subst al. unfold usable_all, usable in Hv.
  rewrite (inv_scopes _ _ _ _ _ _ _ Hw) in Hv.
  unfold set_callable. rewrite (eff_bind_run _ _ _ _ _ Hg), (eff_bind_run _ _ _ _ _ (set_context_run _ _ _)).
  set (c1 := set_callable_member None c). set (C1 := <[i := c1]> C).
  assert (C1 !! i = Some c1) as Hc1 by (apply list_lookup_insert_eq; by eapply lookup_lt_Some).
  assert (inv true ss T C1 (option_refs (callable_ c) ⊎ frame) [] (with_contexts (<[i := c1]> (contexts w)) w)) as H1.
  { eapply inv_set_context; [exact Hw|exact Hc| |]; [|simpl; by rewrite (left_id_L ∅ (⊎))].
    split; [done|exact (proj2 (context_good _ _ _ _ _ _ _ _ _ Hw Hc))]. }
  revert H1. generalize (with_contexts (<[i := c1]> (contexts w)) w). eapply (upholds_then _ _ _ _ _ wf).
  { apply upholds_object_reset. by right. }
  intros ?. eapply (upholds_then _ _ _ (fun r w => match v, r with
      | Some v, Some r => named w !! r = Some (names v) | None, None => True | _, _ => False end /\
      inv true ss T C1 (option_refs r ⊎ frame) [] w) _ wf).
  { destruct (env_ c).
    - eapply upholds_weaken; [apply upholds_object_new|apply inv_wf]. intros x ->. by inversion Hv.
    - destruct v; [intros w' Hw'; by eapply inv_wf|]. apply upholds_return. intros w' Hw'. split; [done|]. simpl. by rewrite (left_id_L ∅ (⊎)). }
  intros r w' [Hr H2].
  assert (get_context i w' = (Ok c1, w')) as Hg1 by (unfold get_context; by rewrite (inv_contexts _ _ _ _ _ _ _ H2), Hc1).
  rewrite (eff_bind_run _ _ _ _ _ Hg1), set_context_run.
  eapply inv_wf, inv_set_context; [exact H2|exact Hc1| |].
  - split; [|exact (proj2 (context_good _ _ _ _ _ _ _ _ _ H2 Hc1))]. simpl. intros r' v' -> ->. done.
  - simpl. by rewrite (left_id_L ∅ (⊎)).
Qed.

(** ** Calls *)

Lemma refresh_callable_history i : leaves history (refresh_callable h i).
Proof.
  unfold refresh_callable. apply leaves_then; [leaves|]. intros c. apply leaves_then; [apply object_get_history|]. leaves.
Qed.
Lemma refresh_this_arg_history i : leaves history (refresh_this_arg h i).
Proof.
  unfold refresh_this_arg. apply leaves_then; [leaves|]. intros c. destruct (env_ c); [|leaves].
  apply leaves_then; [apply undefined_handle_history|]. leaves.
Qed.
Lemma callable_history i : leaves history (callable h i).
Proof.
  unfold callable. apply leaves_then; [leaves|]. intros c. destruct (callable_cache_ c); [leaves|].
  apply leaves_then; [apply refresh_callable_history|]. leaves.
Qed.
Lemma this_arg_history i : leaves history (this_arg h i).
Proof.
  unfold this_arg. apply leaves_then; [leaves|]. intros c. destruct (this_arg_cache_ c); [leaves|].
  apply leaves_then; [apply refresh_this_arg_history|]. leaves.
Qed.

Lemma insert_at {X} (C : list X) i c c' : C !! i = Some c -> <[i := c']> C !! i = Some c'.
Proof. intros Hc. apply list_lookup_insert_eq. by eapply lookup_lt_Some. Qed.

Lemma callable_run i c ss T C Q :
  ss ≠ [] -> C !! i = Some c -> usable_in ss (callable_cache_ c) ->
  upholds (inv true ss T C frame Q) (callable h i)
    (fun f w => exists c', same_reference c c' /\ callable_cache_ c' = f /\ usable_in ss f /\
       this_arg_cache_ c' = this_arg_cache_ c /\ inv true ss T (<[i := c']> C) frame Q w) (fun _ => False).
Proof.
  intros Hs Hc Hu. unfold callable. eapply upholds_then; [by apply upholds_get_context|]. intros c0 w [-> Hw]. revert w Hw.
  destruct (callable_cache_ c) as [v|] eqn:Hv.
  - apply upholds_return. intros w Hw. exists c. rewrite list_insert_id by done. by rewrite Hv.
  - eapply upholds_then; [by apply refresh_callable_run|]. intros ? w (v & Huv & Hw).
    assert (get_context i w = (Ok (set_callable_cache v c), w)) as Hg.
    { unfold get_context. by rewrite (inv_contexts _ _ _ _ _ _ _ Hw), (insert_at _ _ _ _ Hc). }
    rewrite (eff_bind_run _ _ _ _ _ Hg). by exists (set_callable_cache v c).
Qed.
Lemma this_arg_run i c ss T C Q :
  ss ≠ [] -> C !! i = Some c -> usable_in ss (this_arg_cache_ c) ->
  upholds (inv true ss T C frame Q) (this_arg h i)
    (fun t w => exists c', same_reference c c' /\ callable_cache_ c' = callable_cache_ c /\ this_arg_cache_ c' = t /\
       usable_in ss t /\ inv true ss T (<[i := c']> C) frame Q w) (inv true ss T C frame Q).
Proof.
  intros Hs Hc Hu. unfold this_arg. eapply upholds_then; [by apply upholds_get_context|]. intros c0 w [-> Hw]. revert w Hw.
  destruct (this_arg_cache_ c) as [v|] eqn:Hv.
  - apply upholds_return. intros w Hw. exists c. rewrite list_insert_id by done. by rewrite Hv.
  - eapply upholds_then; [by apply refresh_this_arg_run|]. intros ? w (c' & Hsame & Hcache & Hthis & Hw).
    assert (get_context i w = (Ok c', w)) as Hg.
    { unfold get_context. by rewrite (inv_contexts _ _ _ _ _ _ _ Hw), (insert_at _ _ _ _ Hc). }
    rewrite (eff_bind_run _ _ _ _ _ Hg). exists c'. split_and!; [apply Hsame..|done|done| |done].
    destruct (env_ c); [apply Hthis|]. subst c'. by rewrite Hv.
Qed.

Lemma upholds_use_handles vs al ss T C R Q E :
  Forall (fun v => scope_of v ∈ ss) vs ->
  upholds (inv al ss T C R Q) (use_handles vs) (fun os w => os = map names vs /\ inv al ss T C R Q w) E.
Proof.
  intros Hvs. induction Hvs as [|v vs Hv Hvs IH]; simpl; [by apply upholds_return|].
  eapply upholds_then; [by apply upholds_napi_value|]. intros o w [-> Hw]. revert w Hw.
  eapply upholds_then; [exact IH|]. intros os w [-> Hw]. done.
Qed.
Lemma use_handles_history vs : leaves history (use_handles vs).
Proof. induction vs; simpl; leaves; exact IHvs. Qed.

Lemma use_handle_run v al ss T C R Q w : inv al ss T C R Q w -> scope_of v ∈ ss -> use_handle v w = (Ok (names v), w).
Proof. intros Hw Hv. unfold use_handle. rewrite (inv_scopes _ _ _ _ _ _ _ Hw). by rewrite decide_True. Qed.

(** A call reaches the function, with the receiver and the arguments it was given. *)
Lemma call_function_run env t f args ss T C Q w :
  ss ≠ [] -> usable_in ss t -> usable_in ss f -> Forall (fun v => scope_of v ∈ ss) args ->
  inv true ss T C frame Q w ->
  match napi_call_function h env t f args w with
  | (Ok (Some v), w') => inv true ss T C frame Q w' /\ exists x y, f = Some x /\ t = Some y /\ named w' = named w /\
      calls w' = (names x, names y, map names args) :: calls w
  | (Ok None, w') => inv true ss T C frame Q w'
  | (Aborted, _) => True
  | _ => False
  end.
Proof.
  intros Hs Ht Hf Hargs Hw. unfold napi_call_function. destruct env, t as [t|], f as [f|]; try exact Hw.
  rewrite (eff_bind_run _ _ _ _ _ (use_handle_run _ _ _ _ _ _ _ _ Hw (Ht t eq_refl))).
  rewrite (eff_bind_run _ _ _ _ _ (use_handle_run _ _ _ _ _ _ _ _ Hw (Hf f eq_refl))).
  pose proof (upholds_use_handles args true ss T C frame Q (fun _ => False) Hargs w Hw) as H2.
  pose proof (use_handles_history args w) as Hh.
  unfold mbind at 1, eff_bind at 1. destruct (use_handles args w) as [[os|e| |] w1]; try done.
  destruct H2 as [-> H2]. simpl in Hh. injection Hh as Hn Hc. destruct H2 as [].
  unfold api, mbind, eff_bind. rewrite inv_alive0. unfold log_call, modify. fields.
  destruct (call_function h (clock w1) (names f) (names t) (map names args)) as [o|]; [|by split; fields].
  unfold new_handle. fields. rewrite inv_scopes0. destruct ss as [|s ss]; [done|]. split; [by split; fields|].
  exists f, t. fields. by rewrite Hn, Hc.
Qed.

(** What a context calls: the function its reference names, with undefined for this. *)
Definition calls_through (w : world) (c : context_t) (receiver : option handle) (args : list handle) (w' : world) : Prop :=
  exists f, (forall r, callable_ c = Some r -> named w !! r = Some f) /\
    calls w' = (f, undefined_object, map names (option_list receiver ++ args)) :: calls w.

Lemma call_run i c f args ss T C Q w :
  ss ≠ [] -> C !! i = Some c -> callable_cache_ c = f -> usable_in ss f -> usable_in ss (this_arg_cache_ c) ->
  Forall (fun v => scope_of v ∈ ss) args -> inv true ss T C frame Q w ->
  match call h i f args w with
  | (Ok _, w') => (exists C', inv true ss T C' frame Q w') /\
      exists x, f = Some x /\ calls w' = (names x, undefined_object, map names args) :: calls w
  | (Throw _, w') => exists C', inv true ss T C' frame Q w'
  | (Aborted, _) => True
  | (Undefined, _) => False
  end.
Proof.
  intros Hs Hc Hf Huf Hut Hargs Hw. unfold call.
  pose proof (upholds_leaves history _ _ _ _ (history w) (this_arg_history i)
    (this_arg_run i c ss T C Q Hs Hc Hut) w (conj eq_refl Hw)) as Ht.
  unfold mbind at 1, eff_bind at 1. destruct (this_arg h i w) as [[t|e| |] w1]; try done; [|by destruct Ht; eauto].
  destruct Ht as [Hh (c' & [Henv Href] & Hcache & Hthis & Hu & H1)]. injection Hh as Hn Hcalls.
  assert (get_context i w1 = (Ok c', w1)) as Hg.
  { unfold get_context. by rewrite (inv_contexts _ _ _ _ _ _ _ H1), (insert_at _ _ _ _ Hc). }
  rewrite (eff_bind_run _ _ _ _ _ Hg).
  pose proof (call_function_run (env_ c') t f args ss T _ Q w1 Hs Hu Huf Hargs H1) as Hr.
  unfold mbind, eff_bind. destruct (napi_call_function h (env_ c') t f args w1) as [[[v|]|e| |] w2]; try done; [|exact (ex_intro _ _ Hr)].
  destruct Hr as (H2 & x & y & -> & Hy & _ & Hlog). split; [by eauto|]. exists x. split; [done|].
  rewrite Hlog, Hcalls. subst t. destruct (context_good _ _ _ _ _ _ _ _ _ H1 (insert_at _ _ _ _ Hc)) as [_ Hundef].
  by rewrite (Hundef y Hy).
Qed.

Lemma invoke_run i c receiver args ss T C Q w :
  ss ≠ [] -> C !! i = Some c -> usable_in ss (callable_cache_ c) -> usable_in ss (this_arg_cache_ c) ->
  Forall (fun v => scope_of v ∈ ss) (option_list receiver ++ args) -> inv true ss T C frame Q w ->
  match invoke_impl h i receiver args w with
  | (Ok _, w') => (exists C', inv true ss T C' frame Q w') /\ calls_through w c receiver args w'
  | (Throw _, w') => exists C', inv true ss T C' frame Q w'
  | (Aborted, _) => True
  | (Undefined, _) => False
  end.
Proof.
  intros Hs Hc Huf Hut Hargs Hw. unfold invoke_impl.
  pose proof (upholds_leaves history _ _ _ _ (history w) (callable_history i)
    (callable_run i c ss T C Q Hs Hc Huf) w (conj eq_refl Hw)) as Hf.
  unfold mbind, eff_bind. destruct (callable h i w) as [[f|e| |] w1]; try done; [|by destruct Hf].
  destruct Hf as [Hh (c' & [Henv Href] & Hcache & Hu & Hthis & H1)]. injection Hh as Hn Hcalls.
  assert ((match receiver with Some r => r :: args | None => args end) = option_list receiver ++ args) as -> by by destruct receiver.
  pose proof (call_run i c' f (option_list receiver ++ args) ss T _ Q w1 Hs (insert_at _ _ _ _ Hc) Hcache Hu
    ltac:(by rewrite Hthis) Hargs H1) as Hr.
  destruct (call h i f _ w1) as [[v|e| |] w2]; try done. destruct Hr as (H2 & x & Hx & Hlog). split; [done|].
  exists (names x). split; [|by rewrite Hlog, Hcalls]. intros r Hr. rewrite <- Hn.
  destruct (context_good _ _ _ _ _ _ _ _ _ H1 (insert_at _ _ _ _ Hc)) as [Hnamed _].
  apply (Hnamed r x); [by rewrite Href|by rewrite Hcache].
Qed.

Lemma usable_open w vs al ss T C R Q :
  inv al ss T C R Q w -> usable_all w vs -> Forall (fun v => scope_of v ∈ ss) vs.
Proof. intros Hw Hv. unfold usable_all, usable in Hv. by rewrite (inv_scopes _ _ _ _ _ _ _ Hw) in Hv. Qed.
Lemma usable_option ss v : Forall (fun v => scope_of v ∈ ss) (option_list v) -> usable_in ss v.
Proof. intros Hv x ->. by inversion Hv. Qed.

(** The premises of a call, from those of a program. *)
Lemma invoke_admissible i receiver args w : wf w -> admissible (Invoke i receiver args) w ->
  exists c ss T C, C !! i = Some c /\ contexts w !! i = Some c /\ ss ≠ [] /\ inv true ss T C frame [] w /\
    usable_in ss (callable_cache_ c) /\ usable_in ss (this_arg_cache_ c) /\
    Forall (fun v => scope_of v ∈ ss) (option_list receiver ++ args).
Proof.
  intros (al & ss & T & C & Hw) ((Ha & Hs) & Hargs & c & Hi & Hc). exists c, ss, T, C.
  rewrite (inv_alive _ _ _ _ _ _ _ Hw) in Ha. subst al. pose proof (usable_open _ _ _ _ _ _ _ _ Hw Hc) as Huc.
  apply Forall_app in Huc as [Hu1 Hu2]. rewrite (inv_scopes _ _ _ _ _ _ _ Hw) in Hs.
  split_and!; [|done|done|done|by apply usable_option..|by eapply usable_open]. by rewrite <- (inv_contexts _ _ _ _ _ _ _ Hw).
Qed.

(** ** The end of the environment *)

Lemma full_boxes_nodup m : NoDup (full_boxes m).
Proof.
  unfold full_boxes. pose proof (NoDup_fst_map_to_list m) as Hn. revert Hn. generalize (map_to_list m). intros l.
  induction l as [|[q x] l IH]; simpl; [constructor|]. intros [Hq Hl]%NoDup_cons. destruct x as [r|]; simpl; [|by apply IH].
  apply NoDup_cons. split; [|by apply IH]. intros Hin. apply Hq.
  apply list_elem_of_omap in Hin as ([q' [y|]] & Hin & ?); simplify_eq/=. apply list_elem_of_fmap. by exists (q, Some y).
Qed.
Lemma full_boxes_in m q : q ∈ full_boxes m -> exists r, m !! q = Some (Some r).
Proof.
  intros Hin. unfold full_boxes in Hin. apply list_elem_of_omap in Hin as ([q' [r|]] & Hin & ?); simplify_eq/=.
  apply elem_of_map_to_list in Hin. by exists r.
Qed.
Lemma cleanup_hooks q : leaves hooks (cleanup q).
Proof.
  unfold cleanup, get_box, napi_delete_reference. apply leaves_then; [intros w; by repeat case_match|]. intros [r|]; leaves.
Qed.

Lemma run_hooks_run qs ss T C R Q w :
  hooks w = qs -> inv true ss T C R Q w ->
  match run_hooks qs w with
  | (Ok _, w') => hooks w' = [] /\ inv true ss T C R Q w'
  | (Aborted, _) => True
  | _ => False
  end.
Proof.
  revert w. induction qs as [|q qs IH]; intros w Hq Hw; simpl; [done|].
  assert (NoDup (q :: qs)) as [Hnot _]%NoDup_cons by (rewrite <- Hq, (inv_hooks _ _ _ _ _ _ _ Hw); apply full_boxes_nodup).
  destruct (full_boxes_in (boxes w) q) as [r Hr]; [rewrite <- (inv_hooks _ _ _ _ _ _ _ Hw), Hq; left|].
  pose proof (upholds_detach q r ss T C R Q (fun _ => False) w (conj Hr Hw)) as Hd.
  assert (hooks ((remove_hook q ;; cleanup q) w).2 = qs) as Hh.
  { unfold mbind, eff_bind. unfold remove_hook at 1. rewrite (cleanup_hooks q). fields. rewrite Hq.
    rewrite filter_cons_False by auto. by apply filter_other. }
  unfold mbind, eff_bind in *. destruct (remove_hook q w) as [[]  w1]; try done.
  destruct (cleanup q w1) as [[] w2]; try done. apply IH; [exact Hh|by destruct Hd].
Qed.

Lemma teardown_run w : wf w -> env_alive w = true ->
  match teardown w with
  | (Ok _, w') => env_alive w' = false /\ wf w'
  | (Aborted, _) => True
  | _ => False
  end.
Proof.
  intros (al & ss & T & C & Hw) Ha. rewrite (inv_alive _ _ _ _ _ _ _ Hw) in Ha. subst al. unfold teardown, gets.
  pose proof (run_hooks_run (hooks w) ss T C frame [] w eq_refl Hw) as Hr. unfold mbind, eff_bind.
  destruct (run_hooks (hooks w) w) as [[] w']; try done. destruct Hr as [Hh []]. unfold end_env, modify. fields. split; [done|].
  exists false, [], T, C. by split; fields.
Qed.

Lemma import_impl_wf source name w :
  wf w -> in_env w -> usable w source -> ends_wf (import_impl h source name w).
Proof.
  intros (al & ss & T & C & Hw) [Ha Hs] Hu. unfold usable in Hu.
  rewrite (inv_alive _ _ _ _ _ _ _ Hw) in Ha. subst al. rewrite (inv_scopes _ _ _ _ _ _ _ Hw) in Hs, Hu.
  refine (upholds_ends true ss T C _ w _ Hw). unfold import_impl.
  eapply (upholds_then _ _ _ (fun v w => scope_of v ∈ ss /\ inv true ss T C frame [] w)).
  - unfold import_property. eapply upholds_then; [by apply upholds_napi_value|]. intros o w1 [-> H1]. revert w1 H1.
    eapply upholds_then; [apply upholds_api|]. intros [o|]; [|intros w1 H1; by eapply inv_wf].
    eapply (upholds_then _ _ _ (fun _ => inv true ss T C frame [])); [by apply upholds_return|]. intros o'.
    eapply upholds_post; [by apply upholds_new_handle|]. by intros v w1 [[_ Hv] H1].
  - intros v w1 [Hv H1]. revert w1 H1. eapply upholds_weaken; [|apply inv_wf].
    eapply upholds_post; [apply (upholds_new_context (Some v) ss T C [] Hs); by intros x [= <-]|].
    intros _ w1 [C' H1]. by eapply inv_wf.
Qed.

Lemma new_context_wf v w : wf w -> in_env w -> usable_all w (option_list v) -> ends_wf (new_context h v w).
Proof.
  intros (al & ss & T & C & Hw) [Ha Hs] Hu. pose proof (usable_option _ _ (usable_open _ _ _ _ _ _ _ _ Hw Hu)) as Hv.
  rewrite (inv_alive _ _ _ _ _ _ _ Hw) in Ha. subst al. rewrite (inv_scopes _ _ _ _ _ _ _ Hw) in Hs.
  refine (upholds_ends true ss T C _ w _ Hw). eapply upholds_weaken; [|apply inv_wf].
  eapply upholds_post; [by apply upholds_new_context|]. intros _ w1 [C' H1]. by eapply inv_wf.
Qed.

Lemma try_import_wf v w : wf w -> in_env w -> usable_all w (option_list v) ->
  ends_wf ((try_import_callable h v ;; mret tt) w).
Proof.
  intros (al & ss & T & C & Hw) [Ha Hs] Hu. pose proof (usable_option _ _ (usable_open _ _ _ _ _ _ _ _ Hw Hu)) as Hv.
  rewrite (inv_alive _ _ _ _ _ _ _ Hw) in Ha. subst al. rewrite (inv_scopes _ _ _ _ _ _ _ Hw) in Hs.
  refine (upholds_ends true ss T C _ w _ Hw). eapply (upholds_then _ _ _ (fun _ => wf)); [|intros ?; by apply upholds_return].
  unfold try_import_callable. destruct v as [v|]; [|apply upholds_return; intros w1; apply inv_wf].
  eapply upholds_then; [apply upholds_napi_value; by apply Hv|]. intros o w1 [_ H1]. revert w1 H1.
  eapply upholds_then; [apply upholds_api|]. intros []; [|apply upholds_return; intros w1; apply inv_wf].
  eapply upholds_then; [eapply upholds_weaken; [by apply upholds_new_borrowed_context|apply inv_wf]|].
  intros ?. apply upholds_return. intros w1 [C' H1]. by eapply inv_wf.
Qed.

Lemma run_wf a w : wf w -> admissible a w -> ends_wf (run h a w).
Proof.
  intros Hw Ha. destruct a; simpl in Ha.
  - destruct_and?. by apply new_target_wf.
  - destruct_and?. by apply move_target_wf.
  - destruct_and?. by apply assign_target_wf.
  - destruct_and?. by apply drop_target_wf.
  - destruct_and?. by apply new_context_wf.
  - destruct_and?. by apply move_context_wf.
  - destruct_and?. by apply assign_context_wf.
  - destruct_and?. by apply drop_context_wf.
  - destruct_and?. by apply set_callable_wf.
  - destruct_and?. by apply refresh_wf.
  - destruct (invoke_admissible i receiver args w Hw Ha) as (c & ss & T & C & H1 & _ & H2 & H3 & H4 & H5 & H6).
    pose proof (invoke_run i c receiver args ss T C [] w H2 H1 H4 H5 H6 H3) as Hr. simpl. unfold mbind, eff_bind.
    destruct (invoke_impl h i receiver args w) as [[v|e| |] w']; try done; [destruct Hr as [[C' Hr] _]|destruct Hr as [C' Hr]];
      by eapply inv_wf.
  - destruct_and?. by apply import_impl_wf.
  - destruct_and?. by apply try_import_wf.
  - destruct Hw as (al & ss & T & C & []). exists al, (next_scope w :: ss), T, C. split; fields; try done. by rewrite inv_scopes0.
  - destruct Hw as (al & ss & T & C & []). exists al, (tail ss), T, C. split; fields; try done. by rewrite inv_scopes0.
  - pose proof (teardown_run w Hw Ha) as Ht. simpl. destruct (teardown w) as [[] w']; try done. by destruct Ht.
Qed.
End Ownership.

Lemma start_wf : wf ∅ start.
Proof.
  exists true, [], [], []. unfold start. split; fields; try done; [intros r Hr; by apply gmultiset_elem_of_empty in Hr|].
  intros q [x Hq]. by rewrite lookup_empty in Hq.
Qed.
Lemma reachable_wf h w : reachable h w -> wf ∅ w.
Proof.
  apply (rtc_ind_r (wf ∅)); [apply start_wf|]. intros w1 w2 _ Hs Hw.
  destruct Hs as [a u u' Ha Hr|a u u' e Ha Hr]; pose proof (run_wf h ∅ a u Hw Ha) as He; by rewrite Hr in He.
Qed.

(** ** What holds of every program *)

(** [backends/napi.h], references and the end of the environment: however a program makes,
    moves, assigns, refreshes and destroys class targets and contexts, whatever Node-API
    answers and whenever the environment is torn down, no operation whose handles are usable
    has undefined behaviour (no reference is deleted twice or used after it, no hook reaches
    a freed [constructor_reference]). The live references are those of the boxes and of the
    contexts, each owned once, every box is behind one target, and the environment has
    exactly one hook per box that still has its reference. After the environment is gone no
    box has one, and when the last target and context are destroyed nothing is left. *)
Theorem napi_references_owned (h : host) (w : world) : reachable h w ->
  references w = box_refs (boxes w) ⊎ context_refs (contexts w) /\
  Permutation (hooks w) (full_boxes (boxes w)) /\
  Permutation (map_to_list (boxes w)).*1 (omap reference_ (targets w)) /\
  (env_alive w = false -> hooks w = [] /\ full_boxes (boxes w) = []) /\
  (targets w = [] -> contexts w = [] -> references w = ∅ /\ boxes w = ∅ /\ hooks w = []) /\
  forall a, admissible a w -> ends_wf ∅ (run h a w).
Proof.
  intros Hw%reachable_wf. assert (forall a, admissible a w -> ends_wf ∅ (run h a w)) as Hrun by (intros a; by apply run_wf).
  destruct Hw as (al & ss & T & C & []). rewrite inv_targets0, inv_contexts0, inv_alive0.
  rewrite (right_id_L ∅ (⊎)) in inv_references0. rewrite app_nil_r in inv_boxes0. split_and!; [done..| | |done].
  - intros ->. specialize (inv_dead0 eq_refl). split; [done|]. rewrite inv_dead0 in inv_hooks0. by apply Permutation_nil in inv_hooks0.
  - intros -> ->. assert (boxes w = ∅) as He.
    { apply map_to_list_empty_iff. apply Permutation_sym, Permutation_nil, fmap_nil_inv in inv_boxes0. done. }
    rewrite He in *. split_and!; [done..|]. by apply Permutation_sym, Permutation_nil in inv_hooks0.
Qed.

(** [context_t], [invoke_impl], [call]: in every reachable state, a call through a context
    whose caches belong to open scopes returns only after the function was called once, with
    [undefined] for this and the receiver of a member call before the arguments, and it is
    the function the context's reference names, whether or not the context was moved,
    assigned, given another function or refreshed before. *)
Theorem context_calls_its_function (h : host) (w : world) (i : nat) (c : context_t) receiver args :
  reachable h w -> admissible (Invoke i receiver args) w -> contexts w !! i = Some c ->
  match invoke_impl h i receiver args w with
  | (Ok _, w') => calls_through w c receiver args w'
  | (Undefined, _) => False
  | _ => True
  end.
Proof.
  intros Hw%reachable_wf Ha Hc.
  destruct (invoke_admissible ∅ i receiver args w Hw Ha) as (c' & ss & T & C & H1 & H0 & H2 & H3 & H4 & H5 & H6).
  pose proof (invoke_run h ∅ i c' receiver args ss T C [] w H2 H1 H4 H5 H6 H3) as Hr. simplify_eq.
  destruct (invoke_impl h i receiver args w) as [[v|e| |] w']; try done. by destruct Hr.
Qed.

(** ** A program *)

(** A host that answers everything, and returns the first argument of a call. *)
Definition sample_host : host :=
  mk_host (fun _ => true) (fun _ => true) (fun _ => true) (fun _ => true) (fun _ _ _ => Some 5%nat)
    (fun _ _ _ args => head args) (fun _ _ => true).
Definition after (a : action) (w : world) : world := (run sample_host a w).2.
Definition sample_calls : world :=
  after (SetCallable 0 (Some (mk_handle 0 9))) (after (MoveContext 0) (after (NewContext (Some (mk_handle 0 8))) (after OpenScope start))).
Definition sample_torn_down : world :=
  after Teardown (after (MoveTarget 0) (after (NewTarget (mk_handle 0 7) 1) (after OpenScope start))).

Lemma after_step a w : admissible a w -> (run sample_host a w).1 = Ok tt -> step sample_host w (after a w).
Proof.
  intros Ha Hr. apply (do_return sample_host a); [done|]. unfold after.
  destruct (run sample_host a w) as [r w']; simpl in *. by subst r.
Qed.
Ltac sample_step := eapply rtc_r; [|apply after_step; [|vm_compute; reflexivity]].
Lemma sample_calls_reachable : reachable sample_host sample_calls.
Proof.
  unfold sample_calls. repeat sample_step; [apply rtc_refl|done| | |].
  - split; [by split|]. constructor; [left|constructor].
  - by eexists.
  - split_and!; [by eexists|done|]. constructor; [left|constructor].
Qed.
Lemma sample_torn_down_reachable : reachable sample_host sample_torn_down.
Proof.
  unfold sample_torn_down. repeat sample_step; [apply rtc_refl|done| | |].
  - split; [done|left].
  - by eexists.
  - done.
Qed.

Lemma sample_torn_down_targets :
  targets sample_torn_down = [mk_target (Some 0%nat) true (Some 0%nat) (Some 1%nat); moved_from_target].
Proof. vm_compute. reflexivity. Qed.
Lemma sample_torn_down_env : env_alive sample_torn_down = false.
Proof. vm_compute. reflexivity. Qed.
Lemma sample_droppable : admissible (DropTarget 0) sample_torn_down.
Proof. exact (ex_intro _ _ (f_equal (fun l => l !! 0%nat) sample_torn_down_targets)). Qed.

Lemma napi_references_owned_witness :
  (hooks sample_torn_down = [] /\ full_boxes (boxes sample_torn_down) = []) /\
  ends_wf ∅ (run sample_host (DropTarget 0) sample_torn_down).
Proof.
  pose proof (proj2 (proj2 (proj2 (napi_references_owned sample_host sample_torn_down sample_torn_down_reachable)))) as Howned.
  split; [exact (proj1 Howned sample_torn_down_env)|exact (proj2 (proj2 Howned) (DropTarget 0) sample_droppable)].
Defined.

Definition sample_context : context_t :=
  mk_context true (Some 1%nat) (Some (mk_handle 0 9)) (Some (mk_handle 0 undefined_object)).
Lemma sample_calls_world :
  env_alive sample_calls = true /\ scopes sample_calls = [0%nat] /\ contexts sample_calls !! 0%nat = Some sample_context.
Proof. vm_compute. done. Qed.
Lemma sample_invocable : admissible (Invoke 0 None [mk_handle 0 6]) sample_calls.
Proof.
  destruct sample_calls_world as (Ha & Hs & Hc). unfold admissible, in_env, usable_all, usable. rewrite Ha, Hs.
  split_and!; [done|done|repeat constructor|]. exists sample_context. split; [exact Hc|repeat constructor].
Qed.
Lemma sample_call_result :
  exists w', invoke_impl sample_host 0 None [mk_handle 0 6] sample_calls = (Ok (mk_handle 0 6), w') /\
    calls w' = [(9, 0, [6])%nat].
Proof. eexists. split; vm_compute; reflexivity. Qed.

Lemma context_calls_its_function_witness :
  exists w', invoke_impl sample_host 0 None [mk_handle 0 6] sample_calls = (Ok (mk_handle 0 6), w') /\
    calls_through sample_calls sample_context None [mk_handle 0 6] w' /\ calls w' = [(9, 0, [6])%nat].
Proof.
  destruct sample_call_result as (w' & Hrun & Hcalls). exists w'. split; [exact Hrun|]. split; [|exact Hcalls].
  pose proof (context_calls_its_function sample_host sample_calls 0 sample_context None [mk_handle 0 6]
    sample_calls_reachable sample_invocable (proj2 (proj2 sample_calls_world))) as Hr.
  rewrite Hrun in Hr. exact Hr.
Defined.
