(* ===== verification/NapiObjects.v ===== *)
(** * backends/napi.h: the objects of C++

    [object_t] owns a reference to an object of the environment. A program constructs
    imported objects, makes, moves, assigns, resets and destroys objects, reads and
    publishes them, among the operations of [NapiReferences] on class targets, contexts and
    the environment, whose invariant frames the references of the objects. *)

From Stdlib Require Import ZArith Lia.
From stdpp Require Import base list gmap gmultiset.
From S2P Require Import Prelude Ownership NapiReferences.

(** [object_t]: its environment, when it was given one, and its reference. *)
Record object_t := mk_object { object_env : bool; object_ref : option nat }.
Definition object_refs (os : list object_t) : gmultiset nat := refs (fun o => option_refs (object_ref o)) os.

Record program := mk_program { napi : world; objects : list object_t }.

Section Objects.
Context (h : host).
(** More answers of Node-API: the instance that a constructor makes, the pointer that an
    object wraps, and whether a property is set. *)
Context (new_instance : nat -> nat -> list nat -> option nat) (unwrap : nat -> nat -> option nat)
  (set_property : nat -> nat -> string -> nat -> bool).
Abbreviation M := (eff world).
Abbreviation P := (eff program).

(** ** Members of [object_t] *)

(** [napi_new_instance] refuses a null environment or constructor; the call is logged with the
    new object for this. *)
Definition napi_new_instance (env : bool) (f : option handle) (args : list handle) : M (option handle) :=
  match env, f with
  | true, Some f =>
      f ← use_handle f; args ← use_handles args;
      result ← api (fun t => new_instance t f args);
      match result with
      | Some o => log_call f o args ;; v ← new_handle o; mret (Some v)
      | None => mret None
      end
  | _, _ => mret None
  end.

(** [reset(env, value)]: the new [ref_]. *)
Definition object_reset_to (ref_ : option nat) (v : option handle) : M (option nat) := object_reset ref_ ;; object_new h v.
Definition construct_import_object_impl (context : nat) (env : bool) (args : list handle) : M (option nat) :=
  f ← callable h context;
  v ← napi_new_instance env f args;
  v ← check v "napi_new_instance failed";
  object_reset_to None (Some v).
(** [native]: null when there is no reference or the value wraps nothing. *)
Definition native (ref_ : option nat) : M (option nat) :=
  match ref_ with
  | None => mret None
  | Some r =>
      v ← object_get h (Some r);
      match v with None => mret None | Some v => o ← use_handle v; api (fun t => unwrap t o) end
  end.
Definition to_dynamic_object_impl (object : object_t) : M (option handle) := object_get h (object_ref object).
(** [module_t::define] of a value that may be null. *)
Definition module_define (target : handle) (name : string) (v : option handle) : M unit :=
  match v with
  | None => throw (runtime_error (lit "napi_set_named_property failed"))
  | Some v =>
      target ← use_handle target; o ← use_handle v;
      ok ← api (fun t => set_property t target name o);
      check (on_ok ok tt) "napi_set_named_property failed"
  end.
(** [import_impl] from an object. *)
Definition import_from_object (object : object_t) (name : string) : M unit :=
  v ← object_get h (object_ref object);
  match v with
  | None => throw (runtime_error (lit "N-API import lookup failed"))
  | Some v => import_impl h v name
  end.

(** ** Programs *)

Definition on_napi {A} (m : M A) : P A := fun p => let '(r, w) := m (napi p) in (r, mk_program w (objects p)).
Definition get_object (i : nat) : P object_t := fun p =>
  match objects p !! i with Some o => (Ok o, p) | None => (Undefined, p) end.
Definition set_object (i : nat) (o : object_t) : P unit := modify (fun p => mk_program (napi p) (<[i := o]> (objects p))).
Definition add_object (o : object_t) : P unit := modify (fun p => mk_program (napi p) (o :: objects p)).
Definition remove_object (i : nat) : P unit := modify (fun p => mk_program (napi p) (delete i (objects p))).
(** [release], which leaves the environment where it was. *)
Definition released (o : object_t) : object_t := mk_object (object_env o) None.

(** The constructors: from a value, of an imported object, and by a move. *)
Definition new_object (v : option handle) : P unit := r ← on_napi (object_new h v); add_object (mk_object true r).
Definition import_object (context : nat) (args : list handle) : P unit :=
  c ← on_napi (get_context context);
  r ← on_napi (construct_import_object_impl context (env_ c) args);
  add_object (mk_object (env_ c) r).
Definition move_object (i : nat) : P unit := o ← get_object i; set_object i (released o) ;; add_object o.
Definition assign_object (i j : nat) : P unit :=
  if decide (i = j) then mret tt
  else
    this ← get_object i; other ← get_object j;
    set_object i (released this) ;; on_napi (object_reset (object_ref this)) ;;
    set_object i other ;; set_object j (released other).
Definition reset_object (i : nat) (v : option handle) : P unit :=
  o ← get_object i;
  set_object i (mk_object true None) ;; r ← on_napi (object_reset_to (object_ref o) v);
  set_object i (mk_object true r).
Definition drop_object (i : nat) : P unit := o ← get_object i; remove_object i ;; on_napi (object_reset (object_ref o)).

(** [define_export_instance_impl]: the object is moved into the parameter, which is destroyed
    when the call returns or throws. *)
Definition define_export_instance_impl (target : handle) (name : string) (i : nat) : P unit :=
  o ← get_object i;
  set_object i (released o) ;;
  on_napi (unwinding (v ← object_get h (object_ref o); module_define target name v) (object_reset (object_ref o)) ;;
           object_reset (object_ref o)).

Inductive object_action :=
| World (a : action)
| NewObject (v : option handle) | ImportObject (context : nat) (args : list handle)
| MoveObject (i : nat) | AssignObject (i j : nat) | ResetObject (i : nat) (v : option handle) | DropObject (i : nat)
| Native (i : nat) | ToDynamic (i : nat) | ImportFrom (i : nat) (name : string)
| DefineInstance (target : handle) (name : string) (i : nat).

Definition perform (a : object_action) : P unit :=
  match a with
  | World a => on_napi (run h a)
  | NewObject v => new_object v
  | ImportObject c args => import_object c args
  | MoveObject i => move_object i
  | AssignObject i j => assign_object i j
  | ResetObject i v => reset_object i v
  | DropObject i => drop_object i
  | Native i => o ← get_object i; on_napi (native (object_ref o)) ;; mret tt
  | ToDynamic i => o ← get_object i; on_napi (to_dynamic_object_impl o) ;; mret tt
  | ImportFrom i name => o ← get_object i; on_napi (import_from_object o name)
  | DefineInstance target name i => define_export_instance_impl target name i
  end.

(** What a program has to see to, beside what the actions of [NapiReferences] ask for: as for
    contexts, no reference is left to an object when the environment is gone. *)
Definition deletable (p : program) (i : nat) : Prop :=
  exists o, objects p !! i = Some o /\ (object_ref o = None \/ env_alive (napi p) = true).
Definition permitted (a : object_action) (p : program) : Prop :=
  match a with
  | World a => admissible a (napi p)
  | NewObject v => env_alive (napi p) = true /\ usable_all (napi p) (option_list v)
  | ImportObject i args => in_env (napi p) /\ usable_all (napi p) args /\
      exists c, contexts (napi p) !! i = Some c /\ usable_all (napi p) (option_list (callable_cache_ c))
  | MoveObject i => is_Some (objects p !! i)
  | AssignObject i j => deletable p i /\ is_Some (objects p !! j)
  | ResetObject i v => is_Some (objects p !! i) /\ env_alive (napi p) = true /\ usable_all (napi p) (option_list v)
  | DropObject i => deletable p i
  | Native i | ToDynamic i | ImportFrom i _ => is_Some (objects p !! i) /\ in_env (napi p)
  | DefineInstance target _ i => is_Some (objects p !! i) /\ in_env (napi p) /\ usable (napi p) target
  end.

Inductive object_step : program -> program -> Prop :=
| returns a p p' : permitted a p -> perform a p = (Ok tt, p') -> object_step p p'
| throws a p p' e : permitted a p -> perform a p = (Throw e, p') -> object_step p p'.
Definition object_reachable (p : program) : Prop := rtc object_step (mk_program start []) p.
End Objects.

(** ** Ownership *)

Section Ownership.
Context (h : host) (new_instance : nat -> nat -> list nat -> option nat) (unwrap : nat -> nat -> option nat)
  (set_property : nat -> nat -> string -> nat -> bool).
Abbreviation M := (eff world).

(** The objects of a program own the references that [NapiReferences] leaves alone. *)
Definition owned (p : program) : Prop := wf (object_refs (objects p)) (napi p).
Definition ends_owned {A} (r : outcome A * program) : Prop :=
  match r with (Ok _, p) | (Throw _, p) => owned p | (Aborted, _) => True | (Undefined, _) => False end.

Lemma log_call_inv f o args al ss T C R Q E :
  upholds (inv al ss T C R Q) (log_call f o args) (fun _ w => inv al ss T C R Q w) E.
Proof. intros w []. unfold log_call, modify. by split; fields. Qed.

Lemma upholds_new_instance env f args ss T C R Q E :
  ss ≠ [] -> usable_in ss f -> Forall (fun v => scope_of v ∈ ss) args ->
  upholds (inv true ss T C R Q) (napi_new_instance new_instance env f args)
    (fun v w => usable_in ss v /\ inv true ss T C R Q w) E.
Proof.
  intros Hs Hf Hargs. unfold napi_new_instance. destruct env, f as [f|]; try (by apply upholds_return).
  eapply upholds_then; [apply upholds_napi_value; by apply Hf|]. intros o w [-> Hw]. revert w Hw.
  eapply upholds_then; [by apply upholds_use_handles|]. intros os w [-> Hw]. revert w Hw.
  eapply upholds_then; [apply upholds_api|]. intros [o|]; [|by apply upholds_return].
  eapply upholds_then; [apply log_call_inv|]. intros u.
  eapply upholds_then; [by apply upholds_new_handle|]. intros v. apply upholds_return. intros w [[_ Hv] Hw]. split; [by intros x [= <-]|done].
Qed.

Lemma upholds_reset_to r v ss T C R Q :
  usable_in ss v ->
  upholds (inv true ss T C (option_refs r ⊎ R) Q) (object_reset_to h r v)
    (fun r' w => inv true ss T C (option_refs r' ⊎ R) Q w) (inv true ss T C R Q).
Proof.
  intros Hv. unfold object_reset_to. eapply upholds_then; [apply upholds_object_reset; by right|]. intros u.
  eapply upholds_post; [by apply upholds_object_new|]. by intros r' w [_ Hw].
Qed.

(** An imported object owns the one reference to what the constructor made, or there is none. *)
Lemma upholds_construct i c args ss T C R :
  ss ≠ [] -> C !! i = Some c -> usable_in ss (callable_cache_ c) -> Forall (fun v => scope_of v ∈ ss) args ->
  upholds (inv true ss T C R []) (construct_import_object_impl h new_instance i (env_ c) args)
    (fun r w => exists C', inv true ss T C' (option_refs r ⊎ R) [] w) (fun w => exists C', inv true ss T C' R [] w).
Proof.
  intros Hs Hc Hu Hargs w Hw. unfold construct_import_object_impl.
  pose proof (callable_run h R i c ss T C [] Hs Hc Hu w Hw) as Hf. unfold mbind at 1, eff_bind at 1.
  destruct (callable h i w) as [[f|e| |] w1]; try done. destruct Hf as (c' & _ & _ & Huf & _ & H1).
  revert w1 H1. set (C' := <[i := c']> C). refine (upholds_then _ _ _ (fun v w => usable_in ss v /\ inv true ss T C' R [] w) _ _ _ _).
  { by apply upholds_new_instance. }
  intros [v|] w1 [Huv H1]; simpl; [|by exists C'].
  pose proof (upholds_reset_to None (Some v) ss T C' R [] Huv w1) as Hr. simpl in Hr. rewrite (left_id_L ∅ (⊎)) in Hr.
  specialize (Hr H1). unfold mbind, eff_bind, mret, eff_ret. destruct (object_reset_to h None (Some v) w1) as [[r|e| |] w2]; eauto.
Qed.

Lemma upholds_native r ss T C R Q E :
  ss ≠ [] -> (forall x, r = Some x -> x ∈ context_refs C ⊎ R) ->
  upholds (inv true ss T C R Q) (native h unwrap r) (fun _ => inv true ss T C R Q) E.
Proof.
  intros Hs Hr. unfold native. destruct r as [r|]; [|by apply upholds_return].
  eapply upholds_then; [by apply upholds_object_get|]. intros [v|] w [Hv Hw]; [|exact Hw].
  destruct Hv as (x & _ & _ & Hv). revert w Hw. eapply upholds_then; [by apply upholds_napi_value|].
  intros o w [_ Hw]. revert w Hw. apply upholds_api.
Qed.

Lemma upholds_define target name v ss T C R Q :
  scope_of target ∈ ss -> usable_in ss v ->
  upholds (inv true ss T C R Q) (module_define set_property target name v) (fun _ => inv true ss T C R Q) (inv true ss T C R Q).
Proof.
  intros Ht Hv. unfold module_define. destruct v as [v|]; [|by intros w Hw].
  eapply upholds_then; [by apply upholds_napi_value|]. intros o w [_ Hw]. revert w Hw.
  eapply upholds_then; [apply upholds_napi_value; by apply Hv|]. intros o' w [_ Hw]. revert w Hw.
  eapply upholds_then; [apply upholds_api|]. intros [] w Hw; exact Hw.
Qed.

(** ** Objects of a program *)

Lemma object_at p i : is_Some (objects p !! i) -> exists o, objects p !! i = Some o /\ get_object i p = (Ok o, p).
Proof. intros [o Ho]. exists o. unfold get_object. by rewrite Ho. Qed.
Lemma refs_at os i o x : os !! i = Some o -> object_ref o = Some x -> x ∈ object_refs os.
Proof.
  intros Ho Hx. unfold object_refs. rewrite (refs_delete _ _ _ _ Ho), Hx. simpl. apply gmultiset_elem_of_disj_union. left.
  by apply gmultiset_elem_of_singleton.
Qed.
Lemma refs_split os i o : os !! i = Some o -> object_refs os = option_refs (object_ref o) ⊎ object_refs (delete i os).
Proof. apply (refs_delete (fun o => option_refs (object_ref o))). Qed.
(** An object that gave its reference up, or took one. *)
Lemma refs_replaced os i o o' : os !! i = Some o ->
  object_refs (<[i := o']> os) = option_refs (object_ref o') ⊎ object_refs (delete i os).
Proof.
  intros Ho. rewrite (refs_split _ i o') by by eapply list_lookup_insert_eq, lookup_lt_Some.
  do 2 f_equal. clear. revert i. induction os as [|x os IH]; intros [|i]; simpl; [done..|]. by rewrite IH.
Qed.

(** A computation of the environment, and what follows when it returns. *)
Lemma ends_on_napi {A B} (m : M A) (k : A -> eff program B) p al ss T C R (Q : A -> world -> Prop) (E : world -> Prop) :
  upholds (inv al ss T C R []) m Q E -> inv al ss T C R [] (napi p) ->
  (forall a w, Q a w -> ends_owned (k a (mk_program w (objects p)))) ->
  (forall w, E w -> owned (mk_program w (objects p))) ->
  ends_owned ((on_napi m ≫= k) p).
Proof.
  intros Hm Hp Hk HE. specialize (Hm (napi p) Hp). unfold mbind, eff_bind, on_napi.
  destruct (m (napi p)) as [[a|e| |] w]; simpl; [by apply Hk|by apply HE|done|done].
Qed.
(** A run of the environment that keeps what the objects own. *)
Lemma ends_run {A} (m : M A) p :
  ends_wf (object_refs (objects p)) (m (napi p)) -> ends_owned (on_napi m p).
Proof. intros Hm. unfold on_napi. by destruct (m (napi p)) as [[] w]. Qed.
Lemma ends_upholds {A} (m : M A) p al ss T C R :
  upholds (inv al ss T C R []) m (fun _ => wf (object_refs (objects p))) (wf (object_refs (objects p))) ->
  inv al ss T C R [] (napi p) -> ends_owned (on_napi m p).
Proof. intros Hm Hp. apply ends_run. exact (Hm (napi p) Hp). Qed.

Lemma in_env_inv al ss T C R Q w : inv al ss T C R Q w -> in_env w -> al = true /\ ss ≠ [].
Proof. intros Hw [Ha Hs]. by rewrite (inv_alive _ _ _ _ _ _ _ Hw) in Ha; rewrite (inv_scopes _ _ _ _ _ _ _ Hw) in Hs. Qed.

Lemma new_object_owned v p : owned p -> env_alive (napi p) = true -> usable_all (napi p) (option_list v) -> ends_owned (new_object h v p).
Proof.
  intros (al & ss & T & C & Hp) Ha Hv. rewrite (inv_alive _ _ _ _ _ _ _ Hp) in Ha. subst al.
  pose proof (usable_option _ _ (usable_open _ _ _ _ _ _ _ _ Hp Hv)) as Hu.
  eapply ends_on_napi; [by apply upholds_object_new|exact Hp| |by intros w; apply inv_wf].
  intros r w [_ Hw]. by eapply inv_wf.
Qed.

Lemma import_object_owned i args p : owned p -> permitted (ImportObject i args) p -> ends_owned (import_object h new_instance i args p).
Proof.
  intros (al & ss & T & C & Hp) (He & Hargs & c & Hi & Hc). destruct (in_env_inv _ _ _ _ _ _ _ Hp He) as [-> Hs].
  pose proof (usable_option _ _ (usable_open _ _ _ _ _ _ _ _ Hp Hc)) as Hu. pose proof (usable_open _ _ _ _ _ _ _ _ Hp Hargs) as Hu'.
  assert (C !! i = Some c) as HC by (by rewrite <- (inv_contexts _ _ _ _ _ _ _ Hp)).
  eapply (ends_on_napi _ _ _ _ _ _ _ _ _ (fun _ => False)); [by apply upholds_get_context|exact Hp| |done]. intros c' w [-> Hw].
  eapply ends_on_napi; [by apply (upholds_construct i c args ss T C)|exact Hw| |].
  - intros r w' [C' Hw']. by eapply inv_wf.
  - intros w' [C' Hw']. by eapply inv_wf.
Qed.

Lemma move_object_owned i p : owned p -> is_Some (objects p !! i) -> ends_owned (move_object i p).
Proof.
  intros (al & ss & T & C & Hp) Hi. destruct (object_at p i Hi) as (o & Ho & Hg). unfold move_object.
  rewrite (eff_bind_run _ _ _ _ _ Hg). exists al, ss, T, C. unfold object_refs. simpl. fold (object_refs (<[i := released o]> (objects p))).
  rewrite (refs_replaced _ _ _ (released o) Ho). simpl. rewrite (left_id_L ∅ (⊎)). by rewrite <- (refs_split _ _ _ Ho).
Qed.

Lemma drop_object_owned i p : owned p -> deletable p i -> ends_owned (drop_object i p).
Proof.
  intros (al & ss & T & C & Hp) (o & Ho & Hd). destruct (object_at p i (ex_intro _ _ Ho)) as (o' & Ho' & Hg). simplify_eq.
  unfold drop_object. rewrite (eff_bind_run _ _ _ _ _ Hg). rewrite (refs_split _ _ _ Ho) in Hp.
  rewrite (inv_alive _ _ _ _ _ _ _ Hp) in Hd. unfold remove_object. cbn.
  eapply (ends_upholds (object_reset (object_ref o)) (mk_program (napi p) (delete i (objects p)))); [|exact Hp].
  eapply upholds_post; [by apply upholds_object_reset|]. intros u w. apply inv_wf.
Qed.

Lemma assign_object_owned i j p : owned p -> permitted (AssignObject i j) p -> ends_owned (assign_object i j p).
Proof.
  intros Hw ((o & Ho & Hd) & Hj). unfold assign_object. case_decide as Hij; [exact Hw|]. destruct Hw as (al & ss & T & C & Hp).
  destruct (object_at p i (ex_intro _ _ Ho)) as (o' & Ho' & Hg). simplify_eq. rewrite (eff_bind_run _ _ _ _ _ Hg).
  destruct (object_at p j Hj) as (other & Hother & Hgj). rewrite (eff_bind_run _ _ _ _ _ Hgj).
  rewrite (refs_split _ _ _ Ho) in Hp. rewrite (inv_alive _ _ _ _ _ _ _ Hp) in Hd.
  set (p1 := mk_program (napi p) (<[i := released o]> (objects p))).
  change (ends_owned ((on_napi (object_reset (object_ref o)) ;; set_object i other ;; set_object j (released other)) p1)).
  eapply (ends_on_napi _ _ p1 al ss T C _ _ (fun _ => False)); [by apply upholds_object_reset|exact Hp| |done].
  intros u w Hw. exists al, ss, T, C. cbn -[released object_refs delete].
  rewrite list_insert_insert_eq, (refs_replaced _ j other) by (by rewrite list_lookup_insert_ne).
  assert (object_refs (delete j (<[i:=other]> (objects p))) = object_refs (delete i (objects p))) as ->.
  { pose proof (refs_replaced _ _ _ other Ho) as H1. rewrite (refs_split _ j other) in H1 by (by rewrite list_lookup_insert_ne).
    by apply (inj (option_refs (object_ref other) ⊎.)) in H1. }
  simpl. by rewrite (left_id_L ∅ (⊎)).
Qed.

(** A handle that the program gives is usable in the scopes that are open. *)
Lemma usable_given al ss T C R Q w v : inv al ss T C R Q w -> usable_all w (option_list v) -> usable_in ss v.
Proof. intros Hw Hv. by eapply usable_option, usable_open. Qed.

Lemma reset_object_owned i v p : owned p -> permitted (ResetObject i v) p -> ends_owned (reset_object h i v p).
Proof.
  intros (al & ss & T & C & Hp) (Hi & Ha & Hv). rewrite (inv_alive _ _ _ _ _ _ _ Hp) in Ha. subst al.
  destruct (object_at p i Hi) as (o & Ho & Hg). unfold reset_object. rewrite (eff_bind_run _ _ _ _ _ Hg).
  pose proof (usable_given _ _ _ _ _ _ _ _ Hp Hv) as Hu. rewrite (refs_split _ _ _ Ho) in Hp.
  set (p1 := mk_program (napi p) (<[i := mk_object true None]> (objects p))).
  change (ends_owned ((r ← on_napi (object_reset_to h (object_ref o) v); set_object i (mk_object true r)) p1)).
  eapply (ends_on_napi _ _ p1 true ss T C); [by apply upholds_reset_to|exact Hp| |].
  - intros r w Hw. exists true, ss, T, C. cbn -[object_refs]. rewrite list_insert_insert_eq. by rewrite (refs_replaced _ _ _ _ Ho).
  - intros w Hw. exists true, ss, T, C. cbn -[object_refs]. rewrite (refs_replaced _ _ _ _ Ho). simpl. by rewrite (left_id_L ∅ (⊎)).
Qed.

Lemma define_instance_owned target name i p : owned p -> permitted (DefineInstance target name i) p ->
  ends_owned (define_export_instance_impl h set_property target name i p).
Proof.
  intros (al & ss & T & C & Hp) (Hi & He & Ht). destruct (in_env_inv _ _ _ _ _ _ _ Hp He) as [-> Hs].
  destruct (object_at p i Hi) as (o & Ho & Hg). unfold define_export_instance_impl. rewrite (eff_bind_run _ _ _ _ _ Hg).
  assert (scope_of target ∈ ss) as Hts by (unfold usable in Ht; by rewrite (inv_scopes _ _ _ _ _ _ _ Hp) in Ht).
  rewrite (refs_split _ _ _ Ho) in Hp. set (R := object_refs (delete i (objects p))) in *.
  set (p1 := mk_program (napi p) (<[i := released o]> (objects p))).
  eapply (ends_upholds _ p1 true ss T C); [|exact Hp].
  assert (object_refs (objects p1) = R) as ->.
  { subst p1 R. cbn -[object_refs released]. rewrite (refs_replaced _ _ _ _ Ho). simpl. by rewrite (left_id_L ∅ (⊎)). }
  assert (forall E, upholds (inv true ss T C (option_refs (object_ref o) ⊎ R) []) (object_reset (object_ref o)) (fun _ => inv true ss T C R []) E) as Hreset.
  { intros E. apply upholds_object_reset. by right. }
  eapply (upholds_then _ _ _ (fun _ => inv true ss T C (option_refs (object_ref o) ⊎ R) [])).
  - eapply upholds_unwinding; [|eapply upholds_weaken; [eapply upholds_post; [apply Hreset|]|]].
    + eapply upholds_then; [apply upholds_object_get; [done|]|].
      * intros x ->. simpl. clear. multiset_solver.
      * intros v w [Hv Hw]. revert w Hw Hv. intros w Hw Hv. apply upholds_define; [done| |done]. intros x ->. by destruct Hv as (r & _ & _ & ?).
    + intros u w. apply inv_wf.
    + intros w Hw. exact Hw.
  - intros u. eapply upholds_post; [apply Hreset|]. intros ? w. apply inv_wf.
Qed.

Lemma import_from_owned i name p o : owned p -> objects p !! i = Some o -> in_env (napi p) ->
  ends_owned (on_napi (import_from_object h o name) p).
Proof.
  intros (al & ss & T & C & Hp) Ho He. destruct (in_env_inv _ _ _ _ _ _ _ Hp He) as [-> Hs]. apply ends_run.
  unfold import_from_object.
  assert (forall x, object_ref o = Some x -> x ∈ context_refs C ⊎ object_refs (objects p)) as Hr.
  { intros x Hx. apply gmultiset_elem_of_disj_union. right. by eapply refs_at. }
  pose proof (upholds_object_get h (object_ref o) ss T C (object_refs (objects p)) [] (fun _ => False) Hs Hr (napi p) Hp) as Hg.
  unfold mbind, eff_bind. destruct (object_get h (object_ref o) (napi p)) as [[[v|]|e| |] w]; try done.
  - destruct Hg as [(x & _ & _ & Hv) Hw]. apply import_impl_wf; [by eapply inv_wf| |].
    + split; [exact (inv_alive _ _ _ _ _ _ _ Hw)|by rewrite (inv_scopes _ _ _ _ _ _ _ Hw)].
    + unfold usable. by rewrite (inv_scopes _ _ _ _ _ _ _ Hw).
  - destruct Hg as [_ Hw]. by eapply inv_wf.
Qed.

Lemma perform_owned a p : owned p -> permitted a p -> ends_owned (perform h new_instance unwrap set_property a p).
Proof.
  intros Hp Ha. destruct a; simpl in Ha |- *.
  - apply ends_run. by apply run_wf.
  - destruct_and?. by apply new_object_owned.
  - by apply import_object_owned.
  - by apply move_object_owned.
  - by apply assign_object_owned.
  - by apply reset_object_owned.
  - by apply drop_object_owned.
  - destruct Ha as [Hi He]. destruct (object_at p i Hi) as (o & Ho & Hg). rewrite (eff_bind_run _ _ _ _ _ Hg).
    destruct Hp as (al & ss & T & C & Hp). destruct (in_env_inv _ _ _ _ _ _ _ Hp He) as [-> Hs].
    eapply (ends_on_napi _ _ p true ss T C _ _ (fun _ => False)); [apply upholds_native; [done|]|exact Hp| |done].
    + intros x Hx. apply gmultiset_elem_of_disj_union. right. by eapply refs_at.
    + intros r w Hw. by exists true, ss, T, C.
  - destruct Ha as [Hi He]. destruct (object_at p i Hi) as (o & Ho & Hg). rewrite (eff_bind_run _ _ _ _ _ Hg).
    destruct Hp as (al & ss & T & C & Hp). destruct (in_env_inv _ _ _ _ _ _ _ Hp He) as [-> Hs].
    eapply (ends_on_napi _ _ p true ss T C _ _ (fun _ => False)); [apply upholds_object_get; [done|]|exact Hp| |done].
    + intros x Hx. apply gmultiset_elem_of_disj_union. right. by eapply refs_at.
    + intros r w [_ Hw]. by exists true, ss, T, C.
  - destruct Ha as [Hi He]. destruct (object_at p i Hi) as (o & Ho & Hg). rewrite (eff_bind_run _ _ _ _ _ Hg). by apply (import_from_owned i).
  - by apply define_instance_owned.
Qed.

Lemma reachable_owned p : object_reachable h new_instance unwrap set_property p -> owned p.
Proof.
  apply (rtc_ind_r owned); [apply start_wf|]. intros p1 p2 _ Hs Hp.
  destruct Hs as [a q q' Ha Hr|a q q' e Ha Hr]; pose proof (perform_owned a q Hp Ha) as He; by rewrite Hr in He.
Qed.
End Ownership.

(** ** What an imported object is *)

Lemma use_handle_ok v w o w' : use_handle v w = (Ok o, w') -> o = names v /\ w' = w.
Proof. unfold use_handle. case_decide; [by intros [= <- <-]|done]. Qed.
Lemma use_handles_ok vs : forall w os w', use_handles vs w = (Ok os, w') -> os = map names vs /\ w' = w.
Proof.
  induction vs as [|v vs IH]; intros w os w'; simpl; [by intros [= <- <-]|]. unfold mbind, eff_bind.
  destruct (use_handle v w) as [[o|e| |] w1] eqn:H1; try done. apply use_handle_ok in H1 as [-> ->].
  destruct (use_handles vs w) as [[os'|e| |] w1] eqn:H2; try done. apply IH in H2 as [-> ->]. by intros [= <- <-].
Qed.
Lemma new_instance_ok new_instance env f args w v w' :
  napi_new_instance new_instance env f args w = (Ok (Some v), w') ->
  exists x, f = Some x /\ calls w' = (names x, names v, map names args) :: calls w /\ named w' = named w.
Proof.
  unfold napi_new_instance. destruct env, f as [x|]; try done. unfold mbind, eff_bind.
  destruct (use_handle x w) as [[o|e| |] w1] eqn:H1; try done. apply use_handle_ok in H1 as [-> ->].
  destruct (use_handles args w) as [[os|e| |] w1] eqn:H2; try done. apply use_handles_ok in H2 as [-> ->].
  unfold api. destruct (env_alive w); [|done]. destruct (new_instance (clock w) (names x) (map names args)) as [o|]; [|done].
  unfold log_call, modify, new_handle. fields. destruct (scopes w) as [|s ss]; [done|]. intros [= <- <-]. exists x. by fields.
Qed.

(** Constructing an imported object calls the function that the context's reference names, once,
    with the arguments; the object refers to the instance that was made. *)
Theorem imported_object_is_instance h new_instance i args p p' :
  owned p -> permitted (ImportObject i args) p -> import_object h new_instance i args p = (Ok tt, p') ->
  exists c f o r, contexts (napi p) !! i = Some c /\ (forall x, callable_ c = Some x -> named (napi p) !! x = Some f) /\
    calls (napi p') = (f, o, map names args) :: calls (napi p) /\
    objects p' = mk_object (env_ c) (Some r) :: objects p /\ named (napi p') !! r = Some o.
Proof.
  intros (al & ss & T & C & Hp) (He & Hargs & c & Hi & Hc) Hrun. destruct (in_env_inv _ _ _ _ _ _ _ Hp He) as [-> Hs].
  pose proof (usable_given _ _ _ _ _ _ _ _ Hp Hc) as Hu.
  assert (C !! i = Some c) as HC by (by rewrite <- (inv_contexts _ _ _ _ _ _ _ Hp)).
  revert Hrun. unfold import_object, construct_import_object_impl, mbind, eff_bind, on_napi, get_context. rewrite Hi. cbn.
  pose proof (upholds_leaves history _ _ _ _ (history (napi p)) (callable_history h i)
    (callable_run h _ i c ss T C [] Hs HC Hu) (napi p) (conj eq_refl Hp)) as Hf.
  destruct (callable h i (napi p)) as [[f|e| |] w1]; try done. destruct Hf as [Hh (c' & [_ Href] & Hcache & _ & _ & H1)].
  injection Hh as Hn Hcalls. cbn.
  destruct (napi_new_instance new_instance (env_ c) f args w1) as [[[v|]|e| |] w2] eqn:H2; try done.
  apply new_instance_ok in H2 as (x & -> & Hlog & Hn2). cbn. unfold napi_create_reference, mbind, eff_bind. cbn.
  destruct (use_handle v w2) as [[o|e| |] w3] eqn:H3; try done. apply use_handle_ok in H3 as [-> ->].
  unfold api. destruct (env_alive w2); [|done]. destruct (create_reference_ok h (clock w2)); cbn; [|done].
  intros [= <-]. exists c, (names x), (names v), (next_reference w2). fields.
  split_and!; [done| |by rewrite Hlog, Hcalls|done|apply lookup_insert_eq].
  intros r Hr. rewrite <- Hn. destruct (context_good _ _ _ _ _ _ _ _ _ H1 (insert_at _ _ _ _ HC)) as [Hnamed _].
  apply (Hnamed r x); [by rewrite Href|done].
Qed.

(** ** What holds of every program *)

(** C20: However a program makes, moves, assigns, resets, reads, publishes and destroys objects,
    class targets and contexts, constructs imported objects, calls functions and opens and
    closes scopes, whatever Node-API answers and whenever the environment is torn down, no
    operation whose handles are usable has undefined behaviour (no reference is deleted twice
    or used after it, no hook reaches a freed [constructor_reference]). The live references are
    those of the boxes, the contexts and the objects, each owned once; every box is behind one
    target, and the environment has exactly one hook per box that still has its reference.
    When the last of them is destroyed nothing is left. *)
Theorem napi_objects_owned h new_instance unwrap set_property p :
  object_reachable h new_instance unwrap set_property p ->
  references (napi p) = box_refs (boxes (napi p)) ⊎ context_refs (contexts (napi p)) ⊎ object_refs (objects p) /\
  Permutation (hooks (napi p)) (full_boxes (boxes (napi p))) /\
  Permutation (map_to_list (boxes (napi p))).*1 (omap reference_ (targets (napi p))) /\
  (env_alive (napi p) = false -> hooks (napi p) = [] /\ full_boxes (boxes (napi p)) = []) /\
  (targets (napi p) = [] -> contexts (napi p) = [] -> objects p = [] ->
     references (napi p) = ∅ /\ boxes (napi p) = ∅ /\ hooks (napi p) = []) /\
  forall a, permitted a p -> ends_owned (perform h new_instance unwrap set_property a p).
Proof.
  intros Hp%reachable_owned. assert (forall a, permitted a p -> ends_owned (perform h new_instance unwrap set_property a p)) as Hrun
    by (intros a; by apply perform_owned).
  destruct Hp as (al & ss & T & C & [Halive _ HT HC Hrefs _ Hhooks Hboxes _ Hdead _]). rewrite HT, HC, Halive. rewrite app_nil_r in Hboxes.
  split_and!; [done..| | |done].
  - intros ->. specialize (Hdead eq_refl). split; [done|]. rewrite Hdead in Hhooks. by apply Permutation_nil in Hhooks.
  - intros -> -> Ho. rewrite Ho in *. assert (boxes (napi p) = ∅) as He.
    { apply map_to_list_empty_iff. apply Permutation_sym, Permutation_nil, fmap_nil_inv in Hboxes. done. }
    rewrite He in *. split_and!; [done..|]. by apply Permutation_sym, Permutation_nil in Hhooks.
Qed.

(** ** A program *)

(** A host whose constructors make the object after the function, and where every object
    wraps the pointer before it. *)
Definition sample_instance (t f : nat) (args : list nat) : option nat := Some (S f).
Definition sample_unwrap (t o : nat) : option nat := Some (pred o).
Definition sample_property (t target : nat) (name : string) (o : nat) : bool := true.
Abbreviation sample_perform := (perform sample_host sample_instance sample_unwrap sample_property).
Abbreviation sample_reachable := (object_reachable sample_host sample_instance sample_unwrap sample_property).
Definition then_ (a : object_action) (p : program) : program := (sample_perform a p).2.
Definition sample_context_made : program :=
  Eval vm_compute in then_ (World (NewContext (Some (mk_handle 0 8)))) (then_ (World OpenScope) (mk_program start [])).
Definition sample_imported : program := Eval vm_compute in then_ (ImportObject 0 [mk_handle 0 7]) sample_context_made.
Definition sample_moved : program := Eval vm_compute in then_ (MoveObject 0) sample_imported.

Lemma then_step a p p' : permitted a p -> sample_perform a p = (Ok tt, p') ->
  object_step sample_host sample_instance sample_unwrap sample_property p p'.
Proof. apply returns. Qed.
Lemma sample_moved_reachable : sample_reachable sample_moved.
Proof.
  apply (rtc_r _ sample_imported); [apply (rtc_r _ sample_context_made); [eapply rtc_r; [eapply rtc_r; [apply rtc_refl|]|]|]|].
  - apply (then_step (World OpenScope)); [done|vm_compute; reflexivity].
  - apply (then_step (World (NewContext (Some (mk_handle 0 8))))); [|vm_compute; reflexivity].
    split; [by split|]. constructor; [left|constructor].
  - apply (then_step (ImportObject 0 [mk_handle 0 7])); [|vm_compute; reflexivity].
    split; [by split|]. split; [constructor; [left|constructor]|]. eexists. split; [reflexivity|]. constructor; [left|constructor].
  - apply (then_step (MoveObject 0)); [|vm_compute; reflexivity]. by eexists.
Qed.
Lemma sample_object : objects sample_moved = [mk_object true (Some 1%nat); mk_object true None] /\ env_alive (napi sample_moved) = true.
Proof. done. Qed.
Example constructed_once : calls (napi sample_moved) = [(8, 9, [7])%nat].
Proof. done. Qed.

Lemma napi_objects_owned_witness :
  references (napi sample_moved) = box_refs (boxes (napi sample_moved)) ⊎ context_refs (contexts (napi sample_moved)) ⊎ {[+ 1%nat +]} /\
  ends_owned (sample_perform (DropObject 0) sample_moved).
Proof.
  destruct (napi_objects_owned sample_host sample_instance sample_unwrap sample_property sample_moved sample_moved_reachable)
    as (Hrefs & _ & _ & _ & _ & Hrun). split.
  - rewrite Hrefs, (proj1 sample_object). f_equal.
  - apply Hrun. exists (mk_object true (Some 1%nat)). split; [reflexivity|right; reflexivity].
Defined.
