(* ===== verification/NapiClasses.v ===== *)
(** * backends/napi.h: the classes that a registration publishes

    The hooks of the Node-API backend that a registration runs keep the promise of
    [ClassObjects]: a class is the function that [napi_define_class] made, its members are
    the last properties of its prototype, and its constructor is the one its state enters. *)

From Stdlib Require Import ZArith Lia.
From stdpp Require Import base list strings gmap.
From S2P Require Import Prelude NapiBackend ExportDispatch Registration Import Generate Declarations ImportGenerate ExportGenerate ExportCore Published.

(** ** The hooks *)

Section Hooks.
Context {T A D Object Callable Source Context_ : Type} (h : host) (class_of : string -> nat).

(** The environment of Node-API, and the registry of the context. *)
Definition world : Type := (env_state * ClassRegistry.export_class_registry nat class_target)%type.

(** The backend as a registration sees it. *)
Class RegistersWithNapi (b : backend_t (cxx_type T) A D nat class_target nat Object Callable Source Context_ world) : Prop := {
  hook_define_member : define_member_impl b = Some (fun t name x => on_env (NapiBackend.define_impl_class h t name x));
  hook_define_class clazz :
    define_class_impl b clazz = Some (fun target name => on_env (NapiBackend.define_class_impl h (class_of clazz) target name));
  hook_define_constructor clazz ps :
    define_constructor_impl b clazz ps = Some (fun t => on_env (NapiBackend.define_constructor_impl t (length ps)));
  hook_store clazz :
    store_export_class_impl b clazz = Some (fun t w => (Ok tt, (w.1, ClassRegistry.store w.2 (class_of clazz) t)))
}.

(** Documented: a strong reference keeps its value until it is deleted; a new function or
    class is a new value; a class keeps its prototype, an object of its own. *)
Class ClassHost (prototype_of : nat -> nat) : Prop := {
  reference_kept t r v t' :
    (forall v', DidReference r v' ∉ t') -> DidDeleteReference r ∉ t' ->
    napi_get_reference_value h (t ++ DidReference r v :: t') r = Some v;
  function_is_new t p f : napi_create_function h t p = Some f ->
    (forall q, DidCreateFunction f q ∉ t) /\ (forall o n, DidDefine o n f ∉ t);
  class_is_new t p c : napi_define_class h t p = Some c -> forall n v, DidDefine c n v ∉ t;
  prototype_kept t c p : DidDefineClass c p ∈ t -> (forall v, DidDefine c "prototype" v ∉ t) ->
    napi_get_named_property h t c "prototype" = Some (prototype_of c);
  prototype_apart c : prototype_of c ≠ c
}.

(** ** Class objects *)

(** A property, and the holder behind a function: the last that the trace tells. *)
Definition defined (o : nat) (name : string) (e : event) : option nat :=
  match e with DidDefine o' n v => if decide (o' = o /\ n = name) then Some v else None | _ => None end.
Definition created (f : nat) (e : event) : option nat :=
  match e with DidCreateFunction f' p => if decide (f' = f) then Some p else None | _ => None end.
Definition property (es : list event) (o : nat) (name : string) : option nat := last (omap (defined o name) es).
Definition function_holder (es : list event) (f : nat) : option nat := last (omap (created f) es).

Definition binder_behind (s : env_state) (f : nat) : option nat :=
  p ← function_holder (events s) f;
  match holders s !! p with Some (CallbackHolder x) => Some x | _ => None end.
Definition class_value (s : env_state) (t : class_target) : option nat := napi_get_reference_value h (events s) (constructor_ref t).
Definition class_attribute (s : env_state) (t : class_target) (name : string) : option nat :=
  c ← class_value s t; proto ← napi_get_named_property h (events s) c "prototype"; f ← property (events s) proto name; binder_behind s f.
Definition class_initializer (s : env_state) (t : class_target) : option nat :=
  match holders s !! state t with Some (ClassState _ n) => n | _ => None end.

Definition holders_below (s : env_state) : Prop :=
  (forall p, is_Some (holders s !! p) -> (p < next s)%nat) /\ (forall f p, DidCreateFunction f p ∈ events s -> (p < next s)%nat).

(** A target of a class that is alive. *)
Record live_class (s : env_state) (t : class_target) (c : nat) : Prop := {
  live_reference : exists t1 t2, events s = t1 ++ DidReference (constructor_ref t) c :: t2 /\
    (forall v, DidReference (constructor_ref t) v ∉ t2) /\ DidDeleteReference (constructor_ref t) ∉ t2;
  live_class_made : exists p, DidDefineClass c p ∈ events s;
  live_prototype v : DidDefine c "prototype" v ∉ events s;
  live_state : exists k n, holders s !! state t = Some (ClassState k n);
  live_holders : holders_below s
}.

Definition napi_classes : class_objects (cxx_type T) nat class_target nat world nat :=
  mk_classes
    (fun w m => holders_below w.1 /\ forall p, napi_define_class h (events w.1) p ≠ Some m)
    (fun w t => exists c, live_class w.1 t c)
    (fun w => class_attribute w.1) (fun w => class_initializer w.1) (fun _ ps => length ps).

Context (prototype_of : nat -> nat) `{!ClassHost prototype_of}.

Lemma live_value s t c : live_class s t c -> class_value s t = Some c.
Proof. intros [(t1 & t2 & He & Hr & Hd) _ _ _ _]. unfold class_value. rewrite He. by apply reference_kept. Qed.
Lemma live_attribute s t c name : live_class s t c ->
  class_attribute s t name = f ← property (events s) (prototype_of c) name; binder_behind s f.
Proof.
  intros Hl. unfold class_attribute. rewrite (live_value _ _ _ Hl). cbn [mbind option_bind].
  destruct Hl as [_ [p Hp] Hproto _ _]. by rewrite (prototype_kept _ _ _ Hp Hproto).
Qed.

(** Events that keep a class alive. *)
Definition harmless (t : class_target) (c : nat) (e : event) : Prop :=
  match e with
  | DidReference r _ | DidDeleteReference r => r ≠ constructor_ref t
  | DidDefine o n _ => o ≠ c \/ n ≠ "prototype"
  | _ => True
  end.
Lemma live_class_extends s s' t c es :
  live_class s t c -> events s' = events s ++ es -> Forall (harmless t c) es ->
  (exists k n, holders s' !! state t = Some (ClassState k n)) -> holders_below s' -> live_class s' t c.
Proof.
  intros [(t1 & t2 & He & Hr & Hd) [p Hp] Hproto _ _] He' Hes Hst Hh. rewrite Forall_forall in Hes. split; [| | |done|done].
  - exists t1, (t2 ++ es). rewrite He', He, <- app_assoc. split; [done|]. split.
    + intros v [Hin|Hin]%elem_of_app; [by eapply Hr|]. by apply (Hes _ Hin).
    + intros [Hin|Hin]%elem_of_app; [by apply Hd|]. by apply (Hes _ Hin).
  - exists p. rewrite He'. apply elem_of_app. by left.
  - intros v. rewrite He'. intros [Hin|Hin]%elem_of_app; [by eapply Hproto|]. by destruct (Hes _ Hin).
Qed.

Lemma harmless_function t c f p : Forall (harmless t c) [DidCreateFunction f p; DidAddFinalizer f p].
Proof. repeat constructor. Qed.
Lemma holders_below_insert s es y x : holders_below s -> (forall f p, DidCreateFunction f p ∈ es -> p = next s) ->
  holders_below (mk_env (events s ++ es) y (<[next s := x]> (holders s)) (handoffs s) (S (next s))).
Proof.
  intros [Hh Hf] Hes. split; simpl.
  - intros q [<-|Hq]%lookup_insert_is_Some'; [lia|]. specialize (Hh q Hq). lia.
  - intros f p [Hin|Hin]%elem_of_app; [specialize (Hf _ _ Hin)|specialize (Hes _ _ Hin)]; lia.
Qed.
Lemma state_below s t c : live_class s t c -> (state t < next s)%nat.
Proof. intros [_ _ _ (k & n & Hk) [Hh _]]. apply Hh. by rewrite Hk. Qed.
Lemma only_created f p es : es = [DidCreateFunction f p; DidAddFinalizer f p] \/ (exists o n, es = [DidCreateFunction f p; DidAddFinalizer f p; DidDefine o n f]) ->
  forall f' q, DidCreateFunction f' q ∈ es -> q = p.
Proof. intros [->|(o & n & ->)] f' q Hin; repeat (apply elem_of_cons in Hin as [Heq|Hin]; [by simplify_eq|]); by apply not_elem_of_nil in Hin. Qed.

(** The definition of a member, step by step. *)
Lemma define_member_run t c name x s s' :
  live_class s t c -> NapiBackend.define_impl_class h t name x s = (Ok tt, s') ->
  exists f, napi_create_function h (events s) (next s) = Some f /\
    s' = mk_env (events s ++ [DidCreateFunction f (next s); DidAddFinalizer f (next s); DidDefine (prototype_of c) name f])
      (natives s) (<[next s := CallbackHolder x]> (holders s)) (handoffs s) (S (next s)).
Proof.
  intros Hl. unfold NapiBackend.define_impl_class, make_function, new_holder, ask, record, class_target_define, target_constructor, NapiBackend.check.
  unfold mbind, eff_bind. simpl.
  destruct (napi_create_function h (events s) (next s)) as [f|] eqn:Hf; [|by destruct (destroy_holder _ _) as [[]]].
  simpl. destruct (napi_add_finalizer h _ f (next s)); simpl; [|by destruct (destroy_holder _ _) as [[]]].
  rewrite <- app_assoc. simpl.
  set (s1 := mk_env (events s ++ [DidCreateFunction f (next s); DidAddFinalizer f (next s)]) (natives s)
    (<[next s := CallbackHolder x]> (holders s)) (handoffs s) (S (next s))).
  assert (live_class s1 t c) as Hl1.
  { eapply live_class_extends; [exact Hl|done|apply harmless_function| |].
    - pose proof (state_below _ _ _ Hl). destruct Hl as [_ _ _ (k & n & Hk) _]. exists k, n. simpl. rewrite lookup_insert_ne; [done|lia].
    - apply holders_below_insert; [by apply live_holders with t c|]. apply (only_created f); by left. }
  pose proof (live_value _ _ _ Hl1) as Hv. unfold class_value in Hv. simpl in Hv. rewrite Hv. simpl.
  destruct Hl1 as [_ [p Hp] Hproto _ _]. pose proof (prototype_kept _ _ _ Hp Hproto) as Hpr. simpl in Hpr. rewrite Hpr. simpl.
  destruct (napi_set_named_property h _ _ _ _); [|done]. simpl. intros [= <-]. exists f. split; [done|]. by rewrite <- app_assoc.
Qed.

Lemma property_snoc es o name e :
  property (es ++ [e]) o name = match defined o name e with Some v => Some v | None => property es o name end.
Proof. unfold property. rewrite omap_app. simpl. destruct (defined o name e); [apply last_snoc|by rewrite app_nil_r]. Qed.
Lemma function_holder_snoc es f e :
  function_holder (es ++ [e]) f = match created f e with Some v => Some v | None => function_holder es f end.
Proof. unfold function_holder. rewrite omap_app. simpl. destruct (created f e); [apply last_snoc|by rewrite app_nil_r]. Qed.
Lemma property_defined es o name f : property es o name = Some f -> DidDefine o name f ∈ es.
Proof.
  intros (l & Hl)%last_Some. assert (f ∈ omap (defined o name) es) as ([] & Hin & He)%list_elem_of_omap by (rewrite Hl; set_solver);
    simplify_eq/=. case_decide as Hd; [|done]. destruct Hd as [-> ->]. by injection He as ->.
Qed.

Lemma function_holder_created es f p : function_holder es f = Some p -> DidCreateFunction f p ∈ es.
Proof.
  intros (l & Hl)%last_Some. assert (p ∈ omap (created f) es) as ([] & Hin & He)%list_elem_of_omap by (rewrite Hl; set_solver);
    simplify_eq/=. case_decide as Hd; [|done]. subst. by injection He as ->.
Qed.

Lemma define_member_sets t c name x s s' :
  live_class s t c -> NapiBackend.define_impl_class h t name x s = (Ok tt, s') ->
  live_class s' t c /\
  (forall n, class_attribute s' t n = if decide (n = name) then Some x else class_attribute s t n) /\
  class_initializer s' t = class_initializer s t.
Proof.
  intros Hl Hrun. destruct (define_member_run _ _ _ _ _ _ Hl Hrun) as (f & Hf & ->).
  destruct (function_is_new _ _ _ Hf) as [Hnew Hundef].
  pose proof (state_below _ _ _ Hl) as Hst. assert (exists k n, holders s !! state t = Some (ClassState k n)) as (k & m & Hk) by apply Hl.
  destruct (live_holders _ _ _ Hl) as [Hh Hcreated].
  set (s' := mk_env _ _ _ _ _). assert (live_class s' t c) as Hl1.
  { eapply live_class_extends; [exact Hl|done| | |].
    - rewrite !Forall_cons, Forall_nil. simpl. split_and!; try done. left. apply prototype_apart.
    - exists k, m. simpl. rewrite lookup_insert_ne; [done|lia].
    - apply holders_below_insert; [done|]. apply (only_created f); eauto. }
  split; [done|]. split.
  - intros n. rewrite (live_attribute _ _ _ _ Hl1), (live_attribute _ _ _ _ Hl).
    assert (events s' = ((events s ++ [DidCreateFunction f (next s)]) ++ [DidAddFinalizer f (next s)]) ++ [DidDefine (prototype_of c) name f]) as He
      by by rewrite <- !app_assoc.
    rewrite He, !property_snoc. simpl. case_decide as Hn1.
    + destruct Hn1 as [_ ->]. rewrite decide_True by done. cbn [mbind option_bind]. unfold binder_behind.
      rewrite He, !function_holder_snoc. simpl. rewrite decide_True by done. cbn [mbind option_bind]. by rewrite lookup_insert_eq.
    + rewrite decide_False by (intros ->; by apply Hn1). destruct (property (events s) (prototype_of c) n) as [f'|] eqn:Hp; [|done].
      cbn [mbind option_bind]. unfold binder_behind. rewrite He, !function_holder_snoc. simpl.
      rewrite decide_False; [|intros <-; by apply (Hundef _ _ (property_defined _ _ _ _ Hp))].
      destruct (function_holder (events s) f') as [q|] eqn:Hq; [|done]. cbn [mbind option_bind].
      assert (q < next s)%nat by (eapply Hcreated, function_holder_created, Hq). simpl. rewrite lookup_insert_ne; [done|lia].
  - unfold class_initializer. simpl. rewrite lookup_insert_ne; [done|lia].
Qed.

Lemma define_constructor_sets t c arity s s' :
  live_class s t c -> NapiBackend.define_constructor_impl t arity s = (Ok tt, s') ->
  live_class s' t c /\ (forall n, class_attribute s' t n = class_attribute s t n) /\ class_initializer s' t = Some arity.
Proof.
  intros Hl. pose proof (state_below _ _ _ Hl) as Hst. assert (exists k n, holders s !! state t = Some (ClassState k n)) as (k & m & Hk) by apply Hl.
  unfold NapiBackend.define_constructor_impl. rewrite Hk. intros [= <-]. set (s' := mk_env _ _ _ _ _).
  assert (live_class s' t c) as Hl1.
  { apply (live_class_extends s s' t c []); [done|by rewrite app_nil_r|constructor| |].
    - exists k, (Some arity). apply lookup_insert_eq.
    - destruct (live_holders _ _ _ Hl) as [Hh Hf]. split; [|exact Hf]. simpl. intros q [<-|Hq]%lookup_insert_is_Some'; [done|by apply Hh]. }
  split_and!; [done| |].
  - intros n. rewrite (live_attribute _ _ _ _ Hl1), (live_attribute _ _ _ _ Hl). simpl.
    destruct (property (events s) (prototype_of c) n) as [f|]; [|done]. cbn [mbind option_bind]. unfold binder_behind. simpl.
    destruct (function_holder (events s) f) as [q|]; [|done]. cbn [mbind option_bind].
    destruct (decide (q = state t)) as [->|Hq]; [by rewrite lookup_insert_eq, Hk|by rewrite lookup_insert_ne].
  - unfold class_initializer. simpl. by rewrite lookup_insert_eq.
Qed.

(** A class that was defined is alive. *)
Lemma define_class_live k target name s t s' :
  holders_below s -> (forall p, napi_define_class h (events s) p ≠ Some target) ->
  NapiBackend.define_class_impl h k target name s = (Ok t, s') -> exists c, live_class s' t c.
Proof.
  intros [Hh Hf] Htarget. unfold NapiBackend.define_class_impl, new_holder, ask, record, module_define, constructor_reference, NapiBackend.check.
  unfold mbind, eff_bind. simpl.
  destruct (napi_define_class h (events s) (next s)) as [c|] eqn:Hc; [|by destruct (destroy_holder _ _) as [[]]]. simpl.
  destruct (napi_add_finalizer h _ c (next s)); simpl; [|by destruct (destroy_holder _ _) as [[]]].
  destruct (napi_set_named_property h _ target name c); simpl; [|done].
  destruct (napi_create_reference h _ c) as [r|]; simpl; [|done]. intros [= <- <-]. exists c.
  pose proof (class_is_new _ _ _ Hc) as Hnew. assert (target ≠ c) as Hne by (intros ->; by apply (Htarget (next s))).
  split; simpl.
  - eexists _, []. split; [reflexivity|]. split; intros; apply not_elem_of_nil.
  - exists (next s). rewrite !elem_of_app. left. left. left. right. left.
  - intros v. rewrite <- !app_assoc. simpl. intros [Hin|Hin]%elem_of_app; [by apply (Hnew _ _ Hin)|].
    repeat (apply elem_of_cons in Hin as [Heq|Hin]; [by simplify_eq|]). by apply not_elem_of_nil in Hin.
  - exists k, None. apply lookup_insert_eq.
  - split; simpl.
    + intros q [<-|Hq]%lookup_insert_is_Some'; [lia|]. specialize (Hh q Hq). lia.
    + intros f p. rewrite <- !app_assoc. simpl. intros [Hin|Hin]%elem_of_app; [specialize (Hf _ _ Hin); lia|].
      repeat (apply elem_of_cons in Hin as [Heq|Hin]; [by simplify_eq|]). by apply not_elem_of_nil in Hin.
Qed.

#[global] Instance napi_class_objects b : RegistersWithNapi b -> ClassObjects b napi_classes.
Proof.
  intros [Hm Hcl Hco Hs]. split.
  - intros clazz f target name w t w'. rewrite Hcl. intros [= <-] [Hb Ht]. unfold on_env.
    destruct (NapiBackend.define_class_impl h (class_of clazz) target name w.1) as [o s1] eqn:Hrun. intros [= -> <-].
    by eapply define_class_live.
  - intros f w t name x w'. rewrite Hm. intros [= <-] [c Hl]. unfold on_env.
    destruct (NapiBackend.define_impl_class h t name x w.1) as [o s1] eqn:Hrun. intros [= -> <-].
    destruct (define_member_sets _ _ _ _ _ _ Hl Hrun) as (Hl' & Ha & Hi). split; [by exists c|done].
  - intros clazz ps f w t w'. rewrite Hco. intros [= <-] [c Hl]. unfold on_env.
    destruct (NapiBackend.define_constructor_impl t (length ps) w.1) as [o s1] eqn:Hrun. intros [= -> <-].
    destruct (define_constructor_sets _ _ _ _ _ Hl Hrun) as (Hl' & Ha & Hi). split; [by exists c|done].
  - intros clazz f w t w'. rewrite Hs. by intros [= <-] _ [= <-].
Qed.
End Hooks.

(** ** A host, and a class with overloads *)

Module ClassSample.
Import ImportGenerate.Sample ExportSample.

(** Values of objects are even, and the prototype of a class is the odd value after it. *)
Definition values (e : event) : nat :=
  match e with
  | DidReference _ v | DidTypeTag v _ | DidWrap v _ | DidCreateExternal v _ | DidCreateFunction v _
  | DidDefineClass v _ | DidAddFinalizer v _ | DidNewInstance _ v => v
  | DidDefine o _ v => Nat.max o v
  | _ => O
  end.
Definition new_value (t : list event) : nat := 2 * S (max_list (map values t)).
Definition reference_of (r : nat) (e : event) : option (option nat) :=
  match e with
  | DidReference r' v => if decide (r' = r) then Some (Some v) else None
  | DidDeleteReference r' => if decide (r' = r) then Some None else None
  | _ => None
  end.
Definition class_host : host :=
  mk_host (fun t v => Some (length t)) (fun t r => mjoin (last (omap (reference_of r) t)))
    (fun _ _ _ => true) (fun _ _ _ => Some true) (fun _ _ _ => true) (fun _ _ => None) (fun _ _ => None) (fun _ _ => None)
    (fun t _ => Some (new_value t)) (fun t _ => Some (new_value t)) (fun _ _ _ => true)
    (fun _ c _ => Some (S c)) (fun _ _ _ _ => true) new_value (fun _ => O) (fun t _ => Some (new_value t)).

Lemma new_value_above t e : e ∈ t -> (values e < new_value t)%nat.
Proof.
  intros Hin. unfold new_value. assert (values e <= max_list (map values t))%nat; [|lia].
  apply max_list_elem_of_le, list_elem_of_fmap. eauto.
Qed.
Lemma class_host_laws : ClassHost class_host S.
Proof.
  split.
  - intros t r v t' Hr Hd. cbn [napi_get_reference_value class_host].
    assert (omap (reference_of r) t' = []) as Hnone.
    2: { change (DidReference r v :: t') with ([DidReference r v] ++ t'). rewrite !omap_app, Hnone, app_nil_r. simpl.
         by rewrite decide_True, last_snoc. }
    apply omap_none. intros [] Hin; try done; simpl; (rewrite decide_False; [done|]); intros ->; [by eapply Hr|by apply Hd].
  - intros t p f [= <-]. split; [intros q Hin|intros o n Hin]; pose proof (new_value_above _ _ Hin); simpl in *; lia.
  - intros t p c [= <-] n v Hin. pose proof (new_value_above _ _ Hin). simpl in *. lia.
  - done.
  - lia.
Qed.

(** A backend with the hooks of Node-API; a binder is known by its number of parameters. *)
Definition class_of (clazz : string) : nat := String.length clazz.
Definition napi : backend_t (cxx_type nat) unit unit nat class_target nat unit unit unit unit world :=
  mk_backend None (Some (fun t name x => on_env (NapiBackend.define_impl_class class_host t name x)))
    (fun clazz => Some (fun target name => on_env (NapiBackend.define_class_impl class_host (class_of clazz) target name)))
    (fun _ ps => Some (fun t => on_env (NapiBackend.define_constructor_impl t (length ps))))
    (fun clazz => Some (fun t w => (Ok tt, (w.1, ClassRegistry.store w.2 (class_of clazz) t))))
    (fun _ => None) (fun _ => None) (fun _ => None) (fun _ => None) (fun _ => None) (fun _ => None) (fun _ => None) (fun _ => None).
#[export] Instance napi_hooks : RegistersWithNapi class_host class_of napi.
Proof. done. Qed.
#[export] Instance napi_classes_kept : ClassObjects napi (napi_classes class_host) := napi_class_objects class_host class_of S (ClassHost0 := class_host_laws) napi napi_hooks.

Definition circle_constructors (clazz : string) : list (contract (cxx_type nat)) := constructors (map (map_item mirror_signature) circle_items) ++ [unmatched].
Definition binder_of (x : string * contract (cxx_type nat) * string) : nat := length (parameters x.1.2).
Definition register_napi (rs : list registration) : compiled (nat -> eff world unit) :=
  register_all napi LogBackend.accepts_all circle_constructors (fun _ _ => true) (fun tag _ => tag) binder_of "circle" rs.
Definition circle_registrations : list registration := default [] (class_registrations (library (export_declarations export_blocks)) "circle").
Lemma constructors_differ_exported : NoDup (constructors (map (map_item mirror_signature) circle_items)).
Proof. vm_compute. apply NoDup_singleton. Qed.
Definition area_group : Generate.group (declared_signature (T := nat)) :=
  match mjoin (map (map (map_group mirror_signature)) area) with [g] => g | _ => mk_group 0 "" [] 0 end.
Lemma only_area_exported :
  groups_named "area" (mjoin (map (map (map_group mirror_signature)) area) ++ methods_of (map (map_item mirror_signature) circle_items)) = [area_group].
Proof. by vm_compute. Qed.
Definition empty_world : world := (mk_env [] ∅ ∅ ∅ 0, []).
Definition returned {X} (o : outcome X) : bool := match o with Ok _ => true | _ => false end.
Lemma register_napi_returns :
  match register_napi circle_registrations with inl run => returned (run 99%nat empty_world).1 | inr _ => false end = true.
Proof. vm_compute. reflexivity. Qed.
Lemma register_napi_runs :
  exists run w', register_napi circle_registrations = inl run /\ run 99%nat empty_world = (Ok tt, w').
Proof.
  pose proof register_napi_returns as Hret. destruct (register_napi circle_registrations) as [run|]; [|done].
  exists run, (run 99%nat empty_world).2. split; [done|]. by destruct (run 99%nat empty_world) as [[[]| | |] w'].
Qed.
End ClassSample.

(** A class that declares a constructor without and one with a parameter: the first cannot
    be called. *)
Module TwoConstructors.
Import ClassSample.
Definition two_constructors : list registration :=
  [registered_constructor (T := nat) []; registered_constructor [cxx_plain 1%nat]].
Definition declared (clazz : string) : list (contract (cxx_type nat)) :=
  [mk_contract None [] false; mk_contract None [cxx_plain 1%nat] false; unmatched].
Definition after : outcome unit * world :=
  match register_all napi LogBackend.accepts_all declared (fun _ _ => true) (fun tag _ => tag) binder_of "circle" two_constructors with
  | inl run => run 99%nat empty_world
  | inr _ => (Aborted, empty_world)
  end.
Definition construct_with (args : list nat) : outcome (option nat) :=
  (NapiBackend.class_constructor class_host NapiBackend.Sample.convert NapiBackend.Sample.construct
     (mk_info true (Some 42%nat) args (Some 0%nat)) after.2.1).1.
Example first_constructor_refused : after.1 = Ok tt /\ construct_with [] = Ok None /\ construct_with [7%nat] = Ok (Some 42%nat).
Proof. by vm_compute. Qed.
End TwoConstructors.

Import ImportGenerate.Sample ExportSample ClassSample.
Lemma registration_publishes_last_witness :
  exists run w' t, register_napi circle_registrations = inl run /\ run 99%nat empty_world = (Ok tt, w') /\
    class_attribute class_host w'.1 t "area" = Some 1%nat.
Proof.
  destruct register_napi_runs as (run & w' & Hrun & Hret). exists run, w'.
  destruct (registration_publishes_last napi LogBackend.accepts_all (napi_classes class_host) circle_constructors (fun _ _ => true)
    (fun tag _ => tag) binder_of reference import_types [] table [] export_blocks _ 15 (Some "native") "circle"
    (map (map_item mirror_signature) circle_items) 21 (map (map (map_group mirror_signature)) area) circle_registrations run 99%nat empty_world w'
    (Forall_nil_2 _) table_side eq_refl table_elaborated table_generates exported_once)
    as (t & w1 & _ & Hm & _ & _).
  - right; right; left.
  - vm_compute. reflexivity.
  - exact constructors_differ_exported.
  - vm_compute. reflexivity.
  - exact Hrun.
  - split; [split; [intros p [x Hx]; discriminate Hx|intros f p Hin; by apply not_elem_of_nil in Hin]|done].
  - exact Hret.
  - exists t. split_and!; [done..|]. destruct (Hm "area" _ only_area_exported) as [tag Htag]. exact Htag.
Defined.
