(* ===== verification/PythonRefs.v ===== *)
(** * backends/python.h: references to Python objects and the error indicator

    The interpreter is not modelled: the record [interpreter] holds the functions of the C
    API the backend calls, as functions of the state of the interpreter. What is modelled is
    the side of C++: the multiset of the references it owns ([held]), the error indicator,
    and the heap of a client. Releasing a reference that is not owned, or using an object
    nothing keeps alive, is [Undefined].

    [owns L P m Q] is the contract of a computation: with the objects [L] alive it consumes
    the references [P] and leaves [Q], or those of the exception it throws, whatever else
    is owned. *)

From Stdlib Require Import ZArith Lia.
From stdpp Require Import base list gmap gmultiset.
From S2P Require Import Prelude.

(** A [PyObject*] that is not null; [option] where it may be null. *)
Abbreviation obj := nat (only parsing).

(** The error indicator: what [PyErr_Fetch] returns. *)
Record err := mk_err { err_type : option obj; err_value : option obj; err_traceback : option obj }.
Definition no_err : err := mk_err None None None.

(** What a function of the API returns: a result, or null and an exception. *)
Inductive reply (A : Type) := Returned (a : A) | Raised (e : err).
Arguments Returned {A} a.
Arguments Raised {A} e.

(** The functions of the C API. [finalize o] is what runs when a reference to [o] is
    released: finalizers may do anything to the interpreter, and to its indicator. *)
Record interpreter (W : Type) := mk_interpreter {
  finalize : obj -> W -> option err -> W * option err;
  make_error : obj -> text -> W -> W * err;
  PyExc_TypeError : obj;
  PyExc_RuntimeError : obj;
  Py_None : obj;
  no_memory : err;
  PyObject_Vectorcall : obj -> list obj -> W -> W * reply obj;
  PyObject_CallObject : obj -> obj -> W -> W * reply obj;
  PyTuple_New : nat -> W -> W * reply obj;
  PyTuple_SET_ITEM : obj -> nat -> option obj -> W -> W;
  PyModule_AddObject : obj -> string -> option obj -> W -> W * reply unit;
  PyObject_SetAttrString : obj -> string -> option obj -> W -> W * reply unit;
  PyObject_GetAttrString : obj -> string -> W -> W * reply obj;
  PyImport_ImportModule : string -> W -> W * reply obj;
  PyType_FromSpec : string -> Z -> W -> W * reply obj;
  PyType_GenericNew : gset obj -> obj -> W -> W * reply obj;
  tp_alloc : gset obj -> obj -> W -> W * reply obj;
  PyType_Ready : W -> W * reply unit;
  PyObject_New : gset obj -> W -> W * reply obj;
  PyObject_New_instance : gset obj -> obj -> W -> W * reply obj;
  PyMethod_New : obj -> obj -> W -> W * reply obj;
  PyCallable_Check : obj -> W -> bool;
  PyObject_TypeCheck : obj -> obj -> W -> bool;
  PyTuple_items : obj -> W -> option (list obj);
  PyDict_Size : obj -> W -> Z;
  tp_dict_item : obj -> string -> W -> option obj;
  has_gc : obj -> W -> bool;
  PyMem_Malloc : Z -> W -> bool
}.
Arguments finalize {W}. Arguments make_error {W}. Arguments PyExc_TypeError {W}.
Arguments PyExc_RuntimeError {W}. Arguments Py_None {W}. Arguments no_memory {W}.
Arguments PyObject_Vectorcall {W}. Arguments PyObject_CallObject {W}. Arguments PyTuple_New {W}.
Arguments PyTuple_SET_ITEM {W}. Arguments PyModule_AddObject {W}. Arguments PyObject_SetAttrString {W}.
Arguments PyObject_GetAttrString {W}. Arguments PyImport_ImportModule {W}. Arguments PyType_FromSpec {W}.
Arguments PyType_GenericNew {W}. Arguments tp_alloc {W}. Arguments PyType_Ready {W}. Arguments PyObject_New {W}.
Arguments PyObject_New_instance {W}. Arguments PyMethod_New {W}. Arguments PyCallable_Check {W}.
Arguments PyObject_TypeCheck {W}. Arguments PyTuple_items {W}. Arguments PyDict_Size {W}.
Arguments tp_dict_item {W}. Arguments has_gc {W}. Arguments PyMem_Malloc {W}.

(** Documented: allocation returns storage that is not in use. *)
Class FreshAllocation {W} (py : interpreter W) : Prop := {
  generic_new_fresh used t w w' o : PyType_GenericNew py used t w = (w', Returned o) -> o ∉ used;
  tp_alloc_fresh used t w w' o : tp_alloc py used t w = (w', Returned o) -> o ∉ used;
  object_new_fresh used w w' o : PyObject_New py used w = (w', Returned o) -> o ∉ used;
  instance_new_fresh used t w w' o : PyObject_New_instance py used t w = (w', Returned o) -> o ∉ used
}.

(** Documented: the destructor of a type leaves the error indicator unchanged. *)
Class FinalizersKeepError {W} (py : interpreter W) : Prop := {
  finalize_keeps o w e : (finalize py o w e).2 = e
}.

Record py_state (W C : Type) := mk_py {
  held : gmultiset obj;
  pending : option err;
  world : W;
  heap : C
}.
Arguments mk_py {W C}. Arguments held {W C}. Arguments pending {W C}. Arguments world {W C}.
Arguments heap {W C}.

(** The references of an optional object, of a fetched error, of an exception. *)
Definition orefs (o : option obj) : gmultiset obj := match o with Some o => {[+ o +]} | None => ∅ end.
Definition err_refs (e : err) : gmultiset obj := orefs (err_type e) ⊎ orefs (err_value e) ⊎ orefs (err_traceback e).
Definition exn_refs (e : exn) : gmultiset obj :=
  match e with python_error _ t v b => err_refs (mk_err t v b) | _ => ∅ end.
Definition lrefs (l : list obj) : gmultiset obj := list_to_set_disj l.

Lemma lrefs_cons o l : lrefs (o :: l) = {[+ o +]} ⊎ lrefs l.
Proof. done. Qed.
Lemma exn_refs_python m e : exn_refs (python_error m (err_type e) (err_value e) (err_traceback e)) = err_refs e.
Proof. by destruct e. Qed.

Section Refs.
Context {W C : Type} (py : interpreter W) (lent : gset obj).
(** [lent] are the objects that are alive whatever C++ owns: [None], the exception types,
    the module, the arguments of a callback while it runs. *)
Abbreviation M := (eff (py_state W C)).
Implicit Types (s : py_state W C) (o : obj) (P F : gmultiset obj).

(** ** The reference count macros *)

Definition alive s o : Prop := o ∈ lent \/ o ∈ held s.
#[global] Instance alive_dec s o : Decision (alive s o).
Proof. unfold alive. apply _. Defined.

(** A function of the API on the object [o]. *)
Definition use (o : option obj) : M obj := fun s =>
  match o with
  | Some o => if decide (alive s o) then (Ok o, s) else (Undefined, s)
  | None => (Undefined, s)
  end.

Definition acquire (o : obj) : M unit := fun s =>
  (Ok tt, mk_py (held s ⊎ {[+ o +]}) (pending s) (world s) (heap s)).
Definition give_away (o : obj) : M unit := fun s =>
  if decide (o ∈ held s) then (Ok tt, mk_py (held s ∖ {[+ o +]}) (pending s) (world s) (heap s)) else (Undefined, s).

Definition Py_INCREF (o : option obj) : M unit := o ← use o; acquire o.
Definition Py_XINCREF (o : option obj) : M unit := match o with Some _ => Py_INCREF o | None => mret tt end.
Definition run_finalizer (o : obj) : M unit := fun s =>
  let (w, e) := finalize py o (world s) (pending s) in (Ok tt, mk_py (held s) e w (heap s)).
Definition Py_DECREF (o : option obj) : M unit :=
  match o with
  | Some o => give_away o ;; run_finalizer o
  | None => undefined_behaviour
  end.
Definition Py_XDECREF (o : option obj) : M unit := match o with Some _ => Py_DECREF o | None => mret tt end.

(** ** Calls of the API *)

(** A call that returns no reference, and sets the indicator when it fails. *)
Definition api_status {A} (f : W -> W * reply A) : M (option A) := fun s =>
  match f (world s) with
  | (w, Returned a) => (Ok (Some a), mk_py (held s) (pending s) w (heap s))
  | (w, Raised e) => (Ok None, mk_py (held s) (Some e) w (heap s))
  end.
(** A call that returns a new reference. *)
Definition api_new (f : W -> W * reply obj) : M (option obj) :=
  r ← api_status f;
  match r with Some o => acquire o ;; mret (Some o) | None => mret None end.
Definition asks {A} (f : W -> A) : M A := gets (fun s => f (world s)).

Definition PyErr_Occurred : M bool := gets (fun s => match pending s with Some _ => true | None => false end).
Definition PyErr_Clear : M unit := fun s => (Ok tt, mk_py (held s) None (world s) (heap s)).
Definition PyErr_SetString (type : obj) (message : text) : M unit := fun s =>
  let (w, e) := make_error py type message (world s) in (Ok tt, mk_py (held s) (Some e) w (heap s)).
(** [PyErr_Fetch] hands the references over and clears the indicator; [PyErr_Restore] takes
    them back. *)
Definition PyErr_Fetch : M err := fun s =>
  let e := default no_err (pending s) in
  (Ok e, mk_py (held s ⊎ err_refs e) None (world s) (heap s)).
Definition steal (o : option obj) : M unit := match o with Some o => give_away o | None => mret tt end.
Definition set_indicator (e : err) : M unit := fun s =>
  (Ok tt, mk_py (held s) (match err_type e with Some _ => Some e | None => None end) (world s) (heap s)).
Definition PyErr_Restore (e : err) : M unit :=
  steal (err_type e) ;; steal (err_value e) ;; steal (err_traceback e) ;; set_indicator e.

(** ** [object_ref] *)

Inductive ref_policy := borrowed | owned.

(** [object_ref(object, policy)]. *)
Definition object_ref (object : option obj) (policy : ref_policy) : M (option obj) :=
  match object, policy with
  | Some _, borrowed => Py_INCREF object ;; mret object
  | _, _ => mret object
  end.
(** [release]: what was held, and what is left. *)
Definition release (r : option obj) : option obj * option obj := (r, None).
(** [reset]: the old reference goes first. *)
Definition reset (r : option obj) (object : option obj) (policy : ref_policy) : M (option obj) :=
  Py_XDECREF r ;; object_ref object policy.
(** The move assignment from another reference, which it leaves empty. *)
Definition move_assign (r other : option obj) : M (option obj * option obj) :=
  let (o, other') := release other in
  r' ← reset r o owned; mret (r', other').

(** The destructor at the end of a scope, also when an exception leaves it. *)
Definition with_ref {A} (r : option obj) (body : M A) : M A := fun s =>
  match body s with
  | (Ok a, s') => (Py_XDECREF r ;; mret a) s'
  | (Throw e, s') => (Py_XDECREF r ;; throw e) s'
  | other => other
  end.

(** [catch (...) { cleanup; throw; }]; also a destructor that a later [release] disarms. *)
Definition cleaning {A} (cleanup : M unit) (body : M A) : M A := fun s =>
  match body s with
  | (Throw e, s') => (cleanup ;; throw e) s'
  | r => r
  end.

(** ** [python_error] *)

Definition new_python_error (message : string) : M exn :=
  occurred ← PyErr_Occurred;
  (if occurred : bool then mret tt else PyErr_SetString (PyExc_RuntimeError py) (lit message)) ;;
  e ← PyErr_Fetch;
  mret (python_error (lit message) (err_type e) (err_value e) (err_traceback e)).
Definition throw_python_error {A} (message : string) : M A := e ← new_python_error message; throw e.

(** The copy constructor. *)
Definition copy_python_error (e : exn) : M exn :=
  match e with
  | python_error m t v b => Py_XINCREF t ;; Py_XINCREF v ;; Py_XINCREF b ;; mret e
  | _ => mret e
  end.
(** The move constructor, and what it leaves behind. *)
Definition move_python_error (e : exn) : exn * exn :=
  match e with python_error m t v b => (e, python_error m None None None) | _ => (e, e) end.
(** The destructor of an exception that was handled. *)
Definition destroy_exception (e : exn) : M unit :=
  match e with
  | python_error m t v b => Py_XDECREF t ;; Py_XDECREF v ;; Py_XDECREF b
  | _ => mret tt
  end.
Definition restore (e : exn) : M unit :=
  match e with
  | python_error m t v b => Py_XINCREF t ;; Py_XINCREF v ;; Py_XINCREF b ;; PyErr_Restore (mk_err t v b)
  | _ => mret tt
  end.

(** ** Contracts *)

Definition kept (L : gset obj) F : Prop := forall o, o ∈ L -> o ∈ lent \/ o ∈ F.

Definition owns {A} (L : gset obj) P (m : M A) (Q : A -> gmultiset obj) : Prop :=
  forall s F, kept L F -> held s = F ⊎ P ->
  match m s with
  | (Ok a, s') => held s' = F ⊎ Q a
  | (Throw e, s') => held s' = F ⊎ exn_refs e
  | (Aborted, _) => True
  | (Undefined, _) => False
  end.

Lemma owns_ret {A} L P (a : A) (Q : A -> gmultiset obj) : P = Q a -> owns L P (mret a) Q.
Proof. intros -> s F _ Hs. done. Qed.
Lemma owns_throw {A} L e (Q : A -> gmultiset obj) : owns L (exn_refs e) (throw e) Q.
Proof. intros s F _ Hs. done. Qed.
Lemma owns_throw_plain {A} L e (Q : A -> gmultiset obj) : exn_refs e = ∅ -> owns L ∅ (throw e) Q.
Proof. intros He. rewrite <- He. apply owns_throw. Qed.

Lemma owns_bind {A B} L P (m : M A) (f : A -> M B) R Q :
  owns L P m R -> (forall a, owns L (R a) (f a) Q) -> owns L P (m ≫= f) Q.
Proof.
  intros Hm Hf s F HL Hs. specialize (Hm s F HL Hs). unfold mbind, eff_bind.
  destruct (m s) as [[a|e| |] s']; try done. by apply Hf.
Qed.

Lemma owns_mono {A} L P P' (m : M A) Q :
  owns L P m Q -> P' = P -> owns L P' m Q.
Proof. by intros Hm ->. Qed.
Lemma owns_post {A} L P (m : M A) (Q Q' : A -> gmultiset obj) :
  owns L P m Q -> (forall a, Q a = Q' a) -> owns L P m Q'.
Proof.
  intros Hm HQ s F HL Hs. specialize (Hm s F HL Hs). destruct (m s) as [[a|e| |] s']; try done. by rewrite <- HQ.
Qed.
Lemma owns_alive {A} L L' P (m : M A) Q : owns L P m Q -> L ⊆ L' -> owns L' P m Q.
Proof. intros Hm HL s F HF. apply Hm. intros o Ho. apply HF. set_solver. Qed.

(** A computation that does not change what is held. *)
Definition ledger_pure {A} (m : M A) : Prop :=
  forall s, match m s with (Ok _, s') => held s' = held s | _ => False end.
Lemma owns_ledger_pure {A} L P (m : M A) : ledger_pure m -> owns L P m (fun _ => P).
Proof. intros Hm s F _ Hs. specialize (Hm s). destruct (m s) as [[a|e| |] s']; try done. by rewrite Hm. Qed.

Lemma api_status_pure {A} (f : W -> W * reply A) : ledger_pure (api_status f).
Proof. intros s. unfold api_status. by destruct (f (world s)) as [w [a|e]]. Qed.
Lemma asks_pure {A} (f : W -> A) : ledger_pure (asks f).
Proof. by intros s. Qed.
Lemma occurred_pure : ledger_pure PyErr_Occurred.
Proof. by intros s. Qed.
Lemma clear_pure : ledger_pure PyErr_Clear.
Proof. by intros s. Qed.
Lemma set_string_pure t m : ledger_pure (PyErr_SetString t m).
Proof. intros s. unfold PyErr_SetString. by destruct (make_error py t m (world s)). Qed.

Lemma owns_use L P o : o ∈ lent \/ o ∈ L \/ o ∈ P -> owns L P (use (Some o)) (fun o' => P).
Proof.
  intros Ho s F HL Hs. unfold use. rewrite decide_True; [done|].
  unfold alive. rewrite Hs. destruct Ho as [|[Ho|Ho]]; [by left| |right; multiset_solver].
  destruct (HL _ Ho); [by left|right; multiset_solver].
Qed.
Lemma use_run s o : alive s o -> use (Some o) s = (Ok o, s).
Proof. intros Ho. unfold use. by rewrite decide_True. Qed.

Lemma owns_incref L P o :
  o ∈ lent \/ o ∈ L \/ o ∈ P -> owns L P (Py_INCREF (Some o)) (fun _ => P ⊎ {[+ o +]}).
Proof.
  intros Ho s F HL Hs. pose proof (owns_use L P o Ho s F HL Hs) as Hu. unfold Py_INCREF, mbind, eff_bind.
  unfold use in *. destruct (decide (alive s o)); [|done]. simpl. rewrite Hs. multiset_solver.
Qed.
Lemma owns_xincref L P (o : option obj) :
  (forall x, o = Some x -> x ∈ lent \/ x ∈ L \/ x ∈ P) -> owns L P (Py_XINCREF o) (fun _ => P ⊎ orefs o).
Proof.
  destruct o as [o|]; intros Ho; simpl; [by apply owns_incref; apply Ho|]. apply owns_ret. multiset_solver.
Qed.

Lemma owns_give_away L P o : owns L (P ⊎ {[+ o +]}) (give_away o) (fun _ => P).
Proof.
  intros s F _ Hs. unfold give_away. rewrite decide_True by (rewrite Hs; multiset_solver). simpl.
  rewrite Hs. multiset_solver.
Qed.
Lemma owns_steal L P (o : option obj) : owns L (P ⊎ orefs o) (steal o) (fun _ => P).
Proof. destruct o as [o|]; simpl; [apply owns_give_away|]. apply owns_ret. multiset_solver. Qed.
Lemma run_finalizer_pure o : ledger_pure (run_finalizer o).
Proof. intros s. unfold run_finalizer. by destruct (finalize py o (world s) (pending s)). Qed.
Lemma owns_decref L P o : owns L (P ⊎ {[+ o +]}) (Py_DECREF (Some o)) (fun _ => P).
Proof.
  simpl. eapply owns_bind; [apply owns_give_away|intros []]. apply owns_ledger_pure, run_finalizer_pure.
Qed.
Lemma owns_xdecref L P (o : option obj) : owns L (P ⊎ orefs o) (Py_XDECREF o) (fun _ => P).
Proof. destruct o as [o|]; [apply owns_decref|]. apply owns_ret. multiset_solver. Qed.

Lemma owns_api_new L P f : owns L P (api_new f) (fun r => P ⊎ orefs r).
Proof.
  unfold api_new. eapply owns_bind; [apply owns_ledger_pure, api_status_pure|intros [o|]].
  - eapply (owns_bind _ _ _ _ (fun _ => P ⊎ {[+ o +]})); [|intros []; by apply owns_ret].
    intros s F _ Hs. unfold acquire. cbn [held]. rewrite Hs. multiset_solver.
  - apply owns_ret. multiset_solver.
Qed.

Lemma owns_object_ref_owned L P r : owns L P (object_ref r owned) (fun r' => P).
Proof. destruct r; by apply owns_ret. Qed.
Lemma owns_object_ref_borrowed L P r :
  (forall x, r = Some x -> x ∈ lent \/ x ∈ L \/ x ∈ P) ->
  owns L P (object_ref r borrowed) (fun r' => P ⊎ orefs r').
Proof.
  destruct r as [o|]; intros Ho; simpl.
  - eapply owns_bind; [apply owns_incref; by apply Ho|intros []]. by apply owns_ret.
  - apply owns_ret. multiset_solver.
Qed.

(** The scope of a reference: the body runs with the object alive. *)
Lemma owns_with_ref {A} L P r (body : M A) Q :
  owns (match r with Some o => {[ o ]} ∪ L | None => L end) P body Q ->
  owns L (P ⊎ orefs r) (with_ref r body) Q.
Proof.
  intros Hb s F HL Hs. unfold with_ref.
  assert (kept (match r with Some o => {[ o ]} ∪ L | None => L end) (F ⊎ orefs r)) as HL'.
  { intros o Ho. destruct r as [x|]; [|destruct (HL o Ho); [by left|right; multiset_solver]].
    apply elem_of_union in Ho as [->%elem_of_singleton|Ho]; [right; simpl; multiset_solver|].
    destruct (HL o Ho); [by left|right; multiset_solver]. }
  specialize (Hb s (F ⊎ orefs r) HL'). rewrite Hs in Hb. specialize (Hb ltac:(multiset_solver)).
  destruct (body s) as [[a|e| |] s']; try done.
  - eapply (owns_bind L (Q a ⊎ orefs r) (Py_XDECREF r) (fun _ => mret a));
      [apply owns_xdecref|intros []; by apply owns_ret|done|]. rewrite Hb. multiset_solver.
  - eapply (owns_bind L (exn_refs e ⊎ orefs r) (Py_XDECREF r) (fun _ => throw e) _ Q);
      [apply owns_xdecref|intros []; apply owns_throw|done|]. rewrite Hb. multiset_solver.
Qed.

Lemma owns_cleaning {A} L P (cleanup : M unit) (body : M A) Q :
  (forall P', owns L (P' ⊎ P) cleanup (fun _ => P')) -> owns L ∅ body Q ->
  (forall s a s', body s ≠ (Ok a, s')) -> owns L P (cleaning cleanup body) Q.
Proof.
  intros Hc Hb Hno s F HL Hs. unfold cleaning.
  assert (kept L (F ⊎ P)) as HL'.
  { intros o Ho. destruct (HL o Ho); [by left|right; multiset_solver]. }
  specialize (Hb s (F ⊎ P) HL'). rewrite Hs in Hb. specialize (Hb ltac:(multiset_solver)).
  destruct (body s) as [[a|e| |] s'] eqn:Hbody; try done; [by destruct (Hno s a s')|].
  eapply (owns_bind L (exn_refs e ⊎ P) cleanup (fun _ => throw e) _ Q);
    [apply Hc|intros []; apply owns_throw|done|]. rewrite Hb. multiset_solver.
Qed.

(** The same with a body that may return: what it leaves then is [Q] and the resource. *)
Lemma owns_guarded {A} L P P' (cleanup : M unit) (body : M A) Q :
  (forall P', owns L (P' ⊎ P) cleanup (fun _ => P')) -> owns L P' body Q ->
  owns L (P' ⊎ P) (cleaning cleanup body) (fun a => Q a ⊎ P).
Proof.
  intros Hc Hb s F HL Hs. unfold cleaning.
  assert (kept L (F ⊎ P)) as HL'.
  { intros o Ho. destruct (HL o Ho); [by left|right; multiset_solver]. }
  specialize (Hb s (F ⊎ P) HL'). rewrite Hs in Hb. specialize (Hb ltac:(multiset_solver)).
  destruct (body s) as [[a|e| |] s'] eqn:Hbody; try done; [rewrite Hb; multiset_solver|].
  eapply (owns_bind L (exn_refs e ⊎ P) cleanup (fun _ => throw e) _ (fun a => Q a ⊎ P));
    [apply Hc|intros []; apply owns_throw|done|]. rewrite Hb. multiset_solver.
Qed.

Lemma owns_fetch L : owns L ∅ PyErr_Fetch (fun e => err_refs e).
Proof. intros s F _ Hs. cbn. rewrite Hs. multiset_solver. Qed.

Lemma owns_new_python_error L message : owns L ∅ (new_python_error message) exn_refs.
Proof.
  unfold new_python_error. eapply owns_bind; [apply owns_ledger_pure, occurred_pure|intros oc].
  eapply (owns_bind _ _ _ _ (fun _ => ∅)).
  { destruct oc; [by apply owns_ret|apply owns_ledger_pure, set_string_pure]. }
  intros []. eapply owns_bind; [apply owns_fetch|intros e]. apply owns_ret. by rewrite exn_refs_python.
Qed.
Lemma owns_throw_python_error {A} L message (Q : A -> gmultiset obj) : owns L ∅ (throw_python_error message) Q.
Proof. eapply owns_bind; [apply owns_new_python_error|intros e]. apply owns_throw. Qed.

Lemma owns_destroy_exception L e : owns L (exn_refs e) (destroy_exception e) (fun _ => ∅).
Proof.
  destruct e as [| | | | | |m t v b|]; try by apply owns_ret. unfold destroy_exception, exn_refs, err_refs. simpl.
  eapply (owns_bind _ _ _ _ (fun _ => orefs v ⊎ orefs b)).
  { eapply owns_mono; [apply owns_xdecref|]. multiset_solver. }
  intros []. eapply (owns_bind _ _ _ _ (fun _ => orefs b)).
  { eapply owns_mono; [apply owns_xdecref|]. multiset_solver. }
  intros []. eapply owns_mono; [apply owns_xdecref|]. multiset_solver.
Qed.

(** [restore] keeps the references of the exception: those of the indicator are new. *)
Lemma owns_restore L e : owns L (exn_refs e) (restore e) (fun _ => exn_refs e).
Proof.
  destruct e as [| | | | | |m t v b|]; try by apply owns_ret.
  unfold restore, exn_refs, err_refs, PyErr_Restore. cbn [err_type err_value err_traceback].
  eapply owns_bind; [apply owns_xincref; intros x ->; simpl; right; right; multiset_solver|intros []].
  eapply owns_bind; [apply owns_xincref; intros x ->; simpl; right; right; multiset_solver|intros []].
  eapply owns_bind; [apply owns_xincref; intros x ->; simpl; right; right; multiset_solver|intros []].
  eapply (owns_bind _ _ _ _ (fun _ => orefs t ⊎ orefs v ⊎ orefs b ⊎ orefs v ⊎ orefs b)).
  { eapply owns_mono; [apply owns_steal|]. multiset_solver. }
  intros []. eapply (owns_bind _ _ _ _ (fun _ => orefs t ⊎ orefs v ⊎ orefs b ⊎ orefs b)).
  { eapply owns_mono; [apply owns_steal|]. multiset_solver. }
  intros []. eapply (owns_bind _ _ _ _ (fun _ => orefs t ⊎ orefs v ⊎ orefs b)).
  { eapply owns_mono; [apply owns_steal|]. multiset_solver. }
  intros []. apply owns_ledger_pure. by intros s.
Qed.
End Refs.

Arguments alive {W C}. Arguments use {W C}. Arguments owns {W C} lent {A}.

(** ** A concrete interpreter

    Its state is the next object. Even callables return a new object and odd ones raise;
    the objects from 1000 on are immortal; [clobber] says whether finalizers lose the error
    indicator, [memory] whether there is any for callables. *)

Module SampleInterpreter.
Definition type_error : obj := 1001%nat.
Definition runtime_error_type : obj := 1002%nat.
Definition none : obj := 1003%nat.
Definition lent : gset obj := {[ 1001%nat; 1002%nat; 1003%nat; 2%nat; 3%nat; 4%nat; 5%nat ]}.
Definition message_err (type : obj) (w : nat) : nat * err :=
  (S w, mk_err (Some type) (Some w) None).
Definition new_object (w : nat) : nat * reply obj := (S w, Returned w).
Definition raised (w : nat) : nat * reply obj := (S w, Raised (mk_err (Some type_error) (Some w) None)).
Definition reply_to (c : obj) (w : nat) : nat * reply obj := if Nat.even c then new_object w else raised w.
Definition status_for {A} (c : obj) (a : A) (w : nat) : nat * reply A :=
  if Nat.even c then (w, Returned a) else (S w, Raised (mk_err (Some type_error) (Some w) None)).
Definition fresh_object (used : gset obj) (w : nat) : nat * reply obj :=
  let o := fresh used in (w, Returned o).

Definition interp (clobber memory : bool) : interpreter nat := {|
  finalize := fun _ w e => (w, if clobber then None else e);
  make_error := fun t _ w => message_err t w;
  PyExc_TypeError := type_error;
  PyExc_RuntimeError := runtime_error_type;
  Py_None := none;
  no_memory := mk_err (Some runtime_error_type) None None;
  PyObject_Vectorcall := fun c _ w => reply_to c w;
  PyObject_CallObject := fun c _ w => reply_to c w;
  PyTuple_New := fun _ w => new_object w;
  PyTuple_SET_ITEM := fun _ _ _ w => w;
  PyModule_AddObject := fun m _ v w => match v with Some _ => status_for m tt w | None => status_for 1%nat tt w end;
  PyObject_SetAttrString := fun t _ v w => match v with Some _ => status_for t tt w | None => status_for 1%nat tt w end;
  PyObject_GetAttrString := fun o _ w => reply_to o w;
  PyImport_ImportModule := fun _ w => new_object w;
  PyType_FromSpec := fun _ _ w => new_object w;
  PyType_GenericNew := fun used t w => if Nat.even t then fresh_object used w else raised w;
  tp_alloc := fun used _ w => fresh_object used w;
  PyType_Ready := fun w => (w, Returned tt);
  PyObject_New := fun used w => if memory then fresh_object used w else raised w;
  PyObject_New_instance := fun used _ w => fresh_object used w;
  PyMethod_New := fun _ _ w => new_object w;
  PyCallable_Check := fun o _ => Nat.even o;
  PyObject_TypeCheck := fun _ t _ => Nat.even t;
  PyTuple_items := fun _ _ => Some [];
  PyDict_Size := fun _ _ => 0;
  tp_dict_item := fun _ _ _ => Some 4%nat;
  has_gc := fun t _ => Nat.eqb (t mod 3) 0;
  PyMem_Malloc := fun _ _ => true
|}.

#[export] Instance sample_keeps_error : FinalizersKeepError (interp false true).
Proof. split. done. Qed.

#[export] Instance sample_fresh clobber memory : FreshAllocation (interp clobber memory).
Proof.
  split; intros *; cbn [interp PyType_GenericNew tp_alloc PyObject_New PyObject_New_instance];
    unfold raised, fresh_object; try destruct (Nat.even _); try destruct memory; intros [= <- <-]; apply is_fresh.
Qed.

(** A state of the C++ side that owns [l]. *)
Definition owning {C} (heap : C) (l : list obj) : py_state nat C := mk_py (lrefs l) None 2000%nat heap.
End SampleInterpreter.
