(* ===== verification/PythonCall.v ===== *)
(** * backends/python.h: imported Python functions and objects

    A call passes converted arguments, raw pointers or [object_ref]s that both own what they
    point to, and gives up all of them: to the tuple of the call before Python 3.8, to the
    destructors and [decref_args] since. *)

From Stdlib Require Import ZArith Lia.
From stdpp Require Import base list gmap gmultiset.
From S2P Require Import Prelude PythonRefs.

(** The arguments of [call]: both kinds own a reference. *)
Inductive call_arg := Raw (value : option obj) | Ref (object : option obj).

Definition call_arg_value (a : call_arg) : option obj := match a with Raw v | Ref v => v end.
Definition arg_refs (l : list call_arg) : gmultiset obj :=
  foldr (fun a P => orefs (call_arg_value a) ⊎ P) ∅ l.
Definition not_null (l : list call_arg) : Prop := Forall (fun a => call_arg_value a ≠ None) l.

Section Calls.
Context {W C : Type} (py : interpreter W) (lent : gset obj).
(** [PY_VERSION_HEX >= 0x03080000]. *)
Context (has_vectorcall : bool).
Abbreviation M := (eff (py_state W C)).
Abbreviation api_new := (@api_new W C).

Definition decref_arg (a : call_arg) : M unit :=
  match a with Raw v => Py_XDECREF py v | Ref _ => mret tt end.
Fixpoint decref_args (l : list call_arg) : M unit :=
  match l with [] => mret tt | a :: l => decref_arg a ;; decref_args l end.

(** The parameters [Args... args] are destroyed when the call is left. *)
Definition destroyed (a : call_arg) : option obj := match a with Raw _ => None | Ref v => v end.
Definition with_params {A} (l : list call_arg) (body : M A) : M A :=
  foldr (fun a m => with_ref py (destroyed a) m) body l.

(** [{ call_arg_value(args)... }]; a null argument has no meaning for the interpreter. *)
Fixpoint argument_values (l : list call_arg) : M (list obj) :=
  match l with
  | [] => mret []
  | a :: l => v ← use lent (call_arg_value a); vs ← argument_values l; mret (v :: vs)
  end.

Definition no_callable : M (option obj) :=
  PyErr_SetString py (PyExc_RuntimeError py) (lit "dynabridge Python context has no callable") ;; mret None.

Definition call_vector (callable : option obj) (args : list call_arg) : M (option obj) :=
  with_params args
    match callable with
    | None => decref_args args ;; no_callable
    | Some _ =>
        argv ← argument_values args;
        callable ← use lent callable;
        result ← api_new (PyObject_Vectorcall py callable argv);
        match result with
        | None => cleaning (decref_args args) (throw_python_error py "Python callable returned null")
        | Some result => decref_args args ;; mret (Some result)
        end
    end.

(** [fill_tuple]: the tuple takes the references. *)
Definition set_item (tuple : obj) (i : nat) (v : option obj) : M unit := fun s =>
  (Ok tt, mk_py (held s) (pending s) (PyTuple_SET_ITEM py tuple i v (world s)) (heap s)).
Fixpoint fill_tuple (tuple : obj) (i : nat) (l : list call_arg) : M unit :=
  match l with
  | [] => mret tt
  | a :: l => steal (call_arg_value a) ;; set_item tuple i (call_arg_value a) ;; fill_tuple tuple (S i) l
  end.

(** Once [fill_tuple] has run the parameters are empty. *)
Definition call_tuple (callable : option obj) (args : list call_arg) : M (option obj) :=
  match callable with
  | None => with_params args (decref_args args ;; no_callable)
  | Some _ =>
      tuple ← api_new (PyTuple_New py (length args));
      match tuple with
      | None => with_params args (decref_args args ;; mret None)
      | Some t =>
          with_ref py tuple (
            fill_tuple t 0 args ;;
            callable ← use lent callable;
            result ← api_new (PyObject_CallObject py callable t);
            match result with
            | None => throw_python_error py "Python callable returned null"
            | Some result => mret (Some result)
            end)
      end
  end.

Definition call (callable : option obj) (args : list call_arg) : M (option obj) :=
  if has_vectorcall then call_vector callable args else call_tuple callable args.

(** ** [invoke_impl]: functions and members, with a result and without *)

Section Invoke.
Context {R : Type} (from_cast : obj -> M R).

Definition invoke_impl (message : string) (callable : option obj) (args : list call_arg) : M R :=
  result ← call callable args;
  with_ref py result
    match result with
    | None => throw_python_error py message
    | Some r => from_cast r
    end.
End Invoke.

Definition invoke_void_impl (message : string) (callable : option obj) (args : list call_arg) : M unit :=
  result ← call callable args;
  with_ref py result
    match result with
    | None => throw_python_error py message
    | Some r => mret tt
    end.

Definition invoke_function {R} (from_cast : obj -> M R) := invoke_impl from_cast "Python callable returned null".
Definition invoke_member {R} (from_cast : obj -> M R) callable (receiver : call_arg) args :=
  invoke_impl from_cast "Python member callable returned null" callable (receiver :: args).
Definition invoke_void_member callable (receiver : call_arg) args :=
  invoke_void_impl "Python member callable returned null" callable (receiver :: args).

(** [construct_import_object_impl], on the reference of the object. *)
Definition construct_import_object_impl (r callable : option obj) (args : list call_arg) : M (option obj) :=
  object ← call callable args;
  r' ← reset py lent r object owned;
  match r' with
  | None => throw_python_error py "Python constructor returned null"
  | Some _ => mret r'
  end.

(** ** Imports and dynamic values *)

Definition import_attr (module : option obj) (name : string) : M (option obj) :=
  m ← use lent module;
  result ← api_new (PyObject_GetAttrString py m name);
  match result with
  | None => throw (runtime_error (lit "Python import lookup failed"))
  | Some _ => mret result
  end.
(** [import_impl] on a module; the result is the [callable_] of the new context. *)
Definition import_impl (module : option obj) (name : string) : M (option obj) :=
  callable ← import_attr module name; object_ref lent callable owned.
(** [import_impl] on the name of a module. *)
Definition import_impl_by_name (module_name name : string) : M (option obj) :=
  module ← api_new (PyImport_ImportModule py module_name);
  with_ref py module
    match module with
    | None => throw (runtime_error (lit "PyImport_ImportModule failed"))
    | Some _ => callable ← import_attr module name; object_ref lent callable owned
    end.

Definition set_callable (callable_ callable : option obj) (policy : ref_policy) : M (option obj) :=
  reset py lent callable_ callable policy.
Definition own_import_value_impl (value : option obj) : M (option obj) := object_ref lent value owned.
Definition try_import_callable_impl (value : option obj) : M (option (option obj)) :=
  match value with
  | None => mret None
  | Some _ =>
      v ← use lent value;
      callable ← asks (PyCallable_Check py v);
      if negb callable then mret None
      else r ← object_ref lent value borrowed; mret (Some r)
  end.
Definition to_dynamic_object_impl (object : option obj) : M (option obj) :=
  Py_XINCREF lent object ;; mret object.
Definition undefined_value : M (option obj) :=
  Py_INCREF lent (Some (Py_None py)) ;; mret (Some (Py_None py)).

(** ** Contracts *)

Abbreviation owns := (owns lent).

(** What [decref_args] and the destructors of the parameters give up. *)
Definition raw_refs (l : list call_arg) : gmultiset obj :=
  foldr (fun a P => match a with Raw v => orefs v | Ref _ => ∅ end ⊎ P) ∅ l.
Definition ref_refs (l : list call_arg) : gmultiset obj :=
  foldr (fun a P => orefs (destroyed a) ⊎ P) ∅ l.

Lemma arg_refs_split l : arg_refs l = raw_refs l ⊎ ref_refs l.
Proof. induction l as [|[v|v] l IH]; simpl; [done| |]; rewrite IH; multiset_solver. Qed.

Lemma owns_decref_args L P l : owns L (P ⊎ raw_refs l) (decref_args l) (fun _ => P).
Proof.
  induction l as [|[v|v] l IH]; simpl.
  - apply owns_ret. multiset_solver.
  - eapply (owns_bind _ _ _ _ _ (fun _ => P ⊎ raw_refs l)); [|intros []; exact IH].
    eapply owns_mono; [apply owns_xdecref|]. multiset_solver.
  - eapply (owns_bind _ _ _ _ _ (fun _ => P ⊎ raw_refs l)); [apply owns_ret; multiset_solver|intros []; exact IH].
Qed.

Fixpoint ref_objs (l : list call_arg) : gset obj :=
  match l with
  | [] => ∅
  | a :: l => match destroyed a with Some o => {[ o ]} | None => ∅ end ∪ ref_objs l
  end.

Lemma owns_with_params {A} L P l (body : M A) Q :
  owns (ref_objs l ∪ L) P body Q -> owns L (P ⊎ ref_refs l) (with_params l body) Q.
Proof.
  revert L. induction l as [|a l IH]; intros L Hb; simpl.
  - eapply owns_mono; [eapply owns_alive; [exact Hb|set_solver]|multiset_solver].
  - eapply owns_mono; [apply (owns_with_ref _ _ L (P ⊎ ref_refs l) (destroyed a))|multiset_solver].
    apply IH. eapply owns_alive; [exact Hb|]. simpl. destruct (destroyed a); set_solver.
Qed.

Lemma arg_alive l o : Some o ∈ map call_arg_value l -> o ∈ ref_objs l \/ o ∈ raw_refs l.
Proof.
  induction l as [|[v|v] l IH]; simpl; [by intros ?%elem_of_nil| |]; intros [Heq|Hin]%elem_of_cons.
  - subst v. right. simpl. multiset_solver.
  - destruct (IH Hin); [left; set_solver|right; multiset_solver].
  - subst v. left. set_solver.
  - destruct (IH Hin); [left; set_solver|right; multiset_solver].
Qed.

Lemma owns_argument_values L P l :
  not_null l -> (forall o, Some o ∈ map call_arg_value l -> o ∈ lent \/ o ∈ L \/ o ∈ P) ->
  owns L P (argument_values l) (fun _ => P).
Proof.
  induction l as [|a l IH]; intros Hn Ha; simpl; [by apply owns_ret|].
  apply Forall_cons in Hn as [Hv Hn]. destruct (call_arg_value a) as [v|] eqn:Hav; [|done].
  eapply owns_bind.
  { apply owns_use. apply Ha. simpl. rewrite Hav. set_solver. }
  intros _v. eapply owns_bind; [apply IH; [done|]|intros vs; by apply owns_ret].
  intros o Ho. apply Ha. simpl. set_solver.
Qed.

Lemma owns_no_callable L : owns L ∅ no_callable orefs.
Proof.
  eapply owns_bind; [apply owns_ledger_pure, set_string_pure|intros []]. by apply owns_ret.
Qed.

Lemma throw_python_error_never {A} m (s : py_state W C) (a : A) s' : throw_python_error py m s ≠ (Ok a, s').
Proof. unfold throw_python_error, mbind, eff_bind. by destruct (new_python_error py m s) as [[] ?]. Qed.

Lemma owns_call_vector L callable args :
  (forall c, callable = Some c -> (c ∈ lent \/ c ∈ L) /\ not_null args) ->
  owns L (arg_refs args) (call_vector callable args) orefs.
Proof.
  intros Hc. rewrite arg_refs_split. apply owns_with_params. destruct callable as [c|].
  - destruct (Hc c eq_refl) as [Hlive Hn]. eapply owns_bind.
    { apply owns_argument_values; [done|]. intros o [Ho|Ho]%arg_alive; set_solver. }
    intros argv. eapply owns_bind; [apply owns_use; set_solver|intros _c].
    eapply owns_bind; [apply owns_api_new|intros [r|]].
    + eapply (owns_bind _ _ _ _ _ (fun _ => {[+ r +]})); [|intros []; by apply owns_ret].
      eapply owns_mono; [apply owns_decref_args|]. simpl. multiset_solver.
    + eapply (owns_mono _ _ (raw_refs args)); [|simpl; multiset_solver].
      apply owns_cleaning; [intros P'; apply owns_decref_args|apply owns_throw_python_error|].
      intros s a s'. apply throw_python_error_never.
  - eapply (owns_bind _ _ _ _ _ (fun _ => ∅)); [|intros []; apply owns_no_callable].
    eapply owns_mono; [apply owns_decref_args|]. multiset_solver.
Qed.

Lemma owns_fill_tuple L P t i l : owns L (P ⊎ arg_refs l) (fill_tuple t i l) (fun _ => P).
Proof.
  revert i. induction l as [|a l IH]; intros i; simpl; [apply owns_ret; multiset_solver|].
  eapply (owns_bind _ _ _ _ _ (fun _ => P ⊎ arg_refs l)).
  { eapply owns_mono; [apply owns_steal|multiset_solver]. }
  intros []. eapply owns_bind; [apply owns_ledger_pure; by intros s|intros []; apply IH].
Qed.

Lemma owns_call_tuple L callable args :
  (forall c, callable = Some c -> c ∈ lent \/ c ∈ L) ->
  owns L (arg_refs args) (call_tuple callable args) orefs.
Proof.
  intros Hc. destruct callable as [c|]; simpl.
  - eapply owns_bind; [apply owns_api_new|intros [t|]].
    + apply owns_with_ref. eapply (owns_bind _ _ _ _ _ (fun _ => ∅)).
      { eapply owns_mono; [apply owns_fill_tuple|multiset_solver]. }
      intros []. eapply owns_bind; [apply owns_use; specialize (Hc c eq_refl); set_solver|intros _c].
      eapply owns_bind; [apply owns_api_new|intros [r|]].
      * apply owns_ret. simpl. multiset_solver.
      * eapply owns_mono; [apply owns_throw_python_error|]. simpl. multiset_solver.
    + simpl. rewrite arg_refs_split. eapply owns_mono; [apply owns_with_params|].
      2: { instantiate (1 := raw_refs args). multiset_solver. }
      eapply (owns_bind _ _ _ _ _ (fun _ => ∅)); [|intros []; by apply owns_ret].
      eapply owns_mono; [apply owns_decref_args|]. multiset_solver.
  - rewrite arg_refs_split. apply owns_with_params.
    eapply (owns_bind _ _ _ _ _ (fun _ => ∅)); [|intros []; apply owns_no_callable].
    eapply owns_mono; [apply owns_decref_args|]. multiset_solver.
Qed.

Lemma owns_call L callable args :
  (forall c, callable = Some c -> (c ∈ lent \/ c ∈ L) /\ not_null args) ->
  owns L (arg_refs args) (call callable args) orefs.
Proof.
  intros Hc. unfold call. destruct has_vectorcall; [by apply owns_call_vector|].
  apply owns_call_tuple. intros c Heq. by apply Hc.
Qed.

(** A conversion of a result keeps nothing of it. *)
Definition conversion {R} (from_cast : obj -> M R) : Prop :=
  forall L r, r ∈ L -> owns L ∅ (from_cast r) (fun _ => ∅).

Lemma owns_invoke {R} (from_cast : obj -> M R) message L callable args :
  conversion from_cast -> (forall c, callable = Some c -> (c ∈ lent \/ c ∈ L) /\ not_null args) ->
  owns L (arg_refs args) (invoke_impl from_cast message callable args) (fun _ => ∅).
Proof.
  intros Hf Hc. eapply owns_bind; [by apply owns_call|intros [r|]]; cbn [orefs].
  - eapply owns_mono; [apply owns_with_ref, Hf|simpl; multiset_solver]. set_solver.
  - eapply owns_mono; [apply owns_with_ref, owns_throw_python_error|simpl; multiset_solver].
Qed.

(** ** What a call yields, whatever the finalizers do *)

Definition yields {A} (m : M A) (s : py_state W C) (o : outcome A) : Prop :=
  (m s).1 = o \/ (m s).1 = Undefined.
Definition calm {A} (m : M A) : Prop :=
  forall s, match (m s).1 with Ok _ | Undefined => True | _ => False end.

Lemma calm_bind {A B} (m : M A) (f : A -> M B) : calm m -> (forall a, calm (f a)) -> calm (m ≫= f).
Proof.
  intros Hm Hf s. specialize (Hm s). unfold mbind, eff_bind. destruct (m s) as [[a| | |] s']; try done. apply Hf.
Qed.
Lemma calm_xdecref o : calm (Py_XDECREF py o).
Proof.
  destruct o as [o|]; simpl; [|by intros s]. apply calm_bind.
  - intros s. unfold give_away. by destruct (decide _).
  - intros [] s. unfold run_finalizer. by destruct (finalize py o (world s) (pending s)).
Qed.
Lemma calm_decref_args l : calm (decref_args l).
Proof.
  induction l as [|[v|v] l IH]; simpl; [by intros s| |]; (apply calm_bind; [|intros []; exact IH]);
    [apply calm_xdecref|by intros s].
Qed.

Lemma yields_bind {A B} (m : M A) (f : A -> M B) s o :
  calm m -> (forall a s1, m s = (Ok a, s1) -> yields (f a) s1 o) -> yields (m ≫= f) s o.
Proof.
  intros Hm Hf. specialize (Hm s). unfold yields, mbind, eff_bind in *.
  destruct (m s) as [[a| | |] s1] eqn:Ha; try done; [by apply Hf|by right].
Qed.
Lemma yields_run {A B} (m : M A) (f : A -> M B) s a s1 o :
  m s = (Ok a, s1) -> yields (f a) s1 o -> yields (m ≫= f) s o.
Proof. intros Hm. unfold yields. by rewrite (eff_bind_run _ _ _ _ _ Hm). Qed.
Lemma yields_undefined {A B} (m : M A) (f : A -> M B) s o : (m s).1 = Undefined -> yields (m ≫= f) s o.
Proof. intros Hm. right. unfold mbind, eff_bind. by destruct (m s) as [[] ?]. Qed.
Lemma yields_use {B} v (f : obj -> M B) s o : yields (f v) s o -> yields (use lent (Some v) ≫= f) s o.
Proof.
  intros Hf. unfold yields, mbind, eff_bind, use. destruct (decide _); [done|by right].
Qed.
Lemma yields_throw {A B} (m : M A) (f : A -> M B) s e : yields m s (Throw e) -> yields (m ≫= f) s (Throw e).
Proof.
  unfold yields, mbind, eff_bind. destruct (m s) as [[a| | |] s1]; intros [|]; simplify_eq/=; auto.
Qed.
Lemma yields_with_ref {A} r (body : M A) s o : yields body s o -> yields (with_ref py r body) s o.
Proof.
  unfold yields, with_ref. intros Ho. destruct (body s) as [[a|e| |] s'] eqn:Hb; simpl in *; [| |by auto..].
  - destruct Ho as [<-|]; [|done]. apply yields_bind; [apply calm_xdecref|]. intros [] s1 _. by left.
  - destruct Ho as [<-|]; [|done]. apply yields_bind; [apply calm_xdecref|]. intros [] s1 _. by left.
Qed.
Lemma yields_with_params {A} l (body : M A) s o : yields body s o -> yields (with_params l body) s o.
Proof. intros Hb. induction l as [|a l IH]; [done|]. simpl. by apply yields_with_ref. Qed.
Lemma yields_cleaning {A} l (body : M A) s e :
  yields body s (Throw e) -> yields (cleaning (decref_args l) body) s (Throw e).
Proof.
  unfold yields, cleaning. intros Ho. destruct (body s) as [[a|e'| |] s'] eqn:Hb; simpl in *; try by auto.
  destruct Ho as [[= <-]|]; [|done]. apply yields_bind; [apply calm_decref_args|]. intros [] s1 _. by left.
Qed.

Lemma argument_values_run l s :
  argument_values l s = (Ok (omap call_arg_value l), s) \/ (argument_values l s).1 = Undefined.
Proof.
  induction l as [|a l IH]; [by left|]. cbn [argument_values omap list_omap].
  destruct (call_arg_value a) as [v|] eqn:Hv; [|by right].
  unfold mbind, eff_bind, use. destruct (decide _); [|by right]. simpl.
  destruct (argument_values l s) as [o s1]. simpl in IH. destruct IH as [[= -> ->]| ->]; [by left|by right].
Qed.

(** Python answers the call of [c] from the world [w]. *)
Fixpoint filled (t : obj) (i : nat) (l : list call_arg) (w : W) : W :=
  match l with [] => w | a :: l => filled t (S i) l (PyTuple_SET_ITEM py t i (call_arg_value a) w) end.
Definition answers (c : obj) (args : list call_arg) (w : W) (r : reply obj) : Prop :=
  if has_vectorcall then (PyObject_Vectorcall py c (omap call_arg_value args) w).2 = r
  else exists t w', PyTuple_New py (length args) w = (w', Returned t) /\
       (PyObject_CallObject py c t (filled t 0 args w')).2 = r.

Lemma fill_tuple_world t i l s :
  match fill_tuple t i l s with
  | (Ok _, s') => world s' = filled t i l (world s)
  | (Undefined, _) => True
  | _ => False
  end.
Proof.
  revert i s. induction l as [|a l IH]; intros i s; [done|]. cbn [fill_tuple filled].
  unfold mbind, eff_bind. destruct (call_arg_value a) as [v|] eqn:Hv; simpl.
  - unfold give_away. destruct (decide _); [|done]. simpl.
    match goal with |- context [fill_tuple t (S i) l ?x] => exact (IH (S i) x) end.
  - match goal with |- context [fill_tuple t (S i) l ?x] => exact (IH (S i) x) end.
Qed.

Lemma throws_python_error {A} e (s : py_state W C) m :
  pending s = Some e ->
  (@throw_python_error W C py A m s).1 = Throw (python_error (lit m) (err_type e) (err_value e) (err_traceback e)).
Proof.
  destruct s as [h p w x]. simpl. intros ->. reflexivity.
Qed.

Lemma api_new_replies (f : W -> W * reply obj) (s : py_state W C) :
  match (f (world s)).2 with
  | Returned r => exists s', api_new f s = (Ok (Some r), s')
  | Raised e => exists s', api_new f s = (Ok None, s') /\ pending s' = Some e
  end.
Proof.
  unfold PythonRefs.api_new, api_status, mbind, eff_bind.
  destruct (f (world s)) as [w [a|e]]; simpl; [by eexists|]. by eexists.
Qed.

Abbreviation raised e := (Throw (python_error (lit "Python callable returned null") (err_type e) (err_value e) (err_traceback e))).

Definition call_outcome (r : reply obj) : outcome (option obj) :=
  match r with Returned r => Ok (Some r) | Raised e => raised e end.

(** The end of [call_vector] and of [call_tuple]: the call, then what it returned. *)
Lemma reply_yields (f : W -> W * reply obj) (k : option obj -> M (option obj)) s r :
  (f (world s)).2 = r ->
  (forall r' s', r = Returned r' -> yields (k (Some r')) s' (Ok (Some r'))) ->
  (forall e s', r = Raised e -> pending s' = Some e -> yields (k None) s' (raised e)) ->
  yields (api_new f ≫= k) s (call_outcome r).
Proof.
  intros Hr Hok Herr. pose proof (api_new_replies f s) as Hapi. rewrite Hr in Hapi. destruct r as [r|e].
  - destruct Hapi as [s' Hs']. eapply yields_run; [exact Hs'|]. by apply Hok.
  - destruct Hapi as (s' & Hs' & He). eapply yields_run; [exact Hs'|]. by apply Herr.
Qed.

Lemma call_vector_yields c args s r :
  (PyObject_Vectorcall py c (omap call_arg_value args) (world s)).2 = r ->
  yields (call_vector (Some c) args) s (call_outcome r).
Proof.
  intros Hr. apply yields_with_params.
  destruct (argument_values_run args s) as [Ha|Ha]; [|by apply yields_undefined].
  eapply yields_run; [exact Ha|]. apply yields_use. apply reply_yields; [done| |].
  - intros r' s' _. apply yields_bind; [apply calm_decref_args|]. intros [] s1 _. by left.
  - intros e s' _ He. apply yields_cleaning. left. by apply throws_python_error.
Qed.

Lemma call_tuple_yields c args s t w' r :
  PyTuple_New py (length args) (world s) = (w', Returned t) ->
  (PyObject_CallObject py c t (filled t 0 args w')).2 = r ->
  yields (call_tuple (Some c) args) s (call_outcome r).
Proof.
  intros Ht Hr.
  assert (exists s1, api_new (PyTuple_New py (length args)) s = (Ok (Some t), s1) /\ world s1 = w') as (s1 & Hs1 & Hw).
  { unfold PythonRefs.api_new, api_status, mbind, eff_bind. rewrite Ht. by eexists. }
  eapply yields_run; [exact Hs1|]. apply yields_with_ref.
  pose proof (fill_tuple_world t 0 args s1) as Hf. rewrite Hw in Hf.
  destruct (fill_tuple t 0 args s1) as [[[]| | |] s2] eqn:Hfill; try done.
  - eapply yields_run; [exact Hfill|]. apply yields_use. apply reply_yields; [by rewrite Hf| |].
    + intros r' s' _. by left.
    + intros e s' _ He. left. by apply throws_python_error.
  - apply yields_undefined. by rewrite Hfill.
Qed.

Lemma call_yields c args s r :
  answers c args (world s) r -> yields (call (Some c) args) s (call_outcome r).
Proof.
  unfold answers, call. destruct has_vectorcall; [apply call_vector_yields|].
  intros (t & w' & Ht & Hr). by eapply call_tuple_yields.
Qed.

Lemma invoke_yields {R} (from_cast : obj -> M R) message c args s r :
  answers c args (world s) r ->
  match r with
  | Returned r => exists s1, yields (invoke_impl from_cast message (Some c) args) s (from_cast r s1).1
  | Raised e => yields (invoke_impl from_cast message (Some c) args) s (raised e)
  end.
Proof.
  intros Hr. apply call_yields in Hr. destruct r as [r|e]; simpl in Hr.
  - unfold yields in Hr. destruct (call (Some c) args s) as [o s1] eqn:Hcall. simpl in Hr. exists s1.
    destruct Hr as [->|Hu]; [|apply yields_undefined; by rewrite Hcall].
    eapply yields_run; [exact Hcall|]. apply yields_with_ref. by left.
  - by apply yields_throw.
Qed.

(** C19: A call of an imported Python function or member, with a result or without, and a
    construction of an imported object consume each converted argument exactly once, and
    own nothing afterwards but the exception they throw or the object they made, on every
    path: no callable, no memory for the tuple, an exception of the callee, a result that
    does not convert. *)
Theorem python_calls_balanced {R} (from_cast : obj -> M R) message callable args :
  conversion from_cast ->
  (forall c, callable = Some c -> c ∈ lent /\ not_null args) ->
  owns ∅ (arg_refs args) (invoke_impl from_cast message callable args) (fun _ => ∅) /\
  owns ∅ (arg_refs args) (invoke_void_impl message callable args) (fun _ => ∅) /\
  owns ∅ (arg_refs args) (construct_import_object_impl None callable args) orefs.
Proof.
  intros Hf Hc.
  assert (forall c, callable = Some c -> (c ∈ lent \/ c ∈ (∅ : gset obj)) /\ not_null args) as Hc'.
  { intros c Heq. destruct (Hc c Heq). auto. }
  split; [by apply owns_invoke|split].
  - apply (owns_invoke (fun _ => mret tt)); [|done]. intros L r _. by apply owns_ret.
  - eapply owns_bind; [by apply owns_call|intros v].
    eapply (owns_bind _ _ _ _ _ orefs).
    { unfold reset. simpl. eapply owns_bind; [by apply (owns_ret _ _ _ _ (fun _ => orefs v))|intros []].
      intros s F _ Hs. destruct v; exact Hs. }
    intros [r|]; [by apply owns_ret|]. apply owns_throw_python_error.
Qed.

(** C26: An imported call gives what Python answers: the conversion of the object that was
    returned, or a [python_error] with exactly the exception that was raised, although the
    arguments are released afterwards and finalizers may do anything to the error
    indicator. *)
Theorem python_call_answers {R} (from_cast : obj -> M R) message c args s F r :
  conversion from_cast -> c ∈ lent -> not_null args ->
  held s = F ⊎ arg_refs args -> answers c args (world s) r ->
  match r with
  | Returned r => exists s1, (invoke_impl from_cast message (Some c) args s).1 = (from_cast r s1).1
  | Raised e =>
      (invoke_impl from_cast message (Some c) args s).1 =
      Throw (python_error (lit "Python callable returned null") (err_type e) (err_value e) (err_traceback e))
  end.
Proof.
  intros Hf Hc Hn Hs Hr.
  assert ((invoke_impl from_cast message (Some c) args s).1 ≠ Undefined) as Hsafe.
  { pose proof (owns_invoke from_cast message ∅ (Some c) args Hf ltac:(intros ? [= <-]; auto) s F) as Ho.
    specialize (Ho ltac:(intros ? ?; set_solver) Hs). by destruct (invoke_impl _ _ _ _ s) as [[] ?]. }
  pose proof (invoke_yields from_cast message c args s r Hr) as Hy. destruct r as [r|e].
  - destruct Hy as [s1 [Hy|Hy]]; [by exists s1|done].
  - by destruct Hy as [Hy|Hy].
Qed.

Lemma owns_import_attr L m name :
  m ∈ lent \/ m ∈ L -> owns L ∅ (import_attr (Some m) name) orefs.
Proof.
  intros Hm. unfold import_attr. eapply owns_bind; [apply owns_use; tauto|intros _m].
  eapply owns_bind; [apply owns_api_new|intros [r|]]; [apply owns_ret; simpl; multiset_solver|].
  eapply owns_mono; [by apply owns_throw_plain|simpl; multiset_solver].
Qed.

(** Imports own what they hand out and nothing else: a context owns one reference to
    its callable, also when the module was only imported to look it up; a dynamic value that
    is no callable gives no context; an object keeps its reference when it is passed on. *)
Theorem python_imports_balanced m name module_name value :
  m ∈ lent -> Py_None py ∈ lent -> (forall v, value = Some v -> v ∈ lent) ->
  owns ∅ ∅ (import_impl (Some m) name) orefs /\
  owns ∅ ∅ (import_impl_by_name module_name name) orefs /\
  owns ∅ ∅ (try_import_callable_impl value) (fun r => orefs (default None r)) /\
  owns ∅ ∅ (to_dynamic_object_impl value) orefs /\
  owns ∅ ∅ undefined_value orefs.
Proof.
  intros Hm Hnone Hv. split_and!.
  - eapply owns_bind; [apply owns_import_attr; auto|intros r]. intros s F _ Hs. destruct r; exact Hs.
  - eapply owns_bind; [apply owns_api_new|intros [md|]].
    + apply owns_with_ref. eapply owns_bind; [apply owns_import_attr; right; set_solver|intros r].
      intros s F _ Hs. destruct r; exact Hs.
    + eapply owns_mono; [apply owns_with_ref, owns_throw_plain; done|simpl; multiset_solver].
  - unfold try_import_callable_impl. destruct value as [v|]; [|by apply owns_ret].
    eapply owns_bind; [apply owns_use; left; by apply Hv|intros _v].
    eapply owns_bind; [apply owns_ledger_pure, asks_pure|intros [|]]; [|by apply owns_ret].
    eapply owns_bind; [apply owns_object_ref_borrowed; intros x [= <-]; left; by apply Hv|intros r].
    apply owns_ret. simpl. multiset_solver.
  - eapply owns_bind; [apply owns_xincref; intros x Hx; left; by apply Hv|intros []].
    apply owns_ret. multiset_solver.
  - eapply owns_bind; [apply owns_incref; by left|intros []]. apply owns_ret. simpl. multiset_solver.
Qed.
End Calls.

(** ** Calls of the sample interpreter *)

Module CallSample.
(** Finalizers lose the error indicator here. *)
Definition interp := SampleInterpreter.interp true true.
Abbreviation lent := SampleInterpreter.lent.
Definition args : list call_arg := [Ref (Some 50%nat); Raw (Some 51%nat); Ref (Some 50%nat)].
Definition start : py_state nat unit := SampleInterpreter.owning tt [50%nat; 50%nat; 51%nat].
Definition from_cast (r : obj) : eff (py_state nat unit) obj := mret r.
Lemma keeps : conversion lent from_cast.
Proof. intros L r _. by apply owns_ret. Qed.
Lemma some_args : not_null args.
Proof. repeat constructor; done. Qed.
Lemma odd_lent : 3%nat ∈ lent.
Proof. unfold SampleInterpreter.lent. set_solver. Qed.
End CallSample.

Lemma python_calls_balanced_witness :
  owns CallSample.lent ∅ (arg_refs CallSample.args)
    (invoke_impl CallSample.interp CallSample.lent false CallSample.from_cast "null" (Some 3%nat) CallSample.args)
    (fun _ => ∅).
Proof.
  apply (python_calls_balanced CallSample.interp CallSample.lent false CallSample.from_cast "null" (Some 3%nat)
    CallSample.args CallSample.keeps).
  intros c [= <-]. split; [apply CallSample.odd_lent|apply CallSample.some_args].
Defined.

Lemma python_call_answers_witness :
  (invoke_impl CallSample.interp CallSample.lent false CallSample.from_cast "null" (Some 3%nat) CallSample.args
     CallSample.start).1 =
  Throw (python_error (lit "Python callable returned null") (Some SampleInterpreter.type_error) (Some 2001%nat) None).
Proof.
  apply (python_call_answers CallSample.interp CallSample.lent false CallSample.from_cast "null" 3 CallSample.args
    CallSample.start ∅ (Raised (mk_err (Some SampleInterpreter.type_error) (Some 2001%nat) None))
    CallSample.keeps CallSample.odd_lent CallSample.some_args).
  - vm_compute. reflexivity.
  - eexists _, _. split; vm_compute; reflexivity.
Defined.

Lemma python_imports_balanced_witness :
  owns CallSample.lent ∅ ∅ (import_impl_by_name (C := unit) CallSample.interp CallSample.lent "m" "f") orefs.
Proof.
  apply (python_imports_balanced CallSample.interp CallSample.lent 3 "f" "m" None).
  - apply CallSample.odd_lent.
  - unfold SampleInterpreter.lent. cbn. set_solver.
  - done.
Defined.
