(* ===== verification/PythonObjects.v ===== *)
(** * backends/python.h: exported callables, classes and instances

    What an exporting module keeps on the C++ side: the holders behind callable objects, the
    natives inside instances, and the arrays that vector calls read. Callbacks, constructors
    and deallocators are entered by the interpreter; the conversions and functions of the
    user are parameters. *)

From Stdlib Require Import ZArith Lia.
From stdpp Require Import base list gmap gmultiset.
From S2P Require Import Prelude PythonRefs.

(** [callable_holder]: a function of one signature, an overload, a constructor of a class. *)
Inductive holder :=
| typed_callable_holder (arity : nat) (binder : nat)
| overload_callable_holder (binder : nat)
| class_constructor_holder (class arity : nat).

(** [export_instance_object]; [destroy] is null or [destroy_export_instance] of a class. *)
Record export_instance := mk_instance { native : bool; ctx : bool; destroy : option nat }.
Definition new_instance : export_instance := mk_instance false false None.

(** [natives] are the objects constructed inside the storage of an instance, with their
    class; [memory] holds the arrays of [PyObject*], a cell per address. *)
Record py_heap := mk_heap {
  ready : bool;
  holders : gmap nat holder;
  callables : gmap obj nat;
  instances : gmap obj export_instance;
  natives : gmap obj nat;
  memory : gmap Z (option obj)
}.

Definition used (x : py_heap) : gset obj := dom (callables x) ∪ dom (instances x).

Definition set_ready b x := mk_heap b (holders x) (callables x) (instances x) (natives x) (memory x).
Definition set_holders f x := mk_heap (ready x) (f (holders x)) (callables x) (instances x) (natives x) (memory x).
Definition set_callables f x := mk_heap (ready x) (holders x) (f (callables x)) (instances x) (natives x) (memory x).
Definition set_instances f x := mk_heap (ready x) (holders x) (callables x) (f (instances x)) (natives x) (memory x).
Definition set_natives f x := mk_heap (ready x) (holders x) (callables x) (instances x) (f (natives x)) (memory x).
Definition set_memory f x := mk_heap (ready x) (holders x) (callables x) (instances x) (natives x) (f (memory x)).

(** [static_cast<size_t>] on 64 bits, and the flag of the vectorcall protocol. *)
Definition arguments_offset_flag : Z := 2 ^ 63.
Definition PyVectorcall_NARGS (nargsf : Z) : Z := Z.land nargsf (2 ^ 63 - 1).
Definition has_offset (nargsf : Z) : bool := negb (Z.land nargsf arguments_offset_flag =? 0).
Definition pointer_size : Z := 8.

Section Objects.
Context {W N : Type} (py : interpreter W) (lent : gset obj).
Abbreviation M := (eff (py_state W py_heap)).
(** The registry of the context, and the code of the user: argument conversions and
    constructors of the native classes, calls of binders. *)
Context (export_class : nat -> option obj).
Context (convert : nat -> list obj -> M (list N)) (construct_native : nat -> list N -> M unit).
Context (binder_call : nat -> list obj -> M (option obj)) (is_void : nat -> bool).
Context (dispatch_optional : nat -> list obj -> M (option (option obj))).
(** The addresses of [local_args] and of the block that [PyMem_Malloc] returns. *)
Context (local_args malloc_block : Z).

Definition on_heap (f : py_heap -> py_heap) : M unit := fun s =>
  (Ok tt, mk_py (held s) (pending s) (world s) (f (heap s))).

(** ** Callable objects *)

Definition new_holder (h : holder) : M nat := fun s =>
  let p := fresh (dom (holders (heap s))) in
  (Ok p, mk_py (held s) (pending s) (world s) (set_holders (insert p h) (heap s))).
(** [holder->destroy()], through [manage_entry]. *)
Definition destroy_holder (p : nat) : M unit :=
  h ← gets (fun s => holders (heap s) !! p);
  match h with
  | None => undefined_behaviour
  | Some _ => on_heap (set_holders (delete p))
  end.

(** [callable_type]: the static type object, made ready once. *)
Definition callable_type : M bool :=
  is_ready ← gets (fun s => ready (heap s));
  if is_ready : bool then mret true
  else r ← api_status (PyType_Ready py);
       match r with
       | None => mret false
       | Some _ => on_heap (set_ready true) ;; mret true
       end.

Definition make_callable_object (p : nat) : M (option obj) :=
  type ← callable_type;
  if negb type then destroy_holder p ;; mret None
  else
    u ← gets (fun s => used (heap s));
    object ← api_new (PyObject_New py u);
    match object with
    | None => destroy_holder p ;; mret None
    | Some o => on_heap (set_callables (insert o p)) ;; mret (Some o)
    end.

Definition make_callable (h : holder) : M (option obj) := p ← new_holder h; make_callable_object p.
Definition make_constructor (class arity : nat) : M (option obj) :=
  make_callable (class_constructor_holder class arity).

Definition make_export_callable_impl (h : holder) : M (option obj) := make_callable h.

Definition callable_dealloc (self : obj) : M unit :=
  p ← gets (fun s => callables (heap s) !! self);
  match p with
  | None => undefined_behaviour
  | Some p => destroy_holder p ;; on_heap (set_callables (delete self))
  end.

Definition callable_descr_get (self : obj) (object : option obj) : M (option obj) :=
  match object with
  | Some o => if decide (o = Py_None py) then Py_INCREF lent (Some self) ;; mret (Some self)
              else api_new (PyMethod_New py self o)
  | None => Py_INCREF lent (Some self) ;; mret (Some self)
  end.

(** ** The exceptions of a callback *)

(** The handlers behind [python_error], [bad_conversion], [std::exception] and [...]; the
    exception is destroyed when they are left. *)
Definition handle (fallback : string) (e : exn) : M unit :=
  match e with
  | python_error _ _ _ _ => restore lent e
  | bad_conversion m => PyErr_SetString py (PyExc_TypeError py) m
  | foreign_exception => PyErr_SetString py (PyExc_RuntimeError py) (lit fallback)
  | protocol_error m | remote_error m | runtime_error m | length_error m | std_exception m =>
      PyErr_SetString py (PyExc_RuntimeError py) m
  end ;;
  destroy_exception py e.

Definition catching (fallback : string) (body : M (option obj)) : M (option obj) := fun s =>
  match body s with
  | (Throw e, s') => (handle fallback e ;; mret None) s'
  | r => r
  end.

Definition type_error (message : string) : M (option obj) :=
  PyErr_SetString py (PyExc_TypeError py) (lit message) ;; mret None.
Definition return_none : M (option obj) :=
  Py_INCREF lent (Some (Py_None py)) ;; mret (Some (Py_None py)).

(** ** Calls of a function of one signature *)

(** [call_indices], [call_vector_indices]. *)
Definition call_indices (binder : nat) (args : list obj) : M (option obj) :=
  if is_void binder then binder_call binder args ;; return_none else binder_call binder args.

Definition call_signature (arity binder : nat) (args : obj) : M (option obj) :=
  items ← asks (PyTuple_items py args);
  match items with
  | Some l => if (length l =? arity)%nat then catching "dynabridge Python callback failed" (call_indices binder l)
              else type_error "dynabridge Python callback received wrong arity"
  | None => type_error "dynabridge Python callback received wrong arity"
  end.

(** Reading [args[0], ..., args[n - 1]]. *)
Definition read_cell (a : Z) : M obj :=
  c ← gets (fun s => memory (heap s) !! a);
  match c with Some (Some o) => mret o | _ => undefined_behaviour end.
Fixpoint read_cells (a : Z) (n : nat) : M (list obj) :=
  match n with
  | O => mret []
  | S n => o ← read_cell a; l ← read_cells (a + 1) n; mret (o :: l)
  end.

(** [kwnames != nullptr && PyTuple_GET_SIZE(kwnames) != 0]. *)
Definition has_keywords (kwnames : option nat) : bool := match kwnames with Some (S _) => true | _ => false end.

Definition call_vector_signature (arity binder : nat) (args nargsf : Z) (kwnames : option nat) : M (option obj) :=
  if has_keywords kwnames then type_error "dynabridge Python callback does not accept keyword arguments"
  else if PyVectorcall_NARGS nargsf =? Z.of_nat arity then
    catching "dynabridge Python callback failed" (l ← read_cells args arity; call_indices binder l)
  else type_error "dynabridge Python callback received wrong arity".

(** ** Calls of an overload *)

Definition unwrap_result (result : option (option obj)) : M (option obj) :=
  match result with
  | None => type_error "dynabridge Python overload has no matching signature"
  | Some r => mret r
  end.

Definition overload_call_tuple (binder : nat) (args : obj) : M (option obj) :=
  items ← asks (PyTuple_items py args);
  match items with
  | None => type_error "dynabridge Python callback expected tuple arguments"
  | Some l =>
      catching "dynabridge Python overload callback failed"
        (result ← dispatch_optional binder l; unwrap_result result)
  end.

Definition overload_call_vector (binder : nat) (args nargsf : Z) (kwnames : option nat) : M (option obj) :=
  if has_keywords kwnames then type_error "dynabridge Python callback does not accept keyword arguments"
  else
    catching "dynabridge Python overload callback failed"
      (l ← read_cells args (Z.to_nat (PyVectorcall_NARGS nargsf));
       result ← dispatch_optional binder l; unwrap_result result).

(** ** Instances *)

(** [construct_export_object_impl] on a new [object_t], which it makes refer to [self]. The
    native lives inside the instance; a second one there has no meaning. *)
Definition place_native (self class : nat) : M unit :=
  n ← gets (fun s => natives (heap s) !! self);
  match n with
  | Some _ => undefined_behaviour
  | None => on_heap (set_natives (insert self class))
  end.

Definition instance_at (self : obj) : M export_instance :=
  i ← gets (fun s => instances (heap s) !! self);
  match i with Some i => mret i | None => undefined_behaviour end.

Definition construct_export_object_impl (class : nat) (self : obj) (args : list N) : M (option obj) :=
  instance ← instance_at self;
  match destroy instance with
  | Some _ => throw (runtime_error (lit "dynabridge Python export object is already initialized"))
  | None =>
      construct_native class args ;;
      place_native self class ;;
      on_heap (set_instances (insert self (mk_instance true true (Some class)))) ;;
      reset py lent None (Some self) borrowed
  end.

(** [native_from]: the null of an object that was not initialised. *)
Definition native_from (object : option obj) : M (option obj) :=
  match object with
  | None => mret None
  | Some o => instance ← instance_at o; mret (if native instance then Some o else None)
  end.

(** [borrowed_export_object_t::native]. *)
Definition borrowed_native (object : option obj) : M (option obj) := native_from object.

(** [destroy_export_instance] and [export_instance_dealloc]; the reference of the instance
    to its type comes with it. *)
Definition destroy_export_instance (self : obj) : M unit :=
  on_heap (set_instances (insert self new_instance)) ;;
  n ← gets (fun s => natives (heap s) !! self);
  match n with
  | None => undefined_behaviour
  | Some _ => on_heap (set_natives (delete self))
  end.

Definition export_instance_dealloc (type self : obj) : M unit :=
  instance ← instance_at self;
  match destroy instance with Some _ => destroy_export_instance self | None => mret tt end ;;
  on_heap (set_instances (delete self)) ;;
  Py_DECREF py (Some type).

(** ** Constructors *)

Definition export_target (class : nat) : M obj :=
  match export_class class with
  | Some target => mret target
  | None => throw (runtime_error (lit "dynabridge export class is not registered in this context"))
  end.

(** [construct]: the temporary [object_t] of [export_constructor_invoker] gives up its
    reference at once. *)
Definition construct (class : nat) (self : obj) (args : list obj) : M (option obj) :=
  catching "dynabridge Python constructor failed" (
    target ← export_target class;
    compatible ← asks (PyObject_TypeCheck py self target);
    if negb compatible then type_error "dynabridge Python constructor received incompatible self"
    else
      converted ← convert class args;
      object ← construct_export_object_impl class self converted;
      Py_XDECREF py object ;;
      return_none).

Definition construct_items (class : nat) (l : list obj) : M (option obj) :=
  match l with
  | self :: args => construct class self args
  | [] => undefined_behaviour
  end.

Definition construct_tuple (class arity : nat) (args : obj) : M (option obj) :=
  items ← asks (PyTuple_items py args);
  match items with
  | Some l => if (length l =? S arity)%nat then construct_items class l
              else type_error "dynabridge Python constructor received wrong arity"
  | None => type_error "dynabridge Python constructor received wrong arity"
  end.

Definition construct_vector (class arity : nat) (args nargsf : Z) (kwnames : option nat) : M (option obj) :=
  if has_keywords kwnames then type_error "dynabridge Python constructor does not accept keyword arguments"
  else if PyVectorcall_NARGS nargsf =? Z.of_nat (S arity) then
    l ← read_cells args (S arity); construct_items class l
  else type_error "dynabridge Python constructor received wrong arity".

(** ** The entries of the interpreter *)

Definition invoke_tuple (h : holder) (args : obj) : M (option obj) :=
  match h with
  | typed_callable_holder arity binder => call_signature arity binder args
  | overload_callable_holder binder => overload_call_tuple binder args
  | class_constructor_holder class arity => construct_tuple class arity args
  end.
Definition invoke_vector (h : holder) (args nargsf : Z) (kwnames : option nat) : M (option obj) :=
  match h with
  | typed_callable_holder arity binder => call_vector_signature arity binder args nargsf kwnames
  | overload_callable_holder binder => overload_call_vector binder args nargsf kwnames
  | class_constructor_holder class arity => construct_vector class arity args nargsf kwnames
  end.

Definition holder_of (self : obj) : M holder :=
  h ← gets (fun s => callables (heap s) !! self ≫= fun p => holders (heap s) !! p);
  match h with Some h => mret h | None => undefined_behaviour end.

Definition callable_call (self args : obj) (kwargs : option obj) : M (option obj) :=
  n ← match kwargs with Some d => asks (PyDict_Size py d) | None => mret 0 end;
  if negb (n =? 0) then type_error "dynabridge Python callback does not accept keyword arguments"
  else h ← holder_of self; invoke_tuple h args.
Definition callable_vectorcall (self : obj) (args nargsf : Z) (kwnames : option nat) : M (option obj) :=
  h ← holder_of self; invoke_vector h args nargsf kwnames.

(** ** Vector calls of a class *)

Fixpoint block (a : Z) (n : nat) : gmap Z (option obj) :=
  match n with O => ∅ | S n => <[a := None]> (block (a + 1) n) end.
Definition allocate (a : Z) (n : nat) : M unit := on_heap (set_memory (fun m => block a n ∪ m)).
Definition deallocate (a : Z) (n : nat) : M unit := on_heap (set_memory (fun m => m ∖ block a n)).

Definition load_cell (a : Z) : M (option obj) :=
  c ← gets (fun s => memory (heap s) !! a);
  match c with Some v => mret v | None => undefined_behaviour end.
Definition write_cell (a : Z) (v : option obj) : M unit :=
  c ← gets (fun s => memory (heap s) !! a);
  match c with Some _ => on_heap (set_memory (insert a v)) | None => undefined_behaviour end.
(** [for (i < n) to[i] = from[i]]. *)
Fixpoint copy_cells (from to : Z) (n : nat) : M unit :=
  match n with
  | O => mret tt
  | S n => o ← read_cell from; write_cell to (Some o) ;; copy_cells (from + 1) (to + 1) n
  end.

Definition PyErr_NoMemory : M (option obj) := fun s =>
  (Ok None, mk_py (held s) (Some (no_memory py)) (world s) (heap s)).

(** [noexcept]. *)
Definition no_except {A} (m : M A) : M A := fun s =>
  match m s with (Throw _, s') => (Aborted, s') | r => r end.

Definition constructor_attr_name : string := "__dynabridge_constructor__".
Definition local_args_size : nat := 8.

(** A copy of the arguments with [self] in front, in [n] cells at [buffer]. *)
Definition call_in_buffer (buffer : Z) (n : nat) (h : holder) (self : obj) (args nargs : Z) (kwnames : option nat)
  : M (option obj) :=
  allocate buffer n ;;
  write_cell buffer (Some self) ;;
  copy_cells args (buffer + 1) (Z.to_nat nargs) ;;
  result ← invoke_vector h buffer (nargs + 1) kwnames;
  deallocate buffer n ;; mret result.

(** The call of the constructor with [self] in front of the arguments, and the array put
    back as it was; [None] when there is no memory for the copy. *)
Definition call_with_self (h : holder) (self : obj) (args nargsf : Z) (kwnames : option nat)
  : M (option (option obj)) :=
  let nargs := PyVectorcall_NARGS nargsf in
  if has_offset nargsf then
    let call_args := args - 1 in
    saved_offset ← load_cell call_args;
    write_cell call_args (Some self) ;;
    result ← invoke_vector h call_args (nargs + 1) kwnames;
    write_cell call_args saved_offset ;; mret (Some result)
  else if nargs + 1 <=? Z.of_nat local_args_size then
    result ← call_in_buffer local_args local_args_size h self args nargs kwnames; mret (Some result)
  else
    let size := ((nargs + 1) * pointer_size) mod u64_modulus in
    ok ← asks (PyMem_Malloc py size);
    if negb ok then Py_DECREF py (Some self) ;; PyErr_NoMemory ;; mret None
    else
      result ← call_in_buffer malloc_block (Z.to_nat (size / pointer_size)) h self args nargs kwnames;
      mret (Some result).

(** The initializer of a class: what its own dictionary holds, if it is one of our callables. *)
Definition class_initializer (type : obj) : M (option obj) :=
  initializer ← asks (tp_dict_item py type constructor_attr_name);
  match initializer with
  | None => mret None
  | Some i =>
      ours ← callable_type;
      p ← gets (fun s => callables (heap s) !! i);
      mret (if ours : bool then match p with Some _ => Some i | None => None end else None)
  end.

(** A new instance: [tp_alloc] clears it, [PyObject_New] leaves that to the caller. *)
Definition new_export_instance (alloc : gset obj -> W -> W * reply obj) : M (option obj) :=
  u ← gets (fun s => used (heap s));
  self ← api_new (alloc u);
  match self with
  | None => mret None
  | Some o => on_heap (set_instances (insert o new_instance)) ;; mret (Some o)
  end.

Definition export_type_vectorcall (type : obj) (args nargsf : Z) (kwnames : option nat) : M (option obj) :=
  no_except (
    initializer ← class_initializer type;
    match initializer with
    | None => type_error "dynabridge Python export class has no bridge constructor"
    | Some i =>
        gc ← asks (has_gc py type);
        self ← new_export_instance
          (fun u => if gc : bool then tp_alloc py u type else PyObject_New_instance py u type);
        match self with
        | None => mret None
        | Some self =>
            h ← holder_of i;
            result ← call_with_self h self args nargsf kwnames;
            match result with
            | None => mret None
            | Some None => Py_DECREF py (Some self) ;; mret None
            | Some (Some r) => Py_DECREF py (Some r) ;; mret (Some self)
            end
        end
    end).

(** ** Modules and classes *)

Inductive target := module_t (module : obj) | class_target_t (type : obj).

(** [module_t::define] and [class_target_t::define]. *)
Definition define (t : target) (name : string) (value : option obj) : M unit :=
  match t with
  | module_t m =>
      ok ← api_status (PyModule_AddObject py m name value);
      match ok with
      | Some _ => steal value
      | None => Py_XDECREF py value ;; throw (runtime_error (lit "PyModule_AddObject failed"))
      end
  | class_target_t c =>
      ok ← api_status (PyObject_SetAttrString py c name value);
      match ok with
      | Some _ => Py_DECREF py value
      | None => Py_XDECREF py value ;; throw (runtime_error (lit "PyObject_SetAttrString failed"))
      end
  end.

Definition define_impl (t : target) (name : string) (h : holder) : M unit :=
  value ← make_callable h; define t name value.

(** [static_cast<int>] of the size of an instance with room to align the native. *)
Definition export_instance_size : Z := 40.
Definition basicsize (size align : Z) : Z :=
  let n := export_instance_size + size + align - 1 in
  (n + 2 ^ 31) mod 2 ^ 32 - 2 ^ 31.
Definition make_export_class_type (name : string) (size align : Z) : M (option obj) :=
  api_new (PyType_FromSpec py name (basicsize size align)).

Definition define_class_impl (t : target) (name : string) (size align : Z) : M (option obj) :=
  type ← make_export_class_type name size align;
  match type with
  | None => throw (runtime_error (lit "creating Python export extension type failed"))
  | Some _ =>
      cleaning (Py_XDECREF py type) (Py_INCREF lent type ;; define t name type) ;;
      object_ref lent type owned
  end.

Definition define_constructor_impl (class arity : nat) (t : target) : M unit :=
  constructor ← make_constructor class arity;
  cleaning (Py_XDECREF py constructor) (Py_INCREF lent constructor ;; define t "__init__" constructor) ;;
  define t constructor_attr_name constructor.

Definition define_export_instance_impl (module : obj) (name : string) (object : option obj) : M unit :=
  let (o, _) := release object in define (module_t module) name o.

(** ** Objects made and received by C++ *)

Definition make_export_object_impl (class : nat) (args : list N) : M (option obj) :=
  target ← export_target class;
  self ← new_export_instance (fun u => PyType_GenericNew py u target);
  match self with
  | None => throw (runtime_error (lit "PyType_GenericNew failed"))
  | Some o => with_ref py self (construct_export_object_impl class o args)
  end.

Definition bind_export_object_impl (class : nat) (self : option obj) : M (option obj) :=
  target ← export_target class;
  match self with
  | None => mret None
  | Some o => ok ← asks (PyObject_TypeCheck py o target); mret (if ok : bool then Some o else None)
  end.
Definition try_bind_export_object_impl (class : nat) (value : option obj) : M (option (option obj)) :=
  match value with
  | None => mret None
  | Some o =>
      target ← export_target class;
      ok ← asks (PyObject_TypeCheck py o target); mret (if ok : bool then Some (Some o) else None)
  end.

(** [export_instance_storage], on the address behind the header. *)
Definition export_instance_storage (begin align : Z) : Z :=
  Z.land ((begin + align - 1) mod u64_modulus) (Z.lxor (align - 1) (u64_modulus - 1)).
End Objects.
