(* ===== verification/PythonLifetime.v ===== *)
(** * backends/python.h: lifetimes of callables, instances and natives

    [heap_wf] says what lives on the C++ side between two entries of the interpreter: every
    holder behind exactly one callable object, and a native inside exactly the instances that
    were initialised. [spec] extends the ledger contracts of [PythonRefs] with such an
    invariant. *)

From Stdlib Require Import ZArith Lia.
From stdpp Require Import base list gmap gmultiset.
From S2P Require Import Prelude PythonRefs PythonObjects.

Record heap_wf (x : py_heap) : Prop := {
  wf_behind o p : callables x !! o = Some p -> is_Some (holders x !! p);
  wf_owner p h : holders x !! p = Some h -> exists o, callables x !! o = Some p;
  wf_one o1 o2 p : callables x !! o1 = Some p -> callables x !! o2 = Some p -> o1 = o2;
  wf_native o : natives x !! o = instances x !! o ≫= destroy;
  wf_fields o i : instances x !! o = Some i -> native i = bool_decide (destroy i ≠ None) /\ ctx i = native i
}.

(** An exception that can be put back: it has not been moved from. *)
Definition proper (e : exn) : Prop := match e with python_error _ None _ _ => False | _ => True end.

Section Spec.
Context {W : Type} (py : interpreter W) (lent : gset obj).
Abbreviation M := (eff (py_state W py_heap)).
Abbreviation state := (py_state W py_heap).

Definition spec {A} (L : gset obj) (P : gmultiset obj) (I : state -> Prop) (m : M A)
    (Q : A -> gmultiset obj) (J : A -> state -> Prop) (T : state -> Prop) : Prop :=
  forall s F, kept lent L F -> held s = F ⊎ P -> I s ->
  match m s with
  | (Ok a, s') => held s' = F ⊎ Q a /\ J a s'
  | (Throw e, s') => held s' = F ⊎ exn_refs e /\ proper e /\ T s'
  | (Aborted, _) => True
  | (Undefined, _) => False
  end.

Lemma spec_bind {A B} L P I (m : M A) (f : A -> M B) R J Q K T :
  spec L P I m R J T -> (forall a, spec L (R a) (J a) (f a) Q K T) -> spec L P I (m ≫= f) Q K T.
Proof.
  intros Hm Hf s F HL Hs HI. specialize (Hm s F HL Hs HI). unfold mbind, eff_bind.
  destruct (m s) as [[a|e| |] s']; try done. destruct Hm. by apply (Hf a).
Qed.
Lemma spec_ret {A} L P I (a : A) (Q : A -> gmultiset obj) (J : A -> state -> Prop) T :
  P = Q a -> (forall s, I s -> J a s) -> spec L P I (mret a) Q J T.
Proof. intros -> HJ s F _ Hs HI. split; [done|]. by apply HJ. Qed.
Lemma spec_throw {A} L e I (Q : A -> gmultiset obj) (J : A -> state -> Prop) T :
  exn_refs e = ∅ -> proper e -> (forall s, I s -> T s) -> spec L ∅ I (throw e) Q J T.
Proof. intros He Hp HT s F _ Hs HI. simpl. rewrite He. auto. Qed.

Lemma spec_weaken {A} L L' P P' I I' (m : M A) (Q : A -> gmultiset obj) J J' (T T' : state -> Prop) :
  spec L P I m Q J T -> L ⊆ L' -> P' = P -> (forall s, I' s -> I s) ->
  (forall a s, J a s -> J' a s) -> (forall s, T s -> T' s) -> spec L' P' I' m Q J' T'.
Proof.
  intros Hm HL -> HI HJ HT s F HF Hs HIs.
  assert (kept lent L F) as HF' by (intros o Ho; apply HF; set_solver).
  specialize (Hm s F HF' Hs (HI s HIs)). destruct (m s) as [[a|e| |] s']; try done.
  - destruct Hm. auto.
  - destruct Hm as (? & ? & ?). auto.
Qed.
Lemma spec_from {A} L P P' I (m : M A) (Q : A -> gmultiset obj) J T :
  spec L P I m Q J T -> P' = P -> spec L P' I m Q J T.
Proof. by intros Hm ->. Qed.
Lemma spec_refs {A} L P I (m : M A) (Q Q' : A -> gmultiset obj) J T :
  spec L P I m Q J T -> (forall a, Q a = Q' a) -> spec L P I m Q' J T.
Proof.
  intros Hm HQ s F HF Hs HI. specialize (Hm s F HF Hs HI). destruct (m s) as [[a|e| |] s']; try done. by rewrite <- HQ.
Qed.

(** The primitives of [PythonRefs] leave the heap alone and do not throw. *)
Definition primitive {A} (m : M A) : Prop :=
  forall s, heap (m s).2 = heap s /\ match (m s).1 with Throw _ | Aborted => False | _ => True end.

Lemma primitive_ret {A} (a : A) : primitive (mret a).
Proof. by intros s. Qed.
Lemma primitive_bind {A B} (m : M A) (f : A -> M B) : primitive m -> (forall a, primitive (f a)) -> primitive (m ≫= f).
Proof.
  intros Hm Hf s. specialize (Hm s). unfold mbind, eff_bind. destruct (m s) as [[a| | |] s']; simpl in *; try tauto.
  destruct (Hf a s') as [Hh Hk]. rewrite Hh. tauto.
Qed.
Lemma primitive_xdecref o : primitive (Py_XDECREF py o).
Proof.
  destruct o as [o|]; [|apply primitive_ret]. simpl. apply primitive_bind.
  - intros s. unfold give_away. by destruct (decide _).
  - intros [] s. unfold run_finalizer. by destruct (finalize py o (world s) (pending s)).
Qed.
Lemma primitive_use o : primitive (use lent o).
Proof. intros s. destruct o as [o|]; [|done]. simpl. by destruct (decide _). Qed.
Lemma primitive_incref o : primitive (Py_INCREF lent o).
Proof. apply primitive_bind; [apply primitive_use|by intros a s]. Qed.
Lemma primitive_xincref o : primitive (Py_XINCREF lent o).
Proof. destruct o; [apply primitive_incref|apply primitive_ret]. Qed.
Lemma primitive_status {A} (f : W -> W * reply A) : primitive (api_status f).
Proof. intros s. unfold api_status. by destruct (f (world s)) as [w [a|e]]. Qed.
Lemma primitive_new f : primitive (api_new f).
Proof. apply primitive_bind; [apply primitive_status|intros [o|]; by intros s]. Qed.
Lemma primitive_asks {A} (f : W -> A) : primitive (asks f).
Proof. by intros s. Qed.
Lemma primitive_set_string t m : primitive (PyErr_SetString py t m).
Proof. intros s. unfold PyErr_SetString. by destruct (make_error py t m (world s)). Qed.
Lemma primitive_steal o : primitive (steal o).
Proof. intros s. destruct o; [|done]. simpl. unfold give_away. by destruct (decide _). Qed.
Lemma primitive_object_ref r p : primitive (object_ref lent r p).
Proof.
  destruct r, p; try apply primitive_ret. apply primitive_bind; [apply primitive_incref|intros []; apply primitive_ret].
Qed.
Lemma primitive_reset r o p : primitive (reset py lent r o p).
Proof. apply primitive_bind; [apply primitive_xdecref|intros []; apply primitive_object_ref]. Qed.

(** A primitive keeps every fact about the heap. *)
Lemma spec_primitive {A} L P (m : M A) Q (H : py_heap -> Prop) T :
  owns lent L P m Q -> primitive m ->
  spec L P (fun s => H (heap s)) m Q (fun _ s => H (heap s)) T.
Proof.
  intros Ho Hp s F HL Hs HI. specialize (Ho s F HL Hs). specialize (Hp s).
  destruct (m s) as [[a|e| |] s']; simpl in *; try tauto. destruct Hp as [-> _]. auto.
Qed.

(** Steps on the heap. *)
Lemma spec_on_heap L P (f : py_heap -> py_heap) (H H' : py_heap -> Prop) T :
  (forall x, H x -> H' (f x)) ->
  spec L P (fun s => H (heap s)) (on_heap f) (fun _ => P) (fun _ s => H' (heap s)) T.
Proof. intros Hf s F _ Hs HI. split; [done|]. by apply Hf. Qed.
Lemma spec_gets {A} L P (f : py_heap -> A) (H : py_heap -> Prop) T :
  spec L P (fun s => H (heap s)) (gets (fun s => f (heap s))) (fun _ => P)
    (fun a s => a = f (heap s) /\ H (heap s)) T.
Proof. by intros s F _ Hs HI. Qed.

Lemma spec_acquire L P o (H : py_heap -> Prop) T :
  spec L P (fun s => H (heap s)) (acquire o) (fun _ => P ⊎ {[+ o +]}) (fun _ s => H (heap s)) T.
Proof. intros s F _ Hs HI. simpl. split; [|done]. rewrite Hs. multiset_solver. Qed.

(** A reference is given up at the end of a scope. *)
Lemma xdecref_run r (s : state) F R :
  held s = F ⊎ R ⊎ orefs r ->
  exists s', Py_XDECREF py r s = (Ok tt, s') /\ held s' = F ⊎ R /\ heap s' = heap s.
Proof.
  intros Hs. pose proof (owns_xdecref py lent ∅ R r s F ltac:(intros ? ?; set_solver)) as Ho.
  rewrite Hs in Ho. specialize (Ho ltac:(multiset_solver)). pose proof (primitive_xdecref r s) as [Hh Hk].
  destruct (Py_XDECREF py r s) as [[[]|e| |] s']; try done. by exists s'.
Qed.

Definition objs (r : option obj) : gset obj := match r with Some o => {[ o ]} | None => ∅ end.
Lemma spec_with_ref {A} L P I r (body : M A) Q (H : A -> py_heap -> Prop) (T : py_heap -> Prop) :
  spec (objs r ∪ L) P I body Q (fun a s => H a (heap s)) (fun s => T (heap s)) ->
  spec L (P ⊎ orefs r) I (with_ref py r body) Q (fun a s => H a (heap s)) (fun s => T (heap s)).
Proof.
  intros Hb s F HL Hs HI. unfold with_ref.
  assert (kept lent (objs r ∪ L) (F ⊎ orefs r)) as HL'.
  { intros o [Ho|Ho]%elem_of_union.
    - right. destruct r as [x|]; simpl in Ho; [|set_solver]. apply elem_of_singleton in Ho. subst x. simpl. multiset_solver.
    - destruct (HL o Ho); [by left|right; multiset_solver]. }
  specialize (Hb s (F ⊎ orefs r) HL'). rewrite Hs in Hb. specialize (Hb ltac:(multiset_solver) HI).
  destruct (body s) as [[a|e| |] s1]; try done.
  - destruct Hb as [Hh HJ]. destruct (xdecref_run r s1 F (Q a)) as (s2 & Hx & Hs2 & Heap); [rewrite Hh; multiset_solver|].
    rewrite (eff_bind_run _ _ _ _ _ Hx). simpl. by rewrite Hs2, Heap.
  - destruct Hb as (Hh & Hp & HT). destruct (xdecref_run r s1 F (exn_refs e)) as (s2 & Hx & Hs2 & Heap).
    { rewrite Hh. multiset_solver. }
    rewrite (eff_bind_run _ _ _ _ _ Hx). simpl. by rewrite Hs2, Heap.
Qed.

Lemma primitive_destroy_exception e : primitive (destroy_exception py e).
Proof.
  destruct e; simpl; try apply primitive_ret.
  apply primitive_bind; [apply primitive_xdecref|intros []].
  apply primitive_bind; [apply primitive_xdecref|intros []]. apply primitive_xdecref.
Qed.

(** A handler that drops the exception. *)
Definition contained (m : M unit) : M unit := fun s =>
  match m s with (Throw e, s') => destroy_exception py e s' | r => r end.
Lemma spec_contained L P I (m : M unit) (H : py_heap -> Prop) T :
  spec L P I m (fun _ => ∅) (fun _ s => H (heap s)) (fun s => H (heap s)) ->
  spec L P I (contained m) (fun _ => ∅) (fun _ s => H (heap s)) T.
Proof.
  intros Hm s F HL Hs HI. specialize (Hm s F HL Hs HI). unfold contained.
  destruct (m s) as [[[]|e| |] s1]; try done. destruct Hm as (Hh & _ & HT).
  pose proof (owns_destroy_exception py lent L e s1 F HL Hh) as Ho. pose proof (primitive_destroy_exception e s1) as [Heap Hk].
  destruct (destroy_exception py e s1) as [[[]|e'| |] s2]; try done. simpl in Heap. by rewrite Heap.
Qed.

(** ** Holders and callables *)

(** The holder [p] belongs to the code that runs, every other one to a callable. *)
Definition but_holder (p : nat) (x : py_heap) : Prop :=
  is_Some (holders x !! p) /\ (forall o, callables x !! o ≠ Some p) /\ heap_wf (set_holders (delete p) x).

Lemma new_holder_spec L P h T :
  spec L P (fun s => heap_wf (heap s)) (new_holder h) (fun _ => P) (fun p s => but_holder p (heap s)) T.
Proof.
  intros s F _ Hs Hwf. unfold new_holder. split; [done|]. cbn [heap].
  set (p := fresh _). assert (holders (heap s) !! p = None) as Hp.
  { apply not_elem_of_dom, is_fresh. }
  unfold but_holder, set_holders. cbn [holders callables]. rewrite lookup_insert_eq. split_and!; [by eexists| |].
  - intros o Ho. destruct (wf_behind _ Hwf _ _ Ho) as [h' Hh']. by rewrite Hh' in Hp.
  - rewrite delete_insert_id by done. by destruct (heap s).
Qed.

Lemma destroy_holder_spec L P p T :
  spec L P (fun s => but_holder p (heap s)) (destroy_holder p) (fun _ => P) (fun _ s => heap_wf (heap s)) T.
Proof.
  unfold destroy_holder. eapply spec_bind; [apply (spec_gets _ _ (fun x => holders x !! p) (but_holder p))|intros [h|]].
  - eapply spec_weaken; [apply (spec_on_heap _ _ _ (but_holder p) heap_wf)|done|done| |done|done].
    + by intros x (_ & _ & Hwf).
    + by intros s [_ Hb].
  - intros s F _ Hs [Heq [[h Hh] _]]. by rewrite Hh in Heq.
Qed.

Lemma callable_type_spec L P (H : py_heap -> Prop) T :
  (forall x, H x -> H (set_ready true x)) ->
  spec L P (fun s => H (heap s)) (callable_type py) (fun _ => P)
    (fun ok s => H (heap s) /\ (ok = false -> pending s ≠ None)) T.
Proof.
  intros Hr s F _ Hs HI. unfold callable_type, gets, mbind, eff_bind. simpl.
  destruct (ready (heap s)); [done|]. unfold api_status.
  destruct (PyType_Ready py (world s)) as [w [[]|e]]; simpl; [|done]. split; [done|]. by split; [apply Hr|].
Qed.

Lemma but_holder_ready p x : but_holder p x -> but_holder p (set_ready true x).
Proof.
  intros (Hp & Hc & Hwf). split_and!; [done|done|]. destruct Hwf. by split.
Qed.

(** A new callable object takes the holder. *)
Lemma callable_object_wf p o x :
  but_holder p x -> o ∉ used x -> heap_wf (set_callables (insert o p) x).
Proof.
  intros ([h Hp] & Hc & []) Ho. unfold used in Ho.
  cbn [set_holders holders callables instances natives] in *.
  split; cbn [set_callables holders callables instances natives].
  - intros o' p'. rewrite lookup_insert_Some. intros [[<- <-]|[Hne Ho']]; [by eexists|].
    destruct (wf_behind0 _ _ Ho') as [h' Hh']. apply lookup_delete_Some in Hh' as [_ Hh']. by eexists.
  - intros p' h' Hp'. destruct (decide (p' = p)) as [->|Hne].
    + exists o. apply lookup_insert_eq.
    + destruct (wf_owner0 p' h') as [o' Ho']; [by rewrite lookup_delete_ne|]. exists o'.
      rewrite lookup_insert_ne; [done|]. intros ->. apply Ho. apply elem_of_union_l. by apply elem_of_dom_2 in Ho'.
  - intros o1 o2 p'. rewrite !lookup_insert_Some.
    intros [[<- <-]|[Hne1 H1]] [[<- Heq]|[Hne2 H2]]; try done; [by destruct (Hc o2)|subst; by destruct (Hc o1)|].
    by eapply wf_one0.
  - done.
  - done.
Qed.

Lemma make_callable_object_spec `{!FreshAllocation py} L P p T :
  spec L P (fun s => but_holder p (heap s)) (make_callable_object py p)
    (fun r => P ⊎ orefs r)
    (fun r s => heap_wf (heap s) /\ (forall o, r = Some o -> callables (heap s) !! o = Some p)) T.
Proof.
  unfold make_callable_object.
  eapply spec_bind; [apply (callable_type_spec _ _ (but_holder p)), but_holder_ready|intros [|]]; cbn [negb].
  2: { eapply spec_bind; [eapply spec_weaken; [apply destroy_holder_spec|done|done| |done|done]|intros []].
       - by intros s [Hb _].
       - apply spec_ret; [simpl; multiset_solver|]. intros s Hs. by split. }
  eapply spec_bind.
  { eapply spec_weaken; [apply (spec_gets _ _ used (but_holder p))|done|done| |done|done]. by intros s [Hb _]. }
  intros u. eapply (spec_bind _ _ _ _ _ (fun r => P ⊎ orefs r)
    (fun r s => (forall o, r = Some o -> o ∉ used (heap s)) /\ but_holder p (heap s))).
  { intros s F HL Hs [-> Hb]. pose proof (primitive_new (PyObject_New py (used (heap s))) s) as Hprim.
    pose proof (owns_api_new lent L P (PyObject_New py (used (heap s))) s F HL Hs) as Ho.
    pose proof (object_new_fresh (used (heap s)) (world s)) as Hfresh.
    unfold api_new, api_status, mbind, eff_bind in *.
    destruct (PyObject_New py (used (heap s)) (world s)) as [w [o|e]]; simpl in *.
    - split; [done|]. split; [|done]. intros o' [= <-]. by eapply Hfresh.
    - done. }
  intros [o|].
  - eapply (spec_bind _ _ _ _ _ (fun _ => P ⊎ orefs (Some o))
      (fun _ s => heap_wf (heap s) /\ callables (heap s) !! o = Some p)).
    { intros s F _ Hs [Ho Hb]. simpl. split; [exact Hs|]. split.
      - by apply callable_object_wf; [|apply Ho].
      - apply lookup_insert_eq. }
    intros []. apply spec_ret; [done|]. intros s [Hw Hc]. split; [done|]. by intros o' [= <-].
  - eapply spec_bind; [eapply spec_weaken; [apply destroy_holder_spec|done|reflexivity| |done|done]|intros []].
    + by intros s [_ Hb].
    + apply spec_ret; [done|]. intros s Hs. by split.
Qed.

Lemma make_callable_spec `{!FreshAllocation py} L P h T :
  spec L P (fun s => heap_wf (heap s)) (make_callable py h) (fun r => P ⊎ orefs r) (fun _ s => heap_wf (heap s)) T.
Proof.
  eapply spec_bind; [apply new_holder_spec|intros p].
  eapply spec_weaken; [apply make_callable_object_spec|done|done|done| |done]. by intros r s' [Hw _].
Qed.

(** The interpreter deallocates a callable once, and with it the holder. *)
Lemma callable_dealloc_wf self p x :
  heap_wf x -> callables x !! self = Some p ->
  heap_wf (set_callables (delete self) (set_holders (delete p) x)).
Proof.
  intros [] Hp. split; cbn [set_callables set_holders holders callables instances natives]; try done.
  - intros o p'. rewrite lookup_delete_Some. intros [Hne Ho]. rewrite lookup_delete_ne; [by eapply wf_behind0|].
    intros ->. apply Hne. by eapply wf_one0.
  - intros p' h. rewrite lookup_delete_Some. intros [Hne Hh]. destruct (wf_owner0 _ _ Hh) as [o Ho]. exists o.
    rewrite lookup_delete_ne; [done|]. intros ->. by rewrite Ho in Hp; simplify_eq.
  - intros o1 o2 p'. rewrite !lookup_delete_Some. intros [_ H1] [_ H2]. by eapply wf_one0.
Qed.
Lemma callable_dealloc_run self p (s : state) :
  heap_wf (heap s) -> callables (heap s) !! self = Some p ->
  callable_dealloc self s =
  (Ok tt, mk_py (held s) (pending s) (world s) (set_callables (delete self) (set_holders (delete p) (heap s)))).
Proof.
  intros Hwf Hp. destruct (wf_behind _ Hwf _ _ Hp) as [h Hh].
  unfold callable_dealloc, destroy_holder, gets, on_heap, mbind, eff_bind. rewrite Hp. cbn [heap]. by rewrite Hh.
Qed.

(** ** Instances *)

Lemma new_instance_wf o x :
  heap_wf x -> o ∉ used x -> heap_wf (set_instances (insert o new_instance) x).
Proof.
  intros [] Ho. split; cbn [set_instances holders callables instances natives]; try done.
  - intros o'. destruct (decide (o' = o)) as [->|Hne]; [|by rewrite lookup_insert_ne].
    rewrite lookup_insert_eq, wf_native0. replace (instances x !! o) with (@None export_instance); [done|].
    symmetry. apply not_elem_of_dom. unfold used in Ho. set_solver.
  - intros o' i. rewrite lookup_insert_Some. intros [[<- <-]|[_ Hi]]; [done|by eapply wf_fields0].
Qed.

(** The constructor of the native succeeded. *)
Lemma initialised_wf o i class x :
  heap_wf x -> instances x !! o = Some i -> destroy i = None ->
  heap_wf (set_instances (insert o (mk_instance true true (Some class))) (set_natives (insert o class) x)).
Proof.
  intros [] Hi Hd. split; cbn [set_instances set_natives holders callables instances natives]; try done.
  - intros o'. destruct (decide (o' = o)) as [->|Hne]; [by rewrite !lookup_insert_eq|].
    by rewrite !lookup_insert_ne.
  - intros o' i'. rewrite lookup_insert_Some. intros [[<- <-]|[_ Hi']]; [done|by eapply wf_fields0].
Qed.

(** The deallocator of an instance takes the native with it. *)
Definition without_instance (self : obj) (x : py_heap) : py_heap :=
  set_instances (delete self) (set_natives (delete self) x).
Lemma without_instance_wf self x : heap_wf x -> heap_wf (without_instance self x).
Proof.
  intros []. split; cbn [without_instance set_instances set_natives holders callables instances natives]; try done.
  - intros o. destruct (decide (o = self)) as [->|Hne]; [by rewrite !lookup_delete_eq|]. by rewrite !lookup_delete_ne.
  - intros o i. rewrite lookup_delete_Some. intros [_ Hi]. by eapply wf_fields0.
Qed.
Lemma export_instance_dealloc_run type self i (s : state) :
  heap_wf (heap s) -> instances (heap s) !! self = Some i ->
  exists s1, held s1 = held s /\ heap s1 = without_instance self (heap s) /\
    export_instance_dealloc py type self s = Py_DECREF py (Some type) s1.
Proof.
  intros Hwf Hi. pose proof (wf_native _ Hwf self) as Hn. rewrite Hi in Hn. simpl in Hn.
  unfold export_instance_dealloc, instance_at, destroy_export_instance, gets, on_heap, mbind, eff_bind.
  rewrite Hi. cbn [mret eff_ret]. unfold mret, eff_ret. destruct (destroy i) as [c|].
  - cbn [heap set_instances natives]. rewrite Hn. eexists. split; [|split; [|reflexivity]]; [done|].
    cbn [heap]. unfold without_instance, set_instances, set_natives. simpl. by rewrite delete_insert_eq.
  - eexists. split; [|split; [|reflexivity]]; [done|]. cbn [heap]. unfold without_instance, set_instances, set_natives. simpl.
    rewrite (delete_id (natives (heap s))) by done. by destruct (heap s).
Qed.
End Spec.

(** What the code of the user does itself to the C++ side while a callback runs: it leaves the
    instances and the arrays that were there alone. What it makes the interpreter do with
    them are the entries below. *)
Definition steady (x x' : py_heap) : Prop :=
  heap_wf x' /\ instances x ⊆ instances x' /\ memory x' = memory x.
Lemma steady_refl x : heap_wf x -> steady x x.
Proof. unfold steady. auto. Qed.
Lemma steady_trans x y z : steady x y -> steady y z -> steady x z.
Proof. intros (_ & H1 & M1) (Hw & H2 & M2). split; [done|]. split; [by etrans|congruence]. Qed.

Definition user_code {W A} (lent : gset obj) (m : eff (py_state W py_heap) A) (Q : A -> gmultiset obj)
    (J : A -> py_state W py_heap -> Prop) : Prop :=
  forall L x, heap_wf x ->
  spec lent L ∅ (fun s => heap s = x) m Q (fun a s => steady x (heap s) /\ J a s) (fun s => steady x (heap s)).

Section Construct.
Context {W N : Type} (py : interpreter W) (lent : gset obj).
Context (construct_native : nat -> list N -> eff (py_state W py_heap) unit).
Abbreviation construct_impl := (construct_export_object_impl py lent construct_native).

Lemma reset_new_run {C} o (s : py_state W C) :
  alive lent s o ->
  reset py lent None (Some o) borrowed s = (Ok (Some o), mk_py (held s ⊎ {[+ o +]}) (pending s) (world s) (heap s)).
Proof.
  intros Ho. unfold reset, object_ref, Py_INCREF, Py_XDECREF, mbind, eff_bind. simpl.
  by destruct (decide (alive lent s o)).
Qed.

(** The instance with its native. *)
Definition with_native (self : obj) (class : nat) (x : py_heap) : py_heap :=
  set_instances (insert self (mk_instance true true (Some class))) (set_natives (insert self class) x).

(** Constructing the native: it fails on an initialised object, leaves the instance alone
    when the constructor throws, and otherwise puts the native in place. [R] is what the
    constructor of the native makes of the heap, which leaves the object as it was. *)
Lemma construct_native_spec L class self args i (I : py_state W py_heap -> Prop) (R : py_heap -> Prop) :
  (forall s, I s -> instances (heap s) !! self = Some i /\ R (heap s)) ->
  (forall y, R y -> heap_wf y /\ instances y !! self = Some i) ->
  self ∈ lent \/ self ∈ L ->
  (destroy i = None -> spec lent L ∅ I (construct_native class args) (fun _ => ∅) (fun _ s => R (heap s)) (fun s => R (heap s))) ->
  spec lent L ∅ I (construct_impl class self args) orefs
    (fun r s => r = Some self /\ destroy i = None /\ exists y, R y /\ heap s = with_native self class y)
    (fun s => R (heap s)).
Proof.
  intros HI HR Hself Hcon s F HL Hs HIs. destruct (HI s HIs) as [Hi HRs].
  assert (instance_at self s = (Ok i, s)) as Hat by (unfold instance_at, gets, mbind, eff_bind; by rewrite Hi).
  unfold construct_export_object_impl. rewrite (eff_bind_run _ _ _ _ _ Hat). destruct (destroy i) as [c|] eqn:Hd; [cbn; by split_and!|].
  specialize (Hcon eq_refl s F HL Hs HIs). unfold mbind at 1, eff_bind at 1.
  destruct (construct_native class args s) as [[[]|e| |] s1]; try done. destruct Hcon as [Hh HR1].
  destruct (HR _ HR1) as [Hwf1 Hi1]. assert (natives (heap s1) !! self = None) as Hn by (by rewrite (wf_native _ Hwf1), Hi1).
  assert (place_native self class s1 = (Ok tt, mk_py (held s1) (pending s1) (world s1) (set_natives (insert self class) (heap s1)))) as Hplace
    by (unfold place_native, gets, mbind, eff_bind; by rewrite Hn).
  rewrite (eff_bind_run _ _ _ _ _ Hplace). unfold on_heap, mbind, eff_bind. rewrite reset_new_run.
  - cbn [held heap]. rewrite Hh. split; [simpl; multiset_solver|]. split_and!; [done..|]. by exists (heap s1).
  - unfold alive. cbn [held]. destruct Hself as [|Ho]; [by left|]. destruct (HL _ Ho); [by left|]. right. rewrite Hh. multiset_solver.
Qed.

(** With the constructor a function of the user that leaves all instances alone. *)
Context (construct_user : forall class args, user_code lent (construct_native class args) (fun _ => ∅) (fun _ _ => True)).
Lemma construct_export_object_spec L class self args i x :
  heap_wf x -> instances x !! self = Some i -> self ∈ lent \/ self ∈ L ->
  spec lent L ∅ (fun s => heap s = x) (construct_impl class self args)
    orefs
    (fun r s => r = Some self /\ destroy i = None /\ heap_wf (heap s) /\ memory (heap s) = memory x /\
       natives (heap s) !! self = Some class /\ dom (instances x) ⊆ dom (instances (heap s)))
    (fun s => steady x (heap s)).
Proof.
  intros Hwf Hi Hself. eapply spec_weaken; [apply (construct_native_spec L class self args i _ (steady x))|done|done|by intros s Hs; exact Hs| |done].
  - intros s ->. split; [done|]. by apply steady_refl.
  - intros y (Hwy & Hsub & _). split; [done|]. by eapply lookup_weaken.
  - done.
  - intros _. eapply spec_weaken; [by apply construct_user|done|done|done|by intros [] s [Hs _]|done].
  - intros r s (-> & Hd & y & (Hwy & Hsub & Hm) & ->).
    assert (instances y !! self = Some i) as Hi' by (by eapply lookup_weaken).
    split_and!; [done|done|by eapply initialised_wf|done|apply lookup_insert_eq|].
    simpl. apply subseteq_dom in Hsub. set_solver.
Qed.
End Construct.

(** ** Entries of the interpreter

    What the interpreter calls, in any order: it allocates instances and runs their
    initialisers, modules make callables, and the collector deallocates both. The references
    the interpreter has for the time of the call come with it, and those that are returned
    go to it. The constructor of a native runs code of the user and reaches Python, from
    where the interpreter enters again: what an initialiser does is a list of entries, with
    the code of the user between them and references that the user holds for a scope of
    entries, and ends early with what that code throws. *)
Inductive entry {N : Type} :=
| EnterNew (type : obj)
| EnterInit (class : nat) (self : obj) (body : list entry)
| EnterDealloc (type self : obj)
| EnterCallable (h : holder)
| EnterCallableDealloc (self : obj)
| UserCode (n : N)
| UserScope (o : obj) (body : list entry).
Arguments entry : clear implicits.

Section EntryInduction.
Context {N : Type} (P : entry N -> Prop).
Context (Hnew : forall type, P (EnterNew type)) (Hdealloc : forall type self, P (EnterDealloc type self))
  (Hcallable : forall h, P (EnterCallable h)) (Hend : forall self, P (EnterCallableDealloc self)) (Huser : forall n, P (UserCode n))
  (Hinit : forall class self body, Forall P body -> P (EnterInit class self body))
  (Hscope : forall o body, Forall P body -> P (UserScope o body)).
Fixpoint entry_nested_ind (e : entry N) : P e :=
  let fix all (l : list (entry N)) : Forall P l :=
    match l with [] => Forall_nil_2 P | e :: l => Forall_cons_2 P e l (entry_nested_ind e) (all l) end in
  match e with
  | EnterNew type => Hnew type
  | EnterInit class self body => Hinit class self body (all body)
  | EnterDealloc type self => Hdealloc type self
  | EnterCallable h => Hcallable h
  | EnterCallableDealloc self => Hend self
  | UserCode n => Huser n
  | UserScope o body => Hscope o body (all body)
  end.
End EntryInduction.

Section Entries.
Context {W N : Type} (py : interpreter W) (lent : gset obj).
Abbreviation M := (eff (py_state W py_heap)).
Abbreviation state := (py_state W py_heap).
(** The steps of the user, which touch instances and callables only through entries. *)
Context (user : N -> M unit) (user_steps : forall n, user_code lent (user n) (fun _ => ∅) (fun _ _ => True)).

Fixpoint enter (e : entry N) : M unit :=
  let fix enter_body l := match l with [] => mret tt | e :: l => enter e ;; enter_body l end in
  match e with
  | EnterNew type => r ← new_export_instance (fun u => PyType_GenericNew py u type); steal r
  | EnterInit class self body =>
      acquire self ;;
      contained py (with_ref py (Some self)
        (object ← construct_export_object_impl (N := N) py lent (fun _ _ => enter_body body) class self [];
         Py_XDECREF py object))
  | EnterDealloc type self => acquire type ;; export_instance_dealloc py type self
  | EnterCallable h => r ← make_callable py h; steal r
  | EnterCallableDealloc self => callable_dealloc self
  | UserCode n => user n
  | UserScope o body => acquire o ;; with_ref py (Some o) (enter_body body)
  end.
Fixpoint enter_all (l : list (entry N)) : M unit := match l with [] => mret tt | e :: l => enter e ;; enter_all l end.

(** An object can be initialised or deallocated while it is there, but not while it is
    [busy]: its initialiser runs, so that there is a reference to it, and must not be
    entered again. *)
Fixpoint permitted (busy : gset obj) (e : entry N) (s : state) : Prop :=
  let fix permitted_body busy l s :=
    match l with
    | [] => True
    | e :: l => permitted busy e s /\ forall s', enter e s = (Ok tt, s') -> permitted_body busy l s'
    end in
  match e with
  | EnterNew _ | EnterCallable _ | UserCode _ => True
  | EnterInit _ self body =>
      self ∈ dom (instances (heap s)) /\ self ∉ busy /\
      (instances (heap s) !! self ≫= destroy = None -> permitted_body ({[ self ]} ∪ busy) body (acquire self s).2)
  | EnterDealloc _ self => self ∈ dom (instances (heap s)) /\ self ∉ busy
  | EnterCallableDealloc self => self ∈ dom (callables (heap s))
  | UserScope o body => permitted_body busy body (acquire o s).2
  end.
Fixpoint permitted_all (busy : gset obj) (l : list (entry N)) (s : state) : Prop :=
  match l with
  | [] => True
  | e :: l => permitted busy e s /\ forall s', enter e s = (Ok tt, s') -> permitted_all busy l s'
  end.

(** The body of an initialiser is its list of entries. *)
Lemma enter_init class self body :
  enter (EnterInit class self body) =
  (acquire self ;;
   contained py (with_ref py (Some self)
     (object ← construct_export_object_impl (N := N) py lent (fun _ _ => enter_all body) class self []; Py_XDECREF py object))).
Proof. done. Qed.
Lemma permitted_init busy class self body s :
  permitted busy (EnterInit class self body) s =
  (self ∈ dom (instances (heap s)) /\ self ∉ busy /\
   (instances (heap s) !! self ≫= destroy = None -> permitted_all ({[ self ]} ∪ busy) body (acquire self s).2)).
Proof. done. Qed.
Lemma enter_scope o body : enter (UserScope o body) = (acquire o ;; with_ref py (Some o) (enter_all body)).
Proof. done. Qed.
Lemma permitted_scope busy o body s : permitted busy (UserScope o body) s = permitted_all busy body (acquire o s).2.
Proof. done. Qed.

Inductive runs : list (entry N) -> state -> state -> Prop :=
| runs_nil s : runs [] s s
| runs_cons e l s s1 s' :
    permitted ∅ e s -> enter e s = (Ok tt, s1) -> runs l s1 s' -> runs (e :: l) s s'.

(** What an entry does to the heap: the instances that are busy stay as they are. *)
Definition undisturbed (busy : gset obj) (x y : py_heap) : Prop :=
  heap_wf y /\ forall o, o ∈ busy -> instances y !! o = instances x !! o.
Lemma undisturbed_trans busy x y z : undisturbed busy x y -> undisturbed busy y z -> undisturbed busy x z.
Proof. intros [_ H1] [Hw H2]. split; [done|]. intros o Ho. by rewrite H2, H1. Qed.

Context `{!FreshAllocation py}.

Lemma new_export_instance_run (alloc : gset obj -> W -> W * reply obj) (s : state) :
  (forall u w w' o, alloc u w = (w', Returned o) -> o ∉ u) ->
  (exists o s', new_export_instance alloc s = (Ok (Some o), s') /\ held s' = held s ⊎ {[+ o +]} /\
     heap s' = set_instances (insert o new_instance) (heap s) /\ o ∉ used (heap s)) \/
  (exists s', new_export_instance alloc s = (Ok None, s') /\ held s' = held s /\ heap s' = heap s /\ pending s' ≠ None).
Proof.
  intros Hfresh. unfold new_export_instance, gets, api_new, api_status, acquire, on_heap, mbind, eff_bind.
  pose proof (Hfresh (used (heap s)) (world s)) as Hf.
  destruct (alloc (used (heap s)) (world s)) as [w [o|e]]; cbn; [left|right].
  - eexists o, _. split_and!; [reflexivity|done|done|by eapply Hf].
  - eexists. split_and!; [reflexivity|done..].
Qed.

(** Making a callable leaves the instances alone. *)
Definition keeps_instances {A} (m : M A) : Prop := forall s, instances (heap (m s).2) = instances (heap s).
Lemma keep_instances_bind {A B} (m : M A) (f : A -> M B) : keeps_instances m -> (forall a, keeps_instances (f a)) -> keeps_instances (m ≫= f).
Proof.
  intros Hm Hf s. specialize (Hm s). unfold mbind, eff_bind. destruct (m s) as [[a| | |] s1]; simpl in *; try done.
  by rewrite Hf.
Qed.
Lemma keep_instances_primitive {A} (m : M A) : primitive m -> keeps_instances m.
Proof. intros Hm s. destruct (Hm s) as [Hh _]. by rewrite Hh. Qed.
Lemma destroy_holder_keeps p : keeps_instances (destroy_holder p).
Proof. apply keep_instances_bind; [done|intros [h|]; done]. Qed.
Lemma make_callable_keeps h : keeps_instances (make_callable py h).
Proof.
  apply keep_instances_bind; [done|intros p]. unfold make_callable_object. apply keep_instances_bind; [|intros [|]; simpl].
  - unfold callable_type. apply keep_instances_bind; [done|intros [|]; [done|]]. apply keep_instances_bind; [apply keep_instances_primitive, primitive_status|].
    by intros [[]|].
  - apply keep_instances_bind; [done|intros u]. apply keep_instances_bind; [apply keep_instances_primitive, primitive_new|intros [o|]; [done|]].
    apply keep_instances_bind; [apply destroy_holder_keeps|done].
  - apply keep_instances_bind; [apply destroy_holder_keeps|done].
Qed.

(** ** Each entry *)

Definition is_user (e : entry N) : Prop := match e with UserCode _ | UserScope _ _ => True | _ => False end.
(** What an entry promises, for all states in which it is permitted. *)
Definition promises (e : entry N) : Prop := forall busy L x,
  spec lent L ∅ (fun s => heap s = x /\ heap_wf x /\ busy ⊆ dom (instances x) /\ permitted busy e s) (enter e)
    (fun _ => ∅) (fun _ s => undisturbed busy x (heap s)) (fun s => is_user e /\ undisturbed busy x (heap s)).
Definition body_promises (l : list (entry N)) : Prop := forall busy L x,
  spec lent L ∅ (fun s => heap s = x /\ heap_wf x /\ busy ⊆ dom (instances x) /\ permitted_all busy l s) (enter_all l)
    (fun _ => ∅) (fun _ s => undisturbed busy x (heap s)) (fun s => undisturbed busy x (heap s)).

Lemma undisturbed_dom busy x y : busy ⊆ dom (instances x) -> undisturbed busy x y -> busy ⊆ dom (instances y).
Proof. intros Hb [_ Hu] o Ho. apply elem_of_dom. rewrite (Hu o Ho). apply elem_of_dom. set_solver. Qed.
Lemma undisturbed_steady busy x y : busy ⊆ dom (instances x) -> steady x y -> undisturbed busy x y.
Proof.
  intros Hb (Hw & Hsub & _). split; [done|]. intros o Ho. assert (o ∈ dom (instances x)) as [i Hi]%elem_of_dom by set_solver.
  rewrite Hi. by eapply lookup_weaken.
Qed.

(** A sequence of entries ends with its first exception. *)
Lemma enter_all_promises l : Forall promises l -> body_promises l.
Proof.
  induction 1 as [|e l He _ IH]; intros busy L x s F HL Hs (Hx & Hwf & Hb & Hp).
  - cbn. rewrite Hx. by split_and!.
  - destruct Hp as [Hpe Hpl]. pose proof (He busy L x s F HL Hs ltac:(by split_and!)) as Hsp. simpl. unfold mbind, eff_bind.
    destruct (enter e s) as [[[]|ex| |] s1] eqn:Hrun; try done; [|by destruct Hsp as (? & ? & _ & ?)].
    destruct Hsp as [Hh Hu]. specialize (IH busy L (heap s1) s1 F HL ltac:(done)
      ltac:(split_and!; [done|apply Hu|by eapply undisturbed_dom|by apply Hpl])).
    destruct (enter_all l s1) as [[[]|ex| |] s2]; try done; destruct_and?; split_and!; try done; by eapply undisturbed_trans.
Qed.

Lemma steal_spec L r (H : py_heap -> Prop) T :
  spec (W := W) lent L (orefs r) (fun s => H (heap s)) (steal r) (fun _ => ∅) (fun _ s => H (heap s)) T.
Proof.
  apply spec_primitive; [|apply primitive_steal]. eapply owns_mono; [apply owns_steal|multiset_solver].
Qed.

Lemma enter_new type : promises (EnterNew type).
Proof.
  intros busy L x s F HL Hs (Hx & Hwf & Hb & _). cbn [enter].
  destruct (new_export_instance_run (fun u => PyType_GenericNew py u type) s) as
    [(o & s1 & H1 & Hh & Heap & Ho)|(s1 & H1 & Hh & Heap & _)]; [intros ? ? ? ?; apply generic_new_fresh| |];
    rewrite (eff_bind_run _ _ _ _ _ H1); rewrite Hx in *.
  - assert (undisturbed busy x (heap s1)) as Hu.
    { rewrite Heap. split; [by apply new_instance_wf|]. intros o' Ho'. cbn. rewrite lookup_insert_ne; [done|].
      intros <-. apply Ho. unfold used. set_solver. }
    apply (steal_spec L (Some o) (undisturbed busy x) _ s1 F HL); [rewrite Hh, Hs; simpl; multiset_solver|exact Hu].
  - cbn. rewrite Heap, Hh, Hs. by split_and!.
Qed.

Lemma enter_callable h : promises (EnterCallable h).
Proof.
  intros busy L x s F HL Hs (Hx & Hwf & Hb & _). cbn [enter]. subst x.
  pose proof (make_callable_spec py lent L ∅ h (fun _ => False) s F HL Hs Hwf) as Hm.
  pose proof (make_callable_keeps h s) as Hk. unfold mbind, eff_bind.
  destruct (make_callable py h s) as [[r|e| |] s1]; try done; [|by destruct Hm as (_ & _ & [])]. destruct Hm as [Hh Hwf1].
  apply (steal_spec L r (undisturbed busy (heap s)) _ s1 F HL); [rewrite Hh; multiset_solver|].
  split; [done|]. intros o _. simpl in Hk. by rewrite Hk.
Qed.

Lemma enter_callable_dealloc self : promises (EnterCallableDealloc self).
Proof.
  intros busy L x s F HL Hs (Hx & Hwf & Hb & [p Hp]%elem_of_dom). subst x. cbn [enter].
  rewrite (callable_dealloc_run self p s Hwf Hp). split; [done|]. split; [by apply callable_dealloc_wf|done].
Qed.

Lemma enter_dealloc type self : promises (EnterDealloc type self).
Proof.
  intros busy L x s F HL Hs (Hx & Hwf & Hb & Hi & Hself). cbn [enter].
  apply elem_of_dom in Hi as [i Hi]. unfold mbind, eff_bind, acquire.
  set (s0 := mk_py _ _ _ _). destruct (export_instance_dealloc_run py type self i s0) as (s1 & Hh & Heap & ->); [by rewrite <- Hx in Hwf|done|].
  destruct (xdecref_run py lent (Some type) s1 F ∅) as (s2 & Hd & Hs2 & Heap2).
  { rewrite Hh. cbn. rewrite Hs. multiset_solver. }
  simpl in Hd |- *. rewrite Hd, Heap2, Heap, Hs2. cbn. rewrite Hx. split; [multiset_solver|].
  split; [by apply without_instance_wf|]. intros o Ho. cbn. rewrite lookup_delete_ne; [done|]. by intros ->.
Qed.

Lemma enter_user n : promises (UserCode n).
Proof.
  intros busy L x s F HL Hs (Hx & Hwf & Hb & _). pose proof (user_steps n L x Hwf s F HL Hs Hx) as Hu. cbn [enter].
  destruct (user n s) as [[[]|e| |] s1]; try done; destruct_and?; split_and!; try done; by apply undisturbed_steady.
Qed.

(** An initialiser keeps the object busy while its body runs. *)
Lemma enter_init_promises class self body : body_promises body -> promises (EnterInit class self body).
Proof.
  intros Hbody busy L x s F HL Hs (Hx & Hwf & Hb & Hp). rewrite permitted_init in Hp. destruct Hp as (Hi & Hself & Hp).
  apply elem_of_dom in Hi as [i Hi]. rewrite enter_init. rewrite Hx in Hi, Hp.
  set (I := fun s' : state => heap s' = x /\ (destroy i = None -> permitted_all ({[ self ]} ∪ busy) body s')).
  assert (spec lent L ({[+ self +]}) I
    (contained py (with_ref py (Some self)
      (object ← construct_export_object_impl (N := N) py lent (fun _ _ => enter_all body) class self []; Py_XDECREF py object)))
    (fun _ => ∅) (fun _ s => undisturbed busy x (heap s)) (fun _ => False)) as Hsp.
  { apply spec_contained. eapply (spec_from _ _ (∅ ⊎ orefs (Some self))); [|simpl; multiset_solver].
    apply (spec_with_ref py lent L ∅ _ (Some self) _ (fun _ => ∅) (fun _ => undisturbed busy x) (undisturbed busy x)).
    eapply spec_bind; [eapply spec_weaken;
      [apply (construct_native_spec py lent _ (objs (Some self) ∪ L) class self [] i I (undisturbed ({[ self ]} ∪ busy) x))|
       done|done|by intros s' Hs'; exact Hs'|intros r s' Hr; exact Hr|]|].
    - intros s' [-> _]. by split_and!.
    - intros y [Hwy Hy]. split; [done|]. rewrite Hy by set_solver. done.
    - right. simpl. set_solver.
    - intros Hd. eapply spec_weaken; [apply (Hbody ({[ self ]} ∪ busy) _ x)|done|done| |by intros [] s' Hs'; exact Hs'|done].
      intros s' [-> Hp']. split_and!; [done|done| |by apply Hp'].
      apply elem_of_dom_2 in Hi. set_solver.
    - intros s' [Hwy Hy]. split; [done|]. intros o Ho. apply Hy. set_solver.
    - intros r. eapply spec_weaken; [apply (spec_primitive lent _ (orefs r) (Py_XDECREF py r) (fun _ => ∅) (undisturbed busy x));
        [eapply owns_mono; [apply owns_xdecref|multiset_solver]|apply primitive_xdecref]|done|done| |done|by intros s' Hs'; exact Hs'].
      intros s' (_ & Hd & y & [Hwy Hy] & ->). assert (instances y !! self = Some i) as Hiy by (rewrite Hy by set_solver; done).
      split; [by eapply initialised_wf|]. intros o Ho. cbn. rewrite lookup_insert_ne by (by intros ->). apply Hy. set_solver. }
  specialize (Hsp (acquire self s).2 F HL ltac:(cbn; rewrite Hs; multiset_solver) ltac:(split; [done|by intros Hd; apply Hp; rewrite Hi])).
  unfold mbind at 1, eff_bind at 1. change (acquire self s) with (Ok tt, (acquire self s).2). cbv beta iota.
  match goal with |- context [contained py ?m ?s0] => destruct (contained py m s0) as [[[]|e| |] s1] end; try done.
  by destruct Hsp as (_ & _ & []).
Qed.

Lemma enter_scope_promises o body : body_promises body -> promises (UserScope o body).
Proof.
  intros Hbody busy L x s F HL Hs (Hx & Hwf & Hb & Hp). rewrite permitted_scope in Hp. rewrite enter_scope.
  pose proof (spec_with_ref py lent L ∅ _ (Some o) (enter_all body) (fun _ => ∅) (fun _ => undisturbed busy x) (undisturbed busy x)
    (Hbody busy _ x)) as Hsp.
  assert (held (acquire o s).2 = F ⊎ (∅ ⊎ orefs (Some o))) as Hh by (unfold acquire; cbn [snd held orefs]; rewrite Hs; multiset_solver).
  specialize (Hsp (acquire o s).2 F HL Hh (conj Hx (conj Hwf (conj Hb Hp)))).
  unfold mbind, eff_bind. change (acquire o s) with (Ok tt, (acquire o s).2). cbv beta iota.
  destruct (with_ref py (Some o) (enter_all body) (acquire o s).2) as [[[]|e| |] s1]; try done. destruct_and?. by split_and!.
Qed.

Lemma enter_promises e : promises e.
Proof.
  induction e as [| | | | |class self body IH|o body IH] using entry_nested_ind;
    auto using enter_scope_promises,  enter_new, enter_dealloc, enter_callable, enter_callable_dealloc, enter_user, enter_init_promises, enter_all_promises.
Qed.

Lemma runs_wf l s s' : runs l s s' -> heap_wf (heap s) -> heap_wf (heap s') /\ held s' = held s.
Proof.
  induction 1 as [|e l s s1 s' He Hrun _ IH]; intros Hwf; [done|].
  pose proof (enter_promises e ∅ ∅ (heap s) s (held s) ltac:(intros ? ?; set_solver) ltac:(multiset_solver)
    ltac:(split_and!; [done|done|set_solver|done])) as Hsp.
  rewrite Hrun in Hsp. destruct Hsp as [Hh [Hw _]]. destruct (IH Hw) as [? Hh']. split; [done|]. rewrite Hh', Hh. multiset_solver.
Qed.

(** An initialiser that is entered again while it runs builds the outer native over the
    inner one: the guard against a second initialisation reads [destroy], which is only set
    after the constructor of the native has run. *)
Lemma reentered_undefined class self body i s s1 :
  instances (heap s) !! self = Some i -> destroy i = None ->
  enter_all body (acquire self s).2 = (Ok tt, s1) -> is_Some (natives (heap s1) !! self) ->
  (enter (EnterInit class self body) s).1 = Undefined.
Proof.
  intros Hi Hd Hbody [c Hn]. rewrite enter_init. unfold mbind at 1, eff_bind at 1, contained, with_ref.
  change (acquire self s) with (Ok tt, (acquire self s).2). cbv beta iota. set (s0 := (acquire self s).2) in *.
  assert (instance_at self s0 = (Ok i, s0)) as Hat by (unfold instance_at, gets, mbind, eff_bind; cbn; by rewrite Hi).
  unfold construct_export_object_impl, mbind at 1, eff_bind at 1. rewrite (eff_bind_run _ _ _ _ _ Hat), Hd.
  rewrite (eff_bind_run _ _ _ _ _ Hbody). unfold place_native, gets, mbind, eff_bind. by rewrite Hn.
Qed.

(** C18: However the interpreter interleaves and nests allocations, initialisations (also
    repeated ones and ones that fail), deallocations and the making of callables, as long as
    no initialiser is entered for an object whose initialiser still runs, C++ owns no
    reference more or less than before, every native lives in the one instance that was
    initialised with it and is destroyed exactly with that instance, and every holder with
    its callable: nothing is destroyed twice or built over, and nothing is left when the
    objects are gone. Whatever the interpreter does next is defined and lets no exception
    out. The condition is needed: an initialiser whose body has initialised the same object
    builds over its native. *)
Theorem export_lifetimes l s s' :
  heap_wf (heap s) -> runs l s s' ->
  held s' = held s /\
  (forall o, natives (heap s') !! o = instances (heap s') !! o ≫= destroy) /\
  (instances (heap s') = ∅ -> natives (heap s') = ∅) /\
  (callables (heap s') = ∅ -> holders (heap s') = ∅) /\
  (forall e, ~ is_user e -> permitted ∅ e s' -> (enter e s').1 = Ok tt \/ (enter e s').1 = Aborted) /\
  (forall class self body i s1, instances (heap s') !! self = Some i -> destroy i = None ->
     enter_all body (acquire self s').2 = (Ok tt, s1) -> is_Some (natives (heap s1) !! self) ->
     (enter (EnterInit class self body) s').1 = Undefined).
Proof.
  intros Hwf Hrun. destruct (runs_wf _ _ _ Hrun Hwf) as [Hw Hh]. split; [done|].
  pose proof (wf_native _ Hw) as Hnat. split; [done|]. split_and!.
  - intros He. apply map_eq. intros o. by rewrite Hnat, He, !lookup_empty.
  - intros He. apply map_eq. intros p. rewrite lookup_empty. destruct (holders (heap s') !! p) as [h|] eqn:Hp; [|done].
    destruct (wf_owner _ Hw _ _ Hp) as [o Ho]. by rewrite He, lookup_empty in Ho.
  - intros e Hu He. pose proof (enter_promises e ∅ ∅ (heap s') s' (held s') ltac:(intros ? ?; set_solver) ltac:(multiset_solver)
      ltac:(split_and!; [done|done|set_solver|done])) as Hsp.
    destruct (enter e s') as [[[]|ex| |] s2]; simpl; try done; [by left|by destruct Hsp as (_ & _ & ? & _)|by right].
  - intros class self body i s1. apply reentered_undefined.
Qed.
End Entries.

(** ** The storage of the native inside an instance *)

Lemma clear_low_bits x k :
  0 <= k <= 64 -> 0 <= x < u64_modulus -> Z.land x (Z.lxor (2 ^ k - 1) (u64_modulus - 1)) = x / 2 ^ k * 2 ^ k.
Proof.
  intros Hk Hx. rewrite <- Z.shiftr_div_pow2, <- Z.shiftl_mul_pow2 by lia.
  apply Z.bits_inj'. intros i Hi. unfold u64_modulus in *.
  rewrite Z.land_spec, Z.lxor_spec. rewrite !(Z.sub_1_r (2 ^ _)), <- !Z.ones_equiv.
  rewrite !Z.testbit_ones by lia. destruct (Z.ltb_spec i k) as [Hik|Hik].
  - rewrite Z.shiftl_spec_low by done. rewrite (proj2 (Z.ltb_lt i 64)) by lia.
    rewrite (proj2 (Z.leb_le 0 i)) by done. by rewrite andb_false_r.
  - rewrite Z.shiftl_spec, Z.shiftr_spec by lia. replace (i - k + k) with i by lia.
    rewrite (proj2 (Z.leb_le 0 i)) by done. destruct (Z.ltb_spec i 64); [by rewrite andb_true_r|].
    rewrite andb_false_r. symmetry. destruct (decide (x = 0)) as [->|]; [apply Z.testbit_0_l|].
    apply Z.bits_above_log2; [lia|]. apply Z.log2_lt_pow2; [lia|]. eapply Z.lt_le_trans; [apply Hx|].
    apply Z.pow_le_mono_r; lia.
Qed.

(** C36: The native of an instance is aligned and lies between the header and the end of the
    instance, at whatever address the interpreter allocates an instance of the size that the
    class asks for. *)
Theorem export_instance_storage_fits address size k :
  0 <= k <= 30 -> 0 < size -> export_instance_size + size + 2 ^ k - 1 < 2 ^ 31 ->
  0 <= address -> address + basicsize size (2 ^ k) <= u64_modulus ->
  let storage := export_instance_storage (address + export_instance_size) (2 ^ k) in
  storage mod 2 ^ k = 0 /\ address + export_instance_size <= storage /\
  storage + size <= address + basicsize size (2 ^ k).
Proof.
  intros Hk Hsize Hfit Ha Hend storage. assert (0 < 2 ^ k) as Hp by (apply Z.pow_pos_nonneg; lia).
  assert (basicsize size (2 ^ k) = export_instance_size + size + 2 ^ k - 1) as Hb.
  { unfold basicsize, export_instance_size in *. rewrite Z.mod_small; lia. }
  rewrite Hb in Hend |- *. unfold export_instance_size in *.
  assert (storage = (address + 40 + 2 ^ k - 1) / 2 ^ k * 2 ^ k) as ->.
  { unfold storage, export_instance_storage. rewrite (Z.mod_small (_ - 1)) by lia. apply clear_low_bits; lia. }
  rewrite Z.mod_mul by lia.
  pose proof (Z.div_mod (address + 40 + 2 ^ k - 1) (2 ^ k)) as Hdiv.
  pose proof (Z.mod_pos_bound (address + 40 + 2 ^ k - 1) (2 ^ k)) as Hmod. lia.
Qed.

(** ** A run of the interpreter *)

Module LifetimeSample.
Definition empty_heap : py_heap := mk_heap false ∅ ∅ ∅ ∅ ∅.
Definition start : py_state nat py_heap := SampleInterpreter.owning empty_heap [7%nat; 7%nat].
Definition interp := SampleInterpreter.interp true true.
#[global] Instance interp_fresh : FreshAllocation interp := SampleInterpreter.sample_fresh true true.
Definition construct_native (class : nat) (args : list nat) : eff (py_state nat py_heap) unit :=
  match args with [] => throw (std_exception (lit "no arguments")) | _ => mret tt end.

Lemma empty_heap_wf : heap_wf empty_heap.
Proof. split; intros *; cbn; rewrite ?lookup_empty; naive_solver. Qed.
Lemma construct_user class args :
  user_code SampleInterpreter.lent (construct_native class args) (fun _ => ∅) (fun _ _ => True).
Proof.
  intros L x Hwf s F _ Hs Hx. unfold construct_native.
  destruct args; cbn; rewrite Hx; split_and!; auto using steady_refl.
Qed.

(** A step of the user that returns, or throws. *)
Definition user (n : nat) : eff (py_state nat py_heap) unit :=
  match n with O => mret tt | S _ => throw (std_exception (lit "user")) end.
Lemma user_steps n : user_code SampleInterpreter.lent (user n) (fun _ => ∅) (fun _ _ => True).
Proof. intros L x Hwf s F _ Hs Hx. destruct n; cbn; rewrite Hx; split_and!; auto using steady_refl. Qed.

Abbreviation enter := (enter interp SampleInterpreter.lent user).
(** An initialisation that fails, one that makes and initialises another instance, a
    second one of the same object, a callable, the ends of the instances. *)
Definition history : list (entry nat) :=
  [EnterNew 2%nat; EnterInit 5%nat 0%nat [UserCode 1%nat];
   EnterInit 5%nat 0%nat [UserCode 0%nat; UserScope 0%nat [EnterNew 2%nat; EnterInit 6%nat 1%nat [UserCode 0%nat]]];
   EnterInit 5%nat 0%nat []; EnterCallable (typed_callable_holder 2 9); EnterDealloc 2%nat 0%nat; EnterDealloc 2%nat 1%nat;
   EnterCallableDealloc 2%nat].
Fixpoint exec (l : list (entry nat)) s :=
  match l with
  | [] => s
  | e :: l => exec l (enter e s).2
  end.
Ltac permit :=
  repeat lazymatch goal with
  | |- True => exact I
  | |- _ /\ _ => split
  | |- _ ∈ dom _ => apply elem_of_dom; vm_compute; by eexists
  | |- _ ∉ _ => set_solver
  | |- _ = _ => by vm_compute
  | |- _ = _ -> _ => let H := fresh in intros H; vm_compute in H; try discriminate H; clear H
  | |- forall s', @?P s' => let H := fresh in intros ? H; vm_compute in H; simplify_eq
  | |- _ => progress hnf
  end.
Lemma history_runs : runs interp SampleInterpreter.lent user history start (exec history start).
Proof.
  unfold history. cbn [exec].
  repeat (eapply runs_cons; [permit|vm_compute; reflexivity|]). apply runs_nil.
Qed.

(** An initialiser that is entered again from its own constructor. *)
Example reentrant_init :
  (enter (EnterInit 5%nat 0%nat [EnterInit 5%nat 0%nat []]) (enter (EnterNew 2%nat) start).2).1 = Undefined.
Proof. by vm_compute. Qed.
End LifetimeSample.

Lemma export_lifetimes_witness :
  held (LifetimeSample.exec LifetimeSample.history LifetimeSample.start) = held LifetimeSample.start /\
  natives (heap (LifetimeSample.exec LifetimeSample.history LifetimeSample.start)) = ∅.
Proof.
  pose proof (export_lifetimes LifetimeSample.interp SampleInterpreter.lent LifetimeSample.user
    LifetimeSample.user_steps _ LifetimeSample.start _ LifetimeSample.empty_heap_wf LifetimeSample.history_runs) as (Hh & _ & Hn & _).
  split; [exact Hh|]. apply Hn. vm_compute. reflexivity.
Defined.

Lemma export_instance_storage_fits_witness :
  let storage := export_instance_storage (4099 + export_instance_size) (2 ^ 4) in
  storage mod 2 ^ 4 = 0 /\ 4099 + export_instance_size <= storage /\ storage + 24 <= 4099 + basicsize 24 (2 ^ 4).
Proof. apply (export_instance_storage_fits 4099 24 4); vm_compute; (split; congruence) || congruence. Defined.
