(* ===== verification/PythonCallbacks.v ===== *)
(** * backends/python.h: what the entries promise the interpreter

    A callback returns a new reference, or null with an exception set; nothing else leaves
    it and nothing else is kept. The vector call of a class puts the array of its caller
    back. Definitions of functions and classes keep the references of what they publish. *)

From Stdlib Require Import ZArith Lia.
From stdpp Require Import base list gmap gmultiset.
From S2P Require Import Prelude PythonRefs PythonCall PythonObjects PythonLifetime.

(** The array at [a] holds [l]. *)
Definition cells (x : py_heap) (a : Z) (l : list obj) : Prop :=
  forall i o, l !! i = Some o -> memory x !! (a + Z.of_nat i) = Some (Some o).

(** What an entry leaves: a good heap with the instances that were there, and the arrays as
    they were. *)
Definition grown (x y : py_heap) : Prop :=
  heap_wf y /\ dom (instances x) ⊆ dom (instances y) /\ memory y = memory x.
Lemma steady_grown x y : steady x y -> grown x y.
Proof. intros (Hw & Hi & Hm). split_and!; [done|by apply subseteq_dom|done]. Qed.
Lemma grown_refl x : heap_wf x -> grown x x.
Proof. unfold grown. auto. Qed.
Lemma grown_trans x y z : grown x y -> grown y z -> grown x z.
Proof. intros (_ & H1 & M1) (Hw & H2 & M2). split; [done|]. split; [set_solver|congruence]. Qed.

Section Callbacks.
Context {W N : Type} (py : interpreter W) (lent : gset obj).
Abbreviation M := (eff (py_state W py_heap)).
Abbreviation state := (py_state W py_heap).
Context `{!FinalizersKeepError py}.

(** The contract of a callback, and of its body, which may also throw. *)
Definition callback (L : gset obj) (x : py_heap) (m : M (option obj)) : Prop :=
  spec lent L ∅ (fun s => heap s = x) m orefs
    (fun r s => grown x (heap s) /\ (r = None -> pending s ≠ None)) (fun _ => False).
Definition callback_body (L : gset obj) (x : py_heap) (m : M (option obj)) : Prop :=
  spec lent L ∅ (fun s => heap s = x) m orefs
    (fun r s => grown x (heap s) /\ (r = None -> pending s ≠ None)) (fun s => grown x (heap s)).

Lemma callback_is_body L x m : callback L x m -> callback_body L x m.
Proof. intros Hm. eapply spec_weaken; [exact Hm|done|done|done|done|done]. Qed.

(** A callback that first asks the interpreter something. *)
Lemma asks_callback {B} L x (f : W -> B) (k : B -> M (option obj)) :
  (forall w, callback L x (k (f w))) -> callback L x (asks f ≫= k).
Proof. intros Hk s F HL Hs Hx. by apply (Hk (world s)). Qed.

(** ** The error indicator *)

Definition keeps_pending {A} (m : M A) : Prop := forall s, pending (m s).2 = pending s.
Lemma keeps_pending_bind {A B} (m : M A) (f : A -> M B) :
  keeps_pending m -> (forall a, keeps_pending (f a)) -> keeps_pending (m ≫= f).
Proof.
  intros Hm Hf s. specialize (Hm s). unfold mbind, eff_bind. destruct (m s) as [[a| | |] s']; simpl in *; try done.
  by rewrite Hf.
Qed.
Lemma keeps_pending_xdecref o : keeps_pending (Py_XDECREF py o).
Proof.
  destruct o as [o|]; [|by intros s]. simpl. apply keeps_pending_bind.
  - intros s. unfold give_away. by destruct (decide _).
  - intros [] s. unfold run_finalizer. pose proof (finalize_keeps o (world s) (pending s)) as Hk.
    destruct (finalize py o (world s) (pending s)) as [w e]. exact Hk.
Qed.
Lemma keeps_pending_destroy e : keeps_pending (destroy_exception py e).
Proof.
  destruct e; simpl; try by intros s.
  apply keeps_pending_bind; [apply keeps_pending_xdecref|intros []].
  apply keeps_pending_bind; [apply keeps_pending_xdecref|intros []]. apply keeps_pending_xdecref.
Qed.

Lemma restore_primitive e : primitive (restore (W := W) (C := py_heap) lent e).
Proof.
  destruct e; simpl; try apply primitive_ret.
  do 3 (apply primitive_bind; [apply primitive_xincref|intros []]). unfold PyErr_Restore.
  do 3 (apply primitive_bind; [apply primitive_steal|intros []]). by intros s.
Qed.
Lemma restore_pending m t v b (s s' : state) :
  restore lent (python_error m (Some t) v b) s = (Ok tt, s') -> pending s' = Some (mk_err (Some t) v b).
Proof.
  unfold restore, PyErr_Restore.
  intros ([] & s1 & _ & ([] & s2 & _ & ([] & s3 & _ & H)%eff_bind_Ok)%eff_bind_Ok)%eff_bind_Ok.
  revert H. intros ([] & s4 & _ & ([] & s5 & _ & ([] & s6 & _ & H)%eff_bind_Ok)%eff_bind_Ok)%eff_bind_Ok.
  unfold set_indicator in H. by simplify_eq.
Qed.

(** What the handlers leave: the indicator, and no exception. *)
Definition indicator (e : exn) (fallback : string) (p : option err) : Prop :=
  match e with
  | python_error _ t v b => p = Some (mk_err t v b)
  | bad_conversion m => exists w, p = Some (make_error py (PyExc_TypeError py) m w).2
  | foreign_exception => exists w, p = Some (make_error py (PyExc_RuntimeError py) (lit fallback) w).2
  | protocol_error m | remote_error m | runtime_error m | length_error m | std_exception m =>
      exists w, p = Some (make_error py (PyExc_RuntimeError py) m w).2
  end.

Lemma set_string_run t m (s : state) :
  exists s', PyErr_SetString py t m s = (Ok tt, s') /\ held s' = held s /\ heap s' = heap s /\
    pending s' = Some (make_error py t m (world s)).2.
Proof. unfold PyErr_SetString. destruct (make_error py t m (world s)) as [w e]. by eexists. Qed.

Lemma handle_run fallback e F (s : state) :
  proper e -> held s = F ⊎ exn_refs e ->
  exists s', handle py lent fallback e s = (Ok tt, s') /\ held s' = F /\ heap s' = heap s /\
    indicator e fallback (pending s').
Proof.
  intros Hp Hs.
  assert (exists s1, match e with
    | python_error _ _ _ _ => restore lent e
    | bad_conversion m => PyErr_SetString py (PyExc_TypeError py) m
    | foreign_exception => PyErr_SetString py (PyExc_RuntimeError py) (lit fallback)
    | protocol_error m | remote_error m | runtime_error m | length_error m | std_exception m =>
        PyErr_SetString py (PyExc_RuntimeError py) m
    end s = (Ok tt, s1) /\ held s1 = held s /\ heap s1 = heap s /\ indicator e fallback (pending s1)) as (s1 & H1 & Hh & Hx & Hi).
  { destruct e as [m|m|m|m|m|m|m [t|] v b|]; try (destruct (set_string_run (PyExc_RuntimeError py) m s) as (s1 & ? & ? & ? & ?);
      exists s1; split_and!; [done..|by eexists]).
    - destruct (set_string_run (PyExc_TypeError py) m s) as (s1 & ? & ? & ? & ?). exists s1. split_and!; [done..|by eexists].
    - pose proof (owns_restore lent ∅ (python_error m (Some t) v b) s F ltac:(intros ? ?; set_solver) Hs) as Ho.
      pose proof (restore_primitive (python_error m (Some t) v b) s) as [Heap Hk].
      destruct (restore lent (python_error m (Some t) v b) s) as [[[]|e| |] s1] eqn:Hr; try done.
      exists s1. split_and!; [done|by rewrite Ho, Hs|done|]. by apply restore_pending in Hr.
    - done.
    - destruct (set_string_run (PyExc_RuntimeError py) (lit fallback) s) as (s1 & ? & ? & ? & ?). exists s1.
      split_and!; [done..|by eexists]. }
  unfold handle. rewrite (eff_bind_run _ _ _ _ _ H1).
  pose proof (owns_destroy_exception py lent ∅ e s1 F ltac:(intros ? ?; set_solver)) as Ho. rewrite Hh in Ho. specialize (Ho Hs).
  pose proof (primitive_destroy_exception py e s1) as [Heap Hk]. pose proof (keeps_pending_destroy e s1) as Hpend.
  destruct (destroy_exception py e s1) as [[[]|e'| |] s2]; try done. exists s2. simpl in *. split_and!; [done|..].
  - rewrite Ho. multiset_solver.
  - congruence.
  - by rewrite Hpend.
Qed.

Lemma indicator_set e fallback p : indicator e fallback p -> p ≠ None.
Proof. destruct e; simpl; try (intros [w ->]; done). by intros ->. Qed.

Lemma catching_spec L x fallback body : callback_body L x body -> callback L x (catching py lent fallback body).
Proof.
  intros Hb s F HL Hs Hx. specialize (Hb s F HL Hs Hx). unfold catching.
  destruct (body s) as [[r|e| |] s1]; try done. destruct Hb as (Hh & Hp & Hg).
  destruct (handle_run fallback e F s1 Hp Hh) as (s2 & H2 & Hh2 & Heap & Hi).
  rewrite (eff_bind_run _ _ _ _ _ H2). simpl. rewrite Heap. split_and!; [simpl; multiset_solver|done|].
  intros _. by eapply indicator_set.
Qed.

Lemma type_error_spec L x message : heap_wf x -> callback L x (type_error py message).
Proof.
  intros Hwf s F _ Hs Hx. destruct (set_string_run (PyExc_TypeError py) (lit message) s) as (s1 & H1 & Hh & Heap & Hp).
  unfold type_error. rewrite (eff_bind_run _ _ _ _ _ H1). simpl. rewrite Heap, Hx, Hp, Hh, Hs.
  split_and!; [simpl; multiset_solver|by apply grown_refl|done].
Qed.
Context `{!FreshAllocation py} (none_lent : Py_None py ∈ lent).

Lemma return_none_spec L x : heap_wf x -> callback L x (return_none py lent).
Proof.
  intros Hwf. eapply spec_bind.
  - apply (spec_primitive lent L ∅ (Py_INCREF lent (Some (Py_None py))) _ (fun y => y = x)); [|apply primitive_incref].
    apply owns_incref. by left.
  - intros []. apply spec_ret; [simpl; multiset_solver|]. intros s ->. by split; [apply grown_refl|].
Qed.

(** ** Reading the arguments *)

Lemma read_cells_run a l (s : state) : cells (heap s) a l -> read_cells a (length l) s = (Ok l, s).
Proof.
  revert a. induction l as [|o l IH]; intros a Hc; [done|]. cbn [read_cells length].
  assert (read_cell a s = (Ok o, s)) as H1.
  { unfold read_cell, gets, mbind, eff_bind. simpl. pose proof (Hc 0%nat o eq_refl) as H0.
    replace (a + Z.of_nat 0) with a in H0 by lia. by rewrite H0. }
  rewrite (eff_bind_run _ _ _ _ _ H1). rewrite (eff_bind_run _ _ s l s); [done|]. apply IH.
  intros i o' Ho'. specialize (Hc (S i) o' Ho'). by replace (a + 1 + Z.of_nat i) with (a + Z.of_nat (S i)) by lia.
Qed.

Lemma after_run {A B} L x (m : M A) (f : A -> M B) a Q J T :
  (forall s, heap s = x -> m s = (Ok a, s)) ->
  spec lent L ∅ (fun s => heap s = x) (f a) Q J T -> spec lent L ∅ (fun s => heap s = x) (m ≫= f) Q J T.
Proof. intros Hm Hf s F HL Hs Hx. rewrite (eff_bind_run _ _ _ _ _ (Hm s Hx)). by apply Hf. Qed.

Lemma asks_spec {A B} L x (f : W -> A) (k : A -> M B) Q J T :
  (forall w, spec lent L ∅ (fun s => heap s = x /\ f (world s) = f w) (k (f w)) Q J T) ->
  spec lent L ∅ (fun s => heap s = x) (asks f ≫= k) Q J T.
Proof. intros Hk s F HL Hs Hx. apply (Hk (world s)); auto. Qed.

(** ** The code of the user *)

Context (export_class : nat -> option obj).
Context (convert : nat -> list obj -> M (list N)) (construct_native : nat -> list N -> M unit).
Context (binder_call : nat -> list obj -> M (option obj)) (is_void : nat -> bool).
Context (dispatch_optional : nat -> list obj -> M (option (option obj))).
Context (convert_user : forall class l, user_code lent (convert class l) (fun _ => ∅) (fun _ _ => True)).
Context (construct_user : forall class args, user_code lent (construct_native class args) (fun _ => ∅) (fun _ _ => True)).
Context (binder_user : forall b l, user_code lent (binder_call b l) orefs
  (fun r s => is_void b = false -> r = None -> pending s ≠ None)).
Context (dispatch_user : forall b l, user_code lent (dispatch_optional b l) (fun r => orefs (default None r))
  (fun r s => r = Some None -> pending s ≠ None)).
(** A binder of a function without a result returns none. *)
Context (void_result : forall b l s, is_void b = true ->
  match binder_call b l s with (Ok (Some _), _) => False | _ => True end).

Abbreviation invoke_vector := (invoke_vector py lent export_class convert construct_native binder_call is_void dispatch_optional).
Abbreviation invoke_tuple := (invoke_tuple py lent export_class convert construct_native binder_call is_void dispatch_optional).
Abbreviation call_indices := (call_indices py lent binder_call is_void).
Abbreviation construct := (construct py lent export_class convert construct_native).

Lemma call_indices_spec L x b l : heap_wf x -> callback_body L x (call_indices b l).
Proof.
  intros Hwf. unfold PythonObjects.call_indices. destruct (is_void b) eqn:Hv.
  - eapply (spec_bind _ _ _ _ _ _ (fun _ => ∅) (fun _ s => steady x (heap s))).
    { intros s F HL Hs Hx. pose proof (binder_user b l L x Hwf s F HL Hs Hx) as Hb.
      pose proof (void_result b l s Hv) as Hr. destruct (binder_call b l s) as [[[o|]|e| |] s']; try done.
      - by destruct Hb as (Hh & Hst & _).
      - destruct Hb as (Hh & Hp & Hst). split_and!; [done|done|by apply steady_grown]. }
    intros _r s F HL Hs Hst. pose proof (return_none_spec L (heap s) ltac:(apply Hst) s F HL Hs eq_refl) as Hn.
    destruct (return_none py lent s) as [[r|e| |] s']; try done.
    + destruct Hn as (Hh & Hg & Hp). split_and!; [done| |done]. eapply grown_trans; [by apply steady_grown|done].
    + by destruct Hn as (_ & _ & []).
  - eapply spec_weaken; [by apply binder_user|done|done|done| |].
    + intros r s [Hst Hp]. split; [by apply steady_grown|]. auto.
    + intros s. apply steady_grown.
Qed.

Lemma dispatch_spec L x b l :
  heap_wf x -> callback_body L x (result ← dispatch_optional b l; unwrap_result py result).
Proof.
  intros Hwf. eapply spec_bind.
  { eapply spec_weaken; [by apply dispatch_user|done|done|done|intros r s Hr; exact Hr|intros s; apply steady_grown]. }
  intros [r|]; simpl.
  - intros s F HL Hs [Hst Hp]. simpl. split_and!; [done|by apply steady_grown|]. intros ->. auto.
  - intros s F HL Hs [Hst _]. pose proof (type_error_spec L (heap s) "dynabridge Python overload has no matching signature"
      ltac:(apply Hst) s F HL Hs eq_refl) as Hn.
    destruct (type_error py _ s) as [[r|e| |] s']; try done.
    + destruct Hn as (Hh & Hg & Hp). split_and!; [done| |done]. eapply grown_trans; [by apply steady_grown|done].
    + by destruct Hn as (_ & _ & []).
Qed.

(** What a constructor may rely on: a first argument that passes for an instance is one. *)
Definition receiver_ok (L : gset obj) (x : py_heap) (class : nat) (self : obj) : Prop :=
  (self ∈ lent \/ self ∈ L) /\
  forall t w, export_class class = Some t -> PyObject_TypeCheck py self t w = true -> self ∈ dom (instances x).

Lemma construct_spec L x class self args :
  heap_wf x -> receiver_ok L x class self -> callback L x (construct class self args).
Proof.
  intros Hwf [Hlive Hok]. apply catching_spec. unfold export_target. destruct (export_class class) as [t|] eqn:Ht.
  2: { intros s F HL Hs Hx. simpl. rewrite Hx. split_and!; [multiset_solver|done|by apply grown_refl]. }
  apply (after_run _ _ _ _ t); [done|]. apply asks_spec. intros w. destruct (PyObject_TypeCheck py self t w) eqn:Hc.
  2: { eapply spec_weaken; [apply callback_is_body, type_error_spec; exact Hwf|done|done|by intros s [? _]|done|done]. }
  cbn [negb]. assert (self ∈ dom (instances x)) as [i Hi]%elem_of_dom by (by eapply Hok).
  eapply (spec_bind _ _ _ _ _ _ (fun _ => ∅) (fun _ s => steady x (heap s))).
  { eapply spec_weaken; [apply (convert_user class args L x Hwf)|done|done|by intros s [? _]|by intros r s [? _]|].
    intros s. apply steady_grown. }
  intros converted. intros s F HL Hs Hst. pose proof Hst as (Hwy & Hsub & Hm).
  assert (instances (heap s) !! self = Some i) as Hi' by (by eapply lookup_weaken).
  pose proof (construct_export_object_spec py lent construct_native construct_user L class self converted i (heap s)
    Hwy Hi' Hlive s F HL Hs eq_refl) as Hn. unfold mbind at 1, eff_bind at 1.
  destruct (construct_export_object_impl py lent construct_native class self converted s) as [[r|e| |] s1]; try done.
  - destruct Hn as (Hh & -> & _ & Hw1 & Hm1 & _ & Hd1).
    destruct (xdecref_run py lent (Some self) s1 F ∅) as (s2 & Hx2 & Hh2 & Heap2); [rewrite Hh; multiset_solver|].
    rewrite (eff_bind_run _ _ _ _ _ Hx2). rewrite <- Heap2 in Hw1.
    pose proof (return_none_spec L (heap s2) Hw1 s2 F HL ltac:(by rewrite Hh2) eq_refl) as Hn.
    destruct (return_none py lent s2) as [[r|e| |] s3]; try done; [|by destruct Hn as (_ & _ & [])].
    destruct Hn as (Hh3 & Hg & Hp). split_and!; [done| |done].
    eapply grown_trans; [by apply steady_grown|]. eapply grown_trans; [|done].
    rewrite Heap2 in *. split_and!; done.
  - destruct Hn as (Hh & Hp & Hst1). split_and!; [done|done|]. apply steady_grown. by eapply steady_trans.
Qed.

(** ** The entries *)

(** The arguments an entry is called with; a constructor gets its receiver first. *)
Definition callable_with (L : gset obj) (x : py_heap) (h : holder) (l : list obj) : Prop :=
  match h with
  | class_constructor_holder class _ => forall self rest, l = self :: rest -> receiver_ok L x class self
  | _ => True
  end.

Lemma construct_items_spec L x class arity l :
  heap_wf x -> callable_with L x (class_constructor_holder class arity) l -> length l = S arity ->
  callback L x (construct_items py lent export_class convert construct_native class l).
Proof. intros Hwf Hl Hlen. destruct l as [|self l]; [done|]. apply construct_spec; [done|]. by eapply Hl. Qed.

Lemma invoke_vector_spec L x h args nargsf kwnames l :
  heap_wf x -> cells x args l -> PyVectorcall_NARGS nargsf = zlen l -> callable_with L x h l ->
  callback L x (invoke_vector h args nargsf kwnames).
Proof.
  intros Hwf Hcells Hn Hl. assert (forall s : state, heap s = x -> read_cells args (length l) s = (Ok l, s)) as Hread.
  { intros s <-. by apply read_cells_run. }
  destruct h as [arity b|b|class arity]; simpl;
    unfold call_vector_signature, overload_call_vector, construct_vector;
    (destruct (has_keywords kwnames); [by apply type_error_spec|]); rewrite Hn; unfold zlen.
  - destruct (Z.eqb_spec (Z.of_nat (length l)) (Z.of_nat arity)) as [Heq|]; [|by apply type_error_spec].
    apply catching_spec. replace arity with (length l) by lia.
    apply (after_run _ _ _ _ l); [done|]. by apply call_indices_spec.
  - apply catching_spec. rewrite Nat2Z.id. apply (after_run _ _ _ _ l); [done|]. by apply dispatch_spec.
  - destruct (Z.eqb_spec (Z.of_nat (length l)) (Z.of_nat (S arity))) as [Heq|]; [|by apply type_error_spec].
    replace (S arity) with (length l) by lia. apply (after_run _ _ _ _ l); [done|].
    eapply construct_items_spec; [done|exact Hl|lia].
Qed.

Lemma invoke_tuple_spec L x h args :
  heap_wf x -> (forall l w, PyTuple_items py args w = Some l -> callable_with L x h l) ->
  callback L x (invoke_tuple h args).
Proof.
  intros Hwf Hl. destruct h as [arity b|b|class arity]; simpl;
    unfold call_signature, overload_call_tuple, construct_tuple; apply asks_callback; intros w;
    (destruct (PyTuple_items py args w) as [l|] eqn:Hw; [|by apply type_error_spec]).
  - destruct (Nat.eqb_spec (length l) arity); [|by apply type_error_spec].
    by apply catching_spec, call_indices_spec.
  - by apply catching_spec, dispatch_spec.
  - destruct (Nat.eqb_spec (length l) (S arity)) as [Heq|]; [|by apply type_error_spec].
    eapply construct_items_spec; [done|by eapply Hl|exact Heq].
Qed.

(** ** The array of a vector call *)

Definition with_memory (s : state) (m : gmap Z (option obj)) : state :=
  mk_py (held s) (pending s) (world s) (set_memory (fun _ => m) (heap s)).

Lemma set_memory_wf f x : heap_wf x -> heap_wf (set_memory f x).
Proof. intros []. by split. Qed.
Lemma set_memory_same x : set_memory (fun _ => memory x) x = x.
Proof. by destruct x. Qed.

Lemma write_cell_run a v (s : state) :
  is_Some (memory (heap s) !! a) -> write_cell a v s = (Ok tt, with_memory s (<[a := v]> (memory (heap s)))).
Proof. intros [c Hc]. unfold write_cell, gets, on_heap, mbind, eff_bind. by rewrite Hc. Qed.

Lemma copy_cells_run l : forall from to (s : state),
  cells (heap s) from l ->
  (forall i, 0 <= i < zlen l -> is_Some (memory (heap s) !! (to + i))) ->
  (forall i j, 0 <= i < zlen l -> 0 <= j < zlen l -> from + i ≠ to + j) ->
  exists m, copy_cells from to (length l) s = (Ok tt, with_memory s m) /\
    (forall i o, l !! i = Some o -> m !! (to + Z.of_nat i) = Some (Some o)) /\
    (forall a, a < to \/ to + zlen l <= a -> m !! a = memory (heap s) !! a).
Proof.
  induction l as [|o l IH]; intros from to s Hc Hto Hdis.
  - exists (memory (heap s)). split_and!; [|by intros|done]. unfold with_memory. rewrite set_memory_same. by destruct s.
  - rewrite zlen_cons in *. pose proof (zlen_nonneg l) as Hl. cbn [copy_cells length].
    assert (read_cell from s = (Ok o, s)) as H1.
    { unfold read_cell, gets, mbind, eff_bind. simpl. pose proof (Hc 0%nat o eq_refl) as H0.
      replace (from + Z.of_nat 0) with from in H0 by lia. by rewrite H0. }
    rewrite (eff_bind_run _ _ _ _ _ H1).
    assert (is_Some (memory (heap s) !! to)) as H2.
    { replace to with (to + 0) by lia. apply Hto. lia. }
    rewrite (eff_bind_run _ _ _ _ _ (write_cell_run to (Some o) s H2)).
    destruct (IH (from + 1) (to + 1) (with_memory s (<[to := Some o]> (memory (heap s))))) as (m & Hrun & Hm & Hout).
    + intros i o' Ho'. cbn. rewrite lookup_insert_ne.
      * replace (from + 1 + Z.of_nat i) with (from + Z.of_nat (S i)) by lia. by apply (Hc (S i)).
      * apply lookup_lt_Some in Ho'. intros Heq. apply (Hdis (Z.of_nat (S i)) 0); unfold zlen in *; lia.
    + intros i Hi. cbn. destruct (decide (to = to + 1 + i)); [lia|]. rewrite lookup_insert_ne by done.
      replace (to + 1 + i) with (to + (1 + i)) by lia. apply Hto. lia.
    + intros i j Hi Hj. specialize (Hdis (1 + i) (1 + j)). lia.
    + exists m. split_and!; [exact Hrun| |].
      * intros [|i] o' Ho'; simpl in Ho'.
        { simplify_eq. rewrite Hout by lia. cbn. replace (to + Z.of_nat 0) with to by lia. apply lookup_insert_eq. }
        replace (to + Z.of_nat (S i)) with (to + 1 + Z.of_nat i) by lia. by apply Hm.
      * intros a Ha. rewrite Hout by lia. cbn. apply lookup_insert_ne. lia.
Qed.

Lemma block_lookup a n i : block a n !! i = if decide (a <= i < a + Z.of_nat n) then Some None else None.
Proof.
  revert a. induction n as [|n IH]; intros a; cbn [block].
  - rewrite lookup_empty. destruct (decide _); [lia|done].
  - destruct (decide (i = a)) as [->|Hne].
    + rewrite lookup_insert_eq. destruct (decide _); [done|lia].
    + rewrite lookup_insert_ne, IH by done. destruct (decide _), (decide _); try done; lia.
Qed.

(** Nothing lives in the block yet. *)
Definition free_block (x : py_heap) (a : Z) (n : nat) : Prop :=
  forall i, a <= i < a + Z.of_nat n -> memory x !! i = None.

Lemma free_block_restores x a n m :
  free_block x a n -> (forall i, ~ (a <= i < a + Z.of_nat n) -> m !! i = memory x !! i) ->
  m ∖ block a n = memory x.
Proof.
  intros Hfree Hout. apply map_eq. intros i. rewrite lookup_difference, block_lookup.
  destruct (decide _) as [Hi|Hi]; [by rewrite Hfree|by apply Hout].
Qed.

Lemma callable_with_memory L x f h l : callable_with L x h l -> callable_with L (set_memory f x) h l.
Proof. by destruct h. Qed.

Lemma nargs_small n : 0 <= n < 2 ^ 63 -> PyVectorcall_NARGS n = n.
Proof.
  intros Hn. unfold PyVectorcall_NARGS. replace (2 ^ 63 - 1) with (Z.ones 63) by done.
  rewrite Z.land_ones by lia. by apply Z.mod_small.
Qed.

(** The constructor runs on the array [self :: l] at [a], whatever else the memory is. *)
Lemma invoke_on_array L x m a h self l kwnames :
  heap_wf x -> callable_with L x h (self :: l) -> zlen l + 1 < 2 ^ 63 ->
  m !! a = Some (Some self) -> (forall i o, l !! i = Some o -> m !! (a + 1 + Z.of_nat i) = Some (Some o)) ->
  callback L (set_memory (fun _ => m) x) (invoke_vector h a (zlen l + 1) kwnames).
Proof.
  intros Hwf Hl Hlen Ha Hm. pose proof (zlen_nonneg l). apply invoke_vector_spec with (l := self :: l).
  - by apply set_memory_wf.
  - intros [|i] o Ho; simpl in Ho; simplify_eq; unfold set_memory; cbn [memory].
    + by replace (a + Z.of_nat 0) with a by lia.
    + replace (a + Z.of_nat (S i)) with (a + 1 + Z.of_nat i) by lia. by apply Hm.
  - rewrite nargs_small, zlen_cons by lia. lia.
  - by apply callable_with_memory.
Qed.

(** A change of the memory around a callback that is undone afterwards. *)
Lemma memory_restored {R} L x (before : M unit) (body : M (option obj)) (after : option obj -> M R) m Q J s F :
  kept lent L F -> held s = F ⊎ ∅ -> heap s = x -> before s = (Ok tt, with_memory s m) ->
  callback L (set_memory (fun _ => m) x) body ->
  (forall r s, held s = F ⊎ orefs r -> memory (heap s) = m -> grown (set_memory (fun _ => m) x) (heap s) ->
     (r = None -> pending s ≠ None) ->
     exists a s', after r s = (Ok a, s') /\ held s' = F ⊎ Q a /\ J a s') ->
  match (before ;; r ← body; after r) s with
  | (Ok a, s') => held s' = F ⊎ Q a /\ J a s'
  | (Throw e, s') => held s' = F ⊎ exn_refs e /\ proper e /\ False
  | (Aborted, _) => True
  | (Undefined, _) => False
  end.
Proof.
  intros HL Hs Hx Hbefore Hbody Hafter. rewrite (eff_bind_run _ _ _ _ _ Hbefore).
  specialize (Hbody (with_memory s m) F HL Hs ltac:(simpl; by rewrite Hx)). unfold mbind at 1, eff_bind at 1.
  destruct (body (with_memory s m)) as [[r|e| |] s1]; try done.
  destruct Hbody as (Hh & Hg & Hp). destruct (Hafter r s1 Hh ltac:(apply Hg) Hg Hp) as (a & s2 & -> & Hh2 & HJ).
  by split.
Qed.

Lemma fill_buffer_run x buffer n self args l (s : state) :
  cells x args l -> free_block x buffer n -> (length l < n)%nat -> heap s = x ->
  exists m, (allocate buffer n ;; write_cell buffer (Some self) ;; copy_cells args (buffer + 1) (length l)) s
      = (Ok tt, with_memory s m) /\
    m !! buffer = Some (Some self) /\ (forall i o, l !! i = Some o -> m !! (buffer + 1 + Z.of_nat i) = Some (Some o)) /\
    (forall i, ~ (buffer <= i < buffer + Z.of_nat n) -> m !! i = memory x !! i).
Proof.
  intros Hc Hfree Hn Hx. set (m1 := block buffer n ∪ memory x).
  assert (forall i, m1 !! i = if decide (buffer <= i < buffer + Z.of_nat n) then Some None else memory x !! i) as Hm1.
  { intros i. unfold m1. destruct (decide (buffer <= i < buffer + Z.of_nat n)) as [Hi|Hi].
    - apply lookup_union_Some_l. rewrite block_lookup. by rewrite decide_True.
    - rewrite lookup_union_r; [done|]. rewrite block_lookup. by rewrite decide_False. }
  assert (allocate buffer n s = (Ok tt, with_memory s m1)) as H1 by (unfold m1; by rewrite <- Hx).
  rewrite (eff_bind_run _ _ _ _ _ H1).
  assert (is_Some (memory (heap (with_memory s m1)) !! buffer)) as H2.
  { cbn. rewrite Hm1, decide_True by lia. by eexists. }
  rewrite (eff_bind_run _ _ _ _ _ (write_cell_run buffer (Some self) _ H2)).
  set (s2 := with_memory _ _). assert (forall i, i ≠ buffer -> memory (heap s2) !! i = m1 !! i) as Hs2.
  { intros i Hi. cbn. by apply lookup_insert_ne. }
  assert (forall i o, l !! i = Some o -> ~ (buffer <= args + Z.of_nat i < buffer + Z.of_nat n)) as Hsep.
  { intros i o Ho Hin. specialize (Hc i o Ho). by rewrite Hfree in Hc. }
  destruct (copy_cells_run l args (buffer + 1) s2) as (m & Hrun & Hm & Hout).
  - intros i o Ho. specialize (Hsep i o Ho). rewrite Hs2, Hm1 by lia. rewrite decide_False by done. by apply Hc.
  - intros i Hi. unfold zlen in Hi. rewrite Hs2, Hm1 by lia. rewrite decide_True by lia. by eexists.
  - intros i j Hi Hj Heq. unfold zlen in *. destruct (lookup_lt_is_Some_2 l (Z.to_nat i)) as [o Ho]; [lia|].
    specialize (Hsep _ _ Ho). lia.
  - exists m. split_and!; [exact Hrun| |done|].
    + rewrite Hout by lia. cbn. apply lookup_insert_eq.
    + intros i Hi. unfold zlen in Hout. rewrite Hout, Hs2, Hm1 by lia. by rewrite decide_False.
Qed.

Lemma set_memory_grown x m y :
  grown (set_memory (fun _ => m) x) y -> grown x (set_memory (fun _ => memory x) y).
Proof. intros (Hw & Hd & _). split_and!; [by apply set_memory_wf|done|done]. Qed.

Lemma call_in_buffer_spec L x buffer n h self args l kwnames :
  heap_wf x -> cells x args l -> callable_with L x h (self :: l) -> zlen l + 1 < 2 ^ 63 ->
  free_block x buffer n -> (length l < n)%nat ->
  callback L x (call_in_buffer py lent export_class convert construct_native binder_call is_void dispatch_optional
    buffer n h self args (zlen l) kwnames).
Proof.
  intros Hwf Hc Hl Hlen Hfree Hn s F HL Hs Hx.
  destruct (fill_buffer_run x buffer n self args l s Hc Hfree Hn Hx) as (m & Hfill & Hm0 & Hm & Hout).
  assert (Z.to_nat (zlen l) = length l) as Hz by (unfold zlen; lia).
  assert (call_in_buffer py lent export_class convert construct_native binder_call is_void dispatch_optional
    buffer n h self args (zlen l) kwnames s =
    ((allocate buffer n ;; write_cell buffer (Some self) ;; copy_cells args (buffer + 1) (length l)) ;;
     r ← invoke_vector h buffer (zlen l + 1) kwnames; deallocate buffer n ;; mret r) s) as ->.
  { unfold call_in_buffer. rewrite Hz. unfold mbind, eff_bind.
    destruct (allocate buffer n s) as [[[]| | |] s1]; try done.
    by destruct (write_cell buffer (Some self) s1) as [[[]| | |] s2]. }
  eapply memory_restored; [done|done|done|exact Hfill|by apply (invoke_on_array L x m buffer h self l)|].
  intros r s1 Hs1 Hmem Hg Hp. exists r, (with_memory s1 (memory x)). split_and!; [|done| |done].
  - unfold deallocate, on_heap, mbind, eff_bind, with_memory. cbn. unfold set_memory at 1. rewrite Hmem.
    by rewrite (free_block_restores x).
  - by apply set_memory_grown in Hg.
Qed.


(** A reference that is kept across a callback. *)
Lemma spec_frame {A} L P I (m : M A) Q J r :
  spec lent (objs r ∪ L) P I m Q J (fun _ => False) ->
  spec lent L (P ⊎ orefs r) I m (fun a => Q a ⊎ orefs r) J (fun _ => False).
Proof.
  intros Hm s F HL Hs HI.
  assert (kept lent (objs r ∪ L) (F ⊎ orefs r)) as HL'.
  { intros o [Ho|Ho]%elem_of_union.
    - right. destruct r as [x|]; simpl in Ho; [|set_solver]. apply elem_of_singleton in Ho. subst x. simpl. multiset_solver.
    - destruct (HL o Ho); [by left|right; multiset_solver]. }
  specialize (Hm s (F ⊎ orefs r) HL'). rewrite Hs in Hm. specialize (Hm ltac:(multiset_solver) HI).
  destruct (m s) as [[a|e| |] s']; try done; [|tauto]. destruct Hm as [-> HJ]. split; [multiset_solver|done].
Qed.

Context (local_args malloc_block : Z).
Abbreviation call_with_self := (call_with_self py lent export_class convert construct_native binder_call is_void
  dispatch_optional local_args malloc_block).

Record array_ok (x : py_heap) (args nargsf : Z) (l : list obj) : Prop := {
  array_cells : cells x args l;
  array_count : PyVectorcall_NARGS nargsf = zlen l;
  array_small : zlen l < 2 ^ 60;
  array_slot : has_offset nargsf = true -> is_Some (memory x !! (args - 1));
  array_local : free_block x local_args local_args_size;
  array_malloc : free_block x malloc_block (S (length l))
}.

(** The slot in front of the arguments is borrowed for the receiver. *)
Lemma call_in_slot_spec L x h self args l kwnames :
  heap_wf x -> cells x args l -> callable_with L x h (self :: l) -> zlen l + 1 < 2 ^ 63 ->
  is_Some (memory x !! (args - 1)) ->
  callback L x (saved ← load_cell (args - 1); write_cell (args - 1) (Some self) ;;
    r ← invoke_vector h (args - 1) (zlen l + 1) kwnames; write_cell (args - 1) saved ;; mret r).
Proof.
  intros Hwf Hc Hl Hlen [v Hv] s F HL Hs Hx.
  assert (load_cell (args - 1) s = (Ok v, s)) as H1 by (unfold load_cell, gets, mbind, eff_bind; by rewrite Hx, Hv).
  rewrite (eff_bind_run _ _ _ _ _ H1).
  assert (write_cell (args - 1) (Some self) s = (Ok tt, with_memory s (<[args - 1 := Some self]> (memory x)))) as H2.
  { rewrite <- Hx. apply write_cell_run. rewrite Hx, Hv. by eexists. }
  eapply memory_restored; [done|done|done|exact H2| |].
  - apply (invoke_on_array L x _ (args - 1) h self l); [done|done|done|apply lookup_insert_eq|].
    intros i o Ho. rewrite lookup_insert_ne by lia. replace (args - 1 + 1) with args by lia. by apply Hc.
  - intros r s1 Hs1 Hmem Hg Hp. exists r, (with_memory s1 (memory x)). split_and!; [|done| |done].
    + rewrite (eff_bind_run _ _ _ _ _ (write_cell_run (args - 1) v s1 ltac:(rewrite Hmem, lookup_insert_eq; by eexists))).
      rewrite Hmem, insert_insert_eq. by rewrite insert_id.
    + by apply set_memory_grown in Hg.
Qed.

Lemma no_memory_run self F (s : state) :
  held s = F ⊎ {[+ self +]} ->
  exists s', (Py_DECREF py (Some self) ;; PyErr_NoMemory py ;; mret (@None (option obj))) s = (Ok None, s') /\
    held s' = F /\ heap s' = heap s /\ pending s' ≠ None.
Proof.
  intros Hs. destruct (xdecref_run py lent (Some self) s F ∅) as (s1 & H1 & Hh & Heap); [simpl; multiset_solver|].
  rewrite (eff_bind_run _ _ _ _ _ H1). eexists. split; [reflexivity|]. cbn. split_and!; [multiset_solver|done|done].
Qed.

(** What [call_with_self] leaves of the reference to [self]. *)
Definition self_refs (self : obj) (r : option (option obj)) : gmultiset obj :=
  match r with None => ∅ | Some r => orefs r ⊎ {[+ self +]} end.

Lemma mret_some_spec L x self (m : M (option obj)) :
  callback (objs (Some self) ∪ L) x m ->
  spec lent L {[+ self +]} (fun s => heap s = x) (r ← m; mret (Some r)) (self_refs self)
    (fun r s => grown x (heap s) /\ (default None r = None -> pending s ≠ None)) (fun _ => False).
Proof.
  intros Hm. eapply (spec_bind lent L _ _ m _ (fun r => orefs r ⊎ {[+ self +]})
    (fun r s => grown x (heap s) /\ (r = None -> pending s ≠ None))).
  - eapply spec_from; [|symmetry; apply (left_id_L ∅ (⊎))]. exact (spec_frame L ∅ _ m _ _ (Some self) Hm).
  - intros r. apply spec_ret; [done|]. intros s Hs. exact Hs.
Qed.

Lemma call_with_self_spec L x h self args nargsf kwnames l :
  heap_wf x -> array_ok x args nargsf l -> callable_with (objs (Some self) ∪ L) x h (self :: l) ->
  spec lent L {[+ self +]} (fun s => heap s = x) (call_with_self h self args nargsf kwnames) (self_refs self)
    (fun r s => grown x (heap s) /\ (default None r = None -> pending s ≠ None)) (fun _ => False).
Proof.
  intros Hwf [Hc Hn Hsmall Hslot Hlocal Hmalloc] Hl. unfold PythonObjects.call_with_self. rewrite Hn.
  pose proof (zlen_nonneg l). destruct (has_offset nargsf).
  { intros s F HL Hs Hx. pose proof (mret_some_spec L x self _
      (call_in_slot_spec _ x h self args l kwnames Hwf Hc Hl ltac:(lia) (Hslot eq_refl)) s F HL Hs Hx) as Hm.
    revert Hm. unfold mbind, eff_bind. destruct (load_cell (args - 1) s) as [[v| | |] s1]; try done.
    destruct (write_cell (args - 1) (Some self) s1) as [[[]| | |] s2]; try done.
    destruct (invoke_vector h (args - 1) (zlen l + 1) kwnames s2) as [[r| | |] s3]; try done.
    by destruct (write_cell (args - 1) v s3) as [[[]| | |] s4]. }
  destruct (Z.leb_spec (zlen l + 1) (Z.of_nat local_args_size)) as [Hle|Hgt].
  { apply mret_some_spec, call_in_buffer_spec; try done; [lia|]. unfold zlen, local_args_size in *. lia. }
  replace (((zlen l + 1) * pointer_size) mod u64_modulus) with ((zlen l + 1) * pointer_size)
    by (symmetry; apply Z.mod_small; unfold pointer_size, u64_modulus; lia).
  intros s F HL Hs Hx. unfold mbind at 1, eff_bind at 1, asks, gets at 1.
  destruct (PyMem_Malloc py ((zlen l + 1) * pointer_size) (world s)); cbn [negb].
  - rewrite Z.div_mul by done. revert s F HL Hs Hx. apply mret_some_spec.
    replace (Z.to_nat (zlen l + 1)) with (S (length l)) by (unfold zlen; lia).
    apply call_in_buffer_spec; try done; [lia|]. lia.
  - destruct (no_memory_run self F s Hs) as (s1 & H1 & Hh & Heap & Hp). rewrite H1, Heap, Hx.
    split; [rewrite Hh; simpl; multiset_solver|]. split; [by apply grown_refl|done].
Qed.

(** ** The vector call of a class *)

Lemma set_ready_wf b x : heap_wf x -> heap_wf (set_ready b x).
Proof. intros []. by split. Qed.

Lemma class_initializer_run type (s : state) :
  exists r s', class_initializer py type s = (Ok r, s') /\ held s' = held s /\
    (heap s' = heap s \/ heap s' = set_ready true (heap s)) /\
    (forall i, r = Some i -> is_Some (callables (heap s) !! i)).
Proof.
  unfold class_initializer, callable_type, asks, gets, api_status, on_heap, mbind, eff_bind.
  destruct (tp_dict_item py type constructor_attr_name (world s)) as [i|]; [|by eexists _, _; split_and!; auto].
  destruct (ready (heap s)).
  - cbn. eexists _, _. split_and!; [reflexivity|done|by left|].
    intros j. destruct (callables (heap s) !! i) eqn:Hi; [|done]. intros [= <-]. by rewrite Hi.
  - destruct (PyType_Ready py (world s)) as [w [[]|e]]; cbn; eexists _, _;
      (split_and!; [reflexivity|done|auto|]); [|done].
    intros j. destruct (callables (heap s) !! i) eqn:Hi; [|done]. intros [= <-]. by rewrite Hi.
Qed.

Abbreviation export_type_vectorcall := (export_type_vectorcall py lent export_class convert construct_native binder_call
  is_void dispatch_optional local_args malloc_block).

Definition same_objects (x y : py_heap) : Prop :=
  y = x \/ y = set_ready true x.
Lemma same_objects_grown x y : heap_wf x -> same_objects x y -> grown x y.
Proof. intros Hw [->| ->]; [by apply grown_refl|]. split_and!; [by apply set_ready_wf|done|done]. Qed.
Lemma array_ok_objects x y args nargsf l : memory y = memory x -> array_ok x args nargsf l -> array_ok y args nargsf l.
Proof.
  intros Hm []. split; unfold cells, free_block in *; rewrite ?Hm; auto.
Qed.

(** The end of the vector call: the result of the constructor is dropped, or the instance. *)
Lemma finish_vectorcall self x (r : option (option obj)) L :
  spec lent L (self_refs self r) (fun s => grown x (heap s) /\ (default None r = None -> pending s ≠ None))
    (match r with
     | None => mret None
     | Some None => Py_DECREF py (Some self) ;; mret None
     | Some (Some r) => Py_DECREF py (Some r) ;; mret (Some self)
     end) orefs
    (fun v s => grown x (heap s) /\ (v = None -> pending s ≠ None) /\ (forall o, v = Some o -> o = self)) (fun _ => False).
Proof.
  intros s F HL Hs [Hg Hp]. destruct r as [[r|]|]; simpl in Hs, Hp.
  - destruct (xdecref_run py lent (Some r) s F {[+ self +]}) as (s1 & H1 & Hh & Heap); [rewrite Hs; simpl; multiset_solver|].
    rewrite (eff_bind_run _ _ _ _ _ H1). cbn. rewrite Hh, Heap. split_and!; [done|done|done|]. by intros o [= <-].
  - destruct (xdecref_run py lent (Some self) s F ∅) as (s1 & H1 & Hh & Heap); [rewrite Hs; simpl; multiset_solver|].
    pose proof (keeps_pending_xdecref (Some self) s) as Hk. rewrite H1 in Hk. simpl in Hk.
    rewrite (eff_bind_run _ _ _ _ _ H1). cbn. rewrite Hh, Heap, Hk. split_and!; [done|done|auto|done].
  - cbn. split_and!; [done|done|auto|done].
Qed.

Lemma vectorcall_body L x h self args nargsf kwnames l :
  heap_wf x -> array_ok x args nargsf l -> self ∈ dom (instances x) ->
  spec lent L {[+ self +]} (fun s => heap s = x)
    (result ← call_with_self h self args nargsf kwnames;
     match result with
     | None => mret None
     | Some None => Py_DECREF py (Some self) ;; mret None
     | Some (Some r) => Py_DECREF py (Some r) ;; mret (Some self)
     end) orefs
    (fun v s => grown x (heap s) /\ (v = None -> pending s ≠ None) /\ (forall o, v = Some o -> o = self)) (fun _ => False).
Proof.
  intros Hwf Ha Hself. eapply spec_bind; [|intros r; apply finish_vectorcall].
  apply (call_with_self_spec L x h self args nargsf kwnames l Hwf Ha).
  destruct h as [| |class arity]; try done. intros self' rest [= <- <-]. split; [|by intros].
  right. simpl. set_solver.
Qed.

Lemma type_error_run message (s : state) :
  exists s', type_error py message s = (Ok None, s') /\ held s' = held s /\ heap s' = heap s /\ pending s' ≠ None.
Proof.
  destruct (set_string_run (PyExc_TypeError py) (lit message) s) as (s1 & H1 & Hh & Heap & Hp). exists s1.
  unfold type_error. rewrite (eff_bind_run _ _ _ _ _ H1). by rewrite Hp.
Qed.

Lemma vectorcall_spec type args nargsf kwnames l x :
  heap_wf x -> array_ok x args nargsf l ->
  spec lent ∅ ∅ (fun s => heap s = x) (export_type_vectorcall type args nargsf kwnames) orefs
    (fun v s => grown x (heap s) /\ (v = None -> pending s ≠ None) /\ (forall o, v = Some o -> o ∉ used x))
    (fun _ => False).
Proof.
  intros Hwf Ha s F HL Hs Hx. unfold PythonObjects.export_type_vectorcall, no_except.
  destruct (class_initializer_run type s) as (i & s1 & H1 & Hh1 & Heap1 & Hi). rewrite (eff_bind_run _ _ _ _ _ H1).
  rewrite Hx in Heap1. rewrite Hs in Hh1. pose proof (same_objects_grown x (heap s1) Hwf Heap1) as Hg1.
  assert (used (heap s1) = used x /\ memory (heap s1) = memory x) as [Hused Hmem1] by (by destruct Heap1 as [-> | ->]).
  assert (callables (heap s1) = callables x /\ holders (heap s1) = holders x) as [Hcal Hhol] by (by destruct Heap1 as [-> | ->]).
  rewrite Hx in Hi. destruct i as [i|].
  2: { destruct (type_error_run "dynabridge Python export class has no bridge constructor" s1) as (s2 & H2 & Hh2 & Heap2 & Hp2).
       rewrite H2, Hh2, Heap2, Hh1. by split_and!. }
  unfold asks, gets. unfold mbind at 1, eff_bind at 1. set (gc := has_gc py type (world s1)).
  destruct (new_export_instance_run (fun u => if gc then tp_alloc py u type else PyObject_New_instance py u type) s1)
    as [(o & s2 & H2 & Hh2 & Heap2 & Ho)|(s2 & H2 & Hh2 & Heap2 & Hp2)].
  { intros u w w' o. destruct gc; [apply tp_alloc_fresh|apply instance_new_fresh]. }
  2: { rewrite (eff_bind_run _ _ _ _ _ H2). cbn. rewrite Hh2, Heap2, Hh1. by split_and!. }
  rewrite (eff_bind_run _ _ _ _ _ H2).
  assert (heap_wf (heap s2)) as Hwf2 by (rewrite Heap2; apply new_instance_wf; [apply Hg1|done]).
  assert (exists h, holder_of i s2 = (Ok h, s2)) as [h Hh].
  { destruct (Hi i eq_refl) as [p Hp]. destruct (wf_behind _ Hwf2 i p) as [h Hh]; [rewrite Heap2; cbn; by rewrite Hcal|].
    exists h. unfold holder_of, gets, mbind, eff_bind. rewrite Heap2 in Hh |- *. cbn in Hh |- *. rewrite Hcal, Hp. cbn.
    by rewrite Hh. }
  rewrite (eff_bind_run _ _ _ _ _ Hh).
  assert (grown x (heap s2)) as Hg2.
  { destruct Hg1 as (_ & Hd & Hm). rewrite Heap2. split_and!; [by rewrite <- Heap2| |done]. cbn. rewrite dom_insert. set_solver. }
  assert (o ∈ dom (instances (heap s2))) as Hdom by (rewrite Heap2; cbn; rewrite dom_insert; set_solver).
  pose proof (vectorcall_body ∅ (heap s2) h o args nargsf kwnames l Hwf2
    (array_ok_objects x _ _ _ _ ltac:(by apply Hg2) Ha) Hdom s2 F HL ltac:(rewrite Hh2, Hh1; multiset_solver) eq_refl) as Hn.
  match goal with |- context [match ?m s2 with _ => _ end] => destruct (m s2) as [[v|e| |] s3] end; try done.
  destruct Hn as (Hh3 & Hg3 & Hp3 & Hv). split_and!; [done|by eapply grown_trans|done|].
  intros o' Ho'. rewrite (Hv o' Ho'), <- Hused. done.
Qed.

(** ** Properties *)

(** C22: Every entry of the interpreter into a callable, through a tuple or through a vector,
    for a function, an overload or a constructor, with whatever arguments, lets no exception
    out, and returns either one new reference, or null with an exception set; apart from
    that it owns what it owned, and the instances and arrays that were there are still
    there. *)
Theorem python_callbacks_total h x args nargsf kwnames l tuple :
  heap_wf x -> cells x args l -> PyVectorcall_NARGS nargsf = zlen l -> callable_with ∅ x h l ->
  (forall l w, PyTuple_items py tuple w = Some l -> callable_with ∅ x h l) ->
  callback ∅ x (invoke_vector h args nargsf kwnames) /\ callback ∅ x (invoke_tuple h tuple).
Proof. intros. split; [by eapply invoke_vector_spec|by apply invoke_tuple_spec]. Qed.

(** C23: The vector call of a class puts one fresh instance together and calls its
    constructor on it in front of the arguments, whether it borrows the slot in front of
    them, copies them to the stack or to a block; whatever happens, the memory of the caller
    is as before, no reference but the returned instance is kept, and null comes with an
    exception. *)
Theorem class_vectorcall_contract type args nargsf kwnames l x :
  heap_wf x -> array_ok x args nargsf l ->
  spec lent ∅ ∅ (fun s => heap s = x) (export_type_vectorcall type args nargsf kwnames) orefs
    (fun v s => (heap_wf (heap s) /\ memory (heap s) = memory x) /\ (v = None -> pending s ≠ None) /\
       (forall o, v = Some o -> o ∉ used x)) (fun _ => False).
Proof.
  intros Hwf Ha. eapply spec_weaken; [by apply vectorcall_spec with (l := l)|done|done|done| |done].
  intros v s ((Hw & _ & Hm) & Hp & Hv). by split_and!.
Qed.
End Callbacks.

(** ** Exceptions across the bridge *)

Section Through.
Context {W : Type} (py : interpreter W) (lent : gset obj) (has_vectorcall : bool).
Context `{!FinalizersKeepError py}.
Abbreviation M := (eff (py_state W py_heap)).

(** C27: An exception that a Python function raises inside an imported call, inside an
    exported function that does not catch it, reaches the Python caller of that function
    as the same exception, and the bridge keeps none of its references. *)
Theorem python_exception_passes_through {R} (from_cast : obj -> M R) (rest : R -> M (option obj))
    message fallback c args t v b s F :
  conversion lent from_cast -> c ∈ lent -> not_null args -> held s = F ⊎ arg_refs args ->
  answers py has_vectorcall c args (world s) (Raised (mk_err (Some t) v b)) ->
  exists s', catching py lent fallback (r ← invoke_impl py lent has_vectorcall from_cast message (Some c) args; rest r) s
    = (Ok None, s') /\ pending s' = Some (mk_err (Some t) v b) /\ held s' = F.
Proof.
  intros Hf Hc Hn Hs Hr. pose proof (invoke_yields py lent has_vectorcall from_cast message c args s _ Hr) as Hy.
  pose proof (owns_invoke py lent has_vectorcall from_cast message ∅ (Some c) args Hf ltac:(intros ? [= <-]; auto)
    s F ltac:(intros ? ?; set_solver) Hs) as Ho.
  unfold yields, catching, mbind, eff_bind in *.
  destruct (invoke_impl py lent has_vectorcall from_cast message (Some c) args s) as [[r|e| |] s1]; simpl in Hy;
    try (by destruct Hy).
  destruct Hy as [[= ->]|]; [|done].
  destruct (handle_run py lent fallback (python_error _ (Some t) v b) F s1 I Ho) as (s2 & H2 & Hh & _ & Hi).
  exists s2. unfold mbind, eff_bind. rewrite H2. by rewrite Hi.
Qed.
End Through.

(** ** A module with one class and one function *)

Module CallbackSample.
Definition interp := SampleInterpreter.interp false true.
#[global] Instance interp_fresh : FreshAllocation interp := SampleInterpreter.sample_fresh false true.
#[global] Instance interp_keeps : FinalizersKeepError interp := SampleInterpreter.sample_keeps_error.
Abbreviation M := (eff (py_state nat py_heap)).
Abbreviation lent := SampleInterpreter.lent.
Definition export_class (class : nat) : option obj := if Nat.eqb class 5 then Some 2%nat else None.
Definition convert (class : nat) (l : list obj) : M (list nat) := mret l.
Definition construct_native := LifetimeSample.construct_native.
Definition binder_call (b : nat) (l : list obj) : M (option obj) :=
  if Nat.eqb b 0 then throw foreign_exception else mret None.
Definition is_void (b : nat) : bool := true.
Definition dispatch_optional (b : nat) (l : list obj) : M (option (option obj)) := mret None.

Lemma pure_user {A} (m : M A) (Q : A -> gmultiset obj) J a :
  (forall s, m s = (Ok a, s)) -> Q a = ∅ -> (forall s, J a s) -> user_code lent m Q J.
Proof.
  intros Hm HQ HJ L x Hwf s F _ Hs Hx. rewrite Hm, HQ, Hx. split; [done|]. split; [by apply steady_refl|done].
Qed.
Lemma convert_user class l : user_code lent (convert class l) (fun _ => ∅) (fun _ _ => True).
Proof. by apply (pure_user _ _ _ l). Qed.
Lemma binder_user b l : user_code lent (binder_call b l) orefs (fun r s => is_void b = false -> r = None -> pending s ≠ None).
Proof.
  unfold binder_call. destruct (Nat.eqb b 0); [|by apply (pure_user _ _ _ None)].
  intros L x Hwf s F _ Hs Hx. cbn. rewrite Hx. split_and!; [done|done|by apply steady_refl].
Qed.
Lemma dispatch_user b l : user_code lent (dispatch_optional b l) (fun r => orefs (default None r))
  (fun r s => r = Some None -> pending s ≠ None).
Proof. by apply (pure_user _ _ _ None). Qed.
Lemma void_result b l s : is_void b = true -> match binder_call b l s with (Ok (Some _), _) => False | _ => True end.
Proof. intros _. unfold binder_call. by destruct (Nat.eqb b 0). Qed.
Lemma none_lent : Py_None interp ∈ lent.
Proof. unfold SampleInterpreter.lent. cbn. set_solver. Qed.

(** The module: the constructor of class 5 behind the callable 4, a function that throws
    behind 6, and an array of one argument at 100 with its slot. *)
Definition module_heap : py_heap := mk_heap true
  (<[0%nat := class_constructor_holder 5 1]> {[ 1%nat := typed_callable_holder 1 0 ]})
  (<[4%nat := 0%nat]> {[ 6%nat := 1%nat ]}) ∅ ∅ (<[99 := None]> {[ 100 := Some 3%nat ]}).
Definition start : py_state nat py_heap := SampleInterpreter.owning module_heap [].

Lemma module_wf : heap_wf module_heap.
Proof.
  split; cbn; intros *.
  - rewrite lookup_insert_Some, lookup_singleton_Some.
    intros [[<- <-]|[_ [<- <-]]]; rewrite ?lookup_insert_eq, ?lookup_insert_ne, ?lookup_singleton_eq by done; eauto.
  - rewrite lookup_insert_Some, lookup_singleton_Some.
    intros [[<- <-]|[_ [<- <-]]]; [exists 4%nat|exists 6%nat]; by vm_compute.
  - rewrite !lookup_insert_Some, !lookup_singleton_Some. naive_solver.
  - by rewrite !lookup_empty.
  - by rewrite lookup_empty.
Qed.
Lemma array_at_100 : array_ok (-100) (-200) module_heap 100 (2 ^ 63 + 1) [3%nat].
Proof.
  split; try (by vm_compute); try (intros _; by eexists).
  - intros [|[|i]] o; [|done..]. by intros [= <-].
  - intros i Hi. cbn in *. rewrite lookup_insert_ne, lookup_singleton_ne by (unfold local_args_size in *; lia). done.
  - intros i Hi. cbn in *. rewrite lookup_insert_ne, lookup_singleton_ne by lia. done.
Qed.
Abbreviation invoke_vector := (invoke_vector interp lent export_class convert construct_native binder_call is_void dispatch_optional).
Abbreviation invoke_tuple := (invoke_tuple interp lent export_class convert construct_native binder_call is_void dispatch_optional).
End CallbackSample.

Lemma python_callbacks_total_witness :
  callback CallbackSample.lent ∅ CallbackSample.module_heap
    (CallbackSample.invoke_vector (typed_callable_holder 1 0) 100 (2 ^ 63 + 1) None) /\
  callback CallbackSample.lent ∅ CallbackSample.module_heap
    (CallbackSample.invoke_tuple (typed_callable_holder 1 0) 9%nat).
Proof.
  apply (python_callbacks_total CallbackSample.interp CallbackSample.lent CallbackSample.none_lent _ _ _ _ _ _
    CallbackSample.convert_user LifetimeSample.construct_user CallbackSample.binder_user CallbackSample.dispatch_user
    CallbackSample.void_result _ _ _ _ _ [3%nat]).
  - apply CallbackSample.module_wf.
  - apply CallbackSample.array_at_100.
  - reflexivity.
  - exact I.
  - intros l w _. exact I.
Defined.

Lemma class_vectorcall_contract_witness :
  spec CallbackSample.lent ∅ ∅ (fun s => heap s = CallbackSample.module_heap)
    (export_type_vectorcall CallbackSample.interp CallbackSample.lent CallbackSample.export_class CallbackSample.convert
       CallbackSample.construct_native CallbackSample.binder_call CallbackSample.is_void CallbackSample.dispatch_optional
       (-100) (-200) 2%nat 100 (2 ^ 63 + 1) None) orefs
    (fun v s => (heap_wf (heap s) /\ memory (heap s) = memory CallbackSample.module_heap) /\
       (v = None -> pending s ≠ None) /\ (forall o, v = Some o -> o ∉ used CallbackSample.module_heap)) (fun _ => False).
Proof.
  apply (class_vectorcall_contract CallbackSample.interp CallbackSample.lent CallbackSample.none_lent _ _ _ _ _ _
    CallbackSample.convert_user LifetimeSample.construct_user CallbackSample.binder_user CallbackSample.dispatch_user
    CallbackSample.void_result _ _ _ _ _ _ [3%nat] _ CallbackSample.module_wf CallbackSample.array_at_100).
Defined.

(** The sample constructs the instance that the vector call returns. *)
Example sample_vectorcall :
  let r := export_type_vectorcall CallbackSample.interp CallbackSample.lent CallbackSample.export_class
    CallbackSample.convert CallbackSample.construct_native CallbackSample.binder_call CallbackSample.is_void
    CallbackSample.dispatch_optional (-100) (-200) 2%nat 100 (2 ^ 63 + 1) None CallbackSample.start in
  exists o, r.1 = Ok (Some o) /\ natives (heap r.2) !! o = Some 5%nat.
Proof. eexists. vm_compute. split; reflexivity. Qed.

Lemma python_exception_passes_through_witness :
  exists s', catching CallbackSample.interp CallbackSample.lent "failed"
    (r ← invoke_impl CallbackSample.interp CallbackSample.lent true (fun r => mret r) "Python callable returned null"
       (Some 3%nat) [Ref (Some 50%nat); Raw (Some 51%nat)]; mret (Some r))
    (SampleInterpreter.owning CallbackSample.module_heap [50%nat; 51%nat])
    = (Ok None, s') /\ pending s' = Some (mk_err (Some SampleInterpreter.type_error) (Some 2000%nat) None) /\ held s' = ∅.
Proof.
  eapply (python_exception_passes_through CallbackSample.interp CallbackSample.lent true).
  - intros L r _. by apply owns_ret.
  - unfold SampleInterpreter.lent. set_solver.
  - repeat constructor; done.
  - vm_compute. reflexivity.
  - reflexivity.
Defined.
