(* ===== verification/PythonModules.v ===== *)
(** * backends/python.h: modules, classes and exported objects

    What publishing a function, a class, its constructor or an object does to the references
    of the bridge, on success and when Python refuses, and the objects that C++ makes. *)

From Stdlib Require Import ZArith Lia.
From stdpp Require Import base list gmap gmultiset.
From S2P Require Import Prelude Ownership Registration PythonRefs PythonObjects PythonLifetime PythonCallbacks.

Section Modules.
Context {W N : Type} (py : interpreter W) (lent : gset obj).
Abbreviation M := (eff (py_state W py_heap)).
Abbreviation state := (py_state W py_heap).

(** [define] gives up the reference of what it publishes, or of what it could not publish. *)
Lemma define_refused_spec L v message (H : py_heap -> Prop) :
  spec lent L (orefs v) (fun s : state => H (heap s))
    (Py_XDECREF py v ;; throw (runtime_error (lit message))) (fun _ : unit => ∅)
    (fun _ s => H (heap s)) (fun s => H (heap s)).
Proof.
  eapply (spec_bind _ _ _ _ _ _ (fun _ => ∅) (fun _ s => H (heap s))); [|intros []; by apply spec_throw].
  apply spec_primitive; [|apply primitive_xdecref]. eapply owns_mono; [apply owns_xdecref|simpl; multiset_solver].
Qed.
(** A module takes a null as well: there is nothing to give up. *)
Lemma define_module_spec L m name v (H : py_heap -> Prop) :
  spec lent L (orefs v) (fun s => H (heap s)) (define py (module_t m) name v) (fun _ => ∅)
    (fun _ s => H (heap s)) (fun s => H (heap s)).
Proof.
  simpl. eapply spec_bind;
    [apply (spec_primitive lent L (orefs v) _ (fun _ => orefs v) H);
      [apply owns_ledger_pure, api_status_pure|apply primitive_status]|intros [[]|]; [|apply define_refused_spec]].
  apply spec_primitive; [|apply primitive_steal]. eapply owns_mono; [apply (owns_steal lent L ∅ v)|multiset_solver].
Qed.
Lemma define_spec L t name v (H : py_heap -> Prop) :
  spec lent L {[+ v +]} (fun s => H (heap s)) (define py t name (Some v)) (fun _ => ∅)
    (fun _ s => H (heap s)) (fun s => H (heap s)).
Proof.
  destruct t as [m|c]; [apply (define_module_spec L m name (Some v))|]. simpl. eapply spec_bind;
    [apply (spec_primitive lent L {[+ v +]} _ (fun _ => {[+ v +]}) H);
      [apply owns_ledger_pure, api_status_pure|apply primitive_status]|intros [[]|]; [|apply (define_refused_spec L (Some v))]].
  apply spec_primitive; [|apply (primitive_xdecref py (Some v))].
  eapply owns_mono; [apply (owns_decref py lent L ∅ v)|multiset_solver].
Qed.

(** Publishing under one name with a reference to spare. *)
Lemma define_and_keep_spec L t name v (H : py_heap -> Prop) :
  spec lent L {[+ v +]} (fun s => H (heap s))
    (cleaning (Py_XDECREF py (Some v)) (Py_INCREF lent (Some v) ;; define py t name (Some v)))
    (fun _ => {[+ v +]}) (fun _ s => H (heap s)) (fun s => H (heap s)).
Proof.
  intros s F HL Hs HI.
  assert (alive lent s v) as Hlive by (right; rewrite Hs; multiset_solver).
  assert (Py_INCREF lent (Some v) s = (Ok tt, mk_py (held s ⊎ {[+ v +]}) (pending s) (world s) (heap s))) as H1.
  { unfold Py_INCREF, mbind, eff_bind. simpl. by destruct (decide (alive lent s v)). }
  assert (spec lent L ∅ (fun s0 => s0 = s) (Py_INCREF lent (Some v) ;; define py t name (Some v)) (fun _ => ∅)
    (fun _ s => H (heap s)) (fun s => H (heap s))) as Hm.
  { intros s0 F0 HL0 Hs0 ->. rewrite (eff_bind_run _ _ _ _ _ H1). apply (define_spec L t name v H); [done| |done].
    cbn. rewrite Hs0. multiset_solver. }
  unfold cleaning. specialize (Hm s (F ⊎ {[+ v +]})). rewrite Hs in Hm.
  assert (kept lent L (F ⊎ {[+ v +]})) as HL'.
  { intros o Ho. destruct (HL o Ho); [by left|right; multiset_solver]. }
  specialize (Hm HL' ltac:(multiset_solver) eq_refl).
  destruct ((Py_INCREF lent (Some v) ;; define py t name (Some v)) s) as [[[]|e| |] s1]; try done.
  - destruct Hm as [-> HJ]. split; [multiset_solver|done].
  - destruct Hm as (Hh & Hp & HJ). destruct (xdecref_run py lent (Some v) s1 F (exn_refs e)) as (s2 & H2 & Hh2 & Heap2).
    { rewrite Hh. simpl. multiset_solver. }
    rewrite (eff_bind_run _ _ _ _ _ H2). cbn. rewrite Hh2, Heap2. by split_and!.
Qed.

Context `{!FreshAllocation py}.

Lemma define_class_spec L t name size align (H : py_heap -> Prop) :
  spec lent L ∅ (fun s => H (heap s)) (define_class_impl py lent t name size align) orefs
    (fun r s => r ≠ None /\ H (heap s)) (fun s => H (heap s)).
Proof.
  unfold define_class_impl. eapply spec_bind.
  { apply (spec_primitive lent L ∅ _ orefs H); [|apply primitive_new].
    unfold make_export_class_type. eapply owns_post; [apply owns_api_new|intros r; multiset_solver]. }
  intros [v|].
  - eapply spec_bind; [apply define_and_keep_spec|intros []]. simpl.
    apply spec_ret; [done|]. by intros s Hs.
  - by apply spec_throw.
Qed.

(** A constructor that could be made is published under both names. *)
Lemma define_constructor_spec L class arity t :
  spec lent L ∅
    (fun s => heap_wf (heap s) /\ exists o s1, make_constructor py class arity s = (Ok (Some o), s1))
    (define_constructor_impl py lent class arity t) (fun _ => ∅) (fun _ s => heap_wf (heap s)) (fun s => heap_wf (heap s)).
Proof.
  intros s F HL Hs (Hwf & o & s1 & Hmake).
  pose proof (make_callable_spec py lent L ∅ (class_constructor_holder class arity) (fun _ => False) s F HL Hs Hwf) as Hm.
  pose proof Hmake as Hmake'. unfold make_constructor in Hmake'. rewrite Hmake' in Hm. destruct Hm as [Hh Hwf1].
  unfold define_constructor_impl. rewrite (eff_bind_run _ _ _ _ _ Hmake).
  assert (spec lent L {[+ o +]} (fun s => heap_wf (heap s))
    (cleaning (Py_XDECREF py (Some o)) (Py_INCREF lent (Some o) ;; define py t "__init__" (Some o)) ;;
     define py t constructor_attr_name (Some o)) (fun _ => ∅) (fun _ s => heap_wf (heap s)) (fun s => heap_wf (heap s))) as Hsp.
  { eapply spec_bind; [apply define_and_keep_spec|intros []]. apply define_spec. }
  apply (Hsp s1 F HL); [rewrite Hh; simpl; multiset_solver|done].
Qed.

(** A new function that could be made is published; a module also takes the null of one that
    could not. *)
Lemma define_impl_spec L t name h :
  spec lent L ∅ (fun s => heap_wf (heap s) /\ exists o s1, make_callable py h s = (Ok (Some o), s1))
    (define_impl py t name h) (fun _ => ∅) (fun _ s => heap_wf (heap s)) (fun s => heap_wf (heap s)).
Proof.
  intros s F HL Hs (Hwf & o & s1 & Hmake).
  pose proof (make_callable_spec py lent L ∅ h (fun _ => False) s F HL Hs Hwf) as Hm.
  rewrite Hmake in Hm. destruct Hm as [Hh Hwf1]. unfold define_impl. rewrite (eff_bind_run _ _ _ _ _ Hmake).
  apply (define_spec L t name o heap_wf s1 F HL); [rewrite Hh; simpl; multiset_solver|done].
Qed.
Lemma define_impl_module_spec L m name h :
  spec lent L ∅ (fun s => heap_wf (heap s)) (define_impl py (module_t m) name h) (fun _ => ∅)
    (fun _ s => heap_wf (heap s)) (fun s => heap_wf (heap s)).
Proof.
  unfold define_impl. eapply spec_bind; [apply (make_callable_spec py lent L ∅ h)|intros v].
  eapply spec_from; [apply define_module_spec|multiset_solver].
Qed.
Lemma define_null_class L type name h :
  spec lent L ∅ (fun s => heap_wf (heap s) /\ exists s1 w e, make_callable py h s = (Ok None, s1) /\
      PyObject_SetAttrString py type name None (world s1) = (w, Raised e))
    (define_impl py (class_target_t type) name h) (fun _ => ∅) (fun _ s => heap_wf (heap s)) (fun s => heap_wf (heap s)).
Proof.
  intros s F HL Hs (Hwf & s1 & w & e & Hmake & Hset).
  pose proof (make_callable_spec py lent L ∅ h (fun _ => False) s F HL Hs Hwf) as Hm.
  rewrite Hmake in Hm. destruct Hm as [Hh Hwf1]. unfold define_impl. rewrite (eff_bind_run _ _ _ _ _ Hmake).
  unfold define, api_status, mbind, eff_bind. rewrite Hset. cbn. rewrite Hh. split_and!; [simpl; multiset_solver|done..].
Qed.

(** What a class does with the callable of a member. *)
Definition published_in_class (type : obj) (name : string) (h : holder) (s : state) : Prop :=
  (exists o s1, make_callable py h s = (Ok (Some o), s1)) \/
  (exists s1 w e, make_callable py h s = (Ok None, s1) /\ PyObject_SetAttrString py type name None (world s1) = (w, Raised e)).

(** C34: Publishing keeps the references straight, whether Python accepts or refuses: a
    class is owned by its module and once more by the target that is returned; an exported
    instance and a function end up owned by the module or class, or are released with the
    exception, and no holder is lost or destroyed twice. A callable is null when the
    interpreter has no memory for its object. That is harmless for a function in a module,
    and in a class that refuses the null; but a class in which it deletes an attribute
    releases null, and a constructor takes a reference to null, which is undefined. *)
Theorem publishing_balanced t m type name class arity size align v h :
  spec lent ∅ ∅ (fun s => heap_wf (heap s)) (define_class_impl py lent t name size align) orefs
    (fun r s => r ≠ None /\ heap_wf (heap s)) (fun s => heap_wf (heap s)) /\
  spec lent ∅ {[+ v +]} (fun s => heap_wf (heap s)) (define_export_instance_impl py m name (Some v))
    (fun _ => ∅) (fun _ s => heap_wf (heap s)) (fun s => heap_wf (heap s)) /\
  spec lent ∅ ∅ (fun s => heap_wf (heap s)) (define_impl py (module_t m) name h)
    (fun _ => ∅) (fun _ s => heap_wf (heap s)) (fun s => heap_wf (heap s)) /\
  spec lent ∅ ∅ (fun s => heap_wf (heap s) /\ published_in_class type name h s) (define_impl py (class_target_t type) name h)
    (fun _ => ∅) (fun _ s => heap_wf (heap s)) (fun s => heap_wf (heap s)) /\
  (forall s s1 w, make_callable py h s = (Ok None, s1) ->
     PyObject_SetAttrString py type name None (world s1) = (w, Returned tt) ->
     (define_impl py (class_target_t type) name h s).1 = Undefined) /\
  spec lent ∅ ∅ (fun s => heap_wf (heap s) /\ exists o s1, make_constructor py class arity s = (Ok (Some o), s1))
    (define_constructor_impl py lent class arity t) (fun _ => ∅) (fun _ s => heap_wf (heap s)) (fun s => heap_wf (heap s)) /\
  (forall s s1, make_constructor py class arity s = (Ok None, s1) ->
     (define_constructor_impl py lent class arity t s).1 = Undefined).
Proof.
  split_and!.
  - apply (define_class_spec ∅ t name size align heap_wf).
  - apply (define_spec ∅ (module_t m) name v heap_wf).
  - apply define_impl_module_spec.
  - intros s F HL Hs [Hwf [Hmade|Hnull]]; [by apply (define_impl_spec ∅ _ name h s F)|by apply (define_null_class ∅ type name h s F)].
  - intros s s1 w Hmake Hset. unfold define_impl. rewrite (eff_bind_run _ _ _ _ _ Hmake).
    unfold define, api_status, mbind, eff_bind. by rewrite Hset.
  - apply define_constructor_spec.
  - intros s s1 Hmake. unfold define_constructor_impl. by rewrite (eff_bind_run _ _ _ _ _ Hmake).
Qed.

(** ** The classes of a context *)

(** [export_context_t]: every registered class is owned; registering a class again releases
    the one before. *)
Definition export_context_t : Type := ClassRegistry.export_class_registry nat obj.
Definition registry_refs (classes_ : export_context_t) : gmultiset obj := refs (fun e => {[+ ClassRegistry.entry_target e +]}) classes_.
Definition store_export_class_impl (class : nat) (target : obj) (classes_ : export_context_t) : M export_context_t :=
  Py_XDECREF py (ClassRegistry.get_loop classes_ class) ;; mret (ClassRegistry.store classes_ class target).
Definition export_class_of (classes_ : export_context_t) (class : nat) : option obj := ClassRegistry.get_loop classes_ class.

Lemma stored_refs class target (classes_ : export_context_t) :
  registry_refs (ClassRegistry.store classes_ class target) ⊎ orefs (export_class_of classes_ class) =
  registry_refs classes_ ⊎ {[+ target +]}.
Proof.
  assert (match ClassRegistry.store_loop classes_ class target with
          | Some classes' => registry_refs classes' ⊎ orefs (export_class_of classes_ class) = registry_refs classes_ ⊎ {[+ target +]}
          | None => export_class_of classes_ class = None
          end) as Hloop.
  { unfold export_class_of. induction classes_ as [|[k t] rest IH]; simpl; [done|]. unfold registry_refs in *.
    destruct (decide (k = class)) as [->|Hne]; simpl; [multiset_solver|].
    destruct (ClassRegistry.store_loop rest class target) as [rest'|]; simpl; [|done]. multiset_solver. }
  unfold ClassRegistry.store. destruct (ClassRegistry.store_loop classes_ class target); [done|].
  rewrite Hloop. unfold registry_refs. rewrite refs_app. simpl. multiset_solver.
Qed.

(** The context owns what it has stored, once, and finds the class that was stored last. *)
Lemma store_export_class_owned class target classes_ :
  owns lent ∅ (registry_refs classes_ ⊎ {[+ target +]}) (store_export_class_impl class target classes_) registry_refs /\
  forall class', export_class_of (ClassRegistry.store classes_ class target) class' =
    if decide (class' = class) then Some target else export_class_of classes_ class'.
Proof.
  split.
  - unfold store_export_class_impl. rewrite <- (stored_refs class).
    eapply owns_bind; [apply owns_xdecref|intros u]. by apply owns_ret.
  - intros class'. unfold export_class_of. rewrite !ClassRegistry.get_loop_map, ClassRegistry.store_map.
    case_decide as Hc; [subst; apply lookup_insert_eq|by apply lookup_insert_ne].
Qed.

(** ** Objects made by C++ *)

Context (export_class : nat -> option obj) (construct_native : nat -> list N -> M unit).
Context (construct_user : forall class args, user_code lent (construct_native class args) (fun _ => ∅) (fun _ _ => True)).

(** An exported object that C++ makes is a new instance, initialised with a native of
    its class, and owned once by the result; when the class is not registered, Python has no
    memory, or the constructor throws, nothing is owned and no native is left behind. *)
Theorem make_export_object_owned class args :
  spec lent ∅ ∅ (fun s => heap_wf (heap s))
    (make_export_object_impl py lent export_class construct_native class args) orefs
    (fun r s => heap_wf (heap s) /\ exists o, r = Some o /\ natives (heap s) !! o = Some class)
    (fun s => heap_wf (heap s)).
Proof.
  unfold make_export_object_impl, export_target. destruct (export_class class) as [t|].
  2: { intros s F _ Hs Hwf. simpl. by split_and!. }
  intros s F HL Hs Hwf.
  assert (forall f : obj -> M (option obj), (mret t ≫= f) s = f t s) as -> by done.
  destruct (new_export_instance_run (fun u => PyType_GenericNew py u t) s) as
    [(o & s1 & H1 & Hh & Heap & Ho)|(s1 & H1 & Hh & Heap & _)]; [intros ? ? ? ?; apply generic_new_fresh| |];
    rewrite (eff_bind_run _ _ _ _ _ H1).
  2: { cbn. rewrite Hh, Heap. by split_and!. }
  assert (heap_wf (heap s1)) as Hwf1 by (rewrite Heap; by apply new_instance_wf).
  assert (spec lent ∅ (∅ ⊎ orefs (Some o)) (fun s => heap s = heap s1)
    (with_ref py (Some o) (construct_export_object_impl py lent construct_native class o args)) orefs
    (fun r s => heap_wf (heap s) /\ exists o, r = Some o /\ natives (heap s) !! o = Some class)
    (fun s => heap_wf (heap s))) as Hsp.
  { apply (spec_with_ref py lent ∅ ∅ _ (Some o) _ orefs
      (fun r x => heap_wf x /\ exists o, r = Some o /\ natives x !! o = Some class) heap_wf).
    eapply spec_weaken; [apply (construct_export_object_spec py lent construct_native construct_user (objs (Some o) ∪ ∅)
      class o args new_instance (heap s1) Hwf1)|done|done|done| |].
    - rewrite Heap. apply lookup_insert_eq.
    - right. simpl. set_solver.
    - intros r s2 (-> & _ & Hw & _ & Hn & _). eauto.
    - by intros s2 (Hw & _). }
  apply (Hsp s1 F HL); [rewrite Hh, Hs; simpl; multiset_solver|done].
Qed.
End Modules.

Module ModuleSample.
Import CallbackSample.
Definition poor := SampleInterpreter.interp false false.
#[global] Instance poor_fresh : FreshAllocation poor := SampleInterpreter.sample_fresh false false.
Definition allocates (s : py_state nat py_heap) : Prop :=
  exists o s1, make_constructor interp 5%nat 1%nat s = (Ok (Some o), s1).
End ModuleSample.

Lemma publishing_balanced_witness :
  heap_wf (heap CallbackSample.start) /\ ModuleSample.allocates CallbackSample.start /\
  spec CallbackSample.lent ∅ ∅ (fun s => heap_wf (heap s) /\ ModuleSample.allocates s)
    (define_constructor_impl CallbackSample.interp CallbackSample.lent 5 1 (class_target_t 2)) (fun _ => ∅)
    (fun _ s => heap_wf (heap s)) (fun s => heap_wf (heap s)) /\
  (define_constructor_impl ModuleSample.poor CallbackSample.lent 5 1 (class_target_t 2) CallbackSample.start).1 = Undefined.
Proof.
  split; [apply CallbackSample.module_wf|]. split; [eexists _, _; vm_compute; reflexivity|]. split.
  - apply (publishing_balanced CallbackSample.interp CallbackSample.lent (class_target_t 2) 1 2 "C" 5 1 8 8 2 (overload_callable_holder 0)).
  - eapply (publishing_balanced ModuleSample.poor CallbackSample.lent (class_target_t 2) 1 2 "C" 5 1 8 8 2 (overload_callable_holder 0)).
    vm_compute. reflexivity.
Defined.

Lemma make_export_object_owned_witness :
  spec CallbackSample.lent ∅ ∅ (fun s => heap_wf (heap s))
    (make_export_object_impl CallbackSample.interp CallbackSample.lent CallbackSample.export_class
       CallbackSample.construct_native 5 [1%nat]) orefs
    (fun r s => heap_wf (heap s) /\ exists o, r = Some o /\ natives (heap s) !! o = Some 5%nat)
    (fun s => heap_wf (heap s)).
Proof.
  apply (make_export_object_owned CallbackSample.interp CallbackSample.lent CallbackSample.export_class
    CallbackSample.construct_native LifetimeSample.construct_user).
Defined.
