(* ===== verification/PythonConverters.v ===== *)
(** * backends/python_converters.h: integers and strings

    The converters of the Python backend, over the number and string functions of the C API
    ([scalars]); [ScalarLaws] states what their documentation says, in terms of the integer
    and the UTF-8 text behind an object. *)

From Stdlib Require Import ZArith Lia.
From stdpp Require Import base list gmap gmultiset.
From S2P Require Import Prelude PythonRefs PythonCall.

(** Which access to the digits of an integer the build has: the unstable API since 3.12, the
    fields of the object before it, none with the limited API or another implementation. *)
Inductive long_access := compact_api | digit_fields | no_access.

Record scalars (W : Type) := mk_scalars {
  PyLong_CheckExact : obj -> W -> bool;
  PyLong_Check : obj -> W -> bool;
  PyUnstable_Long_IsCompact : obj -> W -> bool;
  PyUnstable_Long_CompactValue : obj -> W -> Z;
  Py_SIZE : obj -> W -> Z;
  ob_digit0 : obj -> W -> Z;
  PyLong_AsLongAndOverflow : obj -> W -> Z * Z * option err;
  PyLong_AsUnsignedLong : obj -> W -> W * reply Z;
  PyLong_FromLong : Z -> W -> W * reply obj;
  PyLong_FromUnsignedLong : Z -> W -> W * reply obj;
  PyUnicode_Check : obj -> W -> bool;
  PyUnicode_AsUTF8AndSize : obj -> W -> W * reply text;
  PyUnicode_FromStringAndSize : text -> W -> W * reply obj;
  is_UnicodeEncodeError : err -> bool
}.
Arguments PyLong_CheckExact {W}. Arguments PyLong_Check {W}. Arguments PyUnstable_Long_IsCompact {W}.
Arguments PyUnstable_Long_CompactValue {W}. Arguments Py_SIZE {W}. Arguments ob_digit0 {W}.
Arguments PyLong_AsLongAndOverflow {W}. Arguments PyLong_AsUnsignedLong {W}. Arguments PyLong_FromLong {W}.
Arguments PyLong_FromUnsignedLong {W}. Arguments PyUnicode_Check {W}. Arguments PyUnicode_AsUTF8AndSize {W}.
Arguments PyUnicode_FromStringAndSize {W}. Arguments is_UnicodeEncodeError {W}.

(** [Py_ssize_t] has 64 bits; [long] has [long_bits], 32 of them on Windows. *)
Definition ssize_max : Z := 2 ^ 63 - 1.
Definition long_max (long_bits : Z) : Z := 2 ^ (long_bits - 1) - 1.
Definition long_min (long_bits : Z) : Z := - 2 ^ (long_bits - 1).

(** [value o w] is the integer behind an [int] object or one of a subclass, [utf8 o w] the
    encoding of a [str] that has one. *)
Class ScalarLaws {W} (sc : scalars W) (long_bits : Z) (value : obj -> W -> option Z)
    (utf8 : obj -> W -> option text) : Prop := {
  exact_check o w : PyLong_CheckExact sc o w = true -> PyLong_Check sc o w = true;
  check_value o w : PyLong_Check sc o w = true <-> is_Some (value o w);
  compact_value o w :
    PyLong_CheckExact sc o w = true -> PyUnstable_Long_IsCompact sc o w = true ->
    value o w = Some (PyUnstable_Long_CompactValue sc o w) /\ - ssize_max - 1 <= PyUnstable_Long_CompactValue sc o w <= ssize_max;
  digit_value o w :
    PyLong_CheckExact sc o w = true -> -1 <= Py_SIZE sc o w <= 1 ->
    0 <= ob_digit0 sc o w < 2 ^ 30 /\ value o w = Some (Py_SIZE sc o w * ob_digit0 sc o w);
  as_long_value o w v : value o w = Some v ->
    PyLong_AsLongAndOverflow sc o w =
    (if (long_min long_bits <=? v) && (v <=? long_max long_bits) then (v, 0, None)
     else (-1, if v <? 0 then -1 else 1, None));
  as_unsigned_value o w v : value o w = Some v ->
    if (0 <=? v) && (v <? 2 ^ long_bits) then (PyLong_AsUnsignedLong sc o w).2 = Returned v
    else exists e, (PyLong_AsUnsignedLong sc o w).2 = Raised e;
  from_long z w w' o : PyLong_FromLong sc z w = (w', Returned o) -> value o w' = Some z;
  from_unsigned_long z w w' o : PyLong_FromUnsignedLong sc z w = (w', Returned o) -> value o w' = Some z;
  as_utf8 o w : PyUnicode_Check sc o w = true ->
    match utf8 o w, (PyUnicode_AsUTF8AndSize sc o w).2 with
    | Some t, Returned t' => t' = t
    | None, Returned _ => False
    | None, Raised e => is_UnicodeEncodeError sc e = true
    | Some _, Raised e => is_UnicodeEncodeError sc e = false
    end;
  from_utf8 t w w' o : PyUnicode_FromStringAndSize sc t w = (w', Returned o) -> PyUnicode_Check sc o w' = true /\ utf8 o w' = Some t
}.

Section Converters.
Context {W C : Type} (sc : scalars W) (long_bits : Z) (access : long_access).
Abbreviation M := (eff (py_state W C)).

(** [compact_long_value]. *)
Definition compact_long_value (value : obj) : M (option Z) :=
  exact ← asks (PyLong_CheckExact sc value);
  if negb exact then mret None
  else
    match access with
    | compact_api =>
        compact ← asks (PyUnstable_Long_IsCompact sc value);
        if compact : bool then v ← asks (PyUnstable_Long_CompactValue sc value); mret (Some v) else mret None
    | digit_fields =>
        size ← asks (Py_SIZE sc value);
        if (-1 <=? size) && (size <=? 1) then
          digit ← asks (ob_digit0 sc value);
          mret (Some (if size =? 0 then 0 else if 0 <? size then digit else - digit))
        else mret None
    | no_access => mret None
    end.

Definition raise_if_null (message : string) (result : option obj) : M obj :=
  match result with Some r => mret r | None => throw (runtime_error (lit message)) end.

(** [converter<int>]. *)
Definition int_to (value : Z) : M obj :=
  result ← api_new (PyLong_FromLong sc value);
  raise_if_null "dynabridge Python int conversion failed" result.

Definition as_long (value : obj) : M (Z * Z) := fun s =>
  match PyLong_AsLongAndOverflow sc value (world s) with
  | (result, overflow, None) => (Ok (result, overflow), s)
  | (result, overflow, Some e) => (Ok (result, overflow), mk_py (held s) (Some e) (world s) (heap s))
  end.

Definition int_from (value : obj) : M (option Z) :=
  compact ← compact_long_value value;
  match compact with
  | Some compact =>
      if (compact <? int_min) || (int_max <? compact) then mret None else mret (Some compact)
  | None =>
      is_long ← asks (PyLong_Check sc value);
      if negb is_long then mret None
      else
        '(result, overflow) ← as_long value;
        occurred ← PyErr_Occurred;
        if negb (overflow =? 0) || occurred then PyErr_Clear ;; mret None
        else if (result <? int_min) || (int_max <? result) then mret None else mret (Some result)
  end.

(** [converter<unsigned>]; the casts of [compact] and of [result] keep the low bits. *)
Definition unsigned_to (value : Z) : M obj :=
  result ← api_new (PyLong_FromUnsignedLong sc value);
  raise_if_null "dynabridge Python unsigned conversion failed" result.

Definition as_unsigned_long (value : obj) : M Z :=
  r ← api_status (PyLong_AsUnsignedLong sc value);
  mret (default (2 ^ long_bits - 1) r).

Definition unsigned_from (value : obj) : M (option Z) :=
  compact ← compact_long_value value;
  match compact with
  | Some compact =>
      if (compact <? 0) || (unsigned_max <? compact mod 2 ^ long_bits) then mret None
      else mret (Some (compact mod 2 ^ 32))
  | None =>
      is_long ← asks (PyLong_Check sc value);
      if negb is_long then mret None
      else
        result ← as_unsigned_long value;
        occurred ← PyErr_Occurred;
        if occurred : bool then PyErr_Clear ;; mret None
        else if unsigned_max <? result then mret None else mret (Some (result mod 2 ^ 32))
  end.

(** [converter<std::string>]. *)
Definition string_to (value : text) : M obj :=
  if ssize_max <? zlen value then throw (length_error (lit "dynabridge Python string is too large"))
  else
    result ← api_new (PyUnicode_FromStringAndSize sc value);
    raise_if_null "dynabridge Python string conversion failed" result.

Definition string_from (value : obj) : M (option text) :=
  is_str ← asks (PyUnicode_Check sc value);
  if negb is_str then mret None
  else
    data ← api_status (PyUnicode_AsUTF8AndSize sc value);
    match data with
    | Some data => mret (Some data)
    | None =>
        e ← gets pending;
        if match e with Some e => is_UnicodeEncodeError sc e | None => false end then PyErr_Clear ;; mret None
        else throw (runtime_error (lit "dynabridge Python string conversion failed"))
    end.

(** [from_cast] over a converter. *)
Definition from_cast {T} (from : obj -> M (option T)) (value : obj) : M T :=
  result ← from value;
  match result with
  | Some t => mret t
  | None => throw (bad_conversion (lit "dynabridge value is not convertible to the requested C++ type"))
  end.

(** ** Exactness *)

Context (value : obj -> W -> option Z) (utf8 : obj -> W -> option text).
Context `{!ScalarLaws sc long_bits value utf8}.
Implicit Types s : py_state W C.

Lemma compact_long_value_run o s :
  exists r, compact_long_value o s = (Ok r, s) /\
    (forall c, r = Some c -> value o (world s) = Some c /\ - ssize_max - 1 <= c <= ssize_max).
Proof.
  unfold compact_long_value, asks, gets, mbind, eff_bind. simpl.
  destruct (PyLong_CheckExact sc o (world s)) eqn:He; [|by exists None]. simpl. destruct access; simpl; [| |by exists None].
  - destruct (PyUnstable_Long_IsCompact sc o (world s)) eqn:Hc; [|by exists None].
    eexists. split; [done|]. intros c [= <-]. by apply compact_value.
  - destruct (Z.leb_spec (-1) (Py_SIZE sc o (world s))), (Z.leb_spec (Py_SIZE sc o (world s)) 1); try by exists None.
    simpl. eexists. split; [done|]. intros c [= <-].
    destruct (digit_value o (world s) He ltac:(lia)) as [Hd ->].
    unfold ssize_max. set (size := Py_SIZE sc o (world s)) in *. set (d := ob_digit0 sc o (world s)) in *.
    destruct (Z.eqb_spec size 0) as [->|]; [split; [f_equal; lia|lia]|].
    destruct (Z.ltb_spec 0 size); [assert (size = 1) as -> by lia|assert (size = -1) as -> by lia]; (split; [f_equal; lia|lia]).
Qed.

(** What a converter of an integer type with range [lo, hi] gives. *)
Definition in_range (lo hi : Z) (o : obj) (w : W) : option Z :=
  match value o w with
  | Some v => if (lo <=? v) && (v <=? hi) then Some v else None
  | None => None
  end.

Lemma range_test lo hi v :
  (v <? lo) || (hi <? v) = negb ((lo <=? v) && (v <=? hi)).
Proof. rewrite negb_andb, <- !Z.ltb_antisym. done. Qed.

Lemma clear_nothing s : pending s = None -> PyErr_Clear s = (Ok tt, s).
Proof. intros Hp. unfold PyErr_Clear. destruct s. simpl in *. by subst. Qed.

Lemma not_long o s : PyLong_Check sc o (world s) = false -> value o (world s) = None.
Proof.
  intros Hc. destruct (value o (world s)) as [v|] eqn:Hv; [|done].
  assert (PyLong_Check sc o (world s) = true) by (apply check_value; by eexists). congruence.
Qed.

Lemma as_long_run o s v :
  value o (world s) = Some v ->
  as_long o s = (Ok (if (long_min long_bits <=? v) && (v <=? long_max long_bits) then (v, 0)
                     else (-1, if v <? 0 then -1 else 1)), s).
Proof. intros Hv. unfold as_long. rewrite (as_long_value o _ v Hv). by destruct (_ && _). Qed.

Lemma int_from_exact o s :
  32 <= long_bits -> pending s = None -> int_from o s = (Ok (in_range int_min int_max o (world s)), s).
Proof.
  intros Hbits Hp. unfold int_from, in_range.
  destruct (compact_long_value_run o s) as (r & Hr & Hv). rewrite (eff_bind_run _ _ _ _ _ Hr).
  destruct r as [c|].
  { destruct (Hv c eq_refl) as [-> _]. rewrite range_test. by destruct ((int_min <=? c) && (c <=? int_max)). }
  rewrite (eff_bind_run _ _ s (PyLong_Check sc o (world s)) s) by done.
  destruct (PyLong_Check sc o (world s)) eqn:Hc; cbn [negb]; [|by rewrite not_long].
  apply check_value in Hc as [v Hv']. rewrite (eff_bind_run _ _ _ _ _ (as_long_run o s v Hv')), Hv'.
  assert (2 ^ 31 <= 2 ^ (long_bits - 1)) by (apply Z.pow_le_mono_r; lia).
  destruct ((long_min long_bits <=? v) && (v <=? long_max long_bits)) eqn:Hl;
    rewrite (eff_bind_run _ _ s false s) by (unfold PyErr_Occurred, gets; by rewrite Hp).
  - simpl. rewrite range_test. by destruct ((int_min <=? v) && (v <=? int_max)).
  - replace (negb ((if v <? 0 then -1 else 1) =? 0) || false) with true by (by destruct (v <? 0)).
    rewrite (eff_bind_run _ _ _ _ _ (clear_nothing s Hp)).
    replace ((int_min <=? v) && (v <=? int_max)) with false; [done|]. symmetry. apply andb_false_iff.
    unfold long_min, long_max, int_min, int_max in *. apply andb_false_iff in Hl as [Hl|Hl]; apply Z.leb_gt in Hl;
      [left|right]; apply Z.leb_gt; lia.
Qed.

(** Every compact value fits [unsigned long]: a [long] of 64 bits, or small digits. *)
Definition compact_fits : Prop :=
  long_bits = 64 \/
  forall o w, PyLong_CheckExact sc o w = true ->
    PyUnstable_Long_IsCompact sc o w = true -> PyUnstable_Long_CompactValue sc o w < 2 ^ long_bits.

Lemma compact_mod o s c :
  32 <= long_bits -> compact_fits -> compact_long_value o s = (Ok (Some c), s) -> 0 <= c -> c mod 2 ^ long_bits = c.
Proof.
  intros Hbits Hfits Hrun Hc. apply Z.mod_small. split; [done|].
  destruct (compact_long_value_run o s) as (r & Hr & Hv). rewrite Hr in Hrun. simplify_eq.
  destruct Hfits as [->|Hfits]; [destruct (Hv c eq_refl) as [_ Hb]; unfold ssize_max in Hb; lia|].
  assert (2 ^ 32 <= 2 ^ long_bits) by (apply Z.pow_le_mono_r; lia).
  unfold compact_long_value, asks, gets, mbind, eff_bind, mret, eff_ret in Hr. simpl in Hr.
  destruct (PyLong_CheckExact sc o (world s)) eqn:He; simpl in Hr; [|by simplify_eq]. destruct access; simpl in Hr; [| |by simplify_eq].
  - destruct (PyUnstable_Long_IsCompact sc o (world s)) eqn:Hco; simplify_eq. by apply Hfits.
  - destruct (Z.leb_spec (-1) (Py_SIZE sc o (world s))), (Z.leb_spec (Py_SIZE sc o (world s)) 1); simplify_eq/=.
    destruct (digit_value o (world s) He ltac:(lia)) as [Hd _].
    destruct (Py_SIZE sc o (world s) =? 0), (0 <? Py_SIZE sc o (world s)); lia.
Qed.

Lemma as_unsigned_run o s v :
  value o (world s) = Some v -> pending s = None ->
  exists w e, as_unsigned_long o s =
    (Ok (if (0 <=? v) && (v <? 2 ^ long_bits) then v else 2 ^ long_bits - 1),
     mk_py (held s) (if (0 <=? v) && (v <? 2 ^ long_bits) then None else Some e) w (heap s)).
Proof.
  intros Hv Hp. pose proof (as_unsigned_value o (world s) v Hv) as Hu.
  unfold as_unsigned_long, api_status, mbind, eff_bind.
  destruct (PyLong_AsUnsignedLong sc o (world s)) as [w r]. simpl in Hu.
  destruct ((0 <=? v) && (v <? 2 ^ long_bits)).
  - subst r. exists w, no_err. by rewrite Hp.
  - destruct Hu as [e ->]. by exists w, e.
Qed.

Lemma unsigned_from_exact o s :
  32 <= long_bits -> compact_fits -> pending s = None ->
  exists w, unsigned_from o s = (Ok (in_range 0 unsigned_max o (world s)), mk_py (held s) None w (heap s)).
Proof.
  intros Hbits Hfits Hp. unfold unsigned_from, in_range.
  assert (forall b c, (if (b : bool) then (mret None : M (option Z)) else mret c) s = (Ok (if b then None else c), s)) as Hif
    by (by intros []).
  assert (s = mk_py (held s) None (world s) (heap s)) as Hs by (destruct s; simpl in *; by subst).
  destruct (compact_long_value_run o s) as (r & Hr & Hv). rewrite (eff_bind_run _ _ _ _ _ Hr).
  destruct r as [c|].
  { exists (world s). destruct (Hv c eq_refl) as [-> _]. rewrite <- Hs.
    destruct (Z.ltb_spec c 0) as [Hneg|Hpos]; simpl.
    - by rewrite (proj2 (Z.leb_gt 0 c)) by lia.
    - rewrite (proj2 (Z.leb_le 0 c)) by lia. rewrite (compact_mod o s c) by done. simpl.
      rewrite Z.ltb_antisym. destruct (Z.leb_spec c unsigned_max) as [Hle|]; [|done]. simpl.
      rewrite Z.mod_small; [done|]. unfold unsigned_max in Hle. lia. }
  rewrite (eff_bind_run _ _ s (PyLong_Check sc o (world s)) s) by done.
  destruct (PyLong_Check sc o (world s)) eqn:Hc; cbn [negb]; [|exists (world s); rewrite not_long, <- Hs; done].
  apply check_value in Hc as [v Hv']. destruct (as_unsigned_run o s v Hv' Hp) as (w & e & Hu).
  rewrite (eff_bind_run _ _ _ _ _ Hu), Hv'. exists w.
  assert (2 ^ 32 <= 2 ^ long_bits) by (apply Z.pow_le_mono_r; lia).
  destruct (Z.leb_spec 0 v) as [H0|H0], (Z.ltb_spec v (2 ^ long_bits)) as [H1|H1]; simpl; try done.
  - rewrite Z.ltb_antisym. destruct (Z.leb_spec v unsigned_max) as [Hle|]; [|done]. cbn.
    rewrite Z.mod_small; [done|]. unfold unsigned_max in Hle. lia.
  - rewrite (proj2 (Z.leb_gt v unsigned_max)); [done|]. unfold unsigned_max. lia.
Qed.

Lemma string_from_exact o s :
  pending s = None ->
  match string_from o s with
  | (Ok r, s') => r = (if PyUnicode_Check sc o (world s) then utf8 o (world s) else None) /\ held s' = held s /\ pending s' = None
  | (Throw e, s') => e = runtime_error (lit "dynabridge Python string conversion failed") /\ held s' = held s /\
      PyUnicode_Check sc o (world s) = true /\ is_Some (utf8 o (world s)) /\ pending s' ≠ None
  | _ => False
  end.
Proof.
  intros Hp. unfold string_from. rewrite (eff_bind_run _ _ s (PyUnicode_Check sc o (world s)) s) by done.
  destruct (PyUnicode_Check sc o (world s)) eqn:Hstr; [|done]. cbn [negb]. pose proof (as_utf8 o (world s) Hstr) as Hu.
  unfold api_status, mbind, eff_bind, gets.
  destruct (PyUnicode_AsUTF8AndSize sc o (world s)) as [w [t|e]]; simpl in *; destruct (utf8 o (world s)) as [t'|]; try done.
  - by subst.
  - rewrite Hu. by split_and!; eauto.
  - rewrite Hu. done.
Qed.

(** ** The converters keep the references straight *)

Lemma owns_raise_if_null L message r :
  owns (W := W) (C := C) ∅ L (orefs r) (raise_if_null message r) (fun o => {[+ o +]}).
Proof. destruct r as [o|]; [by apply owns_ret|]. by apply owns_throw_plain. Qed.

Lemma owns_from_cast {T} lent L (from : obj -> M (option T)) o :
  owns lent L ∅ (from o) (fun _ => ∅) -> owns lent L ∅ (from_cast from o) (fun _ => ∅).
Proof.
  intros Hf. eapply owns_bind; [exact Hf|intros [t|]]; [by apply owns_ret|by apply owns_throw_plain].
Qed.

Lemma owns_compact lent L o : owns lent L ∅ (compact_long_value o) (fun _ => ∅).
Proof.
  apply (owns_ledger_pure lent L ∅). intros s. destruct (compact_long_value_run o s) as (r & -> & _). done.
Qed.

Lemma int_conversion lent : conversion lent (from_cast int_from).
Proof.
  intros L o _. apply owns_from_cast. eapply owns_bind; [apply owns_compact|intros [c|]].
  { by destruct (_ || _); apply owns_ret. }
  eapply owns_bind; [apply owns_ledger_pure, asks_pure|intros [|]; cbn [negb]]; [|by apply owns_ret].
  eapply (owns_bind _ _ _ _ _ (fun _ => ∅)).
  { apply owns_ledger_pure. intros s. unfold as_long.
    by destruct (PyLong_AsLongAndOverflow sc o (world s)) as [[r ov] [e|]]. }
  intros [r ov]. eapply owns_bind; [apply owns_ledger_pure, occurred_pure|intros oc].
  destruct (negb (ov =? 0) || oc); [|by destruct (_ || _); apply owns_ret].
  eapply owns_bind; [apply owns_ledger_pure, clear_pure|intros []; by apply owns_ret].
Qed.

Lemma unsigned_conversion lent : conversion lent (from_cast unsigned_from).
Proof.
  intros L o _. apply owns_from_cast. eapply owns_bind; [apply owns_compact|intros [c|]].
  { by destruct (_ || _); apply owns_ret. }
  eapply owns_bind; [apply owns_ledger_pure, asks_pure|intros [|]; cbn [negb]]; [|by apply owns_ret].
  eapply (owns_bind _ _ _ _ _ (fun _ => ∅)).
  { eapply owns_bind; [apply owns_ledger_pure, api_status_pure|intros r; by apply owns_ret]. }
  intros r. eapply owns_bind; [apply owns_ledger_pure, occurred_pure|intros [|]].
  - eapply owns_bind; [apply owns_ledger_pure, clear_pure|intros []; by apply owns_ret].
  - by destruct (_ <? _); apply owns_ret.
Qed.

Lemma string_conversion lent : conversion lent (from_cast string_from).
Proof.
  intros L o _. apply owns_from_cast.
  eapply owns_bind; [apply owns_ledger_pure, asks_pure|intros [|]; cbn [negb]]; [|by apply owns_ret].
  eapply owns_bind; [apply owns_ledger_pure, api_status_pure|intros [t|]; [by apply owns_ret|]].
  eapply (owns_bind _ _ _ _ _ (fun _ => ∅)); [apply owns_ledger_pure; by intros s|intros e].
  destruct (match e with Some e => _ | None => false end); [|by apply owns_throw_plain].
  eapply owns_bind; [apply owns_ledger_pure, clear_pure|intros []; by apply owns_ret].
Qed.

(** ** Properties *)

(** C35: The conversions from Python accept exactly what the C++ type can hold, on every build
    and for every width of [long]: an [int] or one of its subclasses within the bounds of
    [int] or [unsigned], a [str] with an encoding; everything else is no match, with no
    exception left pending. A string conversion that fails for another reason raises. *)
Theorem python_conversions_exact o s :
  32 <= long_bits -> compact_fits -> pending s = None ->
  int_from o s = (Ok (in_range int_min int_max o (world s)), s) /\
  (exists w, unsigned_from o s = (Ok (in_range 0 unsigned_max o (world s)), mk_py (held s) None w (heap s))) /\
  match string_from o s with
  | (Ok r, s') => r = (if PyUnicode_Check sc o (world s) then utf8 o (world s) else None) /\ pending s' = None
  | (Throw e, s') => e = runtime_error (lit "dynabridge Python string conversion failed") /\
      is_Some (utf8 o (world s)) /\ pending s' ≠ None
  | _ => False
  end.
Proof.
  intros Hbits Hfits Hp. split; [by apply int_from_exact|]. split; [by apply unsigned_from_exact|].
  pose proof (string_from_exact o s Hp) as Hs. destruct (string_from o s) as [[r|e| |] s']; try done.
  - by destruct Hs as (? & _ & ?).
  - by destruct Hs as (? & _ & _ & ? & ?).
Qed.

Lemma made_pending (f : W -> W * reply obj) message o s s' :
  pending s = None -> (api_new f ≫= raise_if_null message) s = (Ok o, s') ->
  pending s' = None /\ held s' = held s ⊎ {[+ o +]} /\ f (world s) = (world s', Returned o).
Proof.
  intros Hp. unfold api_new, api_status, acquire, raise_if_null, mbind, eff_bind, mret, eff_ret.
  destruct (f (world s)) as [w [r|e]]; simpl; intros Hrun; simplify_eq/=. by split_and!.
Qed.

Lemma in_bounds lo hi z : lo <= z <= hi -> (lo <=? z) && (z <=? hi) = true.
Proof. intros [??]. apply andb_true_iff. by rewrite !Z.leb_le. Qed.

(** What C++ passes to Python and gets back is what it passed: every [int], every
    [unsigned], every string whose object could be made. The new object is owned once. *)
Theorem python_scalars_roundtrip s o s' :
  32 <= long_bits -> compact_fits -> pending s = None ->
  (forall z, int_min <= z <= int_max -> int_to z s = (Ok o, s') ->
    (int_from o s').1 = Ok (Some z) /\ held s' = held s ⊎ {[+ o +]}) /\
  (forall z, 0 <= z <= unsigned_max -> unsigned_to z s = (Ok o, s') ->
    (unsigned_from o s').1 = Ok (Some z) /\ held s' = held s ⊎ {[+ o +]}) /\
  (forall t, string_to t s = (Ok o, s') ->
    ((string_from o s').1 = Ok (Some t) \/
     (string_from o s').1 = Throw (runtime_error (lit "dynabridge Python string conversion failed"))) /\
    held s' = held s ⊎ {[+ o +]}).
Proof.
  intros Hbits Hfits Hp. split_and!.
  - intros z Hz (Hp' & Hh & Hf)%made_pending; [|done]. split; [|done].
    rewrite int_from_exact by done. unfold in_range. rewrite (from_long _ _ _ _ Hf).
    by rewrite in_bounds.
  - intros z Hz (Hp' & Hh & Hf)%made_pending; [|done]. split; [|done].
    destruct (unsigned_from_exact o s' Hbits Hfits Hp') as [w ->]. unfold in_range.
    rewrite (from_unsigned_long _ _ _ _ Hf). by rewrite !(proj2 (Z.leb_le _ _)) by apply Hz.
  - intros t. unfold string_to. destruct (ssize_max <? zlen t); [done|].
    intros (Hp' & Hh & Hf)%made_pending; [|done]. split; [|done].
    destruct (from_utf8 _ _ _ _ Hf) as [Hstr Ht]. pose proof (string_from_exact o s' Hp') as Hs.
    rewrite Hstr, Ht in Hs. destruct (string_from o s') as [[r|e| |] s2]; try done; simpl.
    + left. by destruct Hs as (-> & _).
    + right. by destruct Hs as (-> & _).
Qed.
End Converters.

(** ** Objects that hold an integer or a text, with a [long] of 32 bits *)

Module ScalarSample.
Abbreviation W := (list (Z + text)) (only parsing).
Definition value (o : obj) (w : W) : option Z := match w !! o with Some (inl z) => Some z | _ => None end.
Definition utf8 (o : obj) (w : W) : option text := match w !! o with Some (inr t) => Some t | _ => None end.
Definition is_some {A} (o : option A) : bool := match o with Some _ => true | None => false end.
Definition small (o : obj) (w : W) : bool :=
  match value o w with Some v => Z.abs v <? 2 ^ 30 | None => false end.
Definition make (x : Z + text) (w : W) : W * reply obj := (w ++ [x], Returned (length w)).
Definition overflow_error : err := mk_err (Some 1001%nat) None None.

Definition sample : scalars W := {|
  PyLong_CheckExact := fun o w => is_some (value o w);
  PyLong_Check := fun o w => is_some (value o w);
  PyUnstable_Long_IsCompact := small;
  PyUnstable_Long_CompactValue := fun o w => if small o w then default 0 (value o w) else 0;
  Py_SIZE := fun o w => if small o w then Z.sgn (default 0 (value o w)) else 2;
  ob_digit0 := fun o w => Z.abs (default 0 (value o w));
  PyLong_AsLongAndOverflow := fun o w =>
    match value o w with
    | Some v => if (long_min 32 <=? v) && (v <=? long_max 32) then (v, 0, None) else (-1, if v <? 0 then -1 else 1, None)
    | None => (-1, 0, Some overflow_error)
    end;
  PyLong_AsUnsignedLong := fun o w =>
    match value o w with
    | Some v => if (0 <=? v) && (v <? 2 ^ 32) then (w, Returned v) else (w, Raised overflow_error)
    | None => (w, Raised overflow_error)
    end;
  PyLong_FromLong := fun z => make (inl z);
  PyLong_FromUnsignedLong := fun z => make (inl z);
  PyUnicode_Check := fun o w => is_some (utf8 o w);
  PyUnicode_AsUTF8AndSize := fun o w =>
    match utf8 o w with Some t => (w, Returned t) | None => (w, Raised overflow_error) end;
  PyUnicode_FromStringAndSize := fun t => make (inr t);
  is_UnicodeEncodeError := fun _ => false
|}.

Lemma is_some_true {A} (o : option A) : is_some o = true <-> is_Some o.
Proof. destruct o; split; done. Qed.

#[global] Instance sample_laws : ScalarLaws sample 32 value utf8.
Proof.
  split; simpl.
  - done.
  - intros o w. apply is_some_true.
  - intros o w _ Hs. rewrite Hs. unfold small in Hs. destruct (value o w) as [v|]; [|done]. simpl.
    apply Z.ltb_lt in Hs. unfold ssize_max. split; [done|lia].
  - intros o w Hv Hs. unfold small in *. destruct (value o w) as [v|]; [|done]. simpl.
    destruct (Z.ltb_spec (Z.abs v) (2 ^ 30)); [|lia]. split; [lia|]. f_equal. lia.
  - intros o w v ->. done.
  - intros o w v ->. destruct ((0 <=? v) && (v <? 2 ^ 32)); simpl; [done|by eexists].
  - unfold make, value. intros z w w' o [= <- <-]. by rewrite list_lookup_middle.
  - unfold make, value. intros z w w' o [= <- <-]. by rewrite list_lookup_middle.
  - intros o w Hs. by destruct (utf8 o w).
  - unfold make, utf8. intros z w w' o [= <- <-]. by rewrite !list_lookup_middle.
Qed.

Lemma sample_fits : compact_fits sample 32.
Proof.
  right. intros o w _ Hs. simpl in *. rewrite Hs. unfold small in Hs. destruct (value o w) as [v|]; [|done]. simpl.
  apply Z.ltb_lt in Hs. lia.
Qed.
Definition start : py_state W unit := mk_py ∅ None [inl (2 ^ 40); inr (lit "x"); inl (-7)] tt.
End ScalarSample.

Lemma python_conversions_exact_witness :
  int_from ScalarSample.sample compact_api 0 ScalarSample.start = (Ok None, ScalarSample.start) /\
  int_from ScalarSample.sample digit_fields 2 ScalarSample.start = (Ok (Some (-7)), ScalarSample.start).
Proof.
  split; [exact (proj1 (python_conversions_exact ScalarSample.sample 32 compact_api ScalarSample.value ScalarSample.utf8
      0 ScalarSample.start ltac:(lia) ScalarSample.sample_fits eq_refl))
    |exact (proj1 (python_conversions_exact ScalarSample.sample 32 digit_fields ScalarSample.value ScalarSample.utf8
      2 ScalarSample.start ltac:(lia) ScalarSample.sample_fits eq_refl))].
Defined.

Lemma python_scalars_roundtrip_witness :
  (int_from ScalarSample.sample no_access 3 (int_to ScalarSample.sample (-2147483648) ScalarSample.start).2).1 =
  Ok (Some (-2147483648)).
Proof.
  apply (python_scalars_roundtrip ScalarSample.sample 32 no_access ScalarSample.value ScalarSample.utf8
      ScalarSample.start 3 _ ltac:(lia) ScalarSample.sample_fits eq_refl); [vm_compute; split; congruence|].
  vm_compute. reflexivity.
Defined.
