(* ===== verification/PythonDispatch.v ===== *)
(** * backends/python.h: calls from Python

    The Python backend as a backend of export dispatch, and the callables that
    [make_callable] gives to Python: what a call of one does, by vector or by tuple, from
    its arguments to the object it returns or the error it sets. The converters are those
    of python_converters.h, and objects are bound as arguments and as receivers. *)

From Stdlib Require Import ZArith Lia.
From stdpp Require Import base list gmap gmultiset.
From S2P Require Import Prelude ExportDispatch DirectDispatch PythonRefs PythonCall PythonObjects PythonLifetime PythonCallbacks PythonConverters.

Section Calls.
Context {W N : Type} `{ErrorPolicy} (py : interpreter W) (lent : gset obj).
Context (sc : scalars W) (long_bits : Z) (access : long_access) (export_class : nat -> option obj).
Abbreviation state := (py_state W py_heap).
Abbreviation M := (eff state).
Implicit Types (s : state).

(** ** The backend *)

(** [export_argument::try_make]: [from_optional], or [try_bind_export_object]. *)
Definition py_try_make (t : param) (o : obj) : M (option cpp_value) :=
  match t with
  | PInt => r ← int_from sc access o; mret (option_map AInt r)
  | PUnsigned => r ← unsigned_from sc long_bits access o; mret (option_map AUnsigned r)
  | PString => r ← string_from sc o; mret (option_map AString r)
  | PObject c =>
      r ← try_bind_export_object_impl py export_class c (Some o);
      mret (match r with Some (Some p) => Some (AObject p) | _ => None end)
  end.

(** [export_argument::get]: of an object, the native that its instance holds. *)
Definition py_get (t : param) (n : cpp_value) : M cpp_value :=
  match n with
  | AObject o =>
      p ← borrowed_native (Some o);
      match p with
      | Some _ => mret n
      | None => raise (bad_conversion (lit "dynabridge exported object has no bound native proxy"))
      end
  | _ => mret n
  end.

(** [to_export_result]: a type without a converter does not compile. *)
Definition py_to (t : param) (r : cpp_value) : M obj :=
  match t, r with
  | PInt, AInt z => int_to sc z
  | PUnsigned, AUnsigned z => unsigned_to sc z
  | PString, AString x => string_to sc x
  | _, _ => undefined_behaviour
  end.

(** [py_backend] as the backend of export dispatch: it has no [export_probe_policy], and
    its converters have no probe. *)
#[export] Instance py_backend : ExportBackend param obj cpp_value cpp_value cpp_value state := {|
  uses_rpc_export_probe := false;
  is_bridge_descriptor t := match t with PObject _ => true | _ => false end;
  argument_probe t d := undefined_behaviour;
  argument_try_make t d := o ← py_try_make t d; mret (o, d);
  argument_prepare t d := py_try_make t d;
  argument_get t n := py_get t n;
  to_export_result t r := py_to t r;
  ExportDispatch.undefined_value := o ← PythonCall.undefined_value py lent; mret (default (Py_None py) o)
|}.

(** ** The callables given to Python *)

Context (order : nat -> list nat).
Abbreviation function := (ExportDispatch.target (T := param) (A := cpp_value) (R := cpp_value) (W := state)).

(** What a holder holds: the binder of a free signature, of a member of a class, whose
    receiver is the first argument, or of an overload group. *)
Inductive callable_binder :=
| FreeBinder (c : contract param) (f : function)
| MemberBinder (cls : nat) (c : contract param) (f : obj -> function)
| OverloadBinder (b : export_overload_binder (T := param) (A := cpp_value) (R := cpp_value) (W := state)).

(** [bind_export_object], and the native of what it bound. *)
Definition bind_receiver (cls : nat) (self : obj) : M (option obj) :=
  object ← bind_export_object_impl py export_class cls (Some self); borrowed_native object.

(** The call of a binder of one signature. *)
Definition binder_call (b : callable_binder) (args : list obj) : M (option obj) :=
  default undefined_behaviour
    match b, args with
    | FreeBinder c f, _ => export_callable_binder_call order c f args
    | MemberBinder cls c f, self :: args => export_member_binder_call order (bind_receiver cls) c f self args
    | _, _ => None
    end.

(** [is_void_v<R>] of its signature. *)
Definition is_void (b : callable_binder) : bool :=
  match b with
  | FreeBinder c _ | MemberBinder _ c _ => match result_type c with None => true | Some _ => false end
  | OverloadBinder _ => false
  end.

(** [dispatch_optional] over [tuple_accessor] and [vector_accessor]. *)
Definition binder_dispatch (b : callable_binder) (args : list obj) : M (option (option obj)) :=
  match b with
  | OverloadBinder b => fun s =>
      let '(r, f) := dispatch_optional order b (length args) None (mk_frame args s) in
      (match r with Ok d => Ok (Some <$> d) | Throw e => Throw e | Aborted => Aborted | Undefined => Undefined end,
       ExportDispatch.world f)
  | _ => undefined_behaviour
  end.

(** The holder that [make_callable] makes for a binder. *)
Definition holder_for (kind : nat) (b : callable_binder) : holder :=
  match b with
  | FreeBinder c _ => typed_callable_holder (callable_arity c) kind
  | MemberBinder _ c _ => typed_callable_holder (S (callable_arity c)) kind
  | OverloadBinder _ => overload_callable_holder kind
  end.

Context (binders : nat -> callable_binder).
Context (convert : nat -> list obj -> M (list N)) (construct_native : nat -> list N -> M unit).
Definition call_vector (kind : nat) : Z -> Z -> option nat -> M (option obj) :=
  invoke_vector py lent export_class convert construct_native (fun b => binder_call (binders b))
    (fun b => is_void (binders b)) (fun b => binder_dispatch (binders b)) (holder_for kind (binders kind)).
Definition call_tuple (kind : nat) : obj -> M (option obj) :=
  invoke_tuple py lent export_class convert construct_native (fun b => binder_call (binders b))
    (fun b => is_void (binders b)) (fun b => binder_dispatch (binders b)) (holder_for kind (binders kind)).

(** ** What a call means *)

Context (value : obj -> W -> option Z) (utf8 : obj -> W -> option text).

(** What the arguments are read as. *)
Definition reads (s : state) (t : param) (o : obj) : option cpp_value :=
  match t with
  | PInt => AInt <$> in_range value int_min int_max o (world s)
  | PUnsigned => AUnsigned <$> in_range value 0 unsigned_max o (world s)
  | PString => AString <$> (if PyUnicode_Check sc o (world s) then utf8 o (world s) else None)
  | PObject c =>
      class ← export_class c;
      if PyObject_TypeCheck py o class (world s) then Some (AObject o) else None
  end.

(** The local call a call from Python stands for, or the exception there is instead. *)
Definition local_call (s : state) (b : callable_binder) (args : list obj) : exn + M obj :=
  let take c args := arguments (reads s) (fun _ n => n) (parameters c) args in
  match b, args with
  | FreeBinder c f, _ =>
      if negb (length args =? callable_arity c)%nat then inl (bad_conversion (lit "dynabridge Python callback received wrong arity"))
      else match take c args with
           | Some xs => inr (answer f c xs)
           | None => inl (bad_conversion (lit "dynabridge export argument conversion failed"))
           end
  | MemberBinder cls c f, self :: args =>
      if negb (length args =? callable_arity c)%nat then inl (bad_conversion (lit "dynabridge Python callback received wrong arity"))
      else match reads s (PObject cls) self with
           | None => inl (runtime_error (lit "dynabridge export object has no proxy receiver"))
           | Some _ =>
               match take c args with
               | Some xs => inr (answer (f self) c xs)
               | None => inl (bad_conversion (lit "dynabridge export member argument conversion failed"))
               end
           end
  | MemberBinder _ _ _, [] => inl (bad_conversion (lit "dynabridge Python callback received wrong arity"))
  | OverloadBinder b, _ =>
      match chosen (reads s) (fun _ n => n) (length args) None args (overloads b) with
      | Some (c, xs) => inr (answer (callable_ b) c xs)
      | None => inl (bad_conversion (lit "dynabridge Python overload has no matching signature"))
      end
  end.

Definition fallback (b : callable_binder) : string :=
  match b with
  | OverloadBinder _ => "dynabridge Python overload callback failed"
  | _ => "dynabridge Python callback failed"
  end.

(** What Python sees of it: the result, or the error that the handlers set. *)
Definition attempt (call : exn + M obj) : M (option obj) :=
  match call with inl e => throw e | inr call => r ← call; mret (Some r) end.
Definition seen (b : callable_binder) (call : exn + M obj) : M (option obj) :=
  catching py lent (fallback b) (attempt call).

(** ** What reading keeps *)

(** The objects are what they were. *)
Record same_objects (w w' : W) : Prop := {
  same_value o : value o w' = value o w;
  same_text o : utf8 o w' = utf8 o w;
  same_kind o : PyUnicode_Check sc o w' = PyUnicode_Check sc o w;
  same_type o t : PyObject_TypeCheck py o t w' = PyObject_TypeCheck py o t w
}.

(** Documented: a conversion reads; the text of a string is there when there is memory for it. *)
Class ReadingLaws : Prop := {
  as_unsigned_reads o w : same_objects w (PyLong_AsUnsignedLong sc o w).1;
  as_utf8_reads o w : same_objects w (PyUnicode_AsUTF8AndSize sc o w).1;
  utf8_returned o w t : PyUnicode_Check sc o w = true -> utf8 o w = Some t -> (PyUnicode_AsUTF8AndSize sc o w).2 = Returned t
}.

Definition read_only (s s' : state) : Prop :=
  held s' = held s /\ heap s' = heap s /\ pending s' = None /\ same_objects (world s) (world s').

(** The signatures of a binder name classes that are registered. *)
Definition readable (t : param) : Prop := match t with PObject c => is_Some (export_class c) | _ => True end.
Definition readable_binder (b : callable_binder) : Prop :=
  match b with
  | FreeBinder c _ => Forall readable (parameters c)
  | MemberBinder cls c _ => readable (PObject cls) /\ Forall readable (parameters c)
  | OverloadBinder b => Forall (fun c => Forall readable (parameters c)) (overloads b)
  end.
(** The arguments that are instances of an exported class were initialised. *)
Definition initialised (s : state) (l : list obj) : Prop :=
  forall o c t, o ∈ l -> export_class c = Some t -> PyObject_TypeCheck py o t (world s) = true ->
  exists i, instances (heap s) !! o = Some i /\ native i = true.

Context (order_permutes : forall n, Permutation (order n) (seq 0 n)).
Context `{!ScalarLaws sc long_bits value utf8, !ReadingLaws} (exceptions : has_exceptions = true).
Context (bits : 32 <= long_bits) (fits : compact_fits sc long_bits).

Lemma same_refl w : same_objects w w.
Proof. by split. Qed.
Lemma same_trans w1 w2 w3 : same_objects w1 w2 -> same_objects w2 w3 -> same_objects w1 w3.
Proof. intros [] []. split; congruence. Qed.
Lemma read_only_refl s : pending s = None -> read_only s s.
Proof. intros Hp. split_and!; [done..|apply same_refl]. Qed.
Lemma read_only_trans s1 s2 s3 : read_only s1 s2 -> read_only s2 s3 -> read_only s1 s3.
Proof. intros (? & ? & ? & ?) (? & ? & ? & ?). split_and!; [congruence..|by eapply same_trans]. Qed.
Lemma reads_same s s' t o : read_only s s' -> reads s' t o = reads s t o.
Proof.
  intros (_ & _ & _ & []). unfold reads, in_range. destruct t as [| | |c]; rewrite ?same_value0, ?same_kind0, ?same_text0; try done.
  destruct (export_class c); [|done]. simpl. by rewrite same_type0.
Qed.

(** ** Arguments are read *)

Lemma unsigned_from_reads o s :
  pending s = None ->
  exists s', unsigned_from sc long_bits access o s = (Ok (in_range value 0 unsigned_max o (world s)), s') /\ read_only s s'.
Proof.
  intros Hp. destruct (unsigned_from_exact sc long_bits access value utf8 o s bits fits Hp) as [w Hrun].
  eexists. split; [exact Hrun|]. split_and!; [done..|]. cbn [world].
  assert (w = world s \/ w = (PyLong_AsUnsignedLong sc o (world s)).1) as [->| ->];
    [|apply same_refl|apply as_unsigned_reads].
  apply (f_equal (fun r => world r.2)) in Hrun. cbn [snd world] in Hrun. rewrite <- Hrun. clear Hrun. unfold unsigned_from.
  destruct (compact_long_value_run sc long_bits access value utf8 o s) as (r & Hr & _). rewrite (eff_bind_run _ _ _ _ _ Hr).
  destruct r as [z|]; [left; by destruct (_ || _)|].
  unfold asks, gets, mbind, eff_bind. destruct (PyLong_Check sc o (world s)); cbn [negb]; [right|by left].
  unfold as_unsigned_long, api_status, mbind, eff_bind.
  destruct (PyLong_AsUnsignedLong sc o (world s)) as [w1 [v|e]]; simpl; rewrite ?Hp; [|done].
  unfold mret, eff_ret. by destruct (unsigned_max <? v).
Qed.

Lemma string_from_reads o s :
  pending s = None ->
  exists s', string_from sc o s = (Ok (if PyUnicode_Check sc o (world s) then utf8 o (world s) else None), s') /\ read_only s s'.
Proof.
  intros Hp. unfold string_from, asks, gets, mbind, eff_bind.
  destruct (PyUnicode_Check sc o (world s)) eqn:Hstr; cbn [negb]; [|exists s; split; [done|by apply read_only_refl]].
  pose proof (as_utf8 o (world s) Hstr) as Hu. pose proof (utf8_returned o (world s)) as Ht.
  pose proof (as_utf8_reads o (world s)) as Hsame. unfold api_status.
  destruct (PyUnicode_AsUTF8AndSize sc o (world s)) as [w [t|e]]; cbn [fst snd] in *; destruct (utf8 o (world s)) as [t'|]; try done.
  - subst t'. eexists. split; [done|]. by split_and!.
  - by specialize (Ht t' Hstr eq_refl).
  - cbn. rewrite Hu. eexists. split; [done|]. by split_and!.
Qed.

Lemma python_try_make_reads t o s :
  readable t -> pending s = None -> exists s', py_try_make t o s = (Ok (reads s t o), s') /\ read_only s s'.
Proof.
  intros Hr Hp. destruct t as [| | |c]; cbn [py_try_make reads].
  - exists s. rewrite (eff_bind_run _ _ _ _ _ (int_from_exact sc long_bits access value utf8 o s bits Hp)).
    split; [done|by apply read_only_refl].
  - destruct (unsigned_from_reads o s Hp) as (s' & Hrun & Hs). exists s'. by rewrite (eff_bind_run _ _ _ _ _ Hrun).
  - destruct (string_from_reads o s Hp) as (s' & Hrun & Hs). exists s'. by rewrite (eff_bind_run _ _ _ _ _ Hrun).
  - exists s. split; [|by apply read_only_refl]. destruct Hr as [t Ht].
    unfold try_bind_export_object_impl, export_target, asks, gets, mbind, eff_bind. rewrite Ht. cbn.
    by destruct (PyObject_TypeCheck py o t (world s)).
Qed.

(** What an initialised instance is bound to. *)
Lemma native_bound o s : (exists i, instances (heap s) !! o = Some i /\ native i = true) ->
  borrowed_native (Some o) s = (Ok (Some o), s).
Proof.
  intros (i & Hi & Hn). unfold borrowed_native, native_from, instance_at, gets, mbind, eff_bind. rewrite Hi. cbn. by rewrite Hn.
Qed.

Lemma reads_object s t o n : reads s t o = Some (AObject n) -> n = o /\ exists c cls, t = PObject c /\ export_class c = Some cls /\
  PyObject_TypeCheck py o cls (world s) = true.
Proof.
  destruct t as [| | |c]; cbn.
  - by destruct (in_range _ _ _ _ _).
  - by destruct (in_range _ _ _ _ _).
  - destruct (PyUnicode_Check sc o (world s)); [|done]. by destruct (utf8 o (world s)).
  - destruct (export_class c) as [cls|] eqn:Hc; [|done]. simpl.
    destruct (PyObject_TypeCheck py o cls (world s)) eqn:Ht; [|done]. intros [= <-]. eauto 10.
Qed.

Lemma python_reads_env s l : pending s = None -> initialised s l -> Reads readable (reads s) (fun _ n => n) l (read_only s).
Proof.
  intros Hp Hl. split; [done| |].
  - intros t o s1 Ht _ Hs. pose proof Hs as (_ & _ & Hp1 & _). destruct (python_try_make_reads t o s1 Ht Hp1) as (s2 & Hrun & Hs2).
    rewrite (reads_same s s1) in Hrun by done. exists s2. split; [|by eapply read_only_trans].
    cbn. by rewrite (eff_bind_run _ _ _ _ _ Hrun).
  - intros t o n s1 Ht Ho Hn Hs. exists s1. split; [|done]. cbn. unfold py_get. destruct n as [| | |p]; try done.
    destruct (reads_object _ _ _ _ Hn) as (-> & c & cls & -> & Hc & Hcheck). destruct Hs as (_ & Heap & Hp1 & _).
    rewrite (eff_bind_run _ _ s1 (Some o) s1); [done|]. apply native_bound. rewrite Heap. by eapply Hl.
Qed.

(** ** Binders *)

(** What a binder of one signature does with its arguments. *)
Definition finish (c : contract param) (f : function) (xs : list cpp_value) : M (option obj) :=
  r ← f c xs;
  match result_type c with
  | Some t => d ← to_export_result t r; mret (Some d)
  | None => mret None
  end.

Lemma finish_answer c f xs s :
  (if is_void (FreeBinder c f) then finish c f xs ;; return_none py lent else finish c f xs) s =
  (r ← answer f c xs; mret (Some r)) s.
Proof.
  unfold is_void, finish, answer, return_none. destruct (result_type c) as [t|]; unfold mbind, eff_bind, mret, eff_ret;
    destruct (f c xs s) as [[r| | |] s1]; try done.
  cbn. unfold PythonCall.undefined_value, mbind, eff_bind, mret, eff_ret.
    by destruct (Py_INCREF lent (Some (Py_None py)) s1) as [[] ?].
Qed.

Lemma typed_runs message c (f g : function) l s :
  pending s = None -> initialised s l -> Forall readable (parameters c) -> length l = callable_arity c ->
  let m := with_tuple l (fun _ _ => invoke_converted order (lit message) (parameters c) (finish c f)) in
  exists s', read_only s s' /\
    (if is_void (FreeBinder c g) then m ;; return_none py lent else m) s =
    match arguments (reads s) (fun _ n => n) (parameters c) l with
    | Some xs => (r ← answer f c xs; mret (Some r)) s'
    | None => (Throw (bad_conversion (lit message)), s')
    end.
Proof.
  intros Hp Hi Hr Hl m. pose proof (python_reads_env s l Hp Hi) as HR.
  destruct (invoke_converted_direct order order_permutes (HR := HR) (lit message) (parameters c) (finish c f) s)
    as (s' & Hs' & Hrun); [done|unfold callable_arity in Hl; lia|by apply read_only_refl|].
  exists s'. split; [done|].
  assert (m s = match arguments (reads s) (fun _ n => n) (parameters c) l with
    | Some xs => finish c f xs s' | None => (Throw (bad_conversion (lit message)), s') end) as Hm.
  { unfold m, with_tuple. rewrite Hrun. destruct (arguments _ _ _ _) as [xs|]; [apply on_world_leaves|].
    unfold raise, DYNABRIDGE_RAISE. by rewrite exceptions. }
  clear Hrun. destruct (arguments _ _ _ _) as [xs|].
  - rewrite <- finish_answer. unfold is_void. destruct (result_type c); [done|]. unfold mbind at 1, eff_bind at 1.
    rewrite Hm. reflexivity.
  - destruct (is_void _); [|done]. unfold mbind, eff_bind. by rewrite Hm.
Qed.

Lemma bind_receiver_run cls self s :
  readable (PObject cls) -> initialised s [self] ->
  bind_receiver cls self s = (Ok (match reads s (PObject cls) self with Some _ => Some self | None => None end), s).
Proof.
  intros [t Ht] Hi. unfold bind_receiver, bind_export_object_impl, export_target, reads, asks, gets.
  rewrite Ht. unfold mbind at 1, eff_bind at 1. unfold mbind at 1, eff_bind at 1. cbn.
  unfold mbind, eff_bind, mret, eff_ret. destruct (PyObject_TypeCheck py self t (world s)) eqn:Hc; [|done].
  apply native_bound. eapply Hi; [left|done|done].
Qed.

Lemma dispatch_runs b l s :
  pending s = None -> initialised s l -> readable_binder (OverloadBinder b) ->
  exists s', read_only s s' /\
    binder_dispatch (OverloadBinder b) l s =
    match chosen (reads s) (fun _ n => n) (length l) None l (overloads b) with
    | Some (c, xs) => (r ← answer (callable_ b) c xs; mret (Some (Some r))) s'
    | None => (Ok None, s')
    end.
Proof.
  intros Hp Hi Hr. pose proof (python_reads_env s l Hp Hi) as HR.
  destruct (dispatch_direct order order_permutes (callable_ b) (HR := HR) (overloads b) (length l) None s)
    as (s' & Hs' & Hrun); [done|by apply Forall_true|by apply read_only_refl|].
  exists s'. split; [done|]. unfold binder_dispatch, dispatch_optional. rewrite Hrun. clear Hrun.
  destruct (chosen _ _ _ _ _ _) as [[c xs]|]; [|done].
  unfold mbind, eff_bind, on_world, mret, eff_ret. cbn [ExportDispatch.world]. by destruct (answer _ _ _ _) as [[] ?].
Qed.

(** ** Entries *)

Lemma void_ext (v : bool) (m m' : M (option obj)) s :
  m s = m' s -> (if v then m ;; return_none py lent else m) s = (if v then m' ;; return_none py lent else m') s.
Proof. intros Hm. destruct v; [|done]. unfold mbind, eff_bind. by rewrite Hm. Qed.
Lemma catching_ext message (m m' : M (option obj)) s s' :
  m s = m' s' -> catching py lent message m s = catching py lent message m' s'.
Proof. unfold catching. by intros ->. Qed.
Lemma initialised_cons s o l : initialised s (o :: l) -> initialised s [o] /\ initialised s l.
Proof. intros Hi. split; intros o' c t Ho; apply Hi; set_solver. Qed.

(** An error that is set where the exception that sets it would have been caught. *)
Lemma type_error_caught message m s : type_error py m s = catching py lent message (throw (bad_conversion (lit m))) s.
Proof.
  unfold type_error, catching, throw, handle, PyErr_SetString, mbind, eff_bind.
  by destruct (make_error py (PyExc_TypeError py) (lit m) (world s)).
Qed.

(** The call of a binder that gets as many arguments as it takes. *)
Definition takes (b : callable_binder) (l : list obj) : Prop :=
  match b with
  | FreeBinder c _ => length l = callable_arity c
  | MemberBinder _ c _ => length l = S (callable_arity c)
  | OverloadBinder _ => False
  end.

Lemma typed_local b l s :
  pending s = None -> initialised s l -> readable_binder b -> takes b l ->
  exists s', read_only s s' /\
    (if is_void b then binder_call b l ;; return_none py lent else binder_call b l) s = attempt (local_call s b l) s'.
Proof.
  intros Hp Hi Hr Hl. destruct b as [c f|cls c f|b]; [| |done]; cbn [takes readable_binder] in *.
  - unfold local_call, binder_call, export_callable_binder_call. rewrite (proj2 (Nat.eqb_eq _ _) Hl). cbn [negb default].
    destruct (typed_runs "dynabridge export argument conversion failed" c f f l s Hp Hi Hr Hl) as (s' & Hs' & Hrun).
    exists s'. split; [done|]. cbn zeta in Hrun. etransitivity; [exact Hrun|]. by destruct (arguments _ _ _ _).
  - destruct l as [|self l]; [done|]. injection Hl as Hl. destruct Hr as [Hcls Hr]. apply initialised_cons in Hi as [Hself Hi].
    unfold local_call, binder_call, export_member_binder_call. rewrite (proj2 (Nat.eqb_eq _ _) Hl). cbn [negb default].
    pose proof (bind_receiver_run cls self s Hcls Hself) as Hb.
    destruct (reads s (PObject cls) self) as [x|].
    + destruct (typed_runs "dynabridge export member argument conversion failed" c (f self) (f self) l s Hp Hi Hr Hl)
        as (s' & Hs' & Hrun).
      exists s'. split; [done|]. erewrite (void_ext (is_void (MemberBinder cls c f))) by apply (eff_bind_run _ _ _ _ _ Hb).
      cbn zeta in Hrun. etransitivity; [exact Hrun|]. by destruct (arguments _ _ _ _).
    + exists s. split; [by apply read_only_refl|].
      erewrite (void_ext (is_void (MemberBinder cls c f))) by apply (eff_bind_run _ _ _ _ _ Hb).
      unfold attempt, raise, DYNABRIDGE_RAISE, throw, mbind, eff_bind. rewrite exceptions. by destruct (is_void _).
Qed.

Lemma overload_local b l s :
  pending s = None -> initialised s l -> readable_binder (OverloadBinder b) ->
  exists s', read_only s s' /\
    catching py lent (fallback (OverloadBinder b)) (result ← binder_dispatch (OverloadBinder b) l; unwrap_result py result) s =
    seen (OverloadBinder b) (local_call s (OverloadBinder b) l) s'.
Proof.
  intros Hp Hi Hr. destruct (dispatch_runs b l s Hp Hi Hr) as (s' & Hs' & Hrun). exists s'. split; [done|].
  unfold seen, attempt, local_call. destruct (chosen _ _ _ _ _ _) as [[c xs]|].
  - apply catching_ext. unfold mbind at 1, eff_bind at 1. rewrite Hrun.
    unfold mbind, eff_bind, mret, eff_ret. by destruct (answer _ _ _ s') as [[] ?].
  - rewrite <- type_error_caught. unfold catching. rewrite (eff_bind_run _ _ _ _ _ Hrun). cbn [unwrap_result].
    unfold type_error, PyErr_SetString, mbind, eff_bind.
    by destruct (make_error py (PyExc_TypeError py) _ (world s')).
Qed.

(** A call with another number of arguments is refused. *)
Lemma arity_refused b l s :
  takes b l \/ (exists b', b = OverloadBinder b') \/
  (type_error py "dynabridge Python callback received wrong arity" s = seen b (local_call s b l) s).
Proof.
  destruct b as [c f|cls c f|b]; [| |by right; left; eexists]; cbn [takes local_call].
  - destruct (Nat.eqb_spec (length l) (callable_arity c)); [by left|]. right. right. apply type_error_caught.
  - destruct l as [|self l]; [right; right; apply type_error_caught|].
    destruct (Nat.eqb_spec (length l) (callable_arity c)); [left; simpl; congruence|]. right. right. apply type_error_caught.
Qed.

Definition binder_arity (b : callable_binder) : option nat :=
  match b with
  | FreeBinder c _ => Some (callable_arity c)
  | MemberBinder _ c _ => Some (S (callable_arity c))
  | OverloadBinder _ => None
  end.

(** Both entries, for the holder of a binder. *)
Lemma typed_entries kind l s args nargsf kwnames tuple n :
  binder_arity (binders kind) = Some n -> cells (heap s) args l -> PyVectorcall_NARGS nargsf = zlen l ->
  has_keywords kwnames = false -> PyTuple_items py tuple (world s) = Some l ->
  let m := if (length l =? n)%nat
           then catching py lent (fallback (binders kind))
             (if is_void (binders kind) then binder_call (binders kind) l ;; return_none py lent else binder_call (binders kind) l)
           else type_error py "dynabridge Python callback received wrong arity" in
  call_vector kind args nargsf kwnames s = m s /\ call_tuple kind tuple s = m s.
Proof.
  intros Hn Hc Hnargs Hk Ht m. pose proof (read_cells_run args l s Hc) as Hread.
  assert (holder_for kind (binders kind) = typed_callable_holder n kind /\
    fallback (binders kind) = "dynabridge Python callback failed"%string) as [Hh Hf]
    by (destruct (binders kind); simplify_eq/=; done).
  unfold call_vector, call_tuple. rewrite Hh. cbn [invoke_vector invoke_tuple].
  unfold call_vector_signature, call_signature, call_indices, m. rewrite Hf, Hk, Hnargs. unfold zlen. split.
  - destruct (Nat.eqb_spec (length l) n) as [<-|Hne].
    + rewrite Z.eqb_refl. apply catching_ext. unfold mbind at 1, eff_bind at 1. by rewrite Hread.
    + by rewrite (proj2 (Z.eqb_neq _ _)) by lia.
  - rewrite (eff_bind_run _ _ s (Some l) s) by (unfold asks, gets; by rewrite Ht). by destruct (length l =? n)%nat.
Qed.

Lemma overload_entries kind b l s args nargsf kwnames tuple :
  binders kind = OverloadBinder b -> cells (heap s) args l -> PyVectorcall_NARGS nargsf = zlen l ->
  has_keywords kwnames = false -> PyTuple_items py tuple (world s) = Some l ->
  let m := catching py lent (fallback (binders kind)) (result ← binder_dispatch (binders kind) l; unwrap_result py result) in
  call_vector kind args nargsf kwnames s = m s /\ call_tuple kind tuple s = m s.
Proof.
  intros Hb Hc Hnargs Hk Ht m. pose proof (read_cells_run args l s Hc) as Hread.
  assert (holder_for kind (binders kind) = overload_callable_holder kind) as Hh by (by rewrite Hb).
  unfold call_vector, call_tuple, m. rewrite Hh. cbn [invoke_vector invoke_tuple].
  unfold overload_call_vector, overload_call_tuple. rewrite Hk, Hnargs. unfold zlen. rewrite Nat2Z.id, Hb. cbn [fallback]. split.
  - apply catching_ext. unfold mbind at 1, eff_bind at 1. by rewrite Hread.
  - by rewrite (eff_bind_run _ _ s (Some l) s) by (unfold asks, gets; by rewrite Ht).
Qed.

(** C3: a call from Python is a local call. Entered by vector or by tuple, a callable that
    was made for a free signature, a member or an overload group calls exactly the
    C++ function that [local_call] names, on the arguments it names: the first signature
    of the group that reads them, on the native of its receiver. Reading them changes no
    object, no reference and no error. The new object is returned; what the function
    throws becomes the error, and when there is no local call the error says why and
    nothing was run. *)
Theorem python_call_is_local_call kind l s args nargsf kwnames tuple :
  pending s = None -> initialised s l -> readable_binder (binders kind) ->
  cells (heap s) args l -> PyVectorcall_NARGS nargsf = zlen l -> has_keywords kwnames = false ->
  PyTuple_items py tuple (world s) = Some l ->
  exists s', read_only s s' /\
    call_vector kind args nargsf kwnames s = seen (binders kind) (local_call s (binders kind) l) s' /\
    call_tuple kind tuple s = seen (binders kind) (local_call s (binders kind) l) s'.
Proof.
  intros Hp Hi Hr Hc Hnargs Hk Ht. destruct (binder_arity (binders kind)) as [n|] eqn:Hn.
  - destruct (typed_entries kind l s args nargsf kwnames tuple n Hn Hc Hnargs Hk Ht) as [-> ->].
    destruct (arity_refused (binders kind) l s) as [Htakes|[[b Hb]|Hrefused]]; [|by rewrite Hb in Hn|].
    + assert (length l = n) as Hl by (destruct (binders kind); simplify_eq/=; done).
      rewrite (proj2 (Nat.eqb_eq _ _) Hl).
      destruct (typed_local (binders kind) l s Hp Hi Hr Htakes) as (s' & Hs' & Hrun).
      exists s'. split; [done|]. split; by apply catching_ext.
    + destruct (Nat.eqb_spec (length l) n) as [Hl|]; [|exists s; split; [by apply read_only_refl|done]].
      assert (takes (binders kind) l) as Htakes by (destruct (binders kind); simplify_eq/=; done).
      destruct (typed_local (binders kind) l s Hp Hi Hr Htakes) as (s' & Hs' & Hrun).
      exists s'. split; [done|]. split; by apply catching_ext.
  - destruct (binders kind) as [| |b] eqn:Hb; try done.
    destruct (overload_entries kind b l s args nargsf kwnames tuple Hb Hc Hnargs Hk Ht) as [-> ->]. rewrite Hb.
    destruct (overload_local b l s Hp Hi Hr) as (s' & Hs' & Hrun). by exists s'.
Qed.
End Calls.

(** ** Callables of a sample interpreter *)

Module DispatchSample.
Abbreviation W := (list (Z + text)) (only parsing).
Import PythonConverters.ScalarSample.

(** Objects hold integers and texts; the second object is an instance of the class. *)
Definition interp : interpreter W := {|
  finalize := fun _ w e => (w, e);
  make_error := fun t m w => (w ++ [inr m], mk_err (Some t) (Some (length w)) None);
  PyExc_TypeError := 1001%nat;
  PyExc_RuntimeError := 1002%nat;
  Py_None := 1003%nat;
  no_memory := mk_err (Some 1002%nat) None None;
  PyObject_Vectorcall := fun _ _ => make (inl 0);
  PyObject_CallObject := fun _ _ => make (inl 0);
  PyTuple_New := fun _ => make (inl 0);
  PyTuple_SET_ITEM := fun _ _ _ w => w;
  PyModule_AddObject := fun _ _ _ w => (w, Returned tt);
  PyObject_SetAttrString := fun _ _ _ w => (w, Returned tt);
  PyObject_GetAttrString := fun _ _ => make (inl 0);
  PyImport_ImportModule := fun _ => make (inl 0);
  PyType_FromSpec := fun _ _ => make (inl 0);
  PyType_GenericNew := fun _ _ => make (inl 0);
  tp_alloc := fun _ _ => make (inl 0);
  PyType_Ready := fun w => (w, Returned tt);
  PyObject_New := fun _ => make (inl 0);
  PyObject_New_instance := fun _ _ => make (inl 0);
  PyMethod_New := fun _ _ => make (inl 0);
  PyCallable_Check := fun _ _ => false;
  PyObject_TypeCheck := fun o _ _ => Nat.eqb o 2;
  PyTuple_items := fun t _ => match t with 50%nat => Some [0; 1]%nat | 51%nat => Some [2]%nat | _ => Some [] end;
  PyDict_Size := fun _ _ => 0;
  tp_dict_item := fun _ _ _ => None;
  has_gc := fun _ _ => false;
  PyMem_Malloc := fun _ _ => true
|}.
Definition export_class (c : nat) : option obj := if (c =? 7)%nat then Some 100%nat else None.
Definition lent : gset obj := {[ 1001; 1002; 1003 ]}%nat.
Definition heap0 : py_heap :=
  mk_heap true ∅ ∅ {[ 2%nat := mk_instance true true (Some 7%nat) ]} {[ 2%nat := 7%nat ]}
    {[ 0 := Some 0%nat; 1 := Some 1%nat; 2 := Some 2%nat ]}.
Definition start : py_state W py_heap := mk_py ∅ None [inl 5; inr (lit "x"); inr []] heap0.

#[global] Instance reading : ReadingLaws interp sample value utf8.
Proof.
  assert (forall w, same_objects interp sample value utf8 w w) as Hsame by (by split).
  split.
  - intros o w. cbn. destruct (value o w) as [v|]; [destruct (_ && _)|]; apply Hsame.
  - intros o w. cbn. destruct (utf8 o w); apply Hsame.
  - intros o w t _ Ht. cbn. by rewrite Ht.
Qed.

Definition f_int : contract param := mk_contract (Some PInt) [PInt; PInt] false.
Definition f_text : contract param := mk_contract (Some PString) [PInt; PString] false.
Definition f_object : contract param := mk_contract (Some PInt) [PObject 7] false.
Definition f : ExportDispatch.target (T := param) (A := cpp_value) (R := cpp_value) (W := py_state W py_heap) := fun c args s =>
  match args with
  | [AInt z; AString t] => (Ok (AString (t ++ t)), s)
  | [AObject p] => (Throw (std_exception (lit "no")), s)
  | _ => (Ok (AInt (zlen args)), s)
  end.
Definition binders (kind : nat) : callable_binder := OverloadBinder (mk_binder [f_int; f_text; f_object] f).
Definition call : Z -> Z -> option nat -> eff (py_state W py_heap) (option obj) :=
  call_vector (N := unit) interp lent sample 32 no_access export_class ExportDispatch.Sample.order binders
    (fun _ _ => mret []) (fun _ _ => mret tt) 3.

(** The second signature is the first that reads a number and a text; its result is a new
    object. What the function throws on the instance becomes a [RuntimeError]. *)
Example text_is_chosen : match call 0 2 None start with
  | (Ok (Some 3%nat), s) => world s !! 3%nat = Some (inr (lit "xx")) /\ held s = {[+ 3%nat +]} | _ => False end.
Proof. by vm_compute. Qed.
Example exception_is_set : match call 2 1 None start with
  | (Ok None, s) => pending s = Some (mk_err (Some 1002%nat) (Some 3%nat) None) /\ world s !! 3%nat = Some (inr (lit "no")) | _ => False end.
Proof. by vm_compute. Qed.
End DispatchSample.

Lemma python_call_is_local_call_witness :
  exists s', read_only DispatchSample.interp ScalarSample.sample ScalarSample.value ScalarSample.utf8 DispatchSample.start s' /\
    DispatchSample.call 0 2 None DispatchSample.start =
    seen DispatchSample.interp DispatchSample.lent (DispatchSample.binders 3)
      (inr (answer (B := py_backend DispatchSample.interp DispatchSample.lent ScalarSample.sample 32 no_access DispatchSample.export_class)
         DispatchSample.f DispatchSample.f_text [AInt 5; AString (lit "x")])) s'.
Proof.
  destruct (python_call_is_local_call (N := unit) (H := ExportDispatch.Sample.exceptions) DispatchSample.interp DispatchSample.lent
    ScalarSample.sample 32 no_access DispatchSample.export_class ExportDispatch.Sample.order DispatchSample.binders
    (fun _ _ => mret []) (fun _ _ => mret tt) ScalarSample.value ScalarSample.utf8 ExportDispatch.Sample.order_permutes eq_refl
    ltac:(lia) ScalarSample.sample_fits 3 [0; 1]%nat DispatchSample.start 0 2 None 50) as (s' & Hs' & Hcall & _).
  - reflexivity.
  - intros o c t Ho Hc Ht. cbn in Ht. apply Nat.eqb_eq in Ht as ->. eexists. split; reflexivity.
  - repeat constructor. cbn. eexists. reflexivity.
  - intros [|[|i]] o Ho; simplify_eq/=; reflexivity.
  - reflexivity.
  - reflexivity.
  - reflexivity.
  - exists s'. split; [exact Hs'|]. etransitivity; [exact Hcall|]. reflexivity.
Defined.
